(* ===== verification/_CoqProject ===== *)
-Q . S2P
Prelude.v
Types.v
Wire.v
WireProps.v
Encode.v
Decode.v
Wellformed.v
DecodeProps.v
RoundTrip.v
Codec.v
Envelope.v
CodecTheorems.v
Lsdb.v
Scope.v
FloodState.v
Flood.v
FloodInv.v
FloodTide.v
FloodDrain.v
FloodTheorems.v
FloodSync.v
LieFsm.v
LieSpec.v
LieTheorems.v
Netip.v
Spf.v
PrioQueue.v
Southbound.v
Northbound.v
Disagg.v
SpfEngine.v
Dijkstra.v
SpfRoutes.v
SpfStore.v
SpfTheorems.v
Ndk.v
NdkClient.v
Config.v
Notifications.v
Transport.v
Sockets.v
SocketTheorems.v
Agent.v
Telemetry.v
RouteSync.v
AgentSpf.v
LieEvents.v
AgentSystem.v
AgentInv.v
AgentTheorems.v
SystemTheorems.v
