(* ===== verification/Prelude.v ===== *)
(** * A verified model of srl-rift, a RIFT (RFC 9692) agent for SR Linux

    The agent runs, in one process, a LIE finite state machine per interface, a
    flood engine, a shortest-path engine and an agent that programs routes.
    Packets arrive from UDP sockets, are decoded by the transport and handed to
    the LIE machine of their interface or to the flood engine.  The LIE machines
    tell the agent about adjacencies, the agent tells the flood engine, the
    flood engine keeps the link-state database (LSDB) and announces changes to
    the shortest-path engine, whose routes the agent installs.

    ** The files and the code they model

    - [Prelude]: notation, machine integers, record update, Go's [range] over a
      map as the class [MapRange], tactics.
    - [Types]: the packet structs and constants of
      [internal/encoding/types.go] and [common.go].
    - [Wire]: [Encoder.write*], [Decoder.read*], [Decoder.skip] and the field
      loop of [internal/encoding/codec.go]; [WireProps]: their laws.
    - [Encode], [Decode]: the struct encoders and decoders of [codec.go].
    - [Wellformed]: what a Go value satisfies by its types ([typed_*]) and what
      a receiver accepts ([fits_*]).
    - [DecodeProps], [RoundTrip], [Codec]: safety and round trip per struct.
    - [Envelope]: [internal/encoding/envelope.go] and the framing functions
      ([encodePacket], [encodeFloodPacket], [decodePacket]) of
      [internal/transport/udp.go].
    - [CodecTheorems]: the properties of the wire format.
    - [Lsdb]: [internal/tie/lsdb.go], with the orders on identifiers and
      headers, and module [LsdbTheorems].
    - [Scope]: [internal/tie/scope.go] and [shouldAcceptTIE] of [flood.go], and
      module [ScopeTheorems].
    - [FloodState], [Flood]: the state, the origination and the handlers of the
      flood engine ([internal/tie/types.go], [originate.go], [flood.go]);
      the [select] loop of [Run] is the step relation [flood_step].
    - [FloodInv], [FloodTide], [FloodDrain]: the engine's invariant, the TIDE
      exchange, the queues; [FloodTheorems]: its properties; [FloodSync]: two
      engines exchanging their databases.
    - [LieFsm]: [internal/lie/fsm.go] and [interface.go]; [LieSpec]: the
      abstract table it implements; [LieTheorems]: its properties.
    - [Netip]: prefixes as text ([PrefixToString], [StringToPrefix] and Go's
      [netip.ParsePrefix]).
    - [Spf]: the routes and lookups of [internal/spf/types.go] and
      [helpers.go]; [PrioQueue]: the heap of [southbound.go] behind the class
      [PriorityQueue]; [Southbound], [Northbound], [Disagg], [SpfEngine]: the
      files of the same names ([spf.go] the last).
    - [Dijkstra], [SpfRoutes], [SpfStore]: the search, the RIBs and the sharing
      of routes between RIBs; [SpfTheorems]: the properties.
    - [Ndk]: [internal/ndk/routes.go], with the class [RouteService] of what the
      route service does; [NdkClient]: [internal/ndk/client.go];
      [Notifications]: [internal/ndk/notifications.go].
    - [Config]: [internal/config/config.go]; [Transport]: what
      [internal/transport/udp.go] decides around its sockets; [Sockets]: how it
      makes them, as sequences of system calls; [SocketTheorems]: that none
      leaks a descriptor, nor the namespace unless going back to it fails.
    - [Agent]: the handlers of [internal/agent/agent.go] and [disagg.go];
      [Telemetry]: what the agent publishes.
    - [RouteSync], [AgentSpf]: route synchronisation and what it needs of SPF;
      [AgentTheorems]: the properties of the agent alone.
    - [AgentSystem]: the agent, its LIE machines and the flood engine as one
      system, [sysStep]; [LieEvents], [AgentInv]: its invariants;
      [SystemTheorems]: the properties over all interleavings.

    ** How the code is rendered

    A handler is a function from the component's state to its state (with the
    messages it emits kept, in order, in the state); a goroutine's loop is a step
    relation over the handlers.  Each engine's state is owned by one goroutine,
    so handlers are atomic; channels are queues in the state, with their capacity
    and the drop on overflow where the code has a [select] with [default].  A Go
    pointer to a struct kept in a map is the key under which the struct is kept.
    Signed integers are [Z] and wrap where the code computes on them; the [typed_*]
    predicates give the ranges.  Errors are values ([decode_error],
    [encode_error], [option]).  The iteration order of a Go map is a
    [MapRange] parameter, over which the theorems quantify.  Locks appear where
    they decide behaviour: a write lock requested while the same goroutine holds
    a read lock is [Deadlock].

    ** What the theorems show

    - Wire format: encoding and decoding are inverse on well-formed packets, the
      encoding is prefix-free, decoding of any bytes terminates and yields values
      in range, errors of the encoder are characterised, and what the envelope
      loses (TIE origin header, remaining lifetime).
    - LSDB and scope: the orders are total orders, header lists are sorted and
      complete, lifetimes age; flooding is loop-free in the north and one hop for
      south prefixes; where sending, advertising and accepting disagree.
    - Flood engine: the invariant of every reachable state, that no event takes a
      TIE back to an older version and own ones change only with a new number,
      the reaction to TIEs and TIDEs on every branch, the tiling of the
      identifier space by TIDE chunks, draining, origination, and the
      synchronisation of two engines in one TIDE/TIRE/TIE exchange; also where
      the engine blocks, stalls or retransmits.
    - LIE: the event queue refines a one-step table, ThreeWay needs a reflection,
      two machines reach it, expiry, recovery, and the events the agent sees.
    - Routes: the search ends and finds the shortest paths with all their first
      hops, both RIBs are exact, a run of the engine equals their merge although
      routes are shared by pointer, disaggregation is exact.
    - Agent: after the SPF timer the tables of the route service hold the RIB;
      closing empties them; which interfaces a commit starts and stops; exactly
      which local prefixes are originated; and where the code goes wrong (a failed
      group is not retried, one bad prefix empties the tables, an interface
      added late is not started, host bits are kept in local prefixes).
    - Start: starting an interface leaks no descriptor whichever system calls
      fail and comes back to its namespace unless that very call fails;
      registering with the NDK is all or nothing.
    - System: over every interleaving the flood engine uses only adjacencies a
      LIE machine accepted, and it agrees with the machines as long as no
      interface is stopped; a stopped one leaves its adjacency behind; a packet
      sent by one agent arrives unchanged at the other.

    ** Bounds and fuel

    [fieldLoop] runs with the number of unread bytes as fuel, [skip] with two
    more than that; [decodeStruct_unfold] and [reads_skip] show
    that the fuel never runs out, and [decodePacket_safe] states it for a whole
    datagram.  [chunkLoop] has one unit per header, each chunk consumes at least
    one.  [drainLoop] has the total [weight] of the queue, and each event's
    processing pushes less weight than it removes ([processEvent_weight]).
    The southbound search runs at most [spfFuel] rounds, one for the start and
    one per link of an originator; each node is expanded once when costs are
    positive and distances do not overflow, and [southbound_shortest_paths]
    proves that the search ends then.  Without that hypothesis [None] says that
    the bound is reached.  [up] and [down] of the heap move by at least one
    position a round.

    ** What the theorems assume

    [MapRange] resolves the order of map iterations, [PriorityQueue] is
    implemented by [binaryHeap].  [RouteService] is the documented behaviour of
    the NDK route service, implemented by [tableService]; the kernel's answers to
    system calls and the answers of the NDK are arbitrary functions of the calls
    so far, also the one that takes the thread back to its own
    namespace, whose failure the code ignores ([lost_namespace]); whether a request
    succeeds is a parameter of the [World], with the link identifiers and
    addresses of interfaces and whether a flood socket opens.  The channels
    between the agent, the LIE machines and the flood engine's adjacency changes
    are unbounded here; the code blocks the sender when one is full.  A stopped
    LIE machine takes no further step.

    ** What is not modelled

    The loops that wait for a socket, a ticker or the end of the context, of
    which one round is modelled; the keepalive ticker of [agent.go]; the other
    goroutines while a thread is locked to a namespace;
    [encoding/json], whose decoded value is the input of [ParseRiftData];
    [cmd/rift-srl/main.go]; logging and the [String] methods that only it
    uses.  The data race between the flood engine, which ages entries in place,
    and the transport, which encodes queued packets that share them, is not
    expressible here: a queued packet is the value it had when it was queued.
*)

From Stdlib Require Export ZArith Lia String Strings.Byte.
From stdpp Require Export base tactics list gmap strings fin_maps fin_sets sorting.
#[export] Set Default Goal Selector "!".
#[global] Open Scope Z_scope.

Declare Scope rift_scope.
Delimit Scope rift_scope with rift.
#[global] Open Scope rift_scope.

Create HintDb rift.

(** ** Functional record update

    [r <| f := v |>] is the Go assignment [r.f = v] on a struct value.  A
    record type takes part by naming its eta expansion in an [Eta] instance;
    the setter of a projection is then found by abstracting the projection in
    that expansion. *)
Class Eta (R : Type) := eta_of : R -> R.
Class SetField {R T : Type} (p : R -> T) := set_field : (T -> T) -> R -> R.

#[global] Arguments set_field {R T} p {_} _ _ /.

Ltac derive_set_field :=
  match goal with
  | |- @SetField ?R ?T ?p =>
      let e := constr:(_ : Eta R) in
      let e := eval hnf in e in
      let f := eval pattern p in e in
      match f with
      | ?g _ =>
          let t := eval cbv beta in (fun (upd : T -> T) => g (fun r : R => upd (p r))) in
          exact t
      end
  end.
#[export] Hint Extern 0 (SetField _) => derive_set_field : typeclass_instances.

Notation "r <| f := v |>" := (set_field f (fun _ => v) r)
  (at level 1, f at next level, left associativity,
   format "r  <| f  :=  v |>") : rift_scope.

(** ** Machine integers: Go's intN types as [Z] with explicit wrap-around *)

(** [wrap w z] is the conversion of [z] to a signed [w]-bit integer. *)
Definition wrap (w : Z) (z : Z) : Z :=
  (z + 2 ^ (w - 1)) mod 2 ^ w - 2 ^ (w - 1).

(** [uwrap w z] is the conversion of [z] to an unsigned [w]-bit integer. *)
Definition uwrap (w : Z) (z : Z) : Z := z mod 2 ^ w.

(** The values of a signed [w]-bit type. *)
Definition is_int (w : Z) (z : Z) : Prop := - 2 ^ (w - 1) <= z < 2 ^ (w - 1).

#[export] Instance is_int_dec w z : Decision (is_int w z).
Proof. unfold is_int. apply _. Defined.

Lemma wrap_id w z : 0 < w -> is_int w z -> wrap w z = z.
Proof.
  unfold wrap, is_int. intros Hw Hz.
  assert (2 ^ w = 2 * 2 ^ (w - 1)) as E.
  { rewrite <- Z.pow_succ_r by lia. f_equal. lia. }
  rewrite Z.mod_small by lia. lia.
Qed.

Lemma wrap_is_int w z : 0 < w -> is_int w (wrap w z).
Proof.
  unfold wrap, is_int. intros Hw.
  assert (2 ^ w = 2 * 2 ^ (w - 1)) as E.
  { rewrite <- Z.pow_succ_r by lia. f_equal. lia. }
  pose proof (Z.pow_pos_nonneg 2 (w - 1)).
  pose proof (Z.mod_pos_bound (z + 2 ^ (w - 1)) (2 ^ w)). lia.
Qed.

Lemma wrap_wrap w z : 0 < w -> wrap w (wrap w z) = wrap w z.
Proof. intros Hw. apply wrap_id; [done|by apply wrap_is_int]. Qed.

Lemma wrap_uwrap w z : 0 < w -> wrap w (uwrap w z) = wrap w z.
Proof.
  unfold wrap, uwrap. intros Hw.
  rewrite Zplus_mod_idemp_l. done.
Qed.

#[global] Arguments wrap : simpl never.
#[global] Arguments uwrap : simpl never.
#[global] Arguments is_int : simpl never.

(** [wrap] at a concrete width, for [lia]. *)
Lemma is_int8 z : is_int 8 z <-> -128 <= z < 128.
Proof. unfold is_int. lia. Qed.
Lemma is_int16 z : is_int 16 z <-> -32768 <= z < 32768.
Proof. unfold is_int. lia. Qed.
Lemma is_int32 z : is_int 32 z <-> -2147483648 <= z < 2147483648.
Proof. unfold is_int. lia. Qed.
Lemma is_int64 z :
  is_int 64 z <-> -9223372036854775808 <= z < 9223372036854775808.
Proof. unfold is_int. lia. Qed.

#[export] Hint Resolve wrap_is_int : rift.

(** ** Go's [range] over a map

    The iteration order of a Go map is unspecified and may differ between two
    loops over equal maps.  A [MapRange] is one resolution of that choice; the
    theorems hold for every resolution. *)
Class MapRange := {
  range_set {K} `{Countable K} : gset K -> list K;
  range_set_perm {K} `{Countable K} (s : gset K) : range_set s ≡ₚ elements s;
  range_map {K} `{Countable K} {A} : gmap K A -> list (K * A);
  range_map_perm {K} `{Countable K} {A} (m : gmap K A) :
    range_map m ≡ₚ map_to_list m;
}.

(** The resolution that follows stdpp's own enumeration, used by the
    witnesses. *)
Definition canonical_range : MapRange := {|
  range_set K _ _ := elements;
  range_set_perm K _ _ s := Permutation_refl (elements s);
  range_map K _ _ A := map_to_list;
  range_map_perm K _ _ A m := Permutation_refl (map_to_list m)
|}.

Section map_range.
Context {R : MapRange} `{Countable K}.
Lemma elem_of_range_set (s : gset K) x : x ∈ range_set s <-> x ∈ s.
Proof. rewrite range_set_perm. apply elem_of_elements. Qed.
Lemma NoDup_range_set (s : gset K) : NoDup (range_set s).
Proof. rewrite range_set_perm. apply NoDup_elements. Qed.
Lemma elem_of_range_map {A} (m : gmap K A) k a :
  (k, a) ∈ range_map m <-> m !! k = Some a.
Proof. rewrite range_map_perm. apply elem_of_map_to_list. Qed.
Lemma NoDup_range_map {A} (m : gmap K A) : NoDup (range_map m).*1.
Proof. rewrite range_map_perm. apply NoDup_fst_map_to_list. Qed.
Lemma range_map_singleton {A} (k : K) (a : A) : range_map ({[k := a]} : gmap K A) = [(k, a)].
Proof. apply Permutation_singleton_r. by rewrite range_map_perm, map_to_list_singleton. Qed.
End map_range.

(** Inserting the pairs of a list one by one. *)
Lemma foldl_insert_union `{Countable K} {A} (l : list (K * A)) (m0 : gmap K A) :
  NoDup l.*1 ->
  foldl (fun (m : gmap K A) '(k, v) => <[k := v]> m) m0 l = list_to_map l ∪ m0.
Proof.
  revert m0. induction l as [|[k v] l IH]; intros m0 Hl; simpl.
  - by rewrite map_empty_union.
  - apply NoDup_cons in Hl as [Hk Hl]. rewrite IH by done.
    assert ((list_to_map l : gmap K A) !! k = None) by by apply not_elem_of_list_to_map_1.
    rewrite <-insert_union_r by done. by rewrite insert_union_l.
Qed.

(** Reading a map entry by entry rebuilds it, whatever the order. *)
Lemma foldl_insert_map `{Countable K} {A} (l : list (K * A)) (m : gmap K A) :
  l ≡ₚ map_to_list m ->
  foldl (fun (m : gmap K A) '(k, v) => <[k := v]> m) ∅ l = m.
Proof.
  intros Hl.
  assert (NoDup l.*1) as Hnd by (rewrite Hl; apply NoDup_fst_map_to_list).
  rewrite foldl_insert_union, map_union_empty by done.
  by rewrite (list_to_map_proper l _ Hnd Hl), list_to_map_to_list.
Qed.

(** The keys produced from distinct items are distinct if the items determine
    them. *)
Lemma NoDup_omap_fst {A K B} (f : A -> option (K * B)) (l : list A) :
  NoDup l ->
  (forall a a' k b b', a ∈ l -> a' ∈ l -> f a = Some (k, b) -> f a' = Some (k, b') -> a = a') ->
  NoDup (omap f l).*1.
Proof.
  induction 1 as [|a l Ha Hl IH]; intros Hf; [constructor|]. cbn.
  assert (NoDup (omap f l).*1) as Hnd by (apply IH; intros; eapply Hf; try done; by right).
  destruct (f a) as [[k b]|] eqn:E; [|done]. cbn. apply NoDup_cons. split; [|done].
  intros ([k' b'] & -> & (a' & Ha' & E')%list_elem_of_omap)%list_elem_of_fmap.
  assert (a = a') as <-; [|done]. by eapply Hf; [left|right| |].
Qed.

Lemma filter_none {A} (P : A -> Prop) `{forall x, Decision (P x)} (l : list A) :
  Forall (fun x => ~ P x) l -> filter P l = [].
Proof. induction 1; [done|]. by rewrite filter_cons_False. Qed.

(** ** Generic tactics *)

(** Split every conjunction in the context and in the goal. *)
Ltac split_all :=
  repeat match goal with
  | H : _ /\ _ |- _ => destruct H
  | |- _ /\ _ => split
  end.

(** Case analysis on the boolean tests of integers. *)
Ltac zcases :=
  repeat match goal with
  | |- context [?a =? ?b] => destruct (Z.eqb_spec a b)
  | |- context [?a <? ?b] => destruct (Z.ltb_spec a b)
  | |- context [?a <=? ?b] => destruct (Z.leb_spec a b)
  | |- context [?a >? ?b] => rewrite (Z.gtb_ltb a b)
  | |- context [?a >=? ?b] => rewrite (Z.geb_leb a b)
  end.
