(* ===== verification/Types.v ===== *)
(** * Types: the packet types and protocol constants
    ([internal/encoding/types.go] and [internal/encoding/common.go]).

    Signed Go integers are [Z] (their range is the [wf_*] invariant of
    [Wellformed.v]), Go strings are [string] (8-bit characters), [[]byte] is
    [list byte], a pointer to an optional field is an [option], a Go map or set
    is a [gmap]/[gset].  Field names carry the struct's name as a prefix. *)

From S2P Require Import Prelude.

Abbreviation bytes := (list byte).

#[export] Instance byte_eq_dec : EqDecision byte := Byte.byte_eq_dec.

(** ** Constants of common.go *)

Definition TieDirectionIllegal : Z := 0.
Definition TieDirectionSouth : Z := 1.
Definition TieDirectionNorth : Z := 2.
Definition TieDirectionDirectionMaxValue : Z := 3.

Definition TIETypeNodeTIEType : Z := 2.
Definition TIETypePrefixTIEType : Z := 3.
Definition TIETypePositiveDisaggregationPrefixTIEType : Z := 4.
Definition TIETypeMaxValue : Z := 10.

Definition RouteTypeNorthPrefix : Z := 6.
Definition RouteTypeSouthPrefix : Z := 8.

Definition TopOfFabricLevel : Z := 24.
Definition LeafLevel : Z := 0.
Definition DefaultDistance : Z := 1.
Definition DefaultLIEHoldtime : Z := 3.
Definition MultipleNeighborsLIEHoldtimeMultiplier : Z := 4.
Definition IllegalSystemID : Z := 0.
Definition DefaultLifetime : Z := 604800.
Definition LifetimeDiff2Ignore : Z := 400.
Definition DefaultTIEUDPFloodPort : Z := 915.
Definition DefaultMTUSize : Z := 1400.
Definition ProtocolMajorVersion : Z := 8.
Definition ProtocolMinorVersion : Z := 0.

(** ** Structs *)

Record IEEE802_1ASTimeStampType := mkTimeStamp {
  TS_ASSec : Z;
  TS_ASNsec : option Z
}.

Record IPv4PrefixType := mkIPv4Prefix { IPv4_Address : Z; IPv4_PrefixLen : Z }.
Record IPv6PrefixType := mkIPv6Prefix { IPv6_Address : bytes; IPv6_PrefixLen : Z }.

(** A union: exactly one field is set. *)
Record IPPrefixType := mkIPPrefix {
  IPPrefix_IPv4Prefix : option IPv4PrefixType;
  IPPrefix_IPv6Prefix : option IPv6PrefixType
}.

Record PrefixSequenceType := mkPrefixSequence {
  PS_Timestamp : IEEE802_1ASTimeStampType;
  PS_TransactionID : option Z
}.

Record PacketHeader := mkPacketHeader {
  PH_MajorVersion : Z;
  PH_MinorVersion : Z;
  PH_Sender : Z;
  PH_Level : option Z
}.

Record Neighbor := mkNeighbor { Neighbor_Originator : Z; Neighbor_RemoteID : Z }.

Record NodeCapabilities := mkNodeCapabilities {
  NC_ProtocolMinorVersion : Z;
  NC_FloodReduction : option bool;
  NC_HierarchyIndications : option Z
}.

Record LinkCapabilities := mkLinkCapabilities {
  LC_BFD : option bool;
  LC_IPv4ForwardingCapable : option bool
}.

Record LIEPacket := mkLIEPacket {
  LIE_Name : string;
  LIE_LocalID : Z;
  LIE_FloodPort : Z;
  LIE_LinkMTUSize : option Z;
  LIE_LinkBandwidth : option Z;
  LIE_Neighbor : option Neighbor;
  LIE_Pod : option Z;
  LIE_NodeCapabilities : NodeCapabilities;
  LIE_LinkCapabilities : option LinkCapabilities;
  LIE_Holdtime : Z;
  LIE_Label : option Z;
  LIE_NotAZTPOffer : option bool;
  LIE_YouAreFloodRepeater : option bool;
  LIE_YouAreSendingTooQuickly : option bool;
  LIE_InstanceName : string;
  LIE_FabricID : option Z
}.

Record LinkIDPair := mkLinkIDPair {
  LIP_LocalID : Z;
  LIP_RemoteID : Z;
  LIP_PlatformInterfaceIndex : option Z;
  LIP_PlatformInterfaceName : string;
  LIP_TrustedOuterSecurityKey : option Z;
  LIP_BFDUp : option bool;
  LIP_AddressFamilies : gset Z
}.

Record TIEID := mkTIEID {
  Direction : Z;
  Originator : Z;
  TIEType : Z;
  TIENr : Z
}.

Record TIEHeader := mkTIEHeader {
  Header_TIEID : TIEID;
  SeqNr : Z;
  OriginationTime : option IEEE802_1ASTimeStampType;
  OriginationLifetime : option Z
}.

Record TIEHeaderWithLifeTime := mkTIEHeaderWithLifeTime {
  HL_Header : TIEHeader;
  HL_RemainingLifetime : Z
}.

Record TIDEPacket := mkTIDEPacket {
  TIDE_StartRange : TIEID;
  TIDE_EndRange : TIEID;
  TIDE_Headers : list TIEHeaderWithLifeTime
}.

Record TIREPacket := mkTIREPacket { TIRE_Headers : list TIEHeaderWithLifeTime }.

Record NodeNeighborsTIEElement := mkNodeNeighbors {
  NN_Level : Z;
  NN_Cost : option Z;
  NN_LinkIDs : list LinkIDPair;
  NN_Bandwidth : option Z
}.

Record NodeFlags := mkNodeFlags { NF_Overload : option bool }.

Record NodeTIEElement := mkNodeTIE {
  Node_Level : Z;
  Node_Neighbors : gmap Z NodeNeighborsTIEElement;
  Node_Capabilities : NodeCapabilities;
  Node_Flags : option NodeFlags;
  Node_Name : string;
  Node_Pod : option Z;
  Node_StartupTime : option Z;
  Node_MiscabledLinks : gset Z;
  Node_SamePlaneTofs : gset Z;
  Node_FabricID : option Z
}.

Record PrefixAttributes := mkPrefixAttributes {
  PA_Metric : Z;
  PA_Tags : gset Z;
  PA_MonotonicClock : option PrefixSequenceType;
  PA_Loopback : option bool;
  PA_DirectlyAttached : option bool;
  PA_FromLink : option Z;
  PA_Label : option Z
}.

Record PrefixEntry := mkPrefixEntry {
  PE_Prefix : IPPrefixType;
  PE_Attributes : PrefixAttributes
}.

Record PrefixTIEElement := mkPrefixTIE { PT_Prefixes : list PrefixEntry }.

Record KeyValueTIEElementContent := mkKeyValueContent {
  KVC_Targets : option Z;
  KVC_Value : option bytes
}.

Record KeyValueTIEElement := mkKeyValueTIE {
  KV_KeyValues : gmap Z KeyValueTIEElementContent
}.

(** A union: exactly one field is set. *)
Record TIEElement := mkTIEElement {
  EL_Node : option NodeTIEElement;
  EL_Prefixes : option PrefixTIEElement;
  EL_PositiveDisaggregationPrefixes : option PrefixTIEElement;
  EL_NegativeDisaggregationPrefixes : option PrefixTIEElement;
  EL_ExternalPrefixes : option PrefixTIEElement;
  EL_PositiveExternalDisaggregationPrefixes : option PrefixTIEElement;
  EL_KeyValues : option KeyValueTIEElement
}.

Record TIEPacket := mkTIEPacket { TIE_Header : TIEHeader; TIE_Element : TIEElement }.

(** A union: exactly one field is set. *)
Record PacketContent := mkPacketContent {
  PC_LIE : option LIEPacket;
  PC_TIDE : option TIDEPacket;
  PC_TIRE : option TIREPacket;
  PC_TIE : option TIEPacket
}.

Record ProtocolPacket := mkProtocolPacket {
  PP_Header : PacketHeader;
  PP_Content : PacketContent
}.

(** The values of Go's [netip.Addr] the program distinguishes: the invalid zero
    [Addr], an IPv4 address (as an unsigned 32-bit integer) and an IPv6 address
    with its zone. *)
Inductive Addr :=
  | AddrInvalid
  | AddrV4 (a : Z)
  | AddrV6 (bs : bytes) (zone : string).
#[export] Instance Addr_eq_dec : EqDecision Addr.
Proof. solve_decision. Defined.

(** ** Go zero values *)

Definition zeroTimeStamp := mkTimeStamp 0 None.
Definition zeroIPv4Prefix := mkIPv4Prefix 0 0.
Definition zeroIPv6Prefix := mkIPv6Prefix [] 0.
Definition zeroIPPrefix := mkIPPrefix None None.
Definition zeroPrefixSequence := mkPrefixSequence zeroTimeStamp None.
Definition zeroPacketHeader := mkPacketHeader 0 0 0 None.
Definition zeroNeighbor := mkNeighbor 0 0.
Definition zeroNodeCapabilities := mkNodeCapabilities 0 None None.
Definition zeroLinkCapabilities := mkLinkCapabilities None None.
Definition zeroLIEPacket :=
  mkLIEPacket "" 0 0 None None None None zeroNodeCapabilities None 0 None None
    None None "" None.
Definition zeroLinkIDPair := mkLinkIDPair 0 0 None "" None None ∅.
Definition zeroTIEID := mkTIEID 0 0 0 0.
Definition zeroTIEHeader := mkTIEHeader zeroTIEID 0 None None.
Definition zeroTIEHeaderWithLifeTime := mkTIEHeaderWithLifeTime zeroTIEHeader 0.
Definition zeroTIDEPacket := mkTIDEPacket zeroTIEID zeroTIEID [].
Definition zeroTIREPacket := mkTIREPacket [].
Definition zeroNodeNeighbors := mkNodeNeighbors 0 None [] None.
Definition zeroNodeFlags := mkNodeFlags None.
Definition zeroNodeTIE :=
  mkNodeTIE 0 ∅ zeroNodeCapabilities None "" None None ∅ ∅ None.
Definition zeroPrefixAttributes := mkPrefixAttributes 0 ∅ None None None None None.
Definition zeroPrefixEntry := mkPrefixEntry zeroIPPrefix zeroPrefixAttributes.
Definition zeroPrefixTIE := mkPrefixTIE [].
Definition zeroKeyValueContent := mkKeyValueContent None None.
Definition zeroKeyValueTIE := mkKeyValueTIE ∅.
Definition zeroTIEElement := mkTIEElement None None None None None None None.
Definition zeroTIEPacket := mkTIEPacket zeroTIEHeader zeroTIEElement.
Definition zeroPacketContent := mkPacketContent None None None None.
Definition zeroProtocolPacket := mkProtocolPacket zeroPacketHeader zeroPacketContent.

(** ** Field update and decidable equality *)

#[export] Instance eta_IEEE802_1ASTimeStampType : Eta IEEE802_1ASTimeStampType :=
  fun r => mkTimeStamp (TS_ASSec r) (TS_ASNsec r).
#[export] Instance eta_IPv4PrefixType : Eta IPv4PrefixType :=
  fun r => mkIPv4Prefix (IPv4_Address r) (IPv4_PrefixLen r).
#[export] Instance eta_IPv6PrefixType : Eta IPv6PrefixType :=
  fun r => mkIPv6Prefix (IPv6_Address r) (IPv6_PrefixLen r).
#[export] Instance eta_IPPrefixType : Eta IPPrefixType :=
  fun r => mkIPPrefix (IPPrefix_IPv4Prefix r) (IPPrefix_IPv6Prefix r).
#[export] Instance eta_PrefixSequenceType : Eta PrefixSequenceType :=
  fun r => mkPrefixSequence (PS_Timestamp r) (PS_TransactionID r).
#[export] Instance eta_PacketHeader : Eta PacketHeader :=
  fun r => mkPacketHeader (PH_MajorVersion r) (PH_MinorVersion r) (PH_Sender r) (PH_Level r).
#[export] Instance eta_Neighbor : Eta Neighbor :=
  fun r => mkNeighbor (Neighbor_Originator r) (Neighbor_RemoteID r).
#[export] Instance eta_NodeCapabilities : Eta NodeCapabilities :=
  fun r => mkNodeCapabilities (NC_ProtocolMinorVersion r) (NC_FloodReduction r) (NC_HierarchyIndications r).
#[export] Instance eta_LinkCapabilities : Eta LinkCapabilities :=
  fun r => mkLinkCapabilities (LC_BFD r) (LC_IPv4ForwardingCapable r).
#[export] Instance eta_LIEPacket : Eta LIEPacket :=
  fun r => mkLIEPacket (LIE_Name r) (LIE_LocalID r) (LIE_FloodPort r) (LIE_LinkMTUSize r) (LIE_LinkBandwidth r) (LIE_Neighbor r) (LIE_Pod r) (LIE_NodeCapabilities r) (LIE_LinkCapabilities r) (LIE_Holdtime r) (LIE_Label r) (LIE_NotAZTPOffer r) (LIE_YouAreFloodRepeater r) (LIE_YouAreSendingTooQuickly r) (LIE_InstanceName r) (LIE_FabricID r).
#[export] Instance eta_LinkIDPair : Eta LinkIDPair :=
  fun r => mkLinkIDPair (LIP_LocalID r) (LIP_RemoteID r) (LIP_PlatformInterfaceIndex r) (LIP_PlatformInterfaceName r) (LIP_TrustedOuterSecurityKey r) (LIP_BFDUp r) (LIP_AddressFamilies r).
#[export] Instance eta_TIEID : Eta TIEID :=
  fun r => mkTIEID (Direction r) (Originator r) (TIEType r) (TIENr r).
#[export] Instance eta_TIEHeader : Eta TIEHeader :=
  fun r => mkTIEHeader (Header_TIEID r) (SeqNr r) (OriginationTime r) (OriginationLifetime r).
#[export] Instance eta_TIEHeaderWithLifeTime : Eta TIEHeaderWithLifeTime :=
  fun r => mkTIEHeaderWithLifeTime (HL_Header r) (HL_RemainingLifetime r).
#[export] Instance eta_TIDEPacket : Eta TIDEPacket :=
  fun r => mkTIDEPacket (TIDE_StartRange r) (TIDE_EndRange r) (TIDE_Headers r).
#[export] Instance eta_TIREPacket : Eta TIREPacket :=
  fun r => mkTIREPacket (TIRE_Headers r).
#[export] Instance eta_NodeNeighborsTIEElement : Eta NodeNeighborsTIEElement :=
  fun r => mkNodeNeighbors (NN_Level r) (NN_Cost r) (NN_LinkIDs r) (NN_Bandwidth r).
#[export] Instance eta_NodeFlags : Eta NodeFlags :=
  fun r => mkNodeFlags (NF_Overload r).
#[export] Instance eta_NodeTIEElement : Eta NodeTIEElement :=
  fun r => mkNodeTIE (Node_Level r) (Node_Neighbors r) (Node_Capabilities r) (Node_Flags r) (Node_Name r) (Node_Pod r) (Node_StartupTime r) (Node_MiscabledLinks r) (Node_SamePlaneTofs r) (Node_FabricID r).
#[export] Instance eta_PrefixAttributes : Eta PrefixAttributes :=
  fun r => mkPrefixAttributes (PA_Metric r) (PA_Tags r) (PA_MonotonicClock r) (PA_Loopback r) (PA_DirectlyAttached r) (PA_FromLink r) (PA_Label r).
#[export] Instance eta_PrefixEntry : Eta PrefixEntry :=
  fun r => mkPrefixEntry (PE_Prefix r) (PE_Attributes r).
#[export] Instance eta_PrefixTIEElement : Eta PrefixTIEElement :=
  fun r => mkPrefixTIE (PT_Prefixes r).
#[export] Instance eta_KeyValueTIEElementContent : Eta KeyValueTIEElementContent :=
  fun r => mkKeyValueContent (KVC_Targets r) (KVC_Value r).
#[export] Instance eta_KeyValueTIEElement : Eta KeyValueTIEElement :=
  fun r => mkKeyValueTIE (KV_KeyValues r).
#[export] Instance eta_TIEElement : Eta TIEElement :=
  fun r => mkTIEElement (EL_Node r) (EL_Prefixes r) (EL_PositiveDisaggregationPrefixes r) (EL_NegativeDisaggregationPrefixes r) (EL_ExternalPrefixes r) (EL_PositiveExternalDisaggregationPrefixes r) (EL_KeyValues r).
#[export] Instance eta_TIEPacket : Eta TIEPacket :=
  fun r => mkTIEPacket (TIE_Header r) (TIE_Element r).
#[export] Instance eta_PacketContent : Eta PacketContent :=
  fun r => mkPacketContent (PC_LIE r) (PC_TIDE r) (PC_TIRE r) (PC_TIE r).
#[export] Instance eta_ProtocolPacket : Eta ProtocolPacket :=
  fun r => mkProtocolPacket (PP_Header r) (PP_Content r).

#[export] Instance IEEE802_1ASTimeStampType_eq_dec : EqDecision IEEE802_1ASTimeStampType.
Proof. solve_decision. Defined.
#[export] Instance IPv4PrefixType_eq_dec : EqDecision IPv4PrefixType.
Proof. solve_decision. Defined.
#[export] Instance IPv6PrefixType_eq_dec : EqDecision IPv6PrefixType.
Proof. solve_decision. Defined.
#[export] Instance IPPrefixType_eq_dec : EqDecision IPPrefixType.
Proof. solve_decision. Defined.
#[export] Instance PrefixSequenceType_eq_dec : EqDecision PrefixSequenceType.
Proof. solve_decision. Defined.
#[export] Instance PacketHeader_eq_dec : EqDecision PacketHeader.
Proof. solve_decision. Defined.
#[export] Instance Neighbor_eq_dec : EqDecision Neighbor.
Proof. solve_decision. Defined.
#[export] Instance NodeCapabilities_eq_dec : EqDecision NodeCapabilities.
Proof. solve_decision. Defined.
#[export] Instance LinkCapabilities_eq_dec : EqDecision LinkCapabilities.
Proof. solve_decision. Defined.
#[export] Instance LIEPacket_eq_dec : EqDecision LIEPacket.
Proof. solve_decision. Defined.
#[export] Instance LinkIDPair_eq_dec : EqDecision LinkIDPair.
Proof. solve_decision. Defined.
#[export] Instance TIEID_eq_dec : EqDecision TIEID.
Proof. solve_decision. Defined.
#[export] Instance TIEHeader_eq_dec : EqDecision TIEHeader.
Proof. solve_decision. Defined.
#[export] Instance TIEHeaderWithLifeTime_eq_dec : EqDecision TIEHeaderWithLifeTime.
Proof. solve_decision. Defined.
#[export] Instance TIDEPacket_eq_dec : EqDecision TIDEPacket.
Proof. solve_decision. Defined.
#[export] Instance TIREPacket_eq_dec : EqDecision TIREPacket.
Proof. solve_decision. Defined.
#[export] Instance NodeNeighborsTIEElement_eq_dec : EqDecision NodeNeighborsTIEElement.
Proof. solve_decision. Defined.
#[export] Instance NodeFlags_eq_dec : EqDecision NodeFlags.
Proof. solve_decision. Defined.
#[export] Instance NodeTIEElement_eq_dec : EqDecision NodeTIEElement.
Proof. solve_decision. Defined.
#[export] Instance PrefixAttributes_eq_dec : EqDecision PrefixAttributes.
Proof. solve_decision. Defined.
#[export] Instance PrefixEntry_eq_dec : EqDecision PrefixEntry.
Proof. solve_decision. Defined.
#[export] Instance PrefixTIEElement_eq_dec : EqDecision PrefixTIEElement.
Proof. solve_decision. Defined.
#[export] Instance KeyValueTIEElementContent_eq_dec : EqDecision KeyValueTIEElementContent.
Proof. solve_decision. Defined.
#[export] Instance KeyValueTIEElement_eq_dec : EqDecision KeyValueTIEElement.
Proof. solve_decision. Defined.
#[export] Instance TIEElement_eq_dec : EqDecision TIEElement.
Proof. solve_decision. Defined.
#[export] Instance TIEPacket_eq_dec : EqDecision TIEPacket.
Proof. solve_decision. Defined.
#[export] Instance PacketContent_eq_dec : EqDecision PacketContent.
Proof. solve_decision. Defined.
#[export] Instance ProtocolPacket_eq_dec : EqDecision ProtocolPacket.
Proof. solve_decision. Defined.

(** [TIEID] is the key type of the link-state database. *)
#[export] Instance TIEID_countable : Countable TIEID.
Proof.
  refine (inj_countable'
    (fun id => (Direction id, Originator id, TIEType id, TIENr id))
    (fun '(d, o, t, n) => mkTIEID d o t n) _).
  by intros [].
Defined.
