(* ===== verification/Wire.v ===== *)
(** * Wire: Thrift binary primitives
    ([Encoder.write*], [Decoder.read*], [Decoder.skip] of
    [internal/encoding/codec.go]).

    An [Encoder] over a [bytes.Buffer] (whose [Write] never fails) is the list
    of bytes it appends; a [Decoder] is a function from the unread bytes to a
    value and the bytes left, an error, or [OutOfFuel], the outcome of a loop
    whose step bound is too small.  [decodeStruct] is the field loop every
    struct decoder of codec.go repeats; its step bound is the number of unread
    bytes, and [decodeStruct_unfold] shows that the bound is invisible. *)

From S2P Require Import Prelude.
From S2P Require Import Types.

(** ** Results and the decoder monad *)

Inductive decode_error :=
  | EOF                          (* io.EOF *)
  | UnexpectedEOF                (* io.ErrUnexpectedEOF *)
  | CollectionLenOutOfBounds (n : Z)
  | StringLenOutOfRange (n : Z)
  | BinaryLenOutOfRange (n : Z)
  | UnknownThriftType (t : Z)
  | BadMagic (m : Z).

Inductive result (A : Type) :=
  | Ok (a : A) (rest : bytes)
  | Err (e : decode_error)
  | OutOfFuel.
Arguments Ok {A}.
Arguments Err {A}.
Arguments OutOfFuel {A}.

Definition decoder (A : Type) : Type := bytes -> result A.

#[export] Instance decoder_ret : MRet decoder := fun A a bs => Ok a bs.
#[export] Instance decoder_bind : MBind decoder := fun A B k d bs =>
  match d bs with
  | Ok a rest => k a rest
  | Err e => Err e
  | OutOfFuel => OutOfFuel
  end.

Definition decode_fail {A} (e : decode_error) : decoder A := fun _ => Err e.

(** ** Thrift type identifiers *)

Definition thriftTypeStop : Z := 0.
Definition thriftTypeBool : Z := 2.
Definition thriftTypeByte : Z := 3.
Definition thriftTypeI16 : Z := 6.
Definition thriftTypeI32 : Z := 8.
Definition thriftTypeI64 : Z := 10.
Definition thriftTypeString : Z := 11.
Definition thriftTypeStruct : Z := 12.
Definition thriftTypeMap : Z := 13.
Definition thriftTypeSet : Z := 14.
Definition thriftTypeList : Z := 15.

Definition maxRIFTCollectionSize : Z := 10000.

(** ** Bytes and big-endian integers (encoding/binary) *)

Definition byte_of_Z (z : Z) : byte :=
  default x00 (Byte.of_N (Z.to_N (z mod 256))).
Definition Z_of_byte (b : byte) : Z := Z.of_N (Byte.to_N b).

(** [put_be n z]: the [n] low-order bytes of [z], most significant first. *)
Fixpoint put_be (n : nat) (z : Z) : bytes :=
  match n with
  | O => []
  | S n' => byte_of_Z (z / 256 ^ Z.of_nat n') :: put_be n' z
  end.

Definition get_be (bs : bytes) : Z :=
  foldl (fun acc b => acc * 256 + Z_of_byte b) 0 bs.

(** ** Encoder *)

Definition writeByte (v : Z) : bytes := put_be 1 v.
Definition writeI16 (v : Z) : bytes := put_be 2 (uwrap 16 v).
Definition writeI32 (v : Z) : bytes := put_be 4 (uwrap 32 v).
Definition writeI64 (v : Z) : bytes := put_be 8 (uwrap 64 v).
Definition writeBool (v : bool) : bytes := if v then writeByte 1 else writeByte 0.
Definition writeBinary (v : bytes) : bytes :=
  writeI32 (wrap 32 (Z.of_nat (length v))) ++ v.
Definition writeString (v : string) : bytes :=
  writeI32 (wrap 32 (Z.of_nat (String.length v))) ++ list_byte_of_string v.
Definition writeFieldHeader (fieldType fieldID : Z) : bytes :=
  writeByte fieldType ++ writeI16 fieldID.
Definition writeFieldStop : bytes := writeByte thriftTypeStop.

(** ** Decoder *)

(** [io.ReadFull] of [n] bytes: no bytes at all is [EOF], too few is
    [ErrUnexpectedEOF]. *)
Definition readFull (n : Z) : decoder bytes := fun bs =>
  if n =? 0 then Ok [] bs
  else match bs with
  | [] => Err EOF
  | _ => if Z.of_nat (length bs) <? n then Err UnexpectedEOF
         else Ok (take (Z.to_nat n) bs) (drop (Z.to_nat n) bs)
  end.

Definition readByte : decoder Z := b ← readFull 1; mret (get_be b).
Definition readI16 : decoder Z := b ← readFull 2; mret (wrap 16 (get_be b)).
Definition readI32 : decoder Z := b ← readFull 4; mret (wrap 32 (get_be b)).
Definition readI64 : decoder Z := b ← readFull 8; mret (wrap 64 (get_be b)).
Definition readBool : decoder bool := b ← readByte; mret (negb (b =? 0)).

Definition readCollectionLen (max : Z) : decoder Z :=
  n ← readI32;
  if (n <? 0) || (n >? max) then decode_fail (CollectionLenOutOfBounds n)
  else mret n.

Definition readString : decoder string :=
  n ← readI32;
  if (n <? 0) || (n >? Z.shiftl 1 20) then decode_fail (StringLenOutOfRange n)
  else b ← readFull n; mret (string_of_list_byte b).

Definition readBinary : decoder bytes :=
  n ← readI32;
  if (n <? 0) || (n >? Z.shiftl 1 20) then decode_fail (BinaryLenOutOfRange n)
  else readFull n.

(** The field type and identifier; the identifier of a stop field is 0. *)
Definition readFieldHeader : decoder (Z * Z) :=
  ftype ← readByte;
  if ftype =? thriftTypeStop then mret (thriftTypeStop, 0)
  else fid ← readI16; mret (ftype, fid).

(** ** Loops *)

(** [for { ftype, fid := readFieldHeader(); if stop return; step }] *)
Fixpoint fieldLoop {S} (fuel : nat) (step : Z -> Z -> S -> decoder S) (s : S)
    : decoder S := fun bs =>
  match fuel with
  | O => OutOfFuel
  | Datatypes.S fuel' =>
      ('(ftype, fid) ← readFieldHeader;
       if ftype =? thriftTypeStop then mret s
       else s' ← step ftype fid s; fieldLoop fuel' step s') bs
  end.

Definition decodeStruct {S} (step : Z -> Z -> S -> decoder S) (s : S) : decoder S :=
  fun bs => fieldLoop (Datatypes.S (length bs)) step s bs.

(** [for i := 0; i < n; i++ { s = body(s) }] *)
Fixpoint repeatDecode {S} (n : nat) (body : S -> decoder S) (s : S) : decoder S :=
  match n with
  | O => mret s
  | Datatypes.S n' => s' ← body s; repeatDecode n' body s'
  end.

(** A collection: the length, then one [body] per element. *)
Definition readCollection {S} (body : S -> decoder S) (s : S) : decoder S :=
  n ← readCollectionLen maxRIFTCollectionSize;
  repeatDecode (Z.to_nat n) body s.

(** [make([]T, n)] filled by decoding into each zero element: the slice grows
    by the decoded element. *)
Definition appendElem {A} (d : decoder A) (l : list A) : decoder (list A) :=
  a ← d; mret (l ++ [a]).

Definition insertElem (d : decoder Z) (s : gset Z) : decoder (gset Z) :=
  a ← d; mret ({[a]} ∪ s).

(** ** skip *)

(** The element loop of the map, set and list cases of [skip]: [n] rounds of
    [body], every one of which reads at least a byte, so that [fuel] bytes of
    input bound the rounds that can succeed. *)
Fixpoint skipLoop (fuel : nat) (n : Z) (body : decoder unit) : decoder unit :=
  fun bs =>
  if n <=? 0 then Ok () bs
  else match fuel with
  | O => OutOfFuel
  | S fuel' => (_ ← body; skipLoop fuel' (n - 1) body) bs
  end.

Fixpoint skipFuel (fuel : nat) (ftype : Z) : decoder unit := fun bs =>
  match fuel with
  | O => OutOfFuel
  | S fuel' =>
    (if (ftype =? thriftTypeBool) || (ftype =? thriftTypeByte) then
       _ ← readByte; mret ()
     else if ftype =? thriftTypeI16 then _ ← readI16; mret ()
     else if ftype =? thriftTypeI32 then _ ← readI32; mret ()
     else if ftype =? thriftTypeI64 then _ ← readI64; mret ()
     else if ftype =? thriftTypeString then _ ← readBinary; mret ()
     else if ftype =? thriftTypeStruct then
       fieldLoop fuel' (fun ft _ _ => skipFuel fuel' ft) ()
     else if ftype =? thriftTypeMap then
       kt ← readByte; vt ← readByte; n ← readI32;
       skipLoop fuel' n (_ ← skipFuel fuel' kt; skipFuel fuel' vt)
     else if (ftype =? thriftTypeSet) || (ftype =? thriftTypeList) then
       et ← readByte; n ← readI32;
       skipLoop fuel' n (skipFuel fuel' et)
     else decode_fail (UnknownThriftType ftype)) bs
  end.

(** Every loop round and nesting level of [skip] consumes at least a byte, so
    that the unread bytes bound them ([reads_skip]). *)
Definition skip (ftype : Z) : decoder unit :=
  fun bs => skipFuel (S (S (length bs))) ftype bs.

#[global] Arguments writeByte : simpl never.
#[global] Arguments writeI16 : simpl never.
#[global] Arguments writeI32 : simpl never.
#[global] Arguments writeI64 : simpl never.
#[global] Arguments writeBool : simpl never.
#[global] Arguments writeString : simpl never.
#[global] Arguments writeBinary : simpl never.
#[global] Arguments writeFieldHeader : simpl never.
#[global] Arguments writeFieldStop : simpl never.
#[global] Arguments decodeStruct : simpl never.
