(* ===== verification/WireProps.v ===== *)
(** * WireProps: the laws of the wire primitives.

    - big-endian round trips;
    - [Reads k P d]: decoder [d] never runs out of fuel, consumes at least [k]
      bytes when it succeeds and establishes [P];
    - [decodeStruct_unfold]: the field loop satisfies its unbounded equation;
    - [skip] never runs out of fuel. *)

From S2P Require Import Prelude.
From S2P Require Import Types.
From S2P Require Import Wire.

(** ** Big-endian integers *)

Lemma Z_of_byte_of_Z z : Z_of_byte (byte_of_Z z) = z mod 256.
Proof.
  unfold Z_of_byte, byte_of_Z.
  pose proof (Z.mod_pos_bound z 256 ltac:(lia)) as Hb.
  destruct (Byte.of_N (Z.to_N (z mod 256))) as [b|] eqn:E; simpl.
  - apply Byte.to_of_N in E. rewrite E, Z2N.id by lia. done.
  - apply Byte.of_N_None_iff in E. lia.
Qed.

Lemma Z_of_byte_range b : 0 <= Z_of_byte b < 256.
Proof. unfold Z_of_byte. pose proof (Byte.to_N_bounded b). lia. Qed.

Lemma length_put_be n z : length (put_be n z) = n.
Proof. induction n; simpl; congruence. Qed.

Lemma get_be_acc bs acc :
  foldl (fun acc b => acc * 256 + Z_of_byte b) acc bs
  = acc * 256 ^ Z.of_nat (length bs) + get_be bs.
Proof.
  unfold get_be. revert acc.
  induction bs as [|b bs IH]; intros acc; simpl foldl.
  - change (Z.of_nat (length (@nil byte))) with 0. lia.
  - rewrite IH, (IH (0 * 256 + Z_of_byte b)). simpl length.
    rewrite Nat2Z.inj_succ, Z.pow_succ_r by lia. lia.
Qed.

Lemma get_be_cons b bs :
  get_be (b :: bs) = Z_of_byte b * 256 ^ Z.of_nat (length bs) + get_be bs.
Proof. unfold get_be at 1. simpl. rewrite get_be_acc. lia. Qed.

Lemma get_be_range bs : 0 <= get_be bs < 256 ^ Z.of_nat (length bs).
Proof.
  induction bs as [|b bs IH].
  - done.
  - rewrite get_be_cons. simpl length. rewrite Nat2Z.inj_succ, Z.pow_succ_r by lia.
    pose proof (Z_of_byte_range b). nia.
Qed.

Lemma get_put_be n z : get_be (put_be n z) = z mod 256 ^ Z.of_nat n.
Proof.
  induction n as [|n IH].
  - simpl. by rewrite Z.mod_1_r.
  - cbn [put_be]. rewrite get_be_cons, IH, length_put_be, Z_of_byte_of_Z.
    rewrite Nat2Z.inj_succ, Z.pow_succ_r by lia.
    rewrite (Z.mul_comm 256).
    rewrite (Z.rem_mul_r z (256 ^ Z.of_nat n) 256) by lia. lia.
Qed.

(** ** The Hoare judgement of decoders *)

Definition Reads {A} (k : nat) (P : A -> Prop) (d : decoder A) : Prop :=
  forall bs,
    match d bs with
    | Ok a rest => P a /\ (length rest + k <= length bs)%nat
    | Err _ => True
    | OutOfFuel => False
    end.

Abbreviation always := (fun _ => True).

Lemma reads_ret {A} (P : A -> Prop) a : P a -> Reads 0 P (mret a).
Proof. intros HP bs. simpl. split; [done|lia]. Qed.

Lemma reads_fail {A} k (P : A -> Prop) e : Reads k P (decode_fail e).
Proof. by intros bs. Qed.

Lemma reads_bind {A B} k1 k2 (Q : A -> Prop) (P : B -> Prop) d f :
  Reads k1 Q d -> (forall a, Q a -> Reads k2 P (f a)) ->
  Reads (k1 + k2) P (d ≫= f).
Proof.
  intros Hd Hf bs. specialize (Hd bs). unfold mbind, decoder_bind.
  destruct (d bs) as [a r|e|]; [|done|done].
  destruct Hd as [HQ Hl]. specialize (Hf a HQ r).
  destruct (f a r) as [b r'|e|]; [|done|done].
  destruct Hf. split; [done|lia].
Qed.

Lemma reads_weaken {A} k k' (P Q : A -> Prop) d :
  Reads k P d -> (k' <= k)%nat -> (forall a, P a -> Q a) -> Reads k' Q d.
Proof.
  intros Hd Hk HPQ bs. specialize (Hd bs).
  destruct (d bs) as [a r|e|]; [|done|done].
  destruct Hd. split; [auto|lia].
Qed.

Lemma reads_if {A} k (P : A -> Prop) (b : bool) d1 d2 :
  Reads k P d1 -> Reads k P d2 -> Reads k P (if b then d1 else d2).
Proof. by destruct b. Qed.

(** The bind rule in the form the automation applies: the bytes the
    continuation reads are not counted. *)
Lemma reads_bind0 {A B} k (Q : A -> Prop) (P : B -> Prop) d f :
  Reads k Q d -> (forall a, Q a -> Reads 0 P (f a)) -> Reads k P (d ≫= f).
Proof.
  intros Hd Hf. apply (reads_weaken (k + 0) _ P); [|lia|done].
  by eapply reads_bind.
Qed.

Lemma reads_zero {A} k (P : A -> Prop) d : Reads k P d -> Reads 0 P d.
Proof. intros H. eapply reads_weaken; [exact H|lia|done]. Qed.

(** ** Primitives *)

Lemma reads_readFull n :
  Reads (Z.to_nat n) (fun b => length b = Z.to_nat n) (readFull n).
Proof.
  intros bs. unfold readFull. destruct (Z.eqb_spec n 0) as [->|Hn].
  - simpl. split; [done|lia].
  - destruct bs as [|b bs]; [done|].
    destruct (Z.ltb_spec (Z.of_nat (length (b :: bs))) n); [done|].
    rewrite length_take, length_drop. split; lia.
Qed.

Lemma reads_readByte : Reads 1 (fun v => 0 <= v < 256) readByte.
Proof.
  eapply (reads_bind0 1); [apply (reads_readFull 1)|].
  intros b Hb. apply reads_ret. pose proof (get_be_range b) as H.
  rewrite Hb in H. exact H.
Qed.

Lemma reads_readI16 : Reads 2 (is_int 16) readI16.
Proof.
  eapply (reads_bind0 2); [apply (reads_readFull 2)|].
  intros b _. apply reads_ret, wrap_is_int. lia.
Qed.

Lemma reads_readI32 : Reads 4 (is_int 32) readI32.
Proof.
  eapply (reads_bind0 4); [apply (reads_readFull 4)|].
  intros b _. apply reads_ret, wrap_is_int. lia.
Qed.

Lemma reads_readI64 : Reads 8 (is_int 64) readI64.
Proof.
  eapply (reads_bind0 8); [apply (reads_readFull 8)|].
  intros b _. apply reads_ret, wrap_is_int. lia.
Qed.

Lemma reads_readBool : Reads 1 always readBool.
Proof.
  eapply reads_bind0; [apply reads_readByte|]. intros. by apply reads_ret.
Qed.

Lemma reads_readCollectionLen m :
  Reads 4 (fun n => 0 <= n <= m) (readCollectionLen m).
Proof.
  eapply reads_bind0; [apply reads_readI32|]. intros n _.
  destruct (Z.ltb_spec n 0); [apply reads_fail|].
  rewrite Z.gtb_ltb. destruct (Z.ltb_spec m n); [apply reads_fail|].
  apply reads_ret. lia.
Qed.

Lemma reads_readString : Reads 4 always readString.
Proof.
  eapply reads_bind0; [apply reads_readI32|]. intros n _.
  apply reads_if; [apply reads_fail|].
  eapply reads_zero, reads_bind0; [apply reads_readFull|]. intros. by apply reads_ret.
Qed.

Lemma reads_readBinary : Reads 4 always readBinary.
Proof.
  eapply reads_bind0; [apply reads_readI32|]. intros n _.
  apply reads_if; [apply reads_fail|].
  eapply reads_weaken; [apply reads_readFull|lia|done].
Qed.

Lemma reads_readFieldHeader : Reads 1 (fun h => is_int 16 (h.2)) readFieldHeader.
Proof.
  eapply reads_bind0; [apply reads_readByte|]. intros t _.
  destruct (t =? thriftTypeStop).
  - by apply reads_ret.
  - eapply reads_zero, reads_bind0; [apply reads_readI16|]. intros. by apply reads_ret.
Qed.

#[export] Hint Resolve reads_readByte reads_readI16 reads_readI32 reads_readI64
  reads_readBool reads_readString reads_readBinary reads_readFull : rift.

(** ** The field loop *)

Section field_loop.
Context {S : Type} (step : Z -> Z -> S -> decoder S) (I : S -> Prop).

Lemma reads_fieldLoop fuel s bs :
  (forall ft fid s, I s -> Reads 0 I (step ft fid s)) ->
  I s -> (length bs < fuel)%nat ->
  match fieldLoop fuel step s bs with
  | Ok s' rest => I s' /\ (length rest + 1 <= length bs)%nat
  | Err _ => True
  | OutOfFuel => False
  end.
Proof.
  intros Hstep. revert s bs.
  induction fuel as [|fuel IH]; intros s bs HI Hlen; [lia|].
  cbn [fieldLoop]. unfold mbind, decoder_bind.
  pose proof (reads_readFieldHeader bs) as Hh.
  destruct (readFieldHeader bs) as [[ft fid] r|e|]; [|done|done].
  destruct Hh as [_ Hr]. destruct (ft =? thriftTypeStop); [done|].
  pose proof (Hstep ft fid s HI r) as Hs.
  destruct (step ft fid s r) as [s' r'|e|]; [|done|done].
  destruct Hs as [HI' Hr']. specialize (IH s' r' HI' ltac:(lia)).
  destruct (fieldLoop fuel step s' r'); [|done|done].
  destruct IH. split; [done|lia].
Qed.

Lemma reads_decodeStruct s :
  (forall ft fid s, I s -> Reads 0 I (step ft fid s)) ->
  I s -> Reads 1 I (decodeStruct step s).
Proof.
  intros Hstep HI bs. unfold decodeStruct. apply reads_fieldLoop; [done|done|lia].
Qed.

(** The bound is invisible: any two sufficient bounds agree. *)
Lemma fieldLoop_fuel fuel1 fuel2 s bs :
  (forall ft fid s, Reads 0 always (step ft fid s)) ->
  (length bs < fuel1)%nat -> (length bs < fuel2)%nat ->
  fieldLoop fuel1 step s bs = fieldLoop fuel2 step s bs.
Proof.
  intros Hstep. revert fuel2 s bs.
  induction fuel1 as [|fuel1 IH]; intros fuel2 s bs H1 H2; [lia|].
  destruct fuel2 as [|fuel2]; [lia|]. cbn [fieldLoop]. unfold mbind, decoder_bind.
  pose proof (reads_readFieldHeader bs) as Hh.
  destruct (readFieldHeader bs) as [[ft fid] r|e|]; [|done|done].
  destruct (ft =? thriftTypeStop); [done|].
  pose proof (Hstep ft fid s r) as Hs.
  destruct (step ft fid s r) as [s' r'|e|]; [|done|done].
  apply IH; lia.
Qed.

Lemma decodeStruct_unfold s bs :
  (forall ft fid s, Reads 0 always (step ft fid s)) ->
  decodeStruct step s bs =
  ('(ftype, fid) ← readFieldHeader;
   if ftype =? thriftTypeStop then mret s
   else s' ← step ftype fid s; decodeStruct step s') bs.
Proof.
  intros Hstep. unfold decodeStruct at 1. cbn [fieldLoop].
  unfold mbind, decoder_bind.
  pose proof (reads_readFieldHeader bs) as Hh.
  destruct (readFieldHeader bs) as [[ft fid] r|e|]; [|done|done].
  destruct (ft =? thriftTypeStop); [done|].
  pose proof (Hstep ft fid s r) as Hs.
  destruct (step ft fid s r) as [s' r'|e|]; [|done|done].
  unfold decodeStruct. apply fieldLoop_fuel; [done|lia|lia].
Qed.
End field_loop.

Lemma reads_repeatDecode {S} (I : S -> Prop) n body s :
  (forall s, I s -> Reads 0 I (body s)) -> I s -> Reads 0 I (repeatDecode n body s).
Proof.
  intros Hb. revert s. induction n as [|n IH]; intros s HI; simpl.
  - by apply reads_ret.
  - eapply reads_bind0; [by apply Hb|]. auto.
Qed.

Lemma reads_readCollection {S} (I : S -> Prop) body s :
  (forall s, I s -> Reads 0 I (body s)) -> I s -> Reads 0 I (readCollection body s).
Proof.
  intros Hb HI. eapply reads_zero, reads_bind0; [apply reads_readCollectionLen|].
  intros. by apply reads_repeatDecode.
Qed.

(** ** skip *)

(** The judgement of the skipping functions at one input: a success consumes
    a byte. *)
Definition skips (r : result unit) (bs : bytes) : Prop :=
  match r with
  | Ok _ rest => (length rest + 1 <= length bs)%nat
  | Err _ => True
  | OutOfFuel => False
  end.

(** [sk] skips every input of at most [n] bytes. *)
Definition skips_upto (n : nat) (sk : decoder unit) : Prop :=
  forall bs, (length bs <= n)%nat -> skips (sk bs) bs.

Lemma skips_upto_le n m sk : skips_upto n sk -> (m <= n)%nat -> skips_upto m sk.
Proof. intros H Hm bs Hbs. apply H. lia. Qed.

Lemma skips_seq n sk1 sk2 :
  skips_upto n sk1 -> skips_upto n sk2 -> skips_upto n (_ ← sk1; sk2).
Proof.
  intros H1 H2 bs Hbs. specialize (H1 bs Hbs). unfold skips in *.
  unfold mbind, decoder_bind. destruct (sk1 bs) as [[] r| |]; [|done|done].
  specialize (H2 r ltac:(lia)). unfold skips in H2. destruct (sk2 r); [lia|done|done].
Qed.

Lemma skipLoop_skips fuel n body bs :
  skips_upto (length bs) body -> (length bs < fuel)%nat ->
  match skipLoop fuel n body bs with
  | Ok _ rest => (length rest <= length bs)%nat
  | Err _ => True
  | OutOfFuel => False
  end.
Proof.
  revert n bs. induction fuel as [|fuel IH]; intros n bs Hbody Hlen; [lia|].
  cbn [skipLoop]. destruct (n <=? 0); [lia|].
  unfold mbind, decoder_bind. pose proof (Hbody bs ltac:(lia)) as Hb.
  destruct (body bs) as [[] r|e|]; [|done|done]. simpl in Hb.
  specialize (IH (n - 1) r). destruct (skipLoop fuel (n - 1) body r).
  - enough (length rest <= length r)%nat by lia.
    apply IH; [eapply skips_upto_le; [done|lia]|lia].
  - done.
  - apply IH; [eapply skips_upto_le; [done|lia]|lia].
Qed.

(** A header of at least one byte, then anything that does not grow. *)
Lemma skips_header {A} k (P : A -> Prop) (d : decoder A) f bs :
  Reads (S k) P d ->
  (forall a r, (length r < length bs)%nat ->
     match f a r with
     | Ok _ rest => (length rest <= length r)%nat
     | Err _ => True | OutOfFuel => False end) ->
  skips ((d ≫= f) bs) bs.
Proof.
  intros Hd Hf. specialize (Hd bs). unfold skips, mbind, decoder_bind.
  destruct (d bs) as [a r|e|]; [|done|done].
  destruct Hd as [_ Hl]. specialize (Hf a r ltac:(lia)).
  destruct (f a r); [lia|done|done].
Qed.

Lemma skips_fieldLoop fuel (sk : Z -> decoder unit) bs :
  (forall t, skips_upto (length bs - 1) (sk t)) ->
  (length bs < fuel)%nat ->
  skips (fieldLoop fuel (fun ft _ _ => sk ft) () bs) bs.
Proof.
  revert bs. induction fuel as [|fuel IH]; intros bs Hsk Hlen; [lia|].
  cbn [fieldLoop]. unfold mbind, decoder_bind.
  pose proof (reads_readFieldHeader bs) as Hh. unfold skips.
  destruct (readFieldHeader bs) as [[ft fid] r|e|]; [|done|done].
  destruct Hh as [_ Hr]. destruct (ft =? thriftTypeStop); [done|].
  pose proof (Hsk ft r ltac:(lia)) as Hs. unfold skips in Hs.
  destruct (sk ft r) as [[] r'|e|]; [|done|done].
  specialize (IH r'). unfold skips in IH.
  assert (forall t, skips_upto (length r' - 1) (sk t)) as Hsk'
    by (intros t; eapply skips_upto_le; [apply Hsk|lia]).
  specialize (IH Hsk' ltac:(lia)).
  destruct (fieldLoop fuel _ () r'); [lia|done|done].
Qed.

Lemma skipFuel_skips fuel ft :
  (2 <= fuel)%nat -> skips_upto (fuel - 2) (skipFuel fuel ft).
Proof.
  revert ft. induction fuel as [|fuel IH]; intros ft Hf bs Hlen; [lia|].
  assert (forall t n, (n < length bs)%nat -> skips_upto n (skipFuel fuel t)) as Hsk.
  { intros t n Hn. eapply skips_upto_le; [apply IH; lia|lia]. }
  cbn [skipFuel].
  repeat (match goal with |- context [if ?b then _ else _] => destruct b end).
  all: try done.
  all: try (eapply skips_header; [eauto with rift|]; intros; simpl; lia).
  - destruct (length bs) as [|n] eqn:El.
    + destruct bs; [|done]. by destruct fuel; [lia|].
    + apply skips_fieldLoop; [|lia]. intros t. apply Hsk. lia.
  - eapply skips_header; [apply reads_readByte|]. intros kt r Hr.
    unfold mbind, decoder_bind.
    pose proof (reads_readByte r) as H2. destruct (readByte r) as [vt r2| |]; [|done|done].
    pose proof (reads_readI32 r2) as H3. destruct (readI32 r2) as [n r3| |]; [|done|done].
    pose proof (skipLoop_skips fuel n (_ ← skipFuel fuel kt; skipFuel fuel vt) r3
      (skips_seq _ _ _ (Hsk kt (length r3) ltac:(lia)) (Hsk vt (length r3) ltac:(lia))) ltac:(lia)) as HL.
    unfold mbind, decoder_bind in HL. destruct (skipLoop _ _ _ _); [lia|done|done].
  - eapply skips_header; [apply reads_readByte|]. intros et r Hr.
    unfold mbind, decoder_bind.
    pose proof (reads_readI32 r) as H3. destruct (readI32 r) as [n r3| |]; [|done|done].
    pose proof (skipLoop_skips fuel n (skipFuel fuel et) r3
      (Hsk et (length r3) ltac:(lia)) ltac:(lia)) as HL.
    destruct (skipLoop _ _ _ _); [lia|done|done].
Qed.

Lemma reads_skip ft : Reads 1 always (skip ft).
Proof.
  intros bs. pose proof (skipFuel_skips (S (S (length bs))) ft ltac:(lia) bs ltac:(lia)) as H.
  unfold skip. unfold skips in H. by destruct (skipFuel _ ft bs) as [[] r| |].
Qed.
#[export] Hint Resolve reads_skip : rift.
