(* ===== verification/Encode.v ===== *)
(** * Encode: the struct encoders ([Encoder.encode*] of
    [internal/encoding/codec.go]).

    Every encoder is the list of bytes it appends to the buffer.  The only
    errors of the package's own are the two unions with no variant set; the
    encoders that can meet one return [inl].  Sets and the key-value map are
    written in Go's [range] order (the [MapRange] parameter), the neighbors of a
    node in increasing key order. *)

From S2P Require Import Prelude.
From S2P Require Import Types.
From S2P Require Import Wire.

Inductive encode_error :=
  | PacketContentNoVariant
  | TIEElementNoVariant.

Abbreviation encoded := (encode_error + bytes)%type.

(** Write [pre], then the body unless it fails, then [post]. *)
Definition wrapEncoded (pre : bytes) (body : encoded) (post : bytes) : encoded :=
  match body with
  | inl e => inl e
  | inr b => inr (pre ++ b ++ post)
  end.

(** [if x != nil { writeFieldHeader(ty, id); w( *x) }] *)
Definition optField {A} (ty id : Z) (w : A -> bytes) (x : option A) : bytes :=
  match x with
  | Some v => writeFieldHeader ty id ++ w v
  | None => []
  end.

(** [if s != "" { writeFieldHeader(string, id); writeString(s) }] *)
Definition optString (id : Z) (s : string) : bytes :=
  if bool_decide (s = ""%string) then []
  else writeFieldHeader thriftTypeString id ++ writeString s.

(** An element type, [int32(len)] and the elements. *)
Definition writeElems {A} (ty : Z) (w : A -> bytes) (l : list A) : bytes :=
  writeByte ty ++ writeI32 (wrap 32 (Z.of_nat (length l))) ++ (l ≫= w).

(** [if len(l) > 0 { field header; elements }] *)
Definition optElems {A} (id ty : Z) (w : A -> bytes) (l : list A) : bytes :=
  match l with
  | [] => []
  | _ => writeFieldHeader thriftTypeSet id ++ writeElems ty w l
  end.

Section encoders.
Context `{MapRange}.

(** A set field over Go's [map[K]struct{}], in [range] order. *)
Definition optSet (id ty : Z) (w : Z -> bytes) (s : gset Z) : bytes :=
  if bool_decide (s = ∅) then []
  else writeFieldHeader thriftTypeSet id ++ writeByte ty ++
       writeI32 (wrap 32 (Z.of_nat (size s))) ++ (range_set s ≫= w).

Definition encodePacketHeader (h : PacketHeader) : bytes :=
  writeFieldHeader thriftTypeByte 1 ++ writeByte (PH_MajorVersion h) ++
  writeFieldHeader thriftTypeI16 2 ++ writeI16 (PH_MinorVersion h) ++
  writeFieldHeader thriftTypeI64 3 ++ writeI64 (PH_Sender h) ++
  optField thriftTypeByte 4 writeByte (PH_Level h) ++
  writeFieldStop.

Definition encodeNeighbor (n : Neighbor) : bytes :=
  writeFieldHeader thriftTypeI64 1 ++ writeI64 (Neighbor_Originator n) ++
  writeFieldHeader thriftTypeI32 2 ++ writeI32 (Neighbor_RemoteID n) ++
  writeFieldStop.

Definition encodeNodeCapabilities (c : NodeCapabilities) : bytes :=
  writeFieldHeader thriftTypeI16 1 ++ writeI16 (NC_ProtocolMinorVersion c) ++
  optField thriftTypeBool 2 writeBool (NC_FloodReduction c) ++
  optField thriftTypeI32 3 writeI32 (NC_HierarchyIndications c) ++
  writeFieldStop.

Definition encodeLinkCapabilities (c : LinkCapabilities) : bytes :=
  optField thriftTypeBool 1 writeBool (LC_BFD c) ++
  optField thriftTypeBool 2 writeBool (LC_IPv4ForwardingCapable c) ++
  writeFieldStop.

Definition encodeLIEPacket (p : LIEPacket) : bytes :=
  optString 1 (LIE_Name p) ++
  writeFieldHeader thriftTypeI32 2 ++ writeI32 (LIE_LocalID p) ++
  writeFieldHeader thriftTypeI16 3 ++ writeI16 (LIE_FloodPort p) ++
  optField thriftTypeI32 4 writeI32 (LIE_LinkMTUSize p) ++
  optField thriftTypeI32 5 writeI32 (LIE_LinkBandwidth p) ++
  optField thriftTypeStruct 6 encodeNeighbor (LIE_Neighbor p) ++
  optField thriftTypeI32 7 writeI32 (LIE_Pod p) ++
  writeFieldHeader thriftTypeStruct 10 ++
  encodeNodeCapabilities (LIE_NodeCapabilities p) ++
  optField thriftTypeStruct 11 encodeLinkCapabilities (LIE_LinkCapabilities p) ++
  writeFieldHeader thriftTypeI16 12 ++ writeI16 (LIE_Holdtime p) ++
  optField thriftTypeI32 13 writeI32 (LIE_Label p) ++
  optField thriftTypeBool 21 writeBool (LIE_NotAZTPOffer p) ++
  optField thriftTypeBool 22 writeBool (LIE_YouAreFloodRepeater p) ++
  optField thriftTypeBool 23 writeBool (LIE_YouAreSendingTooQuickly p) ++
  optString 24 (LIE_InstanceName p) ++
  optField thriftTypeI32 35 writeI32 (LIE_FabricID p) ++
  writeFieldStop.

Definition encodeIEEE802_1ASTimestamp (t : IEEE802_1ASTimeStampType) : bytes :=
  writeFieldHeader thriftTypeI64 1 ++ writeI64 (TS_ASSec t) ++
  optField thriftTypeI32 2 writeI32 (TS_ASNsec t) ++
  writeFieldStop.

Definition encodeTIEID (id : TIEID) : bytes :=
  writeFieldHeader thriftTypeI32 1 ++ writeI32 (Direction id) ++
  writeFieldHeader thriftTypeI64 2 ++ writeI64 (Originator id) ++
  writeFieldHeader thriftTypeI32 3 ++ writeI32 (TIEType id) ++
  writeFieldHeader thriftTypeI32 4 ++ writeI32 (TIENr id) ++
  writeFieldStop.

Definition encodeTIEHeader (h : TIEHeader) : bytes :=
  writeFieldHeader thriftTypeStruct 2 ++ encodeTIEID (Header_TIEID h) ++
  writeFieldHeader thriftTypeI64 3 ++ writeI64 (SeqNr h) ++
  optField thriftTypeStruct 10 encodeIEEE802_1ASTimestamp (OriginationTime h) ++
  optField thriftTypeI32 12 writeI32 (OriginationLifetime h) ++
  writeFieldStop.

Definition encodeTIEHeaderWithLifeTimeInline (h : TIEHeaderWithLifeTime) : bytes :=
  writeFieldHeader thriftTypeStruct 1 ++ encodeTIEHeader (HL_Header h) ++
  writeFieldHeader thriftTypeI32 2 ++ writeI32 (HL_RemainingLifetime h) ++
  writeFieldStop.

Definition encodeTIDEPacket (p : TIDEPacket) : bytes :=
  writeFieldHeader thriftTypeStruct 1 ++ encodeTIEID (TIDE_StartRange p) ++
  writeFieldHeader thriftTypeStruct 2 ++ encodeTIEID (TIDE_EndRange p) ++
  writeFieldHeader thriftTypeList 3 ++
  writeElems thriftTypeStruct encodeTIEHeaderWithLifeTimeInline (TIDE_Headers p) ++
  writeFieldStop.

Definition encodeTIREPacket (p : TIREPacket) : bytes :=
  writeFieldHeader thriftTypeSet 1 ++
  writeElems thriftTypeStruct encodeTIEHeaderWithLifeTimeInline (TIRE_Headers p) ++
  writeFieldStop.

Definition encodeNodeFlags (f : NodeFlags) : bytes :=
  optField thriftTypeBool 1 writeBool (NF_Overload f) ++
  writeFieldStop.

Definition encodeLinkIDPair (p : LinkIDPair) : bytes :=
  writeFieldHeader thriftTypeI32 1 ++ writeI32 (LIP_LocalID p) ++
  writeFieldHeader thriftTypeI32 2 ++ writeI32 (LIP_RemoteID p) ++
  optField thriftTypeI32 10 writeI32 (LIP_PlatformInterfaceIndex p) ++
  optString 11 (LIP_PlatformInterfaceName p) ++
  optField thriftTypeByte 12 writeByte (LIP_TrustedOuterSecurityKey p) ++
  optField thriftTypeBool 13 writeBool (LIP_BFDUp p) ++
  optSet 14 thriftTypeI32 writeI32 (LIP_AddressFamilies p) ++
  writeFieldStop.

Definition encodeNodeNeighborsTIEElement (n : NodeNeighborsTIEElement) : bytes :=
  writeFieldHeader thriftTypeByte 1 ++ writeByte (NN_Level n) ++
  optField thriftTypeI32 3 writeI32 (NN_Cost n) ++
  optElems 4 thriftTypeStruct encodeLinkIDPair (NN_LinkIDs n) ++
  optField thriftTypeI32 5 writeI32 (NN_Bandwidth n) ++
  writeFieldStop.

(** The neighbors of a node, sorted by system identifier. *)
Definition key_le (a b : Z * NodeNeighborsTIEElement) : Prop := a.1 <= b.1.
#[local] Instance key_le_dec a b : Decision (key_le a b).
Proof. unfold key_le. apply _. Defined.
Definition sortedNeighbors (m : gmap Z NodeNeighborsTIEElement)
    : list (Z * NodeNeighborsTIEElement) :=
  merge_sort key_le (map_to_list m).

Definition encodeNodeTIEElement (n : NodeTIEElement) : bytes :=
  writeFieldHeader thriftTypeByte 1 ++ writeByte (Node_Level n) ++
  writeFieldHeader thriftTypeMap 2 ++
  writeByte thriftTypeI64 ++ writeByte thriftTypeStruct ++
  writeI32 (wrap 32 (Z.of_nat (size (Node_Neighbors n)))) ++
  (sortedNeighbors (Node_Neighbors n) ≫=
    (fun '(k, v) => writeI64 k ++ encodeNodeNeighborsTIEElement v)) ++
  writeFieldHeader thriftTypeStruct 3 ++
  encodeNodeCapabilities (Node_Capabilities n) ++
  optField thriftTypeStruct 4 encodeNodeFlags (Node_Flags n) ++
  optString 5 (Node_Name n) ++
  optField thriftTypeI32 6 writeI32 (Node_Pod n) ++
  optField thriftTypeI64 7 writeI64 (Node_StartupTime n) ++
  optSet 10 thriftTypeI32 writeI32 (Node_MiscabledLinks n) ++
  optSet 12 thriftTypeI64 writeI64 (Node_SamePlaneTofs n) ++
  optField thriftTypeI32 20 writeI32 (Node_FabricID n) ++
  writeFieldStop.

Definition encodeIPv4PrefixType (p : IPv4PrefixType) : bytes :=
  writeFieldHeader thriftTypeI32 1 ++ writeI32 (IPv4_Address p) ++
  writeFieldHeader thriftTypeByte 2 ++ writeByte (IPv4_PrefixLen p) ++
  writeFieldStop.

Definition encodeIPv6PrefixType (p : IPv6PrefixType) : bytes :=
  writeFieldHeader thriftTypeString 1 ++ writeBinary (IPv6_Address p) ++
  writeFieldHeader thriftTypeByte 2 ++ writeByte (IPv6_PrefixLen p) ++
  writeFieldStop.

Definition encodeIPPrefixType (p : IPPrefixType) : bytes :=
  match IPPrefix_IPv4Prefix p, IPPrefix_IPv6Prefix p with
  | Some v4, _ => writeFieldHeader thriftTypeStruct 1 ++ encodeIPv4PrefixType v4
  | None, Some v6 => writeFieldHeader thriftTypeStruct 2 ++ encodeIPv6PrefixType v6
  | None, None => []
  end ++ writeFieldStop.

Definition encodePrefixSequenceType (p : PrefixSequenceType) : bytes :=
  writeFieldHeader thriftTypeStruct 1 ++
  encodeIEEE802_1ASTimestamp (PS_Timestamp p) ++
  optField thriftTypeByte 2 writeByte (PS_TransactionID p) ++
  writeFieldStop.

Definition encodePrefixAttributes (a : PrefixAttributes) : bytes :=
  writeFieldHeader thriftTypeI32 2 ++ writeI32 (PA_Metric a) ++
  optSet 3 thriftTypeI64 writeI64 (PA_Tags a) ++
  optField thriftTypeStruct 4 encodePrefixSequenceType (PA_MonotonicClock a) ++
  optField thriftTypeBool 6 writeBool (PA_Loopback a) ++
  optField thriftTypeBool 7 writeBool (PA_DirectlyAttached a) ++
  optField thriftTypeI32 10 writeI32 (PA_FromLink a) ++
  optField thriftTypeI32 12 writeI32 (PA_Label a) ++
  writeFieldStop.

Definition encodePrefixTIEElement (p : PrefixTIEElement) : bytes :=
  writeFieldHeader thriftTypeMap 1 ++
  writeByte thriftTypeStruct ++ writeByte thriftTypeStruct ++
  writeI32 (wrap 32 (Z.of_nat (length (PT_Prefixes p)))) ++
  (PT_Prefixes p ≫= (fun e =>
    encodeIPPrefixType (PE_Prefix e) ++ encodePrefixAttributes (PE_Attributes e))) ++
  writeFieldStop.

Definition encodeKeyValueTIEElementContent (c : KeyValueTIEElementContent) : bytes :=
  optField thriftTypeI64 1 writeI64 (KVC_Targets c) ++
  optField thriftTypeString 2 writeBinary (KVC_Value c) ++
  writeFieldStop.

Definition encodeKeyValueTIEElement (kv : KeyValueTIEElement) : bytes :=
  writeFieldHeader thriftTypeMap 1 ++
  writeByte thriftTypeI32 ++ writeByte thriftTypeStruct ++
  writeI32 (wrap 32 (Z.of_nat (size (KV_KeyValues kv)))) ++
  (range_map (KV_KeyValues kv) ≫= (fun '(k, v) =>
    writeI32 k ++ encodeKeyValueTIEElementContent v)) ++
  writeFieldStop.

(** The switch of [encodeTIEElement] over the variant that is set; the first
    one in this order wins. *)
Definition encodeTIEElement (el : TIEElement) : encoded :=
  let field id b := inr (writeFieldHeader thriftTypeStruct id ++ b ++ writeFieldStop) in
  match EL_Node el with Some n => field 1 (encodeNodeTIEElement n) | None =>
  match EL_Prefixes el with Some p => field 2 (encodePrefixTIEElement p) | None =>
  match EL_PositiveDisaggregationPrefixes el with
  | Some p => field 3 (encodePrefixTIEElement p) | None =>
  match EL_NegativeDisaggregationPrefixes el with
  | Some p => field 5 (encodePrefixTIEElement p) | None =>
  match EL_ExternalPrefixes el with
  | Some p => field 6 (encodePrefixTIEElement p) | None =>
  match EL_PositiveExternalDisaggregationPrefixes el with
  | Some p => field 7 (encodePrefixTIEElement p) | None =>
  match EL_KeyValues el with
  | Some kv => field 9 (encodeKeyValueTIEElement kv)
  | None => inl TIEElementNoVariant
  end end end end end end end.

Definition encodeTIEPacket (p : TIEPacket) : encoded :=
  wrapEncoded
    (writeFieldHeader thriftTypeStruct 1 ++ encodeTIEHeader (TIE_Header p) ++
     writeFieldHeader thriftTypeStruct 2)
    (encodeTIEElement (TIE_Element p)) writeFieldStop.

Definition encodePacketContent (c : PacketContent) : encoded :=
  let field id b := wrapEncoded (writeFieldHeader thriftTypeStruct id) b writeFieldStop in
  match PC_LIE c with Some p => field 1 (inr (encodeLIEPacket p)) | None =>
  match PC_TIDE c with Some p => field 2 (inr (encodeTIDEPacket p)) | None =>
  match PC_TIRE c with Some p => field 3 (inr (encodeTIREPacket p)) | None =>
  match PC_TIE c with
  | Some p => field 4 (encodeTIEPacket p)
  | None => inl PacketContentNoVariant
  end end end end.

Definition EncodeProtocolPacket (p : ProtocolPacket) : encoded :=
  wrapEncoded
    (writeFieldHeader thriftTypeStruct 1 ++ encodePacketHeader (PP_Header p) ++
     writeFieldHeader thriftTypeStruct 2)
    (encodePacketContent (PP_Content p)) writeFieldStop.
End encoders.
