(* ===== verification/Decode.v ===== *)
(** * Decode: the struct decoders ([Decoder.decode*] of
    [internal/encoding/codec.go]).

    Each struct decoder is [decodeStruct] over a [*_field] step, the body of the
    Go [switch fid].  A step receives the struct as decoded so far, as the Go
    code fills it in place: a field that occurs twice is decoded twice. *)

From S2P Require Import Prelude.
From S2P Require Import Types.
From S2P Require Import Wire.

(** Decode a field value and store it. *)
Definition store {A S} (d : decoder A) (f : A -> S) : decoder S := a ← d; mret (f a).

Definition skipField {S} (ftype : Z) (s : S) : decoder S := _ ← skip ftype; mret s.

Definition decodePacketHeader_field (ftype fid : Z) (h : PacketHeader)
    : decoder PacketHeader :=
  if fid =? 1 then store readByte (fun b => h <| PH_MajorVersion := wrap 8 b |>)
  else if fid =? 2 then store readI16 (fun v => h <| PH_MinorVersion := v |>)
  else if fid =? 3 then store readI64 (fun v => h <| PH_Sender := v |>)
  else if fid =? 4 then store readByte (fun b => h <| PH_Level := Some (wrap 8 b) |>)
  else skipField ftype h.
Definition decodePacketHeader := decodeStruct decodePacketHeader_field.

Definition decodeNeighbor_field (ftype fid : Z) (n : Neighbor) : decoder Neighbor :=
  if fid =? 1 then store readI64 (fun v => n <| Neighbor_Originator := v |>)
  else if fid =? 2 then store readI32 (fun v => n <| Neighbor_RemoteID := v |>)
  else skipField ftype n.
Definition decodeNeighbor := decodeStruct decodeNeighbor_field.

Definition decodeNodeCapabilities_field (ftype fid : Z) (c : NodeCapabilities)
    : decoder NodeCapabilities :=
  if fid =? 1 then store readI16 (fun v => c <| NC_ProtocolMinorVersion := v |>)
  else if fid =? 2 then store readBool (fun v => c <| NC_FloodReduction := Some v |>)
  else if fid =? 3 then store readI32 (fun v => c <| NC_HierarchyIndications := Some v |>)
  else skipField ftype c.
Definition decodeNodeCapabilities := decodeStruct decodeNodeCapabilities_field.

Definition decodeLinkCapabilities_field (ftype fid : Z) (c : LinkCapabilities)
    : decoder LinkCapabilities :=
  if fid =? 1 then store readBool (fun v => c <| LC_BFD := Some v |>)
  else if fid =? 2 then store readBool (fun v => c <| LC_IPv4ForwardingCapable := Some v |>)
  else skipField ftype c.
Definition decodeLinkCapabilities := decodeStruct decodeLinkCapabilities_field.

Definition decodeLIEPacket_field (ftype fid : Z) (p : LIEPacket) : decoder LIEPacket :=
  if fid =? 1 then store readString (fun v => p <| LIE_Name := v |>)
  else if fid =? 2 then store readI32 (fun v => p <| LIE_LocalID := v |>)
  else if fid =? 3 then store readI16 (fun v => p <| LIE_FloodPort := v |>)
  else if fid =? 4 then store readI32 (fun v => p <| LIE_LinkMTUSize := Some v |>)
  else if fid =? 5 then store readI32 (fun v => p <| LIE_LinkBandwidth := Some v |>)
  else if fid =? 6 then
    store (decodeNeighbor zeroNeighbor) (fun v => p <| LIE_Neighbor := Some v |>)
  else if fid =? 7 then store readI32 (fun v => p <| LIE_Pod := Some v |>)
  else if fid =? 10 then
    store (decodeNodeCapabilities (LIE_NodeCapabilities p))
          (fun v => p <| LIE_NodeCapabilities := v |>)
  else if fid =? 11 then
    store (decodeLinkCapabilities zeroLinkCapabilities)
          (fun v => p <| LIE_LinkCapabilities := Some v |>)
  else if fid =? 12 then store readI16 (fun v => p <| LIE_Holdtime := v |>)
  else if fid =? 13 then store readI32 (fun v => p <| LIE_Label := Some v |>)
  else if fid =? 21 then store readBool (fun v => p <| LIE_NotAZTPOffer := Some v |>)
  else if fid =? 22 then store readBool (fun v => p <| LIE_YouAreFloodRepeater := Some v |>)
  else if fid =? 23 then
    store readBool (fun v => p <| LIE_YouAreSendingTooQuickly := Some v |>)
  else if fid =? 24 then store readString (fun v => p <| LIE_InstanceName := v |>)
  else if fid =? 35 then store readI32 (fun v => p <| LIE_FabricID := Some v |>)
  else skipField ftype p.
Definition decodeLIEPacket (p : LIEPacket) : decoder LIEPacket :=
  decodeStruct decodeLIEPacket_field
    (p <| LIE_FloodPort := DefaultTIEUDPFloodPort |>
       <| LIE_Holdtime := DefaultLIEHoldtime |>).

Definition decodeIEEE802_1ASTimestamp_field (ftype fid : Z) (t : IEEE802_1ASTimeStampType)
    : decoder IEEE802_1ASTimeStampType :=
  if fid =? 1 then store readI64 (fun v => t <| TS_ASSec := v |>)
  else if fid =? 2 then store readI32 (fun v => t <| TS_ASNsec := Some v |>)
  else skipField ftype t.
Definition decodeIEEE802_1ASTimestamp := decodeStruct decodeIEEE802_1ASTimestamp_field.

Definition decodeTIEID_field (ftype fid : Z) (id : TIEID) : decoder TIEID :=
  if fid =? 1 then store readI32 (fun v => id <| Direction := v |>)
  else if fid =? 2 then store readI64 (fun v => id <| Originator := v |>)
  else if fid =? 3 then store readI32 (fun v => id <| TIEType := v |>)
  else if fid =? 4 then store readI32 (fun v => id <| TIENr := v |>)
  else skipField ftype id.
Definition decodeTIEID := decodeStruct decodeTIEID_field.

Definition decodeTIEHeader_field (ftype fid : Z) (h : TIEHeader) : decoder TIEHeader :=
  if fid =? 2 then store (decodeTIEID (Header_TIEID h)) (fun v => h <| Header_TIEID := v |>)
  else if fid =? 3 then store readI64 (fun v => h <| SeqNr := v |>)
  else if fid =? 10 then
    store (decodeIEEE802_1ASTimestamp zeroTimeStamp)
          (fun v => h <| OriginationTime := Some v |>)
  else if fid =? 12 then store readI32 (fun v => h <| OriginationLifetime := Some v |>)
  else skipField ftype h.
Definition decodeTIEHeader := decodeStruct decodeTIEHeader_field.

Definition decodeTIEHeaderWithLifeTime_field (ftype fid : Z) (h : TIEHeaderWithLifeTime)
    : decoder TIEHeaderWithLifeTime :=
  if fid =? 1 then store (decodeTIEHeader (HL_Header h)) (fun v => h <| HL_Header := v |>)
  else if fid =? 2 then store readI32 (fun v => h <| HL_RemainingLifetime := v |>)
  else skipField ftype h.
Definition decodeTIEHeaderWithLifeTime := decodeStruct decodeTIEHeaderWithLifeTime_field.

(** [list<TIEHeaderWithLifeTime>] or [set<TIEHeaderWithLifeTime>] *)
Definition decodeHeaders : decoder (list TIEHeaderWithLifeTime) :=
  _ ← readByte;
  readCollection
    (appendElem (decodeTIEHeaderWithLifeTime zeroTIEHeaderWithLifeTime)) [].

Definition decodeTIDEPacket_field (ftype fid : Z) (p : TIDEPacket) : decoder TIDEPacket :=
  if fid =? 1 then
    store (decodeTIEID (TIDE_StartRange p)) (fun v => p <| TIDE_StartRange := v |>)
  else if fid =? 2 then
    store (decodeTIEID (TIDE_EndRange p)) (fun v => p <| TIDE_EndRange := v |>)
  else if fid =? 3 then store decodeHeaders (fun v => p <| TIDE_Headers := v |>)
  else skipField ftype p.
Definition decodeTIDEPacket := decodeStruct decodeTIDEPacket_field.

Definition decodeTIREPacket_field (ftype fid : Z) (p : TIREPacket) : decoder TIREPacket :=
  if fid =? 1 then store decodeHeaders (fun v => p <| TIRE_Headers := v |>)
  else skipField ftype p.
Definition decodeTIREPacket := decodeStruct decodeTIREPacket_field.

Definition decodeNodeFlags_field (ftype fid : Z) (f : NodeFlags) : decoder NodeFlags :=
  if fid =? 1 then store readBool (fun v => f <| NF_Overload := Some v |>)
  else skipField ftype f.
Definition decodeNodeFlags := decodeStruct decodeNodeFlags_field.

(** A set field: the element type, then the elements added to an empty set. *)
Definition decodeSet (d : decoder Z) : decoder (gset Z) :=
  _ ← readByte; readCollection (insertElem d) ∅.

Definition decodeLinkIDPair_field (ftype fid : Z) (p : LinkIDPair) : decoder LinkIDPair :=
  if fid =? 1 then store readI32 (fun v => p <| LIP_LocalID := v |>)
  else if fid =? 2 then store readI32 (fun v => p <| LIP_RemoteID := v |>)
  else if fid =? 10 then store readI32 (fun v => p <| LIP_PlatformInterfaceIndex := Some v |>)
  else if fid =? 11 then store readString (fun v => p <| LIP_PlatformInterfaceName := v |>)
  else if fid =? 12 then
    store readByte (fun b => p <| LIP_TrustedOuterSecurityKey := Some (wrap 8 b) |>)
  else if fid =? 13 then store readBool (fun v => p <| LIP_BFDUp := Some v |>)
  else if fid =? 14 then store (decodeSet readI32) (fun v => p <| LIP_AddressFamilies := v |>)
  else skipField ftype p.
Definition decodeLinkIDPair := decodeStruct decodeLinkIDPair_field.

Definition decodeNodeNeighborsTIEElement_field (ftype fid : Z) (n : NodeNeighborsTIEElement)
    : decoder NodeNeighborsTIEElement :=
  if fid =? 1 then store readByte (fun b => n <| NN_Level := wrap 8 b |>)
  else if fid =? 3 then store readI32 (fun v => n <| NN_Cost := Some v |>)
  else if fid =? 4 then
    store (_ ← readByte; readCollection (appendElem (decodeLinkIDPair zeroLinkIDPair)) [])
          (fun v => n <| NN_LinkIDs := v |>)
  else if fid =? 5 then store readI32 (fun v => n <| NN_Bandwidth := Some v |>)
  else skipField ftype n.
Definition decodeNodeNeighborsTIEElement := decodeStruct decodeNodeNeighborsTIEElement_field.

(** One entry of the neighbors map. *)
Definition decodeNeighborEntry (m : gmap Z NodeNeighborsTIEElement)
    : decoder (gmap Z NodeNeighborsTIEElement) :=
  k ← readI64;
  v ← decodeNodeNeighborsTIEElement zeroNodeNeighbors;
  mret (<[k := v]> m).

Definition decodeNodeTIEElement_field (ftype fid : Z) (n : NodeTIEElement)
    : decoder NodeTIEElement :=
  if fid =? 1 then store readByte (fun b => n <| Node_Level := wrap 8 b |>)
  else if fid =? 2 then
    (* the map is not reset: a second neighbors field adds to the first *)
    store (_ ← readByte; _ ← readByte; readCollection decodeNeighborEntry (Node_Neighbors n))
          (fun v => n <| Node_Neighbors := v |>)
  else if fid =? 3 then
    store (decodeNodeCapabilities (Node_Capabilities n))
          (fun v => n <| Node_Capabilities := v |>)
  else if fid =? 4 then
    store (decodeNodeFlags zeroNodeFlags) (fun v => n <| Node_Flags := Some v |>)
  else if fid =? 5 then store readString (fun v => n <| Node_Name := v |>)
  else if fid =? 6 then store readI32 (fun v => n <| Node_Pod := Some v |>)
  else if fid =? 7 then store readI64 (fun v => n <| Node_StartupTime := Some v |>)
  else if fid =? 10 then store (decodeSet readI32) (fun v => n <| Node_MiscabledLinks := v |>)
  else if fid =? 12 then store (decodeSet readI64) (fun v => n <| Node_SamePlaneTofs := v |>)
  else if fid =? 20 then store readI32 (fun v => n <| Node_FabricID := Some v |>)
  else skipField ftype n.
Definition decodeNodeTIEElement (n : NodeTIEElement) : decoder NodeTIEElement :=
  decodeStruct decodeNodeTIEElement_field (n <| Node_Neighbors := ∅ |>).

Definition decodeIPv4PrefixType_field (ftype fid : Z) (p : IPv4PrefixType)
    : decoder IPv4PrefixType :=
  if fid =? 1 then store readI32 (fun v => p <| IPv4_Address := v |>)
  else if fid =? 2 then store readByte (fun b => p <| IPv4_PrefixLen := wrap 8 b |>)
  else skipField ftype p.
Definition decodeIPv4PrefixType := decodeStruct decodeIPv4PrefixType_field.

Definition decodeIPv6PrefixType_field (ftype fid : Z) (p : IPv6PrefixType)
    : decoder IPv6PrefixType :=
  if fid =? 1 then store readBinary (fun v => p <| IPv6_Address := v |>)
  else if fid =? 2 then store readByte (fun b => p <| IPv6_PrefixLen := wrap 8 b |>)
  else skipField ftype p.
Definition decodeIPv6PrefixType := decodeStruct decodeIPv6PrefixType_field.

Definition decodeIPPrefixType_field (ftype fid : Z) (p : IPPrefixType)
    : decoder IPPrefixType :=
  if fid =? 1 then
    store (decodeIPv4PrefixType zeroIPv4Prefix) (fun v => p <| IPPrefix_IPv4Prefix := Some v |>)
  else if fid =? 2 then
    store (decodeIPv6PrefixType zeroIPv6Prefix) (fun v => p <| IPPrefix_IPv6Prefix := Some v |>)
  else skipField ftype p.
Definition decodeIPPrefixType := decodeStruct decodeIPPrefixType_field.

Definition decodePrefixSequenceType_field (ftype fid : Z) (p : PrefixSequenceType)
    : decoder PrefixSequenceType :=
  if fid =? 1 then
    store (decodeIEEE802_1ASTimestamp (PS_Timestamp p)) (fun v => p <| PS_Timestamp := v |>)
  else if fid =? 2 then store readByte (fun b => p <| PS_TransactionID := Some (wrap 8 b) |>)
  else skipField ftype p.
Definition decodePrefixSequenceType := decodeStruct decodePrefixSequenceType_field.

Definition decodePrefixAttributes_field (ftype fid : Z) (a : PrefixAttributes)
    : decoder PrefixAttributes :=
  if fid =? 2 then store readI32 (fun v => a <| PA_Metric := v |>)
  else if fid =? 3 then store (decodeSet readI64) (fun v => a <| PA_Tags := v |>)
  else if fid =? 4 then
    store (decodePrefixSequenceType zeroPrefixSequence)
          (fun v => a <| PA_MonotonicClock := Some v |>)
  else if fid =? 6 then store readBool (fun v => a <| PA_Loopback := Some v |>)
  else if fid =? 7 then store readBool (fun v => a <| PA_DirectlyAttached := Some v |>)
  else if fid =? 10 then store readI32 (fun v => a <| PA_FromLink := Some v |>)
  else if fid =? 12 then store readI32 (fun v => a <| PA_Label := Some v |>)
  else skipField ftype a.
Definition decodePrefixAttributes (a : PrefixAttributes) : decoder PrefixAttributes :=
  decodeStruct decodePrefixAttributes_field (a <| PA_Metric := DefaultDistance |>).

Definition decodePrefixEntry : decoder PrefixEntry :=
  p ← decodeIPPrefixType zeroIPPrefix;
  a ← decodePrefixAttributes zeroPrefixAttributes;
  mret (mkPrefixEntry p a).

Definition decodePrefixTIEElement_field (ftype fid : Z) (p : PrefixTIEElement)
    : decoder PrefixTIEElement :=
  if fid =? 1 then
    store (_ ← readByte; _ ← readByte; readCollection (appendElem decodePrefixEntry) [])
          (fun v => p <| PT_Prefixes := v |>)
  else skipField ftype p.
Definition decodePrefixTIEElement := decodeStruct decodePrefixTIEElement_field.

Definition decodeKeyValueTIEElementContent_field (ftype fid : Z)
    (c : KeyValueTIEElementContent) : decoder KeyValueTIEElementContent :=
  if fid =? 1 then store readI64 (fun v => c <| KVC_Targets := Some v |>)
  else if fid =? 2 then store readBinary (fun v => c <| KVC_Value := Some v |>)
  else skipField ftype c.
Definition decodeKeyValueTIEElementContent :=
  decodeStruct decodeKeyValueTIEElementContent_field.

Definition decodeKeyValueEntry (m : gmap Z KeyValueTIEElementContent)
    : decoder (gmap Z KeyValueTIEElementContent) :=
  k ← readI32;
  v ← decodeKeyValueTIEElementContent zeroKeyValueContent;
  mret (<[k := v]> m).

Definition decodeKeyValueTIEElement_field (ftype fid : Z) (kv : KeyValueTIEElement)
    : decoder KeyValueTIEElement :=
  if fid =? 1 then
    store (_ ← readByte; _ ← readByte; readCollection decodeKeyValueEntry ∅)
          (fun v => kv <| KV_KeyValues := v |>)
  else skipField ftype kv.
Definition decodeKeyValueTIEElement := decodeStruct decodeKeyValueTIEElement_field.

Definition decodeTIEElement_field (ftype fid : Z) (el : TIEElement) : decoder TIEElement :=
  let prefixes f := store (decodePrefixTIEElement zeroPrefixTIE) f in
  if fid =? 1 then
    store (decodeNodeTIEElement zeroNodeTIE) (fun v => el <| EL_Node := Some v |>)
  else if fid =? 2 then prefixes (fun v => el <| EL_Prefixes := Some v |>)
  else if fid =? 3 then
    prefixes (fun v => el <| EL_PositiveDisaggregationPrefixes := Some v |>)
  else if fid =? 5 then
    prefixes (fun v => el <| EL_NegativeDisaggregationPrefixes := Some v |>)
  else if fid =? 6 then prefixes (fun v => el <| EL_ExternalPrefixes := Some v |>)
  else if fid =? 7 then
    prefixes (fun v => el <| EL_PositiveExternalDisaggregationPrefixes := Some v |>)
  else if fid =? 9 then
    store (decodeKeyValueTIEElement zeroKeyValueTIE) (fun v => el <| EL_KeyValues := Some v |>)
  else skipField ftype el.
Definition decodeTIEElement := decodeStruct decodeTIEElement_field.

Definition decodeTIEPacket_field (ftype fid : Z) (p : TIEPacket) : decoder TIEPacket :=
  if fid =? 1 then store (decodeTIEHeader (TIE_Header p)) (fun v => p <| TIE_Header := v |>)
  else if fid =? 2 then
    store (decodeTIEElement (TIE_Element p)) (fun v => p <| TIE_Element := v |>)
  else skipField ftype p.
Definition decodeTIEPacket := decodeStruct decodeTIEPacket_field.

Definition decodePacketContent_field (ftype fid : Z) (c : PacketContent)
    : decoder PacketContent :=
  if fid =? 1 then store (decodeLIEPacket zeroLIEPacket) (fun v => c <| PC_LIE := Some v |>)
  else if fid =? 2 then
    store (decodeTIDEPacket zeroTIDEPacket) (fun v => c <| PC_TIDE := Some v |>)
  else if fid =? 3 then
    store (decodeTIREPacket zeroTIREPacket) (fun v => c <| PC_TIRE := Some v |>)
  else if fid =? 4 then
    store (decodeTIEPacket zeroTIEPacket) (fun v => c <| PC_TIE := Some v |>)
  else skipField ftype c.
Definition decodePacketContent := decodeStruct decodePacketContent_field.

Definition decodeProtocolPacket_field (ftype fid : Z) (p : ProtocolPacket)
    : decoder ProtocolPacket :=
  if fid =? 1 then
    store (decodePacketHeader (PP_Header p)) (fun v => p <| PP_Header := v |>)
  else if fid =? 2 then
    store (decodePacketContent (PP_Content p)) (fun v => p <| PP_Content := v |>)
  else skipField ftype p.
Definition DecodeProtocolPacket : decoder ProtocolPacket :=
  decodeStruct decodeProtocolPacket_field zeroProtocolPacket.
