(* ===== verification/Wellformed.v ===== *)
(** * Wellformed: the invariants of the packet types.

    [typed_X] says that every integer of an [X] is a value of its Go type
    (common.go): it holds of every value a Go program can build.  [fits_X] says
    that an [X] is within the decoder's limits (string and collection lengths)
    and that its unions have exactly one variant: what a sender must respect
    for the receiver to accept the packet. *)

From S2P Require Import Prelude.
From S2P Require Import Types.
From S2P Require Import Wire.

Definition typed_opt {A} (P : A -> Prop) (o : option A) : Prop :=
  match o with Some a => P a | None => True end.

(** ** Integer ranges *)

Definition typed_TimeStamp (t : IEEE802_1ASTimeStampType) : Prop :=
  is_int 64 (TS_ASSec t) /\ typed_opt (is_int 32) (TS_ASNsec t).

Definition typed_IPv4Prefix (p : IPv4PrefixType) : Prop :=
  is_int 32 (IPv4_Address p) /\ is_int 8 (IPv4_PrefixLen p).

Definition typed_IPv6Prefix (p : IPv6PrefixType) : Prop :=
  is_int 8 (IPv6_PrefixLen p).

Definition typed_IPPrefix (p : IPPrefixType) : Prop :=
  typed_opt typed_IPv4Prefix (IPPrefix_IPv4Prefix p) /\
  typed_opt typed_IPv6Prefix (IPPrefix_IPv6Prefix p).

Definition typed_PrefixSequence (p : PrefixSequenceType) : Prop :=
  typed_TimeStamp (PS_Timestamp p) /\ typed_opt (is_int 8) (PS_TransactionID p).

Definition typed_PacketHeader (h : PacketHeader) : Prop :=
  is_int 8 (PH_MajorVersion h) /\ is_int 16 (PH_MinorVersion h) /\
  is_int 64 (PH_Sender h) /\ typed_opt (is_int 8) (PH_Level h).

Definition typed_Neighbor (n : Neighbor) : Prop :=
  is_int 64 (Neighbor_Originator n) /\ is_int 32 (Neighbor_RemoteID n).

Definition typed_NodeCapabilities (c : NodeCapabilities) : Prop :=
  is_int 16 (NC_ProtocolMinorVersion c) /\
  typed_opt (is_int 32) (NC_HierarchyIndications c).

Definition typed_LIEPacket (p : LIEPacket) : Prop :=
  is_int 32 (LIE_LocalID p) /\ is_int 16 (LIE_FloodPort p) /\
  typed_opt (is_int 32) (LIE_LinkMTUSize p) /\
  typed_opt (is_int 32) (LIE_LinkBandwidth p) /\
  typed_opt typed_Neighbor (LIE_Neighbor p) /\
  typed_opt (is_int 32) (LIE_Pod p) /\
  typed_NodeCapabilities (LIE_NodeCapabilities p) /\
  is_int 16 (LIE_Holdtime p) /\
  typed_opt (is_int 32) (LIE_Label p) /\
  typed_opt (is_int 32) (LIE_FabricID p).

Definition typed_LinkIDPair (p : LinkIDPair) : Prop :=
  is_int 32 (LIP_LocalID p) /\ is_int 32 (LIP_RemoteID p) /\
  typed_opt (is_int 32) (LIP_PlatformInterfaceIndex p) /\
  typed_opt (is_int 8) (LIP_TrustedOuterSecurityKey p) /\
  set_Forall (is_int 32) (LIP_AddressFamilies p).

Definition typed_TIEID (id : TIEID) : Prop :=
  is_int 32 (Direction id) /\ is_int 64 (Originator id) /\
  is_int 32 (TIEType id) /\ is_int 32 (TIENr id).

Definition typed_TIEHeader (h : TIEHeader) : Prop :=
  typed_TIEID (Header_TIEID h) /\ is_int 64 (SeqNr h) /\
  typed_opt typed_TimeStamp (OriginationTime h) /\
  typed_opt (is_int 32) (OriginationLifetime h).

Definition typed_TIEHeaderWithLifeTime (h : TIEHeaderWithLifeTime) : Prop :=
  typed_TIEHeader (HL_Header h) /\ is_int 32 (HL_RemainingLifetime h).

Definition typed_TIDEPacket (p : TIDEPacket) : Prop :=
  typed_TIEID (TIDE_StartRange p) /\ typed_TIEID (TIDE_EndRange p) /\
  Forall typed_TIEHeaderWithLifeTime (TIDE_Headers p).

Definition typed_TIREPacket (p : TIREPacket) : Prop :=
  Forall typed_TIEHeaderWithLifeTime (TIRE_Headers p).

Definition typed_NodeNeighbors (n : NodeNeighborsTIEElement) : Prop :=
  is_int 8 (NN_Level n) /\ typed_opt (is_int 32) (NN_Cost n) /\
  Forall typed_LinkIDPair (NN_LinkIDs n) /\ typed_opt (is_int 32) (NN_Bandwidth n).

Definition typed_NodeTIE (n : NodeTIEElement) : Prop :=
  is_int 8 (Node_Level n) /\
  map_Forall (fun k v => is_int 64 k /\ typed_NodeNeighbors v) (Node_Neighbors n) /\
  typed_NodeCapabilities (Node_Capabilities n) /\
  typed_opt (is_int 32) (Node_Pod n) /\
  typed_opt (is_int 64) (Node_StartupTime n) /\
  set_Forall (is_int 32) (Node_MiscabledLinks n) /\
  set_Forall (is_int 64) (Node_SamePlaneTofs n) /\
  typed_opt (is_int 32) (Node_FabricID n).

Definition typed_PrefixAttributes (a : PrefixAttributes) : Prop :=
  is_int 32 (PA_Metric a) /\ set_Forall (is_int 64) (PA_Tags a) /\
  typed_opt typed_PrefixSequence (PA_MonotonicClock a) /\
  typed_opt (is_int 32) (PA_FromLink a) /\ typed_opt (is_int 32) (PA_Label a).

Definition typed_PrefixEntry (e : PrefixEntry) : Prop :=
  typed_IPPrefix (PE_Prefix e) /\ typed_PrefixAttributes (PE_Attributes e).

Definition typed_PrefixTIE (p : PrefixTIEElement) : Prop :=
  Forall typed_PrefixEntry (PT_Prefixes p).

Definition typed_KeyValueContent (c : KeyValueTIEElementContent) : Prop :=
  typed_opt (is_int 64) (KVC_Targets c).

Definition typed_KeyValueTIE (kv : KeyValueTIEElement) : Prop :=
  map_Forall (fun k v => is_int 32 k /\ typed_KeyValueContent v) (KV_KeyValues kv).

Definition typed_TIEElement (el : TIEElement) : Prop :=
  typed_opt typed_NodeTIE (EL_Node el) /\
  typed_opt typed_PrefixTIE (EL_Prefixes el) /\
  typed_opt typed_PrefixTIE (EL_PositiveDisaggregationPrefixes el) /\
  typed_opt typed_PrefixTIE (EL_NegativeDisaggregationPrefixes el) /\
  typed_opt typed_PrefixTIE (EL_ExternalPrefixes el) /\
  typed_opt typed_PrefixTIE (EL_PositiveExternalDisaggregationPrefixes el) /\
  typed_opt typed_KeyValueTIE (EL_KeyValues el).

Definition typed_TIEPacket (p : TIEPacket) : Prop :=
  typed_TIEHeader (TIE_Header p) /\ typed_TIEElement (TIE_Element p).

Definition typed_PacketContent (c : PacketContent) : Prop :=
  typed_opt typed_LIEPacket (PC_LIE c) /\ typed_opt typed_TIDEPacket (PC_TIDE c) /\
  typed_opt typed_TIREPacket (PC_TIRE c) /\ typed_opt typed_TIEPacket (PC_TIE c).

Definition typed_ProtocolPacket (p : ProtocolPacket) : Prop :=
  typed_PacketHeader (PP_Header p) /\ typed_PacketContent (PP_Content p).

(** ** Decoder limits and unions *)

Definition fits_len (n : nat) : Prop := Z.of_nat n <= maxRIFTCollectionSize.
Definition fits_string (s : string) : Prop := Z.of_nat (String.length s) <= 2 ^ 20.
Definition fits_bytes (b : bytes) : Prop := Z.of_nat (length b) <= 2 ^ 20.

Definition fits_IPPrefix (p : IPPrefixType) : Prop :=
  typed_opt (fun v6 => fits_bytes (IPv6_Address v6)) (IPPrefix_IPv6Prefix p) /\
  (IPPrefix_IPv4Prefix p = None \/ IPPrefix_IPv6Prefix p = None).

Definition fits_LIEPacket (p : LIEPacket) : Prop :=
  fits_string (LIE_Name p) /\ fits_string (LIE_InstanceName p).

Definition fits_LinkIDPair (p : LinkIDPair) : Prop :=
  fits_string (LIP_PlatformInterfaceName p) /\ fits_len (size (LIP_AddressFamilies p)).

Definition fits_TIDEPacket (p : TIDEPacket) : Prop := fits_len (length (TIDE_Headers p)).
Definition fits_TIREPacket (p : TIREPacket) : Prop := fits_len (length (TIRE_Headers p)).

Definition fits_NodeNeighbors (n : NodeNeighborsTIEElement) : Prop :=
  fits_len (length (NN_LinkIDs n)) /\ Forall fits_LinkIDPair (NN_LinkIDs n).

Definition fits_NodeTIE (n : NodeTIEElement) : Prop :=
  fits_len (size (Node_Neighbors n)) /\
  map_Forall (fun _ v => fits_NodeNeighbors v) (Node_Neighbors n) /\
  fits_string (Node_Name n) /\
  fits_len (size (Node_MiscabledLinks n)) /\ fits_len (size (Node_SamePlaneTofs n)).

Definition fits_PrefixEntry (e : PrefixEntry) : Prop :=
  fits_IPPrefix (PE_Prefix e) /\ fits_len (size (PA_Tags (PE_Attributes e))).

Definition fits_PrefixTIE (p : PrefixTIEElement) : Prop :=
  fits_len (length (PT_Prefixes p)) /\ Forall fits_PrefixEntry (PT_Prefixes p).

Definition fits_KeyValueTIE (kv : KeyValueTIEElement) : Prop :=
  fits_len (size (KV_KeyValues kv)) /\
  map_Forall (fun _ v => typed_opt fits_bytes (KVC_Value v)) (KV_KeyValues kv).

(** Exactly one variant of the union is set, and it fits. *)
Definition fits_TIEElement (el : TIEElement) : Prop :=
  match el with
  | mkTIEElement (Some n) None None None None None None => fits_NodeTIE n
  | mkTIEElement None (Some p) None None None None None
  | mkTIEElement None None (Some p) None None None None
  | mkTIEElement None None None (Some p) None None None
  | mkTIEElement None None None None (Some p) None None
  | mkTIEElement None None None None None (Some p) None => fits_PrefixTIE p
  | mkTIEElement None None None None None None (Some kv) => fits_KeyValueTIE kv
  | _ => False
  end.

Definition fits_PacketContent (c : PacketContent) : Prop :=
  match c with
  | mkPacketContent (Some p) None None None => fits_LIEPacket p
  | mkPacketContent None (Some p) None None => fits_TIDEPacket p
  | mkPacketContent None None (Some p) None => fits_TIREPacket p
  | mkPacketContent None None None (Some p) => fits_TIEElement (TIE_Element p)
  | _ => False
  end.

Definition fits_ProtocolPacket (p : ProtocolPacket) : Prop :=
  fits_PacketContent (PP_Content p).
