(* ===== verification/DecodeProps.v ===== *)
(** * DecodeProps: the decoders terminate, never read past their input, and
    build well-typed values.

    [reads_decodeX] is proved once per struct with the invariant [typed_X]; the
    tactic [reads] walks through a [*_field] step. *)

From S2P Require Import Prelude.
From S2P Require Import Types.
From S2P Require Import Wire.
From S2P Require Import WireProps.
From S2P Require Import Wellformed.
From S2P Require Import Decode.

Lemma reads_store {A S} (P : A -> Prop) (Q : S -> Prop) d f :
  Reads 0 P d -> (forall a, P a -> Q (f a)) -> Reads 0 Q (store d f).
Proof.
  intros Hd Hf. eapply reads_bind0; [exact Hd|]. intros a Ha. by apply reads_ret, Hf.
Qed.

Lemma reads_store' {A S} k (P : A -> Prop) (Q : S -> Prop) d f :
  Reads k P d -> (forall a, P a -> Q (f a)) -> Reads 0 Q (store d f).
Proof. intros Hd. apply reads_store. by eapply reads_zero. Qed.

Lemma reads_skipField {S} (P : S -> Prop) ft s : P s -> Reads 0 P (skipField ft s).
Proof.
  intros Hs. eapply reads_zero, reads_bind0; [apply reads_skip|].
  intros. by apply reads_ret.
Qed.

Lemma reads_appendElem {A} (P : A -> Prop) k d l :
  Reads k P d -> Forall P l -> Reads 0 (Forall P) (appendElem d l).
Proof.
  intros Hd Hl. eapply reads_zero, reads_bind0; [exact Hd|]. intros a Ha.
  apply reads_ret. apply Forall_app. auto.
Qed.

Lemma reads_insertElem (P : Z -> Prop) k d s :
  Reads k P d -> set_Forall P s -> Reads 0 (set_Forall P) (insertElem d s).
Proof.
  intros Hd Hs. eapply reads_zero, reads_bind0; [exact Hd|]. intros a Ha.
  apply reads_ret. apply set_Forall_union; [|done]. by apply set_Forall_singleton.
Qed.

(** A byte or two of type information, then the rest. *)
Lemma reads_byte_then {A} (P : A -> Prop) (d : decoder A) :
  Reads 0 P d -> Reads 0 P (_ ← readByte; d).
Proof. intros. eapply reads_zero, reads_bind0; [apply reads_readByte|done]. Qed.

Lemma reads_decodeSet (P : Z -> Prop) k d : Reads k P d -> Reads 0 (set_Forall P) (decodeSet d).
Proof.
  intros Hd. apply reads_byte_then, reads_readCollection.
  - intros. by eapply reads_insertElem.
  - apply set_Forall_empty.
Qed.

Lemma reads_slice {A} (P : A -> Prop) k d :
  Reads k P d -> Reads 0 (Forall P) (readCollection (appendElem d) []).
Proof.
  intros Hd. apply reads_readCollection; [|done]. intros. by eapply reads_appendElem.
Qed.

#[export] Hint Resolve reads_skipField reads_decodeSet reads_slice reads_byte_then : rift.

(** The step of a struct: one case per field, closed by the field's reader and
    the unfolding of the struct's invariant. *)
Ltac reads_case :=
  first
    [ apply reads_skipField; first [assumption | done]
    | eapply reads_store'; [solve [eauto with rift] |];
      let a := fresh "a" in let Ha := fresh "Ha" in
      intros a Ha; cbn in *; split_all; eauto with rift ].
Ltac reads_step :=
  intros; split_all; repeat case_match; reads_case.
Ltac reads_struct f inv :=
  intros; apply reads_decodeStruct;
  [ intros ? ? ? HI; unfold inv in *; unfold f; reads_step | try assumption ].

(** Simplified ranges of a byte read as an [int8]. *)
Lemma is_int8_wrap b : is_int 8 (wrap 8 b).
Proof. apply wrap_is_int. lia. Qed.
#[export] Hint Resolve is_int8_wrap : rift.

Lemma reads_decodePacketHeader h :
  typed_PacketHeader h -> Reads 1 typed_PacketHeader (decodePacketHeader h).
Proof. reads_struct decodePacketHeader_field typed_PacketHeader. Qed.
#[export] Hint Resolve reads_decodePacketHeader : rift.

Lemma reads_decodeNeighbor n :
  typed_Neighbor n -> Reads 1 typed_Neighbor (decodeNeighbor n).
Proof. reads_struct decodeNeighbor_field typed_Neighbor. Qed.

Lemma reads_decodeNodeCapabilities c :
  typed_NodeCapabilities c -> Reads 1 typed_NodeCapabilities (decodeNodeCapabilities c).
Proof. reads_struct decodeNodeCapabilities_field typed_NodeCapabilities. Qed.

Lemma reads_decodeLinkCapabilities c : Reads 1 always (decodeLinkCapabilities c).
Proof. apply reads_decodeStruct; [|done]. unfold decodeLinkCapabilities_field. reads_step. Qed.

Lemma typed_zeroNeighbor : typed_Neighbor zeroNeighbor.
Proof. by split. Qed.
#[export] Hint Resolve reads_decodeNeighbor reads_decodeNodeCapabilities
  reads_decodeLinkCapabilities typed_zeroNeighbor : rift.

Lemma reads_decodeLIEPacket p :
  typed_LIEPacket p -> Reads 1 typed_LIEPacket (decodeLIEPacket p).
Proof.
  intros Hp. apply reads_decodeStruct.
  - intros ? ? ? HI. unfold typed_LIEPacket in *. unfold decodeLIEPacket_field. reads_step.
  - unfold typed_LIEPacket in *. cbn. by split_all.
Qed.

Lemma reads_decodeIEEE802_1ASTimestamp t :
  typed_TimeStamp t -> Reads 1 typed_TimeStamp (decodeIEEE802_1ASTimestamp t).
Proof. reads_struct decodeIEEE802_1ASTimestamp_field typed_TimeStamp. Qed.

Lemma reads_decodeTIEID id : typed_TIEID id -> Reads 1 typed_TIEID (decodeTIEID id).
Proof. reads_struct decodeTIEID_field typed_TIEID. Qed.

Lemma typed_zeroTimeStamp : typed_TimeStamp zeroTimeStamp.
Proof. by split. Qed.
Lemma typed_zeroTIEID : typed_TIEID zeroTIEID.
Proof. done. Qed.
#[export] Hint Resolve reads_decodeIEEE802_1ASTimestamp reads_decodeTIEID
  typed_zeroTimeStamp typed_zeroTIEID : rift.

Lemma reads_decodeTIEHeader h :
  typed_TIEHeader h -> Reads 1 typed_TIEHeader (decodeTIEHeader h).
Proof. reads_struct decodeTIEHeader_field typed_TIEHeader. Qed.

Lemma typed_zeroTIEHeader : typed_TIEHeader zeroTIEHeader.
Proof. done. Qed.
#[export] Hint Resolve reads_decodeTIEHeader typed_zeroTIEHeader : rift.

Lemma reads_decodeTIEHeaderWithLifeTime h :
  typed_TIEHeaderWithLifeTime h ->
  Reads 1 typed_TIEHeaderWithLifeTime (decodeTIEHeaderWithLifeTime h).
Proof. reads_struct decodeTIEHeaderWithLifeTime_field typed_TIEHeaderWithLifeTime. Qed.

Lemma reads_decodeHeaders : Reads 0 (Forall typed_TIEHeaderWithLifeTime) decodeHeaders.
Proof.
  apply reads_byte_then. eapply reads_slice, reads_decodeTIEHeaderWithLifeTime. done.
Qed.
#[export] Hint Resolve reads_decodeHeaders : rift.

Lemma reads_decodeTIDEPacket p :
  typed_TIDEPacket p -> Reads 1 typed_TIDEPacket (decodeTIDEPacket p).
Proof. reads_struct decodeTIDEPacket_field typed_TIDEPacket. Qed.

Lemma reads_decodeTIREPacket p :
  typed_TIREPacket p -> Reads 1 typed_TIREPacket (decodeTIREPacket p).
Proof. reads_struct decodeTIREPacket_field typed_TIREPacket. Qed.

Lemma reads_decodeNodeFlags f : Reads 1 always (decodeNodeFlags f).
Proof. apply reads_decodeStruct; [|done]. unfold decodeNodeFlags_field. reads_step. Qed.

Lemma reads_decodeLinkIDPair p :
  typed_LinkIDPair p -> Reads 1 typed_LinkIDPair (decodeLinkIDPair p).
Proof. reads_struct decodeLinkIDPair_field typed_LinkIDPair. Qed.

Lemma typed_zeroLinkIDPair : typed_LinkIDPair zeroLinkIDPair.
Proof. repeat split; first [done | apply set_Forall_empty]. Qed.
#[export] Hint Resolve reads_decodeNodeFlags reads_decodeLinkIDPair
  typed_zeroLinkIDPair : rift.

Lemma reads_decodeNodeNeighborsTIEElement n :
  typed_NodeNeighbors n ->
  Reads 1 typed_NodeNeighbors (decodeNodeNeighborsTIEElement n).
Proof. reads_struct decodeNodeNeighborsTIEElement_field typed_NodeNeighbors. Qed.

Lemma reads_decodeNeighborEntry m :
  map_Forall (fun k v => is_int 64 k /\ typed_NodeNeighbors v) m ->
  Reads 0 (map_Forall (fun k v => is_int 64 k /\ typed_NodeNeighbors v))
    (decodeNeighborEntry m).
Proof.
  intros Hm. eapply reads_zero, reads_bind0; [apply reads_readI64|]. intros k Hk.
  eapply reads_zero, reads_bind0.
  { apply reads_decodeNodeNeighborsTIEElement. repeat split; done. }
  intros v Hv. apply reads_ret. by apply map_Forall_insert_2.
Qed.

Lemma reads_neighbors m :
  map_Forall (fun k v => is_int 64 k /\ typed_NodeNeighbors v) m ->
  Reads 0 (map_Forall (fun k v => is_int 64 k /\ typed_NodeNeighbors v))
    (_ ← readByte; _ ← readByte; readCollection decodeNeighborEntry m).
Proof.
  intros. do 2 apply reads_byte_then.
  apply reads_readCollection; [apply reads_decodeNeighborEntry|done].
Qed.
#[export] Hint Resolve reads_neighbors : rift.

Lemma reads_decodeNodeTIEElement n :
  typed_NodeTIE n -> Reads 1 typed_NodeTIE (decodeNodeTIEElement n).
Proof.
  intros Hn. apply reads_decodeStruct.
  - intros ? ? ? HI. unfold typed_NodeTIE in *. unfold decodeNodeTIEElement_field. reads_step.
  - unfold typed_NodeTIE in *. cbn. by split_all.
Qed.

Lemma reads_decodeIPv4PrefixType p :
  typed_IPv4Prefix p -> Reads 1 typed_IPv4Prefix (decodeIPv4PrefixType p).
Proof. reads_struct decodeIPv4PrefixType_field typed_IPv4Prefix. Qed.

Lemma reads_decodeIPv6PrefixType p :
  typed_IPv6Prefix p -> Reads 1 typed_IPv6Prefix (decodeIPv6PrefixType p).
Proof. reads_struct decodeIPv6PrefixType_field typed_IPv6Prefix. Qed.

Lemma typed_zeroIPv4Prefix : typed_IPv4Prefix zeroIPv4Prefix.
Proof. done. Qed.
Lemma typed_zeroIPv6Prefix : typed_IPv6Prefix zeroIPv6Prefix.
Proof. done. Qed.
#[export] Hint Resolve reads_decodeIPv4PrefixType reads_decodeIPv6PrefixType
  typed_zeroIPv4Prefix typed_zeroIPv6Prefix : rift.

Lemma reads_decodeIPPrefixType p :
  typed_IPPrefix p -> Reads 1 typed_IPPrefix (decodeIPPrefixType p).
Proof. reads_struct decodeIPPrefixType_field typed_IPPrefix. Qed.

Lemma reads_decodePrefixSequenceType p :
  typed_PrefixSequence p -> Reads 1 typed_PrefixSequence (decodePrefixSequenceType p).
Proof. reads_struct decodePrefixSequenceType_field typed_PrefixSequence. Qed.

Lemma typed_zeroPrefixSequence : typed_PrefixSequence zeroPrefixSequence.
Proof. done. Qed.
#[export] Hint Resolve reads_decodePrefixSequenceType typed_zeroPrefixSequence : rift.

Lemma reads_decodePrefixAttributes a :
  typed_PrefixAttributes a -> Reads 1 typed_PrefixAttributes (decodePrefixAttributes a).
Proof.
  intros Ha. apply reads_decodeStruct.
  - intros ? ? ? HI. unfold typed_PrefixAttributes in *.
    unfold decodePrefixAttributes_field. reads_step.
  - unfold typed_PrefixAttributes in *. cbn. by split_all.
Qed.

Lemma reads_decodePrefixEntry : Reads 0 typed_PrefixEntry decodePrefixEntry.
Proof.
  eapply reads_zero, reads_bind0; [by apply reads_decodeIPPrefixType|]. intros p Hp.
  eapply reads_zero, reads_bind0.
  { apply reads_decodePrefixAttributes. repeat split; first [done | apply set_Forall_empty]. }
  intros a Ha. by apply reads_ret.
Qed.
#[export] Hint Resolve reads_decodePrefixEntry : rift.

Lemma reads_decodePrefixTIEElement p :
  typed_PrefixTIE p -> Reads 1 typed_PrefixTIE (decodePrefixTIEElement p).
Proof. reads_struct decodePrefixTIEElement_field typed_PrefixTIE. Qed.

Lemma reads_decodeKeyValueTIEElementContent c :
  typed_KeyValueContent c ->
  Reads 1 typed_KeyValueContent (decodeKeyValueTIEElementContent c).
Proof. reads_struct decodeKeyValueTIEElementContent_field typed_KeyValueContent. Qed.

Lemma reads_keyValues :
  Reads 0 (map_Forall (fun k v => is_int 32 k /\ typed_KeyValueContent v))
    (_ ← readByte; _ ← readByte; readCollection decodeKeyValueEntry ∅).
Proof.
  do 2 apply reads_byte_then. apply reads_readCollection; [|apply map_Forall_empty].
  intros m Hm. eapply reads_zero, reads_bind0; [apply reads_readI32|]. intros k Hk.
  eapply reads_zero, reads_bind0; [by apply reads_decodeKeyValueTIEElementContent|].
  intros v Hv. apply reads_ret. by apply map_Forall_insert_2.
Qed.
#[export] Hint Resolve reads_keyValues : rift.

Lemma reads_decodeKeyValueTIEElement kv :
  typed_KeyValueTIE kv -> Reads 1 typed_KeyValueTIE (decodeKeyValueTIEElement kv).
Proof. reads_struct decodeKeyValueTIEElement_field typed_KeyValueTIE. Qed.

Lemma typed_zeroNodeTIE : typed_NodeTIE zeroNodeTIE.
Proof. repeat split; first [done | apply map_Forall_empty | apply set_Forall_empty]. Qed.
Lemma typed_zeroPrefixTIE : typed_PrefixTIE zeroPrefixTIE.
Proof. by constructor. Qed.
Lemma typed_zeroKeyValueTIE : typed_KeyValueTIE zeroKeyValueTIE.
Proof. apply map_Forall_empty. Qed.
#[export] Hint Resolve reads_decodeNodeTIEElement reads_decodePrefixTIEElement
  reads_decodeKeyValueTIEElement typed_zeroNodeTIE typed_zeroPrefixTIE
  typed_zeroKeyValueTIE : rift.

Lemma reads_decodeTIEElement el :
  typed_TIEElement el -> Reads 1 typed_TIEElement (decodeTIEElement el).
Proof. reads_struct decodeTIEElement_field typed_TIEElement. Qed.
#[export] Hint Resolve reads_decodeTIEElement : rift.

Lemma reads_decodeTIEPacket p :
  typed_TIEPacket p -> Reads 1 typed_TIEPacket (decodeTIEPacket p).
Proof. reads_struct decodeTIEPacket_field typed_TIEPacket. Qed.

Lemma typed_zeroLIEPacket : typed_LIEPacket zeroLIEPacket.
Proof. repeat split; done. Qed.
Lemma typed_zeroTIDEPacket : typed_TIDEPacket zeroTIDEPacket.
Proof. repeat split; first [by constructor | done]. Qed.
Lemma typed_zeroTIREPacket : typed_TIREPacket zeroTIREPacket.
Proof. by constructor. Qed.
Lemma typed_zeroTIEPacket : typed_TIEPacket zeroTIEPacket.
Proof. done. Qed.
#[export] Hint Resolve reads_decodeLIEPacket reads_decodeTIDEPacket
  reads_decodeTIREPacket reads_decodeTIEPacket typed_zeroLIEPacket
  typed_zeroTIDEPacket typed_zeroTIREPacket typed_zeroTIEPacket : rift.

Lemma reads_decodePacketContent c :
  typed_PacketContent c -> Reads 1 typed_PacketContent (decodePacketContent c).
Proof. reads_struct decodePacketContent_field typed_PacketContent. Qed.
#[export] Hint Resolve reads_decodePacketContent : rift.

Lemma reads_DecodeProtocolPacket : Reads 1 typed_ProtocolPacket DecodeProtocolPacket.
Proof. reads_struct decodeProtocolPacket_field typed_ProtocolPacket. done. Qed.
