(* ===== verification/RoundTrip.v ===== *)
(** * RoundTrip: what the encoders write, the decoders read back.

    The lemmas [decode_req], [decode_opt], [decode_optString], [decode_optSet],
    [decode_optElems] and [decode_stop] consume one encoded field each; the proof
    for a struct is the list of its fields. *)

From S2P Require Import Prelude.
From S2P Require Import Types.
From S2P Require Import Wire.
From S2P Require Import WireProps.
From S2P Require Import Wellformed.
From S2P Require Import Encode.
From S2P Require Import Decode.

(** ** The decoders are total

    [Total d]: [d] returns on every input and never grows it.  Instances follow
    the structure of the decoders. *)

Class Total {A} (d : decoder A) : Prop := total_reads : Reads 0 always d.
Class StepTotal {S} (step : Z -> Z -> S -> decoder S) : Prop :=
  step_total : forall ft fid s, Total (step ft fid s).

Lemma total_of_reads {A} k (P : A -> Prop) d : Reads k P d -> Total d.
Proof. intros H. eapply reads_weaken; [exact H|lia|done]. Qed.

#[export] Instance total_ret {A} (a : A) : Total (mret a).
Proof. by apply reads_ret. Qed.
#[export] Instance total_bind {A B} (d : decoder A) (f : A -> decoder B) :
  Total d -> (forall a, Total (f a)) -> Total (d ≫= f).
Proof. intros Hd Hf. eapply reads_bind0; [exact Hd|]. intros. apply Hf. Qed.
#[export] Instance total_readByte : Total readByte.
Proof. eapply total_of_reads, reads_readByte. Qed.
#[export] Instance total_readI16 : Total readI16.
Proof. eapply total_of_reads, reads_readI16. Qed.
#[export] Instance total_readI32 : Total readI32.
Proof. eapply total_of_reads, reads_readI32. Qed.
#[export] Instance total_readI64 : Total readI64.
Proof. eapply total_of_reads, reads_readI64. Qed.
#[export] Instance total_readBool : Total readBool.
Proof. eapply total_of_reads, reads_readBool. Qed.
#[export] Instance total_readString : Total readString.
Proof. eapply total_of_reads, reads_readString. Qed.
#[export] Instance total_readBinary : Total readBinary.
Proof. eapply total_of_reads, reads_readBinary. Qed.
#[export] Instance total_skip t : Total (skip t).
Proof. eapply total_of_reads, reads_skip. Qed.
#[export] Instance total_if {A} (b : bool) (d1 d2 : decoder A) :
  Total d1 -> Total d2 -> Total (if b then d1 else d2).
Proof. by destruct b. Qed.
#[export] Instance total_store {A S} (d : decoder A) (f : A -> S) :
  Total d -> Total (store d f).
Proof. intros. unfold store. apply _. Qed.
#[export] Instance total_skipField {S} ft (s : S) : Total (skipField ft s).
Proof. unfold skipField. apply _. Qed.
#[export] Instance total_appendElem {A} (d : decoder A) l :
  Total d -> Total (appendElem d l).
Proof. intros. unfold appendElem. apply _. Qed.
#[export] Instance total_insertElem d s : Total d -> Total (insertElem d s).
Proof. intros. unfold insertElem. apply _. Qed.
#[export] Instance total_readCollection {S} (body : S -> decoder S) s :
  (forall s, Total (body s)) -> Total (readCollection body s).
Proof.
  intros Hb. apply (reads_readCollection always); [|done]. intros. apply Hb.
Qed.
#[export] Instance total_decodeSet d : Total d -> Total (decodeSet d).
Proof. intros. unfold decodeSet. apply _. Qed.
#[export] Instance total_decodeStruct {S} (step : Z -> Z -> S -> decoder S) s :
  StepTotal step -> Total (decodeStruct step s).
Proof.
  intros Hs. apply (total_of_reads 1 always), (reads_decodeStruct _ always); [|done].
  intros. apply Hs.
Qed.

(** Unfold a decoder or its step and follow its structure. *)
Ltac total_step f := intros ? ? ?; unfold f; apply _.

#[export] Instance steps_PacketHeader : StepTotal decodePacketHeader_field.
Proof. total_step decodePacketHeader_field. Qed.
#[export] Instance steps_Neighbor : StepTotal decodeNeighbor_field.
Proof. total_step decodeNeighbor_field. Qed.
#[export] Instance steps_NodeCapabilities : StepTotal decodeNodeCapabilities_field.
Proof. total_step decodeNodeCapabilities_field. Qed.
#[export] Instance steps_LinkCapabilities : StepTotal decodeLinkCapabilities_field.
Proof. total_step decodeLinkCapabilities_field. Qed.
#[export] Instance steps_LIEPacket : StepTotal decodeLIEPacket_field.
Proof.
  intros ? ? ?; unfold decodeLIEPacket_field, decodeNeighbor, decodeNodeCapabilities,
    decodeLinkCapabilities. apply _.
Qed.
#[export] Instance steps_TimeStamp : StepTotal decodeIEEE802_1ASTimestamp_field.
Proof. total_step decodeIEEE802_1ASTimestamp_field. Qed.
#[export] Instance steps_TIEID : StepTotal decodeTIEID_field.
Proof. total_step decodeTIEID_field. Qed.
#[export] Instance steps_TIEHeader : StepTotal decodeTIEHeader_field.
Proof.
  intros ? ? ?; unfold decodeTIEHeader_field, decodeTIEID, decodeIEEE802_1ASTimestamp.
  apply _.
Qed.
#[export] Instance steps_TIEHeaderWithLifeTime :
  StepTotal decodeTIEHeaderWithLifeTime_field.
Proof. intros ? ? ?; unfold decodeTIEHeaderWithLifeTime_field, decodeTIEHeader. apply _. Qed.
#[export] Instance total_decodeHeaders : Total decodeHeaders.
Proof. unfold decodeHeaders, decodeTIEHeaderWithLifeTime. apply _. Qed.
#[export] Instance steps_TIDEPacket : StepTotal decodeTIDEPacket_field.
Proof. intros ? ? ?; unfold decodeTIDEPacket_field, decodeTIEID. apply _. Qed.
#[export] Instance steps_TIREPacket : StepTotal decodeTIREPacket_field.
Proof. total_step decodeTIREPacket_field. Qed.
#[export] Instance steps_NodeFlags : StepTotal decodeNodeFlags_field.
Proof. total_step decodeNodeFlags_field. Qed.
#[export] Instance steps_LinkIDPair : StepTotal decodeLinkIDPair_field.
Proof. total_step decodeLinkIDPair_field. Qed.
#[export] Instance steps_NodeNeighbors : StepTotal decodeNodeNeighborsTIEElement_field.
Proof.
  intros ? ? ?; unfold decodeNodeNeighborsTIEElement_field, decodeLinkIDPair. apply _.
Qed.
#[export] Instance total_decodeNeighborEntry m : Total (decodeNeighborEntry m).
Proof. unfold decodeNeighborEntry, decodeNodeNeighborsTIEElement. apply _. Qed.
#[export] Instance steps_NodeTIE : StepTotal decodeNodeTIEElement_field.
Proof.
  intros ? ? ?; unfold decodeNodeTIEElement_field, decodeNodeCapabilities, decodeNodeFlags.
  apply _.
Qed.
#[export] Instance steps_IPv4Prefix : StepTotal decodeIPv4PrefixType_field.
Proof. total_step decodeIPv4PrefixType_field. Qed.
#[export] Instance steps_IPv6Prefix : StepTotal decodeIPv6PrefixType_field.
Proof. total_step decodeIPv6PrefixType_field. Qed.
#[export] Instance steps_IPPrefix : StepTotal decodeIPPrefixType_field.
Proof.
  intros ? ? ?; unfold decodeIPPrefixType_field, decodeIPv4PrefixType, decodeIPv6PrefixType.
  apply _.
Qed.
#[export] Instance steps_PrefixSequence : StepTotal decodePrefixSequenceType_field.
Proof.
  intros ? ? ?; unfold decodePrefixSequenceType_field, decodeIEEE802_1ASTimestamp. apply _.
Qed.
#[export] Instance steps_PrefixAttributes : StepTotal decodePrefixAttributes_field.
Proof. intros ? ? ?; unfold decodePrefixAttributes_field, decodePrefixSequenceType. apply _. Qed.
#[export] Instance total_decodePrefixEntry : Total decodePrefixEntry.
Proof. unfold decodePrefixEntry, decodeIPPrefixType, decodePrefixAttributes. apply _. Qed.
#[export] Instance steps_PrefixTIE : StepTotal decodePrefixTIEElement_field.
Proof. total_step decodePrefixTIEElement_field. Qed.
#[export] Instance steps_KeyValueContent : StepTotal decodeKeyValueTIEElementContent_field.
Proof. total_step decodeKeyValueTIEElementContent_field. Qed.
#[export] Instance total_decodeKeyValueEntry m : Total (decodeKeyValueEntry m).
Proof. unfold decodeKeyValueEntry, decodeKeyValueTIEElementContent. apply _. Qed.
#[export] Instance steps_KeyValueTIE : StepTotal decodeKeyValueTIEElement_field.
Proof. total_step decodeKeyValueTIEElement_field. Qed.
#[export] Instance steps_TIEElement : StepTotal decodeTIEElement_field.
Proof.
  intros ? ? ?; unfold decodeTIEElement_field, decodeNodeTIEElement, decodePrefixTIEElement,
    decodeKeyValueTIEElement. apply _.
Qed.
#[export] Instance steps_TIEPacket : StepTotal decodeTIEPacket_field.
Proof. intros ? ? ?; unfold decodeTIEPacket_field, decodeTIEHeader, decodeTIEElement. apply _. Qed.
#[export] Instance steps_PacketContent : StepTotal decodePacketContent_field.
Proof.
  intros ? ? ?; unfold decodePacketContent_field, decodeLIEPacket, decodeTIDEPacket,
    decodeTIREPacket, decodeTIEPacket. apply _.
Qed.
#[export] Instance steps_ProtocolPacket : StepTotal decodeProtocolPacket_field.
Proof.
  intros ? ? ?; unfold decodeProtocolPacket_field, decodePacketHeader, decodePacketContent.
  apply _.
Qed.

(** ** Primitives *)

Lemma readFull_app n l rest :
  Z.of_nat (length l) = n -> readFull n (l ++ rest) = Ok l rest.
Proof.
  intros <-. unfold readFull. destruct (Z.eqb_spec (Z.of_nat (length l)) 0) as [E|E].
  - by destruct l.
  - destruct l as [|b l]; [done|].
    change ((b :: l) ++ rest) with (b :: (l ++ rest)).
    destruct (Z.ltb_spec (Z.of_nat (length (b :: l ++ rest)))
                         (Z.of_nat (length (b :: l)))) as [Hlt|_].
    { revert Hlt. simpl length. rewrite length_app. lia. }
    rewrite Nat2Z.id. change (b :: (l ++ rest)) with ((b :: l) ++ rest).
    by rewrite take_app_length, drop_app_length.
Qed.

(** Reading [n] big-endian bytes back. *)
Lemma read_be_app {A} (f : Z -> A) n w v rest :
  w = 8 * Z.of_nat n ->
  (b ← readFull (Z.of_nat n); mret (f (get_be b))) (put_be n v ++ rest)
  = Ok (f (v mod 2 ^ w)) rest.
Proof.
  intros ->. unfold mbind, decoder_bind.
  rewrite readFull_app by (by rewrite length_put_be).
  rewrite get_put_be, (Z.pow_mul_r 2 8 (Z.of_nat n)) by lia. done.
Qed.

Lemma readByte_writeByte v rest : readByte (writeByte v ++ rest) = Ok (uwrap 8 v) rest.
Proof. exact (read_be_app id 1 8 v rest eq_refl). Qed.

Lemma uwrap_uwrap w v : 0 < w -> uwrap w v mod 2 ^ w = uwrap w v.
Proof. intros. unfold uwrap. apply Z.mod_mod. lia. Qed.

Lemma readI16_writeI16 v rest :
  is_int 16 v -> readI16 (writeI16 v ++ rest) = Ok v rest.
Proof.
  intros Hv. unfold readI16, writeI16.
  rewrite (read_be_app (wrap 16) 2 16 _ rest eq_refl), uwrap_uwrap by lia.
  by rewrite wrap_uwrap, wrap_id by (done || lia).
Qed.

Lemma readI32_writeI32 v rest :
  is_int 32 v -> readI32 (writeI32 v ++ rest) = Ok v rest.
Proof.
  intros Hv. unfold readI32, writeI32.
  rewrite (read_be_app (wrap 32) 4 32 _ rest eq_refl), uwrap_uwrap by lia.
  by rewrite wrap_uwrap, wrap_id by (done || lia).
Qed.

Lemma readI64_writeI64 v rest :
  is_int 64 v -> readI64 (writeI64 v ++ rest) = Ok v rest.
Proof.
  intros Hv. unfold readI64, writeI64.
  rewrite (read_be_app (wrap 64) 8 64 _ rest eq_refl), uwrap_uwrap by lia.
  by rewrite wrap_uwrap, wrap_id by (done || lia).
Qed.

Lemma bind_ok {A B} (d : decoder A) (f : A -> decoder B) bs a rest :
  d bs = Ok a rest -> (d ≫= f) bs = f a rest.
Proof. intros E. unfold mbind, decoder_bind. by rewrite E. Qed.

Lemma readBool_writeBool v rest : readBool (writeBool v ++ rest) = Ok v rest.
Proof.
  unfold readBool. destruct v; simpl writeBool;
    (erewrite bind_ok; [|apply readByte_writeByte]; done).
Qed.

(** An [int8] travels as one unsigned byte. *)
Lemma wrap8_uwrap8 v : is_int 8 v -> wrap 8 (uwrap 8 v) = v.
Proof. intros. by rewrite wrap_uwrap, wrap_id by (done || lia). Qed.

Lemma length_list_byte_of_string s :
  length (list_byte_of_string s) = String.length s.
Proof.
  unfold list_byte_of_string. rewrite length_map.
  induction s; simpl; congruence.
Qed.

Lemma wrap32_len n : Z.of_nat n <= 2 ^ 20 -> wrap 32 (Z.of_nat n) = Z.of_nat n.
Proof. intros. apply wrap_id; [lia|]. apply is_int32. lia. Qed.

Lemma read_len_test n (H : Z.of_nat n <= 2 ^ 20) :
  ((Z.of_nat n <? 0) || (Z.of_nat n >? Z.shiftl 1 20)) = false.
Proof.
  change (Z.shiftl 1 20) with (2 ^ 20). rewrite Z.gtb_ltb.
  apply orb_false_iff. split; apply Z.ltb_ge; lia.
Qed.

Lemma readString_writeString s rest :
  fits_string s -> readString (writeString s ++ rest) = Ok s rest.
Proof.
  intros Hs. unfold writeString. rewrite wrap32_len, <-app_assoc by done.
  unfold readString. erewrite bind_ok; [|apply readI32_writeI32].
  2:{ unfold fits_string in Hs. apply is_int32. lia. }
  rewrite read_len_test by done. erewrite bind_ok; [|apply readFull_app].
  2:{ by rewrite length_list_byte_of_string. }
  by rewrite string_of_list_byte_of_string.
Qed.

Lemma readBinary_writeBinary b rest :
  fits_bytes b -> readBinary (writeBinary b ++ rest) = Ok b rest.
Proof.
  intros Hs. unfold writeBinary. rewrite wrap32_len, <-app_assoc by done.
  unfold readBinary. erewrite bind_ok; [|apply readI32_writeI32].
  2:{ unfold fits_bytes in Hs. apply is_int32. lia. }
  rewrite read_len_test by done. by apply readFull_app.
Qed.

Create HintDb rt.
#[export] Hint Resolve readI16_writeI16 readI32_writeI32 readI64_writeI64
  readBool_writeBool readString_writeString readBinary_writeBinary
  readByte_writeByte : rt.

(** ** Fields *)

(** Thrift type codes and field identifiers of codec.go are in range. *)
Definition field_ok (ty fid : Z) : Prop := 1 <= ty < 256 /\ is_int 16 fid.

Ltac field_ok := repeat split; vm_compute; done.

Lemma readFieldHeader_stop rest :
  readFieldHeader (writeFieldStop ++ rest) = Ok (0, 0) rest.
Proof.
  unfold readFieldHeader, writeFieldStop.
  by rewrite (bind_ok _ _ _ _ _ (readByte_writeByte thriftTypeStop rest)).
Qed.

Lemma readFieldHeader_field ty fid rest :
  field_ok ty fid -> readFieldHeader (writeFieldHeader ty fid ++ rest) = Ok (ty, fid) rest.
Proof.
  intros [Hty Hfid]. unfold readFieldHeader, writeFieldHeader. rewrite <-app_assoc.
  rewrite (bind_ok _ _ _ _ _ (readByte_writeByte ty _)).
  unfold uwrap. rewrite Z.mod_small by lia.
  destruct (Z.eqb_spec ty thriftTypeStop) as [->|_]; [unfold thriftTypeStop in Hty; lia|].
  by rewrite (bind_ok _ _ _ _ _ (readI16_writeI16 fid rest Hfid)).
Qed.

Section fields.
Context {S : Type} (step : Z -> Z -> S -> decoder S) `{!StepTotal step}.

Lemma decode_stop s rest : decodeStruct step s (writeFieldStop ++ rest) = Ok s rest.
Proof.
  rewrite decodeStruct_unfold by exact step_total.
  by rewrite (bind_ok _ _ _ _ _ (readFieldHeader_stop rest)).
Qed.

Lemma decode_header s ty fid bs :
  field_ok ty fid ->
  decodeStruct step s (writeFieldHeader ty fid ++ bs)
  = (s' ← step ty fid s; decodeStruct step s') bs.
Proof.
  intros Hok. rewrite decodeStruct_unfold by exact step_total.
  rewrite (bind_ok _ _ _ _ _ (readFieldHeader_field ty fid bs Hok)).
  destruct Hok as [Hty _].
  destruct (Z.eqb_spec ty thriftTypeStop) as [->|_]; [unfold thriftTypeStop in Hty; lia|done].
Qed.

(** A field that is always present. *)
Lemma decode_req s ty fid {A} (d : decoder A) f a bs rest :
  field_ok ty fid -> step ty fid s = store d f -> d bs = Ok a rest ->
  decodeStruct step s (writeFieldHeader ty fid ++ bs) = decodeStruct step (f a) rest.
Proof.
  intros Hok Hstep Hd. rewrite decode_header, Hstep by done.
  erewrite bind_ok; [done|]. unfold store. by erewrite bind_ok.
Qed.

(** An optional field, unset so far. *)
Lemma decode_opt {A B} (F : S -> option A) `{!SetField F} s ty fid (w : A -> bytes)
    (d : decoder B) (g : B -> A) (o : option A) rest :
  field_ok ty fid -> step ty fid s = store d (fun v => s <| F := Some (g v) |>) ->
  s <| F := None |> = s ->
  (forall a, o = Some a -> exists b, d (w a ++ rest) = Ok b rest /\ g b = a) ->
  decodeStruct step s (optField ty fid w o ++ rest)
  = decodeStruct step (s <| F := o |>) rest.
Proof.
  intros Hok Hstep Hs Hd. unfold optField. destruct o as [a|].
  - destruct (Hd a eq_refl) as (b & Hb & <-). rewrite <-app_assoc.
    erewrite decode_req; [|done|exact Hstep|exact Hb]. done.
  - by rewrite Hs.
Qed.

Lemma decode_optString (F : S -> string) `{!SetField F} s fid v rest :
  field_ok thriftTypeString fid ->
  step thriftTypeString fid s = store readString (fun v => s <| F := v |>) ->
  s <| F := ""%string |> = s -> fits_string v ->
  decodeStruct step s (optString fid v ++ rest)
  = decodeStruct step (s <| F := v |>) rest.
Proof.
  intros Hok Hstep Hs Hv. unfold optString. case_bool_decide as E.
  - subst v. by rewrite Hs.
  - rewrite <-app_assoc.
    apply (decode_req _ _ _ readString (fun v => s <| F := v |>)); [done|done|].
    by apply readString_writeString.
Qed.
End fields.

(** ** Collections *)

Lemma readCollectionLen_writeI32 n rest :
  fits_len n ->
  readCollectionLen maxRIFTCollectionSize (writeI32 (wrap 32 (Z.of_nat n)) ++ rest)
  = Ok (Z.of_nat n) rest.
Proof.
  unfold fits_len, maxRIFTCollectionSize. intros Hn.
  assert (is_int 32 (Z.of_nat n)) as Hi by (apply is_int32; lia).
  rewrite wrap_id by (done || lia). unfold readCollectionLen.
  erewrite bind_ok; [|by apply readI32_writeI32].
  rewrite Z.gtb_ltb. destruct (Z.ltb_spec (Z.of_nat n) 0); [lia|].
  by destruct (Z.ltb_spec 10000 (Z.of_nat n)); [lia|].
Qed.

(** Decoding the elements one by one folds [upd] over them. *)
Lemma repeatDecode_flat {A S} (body : S -> decoder S) (upd : S -> A -> S)
    (w : A -> bytes) (P : A -> Prop) l s rest :
  (forall s a rest, P a -> body s (w a ++ rest) = Ok (upd s a) rest) -> Forall P l ->
  repeatDecode (length l) body s ((l ≫= w) ++ rest) = Ok (foldl upd s l) rest.
Proof.
  intros Hb. revert s. induction l as [|a l IH]; intros s Hl; simpl.
  - done.
  - inversion_clear Hl. rewrite <-app_assoc.
    erewrite bind_ok; [|by apply Hb]. by apply IH.
Qed.

Lemma readCollection_flat {A S} (body : S -> decoder S) (upd : S -> A -> S)
    (w : A -> bytes) (P : A -> Prop) l s rest :
  (forall s a rest, P a -> body s (w a ++ rest) = Ok (upd s a) rest) -> Forall P l ->
  fits_len (length l) ->
  readCollection body s (writeI32 (wrap 32 (Z.of_nat (length l))) ++ (l ≫= w) ++ rest)
  = Ok (foldl upd s l) rest.
Proof.
  intros Hb Hl Hn. unfold readCollection.
  erewrite bind_ok; [|by apply readCollectionLen_writeI32].
  rewrite Nat2Z.id. by eapply repeatDecode_flat.
Qed.

Lemma foldl_append {A} (l acc : list A) :
  foldl (fun s a => s ++ [a]) acc l = acc ++ l.
Proof.
  revert acc. induction l as [|a l IH]; intros acc; simpl.
  - by rewrite app_nil_r.
  - by rewrite IH, <-app_assoc.
Qed.

(** A slice: [readByte] of the element type, then the elements. *)
Lemma read_slice {A} (d : decoder A) (w : A -> bytes) (P : A -> Prop) ty l rest :
  (forall a rest, P a -> d (w a ++ rest) = Ok a rest) -> Forall P l ->
  fits_len (length l) ->
  (_ ← readByte; readCollection (appendElem d) []) (writeElems ty w l ++ rest)
  = Ok l rest.
Proof.
  intros Hd Hl Hn. unfold writeElems. rewrite <-!app_assoc.
  erewrite bind_ok; [|apply readByte_writeByte].
  erewrite (readCollection_flat _ (fun s a => s ++ [a]) w P); [|intros|done|done].
  - by rewrite foldl_append.
  - unfold appendElem. by erewrite bind_ok; [|by apply Hd].
Qed.

Lemma foldl_insert_set (l : list Z) (s : gset Z) :
  foldl (fun s a => {[a]} ∪ s) s l = list_to_set l ∪ s.
Proof.
  revert s. induction l as [|a l IH]; intros s; simpl.
  - set_solver.
  - rewrite IH. set_solver.
Qed.
