(* ===== verification/Codec.v ===== *)
(** * Codec: the round-trip theorems of the packet codec.

    [decodeX_encodeX] for every struct of the schema, up to
    [DecodeProtocolPacket_EncodeProtocolPacket]: a well-typed packet within the
    decoder's limits is read back exactly, whatever follows it and whatever
    order Go's [range] enumerates its sets in. *)

From S2P Require Import Prelude.
From S2P Require Import Types.
From S2P Require Import Wire.
From S2P Require Import WireProps.
From S2P Require Import Wellformed.
From S2P Require Import Encode.
From S2P Require Import Decode.
From S2P Require Import DecodeProps.
From S2P Require Import RoundTrip.

(** ** Sets and optional collections *)

Section collections.
Context `{MapRange}.

Lemma length_range_set (s : gset Z) : length (range_set s) = size s.
Proof. by rewrite range_set_perm. Qed.

Lemma decodeSet_writeSet (d : decoder Z) (w : Z -> bytes) (P : Z -> Prop) ty s rest :
  (forall a rest, P a -> d (w a ++ rest) = Ok a rest) -> set_Forall P s ->
  fits_len (size s) ->
  decodeSet d (writeByte ty ++ writeI32 (wrap 32 (Z.of_nat (size s))) ++
               (range_set s ≫= w) ++ rest) = Ok s rest.
Proof.
  intros Hd Hs Hn. unfold decodeSet.
  rewrite (bind_ok _ _ _ _ _ (readByte_writeByte ty _)), <-length_range_set.
  rewrite (readCollection_flat _ (fun s a => {[a]} ∪ s) w P).
  - rewrite foldl_insert_set, union_empty_r_L. do 1 f_equal.
    rewrite (list_to_set_perm_L _ _ (range_set_perm s)). apply list_to_set_elements_L.
  - intros s' a r Ha. unfold insertElem. by rewrite (bind_ok _ _ _ _ _ (Hd a r Ha)).
  - rewrite range_set_perm. by apply set_Forall_elements.
  - by rewrite length_range_set.
Qed.

Lemma decode_optSet {S} (step : Z -> Z -> S -> decoder S) `{!StepTotal step}
    (F : S -> gset Z) `{!SetField F} s fid ty w (d : decoder Z) (P : Z -> Prop) v rest :
  field_ok thriftTypeSet fid ->
  step thriftTypeSet fid s = store (decodeSet d) (fun v => s <| F := v |>) ->
  s <| F := ∅ |> = s ->
  (forall a rest, P a -> d (w a ++ rest) = Ok a rest) -> set_Forall P v ->
  fits_len (size v) ->
  decodeStruct step s (optSet fid ty w v ++ rest)
  = decodeStruct step (s <| F := v |>) rest.
Proof.
  intros Hok Hstep Hs Hd HP Hn. unfold optSet. case_bool_decide as E.
  - subst v. by rewrite Hs.
  - rewrite <-!app_assoc.
    apply (decode_req _ _ _ _ (decodeSet d) (fun v => s <| F := v |>)); [done|done|].
    by eapply decodeSet_writeSet.
Qed.
End collections.

Lemma decode_optElems {S A} (step : Z -> Z -> S -> decoder S) `{!StepTotal step}
    (F : S -> list A) `{!SetField F} s fid ty w (d : decoder A) (P : A -> Prop) l rest :
  field_ok thriftTypeSet fid ->
  step thriftTypeSet fid s
  = store (_ ← readByte; readCollection (appendElem d) []) (fun v => s <| F := v |>) ->
  s <| F := [] |> = s ->
  (forall a rest, P a -> d (w a ++ rest) = Ok a rest) -> Forall P l ->
  fits_len (length l) ->
  decodeStruct step s (optElems fid ty w l ++ rest)
  = decodeStruct step (s <| F := l |>) rest.
Proof.
  intros Hok Hstep Hs Hd HP Hn. unfold optElems. destruct l as [|a l].
  - by rewrite Hs.
  - rewrite <-!app_assoc.
    eapply (decode_req _ _ _ _ _ (fun v => s <| F := v |>)); [done|exact Hstep|].
    by eapply read_slice.
Qed.

(** ** The proof of a struct, field by field *)

(** Bring the struct decoded so far back to constructor form. *)
Ltac rt_norm :=
  match goal with
  | |- decodeStruct ?step ?s ?bs = ?r =>
      let s' := eval cbn in s in change (decodeStruct step s' bs = r)
  end.
Ltac rt_field := solve [field_ok].
(** Close the reading of a present value: the primitive or the struct lemma. *)
Ltac rt_read :=
  let a := fresh "a" in let Ha := fresh "Ha" in
  intros a Ha;
  repeat match goal with
  | H : typed_opt _ _ |- _ => rewrite Ha in H; cbn [typed_opt] in H
  end;
  eexists; split; [solve [eauto with rt] | first [reflexivity | by apply wrap8_uwrap8]].
Ltac rt_req :=
  erewrite decode_req; [|apply _|rt_field|reflexivity|solve [eauto with rt]]; rt_norm.
Ltac rt_opt_with F g :=
  erewrite (decode_opt _ F _ _ _ _ _ g);
  [|rt_field|reflexivity|reflexivity|rt_read]; rt_norm.
Ltac rt_opt F :=
  match type of F with
  | _ -> option ?A => rt_opt_with F (fun v : A => v)
  end.
(** An optional [int8] field. *)
Ltac rt_opt8 F := rt_opt_with F (wrap 8).
Ltac rt_str F :=
  erewrite (decode_optString _ F);
  [|rt_field|reflexivity|reflexivity|assumption]; rt_norm.
Ltac rt_set F P :=
  erewrite (decode_optSet _ F _ _ _ _ _ P);
  [|rt_field|reflexivity|reflexivity|solve [eauto with rt]|assumption|assumption]; rt_norm.
Ltac rt_elems F elem :=
  erewrite (decode_optElems _ F);
  [|rt_field|reflexivity|reflexivity|exact elem|eassumption|assumption]; rt_norm.
Ltac rt_stop :=
  rewrite decode_stop by apply _; rewrite ?wrap8_uwrap8 by assumption;
  match goal with |- Ok _ _ = Ok ?x _ => by destruct x end.

(** Open the struct: its invariants, its encoding and its decoder. *)
Ltac rt_open := intros; split_all; rewrite <-?app_assoc.

(** The struct lemmas feed each other through the [rt] database. *)

Lemma decodePacketHeader_encode h rest :
  typed_PacketHeader h ->
  decodePacketHeader zeroPacketHeader (encodePacketHeader h ++ rest) = Ok h rest.
Proof.
  unfold typed_PacketHeader, encodePacketHeader, decodePacketHeader. rt_open.
  rt_req. rt_req. rt_req. rt_opt8 PH_Level. rt_stop.
Qed.

Lemma decodeNeighbor_encode n rest :
  typed_Neighbor n ->
  decodeNeighbor zeroNeighbor (encodeNeighbor n ++ rest) = Ok n rest.
Proof.
  unfold typed_Neighbor, encodeNeighbor, decodeNeighbor. rt_open.
  rt_req. rt_req. rt_stop.
Qed.

Lemma decodeNodeCapabilities_encode c rest :
  typed_NodeCapabilities c ->
  decodeNodeCapabilities zeroNodeCapabilities (encodeNodeCapabilities c ++ rest) = Ok c rest.
Proof.
  unfold typed_NodeCapabilities, encodeNodeCapabilities, decodeNodeCapabilities. rt_open.
  rt_req. rt_opt NC_FloodReduction. rt_opt NC_HierarchyIndications. rt_stop.
Qed.

Lemma decodeLinkCapabilities_encode c rest :
  decodeLinkCapabilities zeroLinkCapabilities (encodeLinkCapabilities c ++ rest) = Ok c rest.
Proof.
  unfold encodeLinkCapabilities, decodeLinkCapabilities. rt_open.
  rt_opt LC_BFD. rt_opt LC_IPv4ForwardingCapable. rt_stop.
Qed.
#[export] Hint Resolve decodePacketHeader_encode decodeNeighbor_encode
  decodeNodeCapabilities_encode decodeLinkCapabilities_encode : rt.

Lemma decodeLIEPacket_encode p rest :
  typed_LIEPacket p -> fits_LIEPacket p ->
  decodeLIEPacket zeroLIEPacket (encodeLIEPacket p ++ rest) = Ok p rest.
Proof.
  unfold typed_LIEPacket, fits_LIEPacket, encodeLIEPacket, decodeLIEPacket. rt_open.
  rt_str LIE_Name. rt_req. rt_req. rt_opt LIE_LinkMTUSize. rt_opt LIE_LinkBandwidth.
  rt_opt LIE_Neighbor. rt_opt LIE_Pod. rt_req. rt_opt LIE_LinkCapabilities. rt_req.
  rt_opt LIE_Label. rt_opt LIE_NotAZTPOffer. rt_opt LIE_YouAreFloodRepeater.
  rt_opt LIE_YouAreSendingTooQuickly. rt_str LIE_InstanceName. rt_opt LIE_FabricID.
  rt_stop.
Qed.

Lemma decodeIEEE802_1ASTimestamp_encode t rest :
  typed_TimeStamp t ->
  decodeIEEE802_1ASTimestamp zeroTimeStamp (encodeIEEE802_1ASTimestamp t ++ rest)
  = Ok t rest.
Proof.
  unfold typed_TimeStamp, encodeIEEE802_1ASTimestamp, decodeIEEE802_1ASTimestamp. rt_open.
  rt_req. rt_opt TS_ASNsec. rt_stop.
Qed.

Lemma decodeTIEID_encode id rest :
  typed_TIEID id -> decodeTIEID zeroTIEID (encodeTIEID id ++ rest) = Ok id rest.
Proof.
  unfold typed_TIEID, encodeTIEID, decodeTIEID. rt_open.
  rt_req. rt_req. rt_req. rt_req. rt_stop.
Qed.
#[export] Hint Resolve decodeLIEPacket_encode decodeIEEE802_1ASTimestamp_encode
  decodeTIEID_encode : rt.

Lemma decodeTIEHeader_encode h rest :
  typed_TIEHeader h -> decodeTIEHeader zeroTIEHeader (encodeTIEHeader h ++ rest) = Ok h rest.
Proof.
  unfold typed_TIEHeader, encodeTIEHeader, decodeTIEHeader. rt_open.
  rt_req. rt_req. rt_opt OriginationTime. rt_opt OriginationLifetime. rt_stop.
Qed.
#[export] Hint Resolve decodeTIEHeader_encode : rt.

Lemma decodeTIEHeaderWithLifeTime_encode h rest :
  typed_TIEHeaderWithLifeTime h ->
  decodeTIEHeaderWithLifeTime zeroTIEHeaderWithLifeTime
    (encodeTIEHeaderWithLifeTimeInline h ++ rest) = Ok h rest.
Proof.
  unfold typed_TIEHeaderWithLifeTime, encodeTIEHeaderWithLifeTimeInline,
    decodeTIEHeaderWithLifeTime. rt_open.
  rt_req. rt_req. rt_stop.
Qed.

Lemma decodeHeaders_encode l rest :
  Forall typed_TIEHeaderWithLifeTime l -> fits_len (length l) ->
  decodeHeaders
    (writeElems thriftTypeStruct encodeTIEHeaderWithLifeTimeInline l ++ rest) = Ok l rest.
Proof.
  intros. unfold decodeHeaders.
  eapply read_slice; [apply decodeTIEHeaderWithLifeTime_encode|done|done].
Qed.
#[export] Hint Resolve decodeHeaders_encode : rt.

Lemma decodeTIDEPacket_encode p rest :
  typed_TIDEPacket p -> fits_TIDEPacket p ->
  decodeTIDEPacket zeroTIDEPacket (encodeTIDEPacket p ++ rest) = Ok p rest.
Proof.
  unfold typed_TIDEPacket, fits_TIDEPacket, encodeTIDEPacket, decodeTIDEPacket. rt_open.
  rt_req. rt_req. rt_req. rt_stop.
Qed.

Lemma decodeTIREPacket_encode p rest :
  typed_TIREPacket p -> fits_TIREPacket p ->
  decodeTIREPacket zeroTIREPacket (encodeTIREPacket p ++ rest) = Ok p rest.
Proof.
  unfold typed_TIREPacket, fits_TIREPacket, encodeTIREPacket, decodeTIREPacket. rt_open.
  rt_req. rt_stop.
Qed.

Lemma decodeNodeFlags_encode f rest :
  decodeNodeFlags zeroNodeFlags (encodeNodeFlags f ++ rest) = Ok f rest.
Proof.
  unfold encodeNodeFlags, decodeNodeFlags. rt_open. rt_opt NF_Overload. rt_stop.
Qed.
#[export] Hint Resolve decodeTIDEPacket_encode decodeTIREPacket_encode
  decodeNodeFlags_encode : rt.

Lemma decodeIPv4PrefixType_encode p rest :
  typed_IPv4Prefix p ->
  decodeIPv4PrefixType zeroIPv4Prefix (encodeIPv4PrefixType p ++ rest) = Ok p rest.
Proof.
  unfold typed_IPv4Prefix, encodeIPv4PrefixType, decodeIPv4PrefixType. rt_open.
  rt_req. rt_req. rt_stop.
Qed.

Lemma decodeIPv6PrefixType_encode p rest :
  typed_IPv6Prefix p -> fits_bytes (IPv6_Address p) ->
  decodeIPv6PrefixType zeroIPv6Prefix (encodeIPv6PrefixType p ++ rest) = Ok p rest.
Proof.
  unfold typed_IPv6Prefix, encodeIPv6PrefixType, decodeIPv6PrefixType. rt_open.
  rt_req. rt_req. rt_stop.
Qed.
#[export] Hint Resolve decodeIPv4PrefixType_encode decodeIPv6PrefixType_encode : rt.

Lemma decodeIPPrefixType_encode p rest :
  typed_IPPrefix p -> fits_IPPrefix p ->
  decodeIPPrefixType zeroIPPrefix (encodeIPPrefixType p ++ rest) = Ok p rest.
Proof.
  unfold typed_IPPrefix, fits_IPPrefix, encodeIPPrefixType, decodeIPPrefixType.
  destruct p as [[v4|] [v6|]]; cbn [IPPrefix_IPv4Prefix IPPrefix_IPv6Prefix typed_opt];
    rt_open.
  - match goal with H : _ \/ _ |- _ => by destruct H end.
  - rt_req. by rewrite decode_stop by apply _.
  - rt_req. by rewrite decode_stop by apply _.
  - by rewrite app_nil_l, decode_stop by apply _.
Qed.

Lemma decodePrefixSequenceType_encode p rest :
  typed_PrefixSequence p ->
  decodePrefixSequenceType zeroPrefixSequence (encodePrefixSequenceType p ++ rest) = Ok p rest.
Proof.
  unfold typed_PrefixSequence, encodePrefixSequenceType, decodePrefixSequenceType. rt_open.
  rt_req. rt_opt8 PS_TransactionID. rt_stop.
Qed.
#[export] Hint Resolve decodeIPPrefixType_encode decodePrefixSequenceType_encode : rt.

Lemma decodeKeyValueTIEElementContent_encode c rest :
  typed_KeyValueContent c -> typed_opt fits_bytes (KVC_Value c) ->
  decodeKeyValueTIEElementContent zeroKeyValueContent
    (encodeKeyValueTIEElementContent c ++ rest) = Ok c rest.
Proof.
  unfold typed_KeyValueContent, encodeKeyValueTIEElementContent,
    decodeKeyValueTIEElementContent. rt_open.
  rt_opt KVC_Targets. rt_opt KVC_Value. rt_stop.
Qed.
#[export] Hint Resolve decodeKeyValueTIEElementContent_encode : rt.

(** ** Link pairs, neighbors and node elements *)

Section with_range.
Context `{MapRange}.

Lemma decodeLinkIDPair_encode p rest :
  typed_LinkIDPair p /\ fits_LinkIDPair p ->
  decodeLinkIDPair zeroLinkIDPair (encodeLinkIDPair p ++ rest) = Ok p rest.
Proof.
  unfold typed_LinkIDPair, fits_LinkIDPair, encodeLinkIDPair, decodeLinkIDPair. rt_open.
  rt_req. rt_req. rt_opt LIP_PlatformInterfaceIndex. rt_str LIP_PlatformInterfaceName.
  rt_opt8 LIP_TrustedOuterSecurityKey. rt_opt LIP_BFDUp.
  rt_set LIP_AddressFamilies (is_int 32). rt_stop.
Qed.

Lemma decodeNodeNeighborsTIEElement_encode n rest :
  typed_NodeNeighbors n -> fits_NodeNeighbors n ->
  decodeNodeNeighborsTIEElement zeroNodeNeighbors
    (encodeNodeNeighborsTIEElement n ++ rest) = Ok n rest.
Proof.
  unfold typed_NodeNeighbors, fits_NodeNeighbors, encodeNodeNeighborsTIEElement,
    decodeNodeNeighborsTIEElement. intros Ht Hf. split_all. rewrite <-?app_assoc.
  assert (Forall (fun p => typed_LinkIDPair p /\ fits_LinkIDPair p) (NN_LinkIDs n))
    by (apply Forall_and; auto).
  rt_req. rt_opt NN_Cost. rt_elems NN_LinkIDs decodeLinkIDPair_encode. rt_opt NN_Bandwidth. rt_stop.
Qed.

Lemma sortedNeighbors_perm m : sortedNeighbors m ≡ₚ map_to_list m.
Proof. apply merge_sort_Permutation. Qed.

Lemma decode_neighbors m rest :
  map_Forall (fun k v => is_int 64 k /\ typed_NodeNeighbors v) m ->
  map_Forall (fun _ v => fits_NodeNeighbors v) m -> fits_len (size m) ->
  (_ ← readByte; _ ← readByte; readCollection decodeNeighborEntry ∅)
    (writeByte thriftTypeI64 ++ writeByte thriftTypeStruct ++
     writeI32 (wrap 32 (Z.of_nat (size m))) ++
     (sortedNeighbors m ≫= (fun '(k, v) => writeI64 k ++ encodeNodeNeighborsTIEElement v)) ++
     rest) = Ok m rest.
Proof.
  intros Ht Hf Hn.
  rewrite (bind_ok _ _ _ _ _ (readByte_writeByte _ _)),
          (bind_ok _ _ _ _ _ (readByte_writeByte _ _)).
  assert (size m = length (sortedNeighbors m)) as Hs
    by (rewrite sortedNeighbors_perm; by rewrite length_map_to_list).
  rewrite Hs.
  rewrite (readCollection_flat _ (fun (m : gmap Z _) '(k, v) => <[k := v]> m) _
    (fun '(k, v) => is_int 64 k /\ typed_NodeNeighbors v /\ fits_NodeNeighbors v)).
  - by rewrite (foldl_insert_map _ m (sortedNeighbors_perm m)).
  - intros m' [k v] r (Hk & Hv & Hv'). unfold decodeNeighborEntry.
    rewrite <-app_assoc, (bind_ok _ _ _ _ _ (readI64_writeI64 k _ Hk)).
    by rewrite (bind_ok _ _ _ _ _ (decodeNodeNeighborsTIEElement_encode v r Hv Hv')).
  - rewrite sortedNeighbors_perm. apply Forall_forall. intros [k v] Hin.
    apply elem_of_map_to_list in Hin. destruct (Ht k v Hin). split_all; auto.
    exact (Hf k v Hin).
  - by rewrite <-Hs.
Qed.
#[local] Hint Resolve decode_neighbors : rt.

Lemma decodeNodeTIEElement_encode n rest :
  typed_NodeTIE n -> fits_NodeTIE n ->
  decodeNodeTIEElement zeroNodeTIE (encodeNodeTIEElement n ++ rest) = Ok n rest.
Proof.
  unfold typed_NodeTIE, fits_NodeTIE, encodeNodeTIEElement, decodeNodeTIEElement. rt_open.
  rt_norm. rt_req. rt_req. rt_req. rt_opt Node_Flags. rt_str Node_Name. rt_opt Node_Pod.
  rt_opt Node_StartupTime. rt_set Node_MiscabledLinks (is_int 32).
  rt_set Node_SamePlaneTofs (is_int 64). rt_opt Node_FabricID. rt_stop.
Qed.

(** ** Prefixes *)

Lemma decodePrefixAttributes_encode a rest :
  typed_PrefixAttributes a -> fits_len (size (PA_Tags a)) ->
  decodePrefixAttributes zeroPrefixAttributes (encodePrefixAttributes a ++ rest) = Ok a rest.
Proof.
  unfold typed_PrefixAttributes, encodePrefixAttributes, decodePrefixAttributes. rt_open.
  rt_norm. rt_req. rt_set PA_Tags (is_int 64). rt_opt PA_MonotonicClock.
  rt_opt PA_Loopback. rt_opt PA_DirectlyAttached. rt_opt PA_FromLink. rt_opt PA_Label.
  rt_stop.
Qed.

Lemma decodePrefixEntry_encode e rest :
  typed_PrefixEntry e /\ fits_PrefixEntry e ->
  decodePrefixEntry (encodeIPPrefixType (PE_Prefix e) ++
    encodePrefixAttributes (PE_Attributes e) ++ rest) = Ok e rest.
Proof.
  intros [[Hp Ha] [Hfp Hfa]]. unfold decodePrefixEntry.
  rewrite (bind_ok _ _ _ _ _ (decodeIPPrefixType_encode _ _ Hp Hfp)).
  rewrite (bind_ok _ _ _ _ _ (decodePrefixAttributes_encode _ _ Ha Hfa)).
  by destruct e.
Qed.

Lemma decode_prefixes l rest :
  Forall typed_PrefixEntry l -> Forall fits_PrefixEntry l -> fits_len (length l) ->
  (_ ← readByte; _ ← readByte; readCollection (appendElem decodePrefixEntry) [])
    (writeByte thriftTypeStruct ++ writeByte thriftTypeStruct ++
     writeI32 (wrap 32 (Z.of_nat (length l))) ++
     (l ≫= (fun e => encodeIPPrefixType (PE_Prefix e) ++
                     encodePrefixAttributes (PE_Attributes e))) ++ rest) = Ok l rest.
Proof.
  intros Ht Hf Hn. rewrite (bind_ok _ _ _ _ _ (readByte_writeByte _ _)).
  apply (read_slice decodePrefixEntry _
    (fun e => typed_PrefixEntry e /\ fits_PrefixEntry e) thriftTypeStruct l rest).
  - intros e r He. rewrite <-app_assoc. by apply decodePrefixEntry_encode.
  - apply Forall_and; auto.
  - done.
Qed.
#[local] Hint Resolve decode_prefixes decodeNodeTIEElement_encode : rt.

Lemma decodePrefixTIEElement_encode p rest :
  typed_PrefixTIE p -> fits_PrefixTIE p ->
  decodePrefixTIEElement zeroPrefixTIE (encodePrefixTIEElement p ++ rest) = Ok p rest.
Proof.
  unfold typed_PrefixTIE, fits_PrefixTIE, encodePrefixTIEElement, decodePrefixTIEElement.
  rt_open. rt_req. rt_stop.
Qed.

Lemma decode_keyValues m rest :
  map_Forall (fun k v => is_int 32 k /\ typed_KeyValueContent v) m ->
  map_Forall (fun _ v => typed_opt fits_bytes (KVC_Value v)) m -> fits_len (size m) ->
  (_ ← readByte; _ ← readByte; readCollection decodeKeyValueEntry ∅)
    (writeByte thriftTypeI32 ++ writeByte thriftTypeStruct ++
     writeI32 (wrap 32 (Z.of_nat (size m))) ++
     (range_map m ≫= (fun '(k, v) => writeI32 k ++ encodeKeyValueTIEElementContent v)) ++
     rest) = Ok m rest.
Proof.
  intros Ht Hf Hn.
  rewrite (bind_ok _ _ _ _ _ (readByte_writeByte _ _)),
          (bind_ok _ _ _ _ _ (readByte_writeByte _ _)).
  assert (size m = length (range_map m)) as Hs
    by (rewrite range_map_perm; by rewrite length_map_to_list).
  rewrite Hs.
  rewrite (readCollection_flat _ (fun (m : gmap Z _) '(k, v) => <[k := v]> m) _
    (fun '(k, v) => is_int 32 k /\ typed_KeyValueContent v /\
                    typed_opt fits_bytes (KVC_Value v))).
  - by rewrite (foldl_insert_map _ m (range_map_perm m)).
  - intros m' [k v] r (Hk & Hv & Hv'). unfold decodeKeyValueEntry.
    rewrite <-app_assoc, (bind_ok _ _ _ _ _ (readI32_writeI32 k _ Hk)).
    by rewrite (bind_ok _ _ _ _ _ (decodeKeyValueTIEElementContent_encode v r Hv Hv')).
  - rewrite range_map_perm. apply Forall_forall. intros [k v] Hin.
    apply elem_of_map_to_list in Hin. destruct (Ht k v Hin). split_all; auto.
    exact (Hf k v Hin).
  - by rewrite <-Hs.
Qed.
#[local] Hint Resolve decode_keyValues decodePrefixTIEElement_encode : rt.

Lemma decodeKeyValueTIEElement_encode kv rest :
  typed_KeyValueTIE kv -> fits_KeyValueTIE kv ->
  decodeKeyValueTIEElement zeroKeyValueTIE (encodeKeyValueTIEElement kv ++ rest) = Ok kv rest.
Proof.
  unfold typed_KeyValueTIE, fits_KeyValueTIE, encodeKeyValueTIEElement,
    decodeKeyValueTIEElement. rt_open. rt_req. rt_stop.
Qed.
#[local] Hint Resolve decodeKeyValueTIEElement_encode : rt.

(** ** Unions and packets *)

Lemma decodeTIEElement_encode el b rest :
  typed_TIEElement el -> fits_TIEElement el -> encodeTIEElement el = inr b ->
  decodeTIEElement zeroTIEElement (b ++ rest) = Ok el rest.
Proof.
  unfold typed_TIEElement, decodeTIEElement.
  destruct el as [[] [] [] [] [] [] []]; cbn [fits_TIEElement encodeTIEElement typed_opt EL_Node EL_Prefixes
    EL_PositiveDisaggregationPrefixes EL_NegativeDisaggregationPrefixes EL_ExternalPrefixes
    EL_PositiveExternalDisaggregationPrefixes EL_KeyValues];
    try done; intros Ht Hf Hb; apply (inj inr) in Hb as <-; split_all; rewrite <-?app_assoc;
    rt_req; by rewrite decode_stop by apply _.
Qed.

(** An encoded body is read back whatever bytes follow it. *)
Lemma wrapEncoded_inr pre body post b :
  wrapEncoded pre body post = inr b -> exists b', body = inr b' /\ b = pre ++ b' ++ post.
Proof. destruct body; simpl; [done|]. intros [= <-]. eauto. Qed.

Lemma decodeTIEPacket_encode p b rest :
  typed_TIEPacket p -> fits_TIEElement (TIE_Element p) -> encodeTIEPacket p = inr b ->
  decodeTIEPacket zeroTIEPacket (b ++ rest) = Ok p rest.
Proof.
  unfold encodeTIEPacket, decodeTIEPacket.
  intros [Hh He] Hf (b' & Hb & ->)%wrapEncoded_inr. rewrite <-?app_assoc.
  pose proof (fun r => decodeTIEElement_encode _ _ r He Hf Hb).
  rt_req. rt_req. rt_stop.
Qed.

Lemma decodePacketContent_encode c b rest :
  typed_PacketContent c -> fits_PacketContent c -> encodePacketContent c = inr b ->
  decodePacketContent zeroPacketContent (b ++ rest) = Ok c rest.
Proof.
  unfold typed_PacketContent, decodePacketContent.
  destruct c as [[] [] [] []]; cbn [fits_PacketContent encodePacketContent PC_LIE PC_TIDE
    PC_TIRE PC_TIE typed_opt]; try done;
    intros Ht Hf (b' & Hb & ->)%wrapEncoded_inr; split_all; rewrite <-?app_assoc;
    try (apply (inj inr) in Hb as <-); try (rt_req; by rewrite decode_stop by apply _).
  match goal with HT : typed_TIEPacket _ |- _ =>
    pose proof (fun r => decodeTIEPacket_encode _ _ r HT Hf Hb) end.
  rt_req. by rewrite decode_stop by apply _.
Qed.

Lemma DecodeProtocolPacket_encode p b rest :
  typed_ProtocolPacket p -> fits_ProtocolPacket p -> EncodeProtocolPacket p = inr b ->
  DecodeProtocolPacket (b ++ rest) = Ok p rest.
Proof.
  unfold EncodeProtocolPacket, DecodeProtocolPacket.
  intros [Hh Hc] Hf (b' & Hb & ->)%wrapEncoded_inr. rewrite <-?app_assoc.
  pose proof (fun r => decodePacketContent_encode _ _ r Hc Hf Hb).
  rt_req. rt_req. rt_stop.
Qed.

(** A packet whose unions have a variant is always encodable. *)
Lemma EncodeProtocolPacket_total p :
  fits_ProtocolPacket p -> exists b, EncodeProtocolPacket p = inr b.
Proof.
  unfold fits_ProtocolPacket, EncodeProtocolPacket, encodePacketContent.
  destruct p as [h [[] [] [] [[th te]|]]]; cbn; try done; eauto.
  destruct te as [[] [] [] [] [] [] []]; cbn; try done; eauto.
Qed.
End with_range.
