(* ===== verification/Envelope.v ===== *)
(** * Envelope: the security envelope ([internal/encoding/envelope.go]) and the
    packet framing of the transport ([encodePacket], [encodeFloodPacket],
    [decodePacket] of [internal/transport/udp.go]). *)

From S2P Require Import Prelude.
From S2P Require Import Types.
From S2P Require Import Wire.
From S2P Require Import WireProps.
From S2P Require Import Wellformed.
From S2P Require Import Encode.
From S2P Require Import Decode.
From S2P Require Import DecodeProps.
From S2P Require Import RoundTrip.
From S2P Require Import Codec.

Definition RIFTMagic : Z := 0xA1F7.

Record TIEOriginSecurityEnvelopeHeader := mkTIEOrigin {
  TIEOriginKeyID : Z;
  FingerprintLength : Z;   (* uint16 *)
  Fingerprint : bytes
}.

Record SecurityEnvelope := mkEnvelope {
  Env_PacketNumber : Z;
  Env_OuterKeyID : Z;
  Env_NonceLocal : Z;
  Env_NonceRemote : Z;
  Env_RemainingLifetime : Z;
  Env_TIEOrigin : option TIEOriginSecurityEnvelopeHeader;
  Env_Payload : bytes
}.

(** [binary.BigEndian.PutUint16] of an unsigned value. *)
Definition putUint16 (v : Z) : bytes := put_be 2 v.

Definition encodeTIEOrigin (o : TIEOriginSecurityEnvelopeHeader) : bytes :=
  writeI32 (TIEOriginKeyID o) ++
  putUint16 (FingerprintLength o) ++
  (if FingerprintLength o >? 0 then Fingerprint o else []).

Definition EncodeEnvelope (env : SecurityEnvelope) : bytes :=
  putUint16 RIFTMagic ++
  writeI16 (Env_PacketNumber env) ++
  writeByte ProtocolMajorVersion ++
  writeByte (Env_OuterKeyID env) ++
  putUint16 0 ++
  writeI16 (Env_NonceLocal env) ++
  writeI16 (Env_NonceRemote env) ++
  writeI32 (Env_RemainingLifetime env) ++
  match Env_TIEOrigin env with Some o => encodeTIEOrigin o | None => [] end ++
  Env_Payload env.

Definition readUint16 : decoder Z := b ← readFull 2; mret (get_be b).

(** [io.ReadAll]: everything that is left. *)
Definition readAll : decoder bytes := fun bs => Ok bs [].

Definition DecodeEnvelope : decoder SecurityEnvelope :=
  magic ← readUint16;
  if negb (magic =? RIFTMagic) then decode_fail (BadMagic magic) else
  packetNumber ← readUint16;
  _ ← readByte; (* major version, consumed and not validated *)
  outerKey ← readByte;
  fpLen ← readUint16;
  _ ← (if fpLen >? 0 then readFull fpLen else mret []);
  nonceLocal ← readUint16;
  nonceRemote ← readUint16;
  lifetime ← readI32;
  payload ← readAll;
  mret (mkEnvelope (wrap 16 packetNumber) (wrap 8 outerKey) (wrap 16 nonceLocal)
          (wrap 16 nonceRemote) lifetime None payload).

(** ** Transport framing *)

Definition encodeFramed `{MapRange} (pkt : ProtocolPacket) (lifetime : Z) : encoded :=
  match EncodeProtocolPacket pkt with
  | inl e => inl e
  | inr payload => inr (EncodeEnvelope (mkEnvelope 0 0 0 0 lifetime None payload))
  end.

(** LIEs are sent with the zero envelope. *)
Definition encodePacket `{MapRange} (pkt : ProtocolPacket) : encoded := encodeFramed pkt 0.

Definition encodeFloodPacket `{MapRange} (pkt : ProtocolPacket) (remainingLifetime : Z)
    : encoded := encodeFramed pkt remainingLifetime.

(** The envelope is dropped once its payload is extracted. *)
Definition decodePacket (data : bytes) : result ProtocolPacket :=
  match DecodeEnvelope data with
  | Ok env _ => DecodeProtocolPacket (Env_Payload env)
  | Err e => Err e
  | OutOfFuel => OutOfFuel
  end.

(** ** Envelope theorems *)

Definition typed_Envelope (env : SecurityEnvelope) : Prop :=
  is_int 16 (Env_PacketNumber env) /\ is_int 8 (Env_OuterKeyID env) /\
  is_int 16 (Env_NonceLocal env) /\ is_int 16 (Env_NonceRemote env) /\
  is_int 32 (Env_RemainingLifetime env).

Lemma readUint16_put v rest :
  0 <= v < 2 ^ 16 -> readUint16 (putUint16 v ++ rest) = Ok v rest.
Proof.
  intros Hv. unfold readUint16, putUint16.
  etransitivity; [exact (read_be_app (fun v => v) 2 16 v rest eq_refl)|].
  by rewrite Z.mod_small.
Qed.

Lemma readUint16_writeI16 v rest :
  readUint16 (writeI16 v ++ rest) = Ok (uwrap 16 v) rest.
Proof.
  unfold readUint16, writeI16.
  etransitivity; [exact (read_be_app (fun v => v) 2 16 _ rest eq_refl)|].
  by rewrite uwrap_uwrap.
Qed.

Lemma reads_readUint16 : Reads 2 always readUint16.
Proof.
  eapply (reads_bind0 2); [apply (reads_readFull 2)|]. intros. by apply reads_ret.
Qed.

(** What [DecodeEnvelope] recovers from any encoded envelope: the scalar
    fields, and everything after them as payload. *)
Lemma DecodeEnvelope_encode env :
  typed_Envelope env ->
  DecodeEnvelope (EncodeEnvelope env)
  = Ok (mkEnvelope (Env_PacketNumber env) (Env_OuterKeyID env) (Env_NonceLocal env)
          (Env_NonceRemote env) (Env_RemainingLifetime env) None
          (match Env_TIEOrigin env with Some o => encodeTIEOrigin o | None => [] end ++
           Env_Payload env)) [].
Proof.
  intros (Hp & Hk & Hl & Hr & Ht). unfold DecodeEnvelope, EncodeEnvelope.
  rewrite (bind_ok _ _ _ _ _ (readUint16_put RIFTMagic _ ltac:(done))).
  change (negb (RIFTMagic =? RIFTMagic)) with false. cbn iota.
  rewrite (bind_ok _ _ _ _ _ (readUint16_writeI16 _ _)).
  rewrite (bind_ok _ _ _ _ _ (readByte_writeByte _ _)).
  rewrite (bind_ok _ _ _ _ _ (readByte_writeByte _ _)).
  rewrite (bind_ok _ _ _ _ _ (readUint16_put 0 _ ltac:(done))).
  change (0 >? 0) with false. cbn iota.
  erewrite bind_ok by reflexivity.
  rewrite (bind_ok _ _ _ _ _ (readUint16_writeI16 _ _)).
  rewrite (bind_ok _ _ _ _ _ (readUint16_writeI16 _ _)).
  rewrite (bind_ok _ _ _ _ _ (readI32_writeI32 _ _ Ht)).
  erewrite bind_ok by reflexivity.
  by rewrite wrap8_uwrap8, !wrap_uwrap, !wrap_id by (done || lia).
Qed.

Lemma decodePacket_encodeFramed `{MapRange} pkt lifetime b :
  typed_ProtocolPacket pkt -> fits_ProtocolPacket pkt -> is_int 32 lifetime ->
  encodeFramed pkt lifetime = inr b -> decodePacket b = Ok pkt [].
Proof.
  unfold encodeFramed. intros Ht Hf Hl Hb.
  destruct (EncodeProtocolPacket pkt) as [|payload] eqn:E; [done|].
  apply (inj inr) in Hb as <-. unfold decodePacket.
  rewrite DecodeEnvelope_encode by (unfold typed_Envelope; cbn; by split_all).
  cbn [Env_TIEOrigin Env_Payload app].
  rewrite <-(app_nil_r payload). by apply DecodeProtocolPacket_encode.
Qed.

Lemma encodeFramed_total `{MapRange} pkt lifetime :
  fits_ProtocolPacket pkt -> exists b, encodeFramed pkt lifetime = inr b.
Proof.
  intros [b Hb]%EncodeProtocolPacket_total. unfold encodeFramed. rewrite Hb. eauto.
Qed.

Lemma reads_DecodeEnvelope : Reads 16 always DecodeEnvelope.
Proof.
  eapply (reads_bind 2 14); [apply reads_readUint16|]. intros magic _.
  destruct (negb _); [apply reads_fail|].
  eapply (reads_bind 2 12); [apply reads_readUint16|]. intros ? _.
  eapply (reads_bind 1 11); [apply reads_readByte|]. intros ? _.
  eapply (reads_bind 1 10); [apply reads_readByte|]. intros ? _.
  eapply (reads_bind 2 8); [apply reads_readUint16|]. intros fpLen _.
  eapply (reads_bind 0 8 always).
  { apply reads_if; [|by apply reads_ret]. eapply reads_weaken; [apply reads_readFull|lia|done]. }
  intros ? _.
  eapply (reads_bind 2 6); [apply reads_readUint16|]. intros ? _.
  eapply (reads_bind 2 4); [apply reads_readUint16|]. intros ? _.
  eapply (reads_bind 4 0); [apply reads_readI32|]. intros ? _.
  eapply (reads_bind 0 0 always).
  { intros bs. simpl. split; [done|lia]. }
  intros ? _. by apply reads_ret.
Qed.
