(* ===== verification/CodecTheorems.v ===== *)
(** * CodecTheorems: the properties of the wire format.

    Round trip, injectivity, safety of the decoder on any input, and what the
    envelope does with its fields. *)

From S2P Require Import Prelude.
From S2P Require Import Types.
From S2P Require Import Wire.
From S2P Require Import WireProps.
From S2P Require Import Encode.
From S2P Require Import Decode.
From S2P Require Import Wellformed.
From S2P Require Import DecodeProps.
From S2P Require Import RoundTrip.
From S2P Require Import Codec.
From S2P Require Import Envelope.

(** A packet for the witnesses: a prefix TIE with one IPv4 prefix. *)
Definition sample_packet : ProtocolPacket :=
  mkProtocolPacket (mkPacketHeader 8 0 1 (Some 1))
    (zeroPacketContent <| PC_TIE := Some (mkTIEPacket
       (mkTIEHeader (mkTIEID TieDirectionNorth 1 TIETypePrefixTIEType 1) 1 None
          (Some DefaultLifetime))
       (zeroTIEElement <| EL_Prefixes := Some (mkPrefixTIE
          [mkPrefixEntry (mkIPPrefix (Some (mkIPv4Prefix 167772160 8)) None)
             (zeroPrefixAttributes <| PA_Metric := 1 |> <| PA_Loopback := Some true |>)]) |>)) |>).

Definition sample_bytes : bytes :=
  match EncodeProtocolPacket (H := canonical_range) sample_packet with
  | inr b => b | inl _ => [] end.

Definition sample_datagram (lifetime : Z) : bytes :=
  match encodeFloodPacket (H := canonical_range) sample_packet lifetime with
  | inr b => b | inl _ => [] end.

Lemma sample_typed : typed_ProtocolPacket sample_packet.
Proof.
  repeat first [split | constructor]; cbn; try exact I; try discriminate; try reflexivity;
    try apply set_Forall_empty.
Qed.

Lemma sample_fits : fits_ProtocolPacket sample_packet.
Proof.
  split; [unfold fits_len; cbn; unfold maxRIFTCollectionSize; lia|].
  constructor; [|constructor]. split; [split; [exact I|by right]|].
  change (size _) with O. unfold fits_len, maxRIFTCollectionSize. lia.
Qed.

(** C8: the transport's framing round-trips: every packet whose integers are in
    range, whose unions have one variant and whose collections and strings are
    within the decoder's limits is encoded, for any lifetime, and decoding the
    datagram gives the packet back with nothing left over. *)
Theorem packet_roundtrip {R : MapRange} pkt lifetime
    (Ht : typed_ProtocolPacket pkt) (Hf : fits_ProtocolPacket pkt) (Hl : is_int 32 lifetime) :
  exists data, encodeFloodPacket pkt lifetime = inr data /\ decodePacket data = Ok pkt [].
Proof.
  destruct (encodeFramed_total pkt lifetime Hf) as [b Hb]. exists b. split; [exact Hb|].
  by apply (decodePacket_encodeFramed pkt lifetime).
Qed.

Lemma packet_roundtrip_witness :
  exists data, encodeFloodPacket (H := canonical_range) sample_packet 100 = inr data /\
               decodePacket data = Ok sample_packet [].
Proof.
  apply (packet_roundtrip (R := canonical_range) sample_packet 100 sample_typed sample_fits).
  apply is_int32. lia.
Defined.

(** C14: the decoder is total and safe: on any datagram it returns, with an error
    or with a packet whose integers are all in range, and it only accepts a
    datagram that holds at least the fixed part of the envelope. *)
Theorem decodePacket_safe data :
  match decodePacket data with
  | Ok pkt _ => typed_ProtocolPacket pkt /\ (16 <= length data)%nat
  | Err _ => True
  | OutOfFuel => False
  end.
Proof.
  unfold decodePacket. pose proof (reads_DecodeEnvelope data) as He.
  destruct (DecodeEnvelope data) as [env rest|e|]; [|done|done].
  pose proof (reads_DecodeProtocolPacket (Env_Payload env)) as Hp.
  destruct (DecodeProtocolPacket (Env_Payload env)) as [pkt r|e|]; [|done|done].
  split; [apply Hp|lia].
Qed.

(** The encoding is injective and prefix-free: two packets whose encodings
    agree, even when other bytes follow them, and whatever the order in which
    their maps and sets were written, are equal. *)
Theorem encoding_prefix_free (R1 R2 : MapRange) p1 p2 b1 b2 r1 r2
    (Ht1 : typed_ProtocolPacket p1) (Hf1 : fits_ProtocolPacket p1)
    (Ht2 : typed_ProtocolPacket p2) (Hf2 : fits_ProtocolPacket p2)
    (H1 : EncodeProtocolPacket (H := R1) p1 = inr b1)
    (H2 : EncodeProtocolPacket (H := R2) p2 = inr b2)
    (Heq : b1 ++ r1 = b2 ++ r2) :
  p1 = p2 /\ r1 = r2.
Proof.
  pose proof (DecodeProtocolPacket_encode (H := R1) p1 b1 r1 Ht1 Hf1 H1) as D1.
  pose proof (DecodeProtocolPacket_encode (H := R2) p2 b2 r2 Ht2 Hf2 H2) as D2.
  rewrite Heq, D2 in D1. by injection D1 as -> ->.
Qed.

Lemma encoding_prefix_free_witness :
  EncodeProtocolPacket (H := canonical_range) sample_packet = inr sample_bytes /\
  (sample_packet = sample_packet /\ [x00; x01] = [x00; x01]).
Proof.
  split; [vm_compute; reflexivity|].
  apply (encoding_prefix_free canonical_range canonical_range sample_packet sample_packet
    sample_bytes sample_bytes [x00; x01] [x00; x01]);
    solve [apply sample_typed | apply sample_fits | vm_compute; reflexivity].
Defined.

(** [EncodeProtocolPacket] fails exactly when a union has no variant set, and
    then names that union. *)
Theorem encode_error_iff {R : MapRange} pkt e :
  EncodeProtocolPacket pkt = inl e <->
  match PP_Content pkt with
  | mkPacketContent None None None None => e = PacketContentNoVariant
  | mkPacketContent None None None (Some tie) =>
      match TIE_Element tie with
      | mkTIEElement None None None None None None None => e = TIEElementNoVariant
      | _ => False
      end
  | _ => False
  end.
Proof.
  unfold EncodeProtocolPacket, encodePacketContent.
  destruct pkt as [h [[] [] [] [[th te]|]]]; cbn; try by split.
  - destruct te as [[] [] [] [] [] [] []]; cbn; try (by split).
    split; [by intros [= <-]|by intros ->].
  - split; [by intros [= <-]|by intros ->].
Qed.

(** The envelope round-trips exactly when it has no TIE origin header; with
    one, the decoder returns the header's bytes at the front of the payload. *)
Theorem envelope_roundtrip_iff env (Ht : typed_Envelope env) :
  (DecodeEnvelope (EncodeEnvelope env) = Ok env [] <-> Env_TIEOrigin env = None) /\
  (forall o, Env_TIEOrigin env = Some o ->
     exists env', DecodeEnvelope (EncodeEnvelope env) = Ok env' [] /\
       Env_TIEOrigin env' = None /\
       Env_Payload env' = encodeTIEOrigin o ++ Env_Payload env).
Proof.
  rewrite DecodeEnvelope_encode by done. split.
  - destruct env as [pn k nl nr lt o pl]; cbn. split; [by intros [= <- _]|]. by intros ->.
  - intros o ->. eexists. split; [reflexivity|]. done.
Qed.

Lemma envelope_roundtrip_iff_witness :
  DecodeEnvelope (EncodeEnvelope (mkEnvelope 1 0 2 3 100 None [x01]))
  = Ok (mkEnvelope 1 0 2 3 100 None [x01]) [].
Proof.
  apply (envelope_roundtrip_iff (mkEnvelope 1 0 2 3 100 None [x01])); [|reflexivity].
  unfold typed_Envelope. cbn. split_all;
    (split; [vm_compute; discriminate|vm_compute; reflexivity]).
Defined.

(** The remaining lifetime a TIE is sent with does not reach the receiver: the
    packet decoded from the datagram is the same for every lifetime, since
    [decodePacket] drops the envelope. *)
Theorem sent_lifetime_lost {R : MapRange} pkt lt1 lt2 data1 data2
    (H1 : encodeFloodPacket pkt lt1 = inr data1) (H2 : encodeFloodPacket pkt lt2 = inr data2)
    (Hl1 : is_int 32 lt1) (Hl2 : is_int 32 lt2) :
  decodePacket data1 = decodePacket data2.
Proof.
  unfold encodeFloodPacket, encodeFramed in *.
  destruct (EncodeProtocolPacket pkt) as [|payload]; [done|].
  injection H1 as <-. injection H2 as <-. unfold decodePacket.
  rewrite !DecodeEnvelope_encode by (unfold typed_Envelope; cbn; by split_all). done.
Qed.

Lemma sent_lifetime_lost_witness :
  sample_datagram 604800 <> sample_datagram 5 /\
  decodePacket (sample_datagram 604800) = decodePacket (sample_datagram 5).
Proof.
  split; [by vm_compute|].
  apply (sent_lifetime_lost (R := canonical_range) sample_packet 604800 5);
    solve [vm_compute; reflexivity | apply is_int32; lia].
Defined.
