(* ===== verification/Lsdb.v ===== *)
(** * Lsdb: the link-state database and its orders ([internal/tie/lsdb.go]).

    The database is a finite map from [TIEID] to entries.  [LastReceived] is
    written and never read by the program, so entries carry no clock.

    The [sync.RWMutex] of the database is modelled where it decides behaviour:
    an operation that takes the write lock is given the number of read locks the
    calling goroutine already holds, and is a [Deadlock] when there is one
    (a Go [RWMutex] is not reentrant). *)

From S2P Require Import Prelude.
From S2P Require Import Types.
From S2P Require Import Wellformed.

Record LSDBEntry := mkLSDBEntry {
  Entry_Packet : TIEPacket;
  Entry_RemainingLifetime : Z;
  Entry_SelfOriginated : bool
}.
#[export] Instance eta_LSDBEntry : Eta LSDBEntry :=
  fun r => mkLSDBEntry (Entry_Packet r) (Entry_RemainingLifetime r) (Entry_SelfOriginated r).

Abbreviation LSDB := (gmap TIEID LSDBEntry).

Definition Entry_Header (e : LSDBEntry) : TIEHeaderWithLifeTime :=
  mkTIEHeaderWithLifeTime (TIE_Header (Entry_Packet e)) (Entry_RemainingLifetime e).

Definition Entry_TIEID (e : LSDBEntry) : TIEID := Header_TIEID (TIE_Header (Entry_Packet e)).
Definition Entry_SeqNr (e : LSDBEntry) : Z := SeqNr (TIE_Header (Entry_Packet e)).

(** ** Operations *)

Inductive blocking (A : Type) := Done (a : A) | Deadlock.
Arguments Done {A}.
Arguments Deadlock {A}.

(** [mu.Lock()] while this goroutine holds [readers] read locks. *)
Definition withWriteLock {A} (readers : nat) (a : A) : blocking A :=
  match readers with O => Done a | S _ => Deadlock end.

Definition Get (db : LSDB) (id : TIEID) : option LSDBEntry := db !! id.

(** The new database and whether the entry is new. *)
Definition Insert (db : LSDB) (entry : LSDBEntry) : LSDB * bool :=
  (<[Entry_TIEID entry := entry]> db, bool_decide (db !! Entry_TIEID entry = None)).

Definition Remove (db : LSDB) (id : TIEID) : LSDB := delete id db.

Definition Len (db : LSDB) : Z := Z.of_nat (size db).

Definition decrementEntry (delta : Z) (e : LSDBEntry) : LSDBEntry :=
  e <| Entry_RemainingLifetime := wrap 32 (Entry_RemainingLifetime e - delta) |>.

(** The aged database and the identifiers whose lifetime ran out. *)
Definition DecrementLifetimes (db : LSDB) (delta : Z) : LSDB * list TIEID :=
  let db' := decrementEntry delta <$> db in
  (db', (filter (fun kv => Entry_RemainingLifetime kv.2 <= 0) (map_to_list db')).*1).

(** ** Orders *)

Definition cmpInt (a b : Z) : Z := if a <? b then -1 else if a >? b then 1 else 0.

Definition CompareTIEID (a b : TIEID) : Z :=
  if negb (Direction a =? Direction b) then cmpInt (Direction a) (Direction b)
  else if negb (Originator a =? Originator b) then cmpInt (Originator a) (Originator b)
  else if negb (TIEType a =? TIEType b) then cmpInt (TIEType a) (TIEType b)
  else if negb (TIENr a =? TIENr b) then cmpInt (TIENr a) (TIENr b)
  else 0.

Definition CompareTIEHeader (a b : TIEHeaderWithLifeTime) : Z :=
  if negb (SeqNr (HL_Header a) =? SeqNr (HL_Header b))
  then cmpInt (SeqNr (HL_Header a)) (SeqNr (HL_Header b))
  else
    let diff := wrap 32 (HL_RemainingLifetime a - HL_RemainingLifetime b) in
    let diff := if diff <? 0 then wrap 32 (- diff) else diff in
    if diff >? LifetimeDiff2Ignore
    then cmpInt (HL_RemainingLifetime a) (HL_RemainingLifetime b)
    else 0.

Definition MinTIEID : TIEID := mkTIEID TieDirectionSouth 0 0 0.
Definition MaxTIEID : TIEID :=
  mkTIEID TieDirectionDirectionMaxValue 0x7FFFFFFFFFFFFFFF TIETypeMaxValue 0x7FFFFFFF.

Definition tie_le (a b : TIEID * LSDBEntry) : Prop := CompareTIEID a.1 b.1 <= 0.
#[export] Instance tie_le_dec a b : Decision (tie_le a b).
Proof. unfold tie_le. apply _. Defined.

(** The entries in increasing identifier order: the order [sort.Slice] gives
    the keys, which are distinct. *)
Definition sortedEntries (db : LSDB) : list (TIEID * LSDBEntry) :=
  merge_sort tie_le (map_to_list db).

(** [ForEachSorted(fn)], where [fn] threads a state and returns whether to go on. *)
Fixpoint iterEntries {S} (fn : TIEID -> LSDBEntry -> S -> S * bool)
    (l : list (TIEID * LSDBEntry)) (s : S) : S :=
  match l with
  | [] => s
  | (id, e) :: l' =>
      let '(s', continue) := fn id e s in
      if continue : bool then iterEntries fn l' s' else s'
  end.
Definition ForEachSorted {S} (db : LSDB) (fn : TIEID -> LSDBEntry -> S -> S * bool)
    (s : S) : S := iterEntries fn (sortedEntries db) s.

Definition HeadersSorted (db : LSDB) : list TIEHeaderWithLifeTime :=
  (fun kv => Entry_Header kv.2) <$> sortedEntries db.

(** ** The identifier order is total *)

Ltac compare_tac :=
  unfold CompareTIEID, cmpInt in *;
  repeat match goal with
  | |- context [?a >? ?b] => rewrite (Z.gtb_ltb a b)
  | H : context [?a >? ?b] |- _ => rewrite (Z.gtb_ltb a b) in H
  end;
  repeat match goal with
  | |- context [?a =? ?b] => destruct (Z.eqb_spec a b)
  | |- context [?a <? ?b] => destruct (Z.ltb_spec a b)
  | H : context [?a =? ?b] |- _ => destruct (Z.eqb_spec a b)
  | H : context [?a <? ?b] |- _ => destruct (Z.ltb_spec a b)
  end; cbn in *.

(** The lexicographic order the comparison decides. *)
Definition TIEID_lt (a b : TIEID) : Prop :=
  Direction a < Direction b \/ Direction a = Direction b /\
  (Originator a < Originator b \/ Originator a = Originator b /\
  (TIEType a < TIEType b \/ TIEType a = TIEType b /\ TIENr a < TIENr b)).

Lemma CompareTIEID_spec a b :
  CompareTIEID a b = -1 /\ TIEID_lt a b \/
  CompareTIEID a b = 0 /\ a = b \/
  CompareTIEID a b = 1 /\ TIEID_lt b a.
Proof.
  destruct a as [d o t n], b as [d' o' t' n'].
  unfold TIEID_lt; cbn. compare_tac; subst; try lia; auto.
Qed.

Lemma TIEID_lt_trans a b c : TIEID_lt a b -> TIEID_lt b c -> TIEID_lt a c.
Proof. unfold TIEID_lt. lia. Qed.

Lemma TIEID_lt_irrefl a : ~ TIEID_lt a a.
Proof. unfold TIEID_lt. lia. Qed.

Lemma CompareTIEID_lt a b : CompareTIEID a b < 0 <-> TIEID_lt a b.
Proof.
  destruct (CompareTIEID_spec a b) as [[-> H]|[[-> ->]|[-> H]]]; split; try lia; intros Hl.
  - done.
  - by apply TIEID_lt_irrefl in Hl.
  - by destruct (TIEID_lt_irrefl a (TIEID_lt_trans _ _ _ Hl H)).
Qed.

Lemma CompareTIEID_eq a b : CompareTIEID a b = 0 <-> a = b.
Proof.
  destruct (CompareTIEID_spec a b) as [[-> H]|[[-> ->]|[-> H]]]; split; try done;
    intros ->; by apply TIEID_lt_irrefl in H.
Qed.

Lemma CompareTIEID_antisym a b : CompareTIEID b a = - CompareTIEID a b.
Proof.
  destruct (CompareTIEID_spec a b) as [[E H]|[[E ->]|[E H]]]; rewrite E.
  - destruct (CompareTIEID_spec b a) as [[_ H']|[[_ ->]|[-> _]]]; [| |done].
    + by destruct (TIEID_lt_irrefl a (TIEID_lt_trans _ _ _ H H')).
    + by apply TIEID_lt_irrefl in H.
  - done.
  - destruct (CompareTIEID_spec b a) as [[-> _]|[[_ ->]|[_ H']]]; [done| |].
    + by apply TIEID_lt_irrefl in H.
    + by destruct (TIEID_lt_irrefl a (TIEID_lt_trans _ _ _ H' H)).
Qed.

#[export] Instance TIEID_lt_transitive : Transitive TIEID_lt.
Proof. intros a b c. apply TIEID_lt_trans. Qed.

Lemma CompareTIEID_le a b : CompareTIEID a b <= 0 <-> TIEID_lt a b \/ a = b.
Proof. rewrite <-CompareTIEID_lt, <-CompareTIEID_eq. lia. Qed.

Lemma CompareTIEID_trans a b c :
  CompareTIEID a b <= 0 -> CompareTIEID b c <= 0 -> CompareTIEID a c <= 0.
Proof.
  rewrite !CompareTIEID_le. intros [H1| ->] [H2| ->]; eauto using TIEID_lt_trans.
Qed.

#[export] Instance tie_le_total : Total tie_le.
Proof. intros a b. unfold tie_le. pose proof (CompareTIEID_antisym a.1 b.1). lia. Qed.
#[export] Instance tie_le_trans : Transitive tie_le.
Proof. intros a b c. apply CompareTIEID_trans. Qed.

(** ** Sorted traversal *)

Lemma sortedEntries_perm db : sortedEntries db ≡ₚ map_to_list db.
Proof. apply merge_sort_Permutation. Qed.

Lemma elem_of_sortedEntries db id e : (id, e) ∈ sortedEntries db <-> db !! id = Some e.
Proof. rewrite sortedEntries_perm. apply elem_of_map_to_list. Qed.

Lemma NoDup_sortedEntries db : NoDup (sortedEntries db).*1.
Proof. rewrite sortedEntries_perm. apply NoDup_fst_map_to_list. Qed.

(** Strictly increasing identifiers. *)
Lemma sortedEntries_sorted db : StronglySorted TIEID_lt (sortedEntries db).*1.
Proof.
  pose proof (StronglySorted_merge_sort tie_le (map_to_list db)) as Hs.
  pose proof (NoDup_sortedEntries db) as Hnd. unfold sortedEntries in *.
  induction Hs as [|[k e] l Hs IH Hall]; cbn in *; [constructor|].
  apply NoDup_cons in Hnd as [Hk Hnd]. constructor; [auto|].
  apply Forall_forall. intros x [kv [-> Hin]]%list_elem_of_fmap.
  rewrite Forall_forall in Hall. specialize (Hall _ Hin). unfold tie_le in Hall. cbn in Hall.
  apply CompareTIEID_le in Hall as [?| ->]; [done|].
  exfalso. apply Hk. by apply list_elem_of_fmap_2.
Qed.

(** Every entry is filed under the identifier in its header. *)
Definition lsdb_keyed (db : LSDB) : Prop := map_Forall (fun id e => Entry_TIEID e = id) db.

Lemma lsdb_keyed_insert db e : lsdb_keyed db -> lsdb_keyed (Insert db e).1.
Proof. intros H. by apply map_Forall_insert_2. Qed.

Lemma HeadersSorted_ids db :
  lsdb_keyed db -> (fun h => Header_TIEID (HL_Header h)) <$> HeadersSorted db
                   = (sortedEntries db).*1.
Proof.
  intros Hk. unfold HeadersSorted. rewrite <-list_fmap_compose.
  apply list_fmap_ext. intros i [id e] Hi%list_elem_of_lookup_2. cbn.
  apply elem_of_sortedEntries in Hi. exact (Hk _ _ Hi).
Qed.

(** An identifier of the wire's range: direction of the enumeration, the other
    fields not negative and at most their maximum. *)
Definition tieid_in_range (id : TIEID) : Prop :=
  TieDirectionSouth <= Direction id <= TieDirectionDirectionMaxValue /\
  0 <= Originator id <= 0x7FFFFFFFFFFFFFFF /\
  0 <= TIEType id <= TIETypeMaxValue /\ 0 <= TIENr id <= 0x7FFFFFFF.

Lemma CompareTIEID_not_lt a b : ~ TIEID_lt b a -> CompareTIEID a b <= 0.
Proof. rewrite <-CompareTIEID_lt, (CompareTIEID_antisym a b). lia. Qed.

Lemma MinTIEID_le id : tieid_in_range id -> CompareTIEID MinTIEID id <= 0.
Proof.
  intros H. apply CompareTIEID_not_lt. revert H. destruct id.
  unfold tieid_in_range, TIEID_lt, TieDirectionSouth. cbn. unfold TieDirectionSouth. lia.
Qed.
Lemma MaxTIEID_ge id : tieid_in_range id -> CompareTIEID id MaxTIEID <= 0.
Proof.
  intros H. apply CompareTIEID_not_lt. revert H. destruct id.
  unfold tieid_in_range, TIEID_lt. cbn.
  unfold TieDirectionDirectionMaxValue, TIETypeMaxValue. lia.
Qed.

(** ** Headers *)

Lemma cmpInt_antisym a b : cmpInt b a = - cmpInt a b.
Proof. unfold cmpInt. rewrite !Z.gtb_ltb. zcases; lia. Qed.

Lemma cmpInt_spec a b :
  cmpInt a b = -1 /\ a < b \/ cmpInt a b = 0 /\ a = b \/ cmpInt a b = 1 /\ b < a.
Proof. unfold cmpInt. rewrite !Z.gtb_ltb. zcases; lia. Qed.

(** The comparison of two versions by lifetime, for lifetimes that are not
    negative. *)
Lemma CompareTIEHeader_lifetime a b :
  0 <= HL_RemainingLifetime a < 2147483648 -> 0 <= HL_RemainingLifetime b < 2147483648 ->
  SeqNr (HL_Header a) = SeqNr (HL_Header b) ->
  CompareTIEHeader a b =
    if Z.abs (HL_RemainingLifetime a - HL_RemainingLifetime b) <=? LifetimeDiff2Ignore
    then 0 else cmpInt (HL_RemainingLifetime a) (HL_RemainingLifetime b).
Proof.
  intros Ha Hb Hs. unfold CompareTIEHeader. rewrite Hs, Z.eqb_refl. cbn -[wrap].
  rewrite (wrap_id 32 (_ - _)) by (try apply is_int32; lia).
  destruct (Z.ltb_spec (HL_RemainingLifetime a - HL_RemainingLifetime b) 0).
  - rewrite wrap_id by (try apply is_int32; lia). rewrite Z.gtb_ltb, Z.abs_neq by lia.
    zcases; lia.
  - rewrite Z.gtb_ltb, Z.abs_eq by lia. zcases; lia.
Qed.

Lemma CompareTIEHeader_seq a b :
  SeqNr (HL_Header a) <> SeqNr (HL_Header b) ->
  CompareTIEHeader a b = cmpInt (SeqNr (HL_Header a)) (SeqNr (HL_Header b)).
Proof. intros H%Z.eqb_neq. unfold CompareTIEHeader. by rewrite H. Qed.

(** A version that is not older has no smaller sequence number. *)
Lemma CompareTIEHeader_seq_le a b :
  0 <= CompareTIEHeader a b -> SeqNr (HL_Header b) <= SeqNr (HL_Header a).
Proof.
  intros H. destruct (Z.eq_dec (SeqNr (HL_Header a)) (SeqNr (HL_Header b))) as [->|Hne]; [lia|].
  rewrite CompareTIEHeader_seq in H by done.
  destruct (cmpInt_spec (SeqNr (HL_Header a)) (SeqNr (HL_Header b))) as [?|[?|?]]; lia.
Qed.

Lemma CompareTIEHeader_refl a : CompareTIEHeader a a = 0.
Proof. unfold CompareTIEHeader. rewrite Z.eqb_refl. cbn. by rewrite Z.sub_diag. Qed.

Lemma CompareTIEHeader_range a b : -1 <= CompareTIEHeader a b <= 1.
Proof.
  unfold CompareTIEHeader. case_match; [|cbv zeta; case_match; [|lia]];
    match goal with |- context [cmpInt ?x ?y] =>
      destruct (cmpInt_spec x y) as [[-> _]|[[-> _]|[-> _]]] end; lia.
Qed.

(** ** Snapshot

    The deep copy is a value copy here: the header's pointer fields are rebuilt
    and the element is shared. *)
Definition copyHeader (h : TIEHeader) : TIEHeader :=
  mkTIEHeader (Header_TIEID h) (SeqNr h)
    (match OriginationTime h with
     | Some ts => Some (mkTimeStamp (TS_ASSec ts) (TS_ASNsec ts)) | None => None end)
    (match OriginationLifetime h with Some lt => Some lt | None => None end).
Definition copyEntry (e : LSDBEntry) : LSDBEntry :=
  mkLSDBEntry
    (mkTIEPacket (copyHeader (TIE_Header (Entry_Packet e))) (TIE_Element (Entry_Packet e)))
    (Entry_RemainingLifetime e) (Entry_SelfOriginated e).
Definition Snapshot (db : LSDB) : LSDB := copyEntry <$> db.

Lemma Snapshot_id db : Snapshot db = db.
Proof.
  unfold Snapshot. rewrite <-(map_fmap_id db) at 2. apply map_fmap_ext.
  intros id [[[i s [[]|] []] el] l so] _; done.
Qed.

(** ** Theorems *)

Module LsdbTheorems.

(** [CompareTIEID] is a total order on identifiers: it decides equality,
    swapping its arguments negates it, and it is transitive. *)
Theorem CompareTIEID_total_order a b c :
  (CompareTIEID a b = 0 <-> a = b) /\
  CompareTIEID b a = - CompareTIEID a b /\
  (CompareTIEID a b <= 0 -> CompareTIEID b c <= 0 -> CompareTIEID a c <= 0).
Proof.
  split_all; eauto using CompareTIEID_eq, CompareTIEID_antisym, CompareTIEID_trans.
Qed.

(** [HeadersSorted] lists one header per entry of the database, in strictly
    increasing identifier order. *)
Theorem HeadersSorted_spec db (Hk : lsdb_keyed db) :
  StronglySorted TIEID_lt ((fun h => Header_TIEID (HL_Header h)) <$> HeadersSorted db) /\
  Z.of_nat (length (HeadersSorted db)) = Len db /\
  (forall h, h ∈ HeadersSorted db <->
     exists e, Get db (Header_TIEID (HL_Header h)) = Some e /\ Entry_Header e = h).
Proof.
  split_all.
  - rewrite HeadersSorted_ids by done. apply sortedEntries_sorted.
  - unfold HeadersSorted, Len. rewrite length_fmap, sortedEntries_perm.
    by rewrite length_map_to_list.
  - intros h. unfold HeadersSorted, Get. rewrite list_elem_of_fmap. split.
    + intros [[id e] [-> Hin%elem_of_sortedEntries]]. exists e. cbn.
      split; [|done]. by rewrite (Hk _ _ Hin : Header_TIEID _ = id).
    + intros [e [Hin <-]]. exists (Entry_TIEID e, e).
      split; [done|]. by apply elem_of_sortedEntries.
Qed.

Definition sample_id : TIEID := mkTIEID TieDirectionNorth 1 TIETypePrefixTIEType 1.
Definition sample_entry : LSDBEntry :=
  mkLSDBEntry (mkTIEPacket (mkTIEHeader sample_id 1 None None) zeroTIEElement) 5 false.

Lemma HeadersSorted_spec_witness :
  Z.of_nat (length (HeadersSorted {[ sample_id := sample_entry ]})) = 1 /\
  lsdb_keyed {[ sample_id := sample_entry ]}.
Proof.
  assert (lsdb_keyed {[ sample_id := sample_entry ]}) as Hk.
  { by apply map_Forall_singleton. }
  split; [|exact Hk].
  rewrite (proj1 (proj2 (HeadersSorted_spec _ Hk))). unfold Len. by rewrite map_size_singleton.
Defined.

(** [CompareTIEHeader] is antisymmetric; the sequence number decides first,
    and for equal sequence numbers the lifetimes decide only when they differ by
    more than [LifetimeDiff2Ignore]. *)
Theorem CompareTIEHeader_spec a b
    (Ha : 0 <= HL_RemainingLifetime a < 2147483648)
    (Hb : 0 <= HL_RemainingLifetime b < 2147483648) :
  CompareTIEHeader b a = - CompareTIEHeader a b /\
  (CompareTIEHeader a b < 0 <->
     SeqNr (HL_Header a) < SeqNr (HL_Header b) \/
     SeqNr (HL_Header a) = SeqNr (HL_Header b) /\
     HL_RemainingLifetime a < HL_RemainingLifetime b - LifetimeDiff2Ignore).
Proof.
  destruct (Z.eq_dec (SeqNr (HL_Header a)) (SeqNr (HL_Header b))) as [E|E].
  - rewrite !CompareTIEHeader_lifetime by done. unfold LifetimeDiff2Ignore.
    unfold cmpInt. rewrite !Z.gtb_ltb. zcases; lia.
  - rewrite !CompareTIEHeader_seq by congruence. unfold cmpInt.
    rewrite !Z.gtb_ltb. zcases; lia.
Qed.

Lemma CompareTIEHeader_spec_witness :
  let h s l := mkTIEHeaderWithLifeTime (mkTIEHeader sample_id s None None) l in
  CompareTIEHeader (h 2 0) (h 3 0) = - 1 /\ CompareTIEHeader (h 3 0) (h 2 0) = 1.
Proof.
  set (h := fun s l => mkTIEHeaderWithLifeTime (mkTIEHeader sample_id s None None) l).
  assert (CompareTIEHeader (h 2 0) (h 3 0) = - 1) as E by reflexivity.
  split; [exact E|]. change (CompareTIEHeader (h 3 0) (h 2 0) = - (-1)). rewrite <-E.
  apply (CompareTIEHeader_spec (h 2 0) (h 3 0)); cbn; lia.
Defined.

(** [DecrementLifetimes] ages every entry by [delta], keeps everything else,
    and returns the identifiers whose lifetime is then not positive, each once. *)
Theorem DecrementLifetimes_spec db delta db' expired
    (Hl : map_Forall (fun _ e => is_int 32 (Entry_RemainingLifetime e - delta)) db)
    (Hd : DecrementLifetimes db delta = (db', expired)) :
  (forall id, Get db' id = (fun e =>
     e <| Entry_RemainingLifetime := Entry_RemainingLifetime e - delta |>) <$> Get db id) /\
  NoDup expired /\
  (forall id, id ∈ expired <->
     exists e, Get db id = Some e /\ Entry_RemainingLifetime e <= delta).
Proof.
  unfold DecrementLifetimes in Hd. injection Hd as <- <-. unfold Get.
  assert (forall id e, db !! id = Some e -> decrementEntry delta e
    = e <| Entry_RemainingLifetime := Entry_RemainingLifetime e - delta |>) as Hdec.
  { intros id e He. unfold decrementEntry. by rewrite wrap_id by (eauto; lia). }
  split_all.
  - intros id. rewrite lookup_fmap. destruct (db !! id) eqn:E; [|done]. cbn -[decrementEntry].
    f_equal. by rewrite (Hdec _ _ E).
  - eapply (sublist_NoDup _ (map_to_list (decrementEntry delta <$> db)).*1);
      [apply NoDup_fst_map_to_list|].
    apply (fmap_sublist fst), sublist_filter.
  - intros id. rewrite list_elem_of_fmap. split.
    + intros [[k e] [-> [Hle Hin%elem_of_map_to_list]%list_elem_of_filter]]. cbn in *.
      rewrite lookup_fmap in Hin. destruct (db !! k) as [e0|] eqn:E; [|done].
      injection Hin as <-. exists e0. split; [done|].
      rewrite (Hdec _ _ E) in Hle. cbn in Hle. lia.
    + intros [e [He Hle]]. exists (id, decrementEntry delta e). split; [done|].
      apply list_elem_of_filter. cbn -[decrementEntry]. split.
      { rewrite (Hdec _ _ He). cbn. lia. }
      apply elem_of_map_to_list. by rewrite lookup_fmap, He.
Qed.

Lemma DecrementLifetimes_spec_witness :
  let db := {[ sample_id := sample_entry ]} in
  is_int 32 (5 - 5) /\ sample_id ∈ (DecrementLifetimes db 5).2.
Proof.
  split; [vm_compute; split; [discriminate|reflexivity]|].
  apply (DecrementLifetimes_spec {[ sample_id := sample_entry ]} 5
           (DecrementLifetimes {[ sample_id := sample_entry ]} 5).1
           (DecrementLifetimes {[ sample_id := sample_entry ]} 5).2).
  - apply map_Forall_singleton. vm_compute. split; [discriminate|reflexivity].
  - by destruct (DecrementLifetimes _ _).
  - exists sample_entry. split; [by apply lookup_singleton_eq|cbn; lia].
Defined.

(** C29: the range from [MinTIEID] to [MaxTIEID] covers every identifier whose
    originator is not negative, and no identifier of a South TIE with a negative
    originator (a system identifier of 2^63 or more). *)
Theorem full_range_covers id (Hid : TieDirectionSouth <= Direction id <= TieDirectionNorth)
    (Ht : 0 <= TIEType id <= TIETypeMaxValue) (Hn : 0 <= TIENr id <= 0x7FFFFFFF)
    (Ho : is_int 64 (Originator id)) :
  CompareTIEID MinTIEID id <= 0 /\ CompareTIEID id MaxTIEID <= 0 <->
  0 <= Originator id \/ Direction id = TieDirectionNorth.
Proof.
  apply is_int64 in Ho. unfold TieDirectionSouth, TieDirectionNorth, TIETypeMaxValue in *.
  rewrite !CompareTIEID_le. destruct id as [d o t n]; cbn in *. split.
  - intros [[Hlt|E] _]; [|injection E as <- <- <- <-; lia].
    unfold TIEID_lt in Hlt. cbn in Hlt. unfold TieDirectionSouth in Hlt. lia.
  - intros H. rewrite <-!CompareTIEID_le. split; apply CompareTIEID_not_lt;
      unfold TIEID_lt; cbn; unfold TieDirectionSouth, TieDirectionDirectionMaxValue; lia.
Qed.

Lemma full_range_covers_witness : CompareTIEID MinTIEID sample_id <= 0.
Proof.
  apply (full_range_covers sample_id); unfold sample_id; cbn;
    unfold TieDirectionSouth, TieDirectionNorth, TIETypePrefixTIEType, TIETypeMaxValue;
    try lia. vm_compute. split; [discriminate|reflexivity].
Defined.

End LsdbTheorems.
