(* ===== verification/Scope.v ===== *)
(** * Scope: the flooding scope rules ([internal/tie/scope.go] and
    [shouldAcceptTIE] of [internal/tie/flood.go]).

    The sender decides with [ShouldFloodTIE], advertises with
    [ShouldIncludeInTIDE], and the receiver decides with [shouldAcceptTIE]; the
    theorems relate the three decisions of two neighbours. *)

From S2P Require Import Prelude.
From S2P Require Import Types.
From S2P Require Import Lsdb.

Definition ShouldFloodTIE (tieID : TIEID) (localSystemID localLevel neighborLevel : Z)
    : bool :=
  let selfOriginated := Originator tieID =? localSystemID in
  let isNodeTIE := TIEType tieID =? TIETypeNodeTIEType in
  if Direction tieID =? TieDirectionNorth then neighborLevel >? localLevel
  else if Direction tieID =? TieDirectionSouth then
    if neighborLevel <? localLevel then
      if isNodeTIE then true else selfOriginated
    else if neighborLevel >? localLevel then
      if isNodeTIE then true else selfOriginated
    else if localLevel >=? TopOfFabricLevel then false
    else if isNodeTIE then true
    else selfOriginated
  else false.

(** The east-west tail of the function, which a direction that is neither North
    nor South also reaches. *)
Definition includeEastWest (tieID : TIEID) (selfOriginated : bool) (localLevel : Z) : bool :=
  if localLevel >=? TopOfFabricLevel then Direction tieID =? TieDirectionNorth
  else selfOriginated.

Definition ShouldIncludeInTIDE (tieID : TIEID)
    (localSystemID localLevel neighborLevel : Z) : bool :=
  let selfOriginated := Originator tieID =? localSystemID in
  let isNodeTIE := TIEType tieID =? TIETypeNodeTIEType in
  if neighborLevel <? localLevel then
    if Direction tieID =? TieDirectionNorth then negb selfOriginated
    else if Direction tieID =? TieDirectionSouth then
      if selfOriginated then true else isNodeTIE
    else includeEastWest tieID selfOriginated localLevel
  else if neighborLevel >? localLevel then
    if Direction tieID =? TieDirectionNorth then true
    else if Direction tieID =? TieDirectionSouth then
      if isNodeTIE then true else selfOriginated
    else includeEastWest tieID selfOriginated localLevel
  else includeEastWest tieID selfOriginated localLevel.

Definition shouldAcceptTIE (systemID level : Z) (id : TIEID) (neighborLevel : Z) : bool :=
  if Originator id =? systemID then true
  else if Direction id =? TieDirectionNorth then neighborLevel <? level
  else if Direction id =? TieDirectionSouth then
    if TIEType id =? TIETypeNodeTIEType then true
    else neighborLevel >? level
  else false.

(** ** A node of the fabric, for the flooding paths *)

Record Node := mkNode { node_id : Z; node_level : Z }.

(** One hop of a TIE from [a] to [b]: the sender floods it, the receiver accepts
    it. *)
Definition hop (id : TIEID) (a b : Node) : Prop :=
  ShouldFloodTIE id (node_id a) (node_level a) (node_level b) = true /\
  shouldAcceptTIE (node_id b) (node_level b) id (node_level a) = true.

(** A flooding path from the first node through the others. *)
Inductive flood_path (id : TIEID) : Node -> list Node -> Prop :=
  | path_end a : flood_path id a []
  | path_hop a b l : hop id a b -> flood_path id b l -> flood_path id a (b :: l).

(** ** The decisions, case by case *)

Ltac scope_tac :=
  unfold hop, ShouldFloodTIE, ShouldIncludeInTIDE, includeEastWest, shouldAcceptTIE,
    TieDirectionNorth, TieDirectionSouth, TIETypeNodeTIEType, TopOfFabricLevel in *;
  zcases;
  repeat match goal with
  | H : context [?a >? ?b] |- _ => rewrite (Z.gtb_ltb a b) in H
  | H : context [?a >=? ?b] |- _ => rewrite (Z.geb_leb a b) in H
  | H : context [?a =? ?b] |- _ => destruct (Z.eqb_spec a b)
  | H : context [?a <? ?b] |- _ => destruct (Z.ltb_spec a b)
  | H : context [?a <=? ?b] |- _ => destruct (Z.leb_spec a b)
  | |- context [?a =? ?b] => destruct (Z.eqb_spec a b)
  | |- context [?a <? ?b] => destruct (Z.ltb_spec a b)
  | |- context [?a <=? ?b] => destruct (Z.leb_spec a b)
  end; cbn in *.

Lemma flood_direction id sys la lb :
  ShouldFloodTIE id sys la lb = true ->
  Direction id = TieDirectionNorth \/ Direction id = TieDirectionSouth.
Proof. scope_tac; intros; try done; auto. Qed.

Lemma flood_north id sys la lb :
  Direction id = TieDirectionNorth ->
  ShouldFloodTIE id sys la lb = true <-> la < lb.
Proof. unfold ShouldFloodTIE. intros ->. cbn. by rewrite Z.gtb_ltb, Z.ltb_lt. Qed.

(** A South TIE that is not a node TIE leaves its originator only. *)
Lemma flood_south_prefix id sys la lb :
  Direction id = TieDirectionSouth -> TIEType id <> TIETypeNodeTIEType ->
  ShouldFloodTIE id sys la lb = true -> Originator id = sys.
Proof. intros Hd Ht. scope_tac; try done; lia. Qed.

Lemma north_path_levels id a l :
  Direction id = TieDirectionNorth -> flood_path id a l ->
  StronglySorted Z.lt (node_level a :: (node_level <$> l)).
Proof.
  intros Hd. induction 1 as [|a b l [Hf _] _ IH]; cbn.
  { by repeat constructor. }
  apply flood_north in Hf; [|done].
  constructor; [done|]. apply StronglySorted_inv in IH as [_ Hall]. constructor; [done|].
  eapply Forall_impl; [exact Hall|]. cbn. lia.
Qed.

Lemma StronglySorted_lt_bound (l : list Z) a hi :
  StronglySorted Z.lt (a :: l) -> Forall (fun x => x <= hi) (a :: l) ->
  Z.of_nat (length l) <= hi - a.
Proof.
  revert a. induction l as [|b l IH]; intros a Hs Hb.
  { apply Forall_cons in Hb as [Hb _]. cbn. lia. }
  apply StronglySorted_inv in Hs as [Hs Hall]. apply Forall_cons in Hall as [Hlt _].
  apply Forall_cons in Hb as [_ Hb]. specialize (IH b Hs Hb). cbn [length]. lia.
Qed.

Lemma StronglySorted_lt_NoDup (l : list Z) : StronglySorted Z.lt l -> NoDup l.
Proof.
  induction 1 as [|a l _ IH Hall]; constructor; [|done].
  intros Ha. rewrite Forall_forall in Hall. specialize (Hall a Ha). lia.
Qed.

(** A South TIE that is not a node TIE is accepted from its originator only,
    and only downwards. *)
Lemma hop_south_prefix id a b :
  Direction id = TieDirectionSouth -> TIEType id <> TIETypeNodeTIEType ->
  node_id a <> node_id b -> hop id a b ->
  Originator id = node_id a /\ node_level b < node_level a.
Proof.
  intros Hd Ht Hne [Hf Ha]. pose proof (flood_south_prefix _ _ _ _ Hd Ht Hf) as Ho.
  split; [done|]. unfold shouldAcceptTIE in Ha. rewrite Hd in Ha. cbn in Ha.
  destruct (Z.eqb_spec (Originator id) (node_id b)); [congruence|].
  destruct (Z.eqb_spec (TIEType id) TIETypeNodeTIEType); [done|].
  rewrite Z.gtb_ltb in Ha. by apply Z.ltb_lt in Ha.
Qed.

(** ** Theorems *)

Module ScopeTheorems.

(** A TIE that one node floods and its neighbour refuses is exactly a South
    TIE that is not a node TIE, sent by its originator upwards, or sideways
    below the top of fabric; every other flooded TIE is accepted. *)
Theorem flooded_but_refused id a b (Hne : node_id a <> node_id b) :
  ShouldFloodTIE id (node_id a) (node_level a) (node_level b) = true /\
  shouldAcceptTIE (node_id b) (node_level b) id (node_level a) = false <->
  Direction id = TieDirectionSouth /\ TIEType id <> TIETypeNodeTIEType /\
  Originator id = node_id a /\
  (node_level a < node_level b \/
   node_level a = node_level b /\ node_level a < TopOfFabricLevel).
Proof.
  destruct a as [ia la], b as [ib lb]; cbn in *.
  scope_tac; intuition (try done; try lia).
Qed.

Lemma flooded_but_refused_witness :
  let id := mkTIEID TieDirectionSouth 1 TIETypePrefixTIEType 1 in
  ShouldFloodTIE id 1 1 2 = true /\ shouldAcceptTIE 2 2 id 1 = false.
Proof.
  apply (flooded_but_refused (mkTIEID TieDirectionSouth 1 TIETypePrefixTIEType 1)
           (mkNode 1 1) (mkNode 2 2)); [cbn; lia|].
  cbn. unfold TIETypePrefixTIEType, TIETypeNodeTIEType. split_all; try done; lia.
Defined.

(** What a node floods it also advertises in its TIDEs, except the South
    node TIEs of others on an east-west link below the top of fabric. *)
Theorem flooded_not_advertised id sys la lb :
  ShouldFloodTIE id sys la lb = true /\ ShouldIncludeInTIDE id sys la lb = false <->
  la = lb /\ la < TopOfFabricLevel /\ Direction id = TieDirectionSouth /\
  TIEType id = TIETypeNodeTIEType /\ Originator id <> sys.
Proof. scope_tac; intuition (try done; try lia). Qed.

(** C24: a North TIE climbs one level at least with every hop, so its flooding
    paths have no loop and at most as many hops as there are levels. *)
Theorem north_flood_acyclic id a l
    (Hd : Direction id = TieDirectionNorth) (Hp : flood_path id a l)
    (Hl : Forall (fun n => LeafLevel <= node_level n <= TopOfFabricLevel) (a :: l)) :
  StronglySorted Z.lt (node_level <$> a :: l) /\ NoDup (a :: l) /\
  Z.of_nat (length l) <= TopOfFabricLevel.
Proof.
  pose proof (north_path_levels id a l Hd Hp) as Hs. split_all; [done| |].
  - apply (NoDup_fmap_1 node_level). by apply StronglySorted_lt_NoDup.
  - apply (StronglySorted_lt_bound _ _ TopOfFabricLevel) in Hs.
    + rewrite length_fmap in Hs. apply Forall_cons in Hl as [Ha _].
      unfold LeafLevel in *. lia.
    + rewrite <-fmap_cons. apply Forall_fmap.
      eapply Forall_impl; [exact Hl|]. cbn. lia.
Qed.

Lemma north_flood_acyclic_witness :
  let l := [mkNode 2 1; mkNode 3 2] in
  let id := mkTIEID TieDirectionNorth 1 TIETypePrefixTIEType 1 in
  flood_path id (mkNode 1 0) l /\ NoDup (mkNode 1 0 :: l).
Proof.
  assert (flood_path (mkTIEID TieDirectionNorth 1 TIETypePrefixTIEType 1) (mkNode 1 0)
            [mkNode 2 1; mkNode 3 2]) as Hp.
  { repeat (constructor; [by split; vm_compute|]). constructor. }
  split; [exact Hp|].
  refine (proj1 (proj2 (north_flood_acyclic _ _ _ _ Hp _))); [done|].
  unfold LeafLevel, TopOfFabricLevel. repeat (constructor; [cbn; lia|]). constructor.
Defined.

(** C25: a South TIE that is not a node TIE travels at most one hop, from its
    originator to a strictly lower neighbour. *)
Theorem south_prefix_one_hop id a l
    (Hd : Direction id = TieDirectionSouth) (Ht : TIEType id <> TIETypeNodeTIEType)
    (Hp : flood_path id a l) (Hnd : NoDup (node_id <$> a :: l)) :
  l = [] \/
  exists b, l = [b] /\ Originator id = node_id a /\ node_level b < node_level a.
Proof.
  destruct Hp as [|a b l Hh Hp]; [by left|]. right. exists b.
  apply NoDup_cons in Hnd as [Ha Hnd]. apply NoDup_cons in Hnd as [Hb _].
  destruct (hop_south_prefix id a b) as [Ho Hlt]; auto.
  { intros E. apply Ha. rewrite E. left. }
  split_all; [|done..]. destruct Hp as [|b c l Hh' _]; [done|]. exfalso.
  destruct (hop_south_prefix id b c) as [Ho' _]; auto.
  { intros E. apply Hb. rewrite E. left. }
  apply Ha. replace (node_id a) with (node_id b) by congruence. left.
Qed.

Lemma south_prefix_one_hop_witness :
  let id := mkTIEID TieDirectionSouth 1 TIETypePrefixTIEType 1 in
  flood_path id (mkNode 1 1) [mkNode 2 0] /\
  exists b, [mkNode 2 0] = [b] /\ Originator id = 1 /\ node_level b < 1.
Proof.
  assert (flood_path (mkTIEID TieDirectionSouth 1 TIETypePrefixTIEType 1) (mkNode 1 1)
            [mkNode 2 0]) as Hp.
  { constructor; [by split; vm_compute|constructor]. }
  split; [exact Hp|].
  destruct (south_prefix_one_hop (mkTIEID TieDirectionSouth 1 TIETypePrefixTIEType 1)
              (mkNode 1 1) [mkNode 2 0]) as [E|E]; [done|done|exact Hp| |done|exact E].
  cbn. apply NoDup_cons. split; [|apply NoDup_singleton].
  intros H%list_elem_of_singleton. done.
Defined.

End ScopeTheorems.
