(* ===== verification/FloodState.v ===== *)
(** * FloodState: the flood engine's state and TIE origination
    ([internal/tie/types.go], [originate.go] and the state and queue operations
    of [flood.go]).

    The engine runs in one goroutine.  Its handlers are functions from state to
    state.  A pointer to an adjacency's flood state is the key under which the
    engine keeps it: no handler replaces or removes an adjacency while it holds
    such a pointer.  [FloodSendCh] is the list of packets queued for the
    transport.  A queued TIE packet is the value it had when it was queued. *)

From S2P Require Import Prelude.
From S2P Require Import Types.
From S2P Require Import Wire.
From S2P Require Import Lsdb.
From S2P Require Import Scope.

Record AdjacencyInfo := mkAdjacencyInfo {
  AI_InterfaceName : string;
  AI_NeighborID : Z;
  AI_NeighborLevel : Z;
  AI_NeighborAddr : Addr;
  AI_FloodPort : Z;
  AI_LocalLinkID : Z;
  AI_NeighborLinkID : Z
}.

(** [AC_Info = None]: the adjacency is down. *)
Record AdjacencyChange := mkAdjacencyChange {
  AC_InterfaceName : string;
  AC_Info : option AdjacencyInfo
}.

Record LocalPrefix := mkLocalPrefix {
  LP_Prefix : IPPrefixType;
  LP_Loopback : bool;
  LP_Metric : Z
}.

Record FloodPacket := mkFloodPacket {
  FP_InterfaceName : string;
  FP_Packet : ProtocolPacket;
  FP_DestAddr : Addr;
  FP_DestPort : Z;
  FP_RemainingLifetime : Z
}.

Record ReceivedFloodPkt := mkReceivedFloodPkt {
  RF_Packet : ProtocolPacket;
  RF_SrcAddr : string;
  RF_IfName : string
}.

Definition MaxTIDEHeaders : nat := 25.
Definition ReoriginateBeforeExpiry : Z := 3600.
(** The capacity of [FloodSendCh]. *)
Definition FloodSendCap : nat := 256.

Record adjFloodState := mkAdjFloodState {
  AF_Info : AdjacencyInfo;
  TIEsTX : gset TIEID;
  TIEsACK : gset TIEID;
  TIEsREQ : gset TIEID
}.

Definition newAdjFloodState (info : AdjacencyInfo) : adjFloodState :=
  mkAdjFloodState info ∅ ∅ ∅.

Record FloodEngine := mkFloodEngine {
  fe_lsdb : LSDB;
  fe_systemID : Z;
  fe_level : Z;
  fe_nodeName : string;
  fe_adjacencies : gmap string adjFloodState;
  fe_localPrefixes : list LocalPrefix;
  fe_FloodSendCh : list FloodPacket;
  fe_LSDBChangeCh : bool
}.

#[export] Instance eta_adjFloodState : Eta adjFloodState :=
  fun r => mkAdjFloodState (AF_Info r) (TIEsTX r) (TIEsACK r) (TIEsREQ r).
#[export] Instance eta_FloodEngine : Eta FloodEngine :=
  fun r => mkFloodEngine (fe_lsdb r) (fe_systemID r) (fe_level r) (fe_nodeName r)
    (fe_adjacencies r) (fe_localPrefixes r) (fe_FloodSendCh r) (fe_LSDBChangeCh r).

Definition NewFloodEngine (systemID level : Z) (nodeName : string)
    (localPrefixes : list LocalPrefix) : FloodEngine :=
  mkFloodEngine ∅ systemID level nodeName ∅ localPrefixes [] false.

Definition UpdateLocalPrefixes (fe : FloodEngine) (prefixes : list LocalPrefix) : FloodEngine :=
  fe <| fe_localPrefixes := prefixes |>.

(** [Adjacencies()]: a snapshot for other goroutines. *)
Definition Adjacencies (fe : FloodEngine) : gmap string AdjacencyInfo :=
  AF_Info <$> fe_adjacencies fe.

Definition notifyLSDBChange (fe : FloodEngine) : FloodEngine :=
  fe <| fe_LSDBChangeCh := true |>.

(** ** Queues *)

(** Update the flood state behind the pointer [k]. *)
Definition updAdj (k : string) (f : adjFloodState -> adjFloodState) (fe : FloodEngine)
    : FloodEngine := fe <| fe_adjacencies := alter f k (fe_adjacencies fe) |>.

Definition enqueueTX (k : string) (id : TIEID) (fe : FloodEngine) : FloodEngine :=
  updAdj k (fun a => a <| TIEsTX := {[id]} ∪ TIEsTX a |>) fe.
Definition ackTIE (k : string) (id : TIEID) (fe : FloodEngine) : FloodEngine :=
  updAdj k (fun a => a <| TIEsACK := {[id]} ∪ TIEsACK a |>) fe.
Definition enqueueREQ (k : string) (id : TIEID) (fe : FloodEngine) : FloodEngine :=
  updAdj k (fun a => a <| TIEsREQ := {[id]} ∪ TIEsREQ a |>) fe.
(** [delete(adj.TIEsTX, id)] *)
Definition dequeueTX (k : string) (id : TIEID) (fe : FloodEngine) : FloodEngine :=
  updAdj k (fun a => a <| TIEsTX := TIEsTX a ∖ {[id]} |>) fe.

(** The loop body of [floodTIEToAll]. *)
Definition floodToAdj (fe : FloodEngine) (id : TIEID) (a : adjFloodState) : adjFloodState :=
  if ShouldFloodTIE id (fe_systemID fe) (fe_level fe) (AI_NeighborLevel (AF_Info a))
  then a <| TIEsTX := {[id]} ∪ TIEsTX a |> else a.

Definition floodTIEToAll (id : TIEID) (fe : FloodEngine) : FloodEngine :=
  fe <| fe_adjacencies := floodToAdj fe id <$> fe_adjacencies fe |>.

Definition floodTIEToAllExcept (id : TIEID) (excludeIf : string) (fe : FloodEngine)
    : FloodEngine :=
  fe <| fe_adjacencies :=
    (fun a => if String.eqb (AI_InterfaceName (AF_Info a)) excludeIf then a
              else floodToAdj fe id a) <$> fe_adjacencies fe |>.

(** The send is dropped when the channel is full. *)
Definition sendFloodPacket (a : adjFloodState) (pkt : ProtocolPacket)
    (remainingLifetime : Z) (fe : FloodEngine) : FloodEngine :=
  let fp := mkFloodPacket (AI_InterfaceName (AF_Info a)) pkt (AI_NeighborAddr (AF_Info a))
              (AI_FloodPort (AF_Info a)) remainingLifetime in
  if (length (fe_FloodSendCh fe) <? FloodSendCap)%nat
  then fe <| fe_FloodSendCh := fe_FloodSendCh fe ++ [fp] |> else fe.

(** ** Origination *)

Section originate.
Context {R : MapRange}.

Definition insertSelfOriginated (id : TIEID) (element : TIEElement) (fe : FloodEngine)
    : FloodEngine :=
  let seqNr :=
    match Get (fe_lsdb fe) id with
    | Some existing =>
        if Entry_SelfOriginated existing then wrap 64 (Entry_SeqNr existing + 1) else 1
    | None => 1
    end in
  let pkt := mkTIEPacket (mkTIEHeader id seqNr None (Some DefaultLifetime)) element in
  fe <| fe_lsdb := (Insert (fe_lsdb fe) (mkLSDBEntry pkt DefaultLifetime true)).1 |>.

Definition adjNeighborElement (info : AdjacencyInfo) : NodeNeighborsTIEElement :=
  zeroNodeNeighbors <| NN_Level := AI_NeighborLevel info |> <| NN_Cost := Some 1 |>
    <| NN_LinkIDs := [zeroLinkIDPair <| LIP_LocalID := AI_LocalLinkID info |>
                                     <| LIP_RemoteID := AI_NeighborLinkID info |>] |>.

(** The body of the [for _, adj := range fe.adjacencies] loop that fills
    [neighbors], and the loop. *)
Definition addNeighbor (keep : AdjacencyInfo -> bool)
    (neighbors : gmap Z NodeNeighborsTIEElement) (kadj : string * adjFloodState)
    : gmap Z NodeNeighborsTIEElement :=
  let info := AF_Info kadj.2 in
  if keep info then <[AI_NeighborID info := adjNeighborElement info]> neighbors
  else neighbors.

Definition collectNeighbors (keep : AdjacencyInfo -> bool) (fe : FloodEngine)
    : gmap Z NodeNeighborsTIEElement :=
  foldl (addNeighbor keep) ∅ (range_map (fe_adjacencies fe)).

Definition selfTIEID (fe : FloodEngine) (dir ty : Z) : TIEID :=
  mkTIEID dir (fe_systemID fe) ty 1.

Definition originatedNode (neighbors : gmap Z NodeNeighborsTIEElement) (fe : FloodEngine)
    : NodeTIEElement :=
  zeroNodeTIE <| Node_Level := fe_level fe |> <| Node_Neighbors := neighbors |>
    <| Node_Capabilities :=
         zeroNodeCapabilities <| NC_ProtocolMinorVersion := ProtocolMinorVersion |> |>
    <| Node_Name := fe_nodeName fe |>.

Definition northNodeElement (fe : FloodEngine) : TIEElement :=
  let node := originatedNode
    (collectNeighbors (fun info => AI_NeighborLevel info >=? fe_level fe) fe) fe in
  zeroTIEElement <| EL_Node := Some
    (if fe_level fe =? LeafLevel
     then node <| Node_Flags := Some (mkNodeFlags (Some true)) |> else node) |>.

Definition originateNorthNodeTIE (fe : FloodEngine) : TIEID * FloodEngine :=
  let id := selfTIEID fe TieDirectionNorth TIETypeNodeTIEType in
  (id, insertSelfOriginated id (northNodeElement fe) fe).

Definition localPrefixEntry (lp : LocalPrefix) : PrefixEntry :=
  let attrs := zeroPrefixAttributes <| PA_Metric := LP_Metric lp |> in
  mkPrefixEntry (LP_Prefix lp)
    (if LP_Loopback lp then attrs <| PA_Loopback := Some true |> else attrs).

Definition northPrefixElement (fe : FloodEngine) : TIEElement :=
  zeroTIEElement <| EL_Prefixes :=
    Some (mkPrefixTIE (localPrefixEntry <$> fe_localPrefixes fe)) |>.

Definition originateNorthPrefixTIE (fe : FloodEngine) : TIEID * FloodEngine :=
  let id := selfTIEID fe TieDirectionNorth TIETypePrefixTIEType in
  (id, insertSelfOriginated id (northPrefixElement fe) fe).

Definition southNodeElement (fe : FloodEngine) : TIEElement :=
  zeroTIEElement <| EL_Node := Some (originatedNode
    (collectNeighbors (fun info => AI_NeighborLevel info <? fe_level fe) fe) fe) |>.

Definition originateSouthNodeTIE (fe : FloodEngine) : TIEID * FloodEngine :=
  let id := selfTIEID fe TieDirectionSouth TIETypeNodeTIEType in
  (id, insertSelfOriginated id (southNodeElement fe) fe).

(** The IPv4 default route. *)
Definition southPrefixElement : TIEElement :=
  zeroTIEElement <| EL_Prefixes := Some (mkPrefixTIE
    [mkPrefixEntry (mkIPPrefix (Some (mkIPv4Prefix 0 0)) None)
       (zeroPrefixAttributes <| PA_Metric := 1 |>)]) |>.

Definition originateSouthPrefixTIE (fe : FloodEngine) : TIEID * FloodEngine :=
  let id := selfTIEID fe TieDirectionSouth TIETypePrefixTIEType in
  (id, insertSelfOriginated id southPrefixElement fe).

(** [insertSelfOriginated] always reports a change, so every originated
    identifier is returned. *)
Definition originateSelfTIEs (fe : FloodEngine) : list TIEID * FloodEngine :=
  let '(id1, fe) := originateNorthNodeTIE fe in
  let '(id2, fe) := originateNorthPrefixTIE fe in
  if fe_level fe >? LeafLevel then
    let '(id3, fe) := originateSouthNodeTIE fe in
    let '(id4, fe) := originateSouthPrefixTIE fe in
    ([id1; id2; id3; id4], fe)
  else ([id1; id2], fe).

(** The entry after the re-origination of [bumpOwnTIE]. *)
Definition bumpedEntry (existing : LSDBEntry) : LSDBEntry :=
  let hdr := TIE_Header (Entry_Packet existing) in
  mkLSDBEntry
    (mkTIEPacket
       (hdr <| SeqNr := wrap 64 (SeqNr hdr + 1) |>
            <| OriginationLifetime := Some DefaultLifetime |>)
       (TIE_Element (Entry_Packet existing)))
    DefaultLifetime (Entry_SelfOriginated existing).

(** The live entry is changed in place and then inserted again. *)
Definition bumpOwnTIE (id : TIEID) (fe : FloodEngine) : FloodEngine :=
  match Get (fe_lsdb fe) id with
  | Some existing =>
      if Entry_SelfOriginated existing then
        let e := bumpedEntry existing in
        fe <| fe_lsdb := (Insert (<[id := e]> (fe_lsdb fe)) e).1 |>
      else fe
  | None => fe
  end.

(** [bumpOwnTIE] called by a goroutine that holds [readers] read locks of the
    database. *)
Definition bumpOwnTIE_locked (readers : nat) (id : TIEID) (fe : FloodEngine)
    : blocking FloodEngine :=
  match Get (fe_lsdb fe) id with
  | Some existing =>
      if Entry_SelfOriginated existing then withWriteLock readers (bumpOwnTIE id fe)
      else Done fe
  | None => Done fe
  end.

Definition positiveDisaggElement (prefixes : list PrefixEntry) : TIEElement :=
  zeroTIEElement <| EL_PositiveDisaggregationPrefixes := Some (mkPrefixTIE prefixes) |>.

(** The new state, the identifier and whether the database changed. *)
Definition OriginatePositiveDisaggTIE (prefixes : list PrefixEntry) (fe : FloodEngine)
    : TIEID * bool * FloodEngine :=
  let id := selfTIEID fe TieDirectionSouth TIETypePositiveDisaggregationPrefixTIEType in
  match prefixes with
  | [] =>
      match Get (fe_lsdb fe) id with
      | Some existing =>
          if negb (Entry_SelfOriginated existing) then (id, false, fe)
          else match EL_PositiveDisaggregationPrefixes (TIE_Element (Entry_Packet existing)) with
               | Some (mkPrefixTIE []) => (id, false, fe)
               | _ => (id, true, insertSelfOriginated id (positiveDisaggElement []) fe)
               end
      | None => (id, false, fe)
      end
  | _ => (id, true, insertSelfOriginated id (positiveDisaggElement prefixes) fe)
  end.

(** [netip.Addr.As4]: the address itself, the low 32 bits of an IPv4-mapped IPv6
    address, a panic ([None]) on any other address. *)
Definition As4 (addr : Addr) : option Z :=
  match addr with
  | AddrV4 a => Some a
  | AddrV6 bs _ =>
      if bool_decide (take 12 bs = replicate 10 x00 ++ [xff; xff])
      then Some (get_be (drop 12 bs)) else None
  | AddrInvalid => None
  end.

Definition IPv4ToPrefix (addr : Addr) (prefixLen : Z) : option IPPrefixType :=
  match As4 addr with
  | Some a =>
      let byte i := Z.land (Z.shiftr a (8 * i)) 255 in
      let shl b i := wrap 32 (Z.shiftl b (8 * i)) in
      let ipv4 := Z.lor (Z.lor (Z.lor (shl (byte 3) 3) (shl (byte 2) 2)) (shl (byte 1) 1))
                        (byte 0) in
      Some (mkIPPrefix (Some (mkIPv4Prefix ipv4 prefixLen)) None)
  | None => None
  end.

End originate.
