(* ===== verification/Flood.v ===== *)
(** * Flood: the handlers of the flood engine ([internal/tie/flood.go]).

    One definition per handler, the dispatcher, and the engine's [Run] loop as a
    step relation: each step is one arm of the [select], or one of the two
    consumers (the transport taking a packet, SPF taking a notification). *)

From S2P Require Import Prelude.
From S2P Require Import Types.
From S2P Require Import Lsdb.
From S2P Require Import Scope.
From S2P Require Import FloodState.

Section handlers.
Context {R : MapRange}.

Definition handleAdjChange (change : AdjacencyChange) (fe : FloodEngine) : FloodEngine :=
  let k := AC_InterfaceName change in
  let fe := fe <| fe_adjacencies :=
    match AC_Info change with
    | Some info => <[k := newAdjFloodState info]> (fe_adjacencies fe)
    | None => delete k (fe_adjacencies fe)
    end |> in
  let '(changed, fe) := originateSelfTIEs fe in
  notifyLSDBChange (foldl (fun fe id => floodTIEToAll id fe) fe changed).

Definition handleDisaggUpdate (prefixes : list PrefixEntry) (fe : FloodEngine) : FloodEngine :=
  let '(id, changed, fe) := OriginatePositiveDisaggTIE prefixes fe in
  if changed : bool then notifyLSDBChange (floodTIEToAll id fe) else fe.

(** The header of a received TIE: its remaining lifetime is taken from the
    origination lifetime, or is the default. *)
Definition receivedHeader (tie : TIEPacket) : TIEHeaderWithLifeTime :=
  mkTIEHeaderWithLifeTime (TIE_Header tie)
    (match OriginationLifetime (TIE_Header tie) with
     | Some lt => lt | None => DefaultLifetime end).

Definition receivedEntry (tie : TIEPacket) : LSDBEntry :=
  mkLSDBEntry tie (HL_RemainingLifetime (receivedHeader tie)) false.

(** The common tail of the two branches that store a received TIE. *)
Definition installTIE (ifName : string) (tie : TIEPacket) (fe : FloodEngine) : FloodEngine :=
  let id := Header_TIEID (TIE_Header tie) in
  let fe := fe <| fe_lsdb := (Insert (fe_lsdb fe) (receivedEntry tie)).1 |> in
  let fe := ackTIE ifName id fe in
  let fe := floodTIEToAllExcept id ifName fe in
  notifyLSDBChange fe.

Definition acceptTIE (fe : FloodEngine) (id : TIEID) (neighborLevel : Z) : bool :=
  shouldAcceptTIE (fe_systemID fe) (fe_level fe) id neighborLevel.

Definition handleTIE (ifName : string) (tie : TIEPacket) (fe : FloodEngine) : FloodEngine :=
  let id := Header_TIEID (TIE_Header tie) in
  match fe_adjacencies fe !! ifName with
  | None => fe
  | Some adj =>
      match Get (fe_lsdb fe) id with
      | None =>
          if Originator id =? fe_systemID fe then floodTIEToAll id (bumpOwnTIE id fe)
          else if acceptTIE fe id (AI_NeighborLevel (AF_Info adj))
          then installTIE ifName tie fe
          else fe
      | Some existing =>
          let cmp := CompareTIEHeader (receivedHeader tie) (Entry_Header existing) in
          if cmp >? 0 then
            if Originator id =? fe_systemID fe then floodTIEToAll id (bumpOwnTIE id fe)
            else installTIE ifName tie fe
          else if cmp <? 0 then enqueueTX ifName id fe
          else ackTIE ifName id fe
      end
  end.

(** The loop body over the headers of a TIDE. *)
Definition tideHeader (ifName : string) (neighborLevel : Z) (fe : FloodEngine)
    (hdr : TIEHeaderWithLifeTime) : FloodEngine :=
  let id := Header_TIEID (HL_Header hdr) in
  match Get (fe_lsdb fe) id with
  | None =>
      if Originator id =? fe_systemID fe then floodTIEToAll id (originateSelfTIEs fe).2
      else if acceptTIE fe id neighborLevel then enqueueREQ ifName id fe
      else fe
  | Some existing =>
      let cmp := CompareTIEHeader hdr (Entry_Header existing) in
      if cmp >? 0 then
        if Originator id =? fe_systemID fe then floodTIEToAll id (bumpOwnTIE id fe)
        else if acceptTIE fe id neighborLevel then enqueueREQ ifName id fe
        else fe
      else if cmp <? 0 then enqueueTX ifName id fe
      else dequeueTX ifName id fe
  end.

(** The callback that looks for TIEs of the range that the TIDE does not list. *)
Definition tideMissing (ifName : string) (neighborLevel : Z) (tide : TIDEPacket)
    (tideSet : gset TIEID) (id : TIEID) (entry : LSDBEntry) (fe : FloodEngine)
    : FloodEngine * bool :=
  if CompareTIEID id (TIDE_StartRange tide) <? 0 then (fe, true)
  else if CompareTIEID id (TIDE_EndRange tide) >? 0 then (fe, false)
  else if bool_decide (id ∉ tideSet)
          && ShouldFloodTIE id (fe_systemID fe) (fe_level fe) neighborLevel
       then (enqueueTX ifName id fe, true)
  else (fe, true).

Definition tideIDs (tide : TIDEPacket) : list TIEID :=
  (fun h => Header_TIEID (HL_Header h)) <$> TIDE_Headers tide.

Definition handleTIDE (ifName : string) (tide : TIDEPacket) (fe : FloodEngine) : FloodEngine :=
  match fe_adjacencies fe !! ifName with
  | None => fe
  | Some adj =>
      let level := AI_NeighborLevel (AF_Info adj) in
      let tideSet := list_to_set (tideIDs tide) in
      let fe := foldl (tideHeader ifName level) fe (TIDE_Headers tide) in
      ForEachSorted (fe_lsdb fe) (tideMissing ifName level tide tideSet) fe
  end.

(** The loop body over the headers of a TIRE: a request has lifetime zero, an
    acknowledgment another one. *)
Definition tireHeader (ifName : string) (fe : FloodEngine) (hdr : TIEHeaderWithLifeTime)
    : FloodEngine :=
  let id := Header_TIEID (HL_Header hdr) in
  match Get (fe_lsdb fe) id with
  | None => fe
  | Some existing =>
      let cmp := CompareTIEHeader hdr (Entry_Header existing) in
      if HL_RemainingLifetime hdr =? 0 then
        if cmp <=? 0 then enqueueTX ifName id fe else fe
      else if cmp =? 0 then dequeueTX ifName id fe else fe
  end.

Definition handleTIRE (ifName : string) (tire : TIREPacket) (fe : FloodEngine) : FloodEngine :=
  match fe_adjacencies fe !! ifName with
  | None => fe
  | Some _ => foldl (tireHeader ifName) fe (TIRE_Headers tire)
  end.

Definition handleFloodPacket (rpkt : ReceivedFloodPkt) (fe : FloodEngine) : FloodEngine :=
  let content := PP_Content (RF_Packet rpkt) in
  match PC_TIE content with
  | Some tie => handleTIE (RF_IfName rpkt) tie fe
  | None =>
      match PC_TIDE content with
      | Some tide => handleTIDE (RF_IfName rpkt) tide fe
      | None =>
          match PC_TIRE content with
          | Some tire => handleTIRE (RF_IfName rpkt) tire fe
          | None => fe
          end
      end
  end.

(** ** Sending *)

Definition packetOf (fe : FloodEngine) (content : PacketContent) : ProtocolPacket :=
  mkProtocolPacket
    (mkPacketHeader ProtocolMajorVersion ProtocolMinorVersion (fe_systemID fe)
       (Some (fe_level fe))) content.

(** The loop of [buildTIDEChunks], which starts the next chunk at [startRange];
    [fuel] bounds the number of chunks. *)
Fixpoint chunkLoop (fuel : nat) (startRange : TIEID) (headers : list TIEHeaderWithLifeTime)
    : list TIDEPacket :=
  match fuel with
  | O => []
  | S fuel =>
      match headers with
      | [] => []
      | _ =>
          let chunk := take MaxTIDEHeaders headers in
          let rest := drop MaxTIDEHeaders headers in
          let endRange :=
            match rest with
            | [] => MaxTIEID
            | _ => default MaxTIEID
                     ((fun h => Header_TIEID (HL_Header h)) <$> last chunk)
            end in
          mkTIDEPacket startRange endRange chunk :: chunkLoop fuel endRange rest
      end
  end.

Definition buildTIDEChunks (headers : list TIEHeaderWithLifeTime) : list TIDEPacket :=
  match headers with
  | [] => [mkTIDEPacket MinTIEID MaxTIEID []]
  | _ => chunkLoop (length headers) MinTIEID headers
  end.

(** The scope-filtered headers of the TIDEs sent to a neighbour. *)
Definition tideHeadersFor (fe : FloodEngine) (neighborLevel : Z)
    : list TIEHeaderWithLifeTime :=
  rev (ForEachSorted (fe_lsdb fe)
    (fun id entry headers =>
       (if ShouldIncludeInTIDE id (fe_systemID fe) (fe_level fe) neighborLevel
        then Entry_Header entry :: headers else headers, true)) []).

Definition tidePacket (fe : FloodEngine) (tide : TIDEPacket) : ProtocolPacket :=
  packetOf fe (zeroPacketContent <| PC_TIDE := Some tide |>).

Definition sendTIDEsToAdj (adj : adjFloodState) (fe : FloodEngine) : FloodEngine :=
  foldl (fun fe tide => sendFloodPacket adj (tidePacket fe tide) 0 fe) fe
    (buildTIDEChunks (tideHeadersFor fe (AI_NeighborLevel (AF_Info adj)))).

Definition generateAndSendTIDEs (fe : FloodEngine) : FloodEngine :=
  foldl (fun fe '((_, adj) : string * adjFloodState) => sendTIDEsToAdj adj fe) fe
    (range_map (fe_adjacencies fe)).

Definition sendTIRE (adj : adjFloodState) (headers : list TIEHeaderWithLifeTime)
    (fe : FloodEngine) : FloodEngine :=
  sendFloodPacket adj
    (packetOf fe (zeroPacketContent <| PC_TIRE := Some (mkTIREPacket headers) |>)) 0 fe.

(** The header of a request: an identifier and lifetime zero. *)
Definition requestHeader (id : TIEID) : TIEHeaderWithLifeTime :=
  mkTIEHeaderWithLifeTime (zeroTIEHeader <| Header_TIEID := id |>) 0.

(** The three parts of [drainAdjQueues]: acknowledgments, requests, TIEs. *)
Definition drainACK (k : string) (adj : adjFloodState) (fe : FloodEngine) : FloodEngine :=
  if bool_decide (TIEsACK adj = ∅) then fe else
  let headers := omap (fun id => Entry_Header <$> Get (fe_lsdb fe) id)
                   (range_set (TIEsACK adj)) in
  let fe := match headers with [] => fe | _ => sendTIRE adj headers fe end in
  updAdj k (fun a => a <| TIEsACK := ∅ |>) fe.

Definition drainREQ (k : string) (adj : adjFloodState) (fe : FloodEngine) : FloodEngine :=
  if bool_decide (TIEsREQ adj = ∅) then fe else
  let fe := sendTIRE adj (requestHeader <$> range_set (TIEsREQ adj)) fe in
  updAdj k (fun a => a <| TIEsREQ := ∅ |>) fe.

Definition drainTX1 (k : string) (adj : adjFloodState) (fe : FloodEngine) (id : TIEID)
    : FloodEngine :=
  match Get (fe_lsdb fe) id with
  | None => dequeueTX k id fe
  | Some entry =>
      let pkt := packetOf fe (zeroPacketContent <| PC_TIE := Some (Entry_Packet entry) |>) in
      dequeueTX k id (sendFloodPacket adj pkt (Entry_RemainingLifetime entry) fe)
  end.

Definition drainTX (k : string) (adj : adjFloodState) (fe : FloodEngine) : FloodEngine :=
  foldl (drainTX1 k adj) fe (range_set (TIEsTX adj)).

Definition drainAdjQueues (fe : FloodEngine) (kadj : string * adjFloodState) : FloodEngine :=
  let '(k, adj) := kadj in drainTX k adj (drainREQ k adj (drainACK k adj fe)).

Definition drainQueues (fe : FloodEngine) : FloodEngine :=
  foldl drainAdjQueues fe (range_map (fe_adjacencies fe)).

(** ** The lifetime tick *)

(** The re-origination callback runs inside [ForEachSorted], that is under one
    read lock of the database. *)
Definition reoriginate (id : TIEID) (entry : LSDBEntry) (st : blocking FloodEngine)
    : blocking FloodEngine * bool :=
  match st with
  | Deadlock => (Deadlock, false)
  | Done fe =>
      if Entry_SelfOriginated entry
         && (Entry_RemainingLifetime entry <? ReoriginateBeforeExpiry)
      then match bumpOwnTIE_locked 1 id fe with
           | Done fe => (Done (floodTIEToAll id fe), true)
           | Deadlock => (Deadlock, false)
           end
      else (Done fe, true)
  end.

(** The first half of [tickLifetimes]: ageing and the removal of expired TIEs. *)
Definition ageTIEs (fe : FloodEngine) : FloodEngine :=
  let '(db, expired) := DecrementLifetimes (fe_lsdb fe) 1 in
  let fe := fe <| fe_lsdb := foldl Remove db expired |> in
  match expired with [] => fe | _ => notifyLSDBChange fe end.

Definition tickLifetimes (fe : FloodEngine) : blocking FloodEngine :=
  let fe := ageTIEs fe in
  ForEachSorted (fe_lsdb fe) reoriginate (Done fe).

(** ** The loop *)

Inductive FloodEvent :=
  | EvAdjChange (change : AdjacencyChange)
  | EvFloodRecv (pkt : ReceivedFloodPkt)
  | EvTideTick
  | EvLifetimeTick
  | EvTxTick
  | EvDisaggUpdate (prefixes : list PrefixEntry)
  | EvTransportTake
  | EvSpfTake.

Definition handleEvent (ev : FloodEvent) (fe : FloodEngine) : blocking FloodEngine :=
  match ev with
  | EvAdjChange change => Done (handleAdjChange change fe)
  | EvFloodRecv pkt => Done (handleFloodPacket pkt fe)
  | EvTideTick => Done (generateAndSendTIDEs fe)
  | EvLifetimeTick => tickLifetimes fe
  | EvTxTick => Done (drainQueues fe)
  | EvDisaggUpdate prefixes => Done (handleDisaggUpdate prefixes fe)
  | EvTransportTake => Done (fe <| fe_FloodSendCh := tail (fe_FloodSendCh fe) |>)
  | EvSpfTake => Done (fe <| fe_LSDBChangeCh := false |>)
  end.

End handlers.

(** A step of [Run], under any order of the map iterations. *)
Inductive flood_step (fe : FloodEngine) : FloodEngine -> Prop :=
  | step_event (R : MapRange) ev fe' :
      handleEvent ev fe = Done fe' -> flood_step fe fe'.

(** The states of an engine started by [NewFloodEngine]. *)
Inductive flood_reachable (systemID level : Z) (nodeName : string)
    (prefixes : list LocalPrefix) : FloodEngine -> Prop :=
  | reach_start :
      flood_reachable systemID level nodeName prefixes
        (NewFloodEngine systemID level nodeName prefixes)
  | reach_step fe fe' :
      flood_reachable systemID level nodeName prefixes fe -> flood_step fe fe' ->
      flood_reachable systemID level nodeName prefixes fe'.
