(* ===== verification/FloodInv.v ===== *)
(** * FloodInv: the invariant of the flood engine and the evolution of its
    database.

    [fe_inv] is the invariant; [evolves_by] relates a state to a later one: the
    invariant is kept, no stored TIE goes back to an older version, and each
    TIE of the node itself is re-originated a bounded number of times.  Most
    operations re-originate nothing ([evolves]). *)

From S2P Require Import Prelude.
From S2P Require Import Types.
From S2P Require Import Lsdb.
From S2P Require Import Scope.
From S2P Require Import FloodState.
From S2P Require Import Flood.

(** ** Definitions *)

(** An entry is filed under its identifier, and is marked self-originated when
    and only when the node is its originator. *)
Definition entry_ok (sys : Z) (id : TIEID) (e : LSDBEntry) : Prop :=
  Entry_TIEID e = id /\ (Entry_SelfOriginated e = true <-> Originator id = sys).

(** Only TIEs of others that the node should hold are requested. *)
Definition requests_ok (fe : FloodEngine) (a : adjFloodState) : Prop :=
  set_Forall (fun id => Originator id <> fe_systemID fe /\
                acceptTIE fe id (AI_NeighborLevel (AF_Info a)) = true) (TIEsREQ a).

Record fe_inv (fe : FloodEngine) : Prop := {
  inv_lsdb : map_Forall (entry_ok (fe_systemID fe)) (fe_lsdb fe);
  inv_req : map_Forall (fun _ a => requests_ok fe a) (fe_adjacencies fe);
  inv_sendch : (length (fe_FloodSendCh fe) <= FloodSendCap)%nat
}.

(** The sequence number after [n] re-originations. *)
Definition bumpedSeq (n : nat) (s : Z) : Z := Nat.iter n (fun s => wrap 64 (s + 1)) s.

(** A later version of a stored TIE, with at most [n] re-originations if it is the
    node's own; without any, the TIE is the same. *)
Definition version_ge (n : nat) (sys : Z) (id : TIEID) (e e' : LSDBEntry) : Prop :=
  if Originator id =? sys then
    exists m, (m <= n)%nat /\ Entry_SeqNr e' = bumpedSeq m (Entry_SeqNr e) /\
      (m = O -> Entry_Packet e' = Entry_Packet e)
  else Entry_SeqNr e <= Entry_SeqNr e'.

Record later (b : TIEID -> nat) (fe fe' : FloodEngine) : Prop := {
  later_inv : fe_inv fe';
  later_sys : fe_systemID fe' = fe_systemID fe;
  later_level : fe_level fe' = fe_level fe;
  later_entry id e : fe_lsdb fe !! id = Some e ->
    exists e', fe_lsdb fe' !! id = Some e' /\ version_ge (b id) (fe_systemID fe) id e e'
}.

(** [b] bounds the re-originations of each TIE. *)
Definition evolves_by (b : TIEID -> nat) (fe fe' : FloodEngine) : Prop :=
  fe_inv fe -> later b fe fe'.

Definition evolves : FloodEngine -> FloodEngine -> Prop := evolves_by (fun _ => O).

(** ** Composition *)

Lemma version_ge_same n sys id e e' :
  Entry_Packet e' = Entry_Packet e -> version_ge n sys id e e'.
Proof.
  intros E. assert (Entry_SeqNr e' = Entry_SeqNr e) as Es by (unfold Entry_SeqNr; by rewrite E).
  unfold version_ge. case_match; [exists O; split; [lia|done]|lia].
Qed.

Lemma version_ge_refl n sys id e : version_ge n sys id e e.
Proof. by apply version_ge_same. Qed.

Lemma version_ge_trans n m sys id e1 e2 e3 :
  version_ge n sys id e1 e2 -> version_ge m sys id e2 e3 -> version_ge (n + m) sys id e1 e3.
Proof.
  unfold version_ge. case_match; [|lia].
  intros (i & Hi & -> & Ei) (j & Hj & -> & Ej). exists (j + i)%nat. split; [lia|]. split.
  - unfold bumpedSeq. by rewrite Nat.iter_add.
  - intros ?. rewrite Ej, Ei by lia. done.
Qed.

Lemma version_ge_weaken n m sys id e e' :
  (n <= m)%nat -> version_ge n sys id e e' -> version_ge m sys id e e'.
Proof. unfold version_ge. case_match; [|done]. intros Hnm (i & Hi & ?). exists i. split; [lia|done]. Qed.

(** Below the largest number a re-origination is an increment. *)
Lemma bumpedSeq_add n s : - 2 ^ 63 <= s -> s + Z.of_nat n < 2 ^ 63 -> bumpedSeq n s = s + Z.of_nat n.
Proof.
  intros Hlo. induction n as [|n IH]; intros Hhi; [cbn; lia|].
  unfold bumpedSeq in *. rewrite Nat.iter_succ, IH by lia.
  rewrite wrap_id; [lia|lia|]. unfold is_int. change (64 - 1) with 63. lia.
Qed.

Lemma version_ge_own n sys id e e' :
  version_ge n sys id e e' -> Originator id = sys ->
  - 2 ^ 63 <= Entry_SeqNr e -> Entry_SeqNr e + Z.of_nat n < 2 ^ 63 ->
  Entry_SeqNr e <= Entry_SeqNr e' <= Entry_SeqNr e + Z.of_nat n /\
  (Entry_SeqNr e' = Entry_SeqNr e -> Entry_Packet e' = Entry_Packet e).
Proof.
  unfold version_ge. intros H <- Hlo Hhi. rewrite Z.eqb_refl in H.
  destruct H as (m & Hm & Es & Ep). rewrite bumpedSeq_add in Es by lia.
  split; [lia|]. intros ?. apply Ep. lia.
Qed.

Lemma evolves_by_trans b1 b2 fe1 fe2 fe3 :
  evolves_by b1 fe1 fe2 -> evolves_by b2 fe2 fe3 -> evolves_by (fun id => b1 id + b2 id)%nat fe1 fe3.
Proof.
  intros H1 H2 Hi. destruct (H1 Hi) as [Hi2 Hs Hl He].
  destruct (H2 Hi2) as [Hi3 Hs' Hl' He']. split; [done|congruence|congruence|].
  intros id e H. destruct (He id e H) as [e2 [E2 V2]].
  destruct (He' id e2 E2) as [e3 [E3 V3]]. exists e3. split; [done|].
  rewrite Hs in V3. eauto using version_ge_trans.
Qed.

Lemma evolves_by_weaken b b' fe fe' :
  (forall id, b id <= b' id)%nat -> evolves_by b fe fe' -> evolves_by b' fe fe'.
Proof.
  intros Hb H Hi. destruct (H Hi) as [? ? ? He]. split; try done.
  intros id e E. destruct (He id e E) as (e' & E' & V). eauto using version_ge_weaken.
Qed.

Lemma evolves_any b fe fe' : evolves fe fe' -> evolves_by b fe fe'.
Proof. apply evolves_by_weaken. lia. Qed.

(** Before or after something that re-originates nothing. *)
Lemma evolves_then b fe1 fe2 fe3 :
  evolves_by b fe1 fe2 -> evolves fe2 fe3 -> evolves_by b fe1 fe3.
Proof.
  intros H1 H2. eapply evolves_by_weaken; [|exact (evolves_by_trans _ _ _ _ _ H1 H2)]. cbn. lia.
Qed.

Lemma evolves_first b fe1 fe2 fe3 :
  evolves fe1 fe2 -> evolves_by b fe2 fe3 -> evolves_by b fe1 fe3.
Proof.
  intros H1 H2. eapply evolves_by_weaken; [|exact (evolves_by_trans _ _ _ _ _ H1 H2)]. cbn. lia.
Qed.

Lemma evolves_refl fe : evolves fe fe.
Proof. intros H. split; eauto using version_ge_refl. Qed.

Lemma evolves_trans fe1 fe2 fe3 : evolves fe1 fe2 -> evolves fe2 fe3 -> evolves fe1 fe3.
Proof. apply evolves_then. Qed.

Lemma evolves_foldl {A} (f : FloodEngine -> A -> FloodEngine) (l : list A) fe :
  (forall fe a, evolves fe (f fe a)) -> evolves fe (foldl f fe l).
Proof.
  intros Hf. revert fe. induction l as [|a l IH]; intros fe; cbn.
  - apply evolves_refl.
  - eapply evolves_trans; [apply Hf|apply IH].
Qed.

Lemma evolves_iterEntries fn l fe :
  (forall id e fe, evolves fe (fn id e fe).1) -> evolves fe (iterEntries fn l fe).
Proof.
  intros Hf. revert fe. induction l as [|[id e] l IH]; intros fe; cbn; [apply evolves_refl|].
  specialize (Hf id e fe). destruct (fn id e fe) as [fe' []]; cbn in *; [|done].
  eapply evolves_trans; [exact Hf|apply IH].
Qed.

(** ** The elementary operations *)

(** Changes outside the database. *)
Lemma evolves_frame fe fe' :
  fe_lsdb fe' = fe_lsdb fe -> fe_systemID fe' = fe_systemID fe ->
  fe_level fe' = fe_level fe ->
  ((length (fe_FloodSendCh fe) <= FloodSendCap)%nat ->
   (length (fe_FloodSendCh fe') <= FloodSendCap)%nat) ->
  (forall k a', fe_adjacencies fe' !! k = Some a' ->
     TIEsREQ a' = ∅ \/
     exists a, fe_adjacencies fe !! k = Some a /\ AF_Info a' = AF_Info a /\
               TIEsREQ a' ⊆ TIEsREQ a) ->
  evolves fe fe'.
Proof.
  intros Hdb Hs Hl Hc Ha [I1 I2 I3]. split; [|done|done|].
  - split; [by rewrite Hdb, Hs| |auto].
    intros k a' E. destruct (Ha k a' E) as [Hr|[a [Ea [Hi Hr]]]].
    + unfold requests_ok. rewrite Hr. apply set_Forall_empty.
    + intros id Hid. specialize (I2 k a Ea id (Hr id Hid)).
      unfold acceptTIE. by rewrite Hs, Hl, Hi.
  - intros id e E. rewrite Hdb. eauto using version_ge_refl.
Qed.

Lemma evolves_updAdj k f fe :
  (forall a, AF_Info (f a) = AF_Info a /\ TIEsREQ (f a) ⊆ TIEsREQ a) ->
  evolves fe (updAdj k f fe).
Proof.
  intros Hf. apply evolves_frame; try done. cbn. intros k' a'.
  destruct (decide (k = k')) as [<-|Hne].
  - rewrite lookup_alter_eq, fmap_Some. intros [a [E ->]]. right. exists a.
    specialize (Hf a). tauto.
  - rewrite lookup_alter_ne by done. intros E. right. eauto.
Qed.

Lemma evolves_enqueueTX k id fe : evolves fe (enqueueTX k id fe).
Proof. by apply evolves_updAdj. Qed.
Lemma evolves_dequeueTX k id fe : evolves fe (dequeueTX k id fe).
Proof. by apply evolves_updAdj. Qed.
Lemma evolves_ackTIE k id fe : evolves fe (ackTIE k id fe).
Proof. by apply evolves_updAdj. Qed.

Lemma evolves_enqueueREQ k id fe adj :
  fe_adjacencies fe !! k = Some adj ->
  Originator id <> fe_systemID fe ->
  acceptTIE fe id (AI_NeighborLevel (AF_Info adj)) = true ->
  evolves fe (enqueueREQ k id fe).
Proof.
  intros Ek Ho Hacc [I1 I2 I3]. split; [split| | |]; try done; cbn.
  - intros k' a'. destruct (decide (k = k')) as [<-|Hne].
    + rewrite lookup_alter_eq, Ek. cbn. intros [= <-].
      apply set_Forall_union; [by apply set_Forall_singleton|]. exact (I2 k adj Ek).
    + rewrite lookup_alter_ne by done. apply I2.
  - eauto using version_ge_refl.
Qed.

Lemma floodToAdj_frame fe id a :
  AF_Info (floodToAdj fe id a) = AF_Info a /\ TIEsREQ (floodToAdj fe id a) = TIEsREQ a.
Proof. unfold floodToAdj. by case_match. Qed.

Lemma evolves_fmap_adj f fe :
  (forall a, AF_Info (f a) = AF_Info a /\ TIEsREQ (f a) = TIEsREQ a) ->
  evolves fe (fe <| fe_adjacencies := f <$> fe_adjacencies fe |>).
Proof.
  intros Hf. apply evolves_frame; try done. cbn. intros k a'.
  rewrite lookup_fmap, fmap_Some. intros [a [E ->]]. right. exists a.
  destruct (Hf a) as [-> ->]. done.
Qed.

Lemma evolves_floodTIEToAll id fe : evolves fe (floodTIEToAll id fe).
Proof. apply evolves_fmap_adj. intros a. apply floodToAdj_frame. Qed.

Lemma evolves_floodTIEToAllExcept id k fe : evolves fe (floodTIEToAllExcept id k fe).
Proof. apply evolves_fmap_adj. intros a. case_match; [done|apply floodToAdj_frame]. Qed.

Lemma evolves_notify fe : evolves fe (notifyLSDBChange fe).
Proof. apply evolves_frame; try done. cbn. eauto. Qed.

Lemma evolves_sendFloodPacket a pkt lt fe : evolves fe (sendFloodPacket a pkt lt fe).
Proof.
  unfold sendFloodPacket. destruct (Nat.ltb_spec (length (fe_FloodSendCh fe)) FloodSendCap);
    [|apply evolves_refl].
  apply evolves_frame; cbn; eauto. rewrite length_app. cbn. lia.
Qed.

(** Storing an entry that is a later version of the stored one. *)
Lemma evolves_store b fe fe' e :
  fe_lsdb fe' = <[Entry_TIEID e := e]> (fe_lsdb fe) ->
  fe_systemID fe' = fe_systemID fe -> fe_level fe' = fe_level fe ->
  fe_adjacencies fe' = fe_adjacencies fe -> fe_FloodSendCh fe' = fe_FloodSendCh fe ->
  (fe_inv fe -> Entry_SelfOriginated e = true <-> Originator (Entry_TIEID e) = fe_systemID fe) ->
  (forall e0, fe_inv fe -> fe_lsdb fe !! Entry_TIEID e = Some e0 ->
     version_ge (b (Entry_TIEID e)) (fe_systemID fe) (Entry_TIEID e) e0 e) ->
  evolves_by b fe fe'.
Proof.
  intros Hdb Hs Hl Ha Hc Hself Hv Hi. pose proof Hi as [I1 I2 I3]. split; [split|done|done|].
  - rewrite Hdb, Hs. apply map_Forall_insert_2; [|done]. split; [done|auto].
  - rewrite Ha. intros k a E. unfold requests_ok, acceptTIE. rewrite Hs, Hl. exact (I2 k a E).
  - by rewrite Hc.
  - intros id e0 E. rewrite Hdb. destruct (decide (Entry_TIEID e = id)) as [<-|Hne].
    + rewrite lookup_insert_eq. eauto.
    + rewrite lookup_insert_ne by done. eauto using version_ge_refl.
Qed.

Lemma version_ge_bump n sys id e e' :
  (1 <= n)%nat -> Originator id = sys -> Entry_SeqNr e' = wrap 64 (Entry_SeqNr e + 1) ->
  version_ge n sys id e e'.
Proof.
  intros Hn <- E. unfold version_ge. rewrite Z.eqb_refl. exists 1%nat. split; [done|]. by split.
Qed.

(** One re-origination of [id]. *)
Definition once (id : TIEID) : TIEID -> nat := fun id' => if decide (id' = id) then 1%nat else O.

Lemma once_id id : once id id = 1%nat.
Proof. unfold once. by rewrite decide_True. Qed.

Lemma evolves_insertSelfOriginated id el fe :
  Originator id = fe_systemID fe -> evolves_by (once id) fe (insertSelfOriginated id el fe).
Proof.
  intros Ho. unfold insertSelfOriginated, Insert. eapply evolves_store; [reflexivity..| |].
  - unfold Entry_TIEID. cbn. by split.
  - unfold Entry_TIEID. cbn. intros e0 Hi E. rewrite once_id. apply version_ge_bump; [lia|done|].
    unfold Get. rewrite E.
    destruct (inv_lsdb _ Hi _ _ E) as [_ Hself]. apply Hself in Ho. by rewrite Ho.
Qed.

Lemma evolves_bumpOwnTIE id fe : evolves_by (once id) fe (bumpOwnTIE id fe).
Proof.
  intros Hi. revert Hi. unfold bumpOwnTIE, Get.
  destruct (fe_lsdb fe !! id) as [e|] eqn:E; [|apply evolves_any, evolves_refl].
  destruct (Entry_SelfOriginated e) eqn:Es; [|apply evolves_any, evolves_refl].
  intros Hi. destruct (inv_lsdb _ Hi _ _ E) as [Hid Hself].
  assert (Entry_TIEID (bumpedEntry e) = id) as Hb by done.
  revert Hi. eapply (evolves_store _ _ _ (bumpedEntry e)); try done.
  - cbn -[bumpedEntry]. rewrite Hb. by rewrite insert_insert_eq.
  - rewrite Hb. intros _. exact Hself.
  - rewrite Hb. intros e0 _ E0. assert (e0 = e) as -> by congruence. rewrite once_id.
    apply version_ge_bump; [lia|by apply Hself|done].
Qed.

(** At most one re-origination. *)
Definition atMostOnce : TIEID -> nat := fun _ => 1%nat.

Lemma evolves_once id fe fe' : evolves_by (once id) fe fe' -> evolves_by atMostOnce fe fe'.
Proof. apply evolves_by_weaken. intros id'. unfold once, atMostOnce. case_decide; lia. Qed.

(** ** The handlers *)

#[export] Hint Resolve evolves_refl evolves_enqueueTX evolves_dequeueTX evolves_ackTIE
  evolves_floodTIEToAll evolves_floodTIEToAllExcept evolves_notify
  evolves_sendFloodPacket : rift.

(** Peel the operations of a composition, the last one first. *)
Ltac evolve :=
  repeat first
    [ eassumption
    | solve [auto with rift nocore]
    | eapply evolves_trans;
        [| first [ apply evolves_notify | apply evolves_floodTIEToAll
                 | apply evolves_floodTIEToAllExcept | apply evolves_ackTIE
                 | apply evolves_dequeueTX | apply evolves_sendFloodPacket ] ] ].

(** What re-originates nothing, as part of something that may. *)
Ltac idle := solve [apply evolves_any; auto with rift nocore].

Section handlers.
Context {R : MapRange}.

Lemma evolves_originateSelfTIEs fe : evolves_by atMostOnce fe (originateSelfTIEs fe).2.
Proof.
  unfold originateSelfTIEs, originateNorthNodeTIE, originateNorthPrefixTIE,
    originateSouthNodeTIE, originateSouthPrefixTIE.
  case_match; cbn [snd]; (eapply evolves_by_weaken;
    [|repeat first [by apply evolves_insertSelfOriginated
                   |eapply evolves_by_trans; [|by apply evolves_insertSelfOriginated]]]);
    intros id; unfold once, atMostOnce, selfTIEID; cbn; repeat case_decide; try lia;
    simplify_eq.
Qed.

Lemma evolves_setAdjacencies fe adjs :
  (forall k a, adjs !! k = Some a -> TIEsREQ a = ∅ \/ fe_adjacencies fe !! k = Some a) ->
  evolves fe (fe <| fe_adjacencies := adjs |>).
Proof.
  intros H. apply evolves_frame; try done. cbn. intros k a [E|E]%H; [by left|].
  right. eauto.
Qed.

Lemma evolves_handleAdjChange change fe : evolves_by atMostOnce fe (handleAdjChange change fe).
Proof.
  unfold handleAdjChange. set (fe1 := fe <| fe_adjacencies := _ |>).
  assert (evolves fe fe1) as H1.
  { apply evolves_setAdjacencies. intros k a. case_match.
    - intros [[_ <-]|[_ ?]]%lookup_insert_Some; auto.
    - intros [_ ?]%lookup_delete_Some. auto. }
  pose proof (evolves_originateSelfTIEs fe1) as H2.
  destruct (originateSelfTIEs fe1) as [changed fe2].
  eapply evolves_first; [exact H1|]. eapply evolves_then; [exact H2|].
  eapply evolves_trans; [|apply evolves_notify]. apply evolves_foldl. auto with rift.
Qed.

Lemma evolves_handleDisaggUpdate prefixes fe : evolves_by atMostOnce fe (handleDisaggUpdate prefixes fe).
Proof.
  unfold handleDisaggUpdate.
  assert (evolves_by atMostOnce fe (OriginatePositiveDisaggTIE prefixes fe).2) as H.
  { unfold OriginatePositiveDisaggTIE.
    repeat case_match; cbn [snd]; first [by apply evolves_any, evolves_refl
      |by eapply evolves_once, evolves_insertSelfOriginated]. }
  destruct (OriginatePositiveDisaggTIE prefixes fe) as [[id []] fe']; cbn in H; [|done].
  eapply evolves_then; [exact H|]. evolve.
Qed.

(** Installing a TIE of another node that is not older than the stored one. *)
Lemma evolves_installTIE k tie fe :
  Originator (Header_TIEID (TIE_Header tie)) <> fe_systemID fe ->
  (forall e, fe_lsdb fe !! Header_TIEID (TIE_Header tie) = Some e ->
     0 <= CompareTIEHeader (receivedHeader tie) (Entry_Header e)) ->
  evolves fe (installTIE k tie fe).
Proof.
  intros Ho Hv. unfold installTIE.
  eapply evolves_trans; [|apply evolves_notify].
  eapply evolves_trans; [|apply evolves_floodTIEToAllExcept].
  eapply evolves_trans; [|apply evolves_ackTIE].
  eapply (evolves_store _ _ _ (receivedEntry tie)); [reflexivity..| |].
  - intros _. cbn. split; [done|]. intros E. by destruct Ho.
  - intros e _ E. unfold version_ge. apply Z.eqb_neq in Ho.
    unfold Entry_TIEID in *. cbn in *. rewrite Ho.
    by apply (CompareTIEHeader_seq_le (receivedHeader tie) (Entry_Header e)), Hv.
Qed.

(** The reaction to a newer version of an own TIE. *)
Lemma evolves_reoriginate id fe : evolves_by atMostOnce fe (floodTIEToAll id (bumpOwnTIE id fe)).
Proof. eapply evolves_then; [eapply evolves_once, evolves_bumpOwnTIE|]. auto with rift. Qed.

Lemma evolves_handleTIE k tie fe : evolves_by atMostOnce fe (handleTIE k tie fe).
Proof.
  unfold handleTIE, Get. destruct (fe_adjacencies fe !! k) as [adj|]; [|idle].
  destruct (fe_lsdb fe !! _) as [e|] eqn:E.
  - rewrite Z.gtb_ltb. destruct (Z.ltb_spec 0 (CompareTIEHeader (receivedHeader tie)
      (Entry_Header e))); [|case_match; idle].
    destruct (Z.eqb_spec (Originator (Header_TIEID (TIE_Header tie))) (fe_systemID fe)).
    + apply evolves_reoriginate.
    + apply evolves_any, evolves_installTIE; [done|]. intros e0 E0.
      assert (e0 = e) as -> by congruence. lia.
  - destruct (Z.eqb_spec (Originator (Header_TIEID (TIE_Header tie))) (fe_systemID fe)).
    + apply evolves_reoriginate.
    + case_match; [|idle]. apply evolves_any, evolves_installTIE; [done|]. congruence.
Qed.

End handlers.

(** ** What stays the same

    Every operation but [handleAdjChange] keeps the identity of the node and
    the adjacencies' information. *)
Record stable (fe fe' : FloodEngine) : Prop := {
  st_adj : Adjacencies fe' = Adjacencies fe;
  st_sys : fe_systemID fe' = fe_systemID fe;
  st_level : fe_level fe' = fe_level fe
}.

#[export] Instance stable_preorder : PreOrder stable.
Proof.
  split; [by split|]. intros fe1 fe2 fe3 [] []. split; congruence.
Qed.

Lemma stable_fmap f fe :
  (forall a, AF_Info (f a) = AF_Info a) ->
  stable fe (fe <| fe_adjacencies := f <$> fe_adjacencies fe |>).
Proof.
  intros Hf. split; [|done..]. unfold Adjacencies. cbn. rewrite <-map_fmap_compose.
  apply map_fmap_ext. intros k a _. apply Hf.
Qed.

Lemma stable_updAdj k f fe :
  (forall a, AF_Info (f a) = AF_Info a) -> stable fe (updAdj k f fe).
Proof.
  intros Hf. split; [|done..]. apply map_eq. intros k'. unfold Adjacencies. cbn.
  rewrite !lookup_fmap. destruct (decide (k = k')) as [<-|Hne].
  - rewrite lookup_alter_eq. destruct (fe_adjacencies fe !! k); cbn; by rewrite ?Hf.
  - by rewrite lookup_alter_ne.
Qed.

Lemma stable_enqueueTX k id fe : stable fe (enqueueTX k id fe).
Proof. by apply stable_updAdj. Qed.
Lemma stable_dequeueTX k id fe : stable fe (dequeueTX k id fe).
Proof. by apply stable_updAdj. Qed.
Lemma stable_ackTIE k id fe : stable fe (ackTIE k id fe).
Proof. by apply stable_updAdj. Qed.
Lemma stable_enqueueREQ k id fe : stable fe (enqueueREQ k id fe).
Proof. by apply stable_updAdj. Qed.
Lemma stable_floodTIEToAll id fe : stable fe (floodTIEToAll id fe).
Proof. apply stable_fmap. intros a. apply floodToAdj_frame. Qed.
Lemma stable_floodTIEToAllExcept id k fe : stable fe (floodTIEToAllExcept id k fe).
Proof. apply stable_fmap. intros a. case_match; [done|apply floodToAdj_frame]. Qed.
Lemma stable_notify fe : stable fe (notifyLSDBChange fe).
Proof. done. Qed.
Lemma stable_sendFloodPacket a pkt lt fe : stable fe (sendFloodPacket a pkt lt fe).
Proof. unfold sendFloodPacket. by case_match. Qed.
Lemma stable_insertSelfOriginated id el fe : stable fe (insertSelfOriginated id el fe).
Proof. done. Qed.
Lemma stable_bumpOwnTIE id fe : stable fe (bumpOwnTIE id fe).
Proof. unfold bumpOwnTIE. by repeat case_match. Qed.
Lemma stable_originateSelfTIEs {R : MapRange} fe : stable fe (originateSelfTIEs fe).2.
Proof.
  unfold originateSelfTIEs, originateNorthNodeTIE, originateNorthPrefixTIE,
    originateSouthNodeTIE, originateSouthPrefixTIE. by case_match.
Qed.

#[export] Hint Resolve stable_enqueueTX stable_dequeueTX stable_ackTIE stable_enqueueREQ
  stable_floodTIEToAll stable_floodTIEToAllExcept stable_notify stable_sendFloodPacket
  stable_insertSelfOriginated stable_bumpOwnTIE stable_originateSelfTIEs : rift.

Lemma stable_foldl {A} (f : FloodEngine -> A -> FloodEngine) (l : list A) fe :
  (forall fe a, stable fe (f fe a)) -> stable fe (foldl f fe l).
Proof.
  intros Hf. revert fe. induction l as [|a l IH]; intros fe; cbn; [done|].
  etrans; [apply Hf|apply IH].
Qed.

(** The information of an adjacency survives a stable change. *)
Lemma stable_lookup fe fe' k adj :
  stable fe fe' -> fe_adjacencies fe !! k = Some adj ->
  exists adj', fe_adjacencies fe' !! k = Some adj' /\ AF_Info adj' = AF_Info adj.
Proof.
  intros [Ha _ _] E. assert (Adjacencies fe' !! k = Some (AF_Info adj)) as E'.
  { rewrite Ha. unfold Adjacencies. by rewrite lookup_fmap, E. }
  unfold Adjacencies in E'. rewrite lookup_fmap, fmap_Some in E'.
  destruct E' as [adj' [E' Hi]]. eauto.
Qed.

Section handlers.
Context {R : MapRange}.

Lemma stable_tideHeader k lvl fe hdr : stable fe (tideHeader k lvl fe hdr).
Proof.
  unfold tideHeader. cbv zeta. repeat case_match; auto with rift; try done.
  - etrans; [apply stable_bumpOwnTIE|]. auto with rift.
  - etrans; [apply stable_originateSelfTIEs|]. auto with rift.
Qed.

Lemma evolves_tideHeader k adj fe hdr :
  fe_adjacencies fe !! k = Some adj ->
  evolves_by atMostOnce fe (tideHeader k (AI_NeighborLevel (AF_Info adj)) fe hdr).
Proof.
  intros Ek. unfold tideHeader, Get.
  destruct (fe_lsdb fe !! _) as [e|] eqn:E.
  - case_match; [|case_match; idle].
    destruct (Z.eqb_spec (Originator (Header_TIEID (HL_Header hdr))) (fe_systemID fe)).
    + apply evolves_reoriginate.
    + case_match; [|idle]. apply evolves_any. eauto using evolves_enqueueREQ.
  - destruct (Z.eqb_spec (Originator (Header_TIEID (HL_Header hdr))) (fe_systemID fe)).
    + eapply evolves_then; [apply evolves_originateSelfTIEs|]. auto with rift.
    + case_match; [|idle]. apply evolves_any. eauto using evolves_enqueueREQ.
Qed.

Lemma evolves_tideHeaders k adj l fe :
  fe_adjacencies fe !! k = Some adj ->
  evolves_by (fun _ => length l) fe (foldl (tideHeader k (AI_NeighborLevel (AF_Info adj))) fe l).
Proof.
  revert fe adj. induction l as [|h l IH]; intros fe adj Ek; cbn [foldl length]; [idle|].
  apply (evolves_by_trans atMostOnce (fun _ => length l) _ (tideHeader k (AI_NeighborLevel (AF_Info adj)) fe h));
    [by apply evolves_tideHeader|].
  destruct (stable_lookup _ _ _ _ (stable_tideHeader k (AI_NeighborLevel (AF_Info adj)) fe h) Ek)
    as [adj' [E' Hi]].
  rewrite <-Hi in *. by apply IH.
Qed.

Lemma evolves_handleTIDE k tide fe :
  evolves_by (fun _ => length (TIDE_Headers tide)) fe (handleTIDE k tide fe).
Proof.
  unfold handleTIDE. destruct (fe_adjacencies fe !! k) as [adj|] eqn:Ek; [|idle].
  eapply evolves_then; [by apply evolves_tideHeaders|].
  apply evolves_iterEntries. intros id e fe'. unfold tideMissing.
  repeat case_match; cbn [fst]; auto with rift.
Qed.

Lemma evolves_handleTIRE k tire fe : evolves fe (handleTIRE k tire fe).
Proof.
  unfold handleTIRE. case_match; [|auto with rift]. apply evolves_foldl.
  intros fe' hdr. unfold tireHeader. repeat case_match; auto with rift.
Qed.

(** How often a packet may make the node re-originate one of its TIEs. *)
Definition packetBumps (rpkt : ReceivedFloodPkt) : nat :=
  let content := PP_Content (RF_Packet rpkt) in
  match PC_TIE content, PC_TIDE content with
  | Some _, _ => 1
  | None, Some tide => length (TIDE_Headers tide)
  | None, None => 0
  end.

Lemma evolves_handleFloodPacket rpkt fe :
  evolves_by (fun _ => packetBumps rpkt) fe (handleFloodPacket rpkt fe).
Proof.
  unfold handleFloodPacket, packetBumps. repeat case_match; try idle.
  - apply evolves_handleTIE.
  - apply evolves_handleTIDE.
  - apply evolves_any, evolves_handleTIRE.
Qed.

Lemma evolves_generateAndSendTIDEs fe : evolves fe (generateAndSendTIDEs fe).
Proof.
  apply evolves_foldl. intros fe' [k adj]. apply evolves_foldl. auto with rift.
Qed.

Lemma evolves_drainAdjQueues fe kadj : evolves fe (drainAdjQueues fe kadj).
Proof.
  destruct kadj as [k adj]. unfold drainAdjQueues.
  assert (forall fe, evolves fe (drainACK k adj fe)) as HA.
  { intros fe'. unfold drainACK, sendTIRE. case_bool_decide; [auto with rift|]. cbv zeta.
    eapply evolves_trans;
      [|apply evolves_updAdj; intros a; cbn; done].
    case_match; auto with rift. }
  assert (forall fe, evolves fe (drainREQ k adj fe)) as HR.
  { intros fe'. unfold drainREQ, sendTIRE. case_bool_decide; [auto with rift|]. cbv zeta.
    eapply evolves_trans; [|apply evolves_updAdj; intros a; cbn; set_solver].
    auto with rift. }
  eapply evolves_trans; [apply HA|]. eapply evolves_trans; [apply HR|].
  apply evolves_foldl. intros fe' id. unfold drainTX1. case_match; evolve.
Qed.

Lemma evolves_drainQueues fe : evolves fe (drainQueues fe).
Proof. apply evolves_foldl, evolves_drainAdjQueues. Qed.

End handlers.

(** ** The lifetime tick *)

Lemma lookup_foldl_Remove db l id :
  foldl Remove db l !! id = if decide (id ∈ l) then None else db !! id.
Proof.
  revert db. induction l as [|k l IH]; intros db; cbn [foldl].
  { by rewrite decide_False by apply not_elem_of_nil. }
  rewrite IH. unfold Remove. destruct (decide (id ∈ l)) as [Hin|Hin].
  { by rewrite decide_True by by right. }
  destruct (decide (k = id)) as [->|Hne].
  - rewrite decide_True by left. apply lookup_delete_eq.
  - rewrite decide_False by (set_solver).
    by rewrite lookup_delete_ne.
Qed.

(** The entry after one second, [None] once its lifetime runs out. *)
Definition agedEntry (e : LSDBEntry) : option LSDBEntry :=
  let e' := decrementEntry 1 e in
  if Entry_RemainingLifetime e' <=? 0 then None else Some e'.

Lemma ageTIEs_lookup fe id :
  fe_lsdb (ageTIEs fe) !! id = fe_lsdb fe !! id ≫= agedEntry.
Proof.
  unfold ageTIEs, DecrementLifetimes.
  set (db := decrementEntry 1 <$> fe_lsdb fe). set (l := fmap fst _).
  transitivity (foldl Remove db l !! id); [by case_match|].
  rewrite lookup_foldl_Remove. unfold agedEntry.
  assert (db !! id = decrementEntry 1 <$> fe_lsdb fe !! id) as Hdb by apply lookup_fmap.
  assert (id ∈ l <-> exists e, db !! id = Some e /\ Entry_RemainingLifetime e <= 0) as Hl.
  { unfold l. rewrite list_elem_of_fmap. split.
    - intros [[k e] [-> [H1 H2%elem_of_map_to_list]%list_elem_of_filter]]. eauto.
    - intros [e [H1 H2]]. exists (id, e). split; [done|].
      apply list_elem_of_filter. split; [done|]. by apply elem_of_map_to_list. }
  destruct (fe_lsdb fe !! id) as [e|]; cbn -[decrementEntry] in *.
  - destruct (Z.leb_spec (Entry_RemainingLifetime (decrementEntry 1 e)) 0).
    + rewrite decide_True; [done|]. apply Hl. eauto.
    + rewrite decide_False; [done|]. rewrite Hl. intros [e' [E ?]].
      rewrite Hdb in E. injection E as <-. lia.
  - by case_decide.
Qed.

Lemma stable_ageTIEs fe : stable fe (ageTIEs fe).
Proof. unfold ageTIEs. destruct (DecrementLifetimes _ _). by case_match. Qed.

Lemma ageTIEs_frame fe :
  fe_adjacencies (ageTIEs fe) = fe_adjacencies fe /\
  fe_FloodSendCh (ageTIEs fe) = fe_FloodSendCh fe.
Proof. unfold ageTIEs. destruct (DecrementLifetimes _ _). by case_match. Qed.

Lemma ageTIEs_inv fe : fe_inv fe -> fe_inv (ageTIEs fe).
Proof.
  intros [I1 I2 I3]. destruct (stable_ageTIEs fe) as [_ Hs Hl].
  destruct (ageTIEs_frame fe) as [Ha Hc]. split.
  - intros id e. rewrite ageTIEs_lookup, Hs, bind_Some. intros [e0 [E0 E]].
    unfold agedEntry in E. case_match; [done|]. injection E as <-. exact (I1 id e0 E0).
  - rewrite Ha. intros k a E. unfold requests_ok, acceptTIE. rewrite Hs, Hl. exact (I2 k a E).
  - by rewrite Hc.
Qed.

(** An entry the tick wants to re-originate. *)
Definition dueEntry (e : LSDBEntry) : bool :=
  Entry_SelfOriginated e && (Entry_RemainingLifetime e <? ReoriginateBeforeExpiry).

Lemma iter_reoriginate l fe :
  (forall id e, (id, e) ∈ l -> fe_lsdb fe !! id = Some e) ->
  iterEntries reoriginate l (Done fe)
  = if existsb (fun kv => dueEntry kv.2) l then Deadlock else Done fe.
Proof.
  induction l as [|[id e] l IH]; intros Hl; [done|]. cbn [iterEntries existsb snd].
  unfold reoriginate at 1. fold (dueEntry e). destruct (dueEntry e) eqn:Hd; cbn [orb].
  - unfold bumpOwnTIE_locked, Get. rewrite (Hl id e) by left.
    unfold dueEntry in Hd. apply andb_true_iff in Hd as [-> _]. done.
  - apply IH. intros id' e' H. apply Hl. by right.
Qed.

Lemma tickLifetimes_eq fe :
  tickLifetimes fe =
    if existsb (fun kv => dueEntry kv.2) (sortedEntries (fe_lsdb (ageTIEs fe)))
    then Deadlock else Done (ageTIEs fe).
Proof.
  apply iter_reoriginate. intros id e. apply elem_of_sortedEntries.
Qed.

(** The second before: a self-originated entry that stays in the database with
    less than [ReoriginateBeforeExpiry] seconds. *)
Definition dueNext (e : LSDBEntry) : Prop :=
  Entry_SelfOriginated e = true /\
  0 < wrap 32 (Entry_RemainingLifetime e - 1) < ReoriginateBeforeExpiry.

Lemma existsb_due fe :
  existsb (fun kv => dueEntry kv.2) (sortedEntries (fe_lsdb (ageTIEs fe))) = true <->
  exists id e, fe_lsdb fe !! id = Some e /\ dueNext e.
Proof.
  rewrite existsb_exists. split.
  - intros [[id e'] [Hin%list_elem_of_In Hd]]. apply elem_of_sortedEntries in Hin.
    rewrite ageTIEs_lookup, bind_Some in Hin. destruct Hin as [e [E Ha]]. exists id, e.
    split; [done|]. unfold agedEntry in Ha. unfold dueEntry in Hd.
    destruct (Z.leb_spec (Entry_RemainingLifetime (decrementEntry 1 e)) 0); [done|].
    injection Ha as <-. apply andb_true_iff in Hd as [Hs Hl%Z.ltb_lt]. by split.
  - intros [id [e [E [Hs Hl]]]]. exists (id, decrementEntry 1 e).
    split; [|unfold dueEntry; apply andb_true_iff; split; [done|apply Z.ltb_lt; cbn; lia]].
    apply list_elem_of_In, elem_of_sortedEntries. rewrite ageTIEs_lookup, E. cbn -[decrementEntry].
    unfold agedEntry. destruct (Z.leb_spec (Entry_RemainingLifetime (decrementEntry 1 e)) 0)
      as [H|H]; [|done]. cbn in H. lia.
Qed.

Lemma tickLifetimes_done fe fe' :
  tickLifetimes fe = Done fe' -> fe' = ageTIEs fe.
Proof. rewrite tickLifetimes_eq. case_match; [done|]. by intros [= <-]. Qed.

(** ** Every reachable state satisfies the invariant *)

Lemma fe_inv_start systemID level nodeName prefixes :
  fe_inv (NewFloodEngine systemID level nodeName prefixes).
Proof. split; cbn; [apply map_Forall_empty..|unfold FloodSendCap; lia]. Qed.

(** How often an event may make the node re-originate one of its TIEs. *)
Definition eventBumps (ev : FloodEvent) : nat :=
  match ev with
  | EvAdjChange _ | EvDisaggUpdate _ => 1
  | EvFloodRecv rpkt => packetBumps rpkt
  | _ => 0
  end.

Lemma evolves_handleEvent {R : MapRange} ev fe fe' :
  ev <> EvLifetimeTick -> handleEvent ev fe = Done fe' ->
  evolves_by (fun _ => eventBumps ev) fe fe'.
Proof.
  intros Hev. destruct ev; cbn [handleEvent eventBumps]; [..|done| | | |]; try done; intros [= <-].
  - apply evolves_handleAdjChange.
  - apply evolves_handleFloodPacket.
  - apply evolves_generateAndSendTIDEs.
  - apply evolves_drainQueues.
  - apply evolves_handleDisaggUpdate.
  - apply evolves_frame; cbn; eauto. intros H.
    destruct (fe_FloodSendCh fe); cbn in *; lia.
  - apply evolves_frame; cbn; eauto.
Qed.

Lemma fe_inv_step fe fe' : fe_inv fe -> flood_step fe fe' -> fe_inv fe'.
Proof.
  intros Hi [R ev fe1 E].
  assert (ev = EvLifetimeTick \/ ev <> EvLifetimeTick) as [->|Hev]
    by (destruct ev; auto).
  - apply tickLifetimes_done in E as ->. by apply ageTIEs_inv.
  - by apply (evolves_handleEvent ev fe fe1 Hev E).
Qed.
