(* ===== verification/FloodTide.v ===== *)
(** * FloodTide: the TIDE exchange.

    The chunks a sender builds, and what a receiver queues for one TIDE. *)

From S2P Require Import Prelude.
From S2P Require Import Types.
From S2P Require Import Lsdb.
From S2P Require Import Scope.
From S2P Require Import FloodState.
From S2P Require Import Flood.
From S2P Require Import FloodInv.

(** ** The chunks *)

Abbreviation headerID := (fun h => Header_TIEID (HL_Header h)).

(** The chunks follow one another from [start] to [MaxTIEID]: each begins where
    the previous one ended. *)
Fixpoint tiles (start : TIEID) (chunks : list TIDEPacket) : Prop :=
  match chunks with
  | [] => False
  | c :: cs =>
      TIDE_StartRange c = start /\
      match cs with
      | [] => TIDE_EndRange c = MaxTIEID
      | _ => tiles (TIDE_EndRange c) cs
      end
  end.

Definition in_range (tide : TIDEPacket) (id : TIEID) : Prop :=
  CompareTIEID (TIDE_StartRange tide) id <= 0 /\ CompareTIEID id (TIDE_EndRange tide) <= 0.

#[export] Instance in_range_dec tide id : Decision (in_range tide id).
Proof. unfold in_range. apply _. Defined.

Lemma chunkLoop_cons fuel start h hs :
  chunkLoop (S fuel) start (h :: hs) =
  let endRange := match drop MaxTIDEHeaders (h :: hs) with
                  | [] => MaxTIEID
                  | _ => default MaxTIEID (headerID <$> last (take MaxTIDEHeaders (h :: hs)))
                  end in
  mkTIDEPacket start endRange (take MaxTIDEHeaders (h :: hs)) ::
  chunkLoop fuel endRange (drop MaxTIDEHeaders (h :: hs)).
Proof. reflexivity. Qed.

(** Induction over the chunks: the rest is shorter, and empty exactly at the
    last chunk. *)
Lemma chunk_rest_lt h (hs : list TIEHeaderWithLifeTime) fuel :
  (length (h :: hs) <= S fuel)%nat -> (length (drop MaxTIDEHeaders (h :: hs)) <= fuel)%nat.
Proof. rewrite length_drop. unfold MaxTIDEHeaders. cbn. lia. Qed.

Lemma chunkLoop_headers fuel start hs :
  (length hs <= fuel)%nat -> concat (TIDE_Headers <$> chunkLoop fuel start hs) = hs.
Proof.
  revert start hs. induction fuel as [|fuel IH]; intros start [|h hs] Hf; try done.
  { cbn in Hf. lia. }
  rewrite chunkLoop_cons. cbv zeta. rewrite fmap_cons. cbn [concat TIDE_Headers].
  rewrite IH by by apply chunk_rest_lt. apply take_drop.
Qed.

Lemma chunkLoop_length fuel start hs :
  Forall (fun c => (1 <= length (TIDE_Headers c) <= MaxTIDEHeaders)%nat)
    (chunkLoop fuel start hs).
Proof.
  revert start hs. induction fuel as [|fuel IH]; intros start [|h hs]; try by constructor.
  rewrite chunkLoop_cons. constructor; [|apply IH]. cbn [TIDE_Headers].
  rewrite length_take. unfold MaxTIDEHeaders. cbn [length]. lia.
Qed.

Lemma chunkLoop_tiles fuel start hs :
  (length hs <= fuel)%nat -> hs <> [] -> tiles start (chunkLoop fuel start hs).
Proof.
  revert start hs. induction fuel as [|fuel IH]; intros start [|h hs] Hf Hne; try done.
  { cbn in Hf. lia. }
  rewrite chunkLoop_cons. cbv zeta. apply chunk_rest_lt in Hf.
  set (rest := drop MaxTIDEHeaders (h :: hs)) in *.
  set (e := match rest with [] => MaxTIEID | _ => _ end).
  split; [done|]. destruct rest as [|h' hs'] eqn:Er.
  - destruct fuel; done.
  - specialize (IH e (h' :: hs') Hf). destruct fuel; [cbn in Hf; lia|].
    rewrite chunkLoop_cons in IH |- *. apply IH. done.
Qed.

Lemma tiles_cover start chunks id :
  tiles start chunks -> CompareTIEID start id <= 0 -> CompareTIEID id MaxTIEID <= 0 ->
  exists c, c ∈ chunks /\ in_range c id.
Proof.
  revert start. induction chunks as [|c cs IH]; intros start; [done|]. intros [<- Ht] Hs He.
  destruct cs as [|c' cs].
  - exists c. split; [left|]. split; [done|]. by rewrite Ht.
  - destruct (Z_le_gt_dec (CompareTIEID id (TIDE_EndRange c)) 0) as [H|H].
    + exists c. split; [left|done].
    + destruct (IH _ Ht) as [c2 [Hin Hr]]; [|done|].
      * rewrite CompareTIEID_antisym. lia.
      * exists c2. split; [by right|done].
Qed.

(** *** The listed headers lie in their chunk's range *)

Lemma StronglySorted_app_le {A} (P : A -> A -> Prop) l1 l2 a b :
  StronglySorted P (l1 ++ l2) -> a ∈ l1 -> b ∈ l2 -> P a b.
Proof.
  induction l1 as [|x l1 IH]; cbn; [by intros _ ?%not_elem_of_nil|].
  intros [Hs Hall]%StronglySorted_inv [->|Ha]%elem_of_cons Hb; [|by apply IH].
  rewrite Forall_forall in Hall. apply Hall. apply elem_of_app. by right.
Qed.

Lemma StronglySorted_last {A} (P : A -> A -> Prop) l a z :
  StronglySorted P l -> last l = Some z -> a ∈ l -> a = z \/ P a z.
Proof.
  intros Hs Hz. apply last_Some in Hz as [l' ->]. intros [Ha|Ha]%elem_of_app.
  - right. eapply StronglySorted_app_le; [exact Hs|exact Ha|]. by left.
  - left. by apply list_elem_of_singleton in Ha.
Qed.

Lemma StronglySorted_app_inv {A} (P : A -> A -> Prop) l1 l2 :
  StronglySorted P (l1 ++ l2) -> StronglySorted P l1 /\ StronglySorted P l2.
Proof.
  induction l1 as [|a l1 IH]; cbn; [by split; [constructor|]|].
  intros [Hs Hall]%StronglySorted_inv. apply IH in Hs as [H1 H2]. split; [|done].
  constructor; [done|]. by apply Forall_app in Hall as [? _].
Qed.

Lemma chunkLoop_in_range fuel start hs :
  StronglySorted TIEID_lt (headerID <$> hs) ->
  Forall (fun h => CompareTIEID start (headerID h) <= 0 /\
                   CompareTIEID (headerID h) MaxTIEID <= 0) hs ->
  Forall (fun c => Forall (in_range c) (tideIDs c)) (chunkLoop fuel start hs).
Proof.
  revert start hs. induction fuel as [|fuel IH]; intros start [|h hs] Hs Hb; try by constructor.
  rewrite chunkLoop_cons. cbv zeta. set (e := match drop _ _ with [] => _ | _ => _ end).
  rewrite <-(take_drop MaxTIDEHeaders (h :: hs)), fmap_app in Hs.
  rewrite <-(take_drop MaxTIDEHeaders (h :: hs)) in Hb.
  set (c := take MaxTIDEHeaders (h :: hs)) in *. set (r := drop MaxTIDEHeaders (h :: hs)) in *.
  pose proof (StronglySorted_app_inv _ _ _ Hs) as [Hsc Hsr].
  apply Forall_app in Hb as [Hbc Hbr].
  destruct (last c) as [z|] eqn:Hz.
  2:{ apply last_None in Hz. unfold c, MaxTIDEHeaders in Hz. done. }
  assert (forall id, id ∈ headerID <$> c -> CompareTIEID id e <= 0) as Hend.
  { intros id Hid. unfold e. destruct r eqn:Er.
    - apply list_elem_of_fmap in Hid as [h' [-> Hh]]. rewrite Forall_forall in Hbc.
      by apply Hbc.
    - cbn [fmap option_fmap option_map default]. apply CompareTIEID_le.
      destruct (StronglySorted_last TIEID_lt (headerID <$> c) id (headerID z)) as [->|]; auto.
      by rewrite fmap_last, Hz. }
  constructor.
  - apply Forall_forall. intros id Hid. split; [|by apply Hend].
    apply list_elem_of_fmap in Hid as [h' [-> Hh]]. rewrite Forall_forall in Hbc.
    by apply Hbc.
  - apply IH; [done|]. rewrite Forall_forall in Hbr |- *. intros h' Hh. split; [|by apply Hbr].
    unfold e. destruct r as [|r1 r2] eqn:Er; [by apply not_elem_of_nil in Hh|].
    cbn [fmap option_fmap option_map default].
    apply CompareTIEID_le. left. eapply StronglySorted_app_le; [exact Hs| |].
    + apply list_elem_of_fmap. exists z. split; [done|].
      apply last_Some in Hz as [l' ->]. apply elem_of_app. right. by left.
    + apply list_elem_of_fmap. eauto.
Qed.

(** ** The queues behind a pointer *)

Definition txOf (fe : FloodEngine) (k : string) : gset TIEID :=
  match fe_adjacencies fe !! k with Some a => TIEsTX a | None => ∅ end.
Definition reqOf (fe : FloodEngine) (k : string) : gset TIEID :=
  match fe_adjacencies fe !! k with Some a => TIEsREQ a | None => ∅ end.
Definition ackOf (fe : FloodEngine) (k : string) : gset TIEID :=
  match fe_adjacencies fe !! k with Some a => TIEsACK a | None => ∅ end.

Section queues.
Context (k : string) (fe : FloodEngine) (adj : adjFloodState).
Hypothesis Hk : fe_adjacencies fe !! k = Some adj.

Lemma txOf_enqueueTX id : txOf (enqueueTX k id fe) k = {[id]} ∪ txOf fe k.
Proof. unfold txOf. cbn. by rewrite lookup_alter_eq, Hk. Qed.
Lemma txOf_dequeueTX id : txOf (dequeueTX k id fe) k = txOf fe k ∖ {[id]}.
Proof. unfold txOf. cbn. by rewrite lookup_alter_eq, Hk. Qed.
Lemma txOf_enqueueREQ id : txOf (enqueueREQ k id fe) k = txOf fe k.
Proof. unfold txOf. cbn. by rewrite lookup_alter_eq, Hk. Qed.
Lemma reqOf_enqueueREQ id : reqOf (enqueueREQ k id fe) k = {[id]} ∪ reqOf fe k.
Proof. unfold reqOf. cbn. by rewrite lookup_alter_eq, Hk. Qed.
End queues.

(** An operation that leaves the request queues alone. *)
Lemma reqOf_updAdj k f fe k' :
  (forall a, TIEsREQ (f a) = TIEsREQ a) -> reqOf (updAdj k f fe) k' = reqOf fe k'.
Proof.
  intros Hf. unfold reqOf. cbn. destruct (decide (k = k')) as [<-|Hne].
  - rewrite lookup_alter_eq. by destruct (fe_adjacencies fe !! k); cbn.
  - by rewrite lookup_alter_ne.
Qed.

Lemma reqOf_floodTIEToAll id fe k : reqOf (floodTIEToAll id fe) k = reqOf fe k.
Proof.
  unfold reqOf. cbn. rewrite lookup_fmap. destruct (fe_adjacencies fe !! k) as [a|]; [|done].
  cbn. apply floodToAdj_frame.
Qed.

Lemma reqOf_same fe fe' k :
  fe_adjacencies fe' = fe_adjacencies fe -> reqOf fe' k = reqOf fe k.
Proof. unfold reqOf. by intros ->. Qed.

(** ** What one TIDE header makes the receiver do *)

(** The header is of another node's TIE, which the receiver should hold and
    lacks, or holds in an older version. *)
Definition wanted (fe : FloodEngine) (lvl : Z) (hdr : TIEHeaderWithLifeTime) : Prop :=
  Originator (headerID hdr) <> fe_systemID fe /\
  acceptTIE fe (headerID hdr) lvl = true /\
  match fe_lsdb fe !! headerID hdr with
  | None => True
  | Some e => 0 < CompareTIEHeader hdr (Entry_Header e)
  end.

(** The database entries of other nodes. *)
Definition sameForeign (fe fe' : FloodEngine) : Prop :=
  fe_systemID fe' = fe_systemID fe /\ fe_level fe' = fe_level fe /\
  forall id, Originator id <> fe_systemID fe -> fe_lsdb fe' !! id = fe_lsdb fe !! id.

Lemma sameForeign_refl fe : sameForeign fe fe.
Proof. done. Qed.

Lemma wanted_sameForeign fe fe' lvl hdr :
  sameForeign fe fe' -> wanted fe' lvl hdr <-> wanted fe lvl hdr.
Proof.
  intros [Hs [Hl Hdb]]. unfold wanted, acceptTIE. rewrite Hs, Hl. split.
  - intros [H1 H2]. by rewrite Hdb in H2.
  - intros [H1 H2]. by rewrite Hdb.
Qed.

Lemma sameForeign_insertSelf id el fe :
  Originator id = fe_systemID fe -> sameForeign fe (insertSelfOriginated id el fe).
Proof.
  intros Ho. split; [done|]. split; [done|]. intros id' Hid'. cbn.
  rewrite lookup_insert_ne; [done|]. unfold Entry_TIEID; cbn. congruence.
Qed.

Lemma sameForeign_bump id fe :
  fe_inv fe -> Originator id = fe_systemID fe -> sameForeign fe (bumpOwnTIE id fe).
Proof.
  intros Hi Ho. unfold bumpOwnTIE, Get.
  destruct (fe_lsdb fe !! id) as [e|] eqn:E; [|done]. case_match; [|done].
  split; [done|]. split; [done|]. intros id' Hid'. cbn -[bumpedEntry].
  assert (Entry_TIEID (bumpedEntry e) = id) as -> by apply (inv_lsdb _ Hi _ _ E).
  rewrite !lookup_insert_ne; congruence.
Qed.

Lemma sameForeign_trans fe1 fe2 fe3 :
  sameForeign fe1 fe2 -> sameForeign fe2 fe3 -> sameForeign fe1 fe3.
Proof.
  intros [H1 [H2 H3]] [H4 [H5 H6]]. unfold sameForeign. split_all; [congruence..|].
  intros id Hid. rewrite H6 by congruence. auto.
Qed.

Section tide.
Context {R : MapRange} (k : string).

Lemma sameForeign_originate fe : sameForeign fe (originateSelfTIEs fe).2.
Proof.
  unfold originateSelfTIEs, originateNorthNodeTIE, originateNorthPrefixTIE,
    originateSouthNodeTIE, originateSouthPrefixTIE.
  case_match; cbn [snd];
    repeat (eapply sameForeign_trans; [|by apply sameForeign_insertSelf]); done.
Qed.

Lemma originate_adjacencies fe :
  fe_adjacencies (originateSelfTIEs fe).2 = fe_adjacencies fe.
Proof.
  unfold originateSelfTIEs, originateNorthNodeTIE, originateNorthPrefixTIE,
    originateSouthNodeTIE, originateSouthPrefixTIE. by case_match.
Qed.

Lemma bump_adjacencies id fe : fe_adjacencies (bumpOwnTIE id fe) = fe_adjacencies fe.
Proof. unfold bumpOwnTIE. by repeat case_match. Qed.

Lemma tideHeader_foreign adj lvl fe hdr :
  fe_inv fe -> fe_adjacencies fe !! k = Some adj ->
  sameForeign fe (tideHeader k lvl fe hdr) /\
  (forall id, id ∈ reqOf (tideHeader k lvl fe hdr) k <->
     id ∈ reqOf fe k \/ id = headerID hdr /\ wanted fe lvl hdr).
Proof.
  intros Hi Hk. unfold tideHeader, wanted, Get. set (id0 := headerID hdr).
  destruct (Z.eqb_spec (Originator id0) (fe_systemID fe)) as [Ho|Ho];
    destruct (fe_lsdb fe !! id0) as [e|] eqn:E; rewrite ?Z.gtb_ltb.
  - destruct (Z.ltb_spec 0 (CompareTIEHeader hdr (Entry_Header e))).
    + split; [by apply (sameForeign_bump id0 fe)|]. intros id.
      rewrite reqOf_floodTIEToAll, (reqOf_same fe) by apply bump_adjacencies. naive_solver.
    + case_match; (split; [done|]); intros id;
        (unfold enqueueTX, dequeueTX; rewrite reqOf_updAdj by done); naive_solver.
  - split; [apply (sameForeign_originate fe)|]. intros id.
    rewrite reqOf_floodTIEToAll, (reqOf_same fe) by apply originate_adjacencies. naive_solver.
  - destruct (Z.ltb_spec 0 (CompareTIEHeader hdr (Entry_Header e))).
    + case_match; (split; [done|]); intros id; [|naive_solver].
      rewrite (reqOf_enqueueREQ _ _ _ Hk). set_solver.
    + case_match; (split; [done|]); intros id;
        (unfold enqueueTX, dequeueTX; rewrite reqOf_updAdj by done); naive_solver lia.
  - case_match; (split; [done|]); intros id; [|naive_solver].
    rewrite (reqOf_enqueueREQ _ _ _ Hk). set_solver.
Qed.

Lemma tideHeaders_foreign adj hdrs fe :
  fe_inv fe -> fe_adjacencies fe !! k = Some adj ->
  let lvl := AI_NeighborLevel (AF_Info adj) in
  let fe' := foldl (tideHeader k lvl) fe hdrs in
  sameForeign fe fe' /\
  (forall id, id ∈ reqOf fe' k <->
     id ∈ reqOf fe k \/ exists hdr, hdr ∈ hdrs /\ id = headerID hdr /\ wanted fe lvl hdr).
Proof.
  cbv zeta. revert fe adj. induction hdrs as [|h hs IH]; intros fe adj Hi Hk.
  { split; [done|]. intros id. cbn. split; [by left|].
    intros [?|[? [?%not_elem_of_nil _]]]; done. }
  set (lvl := AI_NeighborLevel (AF_Info adj)). cbn [foldl].
  destruct (tideHeader_foreign adj lvl fe h Hi Hk) as [Hf Hr].
  destruct (stable_lookup _ _ _ _ (stable_tideHeader k lvl fe h) Hk) as [adj' [Hk' Hinfo]].
  destruct (evolves_tideHeader k adj fe h Hk Hi) as [Hi' _ _ _].
  destruct (IH _ _ Hi' Hk') as [Hf' Hr']. rewrite Hinfo in Hf', Hr'. fold lvl in Hf', Hr'.
  split; [eauto using sameForeign_trans|].
  intros id. rewrite Hr', Hr. split.
  - intros [[?|[-> ?]]|[hdr [Hin [-> Hw]]]]; [by left| |].
    + right. exists h. split; [left|done].
    + right. exists hdr. split; [by right|]. split; [done|].
      by apply (wanted_sameForeign _ _ _ _ Hf).
  - intros [?|[hdr [[->|Hin]%elem_of_cons [-> Hw]]]]; [by left; left|by left; right|].
    right. exists hdr. split_all; [done..|]. by apply (wanted_sameForeign _ _ _ _ Hf).
Qed.

(** ** The entries of the range that the TIDE does not list *)

Definition addTX (s : gset TIEID) (fe : FloodEngine) : FloodEngine :=
  updAdj k (fun a => a <| TIEsTX := s ∪ TIEsTX a |>) fe.

Lemma addTX_empty fe : addTX ∅ fe = fe.
Proof.
  destruct fe as [db sys lvl nm adjs lps ch chg]. unfold addTX, updAdj. cbn. f_equal. apply map_eq. intros k'.
  destruct (decide (k = k')) as [<-|Hne]; [|by rewrite lookup_alter_ne].
  rewrite lookup_alter_eq. destruct (adjs !! k) as [[]|]; [|done]. cbn.
  by rewrite union_empty_l_L.
Qed.

Lemma addTX_addTX s1 s2 fe : addTX s1 (addTX s2 fe) = addTX (s1 ∪ s2) fe.
Proof.
  unfold addTX, updAdj. cbn. f_equal. apply map_eq. intros k'.
  destruct (decide (k = k')) as [<-|Hne]; [|by rewrite !lookup_alter_ne].
  rewrite !lookup_alter_eq. destruct (fe_adjacencies fe !! k); [|done]. cbn.
  by rewrite union_assoc_L.
Qed.

Lemma enqueueTX_addTX id fe : enqueueTX k id fe = addTX {[id]} fe.
Proof. done. Qed.

Lemma txOf_addTX s fe adj :
  fe_adjacencies fe !! k = Some adj -> txOf (addTX s fe) k = s ∪ txOf fe k.
Proof. intros Hk. unfold txOf. cbn. by rewrite lookup_alter_eq, Hk. Qed.

Lemma reqOf_addTX s fe : reqOf (addTX s fe) k = reqOf fe k.
Proof. by apply reqOf_updAdj. Qed.

(** The identifiers of [l] the callback queues. *)
Definition unlisted (fe : FloodEngine) (lvl : Z) (tide : TIDEPacket) (tideSet : gset TIEID)
    (id : TIEID) : Prop :=
  in_range tide id /\ id ∉ tideSet /\
  ShouldFloodTIE id (fe_systemID fe) (fe_level fe) lvl = true.
#[local] Instance unlisted_dec fe lvl tide s id : Decision (unlisted fe lvl tide s id).
Proof. unfold unlisted. apply _. Defined.

Lemma iter_tideMissing lvl tide s l fe :
  StronglySorted TIEID_lt l.*1 ->
  iterEntries (tideMissing k lvl tide s) l fe
  = addTX (list_to_set (filter (unlisted fe lvl tide s) l.*1)) fe.
Proof.
  revert fe. induction l as [|[id e] l IH]; intros fe Hs; cbn [iterEntries fmap list_fmap fst].
  { rewrite filter_nil. cbn. by rewrite addTX_empty. }
  cbn in Hs. apply StronglySorted_inv in Hs as [Hs Hall].
  unfold tideMissing at 1. rewrite Z.gtb_ltb.
  destruct (Z.ltb_spec (CompareTIEID id (TIDE_StartRange tide)) 0) as [Hlt|Hge].
  { rewrite IH by done. rewrite filter_cons_False; [done|]. intros [[H _] _].
    rewrite CompareTIEID_antisym in H. lia. }
  destruct (Z.ltb_spec 0 (CompareTIEID id (TIDE_EndRange tide))) as [Hgt|Hle].
  { rewrite filter_none; [by rewrite addTX_empty|].
    apply Forall_cons. split; [intros [[_ H] _]; lia|].
    eapply Forall_impl; [exact Hall|]. intros id' Hid' [[_ H] _]. cbn in Hid'.
    assert (CompareTIEID id (TIDE_EndRange tide) <= 0); [|lia].
    eapply CompareTIEID_trans; [|exact H]. apply CompareTIEID_le. by left. }
  destruct (bool_decide (id ∉ s) && _) eqn:Hb.
  - apply andb_true_iff in Hb as [Hn%bool_decide_eq_true Hf].
    rewrite enqueueTX_addTX, IH, addTX_addTX by done.
    rewrite filter_cons_True.
    + cbn [list_to_set]. by rewrite union_comm_L.
    + unfold unlisted, in_range. split_all; try done. rewrite CompareTIEID_antisym. lia.
  - rewrite IH by done. rewrite filter_cons_False; [done|]. intros [_ [Hn Hf]].
    rewrite Hf, andb_true_r in Hb. by apply bool_decide_eq_false in Hb.
Qed.

(** What a TIDE from the neighbour at [k] makes the engine request. *)
Lemma handleTIDE_foreign adj tide fe :
  fe_inv fe -> fe_adjacencies fe !! k = Some adj ->
  sameForeign fe (handleTIDE k tide fe) /\
  (forall id, id ∈ reqOf (handleTIDE k tide fe) k <->
     id ∈ reqOf fe k \/ exists hdr, hdr ∈ TIDE_Headers tide /\ id = headerID hdr /\
                        wanted fe (AI_NeighborLevel (AF_Info adj)) hdr).
Proof.
  intros Hi Hk. unfold handleTIDE. rewrite Hk. unfold ForEachSorted.
  rewrite iter_tideMissing by apply sortedEntries_sorted.
  destruct (tideHeaders_foreign adj (TIDE_Headers tide) fe Hi Hk) as [Hf Hr].
  split; [exact Hf|]. intros id. rewrite reqOf_addTX. apply Hr.
Qed.

(** ** What a TIDE makes the engine send

    When the TIDE lists no version of the node's own TIEs that is newer than
    the node's. *)
Definition own_current (fe : FloodEngine) (tide : TIDEPacket) : Prop :=
  Forall (fun hdr => Originator (headerID hdr) = fe_systemID fe ->
    exists e, fe_lsdb fe !! headerID hdr = Some e /\
              CompareTIEHeader hdr (Entry_Header e) <= 0) (TIDE_Headers tide).

(** The database, the identity and the information stay the same. *)
Definition sameBase (fe fe' : FloodEngine) : Prop :=
  stable fe fe' /\ fe_lsdb fe' = fe_lsdb fe.

Lemma tideHeader_tx adj lvl fe hdr :
  fe_adjacencies fe !! k = Some adj ->
  (Originator (headerID hdr) = fe_systemID fe ->
    exists e, fe_lsdb fe !! headerID hdr = Some e /\
              CompareTIEHeader hdr (Entry_Header e) <= 0) ->
  sameBase fe (tideHeader k lvl fe hdr) /\
  (forall id, id ∈ txOf (tideHeader k lvl fe hdr) k <->
     match fe_lsdb fe !! headerID hdr with
     | Some e =>
         if decide (id = headerID hdr) then
           CompareTIEHeader hdr (Entry_Header e) < 0 \/
           0 < CompareTIEHeader hdr (Entry_Header e) /\ id ∈ txOf fe k
         else id ∈ txOf fe k
     | None => id ∈ txOf fe k
     end).
Proof.
  intros Hk Hown. split.
  { split; [apply stable_tideHeader|]. unfold tideHeader, Get.
    destruct (fe_lsdb fe !! _) as [e|] eqn:E; repeat case_match; try done.
    - destruct Hown as [e' [E' Hc]]; [lia|]. assert (e' = e) as -> by congruence. lia.
    - destruct Hown as [e' [E' Hc]]; [lia|]. congruence. }
  intros id. unfold tideHeader, Get. set (id0 := headerID hdr) in *.
  destruct (fe_lsdb fe !! id0) as [e|] eqn:E.
  - rewrite Z.gtb_ltb. destruct (Z.ltb_spec 0 (CompareTIEHeader hdr (Entry_Header e))).
    + destruct (Z.eqb_spec (Originator id0) (fe_systemID fe)) as [Ho|Ho].
      { destruct (Hown Ho) as [e' [[= <-] Hc]]. lia. }
      assert (txOf (if acceptTIE fe id0 lvl then enqueueREQ k id0 fe else fe) k = txOf fe k)
        as ->. { case_match; [|done]. by eapply txOf_enqueueREQ. }
      case_decide; naive_solver lia.
    + destruct (Z.ltb_spec (CompareTIEHeader hdr (Entry_Header e)) 0).
      * rewrite (txOf_enqueueTX _ _ _ Hk). case_decide; set_solver.
      * rewrite (txOf_dequeueTX _ _ _ Hk), elem_of_difference, elem_of_singleton.
        case_decide; naive_solver lia.
  - destruct (Z.eqb_spec (Originator id0) (fe_systemID fe)) as [Ho|Ho].
    { destruct (Hown Ho) as [e' [? _]]. done. }
    case_match; [|done]. by erewrite txOf_enqueueREQ.
Qed.

(** Some header of the list is compared with the stored TIE [id], with the
    result [c]. *)
Definition compared (fe : FloodEngine) (hdrs : list TIEHeaderWithLifeTime)
    (c : Z) (id : TIEID) : Prop :=
  exists hdr e, hdr ∈ hdrs /\ headerID hdr = id /\ fe_lsdb fe !! id = Some e /\
                CompareTIEHeader hdr (Entry_Header e) = c.

Lemma compared_cons fe h hs c id :
  compared fe (h :: hs) c id <->
  (headerID h = id /\ exists e, fe_lsdb fe !! id = Some e /\
                               CompareTIEHeader h (Entry_Header e) = c) \/
  compared fe hs c id.
Proof.
  unfold compared. split.
  - intros (hdr & e & [->|Hin]%elem_of_cons & ?); [left|right]; naive_solver.
  - intros [[? [e ?]]|(hdr & e & ? & ?)]; [exists h, e|exists hdr, e];
      rewrite elem_of_cons; naive_solver.
Qed.

Lemma compared_sameBase fe fe' hdrs c id :
  sameBase fe fe' -> compared fe' hdrs c id <-> compared fe hdrs c id.
Proof. intros [_ Hdb]. unfold compared. by rewrite Hdb. Qed.

Lemma compared_not_listed fe hdrs c id :
  id ∉ (headerID <$> hdrs) -> ~ compared fe hdrs c id.
Proof. intros Hid (hdr & e & Hin & <- & _). apply Hid. apply list_elem_of_fmap. eauto. Qed.

Lemma sameBase_trans fe1 fe2 fe3 : sameBase fe1 fe2 -> sameBase fe2 fe3 -> sameBase fe1 fe3.
Proof. intros [H1 H2] [H3 H4]. split; [by etrans|congruence]. Qed.

Lemma tideHeaders_tx adj lvl hdrs fe :
  fe_adjacencies fe !! k = Some adj ->
  NoDup (headerID <$> hdrs) ->
  Forall (fun hdr => Originator (headerID hdr) = fe_systemID fe ->
    exists e, fe_lsdb fe !! headerID hdr = Some e /\
              CompareTIEHeader hdr (Entry_Header e) <= 0) hdrs ->
  let fe' := foldl (tideHeader k lvl) fe hdrs in
  sameBase fe fe' /\
  (forall id, id ∈ txOf fe' k <->
     compared fe hdrs (-1) id \/ id ∈ txOf fe k /\ ~ compared fe hdrs 0 id).
Proof.
  cbv zeta. revert fe adj. induction hdrs as [|h hs IH]; intros fe adj Hk Hnd Hown.
  { split; [by split|]. intros id. split; [right|intros [(? & ? & ?%not_elem_of_nil & _)|]];
      try naive_solver. split; [done|]. intros (? & ? & ?%not_elem_of_nil & _). done. }
  apply Forall_cons in Hown as [Hh Hown]. apply NoDup_cons in Hnd as [Hnot Hnd].
  destruct (tideHeader_tx adj lvl fe h Hk Hh) as [Hb Htx]. cbn [foldl].
  pose proof Hb as [Hst Hdb]. destruct (stable_lookup _ _ _ _ Hst Hk) as [adj' [Hk' _]].
  destruct (IH _ _ Hk' Hnd) as [Hb' Htx'].
  { rewrite Hdb. by destruct Hst as [_ -> _]. }
  split; [by eapply sameBase_trans|]. intros id.
  rewrite Htx', !(compared_sameBase _ _ _ _ _ Hb), Htx, !compared_cons.
  destruct (decide (headerID h = id)) as [<-|Hne].
  - pose proof (compared_not_listed fe hs (-1) (headerID h) Hnot).
    pose proof (compared_not_listed fe hs 0 (headerID h) Hnot).
    destruct (fe_lsdb fe !! headerID h) as [e|].
    + assert (forall c, (headerID h = headerID h /\ exists e0, Some e = Some e0 /\
        CompareTIEHeader h (Entry_Header e0) = c) <-> CompareTIEHeader h (Entry_Header e) = c)
        as Hc. { intros c. split; [by intros [_ [? [[= <-] ?]]]|eauto]. }
      rewrite !Hc, decide_True by done.
      pose proof (CompareTIEHeader_range h (Entry_Header e)).
      assert (CompareTIEHeader h (Entry_Header e) < 0 <->
        CompareTIEHeader h (Entry_Header e) = -1) as -> by lia.
      assert (0 < CompareTIEHeader h (Entry_Header e) <->
        CompareTIEHeader h (Entry_Header e) <> -1 /\ CompareTIEHeader h (Entry_Header e) <> 0)
        as -> by lia. assert (~ (-1 = 0)) by lia.
      destruct (decide (CompareTIEHeader h (Entry_Header e) = -1)) as [E|E];
        [rewrite E|]; tauto.
    + assert (forall c, ~ (headerID h = headerID h /\ exists e0, None = Some e0 /\
        CompareTIEHeader h (Entry_Header e0) = c)) as Hc by (by intros c [_ [? [? _]]]).
      pose proof (Hc 0). pose proof (Hc (-1)). tauto.
  - destruct (fe_lsdb fe !! headerID h);
      rewrite ?decide_False by congruence; tauto.
Qed.

(** The engine's TX queue for [k] after a TIDE. *)
Lemma handleTIDE_tx adj tide fe :
  fe_adjacencies fe !! k = Some adj ->
  NoDup (tideIDs tide) -> own_current fe tide ->
  let lvl := AI_NeighborLevel (AF_Info adj) in
  sameBase fe (handleTIDE k tide fe) /\
  (forall id, id ∈ txOf (handleTIDE k tide fe) k <->
     compared fe (TIDE_Headers tide) (-1) id \/
     id ∈ txOf fe k /\ ~ compared fe (TIDE_Headers tide) 0 id \/
     is_Some (fe_lsdb fe !! id) /\ in_range tide id /\ id ∉ tideIDs tide /\
       ShouldFloodTIE id (fe_systemID fe) (fe_level fe) lvl = true).
Proof.
  intros Hk Hnd Hown. cbv zeta. unfold handleTIDE. rewrite Hk. unfold ForEachSorted.
  rewrite iter_tideMissing by apply sortedEntries_sorted.
  set (lvl := AI_NeighborLevel (AF_Info adj)).
  destruct (tideHeaders_tx adj lvl _ fe Hk Hnd Hown) as [Hb Htx].
  set (fe1 := foldl _ fe _) in *. pose proof Hb as [Hst Hdb].
  destruct (stable_lookup _ _ _ _ Hst Hk) as [adj' [Hk' _]].
  split.
  { eapply sameBase_trans; [exact Hb|]. split; [by apply stable_updAdj|done]. }
  intros id. rewrite (txOf_addTX _ _ _ Hk'), elem_of_union, Htx, elem_of_list_to_set.
  rewrite list_elem_of_filter. unfold unlisted. rewrite elem_of_list_to_set.
  rewrite (st_sys _ _ Hst), (st_level _ _ Hst).
  assert (id ∈ (sortedEntries (fe_lsdb fe1)).*1 <-> is_Some (fe_lsdb fe !! id)) as ->.
  { rewrite <-Hdb, list_elem_of_fmap. split.
    - intros [[i e] [-> He%elem_of_sortedEntries]]. by exists e.
    - intros [e He]. exists (id, e). split; [done|]. by apply elem_of_sortedEntries. }
  tauto.
Qed.

End tide.
