(* ===== verification/FloodDrain.v ===== *)
(** * FloodDrain: emptying the queues.

    Draining only appends to the send channel, so a channel that is not full
    afterwards has dropped nothing: every queued item is then among the packets
    sent. *)

From S2P Require Import Prelude.
From S2P Require Import Types.
From S2P Require Import Lsdb.
From S2P Require Import Scope.
From S2P Require Import FloodState.
From S2P Require Import Flood.
From S2P Require Import FloodInv.
From S2P Require Import FloodTide.

(** The database and the node are the same, and the channel only grew. *)
Record sends (fe fe' : FloodEngine) : Prop := {
  sends_base : sameBase fe fe';
  sends_ch : fe_FloodSendCh fe `prefix_of` fe_FloodSendCh fe'
}.

#[export] Instance sends_preorder : PreOrder sends.
Proof.
  split.
  - intros fe. split; [by split|done].
  - intros fe1 fe2 fe3 [B1 C1] [B2 C2]. split; [by eapply sameBase_trans|by etrans].
Qed.

Lemma sends_updAdj k f fe :
  (forall a, AF_Info (f a) = AF_Info a) -> sends fe (updAdj k f fe).
Proof. intros Hf. split; [split; [by apply stable_updAdj|done]|done]. Qed.

Lemma sends_sendFloodPacket a pkt lt fe : sends fe (sendFloodPacket a pkt lt fe).
Proof.
  split.
  - split; [apply stable_sendFloodPacket|]. unfold sendFloodPacket. by case_match.
  - unfold sendFloodPacket. case_match; [|done]. cbn. by apply prefix_app_r.
Qed.

Lemma sends_foldl {A} (f : FloodEngine -> A -> FloodEngine) l fe :
  (forall fe a, sends fe (f fe a)) -> sends fe (foldl f fe l).
Proof.
  intros Hf. revert fe. induction l as [|a l IH]; intros fe; cbn; [done|].
  etrans; [apply Hf|apply IH].
Qed.

(** A channel with room at the end had room all along. *)
Definition room (fe : FloodEngine) : Prop :=
  (length (fe_FloodSendCh fe) < FloodSendCap)%nat.

Lemma room_before fe fe' : sends fe fe' -> room fe' -> room fe.
Proof. intros [_ H%prefix_length]. unfold room. lia. Qed.

Lemma sent_after fe fe' p :
  sends fe fe' -> p ∈ fe_FloodSendCh fe -> p ∈ fe_FloodSendCh fe'.
Proof. intros [_ [l ->]] Hp. apply elem_of_app. by left. Qed.

Definition floodPacketTo (adj : adjFloodState) (pkt : ProtocolPacket) (lt : Z) : FloodPacket :=
  mkFloodPacket (AI_InterfaceName (AF_Info adj)) pkt (AI_NeighborAddr (AF_Info adj))
    (AI_FloodPort (AF_Info adj)) lt.

Lemma sendFloodPacket_sent a pkt lt fe :
  room (sendFloodPacket a pkt lt fe) ->
  floodPacketTo a pkt lt ∈ fe_FloodSendCh (sendFloodPacket a pkt lt fe).
Proof.
  intros Hr. pose proof (room_before _ _ (sends_sendFloodPacket a pkt lt fe) Hr) as Hr0.
  unfold sendFloodPacket. unfold room in Hr0. apply Nat.ltb_lt in Hr0. rewrite Hr0. cbn.
  apply elem_of_app. right. by left.
Qed.

Lemma packetOf_same fe fe' c : stable fe fe' -> packetOf fe' c = packetOf fe c.
Proof. intros [_ Hs Hl]. unfold packetOf. by rewrite Hs, Hl. Qed.

(** What the packets of a drained adjacency are. *)
Definition tiePacketFor (fe : FloodEngine) (adj : adjFloodState) (e : LSDBEntry) : FloodPacket :=
  floodPacketTo adj (packetOf fe (zeroPacketContent <| PC_TIE := Some (Entry_Packet e) |>))
    (Entry_RemainingLifetime e).
Definition tirePacketFor (fe : FloodEngine) (adj : adjFloodState)
    (hdrs : list TIEHeaderWithLifeTime) : FloodPacket :=
  floodPacketTo adj
    (packetOf fe (zeroPacketContent <| PC_TIRE := Some (mkTIREPacket hdrs) |>)) 0.

Section drain.
Context {R : MapRange} (k : string) (adj : adjFloodState).

Lemma sends_drainACK fe : sends fe (drainACK k adj fe).
Proof.
  unfold drainACK. case_bool_decide; [done|]. cbv zeta.
  etrans; [|apply sends_updAdj; done]. case_match; [done|]. apply sends_sendFloodPacket.
Qed.
Lemma sends_drainREQ fe : sends fe (drainREQ k adj fe).
Proof.
  unfold drainREQ. case_bool_decide; [done|]. cbv zeta.
  etrans; [|apply sends_updAdj; done]. apply sends_sendFloodPacket.
Qed.
Lemma sends_drainTX1 fe id : sends fe (drainTX1 k adj fe id).
Proof.
  unfold drainTX1. case_match; [|by apply sends_updAdj].
  etrans; [|by apply sends_updAdj]. apply sends_sendFloodPacket.
Qed.
Lemma sends_drainTX fe : sends fe (drainTX k adj fe).
Proof. apply sends_foldl, sends_drainTX1. Qed.
Lemma sends_drainAdjQueues fe : sends fe (drainAdjQueues fe (k, adj)).
Proof.
  unfold drainAdjQueues. etrans; [apply sends_drainACK|].
  etrans; [apply sends_drainREQ|apply sends_drainTX].
Qed.

(** *** What is sent *)

Lemma sent_updAdj f fe : fe_FloodSendCh (updAdj k f fe) = fe_FloodSendCh fe.
Proof. done. Qed.

Lemma drainREQ_sent fe :
  TIEsREQ adj <> ∅ -> room (drainREQ k adj fe) ->
  tirePacketFor fe adj (requestHeader <$> range_set (TIEsREQ adj))
  ∈ fe_FloodSendCh (drainREQ k adj fe).
Proof.
  intros Hne. unfold drainREQ. rewrite bool_decide_false by done. cbv zeta.
  apply sendFloodPacket_sent.
Qed.

Lemma drainACK_sent fe :
  (exists id, id ∈ TIEsACK adj /\ is_Some (fe_lsdb fe !! id)) -> room (drainACK k adj fe) ->
  tirePacketFor fe adj
    (omap (fun id => Entry_Header <$> fe_lsdb fe !! id) (range_set (TIEsACK adj)))
  ∈ fe_FloodSendCh (drainACK k adj fe).
Proof.
  intros [id [Hid [e He]]]. unfold drainACK, Get. rewrite bool_decide_false by set_solver.
  cbv zeta. destruct (omap _ _) as [|h hs] eqn:E; [|apply sendFloodPacket_sent].
  exfalso. assert (Entry_Header e ∈ @nil TIEHeaderWithLifeTime) as H.
  { rewrite <-E. apply list_elem_of_omap. exists id. rewrite He.
    split; [by apply elem_of_range_set|done]. }
  by apply not_elem_of_nil in H.
Qed.

Lemma drainTX_sent fe id e :
  id ∈ TIEsTX adj -> fe_lsdb fe !! id = Some e -> room (drainTX k adj fe) ->
  tiePacketFor fe adj e ∈ fe_FloodSendCh (drainTX k adj fe).
Proof.
  intros Hid%elem_of_range_set He. unfold drainTX.
  apply list_elem_of_split in Hid as (l1 & l2 & ->). rewrite foldl_app. cbn [foldl].
  set (fe1 := foldl (drainTX1 k adj) fe l1).
  assert (sends fe fe1) as H1 by apply sends_foldl, sends_drainTX1.
  assert (sends (drainTX1 k adj fe1 id) (foldl (drainTX1 k adj) (drainTX1 k adj fe1 id) l2))
    as H2 by apply sends_foldl, sends_drainTX1.
  intros Hr. apply (sent_after _ _ _ H2). apply (room_before _ _ H2) in Hr. revert Hr.
  unfold drainTX1, Get. destruct (sends_base _ _ H1) as [Hst Hdb]. rewrite Hdb, He.
  unfold tiePacketFor. rewrite <-(packetOf_same fe fe1) by done.
  apply sendFloodPacket_sent.
Qed.

(** *** What is left *)

Lemma sendFloodPacket_adj a pkt lt fe :
  fe_adjacencies (sendFloodPacket a pkt lt fe) = fe_adjacencies fe.
Proof. unfold sendFloodPacket. by case_match. Qed.

Lemma drainACK_adj fe :
  fe_adjacencies (drainACK k adj fe) =
  alter (fun a => if decide (TIEsACK adj = ∅) then a else a <| TIEsACK := ∅ |>) k
    (fe_adjacencies fe).
Proof.
  unfold drainACK. case_bool_decide as H.
  - symmetry. apply alter_id. intros a _. by rewrite decide_True.
  - cbv zeta. cbn. transitivity (alter (fun a => a <| TIEsACK := ∅ |>) k (fe_adjacencies fe)).
    + case_match; [done|]. unfold sendTIRE. by rewrite sendFloodPacket_adj.
    + apply alter_ext. intros a _. by rewrite decide_False.
Qed.

Lemma drainREQ_adj fe :
  fe_adjacencies (drainREQ k adj fe) =
  alter (fun a => if decide (TIEsREQ adj = ∅) then a else a <| TIEsREQ := ∅ |>) k
    (fe_adjacencies fe).
Proof.
  unfold drainREQ. case_bool_decide as H.
  - symmetry. apply alter_id. intros a _. by rewrite decide_True.
  - cbv zeta. unfold sendTIRE. cbn. rewrite sendFloodPacket_adj.
    apply alter_ext. intros a _. by rewrite decide_False.
Qed.

Lemma drainTX1_adj fe id : fe_adjacencies (drainTX1 k adj fe id)
  = alter (fun a => a <| TIEsTX := TIEsTX a ∖ {[id]} |>) k (fe_adjacencies fe).
Proof. unfold drainTX1. case_match; [|done]. cbn. by rewrite sendFloodPacket_adj. Qed.

Lemma drainTX_loop_adj l fe a :
  fe_adjacencies fe !! k = Some a ->
  fe_adjacencies (foldl (drainTX1 k adj) fe l) =
  <[k := a <| TIEsTX := TIEsTX a ∖ list_to_set l |>]> (fe_adjacencies fe).
Proof.
  revert fe a. induction l as [|id l IH]; intros fe a Hk; cbn [foldl list_to_set].
  { rewrite difference_empty_L. destruct a. cbn. symmetry. by apply insert_id. }
  rewrite (IH _ (a <| TIEsTX := TIEsTX a ∖ {[id]} |>)).
  - rewrite drainTX1_adj. apply map_eq. intros k'. destruct (decide (k = k')) as [<-|Hne].
    + rewrite !lookup_insert_eq. cbn. do 2 f_equal. set_solver.
    + by rewrite !lookup_insert_ne, lookup_alter_ne.
  - by rewrite drainTX1_adj, lookup_alter_eq, Hk.
Qed.

Lemma drainAdjQueues_adj fe :
  fe_adjacencies fe !! k = Some adj ->
  fe_adjacencies (drainAdjQueues fe (k, adj))
  = <[k := newAdjFloodState (AF_Info adj)]> (fe_adjacencies fe).
Proof.
  intros Hk. unfold drainAdjQueues, drainTX.
  set (fe1 := drainREQ k adj (drainACK k adj fe)).
  assert (fe_adjacencies fe1 = <[k := mkAdjFloodState (AF_Info adj) (TIEsTX adj) ∅ ∅]>
            (fe_adjacencies fe)) as H1.
  { apply map_eq. intros k'. unfold fe1. rewrite drainREQ_adj, drainACK_adj.
    destruct (decide (k = k')) as [<-|Hne].
    - rewrite !lookup_alter_eq, lookup_insert_eq, Hk. destruct adj as [i tx ack req]. cbn.
      repeat case_decide; cbn; by subst.
    - by rewrite !lookup_alter_ne, lookup_insert_ne. }
  rewrite (drainTX_loop_adj _ _ (mkAdjFloodState (AF_Info adj) (TIEsTX adj) ∅ ∅)).
  - rewrite H1, insert_insert_eq. cbn. do 2 f_equal. unfold newAdjFloodState. f_equal.
    apply set_eq. intros id. rewrite elem_of_difference, elem_of_list_to_set, elem_of_range_set.
    set_solver.
  - by rewrite H1, lookup_insert_eq.
Qed.

End drain.

(** ** All adjacencies *)

Section drain_all.
Context {R : MapRange}.

Lemma sends_drainQueues fe : sends fe (drainQueues fe).
Proof. apply sends_foldl. intros fe' [k adj]. apply sends_drainAdjQueues. Qed.

Lemma drain_loop_adj l fe :
  NoDup l.*1 -> (forall k adj, (k, adj) ∈ l -> fe_adjacencies fe !! k = Some adj) ->
  (forall k adj, (k, adj) ∈ l ->
     fe_adjacencies (foldl drainAdjQueues fe l) !! k = Some (newAdjFloodState (AF_Info adj))) /\
  (forall k, k ∉ l.*1 ->
     fe_adjacencies (foldl drainAdjQueues fe l) !! k = fe_adjacencies fe !! k).
Proof.
  revert fe. induction l as [|[k0 adj0] l IH]; intros fe Hnd Hl; cbn [foldl].
  { split; [by intros k adj ?%not_elem_of_nil|done]. }
  cbn in Hnd. apply NoDup_cons in Hnd as [Hk0 Hnd].
  assert (forall k adj, (k, adj) ∈ l -> k <> k0) as Hne.
  { intros k adj Hin ->. apply Hk0. apply list_elem_of_fmap. by exists (k0, adj). }
  pose proof (drainAdjQueues_adj k0 adj0 fe (Hl _ _ (list_elem_of_here _ _))) as Ha.
  destruct (IH (drainAdjQueues fe (k0, adj0)) Hnd) as [H1 H2].
  { intros k adj Hin. rewrite Ha, lookup_insert_ne; [apply Hl; by right|].
    intros ->. by apply (Hne k adj). }
  split.
  - intros k adj [[= -> ->]|Hin]%elem_of_cons; [|eauto].
    by rewrite H2, Ha, lookup_insert_eq.
  - intros k Hk. cbn in Hk. apply not_elem_of_cons in Hk as [Hk Hkl].
    by rewrite H2, Ha, lookup_insert_ne.
Qed.

Lemma drainQueues_adj fe k :
  fe_adjacencies (drainQueues fe) !! k =
  (fun a => newAdjFloodState (AF_Info a)) <$> fe_adjacencies fe !! k.
Proof.
  destruct (drain_loop_adj (range_map (fe_adjacencies fe)) fe (NoDup_range_map _)) as [H1 H2].
  { intros k' a. apply elem_of_range_map. }
  unfold drainQueues. destruct (fe_adjacencies fe !! k) as [a|] eqn:E.
  - apply H1. by apply elem_of_range_map.
  - rewrite H2; [done|]. intros [[k' a] [-> Hin%elem_of_range_map]]%list_elem_of_fmap.
    cbn in *. congruence.
Qed.

(** Each adjacency is drained in some intermediate state with the same
    database. *)
Lemma drainQueues_split fe k adj :
  fe_adjacencies fe !! k = Some adj ->
  exists fe1, sends fe fe1 /\ sends (drainAdjQueues fe1 (k, adj)) (drainQueues fe).
Proof.
  intros Hk%elem_of_range_map. apply list_elem_of_split in Hk as (l1 & l2 & E).
  exists (foldl drainAdjQueues fe l1). unfold drainQueues. rewrite E, foldl_app.
  assert (forall fe kadj, sends fe (drainAdjQueues fe kadj)) as Hs.
  { intros fe' [k' a']. apply sends_drainAdjQueues. }
  split; [by apply sends_foldl|]. cbn [foldl]. by apply sends_foldl.
Qed.

Lemma drainQueues_sent fe k adj :
  fe_adjacencies fe !! k = Some adj -> room (drainQueues fe) ->
  (forall id e, id ∈ TIEsTX adj -> fe_lsdb fe !! id = Some e ->
     tiePacketFor fe adj e ∈ fe_FloodSendCh (drainQueues fe)) /\
  (TIEsREQ adj <> ∅ ->
     tirePacketFor fe adj (requestHeader <$> range_set (TIEsREQ adj))
     ∈ fe_FloodSendCh (drainQueues fe)) /\
  ((exists id, id ∈ TIEsACK adj /\ is_Some (fe_lsdb fe !! id)) ->
     tirePacketFor fe adj
       (omap (fun id => Entry_Header <$> fe_lsdb fe !! id) (range_set (TIEsACK adj)))
     ∈ fe_FloodSendCh (drainQueues fe)).
Proof.
  intros Hk Hr. destruct (drainQueues_split fe k adj Hk) as [fe1 [H1 H2]].
  apply (room_before _ _ H2) in Hr. unfold drainAdjQueues in *.
  set (feA := drainACK k adj fe1) in *. set (feR := drainREQ k adj feA) in *.
  pose proof (sends_drainACK k adj fe1) as HA. fold feA in HA.
  pose proof (sends_drainREQ k adj feA) as HR. fold feR in HR.
  pose proof (sends_drainTX k adj feR) as HT.
  destruct (sends_base _ _ H1) as [St1 Db1].
  destruct (sends_base _ _ HA) as [StA DbA]. destruct (sends_base _ _ HR) as [StR DbR].
  assert (stable fe feA) as SA by by etrans. assert (stable fe feR) as SR by by etrans.
  split_all.
  - intros id e Hid He. apply (sent_after _ _ _ H2).
    unfold tiePacketFor. rewrite <-(packetOf_same fe feR) by done.
    apply (drainTX_sent k adj feR id e Hid); [congruence|done].
  - intros Hne. apply (sent_after _ _ _ H2), (sent_after _ _ _ HT).
    unfold tirePacketFor. rewrite <-(packetOf_same fe feA) by done.
    apply drainREQ_sent; [done|]. by apply (room_before _ _ HT).
  - intros He. apply (sent_after _ _ _ H2), (sent_after _ _ _ HT), (sent_after _ _ _ HR).
    unfold tirePacketFor. rewrite <-(packetOf_same fe fe1) by done.
    rewrite <-Db1 in *. apply drainACK_sent; [done|].
    apply (room_before _ _ HR). by apply (room_before _ _ HT).
Qed.

End drain_all.
