(* ===== verification/FloodTheorems.v ===== *)
(** * FloodTheorems: the properties of the flood engine.

    The invariant and the monotonicity of the database, the reactions to a TIE,
    a TIDE, an adjacency change and a lifetime tick, and the tiling of TIDEs. *)

From S2P Require Import Prelude.
From S2P Require Import Types.
From S2P Require Import Lsdb.
From S2P Require Import Scope.
From S2P Require Import FloodState.
From S2P Require Import Flood.
From S2P Require Import FloodInv.
From S2P Require Import FloodTide.
From S2P Require Import FloodDrain.

(** ** Lemmas on a received TIE *)

(** The state after a received TIE was stored: the entry, the acknowledgment,
    the flooding to the other interfaces, the notification. *)
Record installed (k : string) (tie : TIEPacket) (fe fe' : FloodEngine) : Prop := {
  inst_entry : fe_lsdb fe' = <[Header_TIEID (TIE_Header tie) := receivedEntry tie]> (fe_lsdb fe);
  inst_ack : is_Some (fe_adjacencies fe !! k) -> Header_TIEID (TIE_Header tie) ∈ ackOf fe' k;
  inst_flood k' a : fe_adjacencies fe !! k' = Some a ->
    AI_InterfaceName (AF_Info a) <> k ->
    ShouldFloodTIE (Header_TIEID (TIE_Header tie)) (fe_systemID fe) (fe_level fe)
      (AI_NeighborLevel (AF_Info a)) = true ->
    Header_TIEID (TIE_Header tie) ∈ txOf fe' k';
  inst_notify : fe_LSDBChangeCh fe' = true
}.

Lemma floodToAdj_tx fe id a :
  ShouldFloodTIE id (fe_systemID fe) (fe_level fe) (AI_NeighborLevel (AF_Info a)) = true ->
  id ∈ TIEsTX (floodToAdj fe id a).
Proof. intros Hf. unfold floodToAdj. rewrite Hf. cbn. set_solver. Qed.


Lemma floodTIEToAllExcept_tx id except fe k a :
  fe_adjacencies fe !! k = Some a -> AI_InterfaceName (AF_Info a) <> except ->
  ShouldFloodTIE id (fe_systemID fe) (fe_level fe) (AI_NeighborLevel (AF_Info a)) = true ->
  id ∈ txOf (floodTIEToAllExcept id except fe) k.
Proof.
  intros Ha Hn%String.eqb_neq Hf. unfold txOf. cbn. rewrite lookup_fmap, Ha. cbn.
  rewrite Hn. by apply floodToAdj_tx.
Qed.

Lemma floodTIEToAllExcept_ack id except fe k :
  ackOf (floodTIEToAllExcept id except fe) k = ackOf fe k.
Proof.
  unfold ackOf. cbn. rewrite lookup_fmap. destruct (fe_adjacencies fe !! k); [|done]. cbn.
  unfold floodToAdj. by repeat case_match.
Qed.

Lemma installTIE_installed k tie fe : installed k tie fe (installTIE k tie fe).
Proof.
  unfold installTIE. set (id := Header_TIEID (TIE_Header tie)).
  set (fe1 := fe <| fe_lsdb := _ |>).
  split; [done| | |done].
  - intros [a Ha]. change (id ∈ ackOf (floodTIEToAllExcept id k (ackTIE k id fe1)) k).
    rewrite floodTIEToAllExcept_ack. unfold ackOf. cbn. rewrite lookup_alter_eq, Ha. cbn.
    set_solver.
  - intros k' a Ha Hn Hf.
    destruct (stable_lookup fe1 _ k' a (stable_ackTIE k id fe1) Ha) as [a' [Ha' Hi]].
    apply (floodTIEToAllExcept_tx id k (ackTIE k id fe1) k' a' Ha'); by rewrite Hi.
Qed.

(** The node's own TIE, received in a newer version than the stored one. *)
Lemma handleTIE_own k tie fe adj e :
  let id := Header_TIEID (TIE_Header tie) in
  fe_inv fe -> fe_adjacencies fe !! k = Some adj -> Originator id = fe_systemID fe ->
  fe_lsdb fe !! id = Some e ->
  fe_lsdb (handleTIE k tie fe) !! id =
    Some (if CompareTIEHeader (receivedHeader tie) (Entry_Header e) >? 0
          then bumpedEntry e else e).
Proof.
  cbv zeta. set (id := Header_TIEID (TIE_Header tie)). intros Hi Hk Ho He.
  unfold handleTIE, Get. rewrite Hk. fold id. rewrite He, Ho, Z.eqb_refl.
  case_match; [|by case_match].
  unfold floodTIEToAll, bumpOwnTIE, Get. cbn -[bumpedEntry]. rewrite He.
  destruct (inv_lsdb _ Hi _ _ He) as [Hid Hself]. rewrite (proj2 Hself Ho).
  cbn -[bumpedEntry]. assert (Entry_TIEID (bumpedEntry e) = id) as -> by done.
  apply lookup_insert_eq.
Qed.

(** ** Sample states for the witnesses *)

Definition node_info (k : string) (id lvl : Z) : AdjacencyInfo :=
  mkAdjacencyInfo k id lvl (AddrV4 id) DefaultTIEUDPFloodPort 1 2.

(** A spine with system identifier 1 and a leaf 2 below it on [e1]. *)
Definition sample_spine : FloodEngine :=
  let R := canonical_range in
  handleAdjChange (mkAdjacencyChange "e1" (Some (node_info "e1" 2 0)))
    (NewFloodEngine 1 1 "spine" []).

Definition foreign_id (n : Z) : TIEID := mkTIEID TieDirectionNorth 2 TIETypePrefixTIEType n.
Definition foreign_tie (n seq : Z) : TIEPacket :=
  mkTIEPacket (mkTIEHeader (foreign_id n) seq None (Some DefaultLifetime)) zeroTIEElement.
Definition foreign_header (n seq : Z) : TIEHeaderWithLifeTime :=
  mkTIEHeaderWithLifeTime (TIE_Header (foreign_tie n seq)) DefaultLifetime.

(** ** The invariant *)

(** C5: in every state the engine reaches, each entry is filed under its own
    identifier and marked self-originated exactly when this node originates it;
    only TIEs of other nodes that this node should hold are queued for request;
    and the send channel stays within its capacity. *)
Theorem flood_invariant systemID level nodeName prefixes fe
    (Hr : flood_reachable systemID level nodeName prefixes fe) :
  map_Forall (fun id e => Entry_TIEID e = id /\
    (Entry_SelfOriginated e = true <-> Originator id = fe_systemID fe)) (fe_lsdb fe) /\
  (forall k a id, fe_adjacencies fe !! k = Some a -> id ∈ TIEsREQ a ->
     Originator id <> fe_systemID fe /\
     acceptTIE fe id (AI_NeighborLevel (AF_Info a)) = true) /\
  (length (fe_FloodSendCh fe) <= FloodSendCap)%nat.
Proof.
  assert (fe_inv fe) as [I1 I2 I3].
  { induction Hr; [apply fe_inv_start|eauto using fe_inv_step]. }
  split_all; [exact I1| |exact I3]. intros k a id Hk Hid. exact (I2 k a Hk id Hid).
Qed.

Lemma flood_invariant_witness :
  (length (fe_FloodSendCh sample_spine) <= FloodSendCap)%nat.
Proof.
  refine (proj2 (proj2 (flood_invariant 1 1 "spine" [] sample_spine _))).
  eapply reach_step; [apply reach_start|].
  by apply (step_event _ canonical_range
              (EvAdjChange (mkAdjacencyChange "e1" (Some (node_info "e1" 2 0))))).
Defined.

(** C7: an event never takes a TIE of the database back to an older version.
    Another node's sequence number does not decrease.  The node's own does not
    either (unless it runs past the largest 64-bit number), grows by at most
    [eventBumps] of the event -- one per adjacency change, disaggregation update or
    received TIE, one per header of a received TIDE, none for a timer -- and stands
    still only if the whole TIE does: what the node announces never changes
    without a new number.  An entry leaves the database only when its lifetime
    runs out. *)
Theorem lsdb_monotone {R : MapRange} ev fe fe' id e (Hi : fe_inv fe)
    (Hs : handleEvent ev fe = Done fe') (He : fe_lsdb fe !! id = Some e)
    (Hseq : Originator id = fe_systemID fe ->
       - 2 ^ 63 <= Entry_SeqNr e /\ Entry_SeqNr e + Z.of_nat (eventBumps ev) < 2 ^ 63) :
  (exists e', fe_lsdb fe' !! id = Some e' /\ Entry_SeqNr e <= Entry_SeqNr e' /\
     (Originator id = fe_systemID fe ->
        Entry_SeqNr e' <= Entry_SeqNr e + Z.of_nat (eventBumps ev) /\
        (Entry_SeqNr e' = Entry_SeqNr e -> Entry_Packet e' = Entry_Packet e))) \/
  (fe_lsdb fe' !! id = None /\ wrap 32 (Entry_RemainingLifetime e - 1) <= 0).
Proof.
  assert (ev = EvLifetimeTick \/ ev <> EvLifetimeTick) as [->|Hev] by (destruct ev; auto).
  - apply tickLifetimes_done in Hs as ->. rewrite ageTIEs_lookup, He.
    cbn -[decrementEntry]. unfold agedEntry.
    destruct (Z.leb_spec (Entry_RemainingLifetime (decrementEntry 1 e)) 0) as [H|H].
    + right. split; [done|exact H].
    + left. eexists. split; [done|]. unfold Entry_SeqNr. cbn. split; [lia|]. split; [lia|done].
  - left. destruct (evolves_handleEvent ev fe fe' Hev Hs Hi) as [_ _ _ H].
    destruct (H id e He) as (e' & E' & V). exists e'. split; [exact E'|].
    destruct (Z.eq_dec (Originator id) (fe_systemID fe)) as [Ho|Ho].
    + destruct (Hseq Ho). destruct (version_ge_own _ _ _ _ _ V Ho) as [? Hp]; [lia..|].
      split; [lia|]. split; [lia|exact Hp].
    + unfold version_ge in V. apply Z.eqb_neq in Ho as Hb. rewrite Hb in V. by split.
Qed.

(** A neighbour sends back an own TIE with a higher number. *)
Definition sample_echo : ReceivedFloodPkt :=
  mkReceivedFloodPkt
    (packetOf sample_spine (zeroPacketContent <| PC_TIE :=
       Some (mkTIEPacket (mkTIEHeader (selfTIEID sample_spine TieDirectionNorth
               TIETypeNodeTIEType) 5 None (Some DefaultLifetime)) zeroTIEElement) |>))
    "10.0.0.1" "e1".

Lemma lsdb_monotone_witness :
  exists fe' e', handleEvent (R := canonical_range) (EvFloodRecv sample_echo) sample_spine = Done fe' /\
    fe_lsdb fe' !! selfTIEID sample_spine TieDirectionNorth TIETypeNodeTIEType = Some e' /\
    1 <= Entry_SeqNr e' <= 2.
Proof.
  set (id := selfTIEID sample_spine TieDirectionNorth TIETypeNodeTIEType).
  assert (fe_inv sample_spine) as H1.
  { apply (evolves_handleAdjChange (R := canonical_range)). apply fe_inv_start. }
  assert (exists e, fe_lsdb sample_spine !! id = Some e /\ Entry_SeqNr e = 1 /\
            Entry_RemainingLifetime e = DefaultLifetime) as (e & He & Hn & Hlt).
  { eexists. split; [vm_compute; reflexivity|by split]. }
  eexists.
  destruct (lsdb_monotone (R := canonical_range) (EvFloodRecv sample_echo) sample_spine _ id e H1 eq_refl He)
    as [(e' & E' & Hlo & Hhi)|[_ H]].
  - intros _. rewrite Hn. cbn. lia.
  - exists e'. split; [reflexivity|]. split; [exact E'|].
    destruct (Hhi eq_refl) as [Hhi' _]. rewrite Hn in *. cbn in Hhi'. lia.
  - rewrite Hlt in H. vm_compute in H. by destruct H.
Defined.

(** ** The lifetime tick *)

(** The tick deadlocks exactly when some self-originated TIE stays in the
    database with less than [ReoriginateBeforeExpiry] seconds to live: its
    re-origination takes the database's write lock inside the traversal that
    holds the read lock.  Otherwise the tick only ages the database. *)
Theorem tick_deadlock fe :
  (tickLifetimes fe = Deadlock <->
     exists id e, fe_lsdb fe !! id = Some e /\ Entry_SelfOriginated e = true /\
       0 < wrap 32 (Entry_RemainingLifetime e - 1) < ReoriginateBeforeExpiry) /\
  (tickLifetimes fe <> Deadlock -> tickLifetimes fe = Done (ageTIEs fe)).
Proof.
  rewrite tickLifetimes_eq. pose proof (existsb_due fe) as H. case_match.
  - split; [|done]. split; [intros _|done]. destruct (proj1 H eq_refl) as (id & e & He).
    unfold dueNext in He. eauto.
  - split; [|done]. split; [done|]. intros (id & e & He & Hd).
    assert (false = true); [|done]. apply H. exists id, e. by split.
Qed.

(** [n] seconds without any other event. *)
Fixpoint ticks (n : nat) (fe : FloodEngine) : blocking FloodEngine :=
  match n with
  | O => Done fe
  | S n => match tickLifetimes fe with
           | Done fe' => ticks n fe'
           | Deadlock => Deadlock
           end
  end.

(** C23: an engine that holds a self-originated TIE with a lifetime of [L], and
    sees nothing but time pass, deadlocks within [L] - 3599 seconds. *)
Theorem engine_deadlocks fe id e
    (He : fe_lsdb fe !! id = Some e) (Hs : Entry_SelfOriginated e = true)
    (HL : ReoriginateBeforeExpiry <= Entry_RemainingLifetime e < 2147483648) :
  ticks (Z.to_nat (Entry_RemainingLifetime e - (ReoriginateBeforeExpiry - 1))) fe = Deadlock.
Proof.
  unfold ReoriginateBeforeExpiry in *.
  set (n := Z.to_nat (Entry_RemainingLifetime e - (3600 - 1))).
  assert (Entry_RemainingLifetime e = Z.of_nat n + 3599) as HLn by lia. clearbody n.
  revert fe e He Hs HL HLn. induction n as [|n IH]; intros fe e He Hs HL HLn; [lia|].
  cbn [ticks]. rewrite tickLifetimes_eq. destruct (existsb _ _) eqn:Hdue; [done|].
  assert (wrap 32 (Entry_RemainingLifetime e - 1) = Z.of_nat n + 3599) as Hw.
  { rewrite wrap_id; [lia|lia|apply is_int32; lia]. }
  assert (fe_lsdb (ageTIEs fe) !! id = Some (decrementEntry 1 e)) as He'.
  { rewrite ageTIEs_lookup, He. cbn -[decrementEntry]. unfold agedEntry.
    destruct (Z.leb_spec (Entry_RemainingLifetime (decrementEntry 1 e)) 0) as [H|H]; [|done].
    cbn in H. lia. }
  destruct n as [|n].
  - exfalso. assert (false = true); [|done]. rewrite <-Hdue. apply existsb_due.
    exists id, e. split; [done|]. split; [done|]. unfold ReoriginateBeforeExpiry. lia.
  - apply (IH _ _ He'); cbn; [done|lia|lia].
Qed.

(** One second before the end, for an engine with an ageing node TIE. *)
Definition ageing_spine : FloodEngine :=
  let id := selfTIEID sample_spine TieDirectionNorth TIETypeNodeTIEType in
  sample_spine <| fe_lsdb := {[ id :=
    mkLSDBEntry (mkTIEPacket (mkTIEHeader id 1 None (Some DefaultLifetime)) zeroTIEElement)
      3601 true ]} |>.

Lemma engine_deadlocks_witness : ticks 2 ageing_spine = Deadlock.
Proof.
  set (id := selfTIEID sample_spine TieDirectionNorth TIETypeNodeTIEType).
  exact (engine_deadlocks ageing_spine id
    (mkLSDBEntry (mkTIEPacket (mkTIEHeader id 1 None (Some DefaultLifetime)) zeroTIEElement)
      3601 true) ltac:(vm_compute; reflexivity) eq_refl
    ltac:(vm_compute; split; [discriminate|reflexivity])).
Defined.

(** ** TIDEs *)

(** C20: the TIDE packets built from sorted headers carry the headers in order, at
    most 25 each, tile the range from [MinTIEID] to [MaxTIEID] without a gap, and
    each lists only identifiers of its own range. *)
Theorem buildTIDEChunks_spec headers
    (Hs : StronglySorted TIEID_lt (headerID <$> headers))
    (Hr : Forall (fun h => tieid_in_range (headerID h)) headers) :
  let chunks := buildTIDEChunks headers in
  concat (TIDE_Headers <$> chunks) = headers /\
  Forall (fun c => (length (TIDE_Headers c) <= MaxTIDEHeaders)%nat) chunks /\
  tiles MinTIEID chunks /\
  Forall (fun c => Forall (in_range c) (tideIDs c)) chunks /\
  (forall id, tieid_in_range id -> exists c, c ∈ chunks /\ in_range c id).
Proof.
  cbv zeta. unfold buildTIDEChunks. destruct headers as [|h hs].
  { split_all; try by repeat constructor. intros id Hid.
    eexists. split; [by left|]. split; [by apply MinTIEID_le|by apply MaxTIEID_ge]. }
  assert (tiles MinTIEID (chunkLoop (length (h :: hs)) MinTIEID (h :: hs))) as Ht
    by by apply chunkLoop_tiles.
  split_all; [by apply chunkLoop_headers| |exact Ht| |].
  - eapply Forall_impl; [apply chunkLoop_length|]. cbn. lia.
  - apply chunkLoop_in_range; [done|]. eapply Forall_impl; [exact Hr|]. cbn. intros x Hx.
    split; [by apply MinTIEID_le|by apply MaxTIEID_ge].
  - intros id Hid. apply (tiles_cover MinTIEID); auto using MinTIEID_le, MaxTIEID_ge.
Qed.

Lemma buildTIDEChunks_spec_witness :
  concat (TIDE_Headers <$> buildTIDEChunks [foreign_header 1 1; foreign_header 2 1])
  = [foreign_header 1 1; foreign_header 2 1].
Proof.
  refine (proj1 (buildTIDEChunks_spec [foreign_header 1 1; foreign_header 2 1] _ _)).
  - constructor; [constructor; constructor|]. constructor; [|constructor].
    unfold TIEID_lt. cbn. lia.
  - unfold tieid_in_range, TieDirectionSouth, TieDirectionDirectionMaxValue, TIETypeMaxValue.
    constructor; [|constructor; [|constructor]]; cbn;
      unfold TieDirectionNorth, TIETypePrefixTIEType; lia.
Defined.

(** C16: a TIDE from a neighbour makes the engine request, on that adjacency,
    exactly the listed TIEs of other nodes that it should hold and that it lacks
    or holds in an older version, besides what was queued before; it leaves the
    stored TIEs of other nodes alone. *)
Theorem handleTIDE_requests {R : MapRange} k adj tide fe (Hi : fe_inv fe)
    (Hk : fe_adjacencies fe !! k = Some adj) :
  (forall id, Originator id <> fe_systemID fe ->
     fe_lsdb (handleTIDE k tide fe) !! id = fe_lsdb fe !! id) /\
  (forall id, id ∈ reqOf (handleTIDE k tide fe) k <->
     id ∈ reqOf fe k \/
     exists hdr, hdr ∈ TIDE_Headers tide /\ id = headerID hdr /\
       Originator id <> fe_systemID fe /\
       acceptTIE fe id (AI_NeighborLevel (AF_Info adj)) = true /\
       match fe_lsdb fe !! id with
       | None => True
       | Some e => 0 < CompareTIEHeader hdr (Entry_Header e)
       end).
Proof.
  destruct (handleTIDE_foreign k adj tide fe Hi Hk) as [[_ [_ Hdb]] Hreq].
  split; [exact Hdb|]. intros id. rewrite Hreq. unfold wanted. split.
  - intros [?|[hdr [? [-> ?]]]]; eauto 10.
  - intros [?|[hdr [? [-> ?]]]]; eauto 10.
Qed.

Definition sample_tide : TIDEPacket :=
  mkTIDEPacket MinTIEID MaxTIEID [foreign_header 1 1; foreign_header 2 1].

Lemma handleTIDE_requests_witness :
  foreign_id 1 ∈ reqOf (handleTIDE (R := canonical_range) "e1" sample_tide sample_spine) "e1".
Proof.
  assert (fe_inv sample_spine) as H1.
  { apply (evolves_handleAdjChange (R := canonical_range)). apply fe_inv_start. }
  assert (exists adj, fe_adjacencies sample_spine !! "e1"%string = Some adj /\
            AI_NeighborLevel (AF_Info adj) = 0) as [adj [Hk Hl]].
  { eexists. split; [vm_compute; reflexivity|reflexivity]. }
  apply (handleTIDE_requests (R := canonical_range) "e1" adj sample_tide sample_spine H1 Hk).
  right. exists (foreign_header 1 1). rewrite Hl. split_all.
  - left.
  - reflexivity.
  - vm_compute. discriminate.
  - vm_compute. reflexivity.
  - vm_compute. exact I.
Defined.

(** C19: when a TIDE lists each identifier once and no version of the node's own
    TIEs that is newer than the node's, it changes no database entry, and the
    engine then has queued for transmission on that adjacency: the listed TIEs it
    holds in a newer version, what was queued and is not listed in the same
    version, and the stored TIEs of the TIDE's range that the TIDE does not list
    and whose scope includes the neighbour. *)
Theorem handleTIDE_transmits {R : MapRange} k adj tide fe
    (Hk : fe_adjacencies fe !! k = Some adj)
    (Hnd : NoDup (tideIDs tide))
    (Hown : Forall (fun hdr => Originator (headerID hdr) = fe_systemID fe ->
       exists e, fe_lsdb fe !! headerID hdr = Some e /\
                 CompareTIEHeader hdr (Entry_Header e) <= 0) (TIDE_Headers tide)) :
  fe_lsdb (handleTIDE k tide fe) = fe_lsdb fe /\
  (forall id, id ∈ txOf (handleTIDE k tide fe) k <->
     compared fe (TIDE_Headers tide) (-1) id \/
     id ∈ txOf fe k /\ ~ compared fe (TIDE_Headers tide) 0 id \/
     is_Some (fe_lsdb fe !! id) /\ in_range tide id /\ id ∉ tideIDs tide /\
       ShouldFloodTIE id (fe_systemID fe) (fe_level fe)
         (AI_NeighborLevel (AF_Info adj)) = true).
Proof.
  destruct (handleTIDE_tx k adj tide fe Hk Hnd Hown) as [[_ Hdb] Htx]. split; [done|exact Htx].
Qed.

Lemma handleTIDE_transmits_witness :
  selfTIEID sample_spine TieDirectionSouth TIETypeNodeTIEType
  ∈ txOf (handleTIDE (R := canonical_range) "e1" sample_tide sample_spine) "e1".
Proof.
  assert (exists adj, fe_adjacencies sample_spine !! "e1"%string = Some adj /\
            AI_NeighborLevel (AF_Info adj) = 0) as [adj [Hk Hl]].
  { eexists. split; [vm_compute; reflexivity|reflexivity]. }
  apply (handleTIDE_transmits (R := canonical_range) "e1" adj sample_tide sample_spine Hk).
  - apply (bool_decide_unpack _). vm_compute. exact I.
  - constructor; [|constructor; [|constructor]]; intros H; exfalso; vm_compute in H;
      discriminate H.
  - right. right. rewrite Hl. split_all.
    + vm_compute. eauto.
    + split; vm_compute; discriminate.
    + apply (bool_decide_unpack _). vm_compute. exact I.
    + reflexivity.
Defined.

(** ** Received TIEs *)

(** C15: a TIE of another node, received on an adjacency, is stored (and
    acknowledged, flooded to the other interfaces and notified) exactly when it is
    new and to be held here, or newer than the stored version.  Otherwise the
    database is unchanged: an older version is answered with the stored one, the
    same version is acknowledged, and an unwanted new TIE changes nothing. *)
Theorem handleTIE_keeps_newest k tie fe adj
    (Hk : fe_adjacencies fe !! k = Some adj)
    (Ho : Originator (Header_TIEID (TIE_Header tie)) <> fe_systemID fe) :
  let id := Header_TIEID (TIE_Header tie) in
  let fe' := handleTIE k tie fe in
  match fe_lsdb fe !! id with
  | None =>
      if acceptTIE fe id (AI_NeighborLevel (AF_Info adj))
      then installed k tie fe fe' else fe' = fe
  | Some e =>
      let cmp := CompareTIEHeader (receivedHeader tie) (Entry_Header e) in
      (0 < cmp -> installed k tie fe fe') /\
      (cmp < 0 -> fe_lsdb fe' = fe_lsdb fe /\ id ∈ txOf fe' k) /\
      (cmp = 0 -> fe_lsdb fe' = fe_lsdb fe /\ id ∈ ackOf fe' k)
  end.
Proof.
  cbv zeta. unfold handleTIE, Get. rewrite Hk. set (id := Header_TIEID (TIE_Header tie)) in *.
  apply Z.eqb_neq in Ho. rewrite Ho.
  destruct (fe_lsdb fe !! id) as [e|] eqn:E.
  - set (cmp := CompareTIEHeader _ _). rewrite Z.gtb_ltb. split_all; intros Hc.
    + destruct (Z.ltb_spec 0 cmp); [|lia]. apply installTIE_installed.
    + destruct (Z.ltb_spec 0 cmp); [lia|]. destruct (Z.ltb_spec cmp 0); [|lia].
      split; [done|]. rewrite (txOf_enqueueTX _ _ _ Hk). set_solver.
    + destruct (Z.ltb_spec 0 cmp); [lia|]. destruct (Z.ltb_spec cmp 0); [lia|].
      split; [done|]. unfold ackOf. cbn. rewrite lookup_alter_eq, Hk. cbn. set_solver.
  - case_match; [apply installTIE_installed|done].
Qed.

Lemma handleTIE_keeps_newest_witness :
  installed "e1" (foreign_tie 1 1) sample_spine (handleTIE "e1" (foreign_tie 1 1) sample_spine).
Proof.
  assert (exists adj, fe_adjacencies sample_spine !! "e1"%string = Some adj /\
            AI_NeighborLevel (AF_Info adj) = 0) as [adj [Hk Hl]].
  { eexists. split; [vm_compute; reflexivity|reflexivity]. }
  assert (Originator (Header_TIEID (TIE_Header (foreign_tie 1 1)))
            <> fe_systemID sample_spine) as Ho by (vm_compute; discriminate).
  pose proof (handleTIE_keeps_newest "e1" (foreign_tie 1 1) sample_spine adj Hk Ho) as H.
  cbv zeta in H. rewrite Hl in H.
  assert (fe_lsdb sample_spine !! Header_TIEID (TIE_Header (foreign_tie 1 1)) = None) as E
    by (vm_compute; reflexivity).
  rewrite E in H.
  assert (acceptTIE sample_spine (Header_TIEID (TIE_Header (foreign_tie 1 1))) 0 = true) as E'
    by (vm_compute; reflexivity).
  rewrite E' in H. exact H.
Defined.

(** The reception, over and over, of one version of the node's own TIE. *)
Section own_tie.
Context (k : string) (tie : TIEPacket) (fe : FloodEngine) (adj : adjFloodState) (e : LSDBEntry).
Let id := Header_TIEID (TIE_Header tie).
Let s := SeqNr (TIE_Header tie).
Hypothesis Hi : fe_inv fe.
Hypothesis Hk : fe_adjacencies fe !! k = Some adj.
Hypothesis Ho : Originator id = fe_systemID fe.
Hypothesis He : fe_lsdb fe !! id = Some e.
Hypothesis Hs : 0 <= Entry_SeqNr e < s.
Hypothesis Hmax : s < 9223372036854775808.
Hypothesis Hl : Z.abs (HL_RemainingLifetime (receivedHeader tie) - DefaultLifetime)
                <= LifetimeDiff2Ignore.

Lemma own_tie_equal e1 :
  Entry_SeqNr e1 = s -> Entry_RemainingLifetime e1 = DefaultLifetime ->
  CompareTIEHeader (receivedHeader tie) (Entry_Header e1) = 0.
Proof.
  intros Heq Hlt. unfold DefaultLifetime, LifetimeDiff2Ignore in *.
  rewrite CompareTIEHeader_lifetime; cbn [Entry_Header HL_RemainingLifetime]; rewrite ?Hlt;
    unfold LifetimeDiff2Ignore; try lia.
  - destruct (Z.leb_spec (Z.abs (HL_RemainingLifetime (receivedHeader tie) - 604800)) 400);
      [done|lia].
  - symmetry. exact Heq.
Qed.

Lemma own_tie_newer e1 :
  Entry_SeqNr e1 < s -> CompareTIEHeader (receivedHeader tie) (Entry_Header e1) >? 0 = true.
Proof.
  unfold s. intros Hlt. rewrite CompareTIEHeader_seq by (cbn; unfold Entry_SeqNr in Hlt; lia).
  cbn. unfold Entry_SeqNr in Hlt.
  destruct (cmpInt_spec (SeqNr (TIE_Header tie)) (SeqNr (TIE_Header (Entry_Packet e1))))
    as [[_ ?]|[[_ ?]|[-> _]]]; [lia|lia|done].
Qed.

Lemma own_tie_stable fe1 adj1 e1 :
  fe_adjacencies fe1 !! k = Some adj1 -> Originator id = fe_systemID fe1 ->
  fe_lsdb fe1 !! id = Some e1 -> stable fe1 (handleTIE k tie fe1).
Proof.
  intros Hk1 Ho1 He1. unfold handleTIE, Get. rewrite Hk1. fold id.
  rewrite He1, Ho1, Z.eqb_refl. case_match; [|case_match; auto with rift].
  etrans; [apply stable_bumpOwnTIE|auto with rift].
Qed.

Lemma own_tie_climb j :
  let fe' := Nat.iter j (handleTIE k tie) fe in
  fe_inv fe' /\ stable fe fe' /\ exists e', fe_lsdb fe' !! id = Some e' /\
    TIE_Element (Entry_Packet e') = TIE_Element (Entry_Packet e) /\
    Entry_SeqNr e' = Z.min s (Entry_SeqNr e + Z.of_nat j) /\
    (j = O \/ Entry_RemainingLifetime e' = DefaultLifetime).
Proof.
  cbv zeta. induction j as [|j IH].
  { cbn [Nat.iter nat_rect]. split; [exact Hi|]. split; [reflexivity|].
    exists e. split; [exact He|]. split; [reflexivity|]. split; [lia|by left]. }
  rewrite Nat.iter_succ. set (fe1 := Nat.iter j (handleTIE k tie) fe) in *.
  destruct IH as (Hi1 & Hst & e1 & He1 & Hel & Hseq & Hlt).
  destruct (stable_lookup _ _ _ _ Hst Hk) as [adj1 [Hk1 _]].
  assert (Originator id = fe_systemID fe1) as Ho1 by by rewrite (st_sys _ _ Hst).
  pose proof (handleTIE_own k tie fe1 adj1 e1 Hi1 Hk1 Ho1 He1) as Hown. fold id in Hown.
  pose proof (own_tie_stable _ _ _ Hk1 Ho1 He1) as Hst1.
  split; [by apply evolves_handleTIE|]. split; [by etrans|].
  destruct (Z.eq_dec (Entry_SeqNr e1) s) as [Heq|Hne].
  - destruct Hlt as [->|Hlt]; [lia|]. rewrite own_tie_equal in Hown by done.
    exists e1. split; [exact Hown|]. split; [exact Hel|]. split; [lia|by right].
  - rewrite own_tie_newer in Hown by lia.
    exists (bumpedEntry e1). split; [exact Hown|]. split; [exact Hel|].
    split; [|by right].
    transitivity (wrap 64 (Entry_SeqNr e1 + 1)); [done|].
    rewrite wrap_id; [lia|lia|apply is_int64; lia].
Qed.
End own_tie.

(** C26: a newer version of the node's own TIE is answered by bumping the stored
    one by one only.  A neighbour that keeps sending a version with sequence
    number [s] makes the node climb to [s], one reception at a time, and stop
    there: from then on the node regards the neighbour's version as its own (the
    lifetimes being within [LifetimeDiff2Ignore]) while it stores its own
    content. *)
Theorem own_tie_stalls_at_equal k tie fe adj e (m : nat)
    (Hi : fe_inv fe) (Hk : fe_adjacencies fe !! k = Some adj)
    (Ho : Originator (Header_TIEID (TIE_Header tie)) = fe_systemID fe)
    (He : fe_lsdb fe !! Header_TIEID (TIE_Header tie) = Some e)
    (Hs : 0 <= Entry_SeqNr e < SeqNr (TIE_Header tie))
    (Hmax : SeqNr (TIE_Header tie) < 9223372036854775808)
    (Hl : Z.abs (HL_RemainingLifetime (receivedHeader tie) - DefaultLifetime)
          <= LifetimeDiff2Ignore)
    (Hm : SeqNr (TIE_Header tie) - Entry_SeqNr e <= Z.of_nat m) :
  exists e',
    fe_lsdb (Nat.iter m (handleTIE k tie) fe) !! Header_TIEID (TIE_Header tie) = Some e' /\
    Entry_SeqNr e' = SeqNr (TIE_Header tie) /\
    TIE_Element (Entry_Packet e') = TIE_Element (Entry_Packet e) /\
    CompareTIEHeader (receivedHeader tie) (Entry_Header e') = 0.
Proof.
  destruct (own_tie_climb k tie fe adj e Hi Hk Ho He Hs Hmax Hl m)
    as (_ & _ & e' & He' & Hel & Hseq & Hlt).
  exists e'. split; [exact He'|]. split; [lia|]. split; [exact Hel|].
  apply own_tie_equal; [exact Hl|lia|]. destruct Hlt; [lia|done].
Qed.

Lemma own_tie_stalls_at_equal_witness :
  let tie := mkTIEPacket (mkTIEHeader (selfTIEID sample_spine TieDirectionNorth
               TIETypeNodeTIEType) 5 None (Some DefaultLifetime)) zeroTIEElement in
  exists e', fe_lsdb (Nat.iter 4 (handleTIE "e1" tie) sample_spine)
               !! Header_TIEID (TIE_Header tie) = Some e' /\ Entry_SeqNr e' = 5.
Proof.
  cbv zeta. set (tie := mkTIEPacket _ _).
  assert (fe_inv sample_spine) as H1.
  { apply (evolves_handleAdjChange (R := canonical_range)). apply fe_inv_start. }
  assert (exists adj, fe_adjacencies sample_spine !! "e1"%string = Some adj) as [adj Hk].
  { eexists. vm_compute. reflexivity. }
  assert (exists e, fe_lsdb sample_spine !! Header_TIEID (TIE_Header tie) = Some e /\
            Entry_SeqNr e = 1) as [e [He Hs]].
  { eexists. split; [vm_compute; reflexivity|reflexivity]. }
  destruct (own_tie_stalls_at_equal "e1" tie sample_spine adj e 4 H1 Hk) as (e' & H & Hq & _).
  - vm_compute. reflexivity.
  - exact He.
  - rewrite Hs. cbn. lia.
  - cbn. lia.
  - cbn. unfold LifetimeDiff2Ignore, DefaultLifetime. lia.
  - rewrite Hs. cbn. lia.
  - exists e'. split; [exact H|exact Hq].
Defined.

(** A TIE that names this node as its originator, and that this node does not
    store, is neither stored nor re-originated: the database stays as it is, so
    the stale TIE lives on in the network. *)
Theorem stale_own_tie_survives k tie fe
    (Ho : Originator (Header_TIEID (TIE_Header tie)) = fe_systemID fe)
    (Hn : fe_lsdb fe !! Header_TIEID (TIE_Header tie) = None) :
  fe_lsdb (handleTIE k tie fe) = fe_lsdb fe /\
  (forall k', ackOf (handleTIE k tie fe) k' = ackOf fe k').
Proof.
  unfold handleTIE, Get. rewrite Hn, Ho, Z.eqb_refl.
  destruct (fe_adjacencies fe !! k); [|done].
  unfold bumpOwnTIE, Get. rewrite Hn. split; [done|]. intros k'.
  unfold ackOf. cbn. rewrite lookup_fmap. destruct (fe_adjacencies fe !! k'); [|done].
  cbn. unfold floodToAdj. by case_match.
Qed.

Lemma stale_own_tie_survives_witness :
  fe_lsdb (handleTIE "e1" (foreign_tie 1 7) (NewFloodEngine 2 0 "leaf" [])) = ∅.
Proof.
  exact (proj1 (stale_own_tie_survives "e1" (foreign_tie 1 7) (NewFloodEngine 2 0 "leaf" [])
                  eq_refl eq_refl)).
Defined.

(** ** Adjacency changes *)

Section collect.
Context {R : MapRange} (keep : AdjacencyInfo -> bool).


End collect.

Section origination.
Context {R : MapRange}.






End origination.




