(* ===== verification/FloodSync.v ===== *)
(** * FloodSync: two engines exchanging their databases.

    The headers advertised to a neighbour, and the pull of a TIE: the sender's
    TIDE, the receiver's request, the sender's TIE, its installation. *)

From S2P Require Import Prelude.
From S2P Require Import Types.
From S2P Require Import Lsdb.
From S2P Require Import Scope.
From S2P Require Import FloodState.
From S2P Require Import Flood.
From S2P Require Import FloodInv.
From S2P Require Import FloodTide.
From S2P Require Import FloodDrain.
From S2P Require Import FloodTheorems.

(** ** The advertised headers *)

Definition included (fe : FloodEngine) (lvl : Z) (id : TIEID) : bool :=
  ShouldIncludeInTIDE id (fe_systemID fe) (fe_level fe) lvl.

Lemma tideHeadersFor_loop fe lvl l acc :
  rev (iterEntries (fun id entry headers =>
    (if ShouldIncludeInTIDE id (fe_systemID fe) (fe_level fe) lvl
     then Entry_Header entry :: headers else headers, true)) l acc)
  = rev acc ++ ((fun kv => Entry_Header kv.2) <$>
      filter (fun kv => included fe lvl kv.1 = true) l).
Proof.
  revert acc. induction l as [|[id e] l IH]; intros acc; cbn [iterEntries].
  { by rewrite filter_nil, app_nil_r. }
  rewrite IH. change (ShouldIncludeInTIDE id (fe_systemID fe) (fe_level fe) lvl)
    with (included fe lvl id). destruct (included fe lvl id) eqn:E.
  - rewrite filter_cons_True by done. cbn. by rewrite <-app_assoc.
  - rewrite filter_cons_False by (cbn; congruence). done.
Qed.

Lemma tideHeadersFor_eq fe lvl :
  tideHeadersFor fe lvl = (fun kv => Entry_Header kv.2) <$>
    filter (fun kv => included fe lvl kv.1 = true) (sortedEntries (fe_lsdb fe)).
Proof. unfold tideHeadersFor, ForEachSorted. by rewrite tideHeadersFor_loop. Qed.

Lemma elem_of_tideHeadersFor fe lvl h :
  h ∈ tideHeadersFor fe lvl <->
  exists id e, fe_lsdb fe !! id = Some e /\ included fe lvl id = true /\ h = Entry_Header e.
Proof.
  rewrite tideHeadersFor_eq, list_elem_of_fmap. split.
  - intros [[id e] [-> [Hi Hin%elem_of_sortedEntries]%list_elem_of_filter]]. eauto.
  - intros (id & e & He & Hi & ->). exists (id, e). split; [done|].
    apply list_elem_of_filter. split; [done|]. by apply elem_of_sortedEntries.
Qed.

Lemma chunk_of_header headers h :
  h ∈ headers -> exists c, c ∈ buildTIDEChunks headers /\ h ∈ TIDE_Headers c.
Proof.
  intros Hin. destruct headers as [|h0 hs]; [by apply not_elem_of_nil in Hin|].
  assert (h ∈ concat (TIDE_Headers <$> buildTIDEChunks (h0 :: hs))) as H.
  { unfold buildTIDEChunks. by rewrite chunkLoop_headers. }
  apply list_elem_of_In, in_concat in H as [l [Hl Hh]].
  apply list_elem_of_In, list_elem_of_fmap in Hl as [c [-> Hc]].
  apply list_elem_of_In in Hh. eauto.
Qed.

(** ** Requests *)

Definition request_answered (e : LSDBEntry) : Prop :=
  0 <= Entry_SeqNr e /\ 0 <= Entry_RemainingLifetime e < 2147483648.

Lemma request_compare id e :
  request_answered e -> CompareTIEHeader (requestHeader id) (Entry_Header e) <= 0.
Proof.
  intros [Hs Hl]. destruct (Z.eq_dec 0 (Entry_SeqNr e)) as [E|E].
  - rewrite CompareTIEHeader_lifetime; cbn; try lia; [|exact E].
    case_match; [lia|]. destruct (cmpInt_spec 0 (Entry_RemainingLifetime e)) as [?|[?|?]]; lia.
  - rewrite CompareTIEHeader_seq by exact E. cbn.
    change (SeqNr (TIE_Header (Entry_Packet e))) with (Entry_SeqNr e).
    destruct (cmpInt_spec 0 (Entry_SeqNr e)) as [?|[?|?]]; lia.
Qed.

Lemma tireHeader_base k fe hdr : sameBase fe (tireHeader k fe hdr).
Proof.
  unfold tireHeader. repeat case_match; split; auto with rift; done.
Qed.

Lemma sameBase_foldl {A} (f : FloodEngine -> A -> FloodEngine) l fe :
  (forall fe a, sameBase fe (f fe a)) -> sameBase fe (foldl f fe l).
Proof.
  intros Hf. revert fe. induction l as [|a l IH]; intros fe; cbn; [by split|].
  eapply sameBase_trans; [apply Hf|apply IH].
Qed.

(** A request that is answered: the TIE is queued, and the other requests of the
    same packet do not remove it. *)
Lemma handleTIRE_requests k adj fe ids id e :
  fe_adjacencies fe !! k = Some adj -> id ∈ ids ->
  fe_lsdb fe !! id = Some e -> request_answered e ->
  let fe' := handleTIRE k (mkTIREPacket (requestHeader <$> ids)) fe in
  sameBase fe fe' /\ id ∈ txOf fe' k.
Proof.
  intros Hk Hin He Hr. cbv zeta. unfold handleTIRE. rewrite Hk. cbn [TIRE_Headers].
  split; [by apply sameBase_foldl, tireHeader_base|].
  apply list_elem_of_split in Hin as (l1 & l2 & ->).
  rewrite fmap_app, foldl_app. cbn [fmap list_fmap foldl].
  set (fe1 := foldl _ fe _). assert (sameBase fe fe1) as [Hst Hdb]
    by by apply sameBase_foldl, tireHeader_base.
  destruct (stable_lookup _ _ _ _ Hst Hk) as [adj1 [Hk1 _]].
  assert (id ∈ txOf (tireHeader k fe1 (requestHeader id)) k) as H1.
  { unfold tireHeader, Get. rewrite Hdb. cbn [requestHeader HL_Header].
    change (Header_TIEID _) with id. rewrite He. cbn [HL_RemainingLifetime].
    rewrite Z.eqb_refl. rewrite (proj2 (Z.leb_le _ _)) by by apply request_compare.
    rewrite (txOf_enqueueTX _ _ _ Hk1). set_solver. }
  revert H1. generalize (tireHeader k fe1 (requestHeader id)). clear.
  induction l2 as [|i l2 IH]; intros fe H; [done|]. cbn [fmap list_fmap foldl]. apply IH.
  unfold tireHeader. case_match; [|done]. cbn [requestHeader HL_RemainingLifetime].
  rewrite Z.eqb_refl. case_match; [|done].
  unfold txOf, enqueueTX, updAdj in *. cbn. rewrite lookup_alter_eq.
  destruct (fe_adjacencies fe !! k); cbn; set_solver.
Qed.

(** ** The three exchanges *)

Section exchanges.
Context {R : MapRange}.

Lemma tiePacketFor_info fe adj adj' e :
  AF_Info adj' = AF_Info adj -> tiePacketFor fe adj' e = tiePacketFor fe adj e.
Proof. unfold tiePacketFor, floodPacketTo. by intros ->. Qed.
Lemma tirePacketFor_info fe adj adj' hdrs :
  AF_Info adj' = AF_Info adj -> tirePacketFor fe adj' hdrs = tirePacketFor fe adj hdrs.
Proof. unfold tirePacketFor, floodPacketTo. by intros ->. Qed.
Lemma tiePacketFor_stable fe fe' adj e :
  stable fe fe' -> tiePacketFor fe' adj e = tiePacketFor fe adj e.
Proof. intros H. unfold tiePacketFor. by rewrite (packetOf_same fe fe'). Qed.
Lemma tirePacketFor_stable fe fe' adj hdrs :
  stable fe fe' -> tirePacketFor fe' adj hdrs = tirePacketFor fe adj hdrs.
Proof. intros H. unfold tirePacketFor. by rewrite (packetOf_same fe fe'). Qed.

Lemma stable_handleTIDE k tide fe : stable fe (handleTIDE k tide fe).
Proof.
  unfold handleTIDE. case_match; [|done]. unfold ForEachSorted.
  rewrite iter_tideMissing by apply sortedEntries_sorted.
  etrans; [|by apply stable_updAdj]. apply stable_foldl. intros. apply stable_tideHeader.
Qed.

(** A wanted header of a TIDE is requested. *)
Lemma request_sent k adj fe tide hdr :
  fe_inv fe -> fe_adjacencies fe !! k = Some adj ->
  hdr ∈ TIDE_Headers tide -> wanted fe (AI_NeighborLevel (AF_Info adj)) hdr ->
  let fe2 := drainQueues (handleTIDE k tide fe) in
  stable fe fe2 /\ fe_lsdb fe2 !! headerID hdr = fe_lsdb fe !! headerID hdr /\
  (room fe2 -> exists ids, headerID hdr ∈ ids /\
     tirePacketFor fe adj (requestHeader <$> ids) ∈ fe_FloodSendCh fe2).
Proof.
  intros Hi Hk Hh Hw. cbv zeta. set (fe1 := handleTIDE k tide fe).
  destruct (handleTIDE_foreign k adj tide fe Hi Hk) as [[_ [_ Hdb]] Hreq].
  pose proof (stable_handleTIDE k tide fe) as Hst. fold fe1 in Hst, Hdb, Hreq.
  destruct (stable_lookup _ _ _ _ Hst Hk) as [adj1 [Hk1 Hinfo]].
  destruct (sends_base _ _ (sends_drainQueues fe1)) as [Hst2 Hdb2].
  split; [by etrans|]. split; [rewrite Hdb2; apply Hdb, Hw|]. intros Hr.
  assert (headerID hdr ∈ TIEsREQ adj1) as Hin.
  { assert (headerID hdr ∈ reqOf fe1 k) as H by (apply Hreq; right; eauto).
    unfold reqOf in H. by rewrite Hk1 in H. }
  exists (range_set (TIEsREQ adj1)). split; [by apply elem_of_range_set|].
  rewrite <-(tirePacketFor_info fe adj adj1), <-(tirePacketFor_stable fe fe1) by done.
  apply (drainQueues_sent fe1 k adj1 Hk1 Hr). set_solver.
Qed.

(** A request for a stored TIE is answered with it. *)
Lemma request_served k adj fe ids id e :
  fe_adjacencies fe !! k = Some adj -> id ∈ ids -> fe_lsdb fe !! id = Some e ->
  request_answered e ->
  let fe2 := drainQueues (handleTIRE k (mkTIREPacket (requestHeader <$> ids)) fe) in
  room fe2 -> tiePacketFor fe adj e ∈ fe_FloodSendCh fe2.
Proof.
  intros Hk Hin He Ha. cbv zeta. intros Hr.
  destruct (handleTIRE_requests k adj fe ids id e Hk Hin He Ha) as [[Hst Hdb] Htx].
  set (fe1 := handleTIRE k _ fe) in *.
  destruct (stable_lookup _ _ _ _ Hst Hk) as [adj1 [Hk1 Hinfo]].
  rewrite <-(tiePacketFor_info fe adj adj1), <-(tiePacketFor_stable fe fe1) by done.
  apply (drainQueues_sent fe1 k adj1 Hk1 Hr) with id; [|by rewrite Hdb].
  unfold txOf in Htx. by rewrite Hk1 in Htx.
Qed.

(** A received TIE that is to be held and is new, or has a larger sequence
    number than the stored one, is stored. *)
Lemma newer_installed k adj fe tie :
  let id := Header_TIEID (TIE_Header tie) in
  fe_adjacencies fe !! k = Some adj -> Originator id <> fe_systemID fe ->
  acceptTIE fe id (AI_NeighborLevel (AF_Info adj)) = true ->
  (forall e, fe_lsdb fe !! id = Some e -> Entry_SeqNr e < SeqNr (TIE_Header tie)) ->
  fe_lsdb (handleTIE k tie fe) !! id = Some (receivedEntry tie).
Proof.
  cbv zeta. intros Hk Ho%Z.eqb_neq Hacc Hold. unfold handleTIE, Get. rewrite Hk.
  assert (fe_lsdb (installTIE k tie fe) !! Header_TIEID (TIE_Header tie)
          = Some (receivedEntry tie)) as Hin by apply lookup_insert_eq.
  destruct (fe_lsdb fe !! _) as [e|].
  - specialize (Hold e eq_refl). rewrite CompareTIEHeader_seq by (cbn; unfold Entry_SeqNr in *; lia).
    destruct (cmpInt_spec (SeqNr (HL_Header (receivedHeader tie)))
      (SeqNr (HL_Header (Entry_Header e)))) as [[_ H]|[[_ H]|[-> _]]];
      [cbn in H; unfold Entry_SeqNr in *; lia..|]. by rewrite Ho.
  - by rewrite Ho, Hacc.
Qed.

(** A stored TIE of the range that the TIDE does not list is queued. *)
Lemma unlisted_queued k adj tide fe id :
  fe_inv fe -> fe_adjacencies fe !! k = Some adj -> is_Some (fe_lsdb fe !! id) ->
  in_range tide id -> id ∉ tideIDs tide ->
  ShouldFloodTIE id (fe_systemID fe) (fe_level fe) (AI_NeighborLevel (AF_Info adj)) = true ->
  id ∈ txOf (handleTIDE k tide fe) k.
Proof.
  intros Hi Hk [e He] Hr Hn Hf. unfold handleTIDE. rewrite Hk. unfold ForEachSorted.
  rewrite iter_tideMissing by apply sortedEntries_sorted.
  set (lvl := AI_NeighborLevel (AF_Info adj)) in *.
  assert (stable fe (foldl (tideHeader k lvl) fe (TIDE_Headers tide))) as Hst.
  { apply stable_foldl. intros. apply stable_tideHeader. }
  destruct (evolves_tideHeaders k adj (TIDE_Headers tide) fe Hk Hi) as [_ _ _ Hl].
  destruct (Hl id e He) as [e' [He' _]]. fold lvl in He'.
  destruct (stable_lookup _ _ _ _ Hst Hk) as [adj' [Hk' _]].
  rewrite (txOf_addTX _ _ _ _ Hk'), elem_of_union, elem_of_list_to_set. left.
  apply list_elem_of_filter. split.
  - destruct Hst as [_ Hs Hlv]. unfold unlisted. rewrite Hs, Hlv, elem_of_list_to_set. done.
  - apply list_elem_of_fmap. exists (id, e'). split; [done|]. by apply elem_of_sortedEntries.
Qed.
End exchanges.

(** The first two chunks of a long header list. *)
Lemma chunkLoop_two fuel start hs h :
  (MaxTIDEHeaders < length hs <= S fuel)%nat -> hs !! Nat.pred MaxTIDEHeaders = Some h ->
  exists r c2 cs,
    chunkLoop (S fuel) start hs
      = mkTIDEPacket start (headerID h) (take MaxTIDEHeaders hs) :: c2 :: cs /\
    TIDE_StartRange c2 = headerID h /\ r ∈ TIDE_Headers c2 /\
    (forall x, x ∈ TIDE_Headers c2 -> x ∈ drop MaxTIDEHeaders hs).
Proof.
  intros [Hn Hf] Hh. destruct hs as [|h0 hs]; [done|]. rewrite chunkLoop_cons. cbv zeta.
  assert (last (take MaxTIDEHeaders (h0 :: hs)) = Some h) as Hl.
  { rewrite last_lookup, length_take, Nat.min_l by lia.
    rewrite lookup_take_lt by (unfold MaxTIDEHeaders; lia). exact Hh. }
  rewrite Hl. destruct (drop MaxTIDEHeaders (h0 :: hs)) as [|r rest] eqn:E.
  { apply (f_equal length) in E. rewrite length_drop in E. cbn [length] in *. lia. }
  destruct fuel as [|fuel]; [unfold MaxTIDEHeaders in Hn; lia|].
  cbn [fmap option_fmap option_map default]. rewrite chunkLoop_cons. cbv zeta.
  exists r. do 2 eexists. split; [reflexivity|]. split; [reflexivity|].
  split; [by left|]. intros x Hx. cbn [TIDE_Headers] in Hx.
  rewrite <-(take_drop MaxTIDEHeaders (r :: rest)). apply elem_of_app. by left.
Qed.

(** ** Theorems *)

Module SyncTheorems.

(** C22: draining the queues empties the three queues of every adjacency, leaves
    the database alone, and drops nothing when the send channel is not full
    afterwards: each queued TIE that is stored, the requests and the
    acknowledgments are among the packets sent. *)
Theorem drainQueues_spec {R : MapRange} fe k adj
    (Hk : fe_adjacencies fe !! k = Some adj) :
  fe_lsdb (drainQueues fe) = fe_lsdb fe /\
  fe_adjacencies (drainQueues fe) !! k = Some (newAdjFloodState (AF_Info adj)) /\
  ((length (fe_FloodSendCh (drainQueues fe)) < FloodSendCap)%nat ->
   (forall id e, id ∈ TIEsTX adj -> fe_lsdb fe !! id = Some e ->
      tiePacketFor fe adj e ∈ fe_FloodSendCh (drainQueues fe)) /\
   (TIEsREQ adj <> ∅ ->
      tirePacketFor fe adj (requestHeader <$> range_set (TIEsREQ adj))
      ∈ fe_FloodSendCh (drainQueues fe)) /\
   ((exists id, id ∈ TIEsACK adj /\ is_Some (fe_lsdb fe !! id)) ->
      tirePacketFor fe adj
        (omap (fun id => Entry_Header <$> fe_lsdb fe !! id) (range_set (TIEsACK adj)))
      ∈ fe_FloodSendCh (drainQueues fe))).
Proof.
  split; [apply (sends_base _ _ (sends_drainQueues fe))|].
  split; [by rewrite drainQueues_adj, Hk|]. intros Hr. by apply (drainQueues_sent fe k adj).
Qed.

Lemma drainQueues_spec_witness :
  (length (fe_FloodSendCh (drainQueues (R := canonical_range) sample_spine)) = 2)%nat /\
  txOf (drainQueues (R := canonical_range) sample_spine) "e1" = ∅.
Proof.
  assert (exists adj, fe_adjacencies sample_spine !! "e1"%string = Some adj) as [adj Hk].
  { eexists. vm_compute. reflexivity. }
  split; [vm_compute; reflexivity|]. unfold txOf.
  rewrite (proj1 (proj2 (drainQueues_spec (R := canonical_range) sample_spine "e1" adj Hk))).
  reflexivity.
Defined.

(** C1: a TIE that node [A] stores and advertises reaches a neighbour [B] that
    should hold it and lacks it, or has it with a smaller sequence number: some
    TIDE of [A] lists it; when [B] has handled this TIDE and drained its queues, a
    request for it is sent; when [A] has handled this request and drained its
    queues, the TIE is sent; and when [B] has handled the TIE it stores it.  No
    packet may be dropped, that is the send channels are not full. *)
Theorem pull_synchronises {R : MapRange} A B kA kB adjA adjB id eA
    (HiA : fe_inv A) (HiB : fe_inv B)
    (HkA : fe_adjacencies A !! kA = Some adjA) (HkB : fe_adjacencies B !! kB = Some adjB)
    (HlA : AI_NeighborLevel (AF_Info adjA) = fe_level B)
    (HlB : AI_NeighborLevel (AF_Info adjB) = fe_level A)
    (HeA : fe_lsdb A !! id = Some eA) (Hans : request_answered eA)
    (Hinc : ShouldIncludeInTIDE id (fe_systemID A) (fe_level A) (fe_level B) = true)
    (Hacc : shouldAcceptTIE (fe_systemID B) (fe_level B) id (fe_level A) = true)
    (HoB : Originator id <> fe_systemID B)
    (Hold : forall eB, fe_lsdb B !! id = Some eB -> Entry_SeqNr eB < Entry_SeqNr eA) :
  exists tide, tide ∈ buildTIDEChunks (tideHeadersFor A (AI_NeighborLevel (AF_Info adjA))) /\
  let B1 := handleTIDE kB tide B in
  let B2 := drainQueues B1 in
  room B2 ->
  exists ids, tirePacketFor B adjB (requestHeader <$> ids) ∈ fe_FloodSendCh B2 /\
  let A2 := drainQueues (handleTIRE kA (mkTIREPacket (requestHeader <$> ids)) A) in
  room A2 ->
  tiePacketFor A adjA eA ∈ fe_FloodSendCh A2 /\
  fe_lsdb (handleTIE kB (Entry_Packet eA) B2) !! id = Some (receivedEntry (Entry_Packet eA)).
Proof.
  assert (Entry_TIEID eA = id) as Hid by apply (inv_lsdb _ HiA _ _ HeA).
  destruct (chunk_of_header (tideHeadersFor A (AI_NeighborLevel (AF_Info adjA)))
    (Entry_Header eA)) as [tide [Htide Hh]].
  { apply elem_of_tideHeadersFor. exists id, eA. unfold included. by rewrite HlA. }
  exists tide. split; [exact Htide|]. cbv zeta. intros HrB.
  assert (wanted B (AI_NeighborLevel (AF_Info adjB)) (Entry_Header eA)) as Hw.
  { unfold wanted, acceptTIE. rewrite (Hid : headerID (Entry_Header eA) = id), HlB. split; [done|]. split; [done|].
    destruct (fe_lsdb B !! id) as [eB|] eqn:EB; [|done]. specialize (Hold eB eq_refl).
    rewrite CompareTIEHeader_seq by (cbn; unfold Entry_SeqNr in *; lia). cbn.
    unfold Entry_SeqNr in *. destruct (cmpInt_spec (SeqNr (TIE_Header (Entry_Packet eA)))
      (SeqNr (TIE_Header (Entry_Packet eB)))) as [?|[?|?]]; lia. }
  destruct (request_sent kB adjB B tide _ HiB HkB Hh Hw) as (Hst & Hdb & Hsent).
  destruct (Hsent HrB) as [ids [Hin Hp]].
  rewrite (Hid : headerID (Entry_Header eA) = id) in Hin, Hdb.
  exists ids. split; [exact Hp|]. intros HrA.
  split; [by apply (request_served kA adjA A ids id eA)|].
  destruct (stable_lookup _ _ _ _ Hst HkB) as [adjB2 [HkB2 Hinfo]].
  rewrite <-Hid. apply (newer_installed kB adjB2); unfold acceptTIE;
    rewrite ?(st_sys _ _ Hst), ?(st_level _ _ Hst), ?Hinfo, ?HlB; [done|..];
    rewrite (Hid : Header_TIEID (TIE_Header (Entry_Packet eA)) = id); [done|done|].
  rewrite Hdb. exact Hold.
Qed.

(** Two nodes that are one adjacency apart, the upper one holding a prefix TIE of
    its own. *)
Definition upper : FloodEngine :=
  handleAdjChange (R := canonical_range)
    (mkAdjacencyChange "a" (Some (node_info "a" 2 0))) (NewFloodEngine 1 1 "upper" []).
Definition lower : FloodEngine :=
  handleAdjChange (R := canonical_range)
    (mkAdjacencyChange "b" (Some (node_info "b" 1 1))) (NewFloodEngine 2 0 "lower" []).
Definition upper_id : TIEID := mkTIEID TieDirectionSouth 1 TIETypePrefixTIEType 1.

Lemma pull_synchronises_witness :
  exists eA, fe_lsdb upper !! upper_id = Some eA /\ fe_lsdb lower !! upper_id = None /\
  exists tide, tide ∈ buildTIDEChunks (tideHeadersFor upper 0) /\
  (room (drainQueues (R := canonical_range) (handleTIDE (R := canonical_range) "b" tide lower)) ->
   exists ids, tirePacketFor lower (newAdjFloodState (node_info "b" 1 1))
     (requestHeader <$> ids) ∈ fe_FloodSendCh (drainQueues (R := canonical_range)
        (handleTIDE (R := canonical_range) "b" tide lower))).
Proof.
  assert (fe_inv upper) as HiA.
  { apply (evolves_handleAdjChange (R := canonical_range)). apply fe_inv_start. }
  assert (fe_inv lower) as HiB.
  { apply (evolves_handleAdjChange (R := canonical_range)). apply fe_inv_start. }
  assert (exists eA, fe_lsdb upper !! upper_id = Some eA /\ Entry_SeqNr eA = 1 /\
            Entry_RemainingLifetime eA = DefaultLifetime) as (eA & HeA & HsA & HrA).
  { eexists. split; [vm_compute; reflexivity|]. split; reflexivity. }
  assert (exists adjA, fe_adjacencies upper !! "a"%string = Some adjA /\
            AF_Info adjA = node_info "a" 2 0) as (adjA & HkA & HlA).
  { eexists. split; [vm_compute; reflexivity|reflexivity]. }
  assert (exists adjB, fe_adjacencies lower !! "b"%string = Some adjB /\
            AF_Info adjB = node_info "b" 1 1) as (adjB & HkB & HlB).
  { eexists. split; [vm_compute; reflexivity|reflexivity]. }
  assert (fe_lsdb lower !! upper_id = None) as HeB by (vm_compute; reflexivity).
  exists eA. split; [exact HeA|]. split; [exact HeB|].
  destruct (pull_synchronises (R := canonical_range) upper lower "a" "b" adjA adjB upper_id eA)
    as [tide [Ht Hp]]; [exact HiA|exact HiB|exact HkA|exact HkB|by rewrite HlA|by rewrite HlB|
    exact HeA| |reflexivity|reflexivity|vm_compute; discriminate| |].
  - split; rewrite ?HsA, ?HrA; unfold DefaultLifetime; lia.
  - rewrite HeB. discriminate.
  - exists tide. split; [rewrite HlA in Ht; exact Ht|]. intros Hr.
    destruct (Hp Hr) as [ids [Hs _]]. exists ids.
    rewrite <-(tirePacketFor_info _ (newAdjFloodState (node_info "b" 1 1)) adjB) by exact HlB.
    exact Hs.
Defined.

(** Adjacent chunks share their boundary.  When a TIDE is split, the last TIE
    of the first chunk is in the range of the second, which does not list it, so
    a receiver that holds this TIE queues it for transmission whatever version
    the sender has. *)
Theorem boundary_retransmitted {R : MapRange} headers h k adj fe
    (Hs : StronglySorted TIEID_lt (headerID <$> headers))
    (Hn : (MaxTIDEHeaders < length headers)%nat)
    (Hh : headers !! Nat.pred MaxTIDEHeaders = Some h)
    (Hr : Forall (fun h => tieid_in_range (headerID h)) headers)
    (Hi : fe_inv fe) (Hk : fe_adjacencies fe !! k = Some adj)
    (He : is_Some (fe_lsdb fe !! headerID h))
    (Hf : ShouldFloodTIE (headerID h) (fe_systemID fe) (fe_level fe)
            (AI_NeighborLevel (AF_Info adj)) = true) :
  exists c1 c2 cs, buildTIDEChunks headers = c1 :: c2 :: cs /\ h ∈ TIDE_Headers c1 /\
    headerID h ∈ txOf (handleTIDE k c2 fe) k.
Proof.
  destruct headers as [|h0 hs]; [done|]. unfold buildTIDEChunks.
  destruct (chunkLoop_two (length hs) MinTIEID (h0 :: hs) h) as (r & c2 & cs & E & Hst & Hrin
    & Hsub); [done|done|].
  assert (h ∈ take MaxTIDEHeaders (h0 :: hs)) as Hin.
  { apply list_elem_of_lookup. exists (Nat.pred MaxTIDEHeaders).
    by rewrite lookup_take_lt by (unfold MaxTIDEHeaders; lia). }
  assert (forall x, x ∈ TIDE_Headers c2 -> TIEID_lt (headerID h) (headerID x)) as Hlt.
  { intros x Hx. rewrite <-(take_drop MaxTIDEHeaders (h0 :: hs)), fmap_app in Hs.
    eapply (StronglySorted_app_le _ _ _ _ _ Hs); apply list_elem_of_fmap; eauto. }
  assert (Forall (fun c => Forall (in_range c) (tideIDs c))
    (chunkLoop (length (h0 :: hs)) MinTIEID (h0 :: hs))) as Hrange.
  { apply chunkLoop_in_range; [done|]. eapply Forall_impl; [exact Hr|]. cbn. intros x Hx.
    split; [by apply MinTIEID_le|by apply MaxTIEID_ge]. }
  cbn [length] in *. rewrite E in Hrange |- *.
  eexists _, c2, cs. split; [reflexivity|]. split; [exact Hin|].
  apply (unlisted_queued k adj); [done|done|done| | |done].
  - apply Forall_cons in Hrange as [_ [Hc2 _]%Forall_cons]. rewrite Forall_forall in Hc2.
    split; [rewrite Hst; apply CompareTIEID_le; by right|].
    eapply CompareTIEID_trans; [apply CompareTIEID_le; left; by apply Hlt|].
    apply (Hc2 (headerID r)). apply list_elem_of_fmap. eauto.
  - intros [x [Hx Hxin]]%list_elem_of_fmap. specialize (Hlt x Hxin). rewrite <-Hx in Hlt.
    by apply TIEID_lt_irrefl in Hlt.
Qed.

Definition many_headers : list TIEHeaderWithLifeTime :=
  (fun n => foreign_header (Z.of_nat n) 1) <$> seq 1 26.
Definition middle : FloodEngine :=
  let fe := handleAdjChange (R := canonical_range)
    (mkAdjacencyChange "a" (Some (node_info "a" 3 2))) (NewFloodEngine 1 1 "middle" []) in
  handleTIE "b" (foreign_tie 25 1)
    (handleAdjChange (R := canonical_range)
      (mkAdjacencyChange "b" (Some (node_info "b" 2 0))) fe).

Lemma middle_inv : fe_inv middle.
Proof.
  apply evolves_handleTIE. do 2 apply (evolves_handleAdjChange (R := canonical_range)).
  apply fe_inv_start.
Qed.

Lemma boundary_retransmitted_witness :
  exists c1 c2 cs, buildTIDEChunks many_headers = c1 :: c2 :: cs /\
    foreign_header 25 1 ∈ TIDE_Headers c1 /\
    foreign_id 25 ∈ txOf (handleTIDE (R := canonical_range) "a" c2 middle) "a".
Proof.
  assert (exists adj, fe_adjacencies middle !! "a"%string = Some adj /\
            AI_NeighborLevel (AF_Info adj) = 2) as (adj & Hk & Hl).
  { eexists. split; [vm_compute; reflexivity|reflexivity]. }
  apply (boundary_retransmitted (R := canonical_range) many_headers (foreign_header 25 1)
           "a" adj middle).
  - unfold many_headers. rewrite <-list_fmap_compose. apply (Sorted_StronglySorted _).
    cbn. repeat first [solve [unfold TIEID_lt; cbn; lia] | constructor].
  - vm_compute. lia.
  - reflexivity.
  - unfold many_headers. apply Forall_fmap, Forall_forall.
    intros n Hn%elem_of_seq. unfold tieid_in_range, TieDirectionSouth,
      TieDirectionDirectionMaxValue, TIETypeMaxValue. cbn.
    unfold TieDirectionNorth, TIETypePrefixTIEType. lia.
  - apply middle_inv.
  - exact Hk.
  - vm_compute. eauto.
  - rewrite Hl. vm_compute. reflexivity.
Defined.

End SyncTheorems.
