(* ===== verification/LieFsm.v ===== *)
(** * LieFsm: the LIE finite state machine ([internal/lie/fsm.go],
    [interface.go]).

    One FSM runs in one goroutine.  Its state includes the event queue, the LIEs
    handed to the transport and the adjacency events handed to the agent, both in
    order.  [time.Time] is an [option Z] of nanoseconds, [None] for the zero
    time; an event reads the clock at most once, so the queue is drained against
    a clock [nat -> Z] that gives the reading for the n-th event. *)

From S2P Require Import Prelude.
From S2P Require Import Types.

Inductive State := OneWay | TwoWay | ThreeWay | MultipleNeighborsWait.

Inductive Event :=
  | EventTimerTick
  | EventLieRcvd
  | EventNewNeighbor
  | EventValidReflection
  | EventNeighborDroppedReflection
  | EventNeighborChangedLevel
  | EventNeighborChangedAddress
  | EventUnacceptableHeader
  | EventMTUMismatch
  | EventHoldtimeExpired
  | EventMultipleNeighbors
  | EventMultipleNeighborsDone
  | EventSendLie
  | EventLevelChanged
  | EventNeighborChangedMinorFields
  | EventFloodLeadersChanged
  | EventUpdateZTPOffer.

#[export] Instance State_eq_dec : EqDecision State.
Proof. solve_decision. Defined.
#[export] Instance Event_eq_dec : EqDecision Event.
Proof. solve_decision. Defined.

Record NeighborState := mkNeighborState {
  NS_SystemID : Z;
  NS_Level : Z;
  NS_LinkID : Z;
  NS_Address : Addr;
  NS_Name : string;
  NS_FloodPort : Z;
  NS_Holdtime : Z
}.

Record AdjacencyEvent := mkAdjacencyEvent {
  AE_InterfaceName : string;
  AE_State : State;
  AE_Neighbor : option NeighborState
}.

Record FSM := mkFSM {
  f_state : State;
  f_neighbor : option NeighborState;
  f_eventQueue : list Event;
  f_systemID : Z;
  f_level : Z;
  f_ifName : string;
  f_nodeName : string;
  f_localID : Z;                         (* transport.LocalID() *)
  f_sent : list ProtocolPacket;          (* transport.SendLIE *)
  f_lastLIERcvd : option Z;
  f_neighborHoldtime : Z;
  f_multipleNeighborsDeadline : option Z;
  f_stateChangeCh : list AdjacencyEvent;
  f_pendingLIE : option LIEPacket;
  f_pendingHeader : option PacketHeader;
  f_pendingSrc : Addr
}.

#[export] Instance eta_NeighborState : Eta NeighborState :=
  fun r => mkNeighborState (NS_SystemID r) (NS_Level r) (NS_LinkID r) (NS_Address r)
    (NS_Name r) (NS_FloodPort r) (NS_Holdtime r).
#[export] Instance eta_FSM : Eta FSM :=
  fun r => mkFSM (f_state r) (f_neighbor r) (f_eventQueue r) (f_systemID r) (f_level r)
    (f_ifName r) (f_nodeName r) (f_localID r) (f_sent r) (f_lastLIERcvd r)
    (f_neighborHoldtime r) (f_multipleNeighborsDeadline r) (f_stateChangeCh r)
    (f_pendingLIE r) (f_pendingHeader r) (f_pendingSrc r).

Definition second : Z := 1000000000.

Definition NewFSM (systemID level : Z) (nodeName ifName : string) (localID : Z) : FSM :=
  mkFSM OneWay None [] systemID level ifName nodeName localID [] None 0 None [] None None
    AddrInvalid.

(** ** Elementary actions *)

Definition push (ev : Event) (f : FSM) : FSM :=
  f <| f_eventQueue := f_eventQueue f ++ [ev] |>.

Definition cleanup (f : FSM) : FSM :=
  f <| f_neighbor := None |> <| f_lastLIERcvd := None |> <| f_neighborHoldtime := 0 |>.

Definition enterState (newState : State) (f : FSM) : FSM :=
  let f := f <| f_state := newState |> in
  let f := match newState with OneWay => cleanup f | _ => f end in
  f <| f_stateChangeCh :=
    f_stateChangeCh f ++ [mkAdjacencyEvent (f_ifName f) newState (f_neighbor f)] |>.

Definition levelAcceptable (f : FSM) (remoteLevel : Z) : bool :=
  if f_level f =? LeafLevel then true
  else if remoteLevel =? LeafLevel then true
  else Z.abs (f_level f - remoteLevel) <=? 1.

Definition sendLIE (f : FSM) : FSM :=
  let lie := zeroLIEPacket <| LIE_Name := f_nodeName f |> <| LIE_LocalID := f_localID f |>
    <| LIE_FloodPort := DefaultTIEUDPFloodPort |> <| LIE_Holdtime := DefaultLIEHoldtime |>
    <| LIE_NodeCapabilities :=
         zeroNodeCapabilities <| NC_ProtocolMinorVersion := ProtocolMinorVersion |> |>
    <| LIE_Neighbor :=
         match f_neighbor f with
         | Some n => Some (mkNeighbor (NS_SystemID n) (NS_LinkID n))
         | None => None
         end |> in
  let pkt := mkProtocolPacket
    (mkPacketHeader ProtocolMajorVersion ProtocolMinorVersion (f_systemID f)
       (Some (f_level f)))
    (zeroPacketContent <| PC_LIE := Some lie |>) in
  f <| f_sent := f_sent f ++ [pkt] |>.

Definition checkHoldtime (now : Z) (f : FSM) : FSM :=
  match f_lastLIERcvd f with
  | None => f
  | Some t =>
      if f_neighborHoldtime f =? 0 then f
      else if now - t >? f_neighborHoldtime f then push EventHoldtimeExpired f else f
  end.

Definition startMultipleNeighborsTimer (now : Z) (f : FSM) : FSM :=
  f <| f_multipleNeighborsDeadline :=
    Some (now + MultipleNeighborsLIEHoldtimeMultiplier * DefaultLIEHoldtime * second) |>.

Definition checkThreeWay (lie : LIEPacket) (f : FSM) : FSM :=
  match f_state f with
  | OneWay => f
  | _ =>
      match LIE_Neighbor lie with
      | None =>
          match f_state f with
          | ThreeWay => push EventNeighborDroppedReflection f
          | _ => f
          end
      | Some n =>
          if (Neighbor_Originator n =? f_systemID f) && (Neighbor_RemoteID n =? f_localID f)
          then push EventValidReflection f else push EventMultipleNeighbors f
      end
  end.

(** The neighbour a first valid LIE describes. *)
Definition neighborFrom (sender remoteLevel : Z) (lie : LIEPacket) (srcAddr : Addr)
    : NeighborState :=
  mkNeighborState sender remoteLevel (LIE_LocalID lie) srcAddr (LIE_Name lie)
    (LIE_FloodPort lie) (LIE_Holdtime lie).

(** The update of the minor fields of the current neighbour. *)
Definition updateMinorFields (n : NeighborState) (lie : LIEPacket) (f : FSM) : FSM :=
  if negb (NS_FloodPort n =? LIE_FloodPort lie) || negb (String.eqb (NS_Name n) (LIE_Name lie))
     || negb (NS_LinkID n =? LIE_LocalID lie)
  then push EventNeighborChangedMinorFields
    (f <| f_neighbor := Some (n <| NS_FloodPort := LIE_FloodPort lie |>
            <| NS_Name := LIE_Name lie |> <| NS_LinkID := LIE_LocalID lie |>) |>)
  else f.

(** [f.neighbor.Holdtime = lie.Holdtime] *)
Definition updateHoldtime (lie : LIEPacket) (f : FSM) : FSM :=
  f <| f_neighbor :=
    (fun n => n <| NS_Holdtime := LIE_Holdtime lie |>) <$> f_neighbor f |>.

(** Part 4 of [processLIE]: tracking the neighbour of a valid LIE. *)
Definition trackNeighbor (now sender remoteLevel : Z) (lie : LIEPacket) (srcAddr : Addr)
    (f : FSM) : FSM :=
  let f := push EventUpdateZTPOffer f in
  let f := f <| f_lastLIERcvd := Some now |>
             <| f_neighborHoldtime := LIE_Holdtime lie * second |> in
  match f_neighbor f with
  | None =>
      let f := f <| f_neighbor := Some (neighborFrom sender remoteLevel lie srcAddr) |> in
      checkThreeWay lie (push EventNewNeighbor f)
  | Some n =>
      if negb (NS_SystemID n =? sender) then push EventMultipleNeighbors f
      else if negb (NS_Level n =? remoteLevel) then push EventNeighborChangedLevel f
      else if bool_decide (NS_Address n <> srcAddr) then push EventNeighborChangedAddress f
      else checkThreeWay lie (updateHoldtime lie (updateMinorFields n lie f))
  end.

Definition remoteMTU (lie : LIEPacket) : Z :=
  match LIE_LinkMTUSize lie with Some mtu => mtu | None => DefaultMTUSize end.

Definition processLIE (now : Z) (f : FSM) : FSM :=
  match f_pendingHeader f, f_pendingLIE f with
  | Some header, Some lie =>
      if negb (PH_MajorVersion header =? ProtocolMajorVersion) then cleanup f
      else if PH_Sender header =? f_systemID f then cleanup f
      else if PH_Sender header =? IllegalSystemID then cleanup f
      else if negb (DefaultMTUSize =? remoteMTU lie) then
        push EventMTUMismatch (push EventUpdateZTPOffer (cleanup f))
      else match PH_Level header with
      | None => push EventUnacceptableHeader (push EventUpdateZTPOffer (cleanup f))
      | Some remoteLevel =>
          if negb (levelAcceptable f remoteLevel) then
            push EventUnacceptableHeader (push EventUpdateZTPOffer (cleanup f))
          else trackNeighbor now (PH_Sender header) remoteLevel lie (f_pendingSrc f) f
      end
  | _, _ => f
  end.

(** ** The transition table *)

Definition processOneWay (now : Z) (ev : Event) (f : FSM) : FSM :=
  match ev with
  | EventTimerTick => push EventSendLie f
  | EventLieRcvd => processLIE now f
  | EventNewNeighbor => enterState TwoWay (push EventSendLie f)
  | EventValidReflection => enterState ThreeWay f
  | EventMultipleNeighbors =>
      enterState MultipleNeighborsWait (startMultipleNeighborsTimer now f)
  | EventSendLie => sendLIE f
  | EventLevelChanged => push EventSendLie f
  | _ => f
  end.

Definition processTwoWay (now : Z) (ev : Event) (f : FSM) : FSM :=
  match ev with
  | EventTimerTick => checkHoldtime now (push EventSendLie f)
  | EventLieRcvd => processLIE now f
  | EventNewNeighbor =>
      enterState MultipleNeighborsWait
        (startMultipleNeighborsTimer now (push EventSendLie f))
  | EventValidReflection => enterState ThreeWay f
  | EventNeighborChangedLevel | EventNeighborChangedAddress | EventUnacceptableHeader
  | EventMTUMismatch | EventHoldtimeExpired => enterState OneWay f
  | EventMultipleNeighbors =>
      enterState MultipleNeighborsWait (startMultipleNeighborsTimer now f)
  | EventSendLie => sendLIE f
  | EventLevelChanged => enterState OneWay f
  | _ => f
  end.

Definition processThreeWay (now : Z) (ev : Event) (f : FSM) : FSM :=
  match ev with
  | EventTimerTick => checkHoldtime now (push EventSendLie f)
  | EventLieRcvd => processLIE now f
  | EventNeighborDroppedReflection => enterState TwoWay f
  | EventNeighborChangedLevel | EventNeighborChangedAddress | EventUnacceptableHeader
  | EventMTUMismatch | EventHoldtimeExpired | EventLevelChanged => enterState OneWay f
  | EventMultipleNeighbors | EventNewNeighbor =>
      enterState MultipleNeighborsWait (startMultipleNeighborsTimer now f)
  | EventFloodLeadersChanged => push EventSendLie f
  | EventSendLie => sendLIE f
  | _ => f
  end.

Definition processMultipleNeighborsWait (now : Z) (ev : Event) (f : FSM) : FSM :=
  match ev with
  | EventTimerTick =>
      match f_multipleNeighborsDeadline f with
      | Some deadline =>
          if now >? deadline then push EventMultipleNeighborsDone f else f
      | None => f
      end
  | EventMultipleNeighborsDone | EventLevelChanged => enterState OneWay f
  | EventMultipleNeighbors => startMultipleNeighborsTimer now f
  | _ => f
  end.

Definition processEvent (now : Z) (ev : Event) (f : FSM) : FSM :=
  match f_state f with
  | OneWay => processOneWay now ev f
  | TwoWay => processTwoWay now ev f
  | ThreeWay => processThreeWay now ev f
  | MultipleNeighborsWait => processMultipleNeighborsWait now ev f
  end.

(** ** The queue *)

(** The number of events that the processing of [ev] can lead to, itself
    included: the fuel of [drainQueue]. *)
Definition weight (ev : Event) : nat :=
  match ev with
  | EventLieRcvd => 5
  | EventTimerTick => 3
  | EventNewNeighbor | EventLevelChanged | EventFloodLeadersChanged => 2
  | _ => 1
  end.
Definition queueWeight (q : list Event) : nat := sum_list_with weight q.

Fixpoint drainLoop (fuel : nat) (clk : nat -> Z) (f : FSM) : FSM :=
  match fuel, f_eventQueue f with
  | S fuel, ev :: q =>
      drainLoop fuel (fun i => clk (S i)) (processEvent (clk O) ev (f <| f_eventQueue := q |>))
  | _, _ => f
  end.

Definition drainQueue (clk : nat -> Z) (f : FSM) : FSM :=
  drainLoop (queueWeight (f_eventQueue f)) clk f.

Definition HandlePacket (clk : nat -> Z) (pkt : ProtocolPacket) (srcAddr : Addr) (f : FSM)
    : FSM :=
  match PC_LIE (PP_Content pkt) with
  | None => f
  | Some lie =>
      let f := f <| f_pendingLIE := Some lie |> <| f_pendingHeader := Some (PP_Header pkt) |>
                 <| f_pendingSrc := srcAddr |> in
      drainQueue clk (push EventLieRcvd f)
  end.

Definition Tick (clk : nat -> Z) (f : FSM) : FSM :=
  drainQueue clk (push EventTimerTick f).

(** ** [Interface.Run]: a tick or a received packet at a time *)
Inductive lie_step (f : FSM) : FSM -> Prop :=
  | lie_tick clk : lie_step f (Tick clk f)
  | lie_packet clk pkt src : lie_step f (HandlePacket clk pkt src f).

Inductive lie_reachable (systemID level : Z) (nodeName ifName : string) (localID : Z)
    : FSM -> Prop :=
  | lie_start : lie_reachable systemID level nodeName ifName localID
                  (NewFSM systemID level nodeName ifName localID)
  | lie_next f f' : lie_reachable systemID level nodeName ifName localID f ->
      lie_step f f' -> lie_reachable systemID level nodeName ifName localID f'.
