(* ===== verification/LieSpec.v ===== *)
(** * LieSpec: the abstract specification of the LIE FSM and its refinement.

    [nextState] and [nextNeighbor] state, as a table, what one received LIE does
    to a settled FSM; [HandlePacket] drains a queue of events to the same effect. *)

From S2P Require Import Prelude.
From S2P Require Import Types.
From S2P Require Import LieFsm.

(** ** Draining terminates *)

(** [f'] is [f] with events of total weight at most [n] pushed. *)
Definition adds (n : nat) (f f' : FSM) : Prop :=
  exists l, f_eventQueue f' = f_eventQueue f ++ l /\ (queueWeight l <= n)%nat.

Lemma queueWeight_app l1 l2 : queueWeight (l1 ++ l2) = (queueWeight l1 + queueWeight l2)%nat.
Proof. apply sum_list_with_app. Qed.

Lemma adds_same n f f' : f_eventQueue f' = f_eventQueue f -> adds n f f'.
Proof. intros E. exists []. rewrite app_nil_r. split; [done|]. cbn. lia. Qed.

Lemma adds_push n ev f : (weight ev <= n)%nat -> adds n f (push ev f).
Proof. intros H. exists [ev]. split; [done|]. cbn. lia. Qed.

Lemma adds_trans n1 n2 n f1 f2 f3 :
  adds n1 f1 f2 -> adds n2 f2 f3 -> (n1 + n2 <= n)%nat -> adds n f1 f3.
Proof.
  intros [l1 [E1 W1]] [l2 [E2 W2]] Hn. exists (l1 ++ l2).
  rewrite E2, E1, app_assoc. split; [done|]. rewrite queueWeight_app. lia.
Qed.

Lemma adds_checkHoldtime now f : adds 1 f (checkHoldtime now f).
Proof. unfold checkHoldtime. repeat case_match; (by apply adds_same) || by apply adds_push. Qed.

Lemma adds_checkThreeWay lie f : adds 1 f (checkThreeWay lie f).
Proof.
  unfold checkThreeWay. repeat case_match; (by apply adds_same) || by apply adds_push.
Qed.

Lemma adds_updateMinorFields n lie f : adds 1 f (updateMinorFields n lie f).
Proof.
  unfold updateMinorFields. case_match; [|by apply adds_same].
  by exists [EventNeighborChangedMinorFields].
Qed.

Lemma adds_updateHoldtime lie f : adds 0 f (updateHoldtime lie f).
Proof. by apply adds_same. Qed.

Lemma adds_startTimer now f : adds 0 f (startMultipleNeighborsTimer now f).
Proof. by apply adds_same. Qed.

Lemma adds_enterState s f : adds 0 f (enterState s f).
Proof. unfold enterState. case_match; by apply adds_same. Qed.

Lemma adds_trackNeighbor now sender lvl lie src f :
  adds 4 f (trackNeighbor now sender lvl lie src f).
Proof.
  unfold trackNeighbor. cbv zeta. 
  set (f1 := (push EventUpdateZTPOffer f) <| f_lastLIERcvd := Some now |>
               <| f_neighborHoldtime := LIE_Holdtime lie * second |>).
  assert (adds 1 f f1) as H1 by by exists [EventUpdateZTPOffer].
  case_match.
  - assert (forall ev, (weight ev <= 1)%nat -> adds 4 f (push ev f1)) as Hp.
    { intros ev Hw. eapply adds_trans; [exact H1|by apply (adds_push 1)|lia]. }
    repeat (case_match; [by apply Hp|]).
    eapply adds_trans; [exact H1| |reflexivity].
    eapply (adds_trans 1 1); [apply adds_updateMinorFields| |lia].
    eapply (adds_trans 0 1); [apply adds_updateHoldtime|apply adds_checkThreeWay|lia].
  - eapply adds_trans; [exact H1| |reflexivity].
    eapply (adds_trans 2 1); [|apply adds_checkThreeWay|lia].
    by exists [EventNewNeighbor].
Qed.

Lemma adds_processLIE now f : adds 4 f (processLIE now f).
Proof.
  unfold processLIE. repeat case_match; try (by apply adds_same);
    try apply adds_trackNeighbor;
    (eapply (adds_trans 1 1); [|by apply adds_push|lia]; by exists [EventUpdateZTPOffer]).
Qed.

Lemma adds_processEvent now ev f : adds (Nat.pred (weight ev)) f (processEvent now ev f).
Proof.
  unfold processEvent, processOneWay, processTwoWay, processThreeWay,
    processMultipleNeighborsWait.
  destruct (f_state f), ev; cbn [weight Nat.pred];
    first
      [ by apply adds_same | apply adds_push; cbn; lia | apply adds_processLIE
      | apply (adds_enterState OneWay) | apply (adds_enterState TwoWay)
      | apply (adds_enterState ThreeWay)
      | eapply (adds_trans 1 1); [|apply adds_checkHoldtime|lia]; apply adds_push; cbn; lia
      | eapply (adds_trans 0 0); [|apply adds_enterState|lia]; apply adds_startTimer
      | eapply (adds_trans 1 0); [|apply adds_enterState|lia]; by exists [EventSendLie]
      | idtac ].
  repeat case_match; (by apply adds_same) || (apply adds_push; cbn; lia).
Qed.

Lemma drainLoop_nil fuel clk f : f_eventQueue f = [] -> drainLoop fuel clk f = f.
Proof. intros E. destruct fuel; cbn; by rewrite ?E. Qed.

Lemma drainLoop_cons fuel clk f ev q :
  f_eventQueue f = ev :: q ->
  drainLoop (S fuel) clk f
  = drainLoop fuel (fun i => clk (S i)) (processEvent (clk O) ev (f <| f_eventQueue := q |>)).
Proof. intros E. cbn. by rewrite E. Qed.

Lemma weight_pos ev : (1 <= weight ev)%nat.
Proof. destruct ev; cbn; lia. Qed.

Lemma processEvent_weight now ev q f :
  f_eventQueue f = ev :: q ->
  (queueWeight (f_eventQueue (processEvent now ev (f <| f_eventQueue := q |>)))
   < queueWeight (f_eventQueue f))%nat.
Proof.
  intros E. destruct (adds_processEvent now ev (f <| f_eventQueue := q |>)) as [l [El Hl]].
  rewrite El, E. cbn [f_eventQueue set_field]. cbn. rewrite queueWeight_app.
  pose proof (weight_pos ev). unfold queueWeight in *. lia.
Qed.

Lemma drainLoop_empty fuel clk f :
  (queueWeight (f_eventQueue f) <= fuel)%nat -> f_eventQueue (drainLoop fuel clk f) = [].
Proof.
  revert clk f. induction fuel as [|fuel IH]; intros clk f Hf.
  - destruct (f_eventQueue f) as [|ev q] eqn:E; [by rewrite drainLoop_nil|].
    cbn in Hf. pose proof (weight_pos ev). lia.
  - destruct (f_eventQueue f) as [|ev q] eqn:E; [by rewrite drainLoop_nil|].
    rewrite (drainLoop_cons _ _ _ _ _ E). apply IH.
    pose proof (processEvent_weight (clk O) ev q f E). rewrite E in *. lia.
Qed.

(** More fuel changes nothing. *)
Lemma drainLoop_fuel fuel n clk f :
  (queueWeight (f_eventQueue f) <= fuel)%nat ->
  drainLoop (fuel + n) clk f = drainLoop fuel clk f.
Proof.
  revert clk f. induction fuel as [|fuel IH]; intros clk f Hf.
  - destruct (f_eventQueue f) as [|ev q] eqn:E; [by rewrite !drainLoop_nil|].
    cbn in Hf. pose proof (weight_pos ev). lia.
  - destruct (f_eventQueue f) as [|ev q] eqn:E; [by rewrite !drainLoop_nil|].
    cbn [Nat.add]. rewrite !(drainLoop_cons _ _ _ _ _ E). apply IH.
    pose proof (processEvent_weight (clk O) ev q f E). rewrite E in *. lia.
Qed.

(** ** The specification *)

(** What [processLIE] thinks of a LIE: it deletes the neighbour and stops, it
    deletes the neighbour and leaves the state, or it tracks the neighbour. *)
Inductive Verdict := Ignored | Rejected | Valid (remoteLevel : Z).

Definition verdict (f : FSM) (header : PacketHeader) (lie : LIEPacket) : Verdict :=
  if negb (PH_MajorVersion header =? ProtocolMajorVersion)
     || (PH_Sender header =? f_systemID f) || (PH_Sender header =? IllegalSystemID)
  then Ignored
  else if negb (DefaultMTUSize =? remoteMTU lie) then Rejected
  else match PH_Level header with
       | None => Rejected
       | Some l => if levelAcceptable f l then Valid l else Rejected
       end.

(** The LIE names this node and this link. *)
Definition reflects (f : FSM) (lie : LIEPacket) : bool :=
  match LIE_Neighbor lie with
  | Some n => (Neighbor_Originator n =? f_systemID f) && (Neighbor_RemoteID n =? f_localID f)
  | None => false
  end.

Definition updatedNeighbor (n : NeighborState) (lie : LIEPacket) : NeighborState :=
  mkNeighborState (NS_SystemID n) (NS_Level n) (LIE_LocalID lie) (NS_Address n)
    (LIE_Name lie) (LIE_FloodPort lie) (LIE_Holdtime lie).

(** The state and the neighbour after a valid LIE of [sender], in a state other
    than [MultipleNeighborsWait]. *)
Definition trackSpec (f : FSM) (sender remoteLevel : Z) (lie : LIEPacket) (src : Addr)
    : State * option NeighborState :=
  match f_neighbor f with
  | None =>
      (match f_state f with OneWay => TwoWay | _ => MultipleNeighborsWait end,
       Some (neighborFrom sender remoteLevel lie src))
  | Some n =>
      if negb (NS_SystemID n =? sender) then (MultipleNeighborsWait, Some n)
      else if negb (NS_Level n =? remoteLevel) then (OneWay, None)
      else if bool_decide (NS_Address n <> src) then (OneWay, None)
      else (match LIE_Neighbor lie with
            | None => TwoWay
            | Some _ => if reflects f lie then ThreeWay else MultipleNeighborsWait
            end, Some (updatedNeighbor n lie))
  end.

Definition lieSpec (f : FSM) (header : PacketHeader) (lie : LIEPacket) (src : Addr)
    : State * option NeighborState :=
  match f_state f with
  | MultipleNeighborsWait => (MultipleNeighborsWait, f_neighbor f)
  | s =>
      match verdict f header lie with
      | Ignored => (s, None)
      | Rejected => (OneWay, None)
      | Valid l => trackSpec f (PH_Sender header) l lie src
      end
  end.

(** The reception time and the holdtime of the neighbour. *)
Definition lieTimes (f : FSM) (header : PacketHeader) (lie : LIEPacket) (now : Z)
    (outcome : State * option NeighborState) : option Z * Z :=
  match f_state f, verdict f header lie, outcome.1 with
  | MultipleNeighborsWait, _, _ => (f_lastLIERcvd f, f_neighborHoldtime f)
  | _, Valid _, (TwoWay | ThreeWay | MultipleNeighborsWait) =>
      (Some now, LIE_Holdtime lie * second)
  | _, _, _ => (None, 0)
  end.

(** A settled FSM: no event is pending, and OneWay means no neighbour. *)
Record settled (f : FSM) : Prop := {
  settled_queue : f_eventQueue f = [];
  settled_neighbor : f_state f = OneWay ->
    f_neighbor f = None /\ f_lastLIERcvd f = None /\ f_neighborHoldtime f = 0
}.

(** ** The refinement *)

Lemma updateMinorFields_spec n lie f :
  f_neighbor f = Some n ->
  f_neighbor (updateHoldtime lie (updateMinorFields n lie f)) = Some (updatedNeighbor n lie).
Proof.
  intros Hn. unfold updateHoldtime, updateMinorFields, updatedNeighbor. case_match eqn:E.
  - cbn. by destruct n.
  - apply orb_false_iff in E as [E E3]. apply orb_false_iff in E as [E1 E2].
    apply negb_false_iff in E1, E2, E3. apply Z.eqb_eq in E1, E3. apply String.eqb_eq in E2.
    cbn. rewrite Hn. destruct n; cbn in *. by subst.
Qed.

(** *** The part of the state the specification speaks of *)

Record Core := mkCore {
  c_state : State;
  c_neighbor : option NeighborState;
  c_last : option Z;
  c_holdtime : Z
}.

Definition core (f : FSM) : Core :=
  mkCore (f_state f) (f_neighbor f) (f_lastLIERcvd f) (f_neighborHoldtime f).

(** Events other than the two that come from outside: their effect depends on
    the core only, and so do the events they push. *)
Definition internal (ev : Event) : bool :=
  match ev with EventLieRcvd | EventTimerTick => false | _ => true end.

Definition coreEnter (s : State) (c : Core) : Core :=
  match s with OneWay => mkCore OneWay None None 0
             | _ => mkCore s (c_neighbor c) (c_last c) (c_holdtime c) end.

Definition coreStep (ev : Event) (c : Core) : Core :=
  match c_state c, ev with
  | OneWay, EventNewNeighbor => coreEnter TwoWay c
  | (OneWay | TwoWay), EventValidReflection => coreEnter ThreeWay c
  | OneWay, EventMultipleNeighbors => coreEnter MultipleNeighborsWait c
  | (TwoWay | ThreeWay), (EventMultipleNeighbors | EventNewNeighbor) =>
      coreEnter MultipleNeighborsWait c
  | (TwoWay | ThreeWay), (EventNeighborChangedLevel | EventNeighborChangedAddress
      | EventUnacceptableHeader | EventMTUMismatch | EventHoldtimeExpired
      | EventLevelChanged) => coreEnter OneWay c
  | ThreeWay, EventNeighborDroppedReflection => coreEnter TwoWay c
  | MultipleNeighborsWait, (EventMultipleNeighborsDone | EventLevelChanged) =>
      coreEnter OneWay c
  | _, _ => c
  end.

Definition corePushes (c : Core) (ev : Event) : list Event :=
  match c_state c, ev with
  | (OneWay | TwoWay), EventNewNeighbor | OneWay, EventLevelChanged
  | ThreeWay, EventFloodLeadersChanged => [EventSendLie]
  | _, _ => []
  end.

Lemma processEvent_core now ev f :
  internal ev = true ->
  core (processEvent now ev f) = coreStep ev (core f) /\
  f_eventQueue (processEvent now ev f) = f_eventQueue f ++ corePushes (core f) ev.
Proof.
  intros Hi. unfold processEvent, processOneWay, processTwoWay, processThreeWay,
    processMultipleNeighborsWait, core, coreStep, corePushes. cbn [c_state].
  destruct (f_state f) eqn:Es, ev; try discriminate Hi; split;
    try reflexivity; cbn; rewrite ?app_nil_r, ?Es; reflexivity.
Qed.

Fixpoint coreDrain (fuel : nat) (q : list Event) (c : Core) : Core :=
  match fuel, q with
  | S fuel, ev :: q => coreDrain fuel (q ++ corePushes c ev) (coreStep ev c)
  | _, _ => c
  end.

Lemma corePushes_internal c ev : forallb internal (corePushes c ev) = true.
Proof. unfold corePushes. by repeat case_match. Qed.

Lemma drainLoop_core fuel clk f :
  forallb internal (f_eventQueue f) = true ->
  core (drainLoop fuel clk f) = coreDrain fuel (f_eventQueue f) (core f).
Proof.
  revert clk f. induction fuel as [|fuel IH]; intros clk f Hq; [done|].
  destruct (f_eventQueue f) as [|ev q] eqn:E; [by rewrite drainLoop_nil|].
  rewrite (drainLoop_cons _ _ _ _ _ E). cbn [forallb] in Hq.
  apply andb_true_iff in Hq as [Hev Hq].
  destruct (processEvent_core (clk O) ev (f <| f_eventQueue := q |>) Hev) as [Hc Hqq].
  rewrite IH.
  - rewrite Hqq, Hc. done.
  - rewrite Hqq. cbn [f_eventQueue set_field]. change (f_eventQueue (f <| f_eventQueue := q |>)) with q.
    rewrite forallb_app, Hq. apply corePushes_internal.
Qed.

(** *** The events a LIE pushes *)

(** The queue and the core after [trackNeighbor]. *)
Definition threeWayEvents (s : State) (f : FSM) (lie : LIEPacket) : list Event :=
  match s, LIE_Neighbor lie with
  | OneWay, _ => []
  | ThreeWay, None => [EventNeighborDroppedReflection]
  | _, None => []
  | _, Some _ => [if reflects f lie then EventValidReflection else EventMultipleNeighbors]
  end.

Lemma checkThreeWay_events lie f :
  core (checkThreeWay lie f) = core f /\
  f_eventQueue (checkThreeWay lie f) = f_eventQueue f ++ threeWayEvents (f_state f) f lie.
Proof.
  unfold checkThreeWay, threeWayEvents, reflects.
  destruct (f_state f); cbn; rewrite ?app_nil_r; try done;
    destruct (LIE_Neighbor lie); rewrite ?app_nil_r; try done; by case_match.
Qed.

Lemma updateMinorFields_events n lie f :
  exists l, (l = [] \/ l = [EventNeighborChangedMinorFields]) /\
    let f' := updateHoldtime lie (updateMinorFields n lie f) in
    f_eventQueue f' = f_eventQueue f ++ l /\ f_state f' = f_state f /\
    f_lastLIERcvd f' = f_lastLIERcvd f /\ f_neighborHoldtime f' = f_neighborHoldtime f /\
    (forall lie', reflects f' lie' = reflects f lie').
Proof.
  unfold updateHoldtime, updateMinorFields. case_match.
  - exists [EventNeighborChangedMinorFields]. split; [by right|]. done.
  - exists []. split; [by left|]. cbn. by rewrite app_nil_r.
Qed.

Lemma trackNeighbor_events now sender lvl lie src f :
  f_eventQueue f = [] ->
  exists q, f_eventQueue (trackNeighbor now sender lvl lie src f) = EventUpdateZTPOffer :: q /\
  let c := core (trackNeighbor now sender lvl lie src f) in
  c_state c = f_state f /\ c_last c = Some now /\ c_holdtime c = LIE_Holdtime lie * second /\
  match f_neighbor f with
  | None => c_neighbor c = Some (neighborFrom sender lvl lie src) /\
            q = EventNewNeighbor :: threeWayEvents (f_state f) f lie
  | Some n =>
      if negb (NS_SystemID n =? sender) then c_neighbor c = Some n /\ q = [EventMultipleNeighbors]
      else if negb (NS_Level n =? lvl) then c_neighbor c = Some n /\ q = [EventNeighborChangedLevel]
      else if bool_decide (NS_Address n <> src)
           then c_neighbor c = Some n /\ q = [EventNeighborChangedAddress]
      else c_neighbor c = Some (updatedNeighbor n lie) /\
           exists l, (l = [] \/ l = [EventNeighborChangedMinorFields]) /\
                     q = l ++ threeWayEvents (f_state f) f lie
  end.
Proof.
  intros Hq. unfold trackNeighbor. cbv zeta.
  set (f1 := (push EventUpdateZTPOffer f) <| f_lastLIERcvd := Some now |>
               <| f_neighborHoldtime := LIE_Holdtime lie * second |>).
  assert (f_eventQueue f1 = [EventUpdateZTPOffer]) as Hq1 by (cbn; by rewrite Hq).
  assert (f_neighbor f1 = f_neighbor f) as Hn1 by done. rewrite Hn1.
  destruct (f_neighbor f) as [n|] eqn:En.
  - repeat (case_match; [eexists; split; [cbn; rewrite Hq; reflexivity|];
      unfold core; cbn; rewrite En; done|]).
    set (f2 := updateHoldtime lie (updateMinorFields n lie f1)).
    destruct (updateMinorFields_events n lie f1) as (l & Hl & Hq2 & Hs2 & Ht2 & Hh2 & Hr2).
    fold f2 in Hq2, Hs2, Ht2, Hh2, Hr2.
    destruct (checkThreeWay_events lie f2) as [Hc Hqc]. rewrite Hc, Hqc, Hq2, Hq1, Hs2.
    assert (threeWayEvents (f_state f1) f2 lie = threeWayEvents (f_state f) f lie) as ->.
    { unfold threeWayEvents. by rewrite Hr2. }
    eexists. split; [reflexivity|]. unfold core. cbn [c_state c_last c_holdtime c_neighbor].
    split; [exact Hs2|]. split; [exact Ht2|]. split; [exact Hh2|].
    split; [by apply updateMinorFields_spec|]. eauto.
  - set (f2 := push EventNewNeighbor _).
    destruct (checkThreeWay_events lie f2) as [Hc Hqc]. rewrite Hc, Hqc.
    eexists. split; [cbn; rewrite Hq; reflexivity|]. done.
Qed.

Lemma processLIE_verdict now header lie f :
  f_pendingHeader f = Some header -> f_pendingLIE f = Some lie ->
  match verdict f header lie with
  | Ignored => processLIE now f = cleanup f
  | Rejected => exists ev, (ev = EventMTUMismatch \/ ev = EventUnacceptableHeader) /\
                  processLIE now f = push ev (push EventUpdateZTPOffer (cleanup f))
  | Valid l => processLIE now f
                 = trackNeighbor now (PH_Sender header) l lie (f_pendingSrc f) f
  end.
Proof.
  intros Hh Hl. unfold processLIE, verdict. rewrite Hh, Hl.
  destruct (negb (PH_MajorVersion header =? ProtocolMajorVersion)); cbn [orb]; [done|].
  destruct (PH_Sender header =? f_systemID f); cbn [orb]; [done|].
  destruct (PH_Sender header =? IllegalSystemID); [done|].
  destruct (negb (DefaultMTUSize =? remoteMTU lie)); [eauto|].
  destruct (PH_Level header) as [l|]; [|eauto].
  destruct (levelAcceptable f l); cbn [negb]; eauto.
Qed.

(** *** The refinement lemma *)

Definition pending (f : FSM) (header : PacketHeader) (lie : LIEPacket) (src : Addr) : FSM :=
  f <| f_pendingLIE := Some lie |> <| f_pendingHeader := Some header |>
    <| f_pendingSrc := src |>.

Lemma HandlePacket_unfold clk pkt src lie f :
  PC_LIE (PP_Content pkt) = Some lie -> f_eventQueue f = [] ->
  HandlePacket clk pkt src f =
  drainLoop 4 (fun i => clk (S i))
    (processEvent (clk O) EventLieRcvd (pending f (PP_Header pkt) lie src)).
Proof.
  intros Hl Hq. unfold HandlePacket. rewrite Hl. unfold drainQueue.
  assert (forall g, f_eventQueue g = [] -> f_eventQueue (push EventLieRcvd g) = [EventLieRcvd])
    as Hp by (intros g Hg; cbn; by rewrite Hg).
  cbv zeta. fold (pending f (PP_Header pkt) lie src). rewrite Hp by done.
  change (queueWeight [EventLieRcvd]) with 5%nat.
  rewrite (drainLoop_cons 4 clk _ EventLieRcvd []) by by apply Hp.
  do 2 f_equal. unfold pending, push. destruct f; cbn in Hq |- *. by subst.
Qed.

Definition specCore (f : FSM) (header : PacketHeader) (lie : LIEPacket) (src : Addr) (now : Z)
    : Core :=
  let out := lieSpec f header lie src in
  let times := lieTimes f header lie now out in
  mkCore out.1 out.2 times.1 times.2.

Lemma core_eta c s n t h :
  c_state c = s -> c_neighbor c = n -> c_last c = t -> c_holdtime c = h -> c = mkCore s n t h.
Proof. destruct c; cbn. by intros -> -> -> ->. Qed.

(** Drain a known queue from a known core. *)
Ltac drained Hq Hs Hn Ht Hh :=
  rewrite drainLoop_core, Hq, (core_eta _ _ _ _ _ Hs Hn Ht Hh) by (by rewrite Hq); reflexivity.

(** The drain after a tracked LIE. *)
Lemma track_drain clk now f header l lie src :
  settled f -> f_state f <> MultipleNeighborsWait -> verdict f header lie = Valid l ->
  core (drainLoop 4 clk (trackNeighbor now (PH_Sender header) l lie src f))
  = specCore f header lie src now.
Proof.
  intros [Hq Hset] Hs Hv.
  destruct (trackNeighbor_events now (PH_Sender header) l lie src f Hq)
    as (q & Hq' & Hcs & Hct & Hch & Hn).
  set (f1 := trackNeighbor now (PH_Sender header) l lie src f) in *. cbv zeta in Hn.
  unfold specCore, lieTimes, lieSpec. rewrite Hv. unfold trackSpec.
  destruct (f_neighbor f) as [n|] eqn:En.
  - destruct (f_state f) eqn:Es; [by destruct (Hset eq_refl)| | |done];
    (destruct (negb (NS_SystemID n =? PH_Sender header));
      [|destruct (negb (NS_Level n =? l)); [|destruct (bool_decide (NS_Address n <> src))]]);
    destruct Hn as [Hcn Hqq];
    try (subst q; drained Hq' Hcs Hcn Hct Hch);
    destruct Hqq as (mf & [-> | ->] & ->);
    unfold threeWayEvents in Hq'; destruct (LIE_Neighbor lie) eqn:Eln;
    try destruct (reflects f lie) eqn:Er; drained Hq' Hcs Hcn Hct Hch.
  - destruct Hn as [Hcn ->].
    destruct (f_state f) eqn:Es; try done; unfold threeWayEvents in Hq';
    destruct (LIE_Neighbor lie) eqn:Eln; try destruct (reflects f lie) eqn:Er;
    drained Hq' Hcs Hcn Hct Hch.
Qed.

Lemma HandlePacket_core clk pkt src lie f :
  PC_LIE (PP_Content pkt) = Some lie -> settled f ->
  core (HandlePacket clk pkt src f) = specCore f (PP_Header pkt) lie src (clk O).
Proof.
  intros Hl Hset. pose proof (settled_queue _ Hset) as Hq.
  rewrite (HandlePacket_unfold clk pkt src lie f Hl Hq).
  set (f0 := pending f (PP_Header pkt) lie src).
  assert (core f0 = core f) as Hc0 by done. assert (f_eventQueue f0 = []) as Hq0 by done.
  assert (settled f0) as Hset0 by (split; [done|apply Hset]).
  change (specCore f (PP_Header pkt) lie src (clk O))
    with (specCore f0 (PP_Header pkt) lie src (clk O)).
  pose proof (processLIE_verdict (clk O) (PP_Header pkt) lie f0 eq_refl eq_refl) as Hv.
  change (f_pendingSrc f0) with src in Hv. clearbody f0. clear Hset Hq Hc0 f.
  destruct (decide (f_state f0 = MultipleNeighborsWait)) as [Es|Es].
  { unfold processEvent. rewrite Es. cbn [processMultipleNeighborsWait].
    rewrite drainLoop_nil by done. unfold specCore, lieSpec, lieTimes, core. by rewrite Es. }
  assert (processEvent (clk O) EventLieRcvd f0 = processLIE (clk O) f0) as ->.
  { unfold processEvent. by destruct (f_state f0). }
  destruct (verdict f0 (PP_Header pkt) lie) as [| |l] eqn:Ev.
  - rewrite Hv, drainLoop_nil by done. unfold specCore, lieTimes, lieSpec, core. rewrite Ev.
    by destruct (f_state f0) eqn:E; cbn; rewrite ?E.
  - destruct Hv as [ev [Hev ->]].
    assert (f_eventQueue (push ev (push EventUpdateZTPOffer (cleanup f0)))
            = [EventUpdateZTPOffer; ev]) as Hq2 by (cbn; by rewrite Hq0).
    rewrite drainLoop_core, Hq2 by (rewrite Hq2; by destruct Hev as [-> | ->]).
    unfold specCore, lieTimes, lieSpec, core. rewrite Ev. cbn [f_state push cleanup set_field].
    destruct Hev as [-> | ->]; destruct (f_state f0) eqn:E; cbn; rewrite ?E; done.
  - rewrite Hv. by apply track_drain.
Qed.

(** ** Ticks *)

(** Whether the holdtime of the neighbour is over. *)
Definition holdtimeOver (f : FSM) (now : Z) : bool :=
  match f_lastLIERcvd f with
  | None => false
  | Some t => negb (f_neighborHoldtime f =? 0) && (now - t >? f_neighborHoldtime f)
  end.

Definition waitOver (f : FSM) (now : Z) : bool :=
  match f_multipleNeighborsDeadline f with None => false | Some d => now >? d end.

(** The state after a tick, the clock being read once. *)
Definition tickSpec (f : FSM) (now : Z) : State :=
  match f_state f with
  | OneWay => OneWay
  | MultipleNeighborsWait => if waitOver f now then OneWay else MultipleNeighborsWait
  | s => if holdtimeOver f now then OneWay else s
  end.

Definition tickCore (f : FSM) (now : Z) : Core := coreEnter (tickSpec f now) (core f).

Lemma Tick_unfold clk f :
  f_eventQueue f = [] ->
  Tick clk f = drainLoop 2 (fun i => clk (S i)) (processEvent (clk O) EventTimerTick f).
Proof.
  intros Hq. unfold Tick, drainQueue.
  assert (f_eventQueue (push EventTimerTick f) = [EventTimerTick]) as Hp
    by (cbn; by rewrite Hq).
  rewrite Hp. change (queueWeight [EventTimerTick]) with 3%nat.
  rewrite (drainLoop_cons 2 clk _ EventTimerTick []) by done.
  do 2 f_equal. destruct f; cbn in Hq |- *. by subst.
Qed.

Lemma checkHoldtime_eq now f :
  checkHoldtime now f = if holdtimeOver f now then push EventHoldtimeExpired f else f.
Proof.
  unfold checkHoldtime, holdtimeOver. destruct (f_lastLIERcvd f); [|done].
  by destruct (f_neighborHoldtime f =? 0).
Qed.

Lemma Tick_core clk f : settled f -> core (Tick clk f) = tickCore f (clk O).
Proof.
  intros [Hq Hn]. rewrite Tick_unfold by done. unfold processEvent, tickCore, tickSpec.
  destruct (f_state f) eqn:Es; cbn [processOneWay processTwoWay processThreeWay
    processMultipleNeighborsWait].
  - assert (f_eventQueue (push EventSendLie f) = [EventSendLie]) as Hq1 by (cbn; by rewrite Hq).
    rewrite drainLoop_core, Hq1 by by rewrite Hq1.
    destruct (Hn eq_refl) as (En & Et & Eh).
    unfold core. cbn. by rewrite Es, En, Et, Eh.
  - rewrite checkHoldtime_eq. change (holdtimeOver (push EventSendLie f) (clk O))
      with (holdtimeOver f (clk O)).
    case_match; rewrite drainLoop_core; unfold core; cbn; rewrite ?Hq; cbn; by rewrite ?Es.
  - rewrite checkHoldtime_eq. change (holdtimeOver (push EventSendLie f) (clk O))
      with (holdtimeOver f (clk O)).
    case_match; rewrite drainLoop_core; unfold core; cbn; rewrite ?Hq; cbn; by rewrite ?Es.
  - assert (match f_multipleNeighborsDeadline f with
      | Some deadline => if clk O >? deadline then push EventMultipleNeighborsDone f else f
      | None => f end = if waitOver f (clk O) then push EventMultipleNeighborsDone f else f)
      as -> by (unfold waitOver; by destruct (f_multipleNeighborsDeadline f)).
    case_match; rewrite drainLoop_core; unfold core; cbn; rewrite ?Hq; cbn; by rewrite ?Es.
Qed.

(** ** The FSM is settled between two inputs *)

Lemma settled_core f :
  f_eventQueue f = [] ->
  (c_state (core f) = OneWay ->
     c_neighbor (core f) = None /\ c_last (core f) = None /\ c_holdtime (core f) = 0) ->
  settled f.
Proof. intros Hq Hn. by split. Qed.

Lemma HandlePacket_settled clk pkt src f : settled f -> settled (HandlePacket clk pkt src f).
Proof.
  intros Hset. destruct (PC_LIE (PP_Content pkt)) as [lie|] eqn:Hl;
    [|unfold HandlePacket; by rewrite Hl].
  apply settled_core.
  - unfold HandlePacket. rewrite Hl. by apply drainLoop_empty.
  - rewrite (HandlePacket_core clk pkt src lie f Hl Hset).
    unfold specCore, lieTimes, lieSpec, trackSpec. cbn.
    destruct Hset as [_ Hn]. destruct (f_state f) eqn:Es.
    + destruct (Hn eq_refl) as (-> & _). by destruct (verdict _ _ _).
    + destruct (verdict _ _ _); try done. repeat case_match; try done.
    + destruct (verdict _ _ _); try done. repeat case_match; try done.
    + done.
Qed.

Lemma Tick_settled clk f : settled f -> settled (Tick clk f).
Proof.
  intros Hset. apply settled_core; [by apply drainLoop_empty|].
  rewrite Tick_core by done. unfold tickCore. by destruct (tickSpec f (clk O)).
Qed.

Lemma NewFSM_settled systemID level nodeName ifName localID :
  settled (NewFSM systemID level nodeName ifName localID).
Proof. by split. Qed.

Lemma reachable_settled systemID level nodeName ifName localID f :
  lie_reachable systemID level nodeName ifName localID f -> settled f.
Proof.
  induction 1 as [|f f' _ IH [clk|clk pkt src]];
    eauto using NewFSM_settled, Tick_settled, HandlePacket_settled.
Qed.
