(* ===== verification/LieTheorems.v ===== *)
(** * LieTheorems: the properties of the LIE FSM.

    Draining, the refinement of the table, the conditions of ThreeWay, the
    handshake, expiry and recovery, and the adjacency events. *)

From S2P Require Import Prelude.
From S2P Require Import Types.
From S2P Require Import LieFsm.
From S2P Require Import LieSpec.

(** ** What is sent, and what the agent is told *)

(** The LIE that [sendLIE] would send now. *)
Definition currentLIE (f : FSM) : ProtocolPacket :=
  default zeroProtocolPacket (last (f_sent (sendLIE f))).

Lemma sendLIE_sent f : f_sent (sendLIE f) = f_sent f ++ [currentLIE f].
Proof. unfold currentLIE. unfold sendLIE. cbn. by rewrite last_snoc. Qed.

(** The last adjacency event gives the current state, and OneWay is announced
    without a neighbour. *)
Record announced (f : FSM) : Prop := {
  ann_last : match last (f_stateChangeCh f) with
             | Some ev => AE_State ev = f_state f
             | None => f_state f = OneWay
             end;
  ann_neighbor : Forall (fun ev => AE_State ev = OneWay -> AE_Neighbor ev = None)
                   (f_stateChangeCh f);
  ann_deadline : f_state f = MultipleNeighborsWait -> f_multipleNeighborsDeadline f <> None
}.

Lemma announced_frame f f' :
  f_stateChangeCh f' = f_stateChangeCh f -> f_state f' = f_state f ->
  f_multipleNeighborsDeadline f' = f_multipleNeighborsDeadline f ->
  announced f -> announced f'.
Proof. intros E1 E2 E3 [H1 H2 H3]. split; by rewrite ?E1, ?E2, ?E3. Qed.

Lemma announced_enter s f :
  (s = MultipleNeighborsWait -> f_multipleNeighborsDeadline f <> None) ->
  announced f -> announced (enterState s f).
Proof.
  intros Hd [H1 H2 H3]. unfold enterState. split.
  - cbn. rewrite last_snoc. by destruct s.
  - cbn. apply Forall_app. split; [by destruct s|]. constructor; [|done].
    by destruct s.
  - by destruct s.
Qed.

Lemma announced_timer now f :
  announced f -> announced (enterState MultipleNeighborsWait (startMultipleNeighborsTimer now f)).
Proof.
  intros H. apply announced_enter; [done|]. destruct H as [H1 H2 H3]. by split.
Qed.

Lemma processLIE_frame now f :
  f_stateChangeCh (processLIE now f) = f_stateChangeCh f /\
  f_state (processLIE now f) = f_state f /\
  f_multipleNeighborsDeadline (processLIE now f) = f_multipleNeighborsDeadline f.
Proof.
  assert (forall lie g, f_stateChangeCh (checkThreeWay lie g) = f_stateChangeCh g /\
    f_state (checkThreeWay lie g) = f_state g /\
    f_multipleNeighborsDeadline (checkThreeWay lie g) = f_multipleNeighborsDeadline g) as H3.
  { intros lie g. unfold checkThreeWay. by repeat case_match. }
  assert (forall n lie g, f_stateChangeCh (updateMinorFields n lie g) = f_stateChangeCh g /\
    f_state (updateMinorFields n lie g) = f_state g /\
    f_multipleNeighborsDeadline (updateMinorFields n lie g) = f_multipleNeighborsDeadline g) as Hm.
  { intros n lie g. unfold updateMinorFields. by case_match. }
  unfold processLIE. repeat case_match; try done. unfold trackNeighbor. cbv zeta.
  set (f1 := (push EventUpdateZTPOffer f) <| f_lastLIERcvd := Some now |>
               <| f_neighborHoldtime := LIE_Holdtime l * second |>).
  destruct (f_neighbor f1) as [n|].
  - repeat (case_match; [done|]).
    destruct (H3 l (updateHoldtime l (updateMinorFields n l f1))) as (-> & -> & ->).
    apply (Hm n l f1).
  - match goal with |- context [checkThreeWay l ?g] =>
      destruct (H3 l g) as (-> & -> & ->) end. done.
Qed.

Lemma announced_processEvent now ev f : announced f -> announced (processEvent now ev f).
Proof.
  intros H. unfold processEvent, processOneWay, processTwoWay, processThreeWay,
    processMultipleNeighborsWait.
  assert (announced (processLIE now f)) as HL.
  { destruct (processLIE_frame now f) as (E1 & E2 & E3). by apply (announced_frame f). }
  assert (forall ev, announced (push ev f)) as Hp
    by (intros ev'; by apply (announced_frame f)).
  destruct (f_state f) eqn:Es, ev; try exact H; try exact HL; try apply Hp;
    try (by apply announced_timer); try (by apply (announced_frame f));
    try (apply announced_enter; done);
    try (rewrite checkHoldtime_eq; case_match; by apply (announced_frame f)).
  - repeat case_match; first [exact H | apply Hp].
  - destruct H as [H1 H2 H3]. by split.
Qed.

Lemma announced_drain fuel clk f : announced f -> announced (drainLoop fuel clk f).
Proof.
  revert clk f. induction fuel as [|fuel IH]; intros clk f H; [done|].
  destruct (f_eventQueue f) as [|ev q] eqn:E; [by rewrite drainLoop_nil|].
  rewrite (drainLoop_cons _ _ _ _ _ E). apply IH, announced_processEvent.
  by apply (announced_frame f).
Qed.

Lemma reachable_announced systemID level nodeName ifName localID f :
  lie_reachable systemID level nodeName ifName localID f -> announced f.
Proof.
  induction 1 as [|f f' _ IH Hstep]; [by split|].
  destruct Hstep as [clk|clk pkt src].
  - by apply announced_drain, (announced_frame f).
  - unfold HandlePacket. case_match; [|done]. by apply announced_drain, (announced_frame f).
Qed.

(** ** The identity of the node never changes *)

Definition identity (f : FSM) : Z * Z * string * string * Z :=
  (f_systemID f, f_level f, f_ifName f, f_nodeName f, f_localID f).

Lemma identity_checkThreeWay lie f : identity (checkThreeWay lie f) = identity f.
Proof. unfold checkThreeWay. by repeat case_match. Qed.

Lemma identity_processLIE now f : identity (processLIE now f) = identity f.
Proof.
  unfold processLIE. repeat case_match; try done. unfold trackNeighbor. cbv zeta.
  repeat (case_match; try done); rewrite identity_checkThreeWay; try done.
  unfold updateMinorFields. by case_match.
Qed.

Lemma identity_processEvent now ev f : identity (processEvent now ev f) = identity f.
Proof.
  unfold processEvent, processOneWay, processTwoWay, processThreeWay,
    processMultipleNeighborsWait.
  destruct (f_state f), ev; try done; try apply identity_processLIE;
    try (rewrite checkHoldtime_eq; by case_match). by repeat case_match.
Qed.

Lemma identity_drain fuel clk f : identity (drainLoop fuel clk f) = identity f.
Proof.
  revert clk f. induction fuel as [|fuel IH]; intros clk f; [done|].
  destruct (f_eventQueue f) as [|ev q] eqn:E; [by rewrite drainLoop_nil|].
  rewrite (drainLoop_cons _ _ _ _ _ E), IH. by rewrite identity_processEvent.
Qed.

Lemma identity_HandlePacket clk pkt src f : identity (HandlePacket clk pkt src f) = identity f.
Proof. unfold HandlePacket. case_match; [|done]. unfold drainQueue. by rewrite identity_drain. Qed.

(** The LIE of a node with a neighbour. *)
Definition helloLIE (name : string) (link : Z) (n : option NeighborState) : LIEPacket :=
  zeroLIEPacket <| LIE_Name := name |> <| LIE_LocalID := link |>
    <| LIE_FloodPort := DefaultTIEUDPFloodPort |> <| LIE_Holdtime := DefaultLIEHoldtime |>
    <| LIE_NodeCapabilities :=
         zeroNodeCapabilities <| NC_ProtocolMinorVersion := ProtocolMinorVersion |> |>
    <| LIE_Neighbor := (fun n => mkNeighbor (NS_SystemID n) (NS_LinkID n)) <$> n |>.

Lemma currentLIE_eq f :
  currentLIE f = mkProtocolPacket
    (mkPacketHeader ProtocolMajorVersion ProtocolMinorVersion (f_systemID f) (Some (f_level f)))
    (zeroPacketContent <| PC_LIE :=
       Some (helloLIE (f_nodeName f) (f_localID f) (f_neighbor f)) |>).
Proof. unfold currentLIE, sendLIE. cbn. rewrite last_snoc. by destruct (f_neighbor f). Qed.

Lemma levelAcceptable_sym f g :
  levelAcceptable f (f_level g) = levelAcceptable g (f_level f).
Proof.
  unfold levelAcceptable. destruct (f_level f =? LeafLevel), (f_level g =? LeafLevel); try done.
  by rewrite <-Z.abs_opp, Z.opp_sub_distr, Z.add_comm.
Qed.

(** A LIE of [g] received by [f]: valid when the two are different nodes with
    acceptable levels. *)
Definition can_peer (f g : FSM) : Prop :=
  f_systemID f <> f_systemID g /\ f_systemID g <> IllegalSystemID /\
  levelAcceptable f (f_level g) = true.

Lemma verdict_hello f g n :
  can_peer f g ->
  verdict f (PP_Header (currentLIE g)) (helloLIE (f_nodeName g) (f_localID g) n)
  = Valid (f_level g).
Proof.
  intros (Hne & Hill & Hlvl). rewrite currentLIE_eq. unfold verdict.
  cbn [PP_Header PH_MajorVersion PH_Sender PH_Level].
  rewrite Z.eqb_refl. destruct (Z.eqb_spec (f_systemID g) (f_systemID f)); [congruence|].
  destruct (Z.eqb_spec (f_systemID g) IllegalSystemID); [done|]. cbn. by rewrite Hlvl.
Qed.

(** One LIE of [g], received by [f] in OneWay, and in TwoWay with [g] as its
    neighbour. *)
Lemma hello_one_way clk src f g :
  settled f -> can_peer f g -> f_state f = OneWay ->
  let f' := HandlePacket clk (currentLIE g) src f in
  f_state f' = TwoWay /\
  f_neighbor f' = Some (neighborFrom (f_systemID g) (f_level g)
    (helloLIE (f_nodeName g) (f_localID g) (f_neighbor g)) src).
Proof.
  intros Hs Hp Ho. cbv zeta. destruct (settled_neighbor _ Hs Ho) as [Hn _].
  pose proof (HandlePacket_core clk (currentLIE g) src
    (helloLIE (f_nodeName g) (f_localID g) (f_neighbor g)) f) as Hc.
  assert (PC_LIE (PP_Content (currentLIE g)) =
    Some (helloLIE (f_nodeName g) (f_localID g) (f_neighbor g))) as Hl by by rewrite currentLIE_eq.
  specialize (Hc Hl Hs). unfold specCore, lieSpec in Hc. rewrite Ho, verdict_hello in Hc by done.
  unfold trackSpec in Hc. rewrite Hn, Ho in Hc.
  split; [exact (f_equal c_state Hc)|].
  assert (PH_Sender (PP_Header (currentLIE g)) = f_systemID g) as Esend by by rewrite currentLIE_eq.
  rewrite Esend in Hc. exact (f_equal c_neighbor Hc).
Qed.

Lemma hello_two_way clk src f g n :
  settled f -> can_peer f g -> f_state f = TwoWay -> f_neighbor f = Some n ->
  NS_SystemID n = f_systemID g -> NS_Level n = f_level g -> NS_Address n = src ->
  (fun m => (NS_SystemID m, NS_LinkID m)) <$> f_neighbor g
    = Some (f_systemID f, f_localID f) ->
  let f' := HandlePacket clk (currentLIE g) src f in
  f_state f' = ThreeWay /\
  f_neighbor f' = Some (updatedNeighbor n
    (helloLIE (f_nodeName g) (f_localID g) (f_neighbor g))).
Proof.
  intros Hs Hp Ho Hn Hsys Hlvl Hsrc Hg. cbv zeta.
  pose proof (HandlePacket_core clk (currentLIE g) src
    (helloLIE (f_nodeName g) (f_localID g) (f_neighbor g)) f) as Hc.
  assert (PC_LIE (PP_Content (currentLIE g)) =
    Some (helloLIE (f_nodeName g) (f_localID g) (f_neighbor g))) as Hl by by rewrite currentLIE_eq.
  specialize (Hc Hl Hs). unfold specCore, lieSpec in Hc. rewrite Ho, verdict_hello in Hc by done.
  unfold trackSpec in Hc. rewrite Hn in Hc.
  assert (PH_Sender (PP_Header (currentLIE g)) = f_systemID g) as Esend by by rewrite currentLIE_eq.
  rewrite Esend, Hsys, Hlvl, !Z.eqb_refl in Hc. cbn [negb] in Hc.
  rewrite bool_decide_false in Hc by tauto.
  destruct (f_neighbor g) as [m|] eqn:Eg; [|done]. injection Hg as Hm1 Hm2.
  assert (reflects f (helloLIE (f_nodeName g) (f_localID g) (Some m)) = true) as Hr.
  { unfold reflects. cbn. by rewrite Hm1, Hm2, !Z.eqb_refl. }
  rewrite Hr in Hc. cbn [helloLIE LIE_Neighbor set_field fmap option_fmap option_map] in Hc.
  split; [exact (f_equal c_state Hc)|exact (f_equal c_neighbor Hc)].
Qed.

(** ** Theorems *)

(** [drainQueue] terminates on any queue: the queue is empty afterwards, and
    more iterations would change nothing. *)
Theorem drainQueue_terminates clk f n :
  f_eventQueue (drainQueue clk f) = [] /\
  drainLoop (queueWeight (f_eventQueue f) + n) clk f = drainQueue clk f.
Proof. split; [by apply drainLoop_empty|by apply drainLoop_fuel]. Qed.

(** C9: in every reachable state of the FSM a received LIE has exactly the effect
    of the specification's table: the new state and neighbour are [lieSpec]'s, the
    reception time and the holdtime [lieTimes]', and no event stays queued. *)
Theorem HandlePacket_refines systemID level nodeName ifName localID clk pkt src lie f
    (Hr : lie_reachable systemID level nodeName ifName localID f)
    (Hl : PC_LIE (PP_Content pkt) = Some lie) :
  let f' := HandlePacket clk pkt src f in
  let out := lieSpec f (PP_Header pkt) lie src in
  (f_state f', f_neighbor f') = out /\
  (f_lastLIERcvd f', f_neighborHoldtime f') = lieTimes f (PP_Header pkt) lie (clk O) out /\
  f_eventQueue f' = [].
Proof.
  apply reachable_settled in Hr. cbv zeta.
  pose proof (HandlePacket_core clk pkt src lie f Hl Hr) as Hc.
  unfold core, specCore in Hc. injection Hc as H1 H2 H3 H4.
  rewrite H1, H2, H3, H4. split; [by destruct (lieSpec _ _ _ _)|].
  split; [by destruct (lieTimes _ _ _ _ _)|]. by apply (HandlePacket_settled clk pkt src f Hr).
Qed.

Definition fsm_a : FSM := NewFSM 1 1 "a" "e1" 10.
Definition fsm_b : FSM := NewFSM 2 0 "b" "e1" 20.

Lemma HandlePacket_refines_witness :
  f_state (HandlePacket (fun _ => 0) (currentLIE fsm_a) (AddrV4 1) fsm_b) = TwoWay.
Proof.
  destruct (HandlePacket_refines 2 0 "b" "e1" 20 (fun _ => 0) (currentLIE fsm_a) (AddrV4 1)
    (default zeroLIEPacket (PC_LIE (PP_Content (currentLIE fsm_a)))) fsm_b) as [H _].
  - apply lie_start.
  - vm_compute. reflexivity.
  - apply (f_equal fst) in H. exact H.
Defined.

(** C13: the FSM enters ThreeWay only on a valid LIE that reflects this node and
    this link, sent by the current neighbour from its address at its level. *)
Theorem three_way_needs_reflection systemID level nodeName ifName localID f f'
    (Hr : lie_reachable systemID level nodeName ifName localID f)
    (Hs : lie_step f f') (H0 : f_state f <> ThreeWay) (H1 : f_state f' = ThreeWay) :
  exists clk pkt src lie n,
    f' = HandlePacket clk pkt src f /\ PC_LIE (PP_Content pkt) = Some lie /\
    LIE_Neighbor lie = Some (mkNeighbor (f_systemID f) (f_localID f)) /\
    f_neighbor f = Some n /\ NS_SystemID n = PH_Sender (PP_Header pkt) /\
    PH_Level (PP_Header pkt) = Some (NS_Level n) /\ NS_Address n = src.
Proof.
  apply reachable_settled in Hr. destruct Hs as [clk|clk pkt src].
  - pose proof (f_equal c_state (Tick_core clk f Hr)) as Hc. cbn [c_state core] in Hc.
    rewrite H1 in Hc. unfold tickCore, tickSpec in Hc.
    destruct (f_state f) eqn:Es; try done; cbn in Hc; repeat case_match; done.
  - destruct (PC_LIE (PP_Content pkt)) as [lie|] eqn:Hl.
    2:{ unfold HandlePacket in H1. by rewrite Hl in H1. }
    pose proof (f_equal c_state (HandlePacket_core clk pkt src lie f Hl Hr)) as Hc.
    cbn [c_state core specCore] in Hc. rewrite H1 in Hc. unfold lieSpec in Hc.
    destruct (decide (f_state f = MultipleNeighborsWait)) as [Es|Es]; [by rewrite Es in Hc|].
    assert (exists l, verdict f (PP_Header pkt) lie = Valid l /\
      ThreeWay = (trackSpec f (PH_Sender (PP_Header pkt)) l lie src).1) as [l [Ev Ht]].
    { destruct (f_state f), (verdict f (PP_Header pkt) lie); try done; eauto. }
    unfold trackSpec in Ht. destruct (f_neighbor f) as [n|] eqn:En.
    2:{ cbn in Ht. by destruct (f_state f). }
    destruct (Z.eqb_spec (NS_SystemID n) (PH_Sender (PP_Header pkt))) as [Esys|]; [|done].
    destruct (Z.eqb_spec (NS_Level n) l) as [Elvl|]; [|done]. cbn [negb] in Ht.
    case_bool_decide as Ea; [done|]. unfold reflects in Ht. cbn in Ht.
    destruct (LIE_Neighbor lie) as [[o r]|] eqn:Eln; [|done]. cbn in Ht.
    destruct (Z.eqb_spec o (f_systemID f)) as [->|]; [|done].
    destruct (Z.eqb_spec r (f_localID f)) as [->|]; [|done].
    exists clk, pkt, src, lie, n.
    assert (NS_Address n = src) as Esrc.
    { destruct (decide (NS_Address n = src)); [done|by destruct Ea]. }
    split_all; try done.
    unfold verdict in Ev. destruct (_ || _); [done|]. destruct (negb _); [done|].
    destruct (PH_Level (PP_Header pkt)) as [l'|]; [|done].
    destruct (levelAcceptable f l'); [|done]. injection Ev as ->. by rewrite Elvl.
Qed.

(** Two nodes after the exchange of two LIEs each. *)
Definition met_b : FSM :=
  HandlePacket (fun _ => 0) (currentLIE fsm_a) (AddrV4 1) fsm_b.
Definition met_a : FSM :=
  HandlePacket (fun _ => 0) (currentLIE met_b) (AddrV4 2) fsm_a.

Lemma three_way_needs_reflection_witness :
  exists n, f_neighbor met_b = Some n /\ NS_SystemID n = 1 /\
    f_state (HandlePacket (fun _ => 0) (currentLIE met_a) (AddrV4 1) met_b) = ThreeWay.
Proof.
  destruct (three_way_needs_reflection 2 0 "b" "e1" 20 met_b
    (HandlePacket (fun _ => 0) (currentLIE met_a) (AddrV4 1) met_b)) as
    (clk & pkt & src & lie & n & _ & _ & _ & Hn & _).
  - eapply lie_next; [apply lie_start|apply lie_packet].
  - apply lie_packet.
  - vm_compute. discriminate.
  - vm_compute. reflexivity.
  - exists n. split; [exact Hn|]. split; [|vm_compute; reflexivity].
    vm_compute in Hn. injection Hn as <-. reflexivity.
Defined.

(** A tick of an FSM that is not waiting sends one LIE, which announces the
    node and reflects the current neighbour. *)
Theorem Tick_sends systemID level nodeName ifName localID clk f
    (Hr : lie_reachable systemID level nodeName ifName localID f)
    (Hs : f_state f <> MultipleNeighborsWait) :
  f_sent (Tick clk f) = f_sent f ++ [currentLIE f] /\
  exists lie, PC_LIE (PP_Content (currentLIE f)) = Some lie /\
    PP_Header (currentLIE f) = mkPacketHeader ProtocolMajorVersion ProtocolMinorVersion
      (f_systemID f) (Some (f_level f)) /\
    LIE_LocalID lie = f_localID f /\
    LIE_Neighbor lie = (fun n => mkNeighbor (NS_SystemID n) (NS_LinkID n)) <$> f_neighbor f.
Proof.
  apply reachable_settled in Hr as [Hq _]. split.
  - rewrite Tick_unfold by done. unfold processEvent.
    assert (f_sent (drainLoop 2 (fun i => clk (S i)) (push EventSendLie f)) =
      f_sent (sendLIE f)) as HO.
    { rewrite (drainLoop_cons 1 _ _ EventSendLie []) by (cbn; by rewrite Hq).
      unfold processEvent. cbn [push set_field f_state].
      rewrite drainLoop_nil by (destruct (f_state f); done). by destruct (f_state f). }
    assert (forall s, f_state f = s -> s <> OneWay -> s <> MultipleNeighborsWait ->
      f_sent (drainLoop 2 (fun i => clk (S i)) (checkHoldtime (clk O) (push EventSendLie f)))
      = f_sent (sendLIE f)) as HT.
    { intros s Es H1 H2. rewrite checkHoldtime_eq. case_match; [|exact HO].
      rewrite (drainLoop_cons 1 _ _ EventSendLie [EventHoldtimeExpired])
        by (cbn; by rewrite Hq).
      rewrite (drainLoop_cons 0 _ _ EventHoldtimeExpired []).
      - unfold processEvent. cbn [push set_field f_state]. by destruct s; rewrite ?Es; cbn; rewrite ?Es.
      - unfold processEvent. cbn [push set_field f_state]. by destruct s; rewrite ?Es. }
    rewrite <-sendLIE_sent. destruct (f_state f) eqn:Es; try done; cbn [processOneWay
      processTwoWay processThreeWay]; by apply (HT _ eq_refl).
  - eexists. unfold currentLIE, sendLIE. cbn. rewrite last_snoc. cbn.
    split; [reflexivity|]. split; [done|]. split; [done|]. by destruct (f_neighbor f).
Qed.

Lemma Tick_sends_witness :
  f_sent (Tick (fun _ => 0) fsm_a) = [currentLIE fsm_a].
Proof.
  refine (proj1 (Tick_sends 1 1 "a" "e1" 10 (fun _ => 0) fsm_a _ _)).
  - apply lie_start.
  - discriminate.
Defined.

(** C12: two new FSMs whose systems are different, legal and of acceptable levels
    reach ThreeWay, each with the other as its neighbour, by exchanging two LIEs
    each, whatever the clocks, names, addresses and link identifiers. *)
Theorem handshake a b srcA srcB c1 c2 c3 c4 sysA lvlA nameA ifA linkA sysB lvlB nameB ifB linkB
    (Ha : a = NewFSM sysA lvlA nameA ifA linkA) (Hb : b = NewFSM sysB lvlB nameB ifB linkB)
    (Hne : sysA <> sysB) (HA : sysA <> IllegalSystemID) (HB : sysB <> IllegalSystemID)
    (Hlvl : levelAcceptable a lvlB = true) :
  let b1 := HandlePacket c1 (currentLIE a) srcA b in
  let a1 := HandlePacket c2 (currentLIE b1) srcB a in
  let b2 := HandlePacket c3 (currentLIE a1) srcA b1 in
  let a2 := HandlePacket c4 (currentLIE b2) srcB a1 in
  f_state a2 = ThreeWay /\ f_state b2 = ThreeWay /\
  (NS_SystemID <$> f_neighbor a2) = Some sysB /\ (NS_SystemID <$> f_neighbor b2) = Some sysA.
Proof.
  cbv zeta.
  assert (settled a /\ settled b) as [Hsa Hsb] by (subst; split; apply NewFSM_settled).
  assert (identity a = (sysA, lvlA, ifA, nameA, linkA)) as Ia by by subst.
  assert (identity b = (sysB, lvlB, ifB, nameB, linkB)) as Ib by by subst.
  assert (forall f g, identity f = identity a -> identity g = identity b ->
    can_peer f g /\ can_peer g f) as Hpeer.
  { intros f g Hf Hg. unfold identity in *.
    assert (levelAcceptable f (f_level g) = true) as Hl.
    { assert (f_level f = f_level a) as E1 by congruence.
      assert (f_level g = lvlB) as E2 by congruence.
      unfold levelAcceptable in *. by rewrite E1, E2. }
    unfold can_peer. rewrite (levelAcceptable_sym g f), Hl. split_all; congruence. }
  set (b1 := HandlePacket c1 (currentLIE a) srcA b).
  destruct (hello_one_way c1 srcA b a) as [Sb1 Nb1];
    [done|exact (proj2 (Hpeer a b eq_refl eq_refl))|by subst|].
  assert (settled b1 /\ identity b1 = identity b) as [Hsb1 Ib1]
    by (split; [by apply HandlePacket_settled|apply identity_HandlePacket]).
  fold b1 in Sb1, Nb1.
  set (a1 := HandlePacket c2 (currentLIE b1) srcB a).
  destruct (hello_one_way c2 srcB a b1) as [Sa1 Na1];
    [done|exact (proj1 (Hpeer a b1 eq_refl Ib1))|by subst|].
  assert (settled a1 /\ identity a1 = identity a) as [Hsa1 Ia1]
    by (split; [by apply HandlePacket_settled|apply identity_HandlePacket]).
  fold a1 in Sa1, Na1.
  pose proof (Hpeer a1 b1 Ia1 Ib1) as [Pab Pba]. pose proof Ib1 as Ib1'.
  unfold identity in Ia, Ib, Ia1, Ib1.
  set (b2 := HandlePacket c3 (currentLIE a1) srcA b1).
  destruct (hello_two_way c3 srcA b1 a1 _ Hsb1 Pba Sb1 Nb1) as [Sb2 Nb2];
    [cbn; congruence|cbn; congruence|done|
     rewrite Na1; cbn; congruence|]. fold b2 in Sb2, Nb2.
  assert (settled b2 /\ identity b2 = identity b1) as [Hsb2 Ib2]
    by (split; [by apply HandlePacket_settled|apply identity_HandlePacket]).
  pose proof (proj1 (Hpeer a1 b2 Ia1
    (eq_trans Ib2 Ib1'))) as Pab2. unfold identity in Ib2.
  destruct (hello_two_way c4 srcB a1 b2 _ Hsa1 Pab2 Sa1 Na1) as [Sa2 Na2];
    [cbn; congruence|cbn; congruence|done|
     rewrite Nb2; cbn; congruence|].
  rewrite Na2, Nb2. split_all; [exact Sa2|exact Sb2|cbn; congruence|cbn; congruence].
Qed.

Lemma handshake_witness :
  f_state (HandlePacket (fun _ => 4) (currentLIE
    (HandlePacket (fun _ => 3) (currentLIE met_a) (AddrV4 1) met_b)) (AddrV4 2) met_a) = ThreeWay.
Proof.
  refine (proj1 (handshake fsm_a fsm_b (AddrV4 1) (AddrV4 2) (fun _ => 0) (fun _ => 0)
    (fun _ => 3) (fun _ => 4) 1 1 "a" "e1" 10 2 0 "b" "e1" 20 eq_refl eq_refl _ _ _ _)).
  - discriminate.
  - discriminate.
  - discriminate.
  - reflexivity.
Defined.

(** C27: with a neighbour whose last LIE arrived at [t], a tick at time [now]
    returns the FSM to OneWay, without a neighbour, exactly when more than the
    neighbour's holdtime has passed; a holdtime of zero never expires. *)
Theorem holdtime_expiry systemID level nodeName ifName localID clk f t
    (Hr : lie_reachable systemID level nodeName ifName localID f)
    (Hs : f_state f = TwoWay \/ f_state f = ThreeWay) (Ht : f_lastLIERcvd f = Some t) :
  let f' := Tick clk f in
  (f_neighborHoldtime f <> 0 /\ f_neighborHoldtime f < clk O - t ->
     f_state f' = OneWay /\ f_neighbor f' = None) /\
  (f_neighborHoldtime f = 0 \/ clk O - t <= f_neighborHoldtime f ->
     f_state f' = f_state f /\ f_neighbor f' = f_neighbor f).
Proof.
  apply reachable_settled in Hr. pose proof (Tick_core clk f Hr) as Hc. cbv zeta.
  unfold tickCore, tickSpec, holdtimeOver in Hc. rewrite Ht, Z.gtb_ltb in Hc.
  rewrite (f_equal c_state Hc : f_state _ = _), (f_equal c_neighbor Hc : f_neighbor _ = _).
  destruct (Z.eqb_spec (f_neighborHoldtime f) 0), (Z.ltb_spec (f_neighborHoldtime f) (clk O - t));
    cbn [negb andb]; split; intros ?; try lia; destruct Hs as [-> | ->]; done.
Qed.

Lemma holdtime_expiry_witness :
  f_state (Tick (fun _ => 4 * second) met_b) = OneWay.
Proof.
  refine (proj1 (proj1 (holdtime_expiry 2 0 "b" "e1" 20 (fun _ => 4 * second) met_b 0 _ _ _) _)).
  - eapply lie_next; [apply lie_start|apply lie_packet].
  - left. vm_compute. reflexivity.
  - vm_compute. reflexivity.
  - vm_compute. split; [discriminate|reflexivity].
Defined.

(** An FSM that waits because it saw several neighbours has a deadline;
    until it has passed no LIE and no tick changes the state, and the first tick
    after it returns the FSM to OneWay without a neighbour. *)
Theorem wait_ends systemID level nodeName ifName localID f
    (Hr : lie_reachable systemID level nodeName ifName localID f)
    (Hs : f_state f = MultipleNeighborsWait) :
  exists deadline, f_multipleNeighborsDeadline f = Some deadline /\
  (forall clk pkt src, f_state (HandlePacket clk pkt src f) = MultipleNeighborsWait /\
     f_multipleNeighborsDeadline (HandlePacket clk pkt src f) = Some deadline) /\
  (forall clk, clk O <= deadline -> f_state (Tick clk f) = MultipleNeighborsWait) /\
  (forall clk, deadline < clk O -> f_state (Tick clk f) = OneWay /\ f_neighbor (Tick clk f) = None).
Proof.
  pose proof (ann_deadline _ (reachable_announced _ _ _ _ _ _ Hr) Hs) as Hd.
  apply reachable_settled in Hr.
  destruct (f_multipleNeighborsDeadline f) as [d|] eqn:Ed; [|done]. exists d.
  assert (forall clk, core (Tick clk f) = tickCore f (clk O)) as Ht
    by (intros clk; by apply Tick_core).
  unfold tickCore, tickSpec in Ht. rewrite Hs in Ht. unfold waitOver in Ht. rewrite Ed in Ht.
  split_all; [done| | |].
  - intros clk pkt src. destruct (PC_LIE (PP_Content pkt)) as [lie|] eqn:Hl;
      [|unfold HandlePacket; by rewrite Hl].
    rewrite (HandlePacket_unfold clk pkt src lie f Hl (settled_queue _ Hr)).
    set (f0 := pending f (PP_Header pkt) lie src).
    assert (f_state f0 = MultipleNeighborsWait) as E by done.
    unfold processEvent. rewrite E. cbn [processMultipleNeighborsWait].
    rewrite drainLoop_nil by apply (settled_queue _ Hr). done.
  - intros clk Hc. rewrite (f_equal c_state (Ht clk) : f_state _ = _), Z.gtb_ltb.
    destruct (Z.ltb_spec d (clk O)); [lia|done].
  - intros clk Hc. rewrite (f_equal c_state (Ht clk) : f_state _ = _),
      (f_equal c_neighbor (Ht clk) : f_neighbor _ = _), Z.gtb_ltb.
    by destruct (Z.ltb_spec d (clk O)); [|lia].
Qed.

(** An FSM in TwoWay that hears a third node. *)
Definition crowded : FSM :=
  HandlePacket (fun _ => 0) (currentLIE (NewFSM 3 1 "c" "e1" 30)) (AddrV4 3) met_b.

Lemma met_b_reachable : lie_reachable 2 0 "b" "e1" 20 met_b.
Proof.
  exact (lie_next 2 0 "b" "e1" 20 fsm_b met_b (lie_start 2 0 "b" "e1" 20)
    (lie_packet fsm_b (fun _ => 0) (currentLIE fsm_a) (AddrV4 1))).
Qed.
Lemma crowded_reachable : lie_reachable 2 0 "b" "e1" 20 crowded.
Proof.
  exact (lie_next 2 0 "b" "e1" 20 met_b crowded met_b_reachable
    (lie_packet met_b (fun _ => 0) (currentLIE (NewFSM 3 1 "c" "e1" 30)) (AddrV4 3))).
Qed.

Lemma wait_ends_witness : exists deadline, f_multipleNeighborsDeadline crowded = Some deadline.
Proof.
  assert (f_state crowded = MultipleNeighborsWait) as Hs by (vm_compute; reflexivity).
  destruct (wait_ends 2 0 "b" "e1" 20 crowded crowded_reachable Hs) as (d & Hd & _).
  exists d. exact Hd.
Defined.

(** [n] ticks with any clocks. *)
Fixpoint ticksOf (clks : list (nat -> Z)) (f : FSM) : FSM :=
  match clks with [] => f | clk :: clks => ticksOf clks (Tick clk f) end.

(** C28: a LIE of another protocol version, with the node's own or the illegal
    system identifier deletes the neighbour and the reception time but not the
    state: an FSM in ThreeWay then stays in ThreeWay, without a neighbour, for any
    number of ticks however much time passes. *)
Theorem three_way_stuck systemID level nodeName ifName localID clk pkt src lie f clks
    (Hr : lie_reachable systemID level nodeName ifName localID f)
    (Hs : f_state f = ThreeWay) (Hl : PC_LIE (PP_Content pkt) = Some lie)
    (Hbad : PH_MajorVersion (PP_Header pkt) <> ProtocolMajorVersion \/
            PH_Sender (PP_Header pkt) = f_systemID f \/
            PH_Sender (PP_Header pkt) = IllegalSystemID) :
  let f' := ticksOf clks (HandlePacket clk pkt src f) in
  f_state f' = ThreeWay /\ f_neighbor f' = None /\ f_lastLIERcvd f' = None.
Proof.
  apply reachable_settled in Hr. cbv zeta.
  pose proof (HandlePacket_settled clk pkt src f Hr) as Hset.
  pose proof (HandlePacket_core clk pkt src lie f Hl Hr) as Hc.
  assert (verdict f (PP_Header pkt) lie = Ignored) as Ev.
  { unfold verdict. zcases; try done; naive_solver lia. }
  unfold specCore, lieTimes, lieSpec in Hc. rewrite Hs, Ev in Hc. cbn in Hc.
  revert Hset Hc. generalize (HandlePacket clk pkt src f).
  induction clks as [|c clks IH]; intros f1 Hset Hc; cbn [ticksOf].
  - by injection Hc as -> -> -> _.
  - apply IH; [by apply Tick_settled|]. rewrite Tick_core by done.
    unfold tickCore, tickSpec, holdtimeOver. pose proof Hc as Hc'.
    injection Hc' as -> _ -> _. rewrite Hc. done.
Qed.

Definition bad_version_lie : ProtocolPacket :=
  mkProtocolPacket (mkPacketHeader 7 0 9 (Some 1))
    (zeroPacketContent <| PC_LIE := Some zeroLIEPacket |>).
Definition three_way_b : FSM := HandlePacket (fun _ => 0) (currentLIE met_a) (AddrV4 1) met_b.

Lemma three_way_b_reachable : lie_reachable 2 0 "b" "e1" 20 three_way_b.
Proof.
  exact (lie_next 2 0 "b" "e1" 20 met_b three_way_b met_b_reachable
    (lie_packet met_b (fun _ => 0) (currentLIE met_a) (AddrV4 1))).
Qed.

Lemma three_way_stuck_witness :
  f_state (ticksOf [fun _ => 1000 * second] (HandlePacket (fun _ => 1) bad_version_lie
    (AddrV4 9) three_way_b)) = ThreeWay.
Proof.
  refine (proj1 (three_way_stuck 2 0 "b" "e1" 20 (fun _ => 1) bad_version_lie (AddrV4 9)
    zeroLIEPacket three_way_b [fun _ => 1000 * second] _ _ _ _)).
  - exact three_way_b_reachable.
  - vm_compute. reflexivity.
  - reflexivity.
  - left. discriminate.
Defined.

(** The agent is told the truth about the state: in every reachable state the
    last adjacency event carries the FSM's state (none means OneWay), and every
    event that announces OneWay carries no neighbour. *)
Theorem adjacency_events_faithful systemID level nodeName ifName localID f
    (Hr : lie_reachable systemID level nodeName ifName localID f) :
  match last (f_stateChangeCh f) with
  | Some ev => AE_State ev = f_state f
  | None => f_state f = OneWay
  end /\
  Forall (fun ev => AE_State ev = OneWay -> AE_Neighbor ev = None) (f_stateChangeCh f).
Proof. apply reachable_announced in Hr as [H1 H2 _]. by split. Qed.

Lemma adjacency_events_faithful_witness :
  exists ev, last (f_stateChangeCh three_way_b) = Some ev /\ AE_State ev = ThreeWay.
Proof.
  destruct (adjacency_events_faithful 2 0 "b" "e1" 20 three_way_b three_way_b_reachable)
    as [H _].
  assert (f_state three_way_b = ThreeWay) as Hs by (vm_compute; reflexivity).
  rewrite Hs in H. destruct (last (f_stateChangeCh three_way_b)) as [ev|] eqn:E.
  - exists ev. split; [reflexivity|exact H].
  - discriminate H.
Defined.
