(* ===== verification/Netip.v ===== *)
(** * Netip: prefixes as strings ([PrefixToString] and [StringToPrefix] of
    [internal/spf/helpers.go]).

    The RIB is keyed by the printed form of a prefix, and disaggregation parses
    it back.  [ParsePrefix] is the part of Go's [netip.ParsePrefix] that decides
    an IPv4 prefix: everything else it accepts is an IPv6 prefix, which
    [StringToPrefix] maps to the zero value like an error. *)

From Stdlib Require Import Strings.Ascii.
From stdpp Require Import pretty.
From S2P Require Import Prelude.
From S2P Require Import Types.

(** ** Printing *)

(** [fmt.Sprintf] with the verb [d]. *)
Definition formatInt (z : Z) : string := pretty z.

(** [byte(z)] *)
Definition octet (z : Z) : Z := uwrap 8 z.

Definition PrefixToString (p : IPPrefixType) : string :=
  match IPPrefix_IPv4Prefix p with
  | Some v4 =>
      let addr := IPv4_Address v4 in
      (formatInt (octet (Z.shiftr addr 24)) ++ "." ++ formatInt (octet (Z.shiftr addr 16)) ++ "." ++
       formatInt (octet (Z.shiftr addr 8)) ++ "." ++ formatInt (octet addr) ++ "/" ++
       formatInt (IPv4_PrefixLen v4))%string
  | None => ""%string
  end.

(** ** Parsing *)

Definition digit (c : ascii) : option Z :=
  let d := Z.of_nat (Ascii.nat_of_ascii c) - 48 in
  if (0 <=? d) && (d <=? 9) then Some d else None.

(** The loop of [netip.parseIPv4Fields]: the octet read so far and its number of
    digits, the octets before it, and whether the previous character allows a
    dot. *)
Record octetState := mkOctetState {
  os_val : Z;
  os_digLen : nat;
  os_fields : list Z;
  os_dotOk : bool
}.

Fixpoint parseIPv4Fields (s : list ascii) (st : octetState) : option (list Z) :=
  match s with
  | [] => if bool_decide (length (os_fields st) < 3)%nat then None
          else Some (os_fields st ++ [os_val st])
  | c :: s' =>
      match digit c with
      | Some d =>
          if bool_decide (os_digLen st = 1%nat) && (os_val st =? 0) then None
          else let v := os_val st * 10 + d in
               if 255 <? v then None
               else parseIPv4Fields s' (mkOctetState v (S (os_digLen st)) (os_fields st) true)
      | None =>
          if bool_decide (c = "."%char) then
            if negb (os_dotOk st) || bool_decide (s' = []) then None
            else if bool_decide (length (os_fields st) = 3%nat) then None
            else parseIPv4Fields s' (mkOctetState 0 0 (os_fields st ++ [os_val st]) false)
          else None
      end
  end.

(** [ParseAddr]: the first dot, colon or percent sign tells the family. *)
Fixpoint addrFamily (s : list ascii) : option ascii :=
  match s with
  | [] => None
  | c :: s' => if bool_decide (c ∈ ["."; ":"; "%"]%char) then Some c else addrFamily s'
  end.

Definition parseIPv4 (s : list ascii) : option (list Z) :=
  match addrFamily s with
  | Some c => if bool_decide (c = "."%char) then parseIPv4Fields s (mkOctetState 0 0 [] false)
              else None
  | None => None
  end.

(** [strconv.Atoi] on digits; any other character is an error here, a sign too
    since [ParsePrefix] asks for a digit first or a single character. *)
Fixpoint atoi (acc : Z) (s : list ascii) : option Z :=
  match s with
  | [] => Some acc
  | c :: s' => d ← digit c; atoi (acc * 10 + d) s'
  end.

Definition parseBits (s : list ascii) : option Z :=
  match s with
  | [] => None
  | c :: (_ :: _) =>
      match digit c with
      | Some d => if d =? 0 then None else atoi 0 s
      | None => None
      end
  | _ => atoi 0 s
  end.

(** The text before and after the last slash. *)
Fixpoint splitLastSlash (s : list ascii) : option (list ascii * list ascii) :=
  match s with
  | [] => None
  | c :: s' =>
      match splitLastSlash s' with
      | Some (a, b) => Some (c :: a, b)
      | None => if bool_decide (c = "/"%char) then Some ([], s') else None
      end
  end.

(** The octets and the length of an IPv4 prefix. *)
Definition ParsePrefix (s : string) : option (list Z * Z) :=
  '(addr, bits) ← splitLastSlash (String.list_ascii_of_string s);
  raw ← parseIPv4 addr;
  n ← parseBits bits;
  if n >? 32 then None else Some (raw, n).

Definition StringToPrefix (s : string) : IPPrefixType :=
  match ParsePrefix s with
  | Some ([r0; r1; r2; r3], bits) =>
      let addr := Z.lor (Z.lor (Z.lor (wrap 32 (Z.shiftl r0 24)) (wrap 32 (Z.shiftl r1 16)))
                    (wrap 32 (Z.shiftl r2 8))) r3 in
      mkIPPrefix (Some (mkIPv4Prefix addr (wrap 8 bits))) None
  | _ => mkIPPrefix None None
  end.

(** ** Round trip *)

Lemma list_ascii_app a b :
  String.list_ascii_of_string (a ++ b) = String.list_ascii_of_string a ++ String.list_ascii_of_string b.
Proof. induction a as [|c a IH]; [done|]. exact (f_equal (cons c) IH). Qed.

(** [lia] on divisions by constants. *)
Ltac divlia := Z.to_euclidean_division_equations; lia.

Lemma lor_disjoint k a b :
  0 <= k -> a mod 2 ^ k = 0 -> 0 <= b < 2 ^ k -> Z.lor a b = a + b.
Proof.
  intros Hk Ha Hb. symmetry. apply Z.add_nocarry_lor, Z.bits_inj_0. intros n.
  rewrite Z.land_spec. destruct (decide (n < k)).
  - rewrite <-(Z.mod_pow2_bits_low a k n), Ha, Z.testbit_0_l by lia. done.
  - rewrite <-(Z.mod_small b (2 ^ k)), Z.mod_pow2_bits_high by lia. apply andb_false_r.
Qed.

Definition octets (addr : Z) : list Z :=
  [octet (Z.shiftr addr 24); octet (Z.shiftr addr 16); octet (Z.shiftr addr 8); octet addr].

Lemma octet_range z : 0 <= octet z < 256.
Proof. unfold octet, uwrap. apply Z.mod_pos_bound. lia. Qed.

(** The bytes of an address, put back together. *)
Lemma octets_join addr :
  is_int 32 addr ->
  Z.lor (Z.lor (Z.lor (wrap 32 (Z.shiftl (octet (Z.shiftr addr 24)) 24))
                      (wrap 32 (Z.shiftl (octet (Z.shiftr addr 16)) 16)))
               (wrap 32 (Z.shiftl (octet (Z.shiftr addr 8)) 8)))
        (octet addr) = addr.
Proof.
  intros Ha%(proj1 (is_int32 _)).
  rewrite (Z.shiftl_mul_pow2 _ 24), (Z.shiftl_mul_pow2 _ 16), (Z.shiftl_mul_pow2 _ 8) by lia.
  rewrite !Z.shiftr_div_pow2 by lia. unfold octet, uwrap, wrap.
  change (32 - 1) with 31. change (2 ^ 24) with 16777216. change (2 ^ 16) with 65536.
  change (2 ^ 8) with 256. change (2 ^ 31) with 2147483648. change (2 ^ 32) with 4294967296.
  assert (forall z, 0 <= z mod 256 < 256) as Hb by (intros z; apply Z.mod_pos_bound; lia).
  assert (((addr / 16777216) mod 256 * 16777216 + 2147483648) mod 4294967296 - 2147483648
          = addr / 16777216 * 16777216) as -> by divlia.
  pose proof (Hb (addr / 65536)). pose proof (Hb (addr / 256)). pose proof (Hb addr).
  rewrite (Z.mod_small (_ * 65536 + _)), (Z.mod_small (_ * 256 + _)), !Z.add_simpl_r by lia.
  rewrite (lor_disjoint 24 (_ * 16777216)); change (2 ^ 24) with 16777216; [|lia|by apply Z_mod_mult|lia].
  rewrite (lor_disjoint 16 (_ + _ * 65536)); change (2 ^ 16) with 65536; [|lia|divlia|lia].
  rewrite (lor_disjoint 8 (_ + _ * 256)); change (2 ^ 8) with 256; [|lia|divlia|lia].
  divlia.
Qed.

Abbreviation chars := String.list_ascii_of_string.

(** The digits of one octet, read by [parseIPv4Fields]. *)
Fixpoint digitsRun (s : list ascii) (v : Z) (n : nat) : option (Z * nat) :=
  match s with
  | [] => Some (v, n)
  | c :: s' =>
      d ← digit c;
      if bool_decide (n = 1%nat) && (v =? 0) then None
      else if 255 <? v * 10 + d then None
      else digitsRun s' (v * 10 + d) (S n)
  end.

Lemma parse_digits s v n fs ok v' n' rest :
  digitsRun s v n = Some (v', n') -> (s = [] -> ok = true) ->
  parseIPv4Fields (s ++ rest) (mkOctetState v n fs ok)
  = parseIPv4Fields rest (mkOctetState v' n' fs true).
Proof.
  revert v n ok. induction s as [|c s IH]; intros v n ok Hrun Hok; cbn in *.
  - injection Hrun as -> ->. by rewrite Hok.
  - destruct (digit c) as [d|]; [|done]. cbn in Hrun.
    destruct (bool_decide (n = 1%nat) && (v =? 0)); [done|].
    destruct (255 <? v * 10 + d); [done|]. by apply IH.
Qed.

(** What the parsers make of one printed octet and of one printed length,
    decided by enumeration. *)
Definition octet_ok (o : Z) : bool :=
  bool_decide (fst <$> digitsRun (chars (formatInt o)) 0 0 = Some o
               /\ chars (formatInt o) <> [] /\ addrFamily (chars (formatInt o)) = None).

Lemma octet_printed o : 0 <= o < 256 -> octet_ok o = true.
Proof.
  intros Ho. cut (forallb octet_ok (seqZ 0 256) = true).
  - intros H. apply (proj1 (forallb_forall octet_ok (seqZ 0 256)) H), list_elem_of_In, elem_of_seqZ. lia.
  - vm_compute. reflexivity.
Qed.

Definition bits_ok (n : Z) : bool :=
  bool_decide (parseBits (chars (formatInt n)) = (if n <? 0 then None else Some n)
               /\ "/"%char ∉ chars (formatInt n)).

Lemma bits_printed n : is_int 8 n -> bits_ok n = true.
Proof.
  intros Hn%(proj1 (is_int8 _)). cut (forallb bits_ok (seqZ (-128) 256) = true).
  - intros H. apply (proj1 (forallb_forall bits_ok (seqZ (-128) 256)) H), list_elem_of_In, elem_of_seqZ. lia.
  - vm_compute. reflexivity.
Qed.

Lemma splitLastSlash_app a b :
  "/"%char ∉ b -> splitLastSlash (a ++ "/"%char :: b) = Some (a, b).
Proof.
  intros Hb.
  assert (splitLastSlash b = None) as En.
  { induction b as [|c b IH]; [done|]. apply not_elem_of_cons in Hb as [Hc Hb].
    cbn. rewrite IH by done. by rewrite bool_decide_eq_false_2 by congruence. }
  induction a as [|c a IH]; cbn.
  - by rewrite En.
  - by rewrite IH.
Qed.

Lemma addrFamily_app a b : addrFamily a = None -> addrFamily (a ++ b) = addrFamily b.
Proof.
  induction a as [|c a IH]; [done|]. cbn. case_bool_decide; [done|]. exact IH.
Qed.

Lemma octet_run o :
  0 <= o < 256 ->
  (exists n, digitsRun (chars (formatInt o)) 0 0 = Some (o, n)) /\
  chars (formatInt o) <> [] /\ addrFamily (chars (formatInt o)) = None.
Proof.
  intros Hr%octet_printed. unfold octet_ok in Hr.
  apply bool_decide_eq_true_1 in Hr as (H1 & H2 & H3).
  destruct (digitsRun _ 0 0) as [[v n]|]; [|done]. injection H1 as ->. eauto.
Qed.

Lemma parse_octet o fs rest :
  0 <= o < 256 -> (length fs < 3)%nat -> rest <> [] ->
  parseIPv4Fields (chars (formatInt o) ++ "."%char :: rest) (mkOctetState 0 0 fs false)
  = parseIPv4Fields rest (mkOctetState 0 0 (fs ++ [o]) false).
Proof.
  intros ([n Hn] & Hne & _)%octet_run Hfs Hrest.
  rewrite (parse_digits _ _ _ _ _ _ _ _ Hn) by done. cbn.
  rewrite (bool_decide_eq_true_2 ("."%char = "."%char)) by done.
  rewrite (bool_decide_eq_false_2 _ Hrest). cbn.
  by rewrite (bool_decide_eq_false_2 (length fs = _)) by lia.
Qed.

Lemma parse_last_octet o fs :
  0 <= o < 256 -> (3 <= length fs)%nat ->
  parseIPv4Fields (chars (formatInt o)) (mkOctetState 0 0 fs false) = Some (fs ++ [o]).
Proof.
  intros ([n Hn] & Hne & _)%octet_run Hfs.
  rewrite <-(app_nil_r (chars _)), (parse_digits _ _ _ _ _ _ _ _ Hn) by done. cbn.
  by rewrite bool_decide_eq_false_2 by lia.
Qed.

(** Four printed octets joined by dots. *)
Lemma parseIPv4_printed o0 o1 o2 o3 :
  Forall (fun o => 0 <= o < 256) [o0; o1; o2; o3] ->
  parseIPv4 (chars (formatInt o0) ++ "."%char :: chars (formatInt o1) ++ "."%char ::
             chars (formatInt o2) ++ "."%char :: chars (formatInt o3)) = Some [o0; o1; o2; o3].
Proof.
  intros H. rewrite !Forall_cons in H. destruct H as (H0 & H1 & H2 & H3 & _).
  assert (forall a s, "."%char :: s <> [] /\ (a ++ "."%char :: s) <> @nil ascii) as Hne.
  { intros [|] s; done. }
  unfold parseIPv4. rewrite addrFamily_app by (apply octet_run; done). cbn [addrFamily].
  rewrite !bool_decide_eq_true_2 by (done || by left).
  rewrite !parse_octet by (first [done | cbn; lia | apply Hne | apply octet_run; done]).
  by rewrite parse_last_octet by (cbn; lia || done).
Qed.

Lemma chars_prefix addr len :
  chars (PrefixToString (mkIPPrefix (Some (mkIPv4Prefix addr len)) None)) =
  (chars (formatInt (octet (Z.shiftr addr 24))) ++ "."%char ::
   chars (formatInt (octet (Z.shiftr addr 16))) ++ "."%char ::
   chars (formatInt (octet (Z.shiftr addr 8))) ++ "."%char :: chars (formatInt (octet addr)))
  ++ "/"%char :: chars (formatInt len).
Proof.
  unfold PrefixToString. cbn [IPPrefix_IPv4Prefix IPv4_Address IPv4_PrefixLen].
  rewrite !list_ascii_app. repeat (rewrite <-app_assoc; cbn [app]). reflexivity.
Qed.

(** What the parser makes of a printed prefix. *)
Lemma ParsePrefix_printed addr len : is_int 8 len ->
  ParsePrefix (PrefixToString (mkIPPrefix (Some (mkIPv4Prefix addr len)) None)) =
  if (0 <=? len) && (len <=? 32) then Some (octets addr, len) else None.
Proof.
  intros Hl. pose proof (bits_printed len Hl) as Hb. apply bool_decide_eq_true_1 in Hb as [Hb Hs].
  unfold ParsePrefix. rewrite chars_prefix, splitLastSlash_app by done.
  cbn [mbind option_bind]. rewrite parseIPv4_printed by (repeat constructor; apply octet_range).
  cbn [mbind option_bind]. rewrite Hb. destruct (Z.ltb_spec len 0), (Z.leb_spec 0 len); try lia; [done|].
  cbn [mbind option_bind andb]. rewrite Z.gtb_ltb.
  by destruct (Z.ltb_spec 32 len), (Z.leb_spec len 32); try lia.
Qed.

(** What [ParsePrefix] returns: four octets and a length of at most 32. *)
Lemma digit_range c d : digit c = Some d -> 0 <= d <= 9.
Proof.
  unfold digit. cbv zeta. case_match eqn:E; [|done]. intros [= <-].
  apply andb_true_iff in E as [?%Z.leb_le ?%Z.leb_le]. by split.
Qed.

Lemma parseIPv4Fields_length s st raw :
  (length (os_fields st) <= 3)%nat -> parseIPv4Fields s st = Some raw -> length raw = 4%nat.
Proof.
  revert st. induction s as [|c s IH]; intros st Hst; cbn.
  - case_bool_decide; [done|]. intros [= <-]. rewrite length_app. cbn. lia.
  - repeat case_match; try done; apply IH; cbn; [done|].
    case_bool_decide; [done|]. rewrite length_app. cbn. lia.
Qed.

Lemma atoi_nonneg acc s n : 0 <= acc -> atoi acc s = Some n -> 0 <= n.
Proof.
  revert acc. induction s as [|c s IH]; intros acc Hacc; cbn; [by intros [= <-]|].
  intros (d & Hd%digit_range & Hn)%bind_Some. apply IH in Hn; [done|lia].
Qed.

Lemma ParsePrefix_shape s raw len : ParsePrefix s = Some (raw, len) ->
  (exists o0 o1 o2 o3, raw = [o0; o1; o2; o3]) /\ 0 <= len <= 32.
Proof.
  unfold ParsePrefix. intros ([addr bits] & _ & (r & Hr & (n & Hn & H)%bind_Some)%bind_Some)%bind_Some.
  rewrite Z.gtb_ltb in H. destruct (Z.ltb_spec 32 n); [done|]. injection H as <- <-. split.
  - unfold parseIPv4 in Hr. repeat case_match; try done.
    apply parseIPv4Fields_length in Hr; [|cbn; lia].
    destruct r as [|o0 [|o1 [|o2 [|o3 [|]]]]]; try done. by exists o0, o1, o2, o3.
  - split; [|done]. unfold parseBits in Hn.
    repeat case_match; try done; by apply atoi_nonneg in Hn.
Qed.

(** ** Theorems *)

Module NetipTheorems.

(** C36: printing an IPv4 prefix and parsing the text gives the prefix back exactly
    when its length is at most 32 and not negative; with another length the
    parser refuses the text and returns the zero prefix. *)
Theorem prefix_string_roundtrip addr len
    (Ha : is_int 32 addr) (Hl : is_int 8 len) :
  StringToPrefix (PrefixToString (mkIPPrefix (Some (mkIPv4Prefix addr len)) None)) =
  if (0 <=? len) && (len <=? 32) then mkIPPrefix (Some (mkIPv4Prefix addr len)) None
  else mkIPPrefix None None.
Proof.
  unfold StringToPrefix. rewrite ParsePrefix_printed by done.
  destruct ((0 <=? len) && (len <=? 32)); [|done]. unfold octets.
  by rewrite octets_join, wrap_id by (done || lia).
Qed.

Lemma prefix_string_roundtrip_witness :
  StringToPrefix (PrefixToString (mkIPPrefix (Some (mkIPv4Prefix (-1062731775) 24)) None))
  = mkIPPrefix (Some (mkIPv4Prefix (-1062731775) 24)) None.
Proof.
  apply (prefix_string_roundtrip (-1062731775) 24); [apply is_int32|apply is_int8]; lia.
Defined.

End NetipTheorems.
