(* ===== verification/Spf.v ===== *)
(** * Spf: routes and LSDB lookups ([internal/spf/types.go] and [helpers.go]).

    A [*Route] in a RIB under construction has no other reference, and
    [MergeNextHops] returns a fresh slice, so a RIB is a map of values here;
    [SpfEngine.v] treats the one place where routes are shared.

    [addRoutes_spec] states what a sequence of [addRoute] calls computes: per
    prefix, the union of the next hops of the best offers. *)

From S2P Require Import Prelude.
From S2P Require Import Types.
From S2P Require Import Lsdb.

Record NextHop := mkNextHop {
  NH_NeighborID : Z;
  NH_Address : Addr;
  NH_Interface : string
}.
#[export] Instance NextHop_eq_dec : EqDecision NextHop.
Proof. solve_decision. Defined.

Record Route := mkRoute {
  Route_Prefix : string;
  Route_Metric : Z;
  Route_RouteType : Z;
  Route_NextHops : list NextHop
}.
#[export] Instance eta_Route : Eta Route :=
  fun r => mkRoute (Route_Prefix r) (Route_Metric r) (Route_RouteType r) (Route_NextHops r).

Abbreviation RIB := (gmap string Route).

Definition LinkCost (n : NodeNeighborsTIEElement) : Z :=
  match NN_Cost n with Some c => c | None => DefaultDistance end.

Definition FindNodeTIE (entries : LSDB) (dir originator : Z) : option NodeTIEElement :=
  entry ← entries !! mkTIEID dir originator TIETypeNodeTIEType 1;
  EL_Node (TIE_Element (Entry_Packet entry)).

(** The scan of [FindPrefixTIEs] and [FindPositiveDisaggPrefixTIEs]. *)
Definition findTIEs {R : MapRange} (entries : LSDB) (dir originator tieType : Z)
    (element : TIEElement -> option PrefixTIEElement) : list PrefixTIEElement :=
  omap (fun '(id, entry) =>
    if (Direction id =? dir) && (Originator id =? originator) && (TIEType id =? tieType)
    then element (TIE_Element (Entry_Packet entry)) else None) (range_map entries).

Definition FindPrefixTIEs {R : MapRange} (entries : LSDB) (dir originator : Z)
    : list PrefixTIEElement :=
  findTIEs entries dir originator TIETypePrefixTIEType EL_Prefixes.

Definition FindPositiveDisaggPrefixTIEs {R : MapRange} (entries : LSDB)
    (dir originator : Z) : list PrefixTIEElement :=
  findTIEs entries dir originator TIETypePositiveDisaggregationPrefixTIEType
    EL_PositiveDisaggregationPrefixes.

(** One round of the second loop of [MergeNextHops]. *)
Definition mergeStep (st : gset Z * list NextHop) (nh : NextHop) : gset Z * list NextHop :=
  let '(seen, result) := st in
  if decide (NH_NeighborID nh ∈ seen) then (seen, result)
  else ({[NH_NeighborID nh]} ∪ seen, result ++ [nh]).

Definition MergeNextHops (a b : list NextHop) : list NextHop :=
  (foldl mergeStep (list_to_set (NH_NeighborID <$> a), a) b).2.

Definition addRoute (rib : RIB) (prefix : string) (metric routeType : Z)
    (nextHops : list NextHop) : RIB :=
  let new := mkRoute prefix metric routeType nextHops in
  match rib !! prefix with
  | None => <[prefix := new]> rib
  | Some existing =>
      if routeType <? Route_RouteType existing then <[prefix := new]> rib
      else if routeType >? Route_RouteType existing then rib
      else if metric <? Route_Metric existing then <[prefix := new]> rib
      else if metric =? Route_Metric existing then
        <[prefix := existing <| Route_NextHops :=
            MergeNextHops (Route_NextHops existing) nextHops |>]> rib
      else rib
  end.

(** ** Next-hop sets *)

Abbreviation hopIDs := (fmap (M := list) NH_NeighborID).

(** The merged list: the first, then what the second adds. *)
Lemma MergeNextHops_spec a b :
  exists c, MergeNextHops a b = a ++ c /\ c ⊆ b /\
    (forall n, n ∈ hopIDs (MergeNextHops a b) <-> n ∈ hopIDs a \/ n ∈ hopIDs b) /\
    (NoDup (hopIDs a) -> NoDup (hopIDs (MergeNextHops a b))).
Proof.
  unfold MergeNextHops.
  cut (forall (seen : gset Z) r, (forall n, n ∈ seen <-> n ∈ hopIDs r) ->
    exists c, (foldl mergeStep (seen, r) b).2 = r ++ c /\ c ⊆ b /\
      (forall n, n ∈ hopIDs (r ++ c) <-> n ∈ hopIDs r \/ n ∈ hopIDs b) /\
      (NoDup (hopIDs r) -> NoDup (hopIDs (r ++ c)))).
  { intros H. destruct (H (list_to_set (hopIDs a)) a) as (c & -> & ?); [set_solver|eauto]. }
  induction b as [|h b IH]; intros seen r Hs; cbn.
  - exists []. rewrite app_nil_r. set_solver.
  - case_decide as Hin.
    + destruct (IH seen r Hs) as (c & -> & Hc & Hn & Hd). exists c.
      split_and!; [done|set_solver| |done]. intros n. rewrite Hn. set_solver.
    + destruct (IH ({[NH_NeighborID h]} ∪ seen) (r ++ [h])) as (c & -> & Hc & Hn & Hd).
      { intros n. rewrite fmap_app. set_solver. }
      exists (h :: c). rewrite <-app_assoc in *. cbn in *.
      split_and!; [done|set_solver| |].
      * intros n. rewrite Hn, fmap_app. set_solver.
      * intros Hr. apply Hd. rewrite fmap_app. apply NoDup_app. cbn.
        split_and!; [done| |apply NoDup_singleton]. set_solver.
Qed.

(** ** Sequences of offers *)

(** The arguments of one call of [addRoute]. *)
Record Offer := mkOffer {
  Offer_Prefix : string;
  Offer_Metric : Z;
  Offer_RouteType : Z;
  Offer_NextHops : list NextHop
}.

Definition addOffer (rib : RIB) (o : Offer) : RIB :=
  addRoute rib (Offer_Prefix o) (Offer_Metric o) (Offer_RouteType o) (Offer_NextHops o).

(** Route type first, then metric. *)
Definition preferred (o : Offer) (r : Route) : Prop :=
  Offer_RouteType o < Route_RouteType r \/
  (Offer_RouteType o = Route_RouteType r /\ Offer_Metric o < Route_Metric r).

Definition tied (o : Offer) (r : Route) : Prop :=
  Offer_RouteType o = Route_RouteType r /\ Offer_Metric o = Route_Metric r.

(** [r] is the route for [p] that the offers [os] determine: no offer is
    preferred to it, it ties with one, and its next hops are those of all the
    offers it ties with. *)
Record best_route (os : list Offer) (p : string) (r : Route) : Prop := {
  best_prefix : Route_Prefix r = p;
  best_minimal : forall o, o ∈ os -> Offer_Prefix o = p -> ~ preferred o r;
  best_attained : exists o, o ∈ os /\ Offer_Prefix o = p /\ tied o r;
  best_hops : forall n, n ∈ hopIDs (Route_NextHops r) <->
    exists o, o ∈ os /\ Offer_Prefix o = p /\ tied o r /\ n ∈ hopIDs (Offer_NextHops o);
  best_sound : forall h, h ∈ Route_NextHops r ->
    exists o, o ∈ os /\ Offer_Prefix o = p /\ tied o r /\ h ∈ Offer_NextHops o;
  best_nodup : (forall o, o ∈ os -> NoDup (hopIDs (Offer_NextHops o))) ->
    NoDup (hopIDs (Route_NextHops r))
}.

Definition ribOf (os : list Offer) : RIB := foldl addOffer ∅ os.

Lemma best_route_new os o :
  (forall o', o' ∈ os -> Offer_Prefix o' = Offer_Prefix o ->
     ~ preferred o' (mkRoute (Offer_Prefix o) (Offer_Metric o) (Offer_RouteType o) (Offer_NextHops o)) /\
     ~ tied o' (mkRoute (Offer_Prefix o) (Offer_Metric o) (Offer_RouteType o) (Offer_NextHops o))) ->
  best_route (os ++ [o]) (Offer_Prefix o)
    (mkRoute (Offer_Prefix o) (Offer_Metric o) (Offer_RouteType o) (Offer_NextHops o)).
Proof.
  intros H. set (r := mkRoute _ _ _ _) in *.
  assert (tied o r) as Ht by done.
  assert (forall o', o' ∈ os ++ [o] -> Offer_Prefix o' = Offer_Prefix o -> tied o' r -> o' = o)
    as Hone.
  { intros o' [Hin| ->%list_elem_of_singleton]%elem_of_app Hp Ht'; [|done]. by destruct (H o' Hin Hp). }
  constructor.
  - done.
  - intros o' [Hin| ->%list_elem_of_singleton]%elem_of_app Hp; [by apply H|].
    unfold preferred; cbn. lia.
  - exists o. set_solver.
  - intros n. split; [intros Hn; exists o; set_solver|].
    intros (o' & Hin & Hp & Ht' & Hn). by rewrite (Hone o' Hin Hp Ht') in Hn.
  - intros h Hh. exists o. set_solver.
  - intros Hd. apply Hd. set_solver.
Qed.

Lemma best_route_keep os o p r :
  best_route os p r -> (Offer_Prefix o = p -> ~ preferred o r /\ ~ tied o r) ->
  best_route (os ++ [o]) p r.
Proof.
  intros [H1 H2 H3 H4 H5 H6] Ho. constructor.
  - done.
  - intros o' [Hin| ->%list_elem_of_singleton]%elem_of_app Hp; [by apply H2|by apply Ho].
  - destruct H3 as (o' & ? & ?). exists o'. set_solver.
  - intros n. rewrite H4. split; intros (o' & Hin & Hp & Ht & Hn); exists o'.
    + set_solver.
    + apply elem_of_app in Hin as [Hin| ->%list_elem_of_singleton]; [done|].
      by destruct (Ho Hp).
  - intros h (o' & ? & ?)%H5. exists o'. set_solver.
  - intros Hd. apply H6. set_solver.
Qed.

Lemma best_route_merge os o r :
  best_route os (Offer_Prefix o) r -> tied o r ->
  best_route (os ++ [o]) (Offer_Prefix o)
    (r <| Route_NextHops := MergeNextHops (Route_NextHops r) (Offer_NextHops o) |>).
Proof.
  intros [H1 H2 H3 H4 H5 H6] Ho.
  destruct (MergeNextHops_spec (Route_NextHops r) (Offer_NextHops o)) as (c & E & Hc & Hn & Hd).
  constructor; cbn; try done.
  - intros o' [Hin| ->%list_elem_of_singleton]%elem_of_app Hp; [by apply H2|].
    unfold preferred, tied in *; cbn. lia.
  - exists o. set_solver.
  - intros n. rewrite Hn, H4. split.
    + intros [(o' & ? & ?)|?]; [exists o'; set_solver|exists o; set_solver].
    + intros (o' & [Hin| ->%list_elem_of_singleton]%elem_of_app & Hp & Ht & ?); [left|by right].
      by exists o'.
  - intros h. rewrite E. intros [(o' & ? & ?)%H5|Hh]%elem_of_app; [exists o'; set_solver|].
    exists o. set_solver.
  - intros Hdo. apply Hd, H6. set_solver.
Qed.

(** What a sequence of [addRoute] calls on an empty RIB computes. *)
Lemma addRoutes_spec os p :
  match ribOf os !! p with
  | None => forall o, o ∈ os -> Offer_Prefix o <> p
  | Some r => best_route os p r
  end.
Proof.
  induction os as [|o os IH] using rev_ind.
  { unfold ribOf. cbn. rewrite lookup_empty. set_solver. }
  unfold ribOf in *. rewrite foldl_snoc. set (rib := foldl addOffer ∅ os) in *.
  unfold addOffer, addRoute.
  destruct (decide (Offer_Prefix o = p)) as [<-|Hp].
  - destruct (rib !! Offer_Prefix o) as [r|] eqn:Er.
    + rewrite Z.gtb_ltb. destruct (Z.ltb_spec (Offer_RouteType o) (Route_RouteType r));
      [|destruct (Z.ltb_spec (Route_RouteType r) (Offer_RouteType o));
      [|destruct (Z.ltb_spec (Offer_Metric o) (Route_Metric r));
      [|destruct (Z.eqb_spec (Offer_Metric o) (Route_Metric r))]]];
      rewrite ?lookup_insert_eq, ?Er.
      * apply best_route_new. intros o' Hin Hp. pose proof (best_minimal _ _ _ IH o' Hin Hp).
        unfold preferred, tied in *; cbn. lia.
      * apply best_route_keep; [done|]. unfold preferred, tied. lia.
      * apply best_route_new. intros o' Hin Hp. pose proof (best_minimal _ _ _ IH o' Hin Hp).
        unfold preferred, tied in *; cbn. lia.
      * apply best_route_merge; [done|]. unfold tied. lia.
      * apply best_route_keep; [done|]. unfold preferred, tied. lia.
    + rewrite lookup_insert_eq. apply best_route_new. intros o' Hin Hp. by destruct (IH o' Hin).
  - assert (forall x, <[Offer_Prefix o := x]> rib !! p = rib !! p) as E
      by (intros; by apply lookup_insert_ne).
    assert (match rib !! p with
            | Some r => best_route (os ++ [o]) p r
            | None => forall o', o' ∈ os ++ [o] -> Offer_Prefix o' <> p end) as G.
    { destruct (rib !! p); [by apply best_route_keep|]. set_solver. }
    destruct (rib !! Offer_Prefix o) as [r|]; repeat case_match; rewrite ?E in *; simplify_eq; done.
Qed.
