(* ===== verification/PrioQueue.v ===== *)
(** * PrioQueue: the priority queue of the southbound computation
    ([priorityQueue] of [internal/spf/southbound.go] and the [container/heap]
    functions that drive it).

    [PriorityQueue] is what Dijkstra's algorithm relies on: a multiset from which
    an item of least distance is taken.  [binaryHeap] is the implementation.  The
    [index] of an item is written and never read, and is left out. *)

From Stdlib Require Import ZifyNat.
From S2P Require Import Prelude.

Record pqItem := mkPqItem { pq_systemID : Z; pq_distance : Z }.
#[export] Instance pqItem_eq_dec : EqDecision pqItem.
Proof. solve_decision. Defined.

(** ** The interface *)

Class PriorityQueue (Q : Type) := {
  pq_wf : Q -> Prop;
  pq_items : Q -> list pqItem;
  pq_empty : Q;
  pq_push : pqItem -> Q -> Q;
  pq_pop : Q -> option (pqItem * Q);
  pq_empty_wf : pq_wf pq_empty;
  pq_empty_items : pq_items pq_empty = [];
  pq_push_wf x q : pq_wf q -> pq_wf (pq_push x q);
  pq_push_items x q : pq_wf q -> pq_items (pq_push x q) ≡ₚ x :: pq_items q;
  pq_pop_none q : pq_wf q -> pq_pop q = None -> pq_items q = [];
  pq_pop_some q x q' : pq_wf q -> pq_pop q = Some (x, q') ->
    pq_wf q' /\ pq_items q ≡ₚ x :: pq_items q' /\
    Forall (fun y => pq_distance x <= pq_distance y) (pq_items q')
}.

(** ** [container/heap] on a slice of items *)

Module Heap.

Open Scope nat_scope.

#[local] Ltac Zify.zify_post_hook ::= Z.to_euclidean_division_equations.

Definition Less (h : list pqItem) (i j : nat) : bool :=
  match h !! i, h !! j with
  | Some a, Some b => (pq_distance a <? pq_distance b)%Z
  | _, _ => false
  end.

Definition Swap (h : list pqItem) (i j : nat) : list pqItem :=
  match h !! i, h !! j with
  | Some a, Some b => <[i := b]> (<[j := a]> h)
  | _, _ => h
  end.

(** [fuel] bounds the rounds of [up] and [down]: the index strictly decreases in
    the one and increases in the other. *)
Fixpoint up (fuel : nat) (h : list pqItem) (j : nat) : list pqItem :=
  match fuel with
  | O => h
  | S fuel =>
      let i := (j - 1) / 2 in
      if (i =? j) || negb (Less h j i) then h else up fuel (Swap h i j) i
  end.

Fixpoint down (fuel : nat) (h : list pqItem) (i n : nat) : list pqItem :=
  match fuel with
  | O => h
  | S fuel =>
      let j1 := 2 * i + 1 in
      if n <=? j1 then h
      else
        let j := if (j1 + 1 <? n) && Less h (j1 + 1) j1 then j1 + 1 else j1 in
        if negb (Less h j i) then h else down fuel (Swap h i j) j n
  end.

Definition Push (x : pqItem) (h : list pqItem) : list pqItem :=
  up (S (length h)) (h ++ [x]) (length h).

Definition Pop (h : list pqItem) : option (pqItem * list pqItem) :=
  let n := length h - 1 in
  let h' := down (S (length h)) (Swap h 0 n) 0 n in
  x ← last h'; Some (x, take n h').

(** ** The heap property *)

Definition key (h : list pqItem) (i : nat) : Z := default 0%Z (pq_distance <$> h !! i).
Definition par (k : nat) : nat := (k - 1) / 2.

(** The items below index [n] form a heap. *)
Definition heap_ok (h : list pqItem) (n : nat) : Prop :=
  forall k, 0 < k < n -> (key h (par k) <= key h k)%Z.

Lemma Less_spec h i j :
  i < length h -> j < length h -> Less h i j = (key h i <? key h j)%Z.
Proof.
  intros [a Ha]%lookup_lt_is_Some_2 [b Hb]%lookup_lt_is_Some_2.
  unfold Less, key. by rewrite Ha, Hb.
Qed.

Lemma Swap_length h i j : length (Swap h i j) = length h.
Proof. unfold Swap. repeat case_match; by rewrite ?length_insert. Qed.

Lemma Swap_lookup h i j k :
  i < length h -> j < length h ->
  Swap h i j !! k = if decide (k = i) then h !! j else if decide (k = j) then h !! i else h !! k.
Proof.
  intros Hi Hj. destruct (lookup_lt_is_Some_2 _ _ Hi) as [a Ha], (lookup_lt_is_Some_2 _ _ Hj) as [b Hb].
  unfold Swap. rewrite Ha, Hb. repeat case_decide; subst.
  - by rewrite list_lookup_insert_eq by (by rewrite length_insert).
  - by rewrite list_lookup_insert_ne, list_lookup_insert_eq by done.
  - by rewrite !list_lookup_insert_ne by done.
Qed.

Lemma Swap_key h i j k :
  i < length h -> j < length h ->
  key (Swap h i j) k = if decide (k = i) then key h j else if decide (k = j) then key h i else key h k.
Proof. intros Hi Hj. unfold key. rewrite Swap_lookup by done. by repeat case_decide. Qed.

Lemma Swap_perm h i j : Swap h i j ≡ₚ h.
Proof.
  unfold Swap. destruct (h !! i) as [a|] eqn:Ha; [|done]. destruct (h !! j) as [b|] eqn:Hb; [|done].
  assert (i < length h /\ j < length h) as [Hi Hj] by (split; by eapply lookup_lt_Some).
  apply Permutation_inj. split; [by rewrite !length_insert|].
  exists (fun k => if decide (k = i) then j else if decide (k = j) then i else k).
  split; [intros x y; repeat case_decide; lia|]. intros k.
  pose proof (Swap_lookup h i j k Hi Hj) as E. unfold Swap in E. rewrite Ha, Hb in E. rewrite E.
  repeat case_decide; by rewrite ?Ha, ?Hb.
Qed.

Lemma up_perm fuel h j : up fuel h j ≡ₚ h.
Proof.
  revert h j. induction fuel as [|fuel IH]; intros h j; [done|]. cbn [up]. cbv zeta.
  case_match; [done|]. by rewrite IH, Swap_perm.
Qed.

Lemma down_perm fuel h i n : down fuel h i n ≡ₚ h.
Proof.
  revert h i. induction fuel as [|fuel IH]; intros h i; [done|]. cbn [down]. cbv zeta.
  do 2 (case_match; [done|]). by rewrite IH, Swap_perm.
Qed.

(** [up] repairs a heap in which only the item at [j] may be smaller than its
    parent. *)
Lemma up_ok fuel h j :
  j < fuel -> j < length h ->
  (forall k, 0 < k < length h -> k <> j -> (key h (par k) <= key h k)%Z) ->
  (forall k, 0 < k < length h -> par k = j -> 0 < j -> (key h (par j) <= key h k)%Z) ->
  heap_ok (up fuel h j) (length h).
Proof.
  revert h j. induction fuel as [|fuel IH]; intros h j Hf Hj H1 H2; [lia|].
  cbn [up]. fold (par j). destruct (Nat.eqb_spec (par j) j) as [E|E]; cbn [orb].
  { intros k Hk. apply H1; [done|]. unfold par in E. lia. }
  assert (par j < j) as Hp by (unfold par in *; lia).
  rewrite Less_spec by lia. destruct (Z.ltb_spec (key h j) (key h (par j))) as [L|L]; cbn [negb].
  2: { intros k Hk. destruct (decide (k = j)) as [->|]; [done|by apply H1]. }
  rewrite <-(Swap_length h (par j) j).
  apply IH; rewrite ?Swap_length; [lia|lia| |].
  - intros k Hk Hne. rewrite !Swap_key by lia.
    rewrite (decide_False (P := k = par j)) by done.
    destruct (decide (k = j)) as [->|Hkj].
    { rewrite decide_True by done. lia. }
    pose proof (H1 k Hk Hkj). destruct (decide (par k = par j)) as [Ek|]; [rewrite Ek in *; lia|].
    destruct (decide (par k = j)) as [Ek|]; [|done]. apply H2; [done|done|lia].
  - intros k Hk Hpk Hpos. rewrite !Swap_key by lia.
    pose proof (H1 (par j) ltac:(lia) ltac:(lia)).
    repeat case_decide; subst; try (unfold par in *; lia).
    pose proof (H1 k Hk ltac:(done)). rewrite Hpk in *. lia.
Qed.

(** [down] repairs a heap in which only the item at [i] may be larger than its
    children. *)
Lemma down_ok fuel h i n :
  n - i < fuel -> n <= length h -> i < n ->
  (forall k, 0 < k < n -> par k <> i -> (key h (par k) <= key h k)%Z) ->
  (forall k, 0 < k < n -> par k = i -> 0 < i -> (key h (par i) <= key h k)%Z) ->
  heap_ok (down fuel h i n) n.
Proof.
  revert h i. induction fuel as [|fuel IH]; intros h i Hf Hn Hi H1 H2; [lia|].
  cbn [down]. cbv zeta.
  assert (forall k, 0 < k -> par k = i <-> k = 2 * i + 1 \/ k = 2 * i + 2) as Hpar
    by (unfold par; lia).
  destruct (Nat.leb_spec n (2 * i + 1)).
  { intros k Hk. apply H1; [done|]. rewrite Hpar by lia. lia. }
  replace (2 * i + 1 + 1) with (2 * i + 2) by lia.
  set (j := if (2 * i + 2 <? n) && _ then _ else _).
  assert (j < n /\ par j = i /\ 0 < j /\ forall k, 0 < k < n -> par k = i -> (key h j <= key h k)%Z)
    as (Hjn & Hpj & Hj0 & Hmin).
  { subst j. destruct (Nat.ltb_spec (2 * i + 2) n); cbn [andb];
      [rewrite Less_spec by lia;
       destruct (Z.ltb_spec (key h (2 * i + 2)) (key h (2 * i + 1)))|];
      (split_and!; [lia|apply Hpar; lia|lia|]);
      intros k Hk Hpk; apply Hpar in Hpk as [->| ->]; lia. }
  clearbody j. rewrite Less_spec by lia.
  destruct (Z.ltb_spec (key h j) (key h i)); cbn [negb].
  2: { intros k Hk. destruct (decide (par k = i)) as [E|]; [|by apply H1].
       rewrite E. pose proof (Hmin k Hk E). lia. }
  assert (i < j) as Hij by (unfold par in Hpj; lia).
  apply IH; rewrite ?Swap_length; [lia|lia|lia| |].
  - intros k Hk Hne. rewrite !Swap_key by lia. rewrite (decide_False (P := par k = j)) by done.
    destruct (decide (par k = i)) as [Hpk|Hpk].
    + rewrite (decide_False (P := k = i)) by (unfold par in Hpk; lia).
      case_decide; [lia|by apply Hmin].
    + destruct (decide (k = i)) as [->|]; [by apply H2; [lia| |lia]|].
      rewrite decide_False by congruence. by apply H1.
  - intros k Hk Hpk Hpos. rewrite !Swap_key by lia. rewrite Hpj, decide_True by done.
    assert (j < k) by (unfold par in Hpk; lia). rewrite !decide_False by lia.
    rewrite <-Hpk. apply H1; [done|]. lia.
Qed.

(** ** The implementation meets the interface *)

Lemma heap_root h n k : heap_ok h n -> k < n -> (key h 0 <= key h k)%Z.
Proof.
  intros Hok. induction (lt_wf k) as [k _ IH]. intros Hk.
  destruct (decide (k = 0)) as [->|]; [done|].
  pose proof (Hok k ltac:(lia)). pose proof (IH (par k)). unfold par in *. lia.
Qed.

Lemma Push_ok x h : heap_ok h (length h) -> heap_ok (Push x h) (length (Push x h)).
Proof.
  intros Hok. unfold Push.
  assert (length (up (S (length h)) (h ++ [x]) (length h)) = length (h ++ [x])) as ->
    by apply Permutation_length, up_perm.
  assert (forall k, k < length h -> key (h ++ [x]) k = key h k) as Hk
    by (intros; unfold key; by rewrite lookup_app_l).
  apply up_ok; rewrite ?length_app; change (length [x]) with 1; [lia|lia| |].
  - intros k H1 H2. rewrite !Hk by (unfold par; lia). apply Hok. lia.
  - intros k H1 H2 H3. unfold par in H2. lia.
Qed.

Lemma down_lookup_ge fuel h i n k :
  n <= length h -> i < n -> n <= k -> down fuel h i n !! k = h !! k.
Proof.
  revert h i. induction fuel as [|fuel IH]; intros h i Hn Hi Hk; [done|]. cbn [down]. cbv zeta.
  destruct (Nat.leb_spec n (2 * i + 1)); [done|].
  set (j := if (2 * i + 1 + 1 <? n) && _ then _ else _).
  assert (j < n) by (subst j; destruct (Nat.ltb_spec (2 * i + 1 + 1) n); cbn [andb];
                     repeat case_match; lia).
  case_match; [done|]. rewrite IH by (rewrite ?Swap_length; lia).
  rewrite Swap_lookup by lia. by rewrite !decide_False by lia.
Qed.

(** After the exchange of the first and the last item, [down] makes a heap of
    all but the last. *)
Lemma down_swap_ok fuel h n :
  heap_ok h (length h) -> length h = S n -> n < fuel ->
  heap_ok (down fuel (Swap h 0 n) 0 n) n.
Proof.
  intros Hok Hlen Hf. destruct (decide (n = 0)) as [->|]; [intros k ?; lia|].
  apply down_ok; rewrite ?Swap_length; [lia|lia|lia| |lia].
  intros k Hk Hp. rewrite !Swap_key by lia. rewrite !decide_False by (unfold par in *; lia).
  apply Hok. lia.
Qed.

Lemma Pop_ok h x h' :
  heap_ok h (length h) -> Pop h = Some (x, h') ->
  heap_ok h' (length h') /\ h ≡ₚ x :: h' /\
  Forall (fun y => pq_distance x <= pq_distance y)%Z h'.
Proof.
  intros Hok. unfold Pop. destruct h as [|z h0]; [done|].
  set (h := z :: h0) in *. set (n := length h - 1). set (d := down _ _ 0 n).
  assert (length h = S n) as Hlen by (subst n; cbn; lia).
  assert (d ≡ₚ h) as Hd by (etrans; [apply down_perm|apply Swap_perm]).
  destruct (last d) as [y|] eqn:Ey; [|done]. intros [= -> <-].
  apply last_Some in Ey as [l El].
  assert (length l = n) as Hl.
  { apply Permutation_length in Hd. rewrite El, length_app in Hd. cbn [length] in Hd. lia. }
  assert (take n d = l) as -> by (rewrite El, <-Hl; apply take_app_length).
  assert (h ≡ₚ x :: l) as Hp by (rewrite <-Hd, El; apply Permutation_app_comm).
  assert (h !! 0 = Some x) as Hx.
  { destruct (decide (n = 0)) as [En|].
    - assert (l = []) as -> by (apply nil_length_inv; lia).
      apply Permutation_sym, Permutation_singleton_inj in Hp || rewrite Permutation_singleton_r in Hp.
      by rewrite Hp.
    - assert (d !! n = Some x) as E by (rewrite El, <-Hl; by apply list_lookup_middle).
      revert E. unfold d. rewrite down_lookup_ge by (rewrite ?Swap_length; lia).
      rewrite Swap_lookup by lia. by rewrite decide_False, decide_True by lia. }
  split_and!; [|done|].
  - rewrite Hl. intros k Hk.
    assert (forall i, i < n -> key d i = key l i) as Ek.
    { intros i Hi. unfold key. rewrite El, lookup_app_l by lia. done. }
    rewrite <-!Ek by (unfold par; lia). by apply (down_swap_ok (S (length h))); [| |lia|].
  - apply Forall_forall. intros y Hy.
    assert (y ∈ h) as [k Hk]%list_elem_of_lookup by (rewrite Hp; by right).
    pose proof (heap_root h (length h) k Hok ltac:(by eapply lookup_lt_Some)) as Hr.
    unfold key in Hr. by rewrite Hx, Hk in Hr.
Qed.

Lemma Pop_none h : Pop h = None -> h = [].
Proof.
  unfold Pop. destruct h as [|z h]; [done|]. set (d := down _ _ _ _). intros E.
  assert (d ≡ₚ z :: h) as Hd by (etrans; [apply down_perm|apply Swap_perm]).
  destruct (last d) eqn:El; [done|]. apply last_None in El. rewrite El in Hd.
  by apply Permutation_nil_cons in Hd.
Qed.

#[export] Program Instance binaryHeap : PriorityQueue (list pqItem) := {|
  pq_wf h := heap_ok h (length h);
  pq_items h := h;
  pq_empty := [];
  pq_push := Push;
  pq_pop := Pop;
  pq_push_wf := Push_ok;
  pq_pop_none h _ := Pop_none h;
  pq_pop_some := Pop_ok
|}.
Next Obligation. intros k Hk. cbn in Hk. lia. Qed.
Next Obligation. done. Qed.
Next Obligation.
  intros x q _. unfold Push. rewrite up_perm. symmetry. apply Permutation_cons_append.
Qed.

End Heap.
