(* ===== verification/Southbound.v ===== *)
(** * Southbound: the southbound computation ([ComputeSouthbound] of
    [internal/spf/southbound.go]).

    [dist] is a map of values: when a node is expanded its next hops are read
    once here, while the code reads them through the node at every neighbour;
    a round of that loop changes the node itself only if the node is its own
    neighbour at distance zero, which merges its next hops into themselves. *)

From S2P Require Import Prelude.
From S2P Require Import Types.
From S2P Require Import Lsdb.
From S2P Require Import FloodState.
From S2P Require Import Netip.
From S2P Require Import Spf.
From S2P Require Import PrioQueue.

Record spfNode := mkSpfNode {
  sn_distance : Z;
  sn_nextHops : list NextHop
}.
#[export] Instance eta_spfNode : Eta spfNode :=
  fun r => mkSpfNode (sn_distance r) (sn_nextHops r).

Abbreviation distances := (gmap Z spfNode).

(** The additions on [MetricType], an int32. *)
Definition addMetric (a b : Z) : Z := wrap 32 (a + b).

(** Whether [southNode.Flags] says overloaded. *)
Definition overloaded (n : NodeTIEElement) : bool :=
  match Node_Flags n with
  | Some f => match NF_Overload f with Some b => b | None => false end
  | None => false
  end.

Section southbound.
Context {R : MapRange} {Q : Type} {PQ : PriorityQueue Q}.
Variable systemID : Z.
Variable entries : LSDB.

(** Adjacencies by neighbour; of parallel links, the last in [range] order. *)
Definition adjByNeighbor (adjacencies : gmap string AdjacencyInfo) : gmap Z AdjacencyInfo :=
  foldl (fun m '((_, adj) : string * AdjacencyInfo) => <[AI_NeighborID adj := adj]> m) ∅
    (range_map adjacencies).

(** The neighbour's North Node TIE lists [current]. *)
Definition backlink (current neighborID : Z) : bool :=
  match FindNodeTIE entries TieDirectionNorth neighborID with
  | Some n => bool_decide (is_Some (Node_Neighbors n !! current))
  | None => false
  end.

(** The next hops of [neighborID] through [current]: of an own link, the
    adjacency; of another, those of [current]. *)
Definition hopsVia (adjs : gmap Z AdjacencyInfo) (current : Z) (node : spfNode)
    (neighborID : Z) : option (list NextHop) :=
  if current =? systemID then
    adj ← adjs !! neighborID;
    Some [mkNextHop neighborID (AI_NeighborAddr adj) (AI_InterfaceName adj)]
  else Some (sn_nextHops node).

(** [neighborID] is reachable at [newDist] through [nextHops]. *)
Definition improve (neighborID newDist : Z) (nextHops : list NextHop) (st : distances * Q)
    : distances * Q :=
  let '(dist, pq) := st in
  let found :=
    (<[neighborID := mkSpfNode newDist nextHops]> dist,
     pq_push (mkPqItem neighborID newDist) pq) in
  match dist !! neighborID with
  | None => found
  | Some existing =>
      if newDist <? sn_distance existing then found
      else if newDist =? sn_distance existing then
        (<[neighborID := existing <| sn_nextHops :=
             MergeNextHops (sn_nextHops existing) nextHops |>]> dist, pq)
      else st
  end.

(** One round of the loop over the neighbours of [current]. *)
Definition relax (adjs : gmap Z AdjacencyInfo) (current currentDist : Z) (node : spfNode)
    (southNode : NodeTIEElement) (st : distances * Q) (nb : Z * NodeNeighborsTIEElement)
    : distances * Q :=
  let '(neighborID, neighborEntry) := nb in
  if NN_Level neighborEntry >=? Node_Level southNode then st
  else if negb (backlink current neighborID) then st
  else
    let newDist := addMetric currentDist (LinkCost neighborEntry) in
    match hopsVia adjs current node neighborID with
    | None => st
    | Some nextHops => improve neighborID newDist nextHops st
    end.

(** What follows the pop of an item. *)
Definition visit (adjs : gmap Z AdjacencyInfo) (item : pqItem) (st : distances * Q)
    : distances * Q :=
  let '(dist, pq) := st in
  let current := pq_systemID item in
  match dist !! current with
  | None => st
  | Some node =>
      if pq_distance item >? sn_distance node then st
      else match FindNodeTIE entries TieDirectionSouth current with
      | None => st
      | Some southNode =>
          if overloaded southNode then st
          else foldl (relax adjs current (pq_distance item) node southNode) st
                 (range_map (Node_Neighbors southNode))
      end
  end.

(** The loop; [None] if it takes more than [fuel] rounds. *)
Fixpoint spfLoop (fuel : nat) (adjs : gmap Z AdjacencyInfo) (st : distances * Q)
    : option distances :=
  match pq_pop st.2 with
  | None => Some st.1
  | Some (item, pq) =>
      match fuel with
      | O => None
      | S fuel => spfLoop fuel adjs (visit adjs item (st.1, pq))
      end
  end.

(** The nodes that originated an entry, and the links of a node. *)
Definition originators : gset Z := set_map Originator (dom entries).
Definition degree (u : Z) : nat :=
  match FindNodeTIE entries TieDirectionSouth u with
  | Some n => size (Node_Neighbors n)
  | None => 0
  end.

(** One round per queued item: the first, and one per link of an expanded
    node. *)
Definition spfFuel : nat := S (sum_list_with degree (elements originators)).

Definition shortestPaths (adjacencies : gmap string AdjacencyInfo) : option distances :=
  spfLoop spfFuel (adjByNeighbor adjacencies)
    ({[systemID := mkSpfNode 0 []]}, pq_push (mkPqItem systemID 0) pq_empty).

(** The prefixes of a list of prefix TIEs as offers at [cost]; a prefix that is
    not IPv4 prints as the empty string and is skipped. *)
Definition prefixOffers (cost routeType : Z) (nextHops : list NextHop)
    (ties : list PrefixTIEElement) : list Offer :=
  pt ← ties; pe ← PT_Prefixes pt;
  if bool_decide (PrefixToString (PE_Prefix pe) = ""%string) then []
  else [mkOffer (PrefixToString (PE_Prefix pe))
          (addMetric (PA_Metric (PE_Attributes pe)) cost) routeType nextHops].

Definition nodeOffers (nodeID : Z) (node : spfNode) : list Offer :=
  if nodeID =? systemID then []
  else match sn_nextHops node with
  | [] => []
  | _ => prefixOffers (sn_distance node) RouteTypeNorthPrefix (sn_nextHops node)
           (FindPrefixTIEs entries TieDirectionNorth nodeID)
  end.

(** The calls of [addRoute], in order. *)
Definition southOffers (dist : distances) : list Offer :=
  '(nodeID, node) ← range_map dist; nodeOffers nodeID node.

(** [None]: the search does not end within [spfFuel] rounds. *)
Definition ComputeSouthbound (adjacencies : gmap string AdjacencyInfo) : option RIB :=
  dist ← shortestPaths adjacencies; Some (ribOf (southOffers dist)).

End southbound.
