(* ===== verification/Northbound.v ===== *)
(** * Northbound: the northbound computation ([ComputeNorthbound] of
    [internal/spf/northbound.go]): a default route over the cheapest validated
    neighbours above, and the prefixes those neighbours advertise southbound. *)

From S2P Require Import Prelude.
From S2P Require Import Types.
From S2P Require Import Lsdb.
From S2P Require Import FloodState.
From S2P Require Import Netip.
From S2P Require Import Spf.
From S2P Require Import Southbound.

Record validatedNeighbor := mkValidatedNeighbor {
  vn_nextHop : NextHop;
  vn_linkCost : Z
}.

Definition defaultPrefix : string := "0.0.0.0/0".

Section northbound.
Context {R : MapRange}.
Variable systemID level : Z.
Variable entries : LSDB.

(** The cost of the own link, from the own North Node TIE. *)
Definition ownLinkCost (neighborID : Z) : Z :=
  match FindNodeTIE entries TieDirectionNorth systemID with
  | Some own =>
      match Node_Neighbors own !! neighborID with
      | Some neighborEntry => LinkCost neighborEntry
      | None => DefaultDistance
      end
  | None => DefaultDistance
  end.

(** One round of the loop over the adjacencies. *)
Definition validate (adj : AdjacencyInfo) : option validatedNeighbor :=
  if AI_NeighborLevel adj <=? level then None
  else match FindNodeTIE entries TieDirectionSouth (AI_NeighborID adj) with
  | None => None
  | Some neighborSouthNode =>
      if bool_decide (is_Some (Node_Neighbors neighborSouthNode !! systemID)) then
        Some (mkValidatedNeighbor
          (mkNextHop (AI_NeighborID adj) (AI_NeighborAddr adj) (AI_InterfaceName adj))
          (ownLinkCost (AI_NeighborID adj)))
      else None
  end.

Definition validatedNeighbors (adjacencies : gmap string AdjacencyInfo)
    : list validatedNeighbor :=
  omap (fun '(_, adj) => validate adj) (range_map adjacencies).

Definition minLinkCost (v0 : validatedNeighbor) (vs : list validatedNeighbor) : Z :=
  foldl (fun minCost v => if vn_linkCost v <? minCost then vn_linkCost v else minCost)
    (vn_linkCost v0) vs.

(** The prefixes attached to one neighbour, with [v.nextHop] as next hop. *)
Definition neighborOffers (v : validatedNeighbor) : list Offer :=
  let id := NH_NeighborID (vn_nextHop v) in
  prefixOffers (vn_linkCost v) RouteTypeSouthPrefix [vn_nextHop v]
    (FindPrefixTIEs entries TieDirectionSouth id) ++
  prefixOffers (vn_linkCost v) RouteTypeSouthPrefix [vn_nextHop v]
    (FindPositiveDisaggPrefixTIEs entries TieDirectionSouth id).

(** The calls of [addRoute], in order. *)
Definition northOffers (validated : list validatedNeighbor) : list Offer :=
  match validated with
  | [] => []
  | v0 :: vs =>
      let minCost := minLinkCost v0 vs in
      mkOffer defaultPrefix minCost RouteTypeSouthPrefix
        (vn_nextHop <$> filter (fun v => vn_linkCost v = minCost) validated)
      :: (validated ≫= neighborOffers)
  end.

Definition ComputeNorthbound (adjacencies : gmap string AdjacencyInfo) : RIB :=
  ribOf (northOffers (validatedNeighbors adjacencies)).

End northbound.
