(* ===== verification/Disagg.v ===== *)
(** * Disagg: positive disaggregation ([ComputeDisaggregation] of
    [internal/spf/disagg.go]).

    A node of the same level that shares a southbound neighbour with this node,
    but lacks another of its southbound neighbours, makes that neighbour
    partial; the prefixes routed through a partial neighbour are advertised
    explicitly. *)

From S2P Require Import Prelude.
From S2P Require Import Types.
From S2P Require Import Lsdb.
From S2P Require Import FloodState.
From S2P Require Import Netip.
From S2P Require Import Spf.

Record DisaggPrefix := mkDisaggPrefix {
  DP_Prefix : IPPrefixType;
  DP_Distance : Z
}.

Section disagg.
Context {R : MapRange}.
Variable systemID level : Z.

(** The identifiers of the items that pass a test. *)
Definition collectIDs {A} (keep : A -> bool) (id : A -> Z) (l : list A) : gset Z :=
  foldl (fun s a => if keep a then {[id a]} ∪ s else s) ∅ l.

(** Step 1. *)
Definition southNeighborsOf (adjacencies : gmap string AdjacencyInfo) : gset Z :=
  collectIDs (fun kv => AI_NeighborLevel kv.2 <? level) (fun kv => AI_NeighborID kv.2)
    (range_map adjacencies).

(** Step 2: the southbound neighbours a peer lists. *)
Definition peerSouthNeighbors (node : NodeTIEElement) : gset Z :=
  collectIDs (fun kv => NN_Level kv.2 <? level) fst (range_map (Node_Neighbors node)).

(** The South Node TIE of another node of this level. *)
Definition peerTIE (id : TIEID) (entry : LSDBEntry) : option NodeTIEElement :=
  if negb (Direction id =? TieDirectionSouth) || negb (TIEType id =? TIETypeNodeTIEType)
     || (Originator id =? systemID) then None
  else match EL_Node (TIE_Element (Entry_Packet entry)) with
  | None => None
  | Some node => if Node_Level node =? level then Some node else None
  end.

Definition peersOf (entries : LSDB) : gmap Z (gset Z) :=
  foldl (fun peers '((id, entry) : TIEID * LSDBEntry) =>
    match peerTIE id entry with
    | None => peers
    | Some node => <[Originator id := peerSouthNeighbors node]> peers
    end) ∅ (range_map entries).

(** Step 3: one peer's share of [partialNeighbors]. *)
Definition addPartial (southNeighbors : gset Z) (partials : gmap Z (gset Z))
    (peer : Z * gset Z) : gmap Z (gset Z) :=
  let '(peerID, peerNeighbors) := peer in
  let hasShared := existsb (fun n => bool_decide (n ∈ southNeighbors)) (range_set peerNeighbors) in
  if negb hasShared then partials
  else foldl (fun m n =>
    if bool_decide (n ∈ peerNeighbors) then m
    else <[n := {[peerID]} ∪ default ∅ (m !! n)]> m) partials (range_set southNeighbors).

Definition partialNeighborsOf (southNeighbors : gset Z) (peers : gmap Z (gset Z))
    : gmap Z (gset Z) :=
  foldl (addPartial southNeighbors) ∅ (range_map peers).

(** Step 4. *)
Definition needsDisagg (partials : gmap Z (gset Z)) (route : Route) : bool :=
  existsb (fun nh => bool_decide (is_Some (partials !! NH_NeighborID nh))) (Route_NextHops route).

Definition disaggRoute (partials : gmap Z (gset Z)) (route : Route) : option DisaggPrefix :=
  if negb (needsDisagg partials route) then None
  else
    let ipPrefix := StringToPrefix (Route_Prefix route) in
    match IPPrefix_IPv4Prefix ipPrefix with
    | None => None
    | Some _ => Some (mkDisaggPrefix ipPrefix (Route_Metric route))
    end.

Definition ComputeDisaggregation (adjacencies : gmap string AdjacencyInfo) (entries : LSDB)
    (southRIB : RIB) : list DisaggPrefix :=
  let southNeighbors := southNeighborsOf adjacencies in
  if bool_decide (southNeighbors = ∅) then [] else
  let peers := peersOf entries in
  if bool_decide (peers = ∅) then [] else
  let partials := partialNeighborsOf southNeighbors peers in
  if bool_decide (partials = ∅) then [] else
  omap (fun '(_, route) => disaggRoute partials route) (range_map southRIB).

End disagg.

(** ** Membership *)

Lemma elem_of_collectIDs {A} (keep : A -> bool) id (l : list A) n :
  n ∈ collectIDs keep id l <-> exists a, a ∈ l /\ keep a = true /\ id a = n.
Proof.
  unfold collectIDs.
  cut (forall s : gset Z, n ∈ foldl (fun s a => if keep a then {[id a]} ∪ s else s) s l <->
    n ∈ s \/ exists a, a ∈ l /\ keep a = true /\ id a = n); [intros ->; set_solver|].
  induction l as [|a l IH]; intros s; cbn [foldl].
  - split; [by left|]. intros [?|(a & ?%not_elem_of_nil & _)]; done.
  - rewrite IH. setoid_rewrite elem_of_cons. destruct (keep a) eqn:E.
    + rewrite elem_of_union, elem_of_singleton. naive_solver.
    + naive_solver congruence.
Qed.

Section membership.
Context {R : MapRange}.
Variable systemID level : Z.

Lemma elem_of_southNeighborsOf adjacencies n :
  n ∈ southNeighborsOf level adjacencies <->
  exists k adj, adjacencies !! k = Some adj /\ AI_NeighborLevel adj < level /\ AI_NeighborID adj = n.
Proof.
  unfold southNeighborsOf. rewrite elem_of_collectIDs. split.
  - intros ([k adj] & Hk%elem_of_range_map & Hl%Z.ltb_lt & Hid). by exists k, adj.
  - intros (k & adj & Hk%elem_of_range_map & Hl%Z.ltb_lt & Hid). by exists (k, adj).
Qed.

Lemma elem_of_peerSouthNeighbors node n :
  n ∈ peerSouthNeighbors level node <->
  exists e, Node_Neighbors node !! n = Some e /\ NN_Level e < level.
Proof.
  unfold peerSouthNeighbors. rewrite elem_of_collectIDs. split.
  - intros ([k e] & Hk%elem_of_range_map & Hl%Z.ltb_lt & <-). by exists e.
  - intros (e & Hk%elem_of_range_map & Hl%Z.ltb_lt). by exists (n, e).
Qed.

(** Node TIEs are numbered 1, as the program originates them. *)
Definition single_node_TIEs (entries : LSDB) : Prop :=
  map_Forall (fun id _ => TIEType id = TIETypeNodeTIEType -> TIENr id = 1) entries.

Lemma peerTIE_Some id entry node :
  peerTIE systemID level id entry = Some node ->
  Direction id = TieDirectionSouth /\ TIEType id = TIETypeNodeTIEType.
Proof.
  unfold peerTIE. destruct (Z.eqb_spec (Direction id) TieDirectionSouth); [|done].
  destruct (Z.eqb_spec (TIEType id) TIETypeNodeTIEType); [done|]. done.
Qed.

(** A peer's originator and neighbours. *)
Definition peerEntry (kv : TIEID * LSDBEntry) : option (Z * gset Z) :=
  (fun node => (Originator kv.1, peerSouthNeighbors level node)) <$> peerTIE systemID level kv.1 kv.2.

Lemma NoDup_peers entries :
  single_node_TIEs entries -> NoDup (omap peerEntry (range_map entries)).*1.
Proof.
  intros Hone. apply NoDup_omap_fst; [eapply NoDup_fmap_1, NoDup_range_map|].
  intros [id e] [id' e'] k S S' Hin%elem_of_range_map Hin'%elem_of_range_map. unfold peerEntry. cbn.
  destruct (peerTIE systemID level id e) as [n|] eqn:Ep; [|done].
  destruct (peerTIE systemID level id' e') as [n'|] eqn:Ep'; [|done]. cbn.
  intros [= Hk _] [= Hk' _]. apply peerTIE_Some in Ep as [Ed Et], Ep' as [Ed' Et'].
  pose proof (Hone _ _ Hin Et) as Hn. pose proof (Hone _ _ Hin' Et') as Hn'.
  destruct id, id'. cbn in *. subst. congruence.
Qed.

Lemma peersOf_lookup entries o S :
  single_node_TIEs entries ->
  peersOf systemID level entries !! o = Some S <->
  exists id entry node, entries !! id = Some entry /\ Originator id = o /\
    peerTIE systemID level id entry = Some node /\ S = peerSouthNeighbors level node.
Proof.
  intros Hone. unfold peersOf.
  assert (forall l (m : gmap Z (gset Z)), foldl (fun peers '((id, entry) : TIEID * LSDBEntry) =>
      match peerTIE systemID level id entry with
      | Some node => <[Originator id := peerSouthNeighbors level node]> peers
      | None => peers
      end) m l = foldl (fun m '(k, v) => <[k := v]> m) m (omap peerEntry l)) as E.
  { induction l as [|[id entry] l IH]; intros m; [done|]. cbn [foldl omap list_omap].
    unfold peerEntry at 1. cbn [fst snd].
    destruct (peerTIE systemID level id entry); apply IH. }
  rewrite E, foldl_insert_union, map_union_empty.
  - rewrite <-elem_of_list_to_map.
    + rewrite list_elem_of_omap. split.
      * intros ([id entry] & Hin%elem_of_range_map & Hf). unfold peerEntry in Hf. cbn in Hf.
        destruct (peerTIE systemID level id entry) as [node|] eqn:Ep; [|done].
        injection Hf as <- <-. by exists id, entry, node.
      * intros (id & entry & node & Hin & <- & Hp & ->). exists (id, entry).
        rewrite elem_of_range_map. split; [done|]. unfold peerEntry. cbn. by rewrite Hp.
    + by apply NoDup_peers.
  - by apply NoDup_peers.
Qed.

(** The neighbours that a peer with a shared neighbour lacks. *)
Definition partial_for (south : gset Z) (peers : gmap Z (gset Z)) (n : Z) : Prop :=
  n ∈ south /\ exists o S, peers !! o = Some S /\ (exists x, x ∈ S /\ x ∈ south) /\ n ∉ S.

Lemma addPartial_spec south partials o S n :
  is_Some (addPartial south partials (o, S) !! n) <->
  is_Some (partials !! n) \/ (n ∈ south /\ (exists x, x ∈ S /\ x ∈ south) /\ n ∉ S).
Proof.
  unfold addPartial. destruct (existsb _ _) eqn:Ex; cbn [negb].
  - apply existsb_exists in Ex as (x & Hx%list_elem_of_In%elem_of_range_set & Hs%bool_decide_eq_true_1).
    assert (forall l (m : gmap Z (gset Z)), is_Some (foldl (fun m n => if bool_decide (n ∈ S) then m
        else <[n := {[o]} ∪ default ∅ (m !! n)]> m) m l !! n) <->
      is_Some (m !! n) \/ (n ∈ l /\ n ∉ S)) as H.
    { induction l as [|y l IH]; intros m; cbn [foldl].
      - split; [by left|]. intros [?|[?%not_elem_of_nil _]]; done.
      - rewrite IH, elem_of_cons. case_bool_decide as Hy; [naive_solver|].
        destruct (decide (n = y)) as [->|Hne].
        + rewrite lookup_insert_eq. naive_solver.
        + rewrite lookup_insert_ne by done. naive_solver. }
    rewrite H, elem_of_range_set. naive_solver.
  - split; [by left|]. intros [?|(_ & (x & Hx & Hs) & _)]; [done|].
    assert (existsb (fun n => bool_decide (n ∈ south)) (range_set S) = true); [|congruence].
    apply existsb_exists. exists x. rewrite <-list_elem_of_In, elem_of_range_set.
    by rewrite bool_decide_eq_true_2.
Qed.

Lemma partialNeighborsOf_spec south peers n :
  is_Some (partialNeighborsOf south peers !! n) <-> partial_for south peers n.
Proof.
  unfold partialNeighborsOf, partial_for.
  assert (forall l m, is_Some (foldl (addPartial south) m l !! n) <->
    is_Some (m !! n) \/ exists o S, (o, S) ∈ l /\ n ∈ south /\ (exists x, x ∈ S /\ x ∈ south) /\ n ∉ S)
    as H.
  { induction l as [|[o S] l IH]; intros m; cbn [foldl].
    - split; [by left|]. intros [?|(? & ? & ?%not_elem_of_nil & _)]; done.
    - rewrite IH, addPartial_spec. setoid_rewrite elem_of_cons. naive_solver. }
  rewrite H, lookup_empty. setoid_rewrite elem_of_range_map. split.
  - intros [[? ?]|?]; naive_solver.
  - naive_solver.
Qed.

Lemma disaggRoute_Some partials r dp :
  disaggRoute partials r = Some dp <->
  (exists nh, nh ∈ Route_NextHops r /\ is_Some (partials !! NH_NeighborID nh)) /\
  is_Some (IPPrefix_IPv4Prefix (StringToPrefix (Route_Prefix r))) /\
  dp = mkDisaggPrefix (StringToPrefix (Route_Prefix r)) (Route_Metric r).
Proof.
  assert (needsDisagg partials r = true <->
    exists nh, nh ∈ Route_NextHops r /\ is_Some (partials !! NH_NeighborID nh)) as Hn.
  { unfold needsDisagg. rewrite existsb_exists. setoid_rewrite <-list_elem_of_In.
    by setoid_rewrite bool_decide_eq_true. }
  unfold disaggRoute. rewrite <-Hn. destruct (needsDisagg partials r); cbn [negb].
  - destruct (IPPrefix_IPv4Prefix _); split; [by intros [= <-]|by intros (_ & _ & ->)|done|].
    by intros (_ & [? ?] & _).
  - split; [done|]. by intros [? _].
Qed.

(** The early returns only skip work that would find nothing. *)
Lemma elem_of_ComputeDisaggregation adjacencies entries southRIB dp :
  dp ∈ ComputeDisaggregation systemID level adjacencies entries southRIB <->
  exists p r, southRIB !! p = Some r /\
    disaggRoute (partialNeighborsOf (southNeighborsOf level adjacencies)
                   (peersOf systemID level entries)) r = Some dp.
Proof.
  set (partials := partialNeighborsOf _ _).
  assert (forall b : bool, (b = true -> partials = ∅) ->
    forall l, (dp ∈ l <-> exists p r, southRIB !! p = Some r /\ disaggRoute partials r = Some dp) ->
    (dp ∈ if b then [] else l) <->
      exists p r, southRIB !! p = Some r /\ disaggRoute partials r = Some dp) as Hskip.
  { intros [] Hb l Hl; [|done]. split; [by intros ?%not_elem_of_nil|].
    intros (p & r & _ & ((nh & _ & [x Hx]) & _)%disaggRoute_Some).
    by rewrite (Hb eq_refl), lookup_empty in Hx. }
  assert ((forall n, ~ partial_for (southNeighborsOf level adjacencies)
            (peersOf systemID level entries) n) -> partials = ∅) as Hno.
  { intros H. apply map_empty. intros n. apply eq_None_not_Some. unfold partials.
    rewrite partialNeighborsOf_spec. apply H. }
  unfold ComputeDisaggregation. apply Hskip; [|apply Hskip; [|apply Hskip]].
  - intros E%bool_decide_eq_true_1. apply Hno. intros n [Hn _]. rewrite E in Hn.
    by apply elem_of_empty in Hn.
  - intros E%bool_decide_eq_true_1. apply Hno. intros n (_ & o & S & Ho & _). by rewrite E in Ho.
  - by intros E%bool_decide_eq_true_1.
  - rewrite list_elem_of_omap. split.
    + intros ([p r] & Hin%elem_of_range_map & Hr). by exists p, r.
    + intros (p & r & Hin%elem_of_range_map & Hr). by exists (p, r).
Qed.

End membership.
