(* ===== verification/SpfEngine.v ===== *)
(** * SpfEngine: a run of the shortest-path engine ([internal/spf/spf.go]).

    A RIB holds pointers to routes, and [Run] copies the pointers of the
    southbound RIB into the merged one before it calls [addRoute], which
    assigns to a route in place.  Routes therefore live in a store here: a list
    that only grows, a pointer being a position. *)

From S2P Require Import Prelude.
From S2P Require Import Types.
From S2P Require Import Lsdb.
From S2P Require Import FloodState.
From S2P Require Import Spf.
From S2P Require Import PrioQueue.
From S2P Require Import Southbound.
From S2P Require Import Northbound.

Abbreviation store := (list Route).
Abbreviation ribRef := (gmap string nat).

Record Engine := mkEngine {
  e_systemID : Z;
  e_level : Z;
  e_store : store;
  e_rib : ribRef;
  e_southRIB : option ribRef   (* nil before the first run, and on a leaf *)
}.

Definition NewEngine (systemID level : Z) : Engine := mkEngine systemID level [] ∅ None.

(** [&Route{...}], stored under [prefix]. *)
Definition newRoute (st : store * ribRef) (prefix : string) (r : Route) : store * ribRef :=
  (st.1 ++ [r], <[prefix := length st.1]> st.2).

(** [addRoute] on pointers. *)
Definition addRouteRef (st : store * ribRef) (prefix : string) (metric routeType : Z)
    (nextHops : list NextHop) : store * ribRef :=
  let new := mkRoute prefix metric routeType nextHops in
  match st.2 !! prefix with
  | None => newRoute st prefix new
  | Some loc =>
      match st.1 !! loc with
      | None => st   (* no pointer dangles *)
      | Some existing =>
          if routeType <? Route_RouteType existing then newRoute st prefix new
          else if routeType >? Route_RouteType existing then st
          else if metric <? Route_Metric existing then newRoute st prefix new
          else if metric =? Route_Metric existing then
            (<[loc := existing <| Route_NextHops :=
                MergeNextHops (Route_NextHops existing) nextHops |>]> st.1, st.2)
          else st
      end
  end.

Section engine.
Context {R : MapRange} {Q : Type} {PQ : PriorityQueue Q}.

(** The routes of a computed RIB, each in a cell of its own. *)
Definition allocRIB (s : store) (rib : RIB) : store * ribRef :=
  foldl (fun st '((p, r) : string * Route) => newRoute st p r) (s, ∅) (range_map rib).

(** [Run] on a snapshot of the LSDB and of the adjacencies; [None] if the
    southbound search does not end within its bound. *)
Definition Run (entries : LSDB) (adjacencies : gmap string AdjacencyInfo) (e : Engine)
    : option Engine :=
  let north := ComputeNorthbound (e_systemID e) (e_level e) entries adjacencies in
  if e_level e =? LeafLevel then
    let '(s, rib) := allocRIB (e_store e) north in
    Some (mkEngine (e_systemID e) (e_level e) s rib None)
  else
    south ← ComputeSouthbound (e_systemID e) entries adjacencies;
    let '(s, sRIB) := allocRIB (e_store e) south in
    let '(s, rib) := foldl (fun st '((prefix, route) : string * Route) =>
        addRouteRef st prefix (Route_Metric route) (Route_RouteType route) (Route_NextHops route))
      (s, sRIB) (range_map north) in
    Some (mkEngine (e_systemID e) (e_level e) s rib (Some sRIB)).

End engine.

(** What a map of pointers shows. *)
Definition deref (s : store) (rib : ribRef) : RIB := omap (fun loc => s !! loc) rib.

(** The methods [RIB] and [SouthRIB]. *)
Definition RIBOf (e : Engine) : RIB := deref (e_store e) (e_rib e).
Definition SouthRIB (e : Engine) : option RIB := deref (e_store e) <$> e_southRIB e.
