(* ===== verification/Dijkstra.v ===== *)
(** * Dijkstra: the southbound search finds all shortest paths.

    [spath] defines the paths the search may use.  [inv] is the invariant of the
    loop: expanded nodes are final, every other known node is queued with its
    distance, and the links of expanded nodes are accounted for.  It is proved
    against the interface of the priority queue. *)

From S2P Require Import Prelude.
From S2P Require Import Types.
From S2P Require Import Lsdb.
From S2P Require Import FloodState.
From S2P Require Import Netip.
From S2P Require Import Spf.
From S2P Require Import PrioQueue.
From S2P Require Import Southbound.

Section dijkstra.
Context {R : MapRange} {Q : Type} {PQ : PriorityQueue Q}.
Variable self : Z.
Variable entries : LSDB.
Variable adjs : gmap Z AdjacencyInfo.

(** ** The graph *)

(** [u] lists [v] below it at cost [c], is not overloaded, and [v] lists [u]. *)
Definition link (u v c : Z) : Prop :=
  exists n e, FindNodeTIE entries TieDirectionSouth u = Some n /\ overloaded n = false /\
    Node_Neighbors n !! v = Some e /\ NN_Level e < Node_Level n /\
    backlink entries u v = true /\ LinkCost e = c.

(** A path to [v] of cost [d] that leaves this node through neighbour [h]. *)
Inductive spath : Z -> Z -> Z -> Prop :=
  | spath_first v c : link self v c -> is_Some (adjs !! v) -> spath v c v
  | spath_next u v d c h : spath u d h -> u <> self -> link u v c -> spath v (d + c) h.

Lemma link_fun u v c c' : link u v c -> link u v c' -> c = c'.
Proof. intros (n & e & H) (n' & e' & H'). naive_solver congruence. Qed.

(** The next hop to a neighbour is its adjacency. *)
Definition hop_ok (h : NextHop) : Prop :=
  exists adj, adjs !! NH_NeighborID h = Some adj /\
    h = mkNextHop (NH_NeighborID h) (AI_NeighborAddr adj) (AI_InterfaceName adj).

(** Costs are positive, and no path within the known nodes overflows. *)
Variable C : Z.
Hypothesis C_pos : 0 <= C.
Hypothesis link_cost : forall u v c, link u v c -> 1 <= c <= C.
Hypothesis no_overflow : C * Z.of_nat (size (originators entries)) < 2 ^ 31.

(** ** The invariant *)

Definition viaIDs (u : Z) (nu : spfNode) (v : Z) : list Z :=
  if u =? self then [v] else hopIDs (sn_nextHops nu).

Definition node_ok (v : Z) (node : spfNode) : Prop :=
  0 < sn_distance node /\ sn_nextHops node <> [] /\ NoDup (hopIDs (sn_nextHops node)) /\
  forall h, h ∈ sn_nextHops node ->
    hop_ok h /\ spath v (sn_distance node) (NH_NeighborID h).

(** The link from [u], at [nu], to [v] is accounted for. *)
Definition relaxed (dist : distances) (u : Z) (nu : spfNode) (v c : Z) : Prop :=
  exists nv, dist !! v = Some nv /\ sn_distance nv <= sn_distance nu + c /\
    (v <> self -> sn_distance nv = sn_distance nu + c ->
     forall h, h ∈ viaIDs u nu v -> h ∈ hopIDs (sn_nextHops nv)).

(** [E] are the expanded nodes, [seen] the pairs whose link was looked at, [B]
    the distance of the last item taken. *)
Record inv (E : gset Z) (seen : Z -> Z -> Prop) (B : Z) (dist : distances) (q : Q) : Prop := {
  inv_wf : pq_wf q;
  inv_self : dist !! self = Some (mkSpfNode 0 []);
  inv_node v node : dist !! v = Some node -> v <> self -> node_ok v node;
  inv_bound v node : dist !! v = Some node ->
    sn_distance node <= C * Z.of_nat (size (E ∩ originators entries));
  inv_items it : it ∈ pq_items q -> B <= pq_distance it /\
    exists node, dist !! pq_systemID it = Some node /\ sn_distance node <= pq_distance it /\
      (pq_distance it = sn_distance node -> pq_systemID it ∉ E);
  inv_nodup : NoDup (pq_items q);
  inv_pending v node : dist !! v = Some node -> v ∉ E ->
    mkPqItem v (sn_distance node) ∈ pq_items q;
  inv_expanded u : u ∈ E -> exists node, dist !! u = Some node /\ sn_distance node <= B;
  inv_relaxed u nu v c : u ∈ E -> seen u v -> dist !! u = Some nu -> link u v c ->
    (u = self -> is_Some (adjs !! v)) -> relaxed dist u nu v c
}.

Definition todo (E : gset Z) : nat :=
  sum_list_with (degree entries) (elements (originators entries ∖ E)).

Lemma FindNodeTIE_originator dir u n :
  FindNodeTIE entries dir u = Some n -> u ∈ originators entries.
Proof.
  unfold FindNodeTIE, originators. destruct (entries !! _) as [e|] eqn:Ee; [|done]. intros _.
  apply elem_of_map. exists (mkTIEID dir u TIETypeNodeTIEType 1). split; [done|].
  by apply elem_of_dom_2 in Ee.
Qed.

Lemma todo_expand E u :
  u ∉ E -> (degree entries u + todo (E ∪ {[u]}) <= todo E)%nat.
Proof.
  intros Hu. destruct (decide (u ∈ originators entries)) as [Hin|Hout].
  - unfold todo.
    assert (originators entries ∖ E = {[u]} ∪ (originators entries ∖ (E ∪ {[u]}))) as ->.
    { apply set_eq. intros x. destruct (decide (x = u)); set_solver. }
    rewrite elements_union_singleton by set_solver. done.
  - assert (degree entries u = 0%nat) as ->.
    { unfold degree. destruct (FindNodeTIE _ _ u) eqn:Ef; [|done].
      by apply FindNodeTIE_originator in Ef. }
    unfold todo. replace (originators entries ∖ (E ∪ {[u]})) with (originators entries ∖ E);
      [done|]. apply set_eq. set_solver.
Qed.

(** ** One link *)

(** Links of [cur] to [v] added to [seen]. *)
Definition also (seen : Z -> Z -> Prop) (cur v : Z) : Z -> Z -> Prop :=
  fun a b => seen a b \/ (a = cur /\ b = v).

Lemma inv_also E seen B dist q cur node v :
  inv E seen B dist q -> dist !! cur = Some node ->
  (forall c, link cur v c -> (cur = self -> is_Some (adjs !! v)) -> relaxed dist cur node v c) ->
  inv E (also seen cur v) B dist q.
Proof.
  intros [? ? ? ? ? ? ? ? Hr] Hcur Hv. constructor; try done.
  intros u nu v' c Hu [Hd|[-> ->]] Hnu; [by apply Hr|].
  rewrite Hcur in Hnu. injection Hnu as <-. apply Hv.
Qed.

(** A known node further than the last distance is not expanded, nor this node. *)
Lemma inv_far E seen B dist q v node :
  inv E seen B dist q -> 0 <= B -> dist !! v = Some node -> B < sn_distance node ->
  v ∉ E /\ v <> self.
Proof.
  intros I HB Hv Hd. split.
  - intros (n & Hn & ?)%(inv_expanded _ _ _ _ _ I). simplify_eq. lia.
  - intros ->. pose proof (inv_self _ _ _ _ _ I). simplify_eq/=. lia.
Qed.

Lemma inv_unknown E seen B dist q v :
  inv E seen B dist q -> dist !! v = None -> v ∉ E /\ v <> self.
Proof.
  intros I Hv. split.
  - intros (n & Hn & ?)%(inv_expanded _ _ _ _ _ I). simplify_eq.
  - intros ->. by rewrite (inv_self _ _ _ _ _ I) in Hv.
Qed.

(** A node is found, or found closer. *)
Lemma inv_improve E seen B dist q v node' :
  inv E seen B dist q -> v ∉ E -> v <> self ->
  (forall node, dist !! v = Some node -> sn_distance node' < sn_distance node) ->
  node_ok v node' -> B < sn_distance node' <= C * Z.of_nat (size (E ∩ originators entries)) ->
  inv E seen B (<[v := node']> dist) (pq_push (mkPqItem v (sn_distance node')) q).
Proof.
  intros I HvE Hvs Hless Hok Hd. destruct I.
  pose proof (pq_push_items (mkPqItem v (sn_distance node')) q inv_wf0) as Hp.
  constructor.
  - by apply pq_push_wf.
  - by rewrite lookup_insert_ne.
  - intros u node. rewrite lookup_insert. case_decide; naive_solver.
  - intros u node. rewrite lookup_insert. case_decide; [naive_solver lia|apply inv_bound0].
  - intros it. rewrite Hp. intros [->|Hin]%elem_of_cons; cbn.
    + split; [lia|]. exists node'. by rewrite lookup_insert_eq.
    + destruct (inv_items0 it Hin) as (? & node & Hn & Hle & Hne). split; [done|].
      rewrite lookup_insert. case_decide as Ev; [|eauto].
      exists node'. subst v. pose proof (Hless _ Hn). split_and!; [done|lia|lia].
  - rewrite Hp. apply NoDup_cons. split; [|done].
    intros (_ & node & Hn & Hle & _)%inv_items0. cbn in *. pose proof (Hless _ Hn). lia.
  - intros u node. rewrite lookup_insert. rewrite Hp. case_decide as Eu.
    + intros [= ->] _. subst u. by left.
    + intros Hn Hu. right. by apply inv_pending0.
  - intros u Hu. rewrite lookup_insert_ne by congruence. by apply inv_expanded0.
  - intros u nu w c Hu Hdn. rewrite lookup_insert_ne by congruence. intros Hnu Hl Ha.
    destruct (inv_relaxed0 u nu w c Hu Hdn Hnu Hl Ha) as (nv & Hnv & Hle & Hh).
    unfold relaxed. rewrite lookup_insert. case_decide as Ew; [|eauto].
    subst w. pose proof (Hless _ Hnv). exists node'. split_and!; [done|lia|]. intros. lia.
Qed.

(** A second way of the same cost is found. *)
Lemma inv_merge E seen B dist q v node nhs :
  inv E seen B dist q -> dist !! v = Some node -> v ∉ E -> v <> self ->
  (forall h, h ∈ nhs -> hop_ok h /\ spath v (sn_distance node) (NH_NeighborID h)) ->
  inv E seen B (<[v := node <| sn_nextHops := MergeNextHops (sn_nextHops node) nhs |>]> dist) q.
Proof.
  intros I Hv HvE Hvs Hnhs. destruct I.
  destruct (MergeNextHops_spec (sn_nextHops node) nhs) as (c & E1 & Hc & Hm & Hnd).
  set (node' := node <| sn_nextHops := _ |>).
  assert (sn_distance node' = sn_distance node) as Ed by done.
  constructor; try done.
  - by rewrite lookup_insert_ne.
  - intros u n. rewrite lookup_insert. case_decide as Eu; [|apply inv_node0].
    intros [= <-] _. subst u. destruct (inv_node0 v node Hv Hvs) as (? & ? & ? & Hh).
    split_and!; cbn; [done| |by apply Hnd|].
    + rewrite E1. by destruct (sn_nextHops node).
    + intros h. rewrite E1. intros [Hin|Hin]%elem_of_app; auto.
  - intros u n. rewrite lookup_insert. case_decide; [|apply inv_bound0].
    intros [= <-]. exact (inv_bound0 v node Hv).
  - intros it Hin. destruct (inv_items0 it Hin) as (? & n & Hn & Hle & Hne). split; [done|].
    rewrite lookup_insert. case_decide as Ev; [|eauto]. subst v. simplify_eq. eauto.
  - intros u n. rewrite lookup_insert. case_decide; [|apply inv_pending0].
    intros [= <-]. subst u. exact (inv_pending0 v node Hv).
  - intros u Hu. rewrite lookup_insert_ne by congruence. by apply inv_expanded0.
  - intros u nu w c' Hu Hdn. rewrite lookup_insert_ne by congruence. intros Hnu Hl Ha.
    destruct (inv_relaxed0 u nu w c' Hu Hdn Hnu Hl Ha) as (nv & Hnv & Hle & Hh).
    unfold relaxed. rewrite lookup_insert. case_decide as Ew; [|eauto].
    subst w. simplify_eq. exists node'. split_and!; [done|done|].
    intros Hws Heq h Hin. apply Hm. left. by apply Hh.
Qed.

Lemma inv_dist_nonneg E seen B dist q v node :
  inv E seen B dist q -> dist !! v = Some node -> 0 <= sn_distance node.
Proof.
  intros I Hv. destruct (decide (v = self)) as [->|Hne].
  - rewrite (inv_self _ _ _ _ _ I) in Hv. by injection Hv as <-.
  - destruct (inv_node _ _ _ _ _ I v node Hv Hne). lia.
Qed.

(** The next hops through [cur] are right for [v]. *)
Lemma hopsVia_ok E seen B dist q cur node v c nhs :
  inv E seen B dist q -> dist !! cur = Some node -> link cur v c ->
  hopsVia self adjs cur node v = Some nhs ->
  node_ok v (mkSpfNode (sn_distance node + c) nhs) /\ viaIDs cur node v = hopIDs nhs.
Proof.
  intros I Hcur Hl. pose proof (link_cost _ _ _ Hl). pose proof (inv_dist_nonneg _ _ _ _ _ _ _ I Hcur).
  unfold hopsVia, viaIDs. destruct (Z.eqb_spec cur self) as [->|Hne].
  - destruct (adjs !! v) as [adj|] eqn:Ea; [|done]. intros [= <-]. split; [|done].
    rewrite (inv_self _ _ _ _ _ I) in Hcur. injection Hcur as <-.
    split_and!; cbn; [lia|done|apply NoDup_singleton|].
    intros h ->%list_elem_of_singleton. cbn. split; [by exists adj|]. by apply spath_first.
  - intros [= <-]. split; [|done].
    destruct (inv_node _ _ _ _ _ I cur node Hcur Hne) as (? & ? & ? & Hh).
    split_and!; cbn; [lia|done|done|]. intros h [Ho Hp]%Hh. split; [done|].
    by apply (spath_next cur).
Qed.

Lemma hopsVia_none cur node v :
  hopsVia self adjs cur node v = None -> cur = self /\ adjs !! v = None.
Proof.
  unfold hopsVia. destruct (Z.eqb_spec cur self); [|done]. by destruct (adjs !! v).
Qed.

(** [improve] keeps the invariant and accounts for the way it is told of. *)
Lemma improve_inv E seen B dist q v d nhs dist' q' :
  inv E seen B dist q -> 0 <= B -> node_ok v (mkSpfNode d nhs) ->
  B < d <= C * Z.of_nat (size (E ∩ originators entries)) ->
  improve v d nhs (dist, q) = (dist', q') ->
  inv E seen B dist' q' /\ (forall u, u ∈ E -> dist' !! u = dist !! u) /\
  (length (pq_items q') <= S (length (pq_items q)))%nat /\
  exists nv, dist' !! v = Some nv /\ sn_distance nv <= d /\
    (v <> self -> sn_distance nv = d -> forall h, h ∈ hopIDs nhs -> h ∈ hopIDs (sn_nextHops nv)).
Proof.
  intros I HB Hok Hd. unfold improve.
  assert (v ∉ E -> v <> self -> (forall nv, dist !! v = Some nv -> d < sn_distance nv) ->
    (<[v:=mkSpfNode d nhs]> dist, pq_push (mkPqItem v d) q) = (dist', q') ->
    inv E seen B dist' q' /\ (forall u, u ∈ E -> dist' !! u = dist !! u) /\
    (length (pq_items q') <= S (length (pq_items q)))%nat /\
    exists nv, dist' !! v = Some nv /\ sn_distance nv <= d /\
      (v <> self -> sn_distance nv = d -> forall h, h ∈ hopIDs nhs -> h ∈ hopIDs (sn_nextHops nv)))
    as Hfound.
  { intros HvE Hvs Hless [= <- <-]. split_and!.
    - by apply (inv_improve E seen B dist q v (mkSpfNode d nhs)).
    - intros u Hu. rewrite lookup_insert_ne; [done|congruence].
    - by rewrite (pq_push_items _ _ (inv_wf _ _ _ _ _ I)).
    - exists (mkSpfNode d nhs). by rewrite lookup_insert_eq. }
  destruct (dist !! v) as [nv|] eqn:Ev.
  2: { destruct (inv_unknown _ _ _ _ _ _ I Ev). by apply Hfound. }
  destruct (Z.ltb_spec d (sn_distance nv)) as [Hlt|Hge].
  { destruct (inv_far _ _ _ _ _ _ _ I HB Ev ltac:(lia)). apply Hfound; [done..|]. naive_solver. }
  destruct (Z.eqb_spec d (sn_distance nv)) as [->|Hne]; intros [= <- <-].
  - destruct (inv_far _ _ _ _ _ _ _ I HB Ev ltac:(lia)) as [HvE Hvs]. split_and!.
    + apply inv_merge; try done. apply Hok.
    + intros u Hu. rewrite lookup_insert_ne; [done|congruence].
    + lia.
    + eexists. rewrite lookup_insert_eq. split_and!; [done|done|]. intros _ _ h Hin.
      destruct (MergeNextHops_spec (sn_nextHops nv) nhs) as (c & _ & _ & Hm & _).
      apply Hm. by right.
  - split_and!; [done|done|lia|]. exists nv. split_and!; [done|lia|lia].
Qed.

(** The distances of an expanded node and of what it reaches do not overflow. *)
Lemma addMetric_exact E a c :
  0 <= a -> 1 <= c <= C -> a + C <= C * Z.of_nat (size (E ∩ originators entries)) ->
  addMetric a c = a + c.
Proof.
  intros Ha Hc Hb. apply wrap_id; [lia|]. apply is_int32.
  assert (Z.of_nat (size (E ∩ originators entries)) <= Z.of_nat (size (originators entries))).
  { apply inj_le, subseteq_size. set_solver. }
  change (2 ^ 31) with 2147483648 in *. nia.
Qed.

Lemma relax_inv E seen cur node south dist q v e dist' q' :
  inv E seen (sn_distance node) dist q -> cur ∈ E -> dist !! cur = Some node ->
  FindNodeTIE entries TieDirectionSouth cur = Some south -> overloaded south = false ->
  Node_Neighbors south !! v = Some e ->
  sn_distance node + C <= C * Z.of_nat (size (E ∩ originators entries)) ->
  relax self entries adjs cur (sn_distance node) node south (dist, q) (v, e) = (dist', q') ->
  inv E (also seen cur v) (sn_distance node) dist' q' /\ dist' !! cur = Some node /\
  (length (pq_items q') <= S (length (pq_items q)))%nat.
Proof.
  intros I HcE Hcur Hs Hov Hnb Hbound. unfold relax.
  assert (0 <= sn_distance node) as H0 by by eapply inv_dist_nonneg.
  assert (forall c, link cur v c -> NN_Level e < Node_Level south /\ backlink entries cur v = true /\
                                    LinkCost e = c) as Hlink.
  { intros c (n & e' & Hn & _ & He & ?). simplify_eq. naive_solver. }
  assert ((forall c, ~ link cur v c) -> inv E (also seen cur v) (sn_distance node) dist q) as Hskip.
  { intros Hno. eapply inv_also; [done..|]. intros c Hc. by destruct (Hno c). }
  rewrite Z.geb_leb. destruct (Z.leb_spec (Node_Level south) (NN_Level e)).
  { intros [= <- <-]. split_and!; [apply Hskip; intros c Hc%Hlink; lia|done|lia]. }
  destruct (backlink entries cur v) eqn:Eb; cbn [negb].
  2: { intros [= <- <-]. split_and!; [|done|lia]. apply Hskip. intros c Hc%Hlink. naive_solver. }
  assert (link cur v (LinkCost e)) as Hl by by exists south, e.
  pose proof (link_cost _ _ _ Hl) as Hc. rewrite (addMetric_exact E) by done.
  destruct (hopsVia self adjs cur node v) as [nhs|] eqn:Eh.
  2: { intros [= <- <-]. split_and!; [|done|lia]. apply hopsVia_none in Eh as [-> Ea].
       eapply inv_also; [done..|]. intros c _ Ha. destruct (Ha eq_refl). congruence. }
  destruct (hopsVia_ok _ _ _ _ _ _ _ _ _ _ I Hcur Hl Eh) as [Hok Hvia].
  intros Hi. destruct (improve_inv _ _ _ _ _ _ _ _ _ _ I H0 Hok ltac:(lia) Hi)
    as (I' & Hkeep & Hlen & nv & Hv & Hle & Hh).
  assert (dist' !! cur = Some node) as Hcur' by by rewrite Hkeep.
  split_and!; [|done|done]. eapply inv_also; [done..|].
  intros c Hc' _. rewrite (link_fun _ _ _ _ Hc' Hl). exists nv. by rewrite Hvia.
Qed.

(** ** One node *)

Definition all : Z -> Z -> Prop := fun _ _ => True.

Lemma inv_weaken E seen seen' B dist q :
  inv E seen B dist q ->
  (forall u v c, u ∈ E -> seen' u v -> link u v c -> seen u v) -> inv E seen' B dist q.
Proof. intros [? ? ? ? ? ? ? ? Hr] Hs. constructor; try done. intros. eapply Hr; eauto. Qed.

Lemma relax_fold E cur node south l seen dist q dist' q' :
  inv E seen (sn_distance node) dist q -> cur ∈ E -> dist !! cur = Some node ->
  FindNodeTIE entries TieDirectionSouth cur = Some south -> overloaded south = false ->
  (forall v e, (v, e) ∈ l -> Node_Neighbors south !! v = Some e) ->
  sn_distance node + C <= C * Z.of_nat (size (E ∩ originators entries)) ->
  foldl (relax self entries adjs cur (sn_distance node) node south) (dist, q) l = (dist', q') ->
  inv E (fun a b => seen a b \/ (a = cur /\ b ∈ l.*1)) (sn_distance node) dist' q' /\
  (length (pq_items q') <= length (pq_items q) + length l)%nat.
Proof.
  intros I HcE Hcur Hs Hov Hl Hb. revert seen dist q I Hcur.
  induction l as [|[v e] l IH]; intros seen dist q I Hcur; cbn [foldl].
  { intros [= <- <-]. split; [|cbn; lia]. eapply inv_weaken; [done|]. set_solver. }
  destruct (relax _ _ _ _ _ _ _ (dist, q) (v, e)) as [dist1 q1] eqn:E1.
  destruct (relax_inv _ _ _ _ _ _ _ _ _ _ _ I HcE Hcur Hs Hov (Hl v e ltac:(by left)) Hb E1)
    as (I1 & Hcur1 & Hlen1).
  intros E2. destruct (IH ltac:(intros; apply Hl; by right) _ _ _ I1 Hcur1 E2) as [I2 Hlen2].
  split; [|cbn; lia]. eapply inv_weaken; [done|]. unfold also. cbn. set_solver.
Qed.

(** An item is taken that is out of date. *)
Lemma inv_pop_stale E B dist q item q' node :
  inv E all B dist q -> pq_pop q = Some (item, q') -> dist !! pq_systemID item = Some node ->
  sn_distance node < pq_distance item ->
  inv E all (pq_distance item) dist q'.
Proof.
  intros I Hpop Hn Hlt. destruct (pq_pop_some _ _ _ (inv_wf _ _ _ _ _ I) Hpop) as (Hwf & Hp & Hle).
  rewrite Forall_forall in Hle. destruct I.
  destruct (inv_items0 item) as [HB _]; [rewrite Hp; by left|].
  constructor; try done.
  - intros it Hin. split; [by apply Hle|]. apply inv_items0. rewrite Hp. by right.
  - rewrite Hp in inv_nodup0. by apply NoDup_cons in inv_nodup0 as [_ ?].
  - intros v n Hv HvE. pose proof (inv_pending0 v n Hv HvE) as Hin. rewrite Hp in Hin.
    apply elem_of_cons in Hin as [<-|]; [|done]. cbn in *. simplify_eq. lia.
  - intros u (n & ? & ?)%inv_expanded0. exists n. split; [done|lia].
Qed.

(** An item is taken that carries the distance of its node. *)
Lemma inv_pop_fresh E B dist q item q' node :
  inv E all B dist q -> pq_pop q = Some (item, q') -> dist !! pq_systemID item = Some node ->
  pq_distance item = sn_distance node ->
  pq_systemID item ∉ E /\
  inv (E ∪ {[pq_systemID item]}) (fun u _ => u <> pq_systemID item) (sn_distance node) dist q'.
Proof.
  intros I Hpop Hn Heq. destruct (pq_pop_some _ _ _ (inv_wf _ _ _ _ _ I) Hpop) as (Hwf & Hp & Hle).
  rewrite Forall_forall in Hle. destruct I.
  destruct (inv_items0 item) as (HB & n & Hn' & _ & HE); [rewrite Hp; by left|].
  rewrite Hn in Hn'. injection Hn' as <-. specialize (HE Heq). split; [done|].
  rewrite Hp in inv_nodup0. apply NoDup_cons in inv_nodup0 as [Hfresh Hnd].
  constructor; try done.
  - intros v n' Hv. specialize (inv_bound0 v n' Hv).
    assert (size (E ∩ originators entries)
            <= size ((E ∪ {[pq_systemID item]}) ∩ originators entries))%nat
      by (apply subseteq_size; set_solver). nia.
  - intros it Hin. rewrite <-Heq. split; [by apply Hle|].
    destruct (inv_items0 it) as (_ & n' & Hn1 & Hn2 & Hn3); [rewrite Hp; by right|].
    exists n'. split_and!; [done|done|]. intros Hd. apply not_elem_of_union. split; [auto|].
    rewrite elem_of_singleton. intros Hid. destruct it as [id' d'], item as [id d]. cbn in *.
    by simplify_eq.
  - intros v n' Hv [HvE Hvi]%not_elem_of_union. pose proof (inv_pending0 v n' Hv HvE) as Hin.
    rewrite Hp in Hin. apply elem_of_cons in Hin as [<-|]; [|done]. set_solver.
  - intros u [(n' & ? & ?)%inv_expanded0|Hu]%elem_of_union.
    + exists n'. split; [done|lia].
    + apply elem_of_singleton in Hu as ->. by exists node.
  - intros u nu v c Hu Hne Hnu Hl Ha. apply (inv_relaxed0 u); try done. set_solver.
Qed.

(** Nothing is reached from a node without a usable South Node TIE. *)
Lemma inv_no_links E B dist q cur :
  inv E (fun u _ => u <> cur) B dist q -> (forall v c, ~ link cur v c) -> inv E all B dist q.
Proof.
  intros I Hno. eapply inv_weaken; [done|]. intros u v c _ _ Hl ->. by destruct (Hno v c).
Qed.

Lemma expand_bound E B dist q cur node n :
  inv E all B dist q -> cur ∉ E -> dist !! cur = Some node ->
  FindNodeTIE entries TieDirectionSouth cur = Some n ->
  sn_distance node + C <= C * Z.of_nat (size ((E ∪ {[cur]}) ∩ originators entries)).
Proof.
  intros I HE Hn Hs%FindNodeTIE_originator. pose proof (inv_bound _ _ _ _ _ I cur node Hn).
  assert ((E ∪ {[cur]}) ∩ originators entries = {[cur]} ∪ (E ∩ originators entries)) as ->
    by set_solver.
  rewrite size_union, size_singleton by set_solver. lia.
Qed.

Lemma visit_inv E B dist q item q' dist' q'' :
  inv E all B dist q -> pq_pop q = Some (item, q') ->
  visit self entries adjs item (dist, q') = (dist', q'') ->
  exists E', inv E' all (pq_distance item) dist' q'' /\
    (S (length (pq_items q'') + todo E') <= length (pq_items q) + todo E)%nat.
Proof.
  intros I Hpop. destruct (pq_pop_some _ _ _ (inv_wf _ _ _ _ _ I) Hpop) as (Hwf & Hp & _).
  assert (length (pq_items q) = S (length (pq_items q'))) as Hlen by by rewrite Hp.
  destruct (inv_items _ _ _ _ _ I item) as (_ & node & Hn & Hle & _); [rewrite Hp; by left|].
  unfold visit. rewrite Hn, Z.gtb_ltb.
  destruct (Z.ltb_spec (sn_distance node) (pq_distance item)) as [Hlt|Hge].
  { intros [= <- <-]. exists E. split; [by eapply inv_pop_stale|lia]. }
  assert (pq_distance item = sn_distance node) as Heq by lia. rewrite Heq.
  destruct (inv_pop_fresh _ _ _ _ _ _ _ I Hpop Hn Heq) as [HE I']. set (cur := pq_systemID item) in *.
  pose proof (todo_expand E cur HE) as Htodo.
  assert ((forall v c, ~ link cur v c) -> (dist, q') = (dist', q'') ->
    exists E', inv E' all (sn_distance node) dist' q'' /\
      (S (length (pq_items q'') + todo E') <= length (pq_items q) + todo E)%nat) as Hnone.
  { intros Hno [= <- <-]. exists (E ∪ {[cur]}). split; [by eapply inv_no_links|lia]. }
  destruct (FindNodeTIE entries TieDirectionSouth cur) as [south|] eqn:Es.
  2: { apply Hnone. intros v c (n & e & ? & _). congruence. }
  destruct (overloaded south) eqn:Eo.
  { apply Hnone. intros v c (n & e & ? & ? & _). congruence. }
  assert (cur ∈ E ∪ {[cur]}) as Hin by set_solver.
  intros Hfold. destruct (relax_fold _ _ _ south _ _ _ _ _ _ I' Hin Hn Es Eo
    (fun v e => proj1 (elem_of_range_map _ v e))
    (expand_bound _ _ _ _ _ _ _ I HE Hn Es) Hfold) as [I2 Hlen2].
  exists (E ∪ {[cur]}). split.
  - eapply inv_weaken; [done|]. intros u v c _ _ (n & e & Hs & _ & Hnb & _).
    destruct (decide (u = cur)) as [->|]; [right|by left]. split; [done|].
    apply list_elem_of_fmap. exists (v, e). split; [done|]. apply elem_of_range_map. congruence.
  - assert (length (range_map (Node_Neighbors south)) = degree entries cur) as Hdeg.
    { unfold degree. rewrite Es, range_map_perm. apply length_map_to_list. }
    lia.
Qed.

(** ** The loop *)

Lemma spfLoop_inv fuel E B dist q :
  inv E all B dist q -> (length (pq_items q) + todo E <= fuel)%nat ->
  exists E' B' dist' q', spfLoop self entries fuel adjs (dist, q) = Some dist' /\
    inv E' all B' dist' q' /\ pq_items q' = [].
Proof.
  revert E B dist q. induction fuel as [|fuel IH]; intros E B dist q I Hf; cbn [spfLoop fst snd].
  all: destruct (pq_pop q) as [[item q']|] eqn:Hpop;
    [|exists E, B, dist, q; split_and!; [done|done|by eapply pq_pop_none, Hpop; apply I]].
  - destruct (pq_pop_some _ _ _ (inv_wf _ _ _ _ _ I) Hpop) as (_ & Hp & _).
    rewrite Hp in Hf. cbn in Hf. lia.
  - destruct (visit self entries adjs item (dist, q')) as [dist1 q1] eqn:Ev.
    destruct (visit_inv _ _ _ _ _ _ _ _ I Hpop Ev) as (E' & I' & Hm).
    apply (IH E' _ _ _ I'). lia.
Qed.

Lemma inv_start :
  inv ∅ all 0 {[self := mkSpfNode 0 []]} (pq_push (mkPqItem self 0) pq_empty).
Proof.
  pose proof (pq_push_items (mkPqItem self 0) pq_empty pq_empty_wf) as Hp.
  rewrite pq_empty_items in Hp.
  constructor.
  - apply pq_push_wf, pq_empty_wf.
  - apply lookup_singleton_eq.
  - intros v node [<- <-]%lookup_singleton_Some. done.
  - intros v node [<- <-]%lookup_singleton_Some. cbn. lia.
  - intros it. rewrite Hp. intros ->%list_elem_of_singleton. cbn. split; [done|].
    exists (mkSpfNode 0 []). rewrite lookup_singleton_eq. set_solver.
  - rewrite Hp. apply NoDup_singleton.
  - intros v node [<- <-]%lookup_singleton_Some _. rewrite Hp. by left.
  - set_solver.
  - set_solver.
Qed.

(** ** The result *)

(** When the queue is empty every known node is expanded, so no path is shorter
    and none of the same length is missing. *)
Lemma inv_final E B dist q v d h :
  inv E all B dist q -> pq_items q = [] -> spath v d h ->
  exists node, dist !! v = Some node /\ sn_distance node <= d /\
    (v <> self -> sn_distance node = d -> h ∈ hopIDs (sn_nextHops node)).
Proof.
  intros I Hq.
  assert (forall u nu, dist !! u = Some nu -> u ∈ E) as HE.
  { intros u nu Hu. destruct (decide (u ∈ E)) as [|HuE]; [done|].
    pose proof (inv_pending _ _ _ _ _ I u nu Hu HuE) as Hin. rewrite Hq in Hin. set_solver. }
  induction 1 as [v c Hl Ha|u v d c h Hp IH Hu Hl].
  - pose proof (inv_self _ _ _ _ _ I) as Hs.
    destruct (inv_relaxed _ _ _ _ _ I self _ v c (HE _ _ Hs) Logic.I Hs Hl (fun _ => Ha))
      as (nv & Hv & Hle & Hh). exists nv. cbn in *. split_and!; [done|lia|].
    intros Hvs Heq. apply Hh; [done|lia|]. unfold viaIDs. rewrite Z.eqb_refl. by left.
  - destruct IH as (nu & Hnu & Hle & Hh).
    destruct (inv_relaxed _ _ _ _ _ I u nu v c (HE _ _ Hnu) Logic.I Hnu Hl) as (nv & Hv & Hle' & Hh');
      [done|]. exists nv. split_and!; [done|lia|].
    intros Hvs Heq. apply Hh'; [done|lia|]. unfold viaIDs. rewrite (proj2 (Z.eqb_neq u self) Hu).
    apply Hh; [done|lia].
Qed.

(** The least cost of a path to [v]. *)
Definition nearest (v d : Z) : Prop :=
  (exists h, spath v d h) /\ forall d' h, spath v d' h -> d <= d'.

(** [node] is right for [v]: the least cost, and as next hops the adjacencies of
    exactly the neighbours through which a path of that cost leaves. *)
Record node_exact (v : Z) (node : spfNode) : Prop := {
  exact_nearest : nearest v (sn_distance node);
  exact_hops : forall h, h ∈ hopIDs (sn_nextHops node) <-> spath v (sn_distance node) h;
  exact_nodup : NoDup (hopIDs (sn_nextHops node));
  exact_ok : forall h, h ∈ sn_nextHops node -> hop_ok h
}.

Lemma search_spec :
  exists dist,
    spfLoop self entries (spfFuel entries) adjs
      ({[self := mkSpfNode 0 []]}, pq_push (mkPqItem self 0) pq_empty) = Some dist /\
    dist !! self = Some (mkSpfNode 0 []) /\
    forall v, v <> self ->
      match dist !! v with
      | Some node => node_exact v node
      | None => forall d h, ~ spath v d h
      end.
Proof.
  destruct (spfLoop_inv (spfFuel entries) ∅ 0 _ _ inv_start) as (E & B & dist & q & Hrun & I & Hq).
  { rewrite (pq_push_items _ _ pq_empty_wf), pq_empty_items. unfold spfFuel, todo.
    rewrite difference_empty_L. cbn. lia. }
  exists dist. split; [exact Hrun|]. split; [apply I|]. intros v Hv.
  destruct (dist !! v) as [node|] eqn:En.
  - destruct (inv_node _ _ _ _ _ I v node En Hv) as (_ & Hne & Hnd & Hh).
    assert (forall d h, spath v d h -> sn_distance node <= d /\
              (sn_distance node = d -> h ∈ hopIDs (sn_nextHops node))) as Hall.
    { intros d h (n & Hn & Hle & Hin)%(inv_final _ _ _ _ _ _ _ I Hq). simplify_eq. auto. }
    constructor; [split| |done|by intros h [? _]%Hh].
    + destruct (sn_nextHops node) as [|h l]; [done|]. exists (NH_NeighborID h).
      apply Hh. by left.
    + intros d h Hp. by apply (Hall d h).
    + intros h. split; [|intros Hp; exact (proj2 (Hall _ h Hp) eq_refl)].
      intros (nh & -> & Hin)%list_elem_of_fmap. by apply Hh.
  - intros d h (n & Hn & _)%(inv_final _ _ _ _ _ _ _ I Hq). congruence.
Qed.

End dijkstra.
