(* ===== verification/SpfRoutes.v ===== *)
(** * SpfRoutes: the RIBs the two computations build.

    [south_route] and [north_route] say what a route is, in terms of the paths
    and the prefixes the LSDB describes; [south_rib] and [north_rib] show that
    the RIBs hold exactly these routes. *)

From S2P Require Import Prelude.
From S2P Require Import Types.
From S2P Require Import Lsdb.
From S2P Require Import FloodState.
From S2P Require Import Netip.
From S2P Require Import Spf.
From S2P Require Import PrioQueue.
From S2P Require Import Southbound.
From S2P Require Import Northbound.
From S2P Require Import Dijkstra.

(** ** Advertised prefixes *)

(** [o] advertises prefix [p] at metric [m] in its [dir] TIEs of the type. *)
Definition advertises (entries : LSDB) (dir tieType : Z)
    (element : TIEElement -> option PrefixTIEElement) (o : Z) (p : string) (m : Z) : Prop :=
  exists id entry pt pe, entries !! id = Some entry /\
    Direction id = dir /\ Originator id = o /\ TIEType id = tieType /\
    element (TIE_Element (Entry_Packet entry)) = Some pt /\ pe ∈ PT_Prefixes pt /\
    PrefixToString (PE_Prefix pe) = p /\ p <> ""%string /\ PA_Metric (PE_Attributes pe) = m.

Lemma elem_of_findTIEs {R : MapRange} entries dir o ty element pt :
  pt ∈ findTIEs entries dir o ty element <->
  exists id entry, entries !! id = Some entry /\ Direction id = dir /\ Originator id = o /\
    TIEType id = ty /\ element (TIE_Element (Entry_Packet entry)) = Some pt.
Proof.
  unfold findTIEs. rewrite list_elem_of_omap. split.
  - intros ([id entry] & Hin%elem_of_range_map & He). exists id, entry.
    destruct (Z.eqb_spec (Direction id) dir), (Z.eqb_spec (Originator id) o),
      (Z.eqb_spec (TIEType id) ty); cbn in He; naive_solver.
  - intros (id & entry & Hin & <- & <- & <- & He). exists (id, entry).
    rewrite elem_of_range_map, !Z.eqb_refl. done.
Qed.

Lemma elem_of_prefixOffers cost rt nhs ties o :
  o ∈ prefixOffers cost rt nhs ties <->
  exists pt pe, pt ∈ ties /\ pe ∈ PT_Prefixes pt /\ PrefixToString (PE_Prefix pe) <> ""%string /\
    o = mkOffer (PrefixToString (PE_Prefix pe)) (addMetric (PA_Metric (PE_Attributes pe)) cost) rt nhs.
Proof.
  unfold prefixOffers. rewrite list_elem_of_bind. split.
  - intros (pt & (pe & Ho & Hpe)%list_elem_of_bind & Hpt). case_bool_decide; [by apply not_elem_of_nil in Ho|].
    apply list_elem_of_singleton in Ho. by exists pt, pe.
  - intros (pt & pe & Hpt & Hpe & Hne & ->). exists pt. split; [|done].
    apply list_elem_of_bind. exists pe. rewrite bool_decide_eq_false_2 by done. set_solver.
Qed.

(** The offers of one node's TIEs, as advertised prefixes. *)
Lemma elem_of_nodeTIEs {R : MapRange} cost rt nhs entries dir v ty element o :
  o ∈ prefixOffers cost rt nhs (findTIEs entries dir v ty element) <->
  exists m, advertises entries dir ty element v (Offer_Prefix o) m /\
    o = mkOffer (Offer_Prefix o) (addMetric m cost) rt nhs.
Proof.
  rewrite elem_of_prefixOffers. split.
  - intros (pt & pe & (id & e & ?)%elem_of_findTIEs & ? & ? & ->). cbn.
    eexists. split; [|done]. exists id, e, pt, pe. naive_solver.
  - intros (m & (id & e & pt & pe & ? & ? & ? & ? & ? & ? & <- & ? & <-) & ->).
    exists pt, pe. rewrite elem_of_findTIEs. naive_solver.
Qed.

(** ** The southbound RIB *)

Section southbound.
Context {R : MapRange} {Q : Type} {PQ : PriorityQueue Q}.
Variable self : Z.
Variable entries : LSDB.
Variable adjs : gmap Z AdjacencyInfo.

(** The node [v], at distance [d], advertises [p] northbound at metric [m]. *)
Definition offers_prefix (p : string) (v d m : Z) : Prop :=
  v <> self /\ nearest self entries adjs v d /\
  advertises entries TieDirectionNorth TIETypePrefixTIEType EL_Prefixes v p m.

(** The route for [p]: the least sum of distance and metric, through the first
    hops of all the shortest paths to the nodes that attain it. *)
Record south_route (p : string) (r : Route) : Prop := {
  south_prefix : Route_Prefix r = p;
  south_type : Route_RouteType r = RouteTypeNorthPrefix;
  south_attained : exists v d m, offers_prefix p v d m /\ Route_Metric r = addMetric m d;
  south_minimal : forall v d m, offers_prefix p v d m -> Route_Metric r <= addMetric m d;
  south_hops : forall n, n ∈ hopIDs (Route_NextHops r) <->
    exists v d m, offers_prefix p v d m /\ Route_Metric r = addMetric m d /\
      spath self entries adjs v d n;
  south_nodup : NoDup (hopIDs (Route_NextHops r));
  south_adjacent : forall h, h ∈ Route_NextHops r -> hop_ok adjs h
}.

(** What the search establishes. *)
Definition search_exact (dist : distances) : Prop :=
  dist !! self = Some (mkSpfNode 0 []) /\
  forall v, v <> self ->
    match dist !! v with
    | Some node => node_exact self entries adjs v node
    | None => forall d h, ~ spath self entries adjs v d h
    end.

Lemma nearest_fun v d d' :
  nearest self entries adjs v d -> nearest self entries adjs v d' -> d = d'.
Proof. intros [[h1 H1] M1] [[h2 H2] M2]. pose proof (M1 _ _ H2). pose proof (M2 _ _ H1). lia. Qed.

Lemma elem_of_southOffers dist o :
  search_exact dist ->
  o ∈ southOffers self entries dist <->
  exists v node m, dist !! v = Some node /\ node_exact self entries adjs v node /\
    offers_prefix (Offer_Prefix o) v (sn_distance node) m /\
    o = mkOffer (Offer_Prefix o) (addMetric m (sn_distance node)) RouteTypeNorthPrefix
          (sn_nextHops node).
Proof.
  intros [_ Hd]. unfold southOffers. rewrite list_elem_of_bind. split.
  - intros ([v node] & Ho & Hn%elem_of_range_map). unfold nodeOffers in Ho.
    destruct (Z.eqb_spec v self) as [->|Hv]; [by apply not_elem_of_nil in Ho|].
    pose proof (Hd v Hv) as Hx. rewrite Hn in Hx.
    assert (o ∈ prefixOffers (sn_distance node) RouteTypeNorthPrefix (sn_nextHops node)
      (FindPrefixTIEs entries TieDirectionNorth v)) as (m & Ha & E)%elem_of_nodeTIEs
      by (by destruct (sn_nextHops node); [apply not_elem_of_nil in Ho|]).
    exists v, node, m. split_and!; [done|done| |done]. split_and!; [done|apply Hx|done].
  - intros (v & node & m & Hn & Hx & (Hv & _ & Ha) & E). exists (v, node).
    rewrite elem_of_range_map. split; [|done]. unfold nodeOffers.
    destruct (Z.eqb_spec v self); [done|].
    destruct (exact_nearest _ _ _ _ _ Hx) as [[h Hp] _]. apply (exact_hops _ _ _ _ _ Hx) in Hp.
    destruct (sn_nextHops node) eqn:Eh; [by apply not_elem_of_nil in Hp|]. rewrite <-Eh in *.
    apply elem_of_nodeTIEs. eauto.
Qed.

Lemma offers_prefix_node dist p v d m :
  search_exact dist -> offers_prefix p v d m ->
  exists node, dist !! v = Some node /\ node_exact self entries adjs v node /\
    sn_distance node = d.
Proof.
  intros [_ Hd] (Hv & Hn & _). specialize (Hd v Hv).
  destruct (dist !! v) as [node|]; [|destruct Hn as [[h Hp] _]; by destruct (Hd d h)].
  exists node. split_and!; [done|done|]. by eapply nearest_fun; [apply Hd|].
Qed.

(** Every advertised prefix at a distance is offered to the RIB. *)
Lemma offers_prefix_offer dist p v d m :
  search_exact dist -> offers_prefix p v d m ->
  exists node, node_exact self entries adjs v node /\ sn_distance node = d /\
    mkOffer p (addMetric m d) RouteTypeNorthPrefix (sn_nextHops node)
      ∈ southOffers self entries dist.
Proof.
  intros Hd Ho. destruct (offers_prefix_node _ _ _ _ _ Hd Ho) as (node & Hn & Hx & <-).
  exists node. split_and!; [done|done|]. apply elem_of_southOffers; [done|].
  exists v, node, m. done.
Qed.

Lemma south_rib dist p :
  search_exact dist ->
  match ribOf (southOffers self entries dist) !! p with
  | Some r => south_route p r
  | None => forall v d m, ~ offers_prefix p v d m
  end.
Proof.
  intros Hd. pose proof (addRoutes_spec (southOffers self entries dist) p) as Hr.
  destruct (ribOf _ !! p) as [r|].
  2: { intros v d m Ho. destruct (offers_prefix_offer _ _ _ _ _ Hd Ho) as (node & _ & _ & Hin).
       by destruct (Hr _ Hin). }
  destruct Hr as [H1 H2 H3 H4 H5 H6].
  assert (forall o, o ∈ southOffers self entries dist -> Offer_RouteType o = RouteTypeNorthPrefix
            /\ NoDup (hopIDs (Offer_NextHops o)) /\ forall h, h ∈ Offer_NextHops o -> hop_ok adjs h)
    as Ho.
  { intros o (v & node & m & _ & Hx & _ & ->)%elem_of_southOffers; [|done]. destruct Hx.
    cbn. done. }
  assert (Route_RouteType r = RouteTypeNorthPrefix) as Ht.
  { destruct H3 as (o & Hin & _ & <- & _). by apply Ho. }
  constructor; try done.
  - destruct H3 as (o & Hin & Hp & _ & Hm). apply elem_of_southOffers in Hin; [|done].
    destruct Hin as (v & node & m & _ & _ & Hof & E). rewrite Hp in Hof.
    exists v, (sn_distance node), m. split; [done|]. rewrite <-Hm, E. done.
  - intros v d m Hof. destruct (offers_prefix_offer _ _ _ _ _ Hd Hof) as (node & _ & _ & Hin).
    pose proof (H2 _ Hin eq_refl) as Hn. unfold preferred in Hn. cbn in Hn. lia.
  - intros n. rewrite H4. split.
    + intros (o & Hin & Hp & [_ Hm] & Hn). apply elem_of_southOffers in Hin; [|done].
      destruct Hin as (v & node & m & _ & Hx & Hof & E). rewrite Hp in Hof. rewrite E in Hm, Hn.
      exists v, (sn_distance node), m. split_and!; [done|done|]. by apply Hx.
    + intros (v & d & m & Hof & Hm & Hp).
      destruct (offers_prefix_offer _ _ _ _ _ Hd Hof) as (node & Hx & <- & Hin).
      eexists. split_and!; [done|done|done|]. cbn. by apply Hx.
  - apply H6. intros o Hin. by apply Ho.
  - intros h (o & Hin & _ & _ & Hh)%H5. by apply (Ho o).
Qed.

End southbound.

(** ** The northbound RIB *)

Section northbound.
Context {R : MapRange}.
Variable systemID level : Z.
Variable entries : LSDB.
Variable adjacencies : gmap string AdjacencyInfo.

(** A neighbour above whose South Node TIE lists this node. *)
Definition valid_neighbor (v : validatedNeighbor) : Prop :=
  exists ifName adj n, adjacencies !! ifName = Some adj /\ level < AI_NeighborLevel adj /\
    FindNodeTIE entries TieDirectionSouth (AI_NeighborID adj) = Some n /\
    is_Some (Node_Neighbors n !! systemID) /\
    v = mkValidatedNeighbor
          (mkNextHop (AI_NeighborID adj) (AI_NeighborAddr adj) (AI_InterfaceName adj))
          (ownLinkCost systemID entries (AI_NeighborID adj)).

(** [p] is reached through [v] at metric [m]: the default route at the cost of
    the link, an advertised prefix at its metric on top. *)
Definition north_reach (p : string) (v : validatedNeighbor) (m : Z) : Prop :=
  (p = defaultPrefix /\ m = vn_linkCost v) \/
  exists m', (advertises entries TieDirectionSouth TIETypePrefixTIEType EL_Prefixes
                (NH_NeighborID (vn_nextHop v)) p m' \/
              advertises entries TieDirectionSouth TIETypePositiveDisaggregationPrefixTIEType
                EL_PositiveDisaggregationPrefixes (NH_NeighborID (vn_nextHop v)) p m') /\
             m = addMetric m' (vn_linkCost v).

Record north_route (p : string) (r : Route) : Prop := {
  north_prefix : Route_Prefix r = p;
  north_type : Route_RouteType r = RouteTypeSouthPrefix;
  north_attained : exists v, valid_neighbor v /\ north_reach p v (Route_Metric r);
  north_minimal : forall v m, valid_neighbor v -> north_reach p v m -> Route_Metric r <= m;
  north_hops : forall n, n ∈ hopIDs (Route_NextHops r) <->
    exists v, valid_neighbor v /\ north_reach p v (Route_Metric r) /\ NH_NeighborID (vn_nextHop v) = n
}.

Lemma elem_of_validated v :
  v ∈ validatedNeighbors systemID level entries adjacencies <-> valid_neighbor v.
Proof.
  unfold validatedNeighbors, valid_neighbor. rewrite list_elem_of_omap. split.
  - intros ([k adj] & Hk%elem_of_range_map & Hv). exists k, adj. revert Hv. unfold validate.
    destruct (Z.leb_spec (AI_NeighborLevel adj) level); [done|].
    destruct (FindNodeTIE _ _ _) as [n|]; [|done]. case_bool_decide; [|done].
    intros [= <-]. exists n. done.
  - intros (k & adj & n & Hk & Hl & Hn & Hs & ->). exists (k, adj). rewrite elem_of_range_map.
    split; [done|]. unfold validate. rewrite (proj2 (Z.leb_gt _ _) Hl), Hn.
    by rewrite bool_decide_eq_true_2.
Qed.

Lemma minLinkCost_spec v0 vs :
  (exists v, v ∈ v0 :: vs /\ vn_linkCost v = minLinkCost v0 vs) /\
  forall v, v ∈ v0 :: vs -> minLinkCost v0 vs <= vn_linkCost v.
Proof.
  unfold minLinkCost. induction vs as [|w vs IH] using rev_ind; cbn.
  { split; [exists v0; set_solver|]. intros v ->%list_elem_of_singleton. done. }
  rewrite foldl_snoc, app_comm_cons. destruct IH as [(v & Hv & Hm) Hle].
  destruct (Z.ltb_spec (vn_linkCost w)
    (foldl (fun m v => if vn_linkCost v <? m then vn_linkCost v else m) (vn_linkCost v0) vs)).
  - split; [exists w; set_solver|]. intros u [Hu%Hle| ->%list_elem_of_singleton]%elem_of_app; lia.
  - split; [exists v; set_solver|]. intros u [Hu%Hle| ->%list_elem_of_singleton]%elem_of_app; lia.
Qed.

(** Every way to reach a prefix is offered, at its metric or better. *)
Lemma north_offered p v m :
  valid_neighbor v -> north_reach p v m ->
  exists o, o ∈ northOffers entries (validatedNeighbors systemID level entries adjacencies) /\
    Offer_Prefix o = p /\ Offer_RouteType o = RouteTypeSouthPrefix /\ Offer_Metric o <= m /\
    (Offer_Metric o = m -> NH_NeighborID (vn_nextHop v) ∈ hopIDs (Offer_NextHops o)).
Proof.
  intros Hv%elem_of_validated Hr. unfold northOffers.
  destruct (validatedNeighbors _ _ _ _) as [|v0 vs]; [by apply not_elem_of_nil in Hv|].
  destruct (minLinkCost_spec v0 vs) as [_ Hmin]. destruct Hr as [[-> ->]|(m' & Ha & ->)].
  - eexists. split_and!; [by left|done|done|by apply Hmin|].
    cbn [Offer_Metric Offer_NextHops]. intros Hm.
    apply list_elem_of_fmap_2, list_elem_of_fmap_2, list_elem_of_filter. done.
  - exists (mkOffer p (addMetric m' (vn_linkCost v)) RouteTypeSouthPrefix [vn_nextHop v]).
    split_and!; [|done|done|done|intros; by left]. right. apply list_elem_of_bind. exists v.
    split; [|done]. apply elem_of_app. destruct Ha; [left|right]; apply elem_of_nodeTIEs; eauto.
Qed.

(** Every offer is a way to reach its prefix through each of its next hops. *)
Lemma north_offers_sound o :
  o ∈ northOffers entries (validatedNeighbors systemID level entries adjacencies) ->
  Offer_RouteType o = RouteTypeSouthPrefix /\ Offer_NextHops o <> [] /\
  forall h, h ∈ Offer_NextHops o ->
    exists v, valid_neighbor v /\ north_reach (Offer_Prefix o) v (Offer_Metric o) /\ vn_nextHop v = h.
Proof.
  assert (forall v, v ∈ validatedNeighbors systemID level entries adjacencies -> valid_neighbor v)
    as Hval by (intros; by apply elem_of_validated).
  unfold northOffers. destruct (validatedNeighbors _ _ _ _) as [|v0 vs]; [by intros ?%not_elem_of_nil|].
  intros [->|(v & Ho & Hv)%list_elem_of_bind]%elem_of_cons;
    cbn [Offer_Prefix Offer_Metric Offer_RouteType Offer_NextHops].
  - split_and!; [done| |].
    + destruct (minLinkCost_spec v0 vs) as [(v & Hv & Hm) _]. intros Hnil.
      apply fmap_nil_inv in Hnil. apply (not_elem_of_nil v). rewrite <-Hnil.
      by apply list_elem_of_filter.
    + intros h (v & -> & [Hm Hv]%list_elem_of_filter)%list_elem_of_fmap. exists v.
      split_and!; [by apply Hval| |done]. by left.
  - unfold neighborOffers in Ho. apply elem_of_app in Ho.
    destruct Ho as [(m & Ha & E)%elem_of_nodeTIEs|(m & Ha & E)%elem_of_nodeTIEs];
      rewrite E; cbn; (split_and!; [done|done|]); intros h ->%list_elem_of_singleton;
      (exists v; split_and!; [by apply Hval| |done]); right; exists m; naive_solver.
Qed.

Lemma north_rib p :
  match ComputeNorthbound systemID level entries adjacencies !! p with
  | Some r => north_route p r
  | None => forall v m, valid_neighbor v -> ~ north_reach p v m
  end.
Proof.
  unfold ComputeNorthbound.
  pose proof (addRoutes_spec
    (northOffers entries (validatedNeighbors systemID level entries adjacencies)) p) as Hr.
  destruct (ribOf _ !! p) as [r|].
  2: { intros v m Hv (o & Hin & Hp & _)%north_offered; [|done]. by destruct (Hr o Hin). }
  destruct Hr as [H1 H2 H3 H4 _ _]. destruct H3 as (o & Hin & Hp & Ht & Hm).
  destruct (north_offers_sound o Hin) as (Hto & Hne & Hs).
  assert (forall v m, valid_neighbor v -> north_reach p v m -> Route_Metric r <= m) as Hmin.
  { intros v m Hv Hreach. destruct (north_offered p v m Hv Hreach) as (o' & Hin' & Hp' & Ht' & Hle & _).
    pose proof (H2 o' Hin' Hp') as Hn. unfold preferred in Hn. lia. }
  constructor; [done|congruence| |done|].
  - destruct (Offer_NextHops o) as [|h l]; [done|].
    destruct (Hs h ltac:(by left)) as (v & Hv & Hreach & _). exists v. by rewrite <-Hm, <-Hp.
  - intros n. rewrite H4. split.
    + intros (o' & Hin' & Hp' & [_ Hm'] & (h & -> & Hh)%list_elem_of_fmap).
      destruct (north_offers_sound o' Hin') as (_ & _ & Hs').
      destruct (Hs' h Hh) as (v & Hv & Hreach & <-). exists v. by rewrite <-Hm', <-Hp'.
    + intros (v & Hv & Hreach & <-).
      destruct (north_offered p v _ Hv Hreach) as (o' & Hin' & Hp' & Ht' & Hle & Hh).
      pose proof (H2 o' Hin' Hp') as Hn. unfold preferred in Hn.
      assert (Offer_Metric o' = Route_Metric r) as Em by lia.
      exists o'. split_and!; [done|done|split; [congruence|done]|]. by apply Hh.
Qed.

End northbound.
