(* ===== verification/SpfStore.v ===== *)
(** * SpfStore: merging the RIBs in the engine's store.

    Allocation and merging only extend the store, so that no route another RIB
    points to is assigned to. *)

From S2P Require Import Prelude.
From S2P Require Import Types.
From S2P Require Import Lsdb.
From S2P Require Import FloodState.
From S2P Require Import Netip.
From S2P Require Import Spf.
From S2P Require Import PrioQueue.
From S2P Require Import Southbound.
From S2P Require Import Northbound.
From S2P Require Import SpfEngine.
From S2P Require Import SpfRoutes.

(** ** The engine's store *)

(** No pointer of [rib] dangles. *)
Definition valid_ref (s : store) (rib : ribRef) : Prop :=
  map_Forall (fun _ loc => is_Some (s !! loc)) rib.

Lemma deref_lookup s rib p : deref s rib !! p = loc ← rib !! p; s !! loc.
Proof. apply lookup_omap. Qed.

Lemma deref_prefix s s' rib : valid_ref s rib -> s `prefix_of` s' -> deref s' rib = deref s rib.
Proof.
  intros Hv [k ->]. apply map_eq. intros p. rewrite !deref_lookup.
  destruct (rib !! p) as [loc|] eqn:E; [|done]. destruct (Hv _ _ E) as [r Hr]. cbn.
  rewrite Hr. by apply lookup_app_l_Some.
Qed.

Lemma newRoute_spec s rib p r s' rib' :
  valid_ref s rib -> newRoute (s, rib) p r = (s', rib') ->
  valid_ref s' rib' /\ s `prefix_of` s' /\ deref s' rib' = <[p := r]> (deref s rib).
Proof.
  intros Hv [= <- <-]. cbn.
  assert (s `prefix_of` s ++ [r]) as Hpre by by apply prefix_app_r.
  assert ((s ++ [r]) !! length s = Some r) as Hnew by by rewrite list_lookup_middle.
  split_and!; [|done|].
  - intros q loc. rewrite lookup_insert_Some. intros [[<- <-]|[_ Hq]]; [by rewrite Hnew|].
    destruct (Hv _ _ Hq) as [x Hx]. exists x. by apply lookup_app_l_Some.
  - rewrite <-(deref_prefix _ _ _ Hv Hpre). apply map_eq. intros q.
    rewrite deref_lookup, !lookup_insert. case_decide; [done|]. by rewrite deref_lookup.
Qed.

Lemma allocRIB_spec {R : MapRange} s rib s' ref :
  allocRIB s rib = (s', ref) ->
  valid_ref s' ref /\ s `prefix_of` s' /\ deref s' ref = rib.
Proof.
  unfold allocRIB.
  cut (forall l s0 ref0, valid_ref s0 ref0 ->
    foldl (fun st '((p, r) : string * Route) => newRoute st p r) (s0, ref0) l = (s', ref) ->
    valid_ref s' ref /\ s0 `prefix_of` s' /\
    deref s' ref = foldl (fun m '((p, r) : string * Route) => <[p := r]> m) (deref s0 ref0) l).
  - intros H Hf. apply H in Hf as (Hv & Hp & E); [|by intros ? ?].
    split_and!; [done|done|]. rewrite E.
    assert (deref s ∅ = ∅) as -> by apply omap_empty.
    apply foldl_insert_map, range_map_perm.
  - induction l as [|[p r] l IH]; intros s0 ref0 Hv; cbn [foldl].
    { intros [= <- <-]. done. }
    destruct (newRoute (s0, ref0) p r) as [s1 ref1] eqn:E1.
    destruct (newRoute_spec _ _ _ _ _ _ Hv E1) as (Hv1 & Hp1 & <-).
    intros Hf. destruct (IH _ _ Hv1 Hf) as (? & ? & ?). split_and!; [done|by etrans|done].
Qed.

(** The types of the two RIBs. *)
Lemma south_types {R : MapRange} self entries dist p r :
  ribOf (southOffers self entries dist) !! p = Some r -> Route_RouteType r = RouteTypeNorthPrefix.
Proof.
  intros Hr. pose proof (addRoutes_spec (southOffers self entries dist) p) as H. rewrite Hr in H.
  destruct (best_attained _ _ _ H) as (o & Ho & _ & <- & _).
  unfold southOffers in Ho. apply list_elem_of_bind in Ho as ([v node] & Ho & _).
  unfold nodeOffers in Ho. destruct (v =? self); [by apply not_elem_of_nil in Ho|].
  destruct (sn_nextHops node); [by apply not_elem_of_nil in Ho|].
  by apply elem_of_prefixOffers in Ho as (? & ? & _ & _ & _ & ->).
Qed.

Lemma north_route_eta {R : MapRange} systemID level entries adjacencies p r :
  ComputeNorthbound systemID level entries adjacencies !! p = Some r ->
  mkRoute p (Route_Metric r) (Route_RouteType r) (Route_NextHops r) = r /\
  Route_RouteType r = RouteTypeSouthPrefix.
Proof.
  intros Hr. pose proof (north_rib systemID level entries adjacencies p) as H. rewrite Hr in H.
  destruct H as [<- ? _ _ _]. by destruct r.
Qed.

(** Merging northbound routes under southbound ones: no shared route is
    assigned to. *)
Lemma merge_north (l : list (string * Route)) s rib s' rib' (south : RIB) :
  valid_ref s rib -> NoDup l.*1 ->
  (forall p r, south !! p = Some r -> Route_RouteType r = RouteTypeNorthPrefix) ->
  (forall p r, (p, r) ∈ l ->
     mkRoute p (Route_Metric r) (Route_RouteType r) (Route_NextHops r) = r /\
     Route_RouteType r = RouteTypeSouthPrefix) ->
  (forall p, p ∈ l.*1 -> deref s rib !! p = south !! p) ->
  foldl (fun st '((prefix, route) : string * Route) =>
    addRouteRef st prefix (Route_Metric route) (Route_RouteType route) (Route_NextHops route))
    (s, rib) l = (s', rib') ->
  valid_ref s' rib' /\ s `prefix_of` s' /\ deref s' rib' = deref s rib ∪ list_to_map l.
Proof.
  intros Hv Hnd Hs Hl. revert s rib Hv. induction l as [|[p r] l IH]; intros s rib Hv Hsp; cbn [foldl].
  { intros [= <- <-]. split_and!; [done|done|]. cbn. by rewrite (right_id_L ∅ _). }
  cbn in Hnd. apply NoDup_cons in Hnd as [Hpl Hnd].
  destruct (addRouteRef _ _ _ _ _) as [s1 rib1] eqn:E1.
  assert (valid_ref s1 rib1 /\ s `prefix_of` s1 /\ deref s1 rib1 = deref s rib ∪ {[p := r]})
    as (Hv1 & Hp1 & Ed).
  { destruct (Hl p r ltac:(by left)) as [Er Ht]. pose proof (Hsp p ltac:(by left)) as Hsouth.
    revert E1. unfold addRouteRef. cbn [fst snd]. rewrite Er, Ht.
    destruct (rib !! p) as [loc|] eqn:Eloc.
    - destruct (Hv _ _ Eloc) as [x Hx]. rewrite Hx.
      rewrite deref_lookup, Eloc in Hsouth. cbn in Hsouth. rewrite Hx in Hsouth.
      rewrite (Hs p x) by done. cbn. intros [= <- <-]. split_and!; [done|done|].
      apply map_eq. intros q. rewrite lookup_union. destruct (decide (q = p)) as [->|].
      + rewrite deref_lookup, Eloc. cbn. rewrite Hx. by rewrite union_Some_l.
      + rewrite lookup_singleton_ne by done. by rewrite (right_id None _).
    - intros E1. destruct (newRoute_spec _ _ _ _ _ _ Hv E1) as (? & ? & ->).
      split_and!; [done|done|]. apply insert_union_singleton_r.
      by rewrite deref_lookup, Eloc. }
  intros Hf. destruct (IH Hnd ltac:(intros; apply Hl; by right) s1 rib1 Hv1) as (? & ? & ->); [|done|].
  - intros q Hq. rewrite Ed, lookup_union_l; [apply Hsp; by right|].
    apply lookup_singleton_ne. set_solver.
  - split_and!; [done|by etrans|]. rewrite Ed. cbn. rewrite <-(assoc_L (∪)).
    by rewrite <-insert_union_singleton_l.
Qed.

(** The RIBs after a run of the engine. *)
Lemma run_ribs {R : MapRange} {Q} {PQ : PriorityQueue Q} entries adjacencies e :
  let north := ComputeNorthbound (e_systemID e) (e_level e) entries adjacencies in
  match Run entries adjacencies e with
  | Some e' =>
      e_store e `prefix_of` e_store e' /\
      if e_level e =? LeafLevel then RIBOf e' = north /\ SouthRIB e' = None
      else exists south, ComputeSouthbound (e_systemID e) entries adjacencies = Some south /\
             SouthRIB e' = Some south /\ RIBOf e' = south ∪ north
  | None => e_level e <> LeafLevel /\
            ComputeSouthbound (e_systemID e) entries adjacencies = None
  end.
Proof.
  cbv zeta. unfold Run, RIBOf, SouthRIB. destruct (Z.eqb_spec (e_level e) LeafLevel) as [|Hl].
  - destruct (allocRIB _ _) as [s rib] eqn:Ea. by apply allocRIB_spec in Ea as (_ & ? & ?).
  - destruct (ComputeSouthbound _ _ _) as [south|] eqn:Es; cbn; [|done].
    destruct (allocRIB (e_store e) south) as [s sRIB] eqn:Ea.
    apply allocRIB_spec in Ea as (Hv & Hp & Hd).
    destruct (foldl _ _ _) as [s' rib] eqn:Ef.
    eapply (merge_north _ _ _ _ _ south) in Ef as (Hv' & Hp' & Hd'); [|done|apply NoDup_range_map|..].
    + split; [by etrans|]. exists south. split; [done|].
      cbn [e_store e_southRIB e_rib fmap option_fmap option_map]. split.
      * by rewrite (deref_prefix _ _ _ Hv Hp'), Hd.
      * rewrite Hd', Hd. f_equal.
        rewrite (list_to_map_proper _ (map_to_list (ComputeNorthbound (e_systemID e) (e_level e)
          entries adjacencies))), list_to_map_to_list; [done|apply NoDup_range_map|apply range_map_perm].
    + intros p r. unfold ComputeSouthbound in Es.
      destruct (shortestPaths _ _ _) as [dist|]; [|done]. injection Es as <-. apply south_types.
    + intros p r Hin%elem_of_range_map. by eapply north_route_eta.
    + intros p _. by rewrite Hd.
Qed.
