(* ===== verification/SpfTheorems.v ===== *)
(** * SpfTheorems: the properties of the route computations: the southbound
    search, the two RIBs, a run of the engine, and disaggregation. *)

From S2P Require Import Prelude.
From S2P Require Import Types.
From S2P Require Import Lsdb.
From S2P Require Import FloodState.
From S2P Require Import Netip.
From S2P Require Import Spf.
From S2P Require Import PrioQueue.
From S2P Require Import Southbound.
From S2P Require Import Northbound.
From S2P Require Import SpfEngine.
From S2P Require Import Disagg.
From S2P Require Import Dijkstra.
From S2P Require Import SpfRoutes.
From S2P Require Import SpfStore.

(** ** Theorems *)

(** Every link any Node TIE lists costs between 1 and [C]. *)
Definition costs_ok (entries : LSDB) (C : Z) : Prop :=
  map_Forall (fun _ e =>
    match EL_Node (TIE_Element (Entry_Packet e)) with
    | Some n => map_Forall (fun _ nb => 1 <= LinkCost nb <= C) (Node_Neighbors n)
    | None => True
    end) entries.
#[export] Instance costs_ok_dec entries C : Decision (costs_ok entries C).
Proof. apply map_Forall_dec. intros _ e. destruct (EL_Node _); apply _. Defined.

Lemma costs_ok_link entries C u v c :
  costs_ok entries C -> link entries u v c -> 1 <= c <= C.
Proof.
  intros H (n & e & Hn & _ & He & _ & _ & <-). unfold FindNodeTIE in Hn.
  destruct (entries !! _) as [entry|] eqn:E; [|done]. pose proof (H _ _ E) as Hf. cbn in Hf, Hn.
  rewrite Hn in Hf. exact (Hf _ _ He).
Qed.

(** A three-level fabric: top 100, spines 1 and 2, and leaf 10 below both, which
    advertises 10.0.0.0/24. *)
Definition sample_node (dir originator level : Z) (nbs : list (Z * Z)) : TIEID * LSDBEntry :=
  let id := mkTIEID dir originator TIETypeNodeTIEType 1 in
  (id, mkLSDBEntry (mkTIEPacket (mkTIEHeader id 1 None None)
     (zeroTIEElement <| EL_Node := Some (zeroNodeTIE <| Node_Level := level |>
        <| Node_Neighbors := list_to_map
             ((fun '(n, l) => (n, mkNodeNeighbors l None [] None)) <$> nbs) |>) |>)) 3600 false).

Definition sample_prefixes (dir originator : Z) (prefixes : list (Z * Z * Z))
    : TIEID * LSDBEntry :=
  let id := mkTIEID dir originator TIETypePrefixTIEType 1 in
  (id, mkLSDBEntry (mkTIEPacket (mkTIEHeader id 1 None None)
     (zeroTIEElement <| EL_Prefixes := Some (mkPrefixTIE
        ((fun '(a, l, m) => mkPrefixEntry (mkIPPrefix (Some (mkIPv4Prefix a l)) None)
            (zeroPrefixAttributes <| PA_Metric := m |>)) <$> prefixes)) |>)) 3600 false).

Definition sample_fabric : LSDB := list_to_map [
  sample_node TieDirectionSouth 100 2 [(1, 1); (2, 1)];
  sample_node TieDirectionSouth 1 1 [(10, 0); (100, 2)];
  sample_node TieDirectionSouth 2 1 [(10, 0); (100, 2)];
  sample_node TieDirectionNorth 1 1 [(10, 0); (100, 2)];
  sample_node TieDirectionNorth 2 1 [(10, 0); (100, 2)];
  sample_node TieDirectionNorth 10 0 [(1, 1); (2, 1)];
  sample_prefixes TieDirectionNorth 10 [(167772160, 24, 1)]].

Definition sample_adj (ifName : string) (id level : Z) : string * AdjacencyInfo :=
  (ifName, mkAdjacencyInfo ifName id level (AddrV4 id) 915 1 1).

Definition sample_adjacencies : gmap string AdjacencyInfo :=
  list_to_map [sample_adj "ethernet-1/1" 1 1; sample_adj "ethernet-1/2" 2 1].

Lemma sample_costs : costs_ok sample_fabric 1.
Proof. apply (bool_decide_unpack _). vm_compute. exact I. Qed.

Lemma sample_size : 1 * Z.of_nat (size (originators sample_fabric)) < 2 ^ 31.
Proof. vm_compute. reflexivity. Qed.

(** C2: the southbound search ends and finds the shortest paths: when every link
    costs between 1 and [C] and [C] times the number of known nodes fits an
    int32, every node has the least cost of a path to it and, as next hops,
    the adjacencies to exactly the neighbours through which a path of that cost
    leaves; a node without distance has no path. *)
Theorem southbound_shortest_paths {R : MapRange} {Q} {PQ : PriorityQueue Q}
    self entries adjacencies C
    (HC : 0 <= C) (Hcost : costs_ok entries C)
    (Hsize : C * Z.of_nat (size (originators entries)) < 2 ^ 31) :
  exists dist, shortestPaths self entries adjacencies = Some dist /\
    dist !! self = Some (mkSpfNode 0 []) /\
    forall v, v <> self ->
      match dist !! v with
      | Some node => node_exact self entries (adjByNeighbor adjacencies) v node
      | None => forall d h, ~ spath self entries (adjByNeighbor adjacencies) v d h
      end.
Proof.
  apply (search_spec self entries (adjByNeighbor adjacencies) C); [done| |done].
  intros u v c. by apply costs_ok_link.
Qed.

Lemma southbound_shortest_paths_witness :
  exists dist, shortestPaths (R := canonical_range) (PQ := Heap.binaryHeap)
      100 sample_fabric sample_adjacencies = Some dist /\
    dist !! 100 = Some (mkSpfNode 0 []).
Proof.
  destruct (southbound_shortest_paths (R := canonical_range) (PQ := Heap.binaryHeap)
    100 sample_fabric sample_adjacencies 1 ltac:(lia) sample_costs sample_size) as (dist & H1 & H2 & _).
  exists dist. exact (conj H1 H2).
Defined.

(** C6: the southbound RIB is exact: under the same bounds the computation ends, and
    the route for a prefix has the least sum of distance and advertised metric
    over the reachable nodes that advertise it northbound, through the first
    hops of all the shortest paths to the nodes that attain it; a prefix
    without a route is advertised by no reachable node. *)
Theorem ComputeSouthbound_spec {R : MapRange} {Q} {PQ : PriorityQueue Q}
    self entries adjacencies C
    (HC : 0 <= C) (Hcost : costs_ok entries C)
    (Hsize : C * Z.of_nat (size (originators entries)) < 2 ^ 31) :
  exists rib, ComputeSouthbound self entries adjacencies = Some rib /\
    forall p,
      match rib !! p with
      | Some r => south_route self entries (adjByNeighbor adjacencies) p r
      | None => forall v d m, ~ offers_prefix self entries (adjByNeighbor adjacencies) p v d m
      end.
Proof.
  destruct (search_spec self entries (adjByNeighbor adjacencies) C HC) as (dist & Hrun & Hd);
    [|done|].
  { intros u v c. by apply costs_ok_link. }
  exists (ribOf (southOffers self entries dist)). split.
  - unfold ComputeSouthbound, shortestPaths. by rewrite Hrun.
  - intros p. by apply south_rib.
Qed.

Lemma ComputeSouthbound_spec_witness :
  exists rib, ComputeSouthbound (R := canonical_range) (PQ := Heap.binaryHeap)
      100 sample_fabric sample_adjacencies = Some rib /\
    match rib !! "10.0.0.0/24"%string with
    | Some r => south_route 100 sample_fabric
                  (adjByNeighbor (R := canonical_range) sample_adjacencies) "10.0.0.0/24" r
    | None => False
    end.
Proof.
  destruct (ComputeSouthbound_spec (R := canonical_range) (PQ := Heap.binaryHeap)
    100 sample_fabric sample_adjacencies 1 ltac:(lia) sample_costs sample_size) as (rib & H1 & H2).
  exists rib. split; [exact H1|]. specialize (H2 "10.0.0.0/24"%string).
  assert (is_Some (ComputeSouthbound (R := canonical_range) (PQ := Heap.binaryHeap)
    100 sample_fabric sample_adjacencies ≫= lookup "10.0.0.0/24"%string)) as [r Hr]
    by (vm_compute; eexists; reflexivity).
  rewrite H1 in Hr. cbn in Hr.
  rewrite Hr in *. exact H2.
Defined.

(** C17: the northbound RIB is exact: the route for a prefix has the least metric over
    the neighbours above that list this node, the default route at the cost of
    the link and an advertised prefix at its metric added to it, through
    exactly the neighbours that attain it; without such a neighbour the RIB is
    empty. *)
Theorem ComputeNorthbound_spec {R : MapRange} systemID level entries adjacencies p :
  match ComputeNorthbound systemID level entries adjacencies !! p with
  | Some r => north_route systemID level entries adjacencies p r
  | None => forall v m, valid_neighbor systemID level entries adjacencies v ->
              ~ north_reach entries p v m
  end.
Proof. apply north_rib. Qed.

(** C11: a run of the engine: on a leaf the RIB is the northbound one; elsewhere it is
    the southbound RIB, completed with the northbound routes of the prefixes it
    lacks, and the southbound RIB kept for disaggregation is untouched by that
    merge; no route that an earlier run published is modified.  A run fails
    to end only if the southbound search does. *)
Theorem Run_spec {R : MapRange} {Q} {PQ : PriorityQueue Q} entries adjacencies e :
  let north := ComputeNorthbound (e_systemID e) (e_level e) entries adjacencies in
  match Run entries adjacencies e with
  | Some e' =>
      e_store e `prefix_of` e_store e' /\
      if e_level e =? LeafLevel then RIBOf e' = north /\ SouthRIB e' = None
      else exists south, ComputeSouthbound (e_systemID e) entries adjacencies = Some south /\
             SouthRIB e' = Some south /\ RIBOf e' = south ∪ north
  | None => e_level e <> LeafLevel /\
            ComputeSouthbound (e_systemID e) entries adjacencies = None
  end.
Proof. apply run_ribs. Qed.





