(* ===== verification/Ndk.v ===== *)
(** * Ndk: the route client ([internal/ndk/routes.go]).

    The messages are the protobuf structs the client fills in, with the fields
    it sets.  A method returns whether it succeeded; the requests that reached
    the service are kept in order.  The service's answer is the parameter [svc]:
    from the requests so far and the new one to success or failure.

    [RouteService] states what the agent relies on: what the service does with
    the routes and groups, in particular that [SyncEnd] removes the routes that
    were not added since [SyncStart]. *)

From Stdlib Require Import Strings.Ascii.
From S2P Require Import Prelude.
From S2P Require Import Types.
From S2P Require Import FloodState.
From S2P Require Import Netip.

Definition routePreference : Z := 250.
Definition networkInstance : string := "default".

Record IpAddrPrefLenPb := mkIpAddrPrefLenPb { IPL_IpAddress : list Z; IPL_PrefixLength : Z }.
Record RouteKey := mkRouteKey { RK_NetworkInstanceName : string; RK_IpPrefix : IpAddrPrefLenPb }.
Record RouteData := mkRouteData {
  RD_NexthopGroupName : string;
  RD_Preference : Z;
  RD_Metric : Z
}.
Record RouteInfo := mkRouteInfo { RI_Key : RouteKey; RI_Data : RouteData }.
Record NextHopGroupKey := mkNextHopGroupKey { GK_Name : string; GK_NetworkInstanceName : string }.
(** A next hop is its IPv4 address. *)
Record NextHopGroupInfo := mkNextHopGroupInfo { GI_Key : NextHopGroupKey; GI_Nexthops : list Z }.

#[export] Instance IpAddrPrefLenPb_eq_dec : EqDecision IpAddrPrefLenPb.
Proof. solve_decision. Defined.
#[export] Instance RouteKey_eq_dec : EqDecision RouteKey.
Proof. solve_decision. Defined.
#[export] Instance RouteKey_countable : Countable RouteKey.
Proof.
  refine (inj_countable'
    (fun k => (RK_NetworkInstanceName k, IPL_IpAddress (RK_IpPrefix k), IPL_PrefixLength (RK_IpPrefix k)))
    (fun t => mkRouteKey t.1.1 (mkIpAddrPrefLenPb t.1.2 t.2)) _).
  by intros [? []].
Defined.
#[export] Instance NextHopGroupKey_eq_dec : EqDecision NextHopGroupKey.
Proof. solve_decision. Defined.
#[export] Instance NextHopGroupKey_countable : Countable NextHopGroupKey.
Proof.
  refine (inj_countable' (fun k => (GK_Name k, GK_NetworkInstanceName k))
    (fun t => mkNextHopGroupKey t.1 t.2) _). by intros [].
Defined.

Inductive Request :=
  | SyncStart
  | SyncEnd
  | NextHopGroupAddOrUpdate (infos : list NextHopGroupInfo)
  | NextHopGroupDelete (keys : list NextHopGroupKey)
  | RouteAddOrUpdate (routes : list RouteInfo)
  | RouteDelete (keys : list RouteKey).

(** A route to be programmed. *)
Record RouteEntry := mkRouteEntry {
  RE_Prefix : string;
  RE_NHGName : string;
  RE_Metric : Z
}.

(** [None] is an error.  (On the text of an IPv6 prefix, which no RIB key is, the
    code panics in [As4] instead.) *)
Definition prefixToNDK (cidr : string) : option IpAddrPrefLenPb :=
  '(raw, bits) ← ParsePrefix cidr; Some (mkIpAddrPrefLenPb raw bits).

(** [None] is the panic of [As4] on an address that is not IPv4. *)
Definition addrToNDK (addr : Addr) : option Z := As4 addr.

Section client.
Variable svc : list Request -> Request -> bool.

(** A method: from the requests so far to whether it returned no error and the
    requests then; [None] is a panic. *)
Definition method : Type := list Request -> option (bool * list Request).

Definition rpc (req : Request) : method := fun log => Some (svc log req, log ++ [req]).

Definition RouteSyncStart : method := rpc SyncStart.
Definition RouteSyncEnd : method := rpc SyncEnd.

Definition AddOrUpdateNextHopGroup (name netInst : string) (nexthops : list Addr) : method :=
  fun log =>
    match mapM addrToNDK nexthops with
    | None => None
    | Some nhList =>
        rpc (NextHopGroupAddOrUpdate [mkNextHopGroupInfo (mkNextHopGroupKey name netInst) nhList]) log
    end.

Definition DeleteNextHopGroups (netInst : string) (names : list string) : method := fun log =>
  match names with
  | [] => Some (true, log)
  | _ => rpc (NextHopGroupDelete ((fun name => mkNextHopGroupKey name netInst) <$> names)) log
  end.

Definition routeInfo (netInst : string) (r : RouteEntry) : option RouteInfo :=
  pfx ← prefixToNDK (RE_Prefix r);
  Some (mkRouteInfo (mkRouteKey netInst pfx)
          (mkRouteData (RE_NHGName r) routePreference (RE_Metric r))).

(** A prefix that does not parse is an error before anything is sent. *)
Definition AddOrUpdateRoutes (netInst : string) (routes : list RouteEntry) : method := fun log =>
  match routes with
  | [] => Some (true, log)
  | _ => match mapM (routeInfo netInst) routes with
         | None => Some (false, log)
         | Some infos => rpc (RouteAddOrUpdate infos) log
         end
  end.

Definition DeleteRoutes (netInst : string) (prefixes : list string) : method := fun log =>
  match prefixes with
  | [] => Some (true, log)
  | _ => match mapM (fun cidr => mkRouteKey netInst <$> prefixToNDK cidr) prefixes with
         | None => Some (false, log)
         | Some keys => rpc (RouteDelete keys) log
         end
  end.

End client.

(** ** The service *)

(** What a successful request does to the routes and groups of the agent. *)
Class RouteService := {
  Fib : Type;
  fib_init : Fib;
  fib_step : Request -> Fib -> Fib;
  fib_routes : Fib -> gmap RouteKey RouteData;
  fib_groups : Fib -> gmap NextHopGroupKey (list Z);
  fib_window : Fib -> gset RouteKey;   (* the routes added since SyncStart *)
  fib_start fib : fib_routes (fib_step SyncStart fib) = fib_routes fib /\
    fib_groups (fib_step SyncStart fib) = fib_groups fib /\
    fib_window (fib_step SyncStart fib) = ∅;
  fib_end fib : fib_routes (fib_step SyncEnd fib)
      = filter (fun kv => kv.1 ∈ fib_window fib) (fib_routes fib) /\
    fib_groups (fib_step SyncEnd fib) = fib_groups fib;
  fib_route_add rs fib :
    fib_routes (fib_step (RouteAddOrUpdate rs) fib)
      = foldl (fun m r => <[RI_Key r := RI_Data r]> m) (fib_routes fib) rs /\
    fib_groups (fib_step (RouteAddOrUpdate rs) fib) = fib_groups fib /\
    fib_window (fib_step (RouteAddOrUpdate rs) fib)
      = fib_window fib ∪ list_to_set (RI_Key <$> rs);
  fib_route_delete ks fib :
    fib_routes (fib_step (RouteDelete ks) fib) = foldl (fun m k => delete k m) (fib_routes fib) ks /\
    fib_groups (fib_step (RouteDelete ks) fib) = fib_groups fib;
  fib_group_add gs fib :
    fib_groups (fib_step (NextHopGroupAddOrUpdate gs) fib)
      = foldl (fun m g => <[GI_Key g := GI_Nexthops g]> m) (fib_groups fib) gs /\
    fib_routes (fib_step (NextHopGroupAddOrUpdate gs) fib) = fib_routes fib;
  fib_group_delete ks fib :
    fib_groups (fib_step (NextHopGroupDelete ks) fib)
      = foldl (fun m k => delete k m) (fib_groups fib) ks /\
    fib_routes (fib_step (NextHopGroupDelete ks) fib) = fib_routes fib
}.

(** The requests of a log that succeeded, applied in order. *)
Fixpoint fib_run {S : RouteService} (svc : list Request -> Request -> bool)
    (done todo : list Request) (fib : Fib) : Fib :=
  match todo with
  | [] => fib
  | req :: todo => fib_run svc (done ++ [req]) todo
                     (if svc done req then fib_step req fib else fib)
  end.

(** A service with the state the laws speak of. *)
Record table := mkTable {
  t_routes : gmap RouteKey RouteData;
  t_groups : gmap NextHopGroupKey (list Z);
  t_window : gset RouteKey
}.
#[export] Instance eta_table : Eta table :=
  fun t => mkTable (t_routes t) (t_groups t) (t_window t).

Definition table_step (req : Request) (t : table) : table :=
  match req with
  | SyncStart => t <| t_window := ∅ |>
  | SyncEnd => t <| t_routes := filter (fun kv => kv.1 ∈ t_window t) (t_routes t) |>
  | NextHopGroupAddOrUpdate gs =>
      t <| t_groups := foldl (fun m g => <[GI_Key g := GI_Nexthops g]> m) (t_groups t) gs |>
  | NextHopGroupDelete ks => t <| t_groups := foldl (fun m k => delete k m) (t_groups t) ks |>
  | RouteAddOrUpdate rs =>
      t <| t_routes := foldl (fun m r => <[RI_Key r := RI_Data r]> m) (t_routes t) rs |>
        <| t_window := t_window t ∪ list_to_set (RI_Key <$> rs) |>
  | RouteDelete ks => t <| t_routes := foldl (fun m k => delete k m) (t_routes t) ks |>
  end.

Definition tableService : RouteService.
Proof.
  refine {| Fib := table; fib_init := mkTable ∅ ∅ ∅; fib_step := table_step;
            fib_routes := t_routes; fib_groups := t_groups; fib_window := t_window |};
    intros; by repeat split.
Defined.
