(* ===== verification/NdkClient.v ===== *)
(** * NdkClient: registration with the NDK ([internal/ndk/client.go], [New] of
    [internal/agent/agent.go]).

    The calls on the gRPC connection are kept in order; [svc] answers each from
    the calls before it, [None] being an error of the call.  An answer has a
    status besides.  A method returns its result, or [None] for an error. *)

From S2P Require Import Prelude.

Inductive Subscription := SubInterface | SubConfig.

Inductive Call :=
  | Dial
  | AgentRegister (liveliness : Z)
  | NotificationCreate
  | NotificationSubscribe (streamID : Z) (sub : Subscription)
  | OpenStream (streamID : Z)
  | SendKeepAlive
  | TelemetryUpdate (jsPath json : string)
  | CloseConn.

Record Response := mkResponse {
  resp_success : bool;
  resp_AppId : Z;
  resp_StreamId : Z
}.

Record Client := mkClient {
  c_streamID : Z;
  c_appID : Z
}.

Definition keepaliveInterval : Z := 10.   (* seconds *)

Definition rpcs (A : Type) : Type := list Call -> option A * list Call.

#[export] Instance rpcs_ret : MRet rpcs := fun A a log => (Some a, log).
#[export] Instance rpcs_bind : MBind rpcs := fun A B f m log =>
  match m log with
  | (Some a, log) => f a log
  | (None, log) => (None, log)
  end.

(** [if err != nil { cleanup; return err }] *)
Definition orElse {A} (m : rpcs A) (cleanup : rpcs unit) : rpcs A := fun log =>
  match m log with
  | (None, log) => (None, (cleanup log).2)
  | r => r
  end.

Section client.
Variable svc : list Call -> Call -> option Response.

Definition failed {A} : rpcs A := fun log => (None, log).

Definition rpc (c : Call) : rpcs Response := fun log => (svc log c, log ++ [c]).

(** A call whose status must be success. *)
Definition rpcOk (c : Call) : rpcs Response :=
  resp ← rpc c;
  if resp_success resp then mret resp else failed.

(** [conn.Close]; its error is ignored. *)
Definition CloseClient : rpcs unit := fun log => (Some tt, log ++ [CloseConn]).

Definition NewClient : rpcs Client :=
  _ ← rpc Dial;
  regResp ← orElse (rpcOk (AgentRegister (uwrap 32 (uwrap 32 keepaliveInterval * 3)))) CloseClient;
  createResp ← orElse (rpcOk NotificationCreate) CloseClient;
  mret (mkClient (resp_StreamId createResp) (resp_AppId regResp)).

Definition SubscribeInterfaces (c : Client) : rpcs unit :=
  _ ← rpcOk (NotificationSubscribe (c_streamID c) SubInterface); mret tt.
Definition SubscribeConfig (c : Client) : rpcs unit :=
  _ ← rpcOk (NotificationSubscribe (c_streamID c) SubConfig); mret tt.

(** Only the error of the call counts for these. *)
Definition NotificationStream (c : Client) : rpcs unit :=
  _ ← rpc (OpenStream (c_streamID c)); mret tt.
Definition KeepAlive : rpcs unit := _ ← rpc SendKeepAlive; mret tt.

(** [json.Marshal] is applied before, [None] being its error. *)
Definition UpdateTelemetry (jsPath : string) (json : option string) : rpcs unit :=
  match json with
  | None => failed
  | Some json => _ ← rpc (TelemetryUpdate jsPath json); mret tt
  end.

(** [New] of the agent, as far as the client goes. *)
Definition newAgentClient : rpcs Client :=
  ndkClient ← NewClient;
  _ ← orElse (SubscribeInterfaces ndkClient) CloseClient;
  _ ← orElse (SubscribeConfig ndkClient) CloseClient;
  mret ndkClient.

(** The calls of a registration on stream [id]. *)
Definition registration (id : Z) : list Call :=
  [Dial; AgentRegister 30; NotificationCreate; NotificationSubscribe id SubInterface;
   NotificationSubscribe id SubConfig].

(** The answers to the calls of [todo] after those of [done] are successes. *)
Fixpoint all_succeed (done todo : list Call) : Prop :=
  match todo with
  | [] => True
  | c :: todo =>
      (exists r, svc done c = Some r /\ (c <> Dial -> resp_success r = true)) /\
      all_succeed (done ++ [c]) todo
  end.

Lemma rpcOk_cases c log :
  (exists r, rpcOk c log = (Some r, log ++ [c]) /\ svc log c = Some r /\ resp_success r = true) \/
  (rpcOk c log = (None, log ++ [c]) /\ forall r, svc log c = Some r -> resp_success r = false).
Proof.
  unfold rpcOk, rpc, mbind, rpcs_bind. destruct (svc log c) as [r|]; [|by right].
  destruct (resp_success r) eqn:E; [left; eauto|right]. split; [done|]. by intros r' [= <-].
Qed.

Lemma all_succeed_last done todo c : all_succeed done (todo ++ [c]) ->
  exists r, svc (done ++ todo) c = Some r /\ (c <> Dial -> resp_success r = true).
Proof.
  revert done. induction todo as [|c' todo IH]; intros done; cbn.
  - rewrite app_nil_r. by intros [? _].
  - intros [_ H%IH]. by rewrite <-app_assoc in H.
Qed.

(** A call that fails closes the connection. *)
Lemma refused id calls c : (calls ++ [c]) `prefix_of` registration id -> c <> Dial ->
  (forall r, svc calls c = Some r -> resp_success r = false) ->
  exists id' calls', (calls ++ [c]) ++ [CloseConn] = calls' ++ [CloseConn] /\
    calls' `prefix_of` registration id' /\ ~ all_succeed [] calls'.
Proof.
  intros Hp Hc Hf. exists id, (calls ++ [c]). split_and!; [done|done|].
  intros (r & Hr & Hs)%all_succeed_last. specialize (Hf r Hr). specialize (Hs Hc). congruence.
Qed.

(** C31: registering is all or nothing: it succeeds after the five calls of the
    registration, each of which succeeded, on the stream the service created;
    it fails either at the dial, or after calls that begin that registration,
    the last of which failed, and a single close of the connection. *)
Theorem newAgentClient_spec :
  match newAgentClient [] with
  | (Some c, log) => log = registration (c_streamID c) /\ all_succeed [] log /\
      exists r, svc [Dial; AgentRegister 30] NotificationCreate = Some r /\
                c_streamID c = resp_StreamId r
  | (None, log) =>
      (log = [Dial] /\ svc [] Dial = None) \/
      exists id calls, log = calls ++ [CloseConn] /\ calls `prefix_of` registration id /\
        ~ all_succeed [] calls
  end.
Proof.
  unfold newAgentClient, NewClient, SubscribeInterfaces, SubscribeConfig, orElse, mbind, rpcs_bind, mret, rpcs_ret.
  change (uwrap 32 (uwrap 32 keepaliveInterval * 3)) with 30.
  unfold rpc at 1. destruct (svc [] Dial) as [r0|] eqn:E0; [|by left]. cbn [app].
  destruct (rpcOk_cases (AgentRegister 30) [Dial]) as [(r1 & -> & E1 & S1)|[-> Hf]]; cbn [app].
  2:{ right. apply (refused 0 [Dial]); [eexists; reflexivity|discriminate|exact Hf]. }
  destruct (rpcOk_cases NotificationCreate [Dial; AgentRegister 30])
    as [(r2 & -> & E2 & S2)|[-> Hf]]; cbn [app].
  2:{ right. apply (refused 0 [Dial; AgentRegister 30]); [eexists; reflexivity|discriminate|exact Hf]. }
  set (id := resp_StreamId r2). cbn [c_streamID].
  destruct (rpcOk_cases (NotificationSubscribe id SubInterface)
    [Dial; AgentRegister 30; NotificationCreate]) as [(r3 & -> & E3 & S3)|[-> Hf]]; cbn [app].
  2:{ right. apply (refused id [Dial; AgentRegister 30; NotificationCreate]); [eexists; reflexivity|discriminate|exact Hf]. }
  destruct (rpcOk_cases (NotificationSubscribe id SubConfig)
    [Dial; AgentRegister 30; NotificationCreate; NotificationSubscribe id SubInterface])
    as [(r4 & -> & E4 & S4)|[-> Hf]]; cbn [app].
  2:{ right. apply (refused id [Dial; AgentRegister 30; NotificationCreate;
        NotificationSubscribe id SubInterface]); [eexists; reflexivity|discriminate|exact Hf]. }
  split_and!; [done| |by exists r2]. cbn.
  split_and!; [exists r0|exists r1|exists r2|exists r3|exists r4|exact I]; split; congruence.
Qed.

End client.
