(* ===== verification/Config.v ===== *)
(** * Config: the configuration ([internal/config/config.go]).

    [encoding/json] decodes the text of a notification; the model starts from
    the decoded [riftJSON] ([None] if the text is refused). *)

From Stdlib Require Import Strings.Ascii.
From S2P Require Import Prelude.
From S2P Require Import Netip.

Record Config := mkConfig {
  cfg_AdminState : string;
  cfg_SystemID : Z;
  cfg_Level : Z;
  cfg_Interfaces : gset string
}.
#[export] Instance eta_Config : Eta Config :=
  fun c => mkConfig (cfg_AdminState c) (cfg_SystemID c) (cfg_Level c) (cfg_Interfaces c).
#[export] Instance Config_eq_dec : EqDecision Config.
Proof. solve_decision. Defined.

Record riftJSON := mkRiftJSON {
  raw_AdminState : option string;
  raw_SystemID : option string;
  raw_Level : option Z   (* an int8 *)
}.

(** [fmt.Sscanf(s, "%d", &id)] for a [uint64], on ASCII text: spaces are skipped,
    at least one digit is needed, what follows the digits is left, and a number
    of 2^64 or more is an error. *)
Definition is_space (c : ascii) : bool :=
  bool_decide (Ascii.nat_of_ascii c ∈ [9; 11; 12; 13; 32]%nat).

Fixpoint skipSpace (s : list ascii) : list ascii :=
  match s with
  | c :: s' => if is_space c then skipSpace s' else s
  | [] => []
  end.

Fixpoint scanDigits (acc : option Z) (s : list ascii) : option Z :=
  match s with
  | [] => acc
  | c :: s' =>
      match digit c with
      | Some d => scanDigits (Some (default 0 acc * 10 + d)) s'
      | None => acc
      end
  end.

Definition scanUint64 (s : string) : option Z :=
  n ← scanDigits None (skipSpace (chars s)); if n <? 2 ^ 64 then Some n else None.

(** [None] is an error. *)
Definition ParseRiftData (data : option riftJSON) : option Config :=
  raw ← data;
  let adminState := default "enable"%string (raw_AdminState raw) in
  let level := default 0 (raw_Level raw) in
  match raw_SystemID raw with
  | None => Some (mkConfig adminState 0 level ∅)
  | Some s => id ← scanUint64 s; Some (mkConfig adminState (wrap 64 id) level ∅)
  end.

(** [strings.HasPrefix] and [strings.HasSuffix] on lists of characters. *)
Definition hasPrefix (s p : list ascii) : bool := bool_decide (take (length p) s = p).
Definition hasSuffix (s p : list ascii) : bool :=
  bool_decide (drop (length s - length p) s = p) && bool_decide (length p <= length s)%nat.

Definition quote : ascii := Ascii.ascii_of_nat 34.
Definition pathPrefix : list ascii := chars ".rift.interface{.name==" ++ [quote].
Definition pathSuffix : list ascii := [quote; "}"%char].

Inductive extracted :=
  | Found (name : list ascii)
  | NotFound
  | SlicePanic.   (* slice bounds out of range *)

(** The slice panics when prefix and suffix overlap. *)
Definition ExtractInterfaceName (pathWithKeys : list ascii) : extracted :=
  if negb (hasPrefix pathWithKeys pathPrefix) || negb (hasSuffix pathWithKeys pathSuffix)
  then NotFound
  else
    let lo := length pathPrefix in
    let hi := (length pathWithKeys - length pathSuffix)%nat in
    if bool_decide (hi < lo)%nat then SlicePanic
    else Found (take (hi - lo) (drop lo pathWithKeys)).

Definition Valid (c : Config) : bool :=
  negb (cfg_SystemID c =? 0) && bool_decide (cfg_Interfaces c <> ∅).

Definition HasInterface (c : Config) (name : string) : bool :=
  bool_decide (name ∈ cfg_Interfaces c).
