(* ===== verification/Notifications.v ===== *)
(** * Notifications: NDK notifications ([internal/ndk/notifications.go]).

    A notification is the protobuf message with the fields the handler reads; an
    absent submessage is [None], and the getters of the generated code then give
    the zero value.  [encoding/json] is the parameter [decode]: the text of a
    configuration is decoded here rather than in [ParseRiftData]. *)

From Stdlib Require Import Strings.Ascii.
From S2P Require Import Prelude.
From S2P Require Import Netip.
From S2P Require Import Config.

Record InterfaceEvent := mkInterfaceEvent {
  ie_Name : string;
  ie_AdminUp : bool;
  ie_OperUp : bool;
  ie_MTU : Z
}.

Record ConfigEvent := mkConfigEvent {
  ce_JSPath : string;
  ce_PathWithKeys : list ascii;
  ce_Keys : list string;
  ce_Data : option riftJSON   (* decoded *)
}.

Record InterfaceData := mkInterfaceData {
  id_AdminIsUp : Z;
  id_OperIsUp : Z;
  id_Mtu : Z
}.

Record ConfigKey := mkConfigKey {
  ck_JsPath : string;
  ck_JsPathWithKeys : string;
  ck_Keys : list string
}.

(** The key of an interface is its name, the data of a configuration its text. *)
Record Notification := mkNotification {
  nt_Interface : option (option string * option InterfaceData);
  nt_Config : option (option ConfigKey * option string)
}.

Inductive Event :=
  | OnInterface (ev : InterfaceEvent)
  | OnConfig (ev : ConfigEvent).

Section handler.
Variable decode : string -> option riftJSON.

(** What is sent to [InterfaceCh] or [ConfigCh]. *)
Definition handle (notif : Notification) : option Event :=
  match nt_Interface notif, nt_Config notif with
  | Some (key, data), _ =>
      let d := default (mkInterfaceData 0 0 0) data in
      Some (OnInterface (mkInterfaceEvent (default ""%string key)
        (id_AdminIsUp d =? 1) (id_OperIsUp d =? 1) (id_Mtu d)))
  | None, Some (key, data) =>
      let k := default (mkConfigKey "" "" []) key in
      Some (OnConfig (mkConfigEvent (ck_JsPath k) (chars (ck_JsPathWithKeys k)) (ck_Keys k)
        (decode (default ""%string data))))
  | None, None => None
  end.

(** The loop of [Run] over the responses of the stream. *)
Definition runHandler (responses : list (list Notification)) : list Event :=
  omap handle (concat responses).

End handler.
