(* ===== verification/Transport.v ===== *)
(** * Transport: what [internal/transport/udp.go] decides around its sockets.

    Opening a socket is input and output: whether it succeeds is an argument.
    What is received, dropped and sent is modelled. *)

From Stdlib Require Import Strings.Ascii.
From S2P Require Import Prelude.
From S2P Require Import Types.
From S2P Require Import Wire.
From S2P Require Import Envelope.
From S2P Require Import Netip.

(** [strings.Replace(s, old, new, 1)] *)
Fixpoint replaceFirst (s old new : list ascii) : list ascii :=
  if bool_decide (take (length old) s = old) then new ++ drop (length old) s
  else match s with
  | [] => []
  | c :: s' => c :: replaceFirst s' old new
  end.

Definition LinuxInterfaceNames (srlName : list ascii) : list ascii * list ascii :=
  let s := replaceFirst srlName (chars "ethernet-") (chars "e") in
  let s := replaceFirst s (chars "/") (chars "-") in
  (s, s ++ chars ".0").

Record ReceivedPacket := mkReceivedPacket {
  RP_Packet : ProtocolPacket;
  RP_SrcAddr : Addr;
  RP_IfName : string
}.

(** The fields of an [InterfaceTransport] that are read after its creation;
    [t_floodConn]: the flood socket is open. *)
Record InterfaceTransport := mkInterfaceTransport {
  t_ifName : string;
  t_localAddr : Addr;
  t_linkID : Z;
  t_floodConn : bool
}.
#[export] Instance eta_InterfaceTransport : Eta InterfaceTransport :=
  fun t => mkInterfaceTransport (t_ifName t) (t_localAddr t) (t_linkID t) (t_floodConn t).

(** [Unmap]: an IPv4-mapped IPv6 address becomes IPv4. *)
Definition Unmap (addr : Addr) : Addr :=
  match addr with
  | AddrV6 bs _ =>
      if bool_decide (take 12 bs = replicate 10 x00 ++ [xff; xff] /\ length bs = 16%nat)
      then AddrV4 (get_be (drop 12 bs)) else addr
  | _ => addr
  end.

(** [netip.AddrFromSlice] on the address of a [net.UDPAddr], then [Unmap]. *)
Definition extractAddr (ip : bytes) : option Addr :=
  if bool_decide (length ip = 4%nat) then Some (AddrV4 (get_be ip))
  else if bool_decide (length ip = 16%nat) then Some (Unmap (AddrV6 ip ""))
  else None.

(** One round of [FloodRecvLoop] after a successful read of [data] from [ip]. *)
Definition recvFlood (t : InterfaceTransport) (ip data : bytes) : option ReceivedPacket :=
  srcAddr ← extractAddr ip;
  if bool_decide (srcAddr = t_localAddr t) then None
  else match decodePacket data with
  | Ok pkt _ => Some (mkReceivedPacket pkt srcAddr (t_ifName t))
  | _ => None
  end.

(** One round of [RecvLoop]: as above, but only LIEs pass. *)
Definition recvLIE (t : InterfaceTransport) (ip data : bytes) : option ReceivedPacket :=
  srcAddr ← extractAddr ip;
  if bool_decide (srcAddr = t_localAddr t) then None
  else match decodePacket data with
  | Ok pkt _ =>
      match PC_LIE (PP_Content pkt) with
      | None => None
      | Some _ => Some (mkReceivedPacket pkt srcAddr (t_ifName t))
      end
  | _ => None
  end.

(** The flood socket: opening an open one does nothing. *)
Definition OpenFloodSocket (created : bool) (t : InterfaceTransport)
    : bool * InterfaceTransport :=
  if t_floodConn t then (true, t)
  else if created then (true, t <| t_floodConn := true |>) else (false, t).

Definition CloseFloodSocket (t : InterfaceTransport) : InterfaceTransport :=
  t <| t_floodConn := false |>.

Section send.
Context {R : MapRange}.

(** The datagram handed to the socket; [None] is an error. *)
Definition SendLIE (pkt : ProtocolPacket) : option bytes :=
  match encodePacket pkt with inl _ => None | inr data => Some data end.

Definition SendFlood (t : InterfaceTransport) (pkt : ProtocolPacket) (destAddr : Addr)
    (destPort remainingLifetime : Z) : option (bytes * Addr * Z) :=
  if negb (t_floodConn t) then None
  else match encodeFloodPacket pkt remainingLifetime with
  | inl _ => None
  | inr data => Some (data, destAddr, destPort)
  end.

End send.

(** ** Discovery

    An interface of the namespace as [net.Interfaces] lists it; [ni_Addrs] is the
    text of its addresses, [None] if they cannot be read.  Entering the namespace
    is input and output. *)

Record NetInterface := mkNetInterface {
  ni_Name : string;
  ni_Loopback : bool;
  ni_Addrs : option (list string)
}.

(** The address of four octets, and [Addr.IsLoopback] for it. *)
Definition rawAddr (raw : list Z) : Addr := AddrV4 (foldl (fun v o => v * 256 + o) 0 raw).

Definition IsLoopback (raw : list Z) : bool :=
  match raw with o :: _ => o =? 127 | [] => false end.

(** The first text that is an IPv4 prefix whose address satisfies [ok]. *)
Fixpoint firstIPv4 (ok : list Z -> bool) (addrs : list string) : option (Addr * Z) :=
  match addrs with
  | [] => None
  | a :: addrs =>
      match ParsePrefix a with
      | Some (raw, bits) => if ok raw then Some (rawAddr raw, bits) else firstIPv4 ok addrs
      | None => firstIPv4 ok addrs
      end
  end.

(** [net.InterfaceByName], then its first IPv4 prefix, or the address of that. *)
Definition DiscoverInterfacePrefix (ifaces : list NetInterface) (ifName : string)
    : option (Addr * Z) :=
  iface ← List.find (fun i => String.eqb (ni_Name i) ifName) ifaces;
  addrs ← ni_Addrs iface;
  firstIPv4 (fun _ => true) addrs.

Definition DiscoverInterfaceAddr (ifaces : list NetInterface) (ifName : string) : option Addr :=
  fst <$> DiscoverInterfacePrefix ifaces ifName.

(** An interface that [DiscoverAllPrefixes] skips. *)
Definition skipInterface (iface : NetInterface) : bool :=
  ni_Loopback iface || String.eqb (ni_Name iface) "gateway" || String.eqb (ni_Name iface) "mgmt0.0".

(** The prefix it takes of an interface. *)
Definition interfacePrefix (iface : NetInterface) : option (Addr * Z) :=
  if skipInterface iface then None
  else addrs ← ni_Addrs iface; firstIPv4 (fun raw => negb (IsLoopback raw)) addrs.

Definition discoverPrefix (result : gmap string (Addr * Z)) (iface : NetInterface)
    : gmap string (Addr * Z) :=
  match interfacePrefix iface with
  | Some prefix => <[ni_Name iface := prefix]> result
  | None => result
  end.

Definition DiscoverAllPrefixes (ifaces : list NetInterface) : gmap string (Addr * Z) :=
  foldl discoverPrefix ∅ ifaces.

(** Interfaces have different names. *)
Lemma DiscoverAllPrefixes_lookup ifaces name prefix : NoDup (ni_Name <$> ifaces) ->
  DiscoverAllPrefixes ifaces !! name = Some prefix <->
  exists iface, iface ∈ ifaces /\ ni_Name iface = name /\ interfacePrefix iface = Some prefix.
Proof.
  revert name prefix.
  induction ifaces as [|iface ifaces IH] using rev_ind; intros name prefix Hnd.
  { split; [done|]. by intros (? & ?%not_elem_of_nil & _). }
  rewrite fmap_app, NoDup_app in Hnd. destruct Hnd as (Hnd & Hfresh & _).
  unfold DiscoverAllPrefixes. rewrite foldl_app. cbn [foldl]. unfold discoverPrefix at 1.
  transitivity (name = ni_Name iface /\ interfacePrefix iface = Some prefix \/
                DiscoverAllPrefixes ifaces !! name = Some prefix).
  - assert (DiscoverAllPrefixes ifaces !! ni_Name iface = None) as Hn.
    { apply eq_None_not_Some. intros [p (i & Hi & Hname & _)%(IH _ _ Hnd)].
      apply (Hfresh (ni_Name iface)); [|by apply list_elem_of_singleton].
      rewrite <-Hname. by apply list_elem_of_fmap_2. }
    destruct (interfacePrefix iface) as [pr|]; [|naive_solver].
    rewrite lookup_insert. case_decide as Hd; [subst name|]; naive_solver congruence.
  - rewrite (IH _ _ Hnd). setoid_rewrite elem_of_app. setoid_rewrite list_elem_of_singleton. naive_solver.
Qed.

(** A text is acceptable, those before it are not. *)
Definition taken (ok : list Z -> bool) (addrs : list string) (addr : Addr) (len : Z) : Prop :=
  exists pre t post raw, addrs = pre ++ t :: post /\ ParsePrefix t = Some (raw, len) /\
    ok raw = true /\ addr = rawAddr raw /\
    forall u raw' l, u ∈ pre -> ParsePrefix u = Some (raw', l) -> ok raw' = false.

Lemma taken_later ok a addrs addr len : taken ok addrs addr len ->
  (forall raw' l, ParsePrefix a = Some (raw', l) -> ok raw' = false) ->
  taken ok (a :: addrs) addr len.
Proof.
  intros (pre & t & post & raw & -> & H1 & H2 & H3 & H4) Ha.
  exists (a :: pre), t, post, raw. split_and!; [done..|].
  intros u raw' l [->|Hu]%elem_of_cons; [apply Ha|by apply H4].
Qed.

Lemma firstIPv4_spec ok addrs addr len :
  firstIPv4 ok addrs = Some (addr, len) <-> taken ok addrs addr len.
Proof.
  split.
  - induction addrs as [|a addrs IH]; cbn; [done|]. intros H.
    destruct (ParsePrefix a) as [[raw b]|] eqn:Ep; [|apply taken_later; [by apply IH|congruence]].
    destruct (ok raw) eqn:Eo; [|apply taken_later; [by apply IH|congruence]].
    injection H as <- <-. exists [], a, addrs, raw. split_and!; [done..|].
    by intros u raw' l ?%elem_of_nil.
  - intros (pre & t & post & raw & -> & Hp & Ho & -> & Hpre).
    induction pre as [|u pre IH]; cbn; [by rewrite Hp, Ho|].
    rewrite IH by (intros u' raw' l Hu; apply (Hpre u' raw' l); by right).
    destruct (ParsePrefix u) as [[raw' l]|] eqn:Eu; [|done].
    by rewrite (Hpre u raw' l (list_elem_of_here _ _) Eu).
Qed.

Lemma firstIPv4_AddrV4 ok addrs addr bits : firstIPv4 ok addrs = Some (addr, bits) ->
  exists z, addr = AddrV4 z.
Proof.
  induction addrs as [|a addrs IH]; cbn; [done|].
  destruct (ParsePrefix a) as [[raw b]|]; [|done]. destruct (ok raw); [|done].
  intros [= <- <-]. by eexists.
Qed.

Lemma DiscoverAllPrefixes_AddrV4 ifaces name addr bits : NoDup (ni_Name <$> ifaces) ->
  DiscoverAllPrefixes ifaces !! name = Some (addr, bits) -> exists z, addr = AddrV4 z.
Proof.
  intros Hnd (iface & _ & _ & Hi)%DiscoverAllPrefixes_lookup; [|done].
  unfold interfacePrefix in Hi. destruct (skipInterface iface); [done|].
  destruct (ni_Addrs iface); [|done]. by eapply firstIPv4_AddrV4.
Qed.
