(* ===== verification/Sockets.v ===== *)
(** * Sockets: descriptors and network namespaces in [internal/transport/udp.go].

    The kernel's side of a thread is its namespace and its open descriptors; a
    system call succeeds or fails as the environment says, which is the
    parameter [env]: from the calls so far and the new one to its result.  The
    code runs as a state monad with errors and panics; [defer] runs its clean-up
    in every case.  The thread is locked while it is in another namespace, so
    that no other goroutine sees it there.

    Each of the functions repeats the lines of [inNamespace]. *)

From S2P Require Import Prelude.
From S2P Require Import Types.
From S2P Require Import FloodState.
From S2P Require Import Netip.
From S2P Require Import Transport.

(** ** The kernel *)

Inductive SockOpt :=
  | SO_REUSEADDR
  | SO_REUSEPORT
  | SO_BINDTODEVICE (device : string)
  | IP_ADD_MEMBERSHIP (group ifindex : Z)
  | IP_MULTICAST_IF (addr ifindex : Z)
  | IP_MULTICAST_TTL (ttl : Z)
  | IP_MULTICAST_LOOP (loop : Z).

(** A UDP socket: where it was created, its options in order, its address and
    port once bound. *)
Record Socket := mkSocket {
  sk_ns : string;
  sk_opts : list SockOpt;
  sk_bound : option (Z * Z)
}.
#[export] Instance eta_Socket : Eta Socket :=
  fun s => mkSocket (sk_ns s) (sk_opts s) (sk_bound s).

(** A namespace is named by its path. *)
Inductive Descriptor :=
  | NsFd (ns : string)
  | SockFd (s : Socket).

Inductive Syscall :=
  | Open (path : string)
  | Setns (ns : string)
  | InterfaceByName (name : string)
  | Interfaces
  | NewSocket
  | SetSockOpt (fd : nat) (o : SockOpt)
  | Bind (fd : nat) (addr port : Z)
  | FilePacketConn (fd : nat).

Record Kernel := mkKernel {
  k_ns : string;
  k_fds : gmap nat Descriptor;
  k_next : nat;
  k_calls : list Syscall
}.
#[export] Instance eta_Kernel : Eta Kernel :=
  fun k => mkKernel (k_ns k) (k_fds k) (k_next k) (k_calls k).

Inductive outcome (A : Type) :=
  | Returns (a : A)
  | Fails
  | Panics.
Arguments Returns {A}.
Arguments Fails {A}.
Arguments Panics {A}.

Definition sys (A : Type) : Type := Kernel -> outcome A * Kernel.

#[export] Instance sys_ret : MRet sys := fun A a k => (Returns a, k).
#[export] Instance sys_bind : MBind sys := fun A B f m k =>
  match m k with
  | (Returns a, k) => f a k
  | (Fails, k) => (Fails, k)
  | (Panics, k) => (Panics, k)
  end.

Definition defer {A} (cleanup : sys unit) (body : sys A) : sys A := fun k =>
  let '(r, k) := body k in (r, (cleanup k).2).

(** [if err := body; err != nil { cleanup; return err }] *)
Definition onError {A} (cleanup : sys unit) (body : sys A) : sys A := fun k =>
  match body k with
  | (Fails, k) => (Fails, (cleanup k).2)
  | r => r
  end.

Definition procNS : string := "/proc/self/ns/net".
Definition srbaseNS : string := "/var/run/netns/srbase".
Definition defaultNS : string := "/var/run/netns/srbase-default".

Definition riftMcastAddr : Z := 3758096505.   (* 224.0.0.121 *)
Definition riftLIEPort : Z := 914.
Definition riftFloodPort : Z := 915.

Section sockets.
Variable env : list Syscall -> Syscall -> option Z.
Variable hosts : string -> list NetInterface.   (* the interfaces of a namespace *)

Definition call (c : Syscall) : sys Z := fun k =>
  let k' := k <| k_calls := k_calls k ++ [c] |> in
  match env (k_calls k) c with
  | Some r => (Returns r, k')
  | None => (Fails, k')
  end.

Definition gets {A} (f : Kernel -> A) : sys A := fun k => (Returns (f k), k).
Definition modify (f : Kernel -> Kernel) : sys unit := fun k => (Returns tt, f k).
Definition fails {A} : sys A := fun k => (Fails, k).
Definition panics {A} : sys A := fun k => (Panics, k).

Definition alloc (d : Descriptor) : sys nat := fun k =>
  (Returns (k_next k), k <| k_fds := <[k_next k := d]> (k_fds k) |> <| k_next := S (k_next k) |>).

Definition close (fd : nat) : sys unit :=
  modify (fun k => k <| k_fds := delete fd (k_fds k) |>).

Definition open (path : string) : sys nat :=
  _ ← call (Open path);
  ns ← gets k_ns;
  alloc (NsFd (if String.eqb path procNS then ns else path)).

Definition setns (fd : nat) : sys unit :=
  d ← gets (fun k => k_fds k !! fd);
  match d with
  | Some (NsFd ns) => _ ← call (Setns ns); modify (fun k => k <| k_ns := ns |>)
  | _ => fails
  end.

Definition socket : sys nat :=
  _ ← call NewSocket; ns ← gets k_ns; alloc (SockFd (mkSocket ns [] None)).

(** A change of the socket behind a descriptor. *)
Definition onSocket (c : Syscall) (fd : nat) (f : Socket -> Socket) : sys unit :=
  d ← gets (fun k => k_fds k !! fd);
  match d with
  | Some (SockFd s) =>
      _ ← call c; modify (fun k => k <| k_fds := <[fd := SockFd (f s)]> (k_fds k) |>)
  | _ => fails
  end.

Definition setsockopt (fd : nat) (o : SockOpt) : sys unit :=
  onSocket (SetSockOpt fd o) fd (fun s => s <| sk_opts := sk_opts s ++ [o] |>).

Definition bind (fd : nat) (addr port : Z) : sys unit :=
  onSocket (Bind fd addr port) fd (fun s => s <| sk_bound := Some (addr, port) |>).

(** A duplicate of the descriptor. *)
Definition filePacketConn (fd : nat) : sys nat :=
  d ← gets (fun k => k_fds k !! fd);
  match d with
  | Some (SockFd s) => _ ← call (FilePacketConn fd); alloc (SockFd s)
  | _ => fails
  end.

Definition interfaceByName (name : string) : sys Z := call (InterfaceByName name).

(** [Addr.As4]. *)
Definition as4 (addr : Addr) : sys Z :=
  match As4 addr with
  | Some a => mret a
  | None => panics
  end.

(** ** The functions *)

Definition inNamespace {A} (path : string) (body : sys A) : sys A :=
  origNS ← open procNS;
  defer (close origNS) (
    target ← open path;
    defer (close target) (
      _ ← setns target;
      defer (setns origNS) body)).

Definition getIfIndexInNS (ifName path : string) : sys Z :=
  inNamespace path (interfaceByName ifName).

(** [os.NewFile], [net.FilePacketConn] and the [Close] of the file. *)
Definition wrapConn (fd : nat) : sys nat := defer (close fd) (filePacketConn fd).

Definition createMcastRecvSocket (parentIf : string) : sys nat :=
  inNamespace srbaseNS (
    index ← interfaceByName parentIf;
    fd ← socket;
    _ ← onError (close fd) (setsockopt fd SO_REUSEADDR);
    _ ← onError (close fd) (setsockopt fd SO_REUSEPORT);
    _ ← onError (close fd) (setsockopt fd (SO_BINDTODEVICE parentIf));
    _ ← onError (close fd) (bind fd 0 riftLIEPort);
    _ ← onError (close fd) (setsockopt fd (IP_ADD_MEMBERSHIP riftMcastAddr (wrap 32 index)));
    wrapConn fd).

Definition createMcastSendSocket (localAddr : Addr) (subIf : string) : sys nat :=
  inNamespace defaultNS (
    index ← interfaceByName subIf;
    fd ← socket;
    _ ← onError (close fd) (setsockopt fd SO_REUSEADDR);
    addr4 ← as4 localAddr;
    _ ← onError (close fd) (bind fd addr4 0);
    _ ← onError (close fd) (setsockopt fd (IP_MULTICAST_IF addr4 (wrap 32 index)));
    _ ← onError (close fd) (setsockopt fd (IP_MULTICAST_TTL 1));
    _ ← onError (close fd) (setsockopt fd (IP_MULTICAST_LOOP 0));
    wrapConn fd).

Definition createUnicastSocket (localAddr : Addr) (subIf : string) : sys nat :=
  inNamespace defaultNS (
    fd ← socket;
    _ ← onError (close fd) (setsockopt fd SO_REUSEADDR);
    _ ← onError (close fd) (setsockopt fd SO_REUSEPORT);
    _ ← onError (close fd) (setsockopt fd (SO_BINDTODEVICE subIf));
    addr4 ← as4 localAddr;
    _ ← onError (close fd) (bind fd addr4 riftFloodPort);
    wrapConn fd).

(** The connections of an [InterfaceTransport]. *)
Record Conns := mkConns {
  recvConn : nat;
  sendConn : nat;
  floodConn : option nat
}.

Definition subName (srlName : string) : string :=
  String.string_of_list_ascii (LinuxInterfaceNames (chars srlName)).2.
Definition parentName (srlName : string) : string :=
  String.string_of_list_ascii (LinuxInterfaceNames (chars srlName)).1.

(** [New]. *)
Definition newTransport (srlName : string) (localAddr : Addr) : sys (InterfaceTransport * Conns) :=
  linkID ← getIfIndexInNS (subName srlName) defaultNS;
  recv ← createMcastRecvSocket (parentName srlName);
  send ← onError (close recv) (createMcastSendSocket localAddr (subName srlName));
  mret (mkInterfaceTransport srlName localAddr (wrap 32 linkID) false, mkConns recv send None).

Definition discoverInterfaceAddr (ifName : string) : sys Addr :=
  inNamespace defaultNS (
    _ ← interfaceByName ifName;
    ns ← gets k_ns;
    match DiscoverInterfaceAddr (hosts ns) ifName with Some addr => mret addr | None => fails end).

(** Never called. *)
Definition discoverInterfacePrefix (ifName : string) : sys (Addr * Z) :=
  inNamespace defaultNS (
    _ ← interfaceByName ifName;
    ns ← gets k_ns;
    match DiscoverInterfacePrefix (hosts ns) ifName with Some p => mret p | None => fails end).

Definition discoverAllPrefixes : sys (gmap string (Addr * Z)) :=
  inNamespace defaultNS (
    _ ← call Interfaces;
    ns ← gets k_ns;
    mret (DiscoverAllPrefixes (hosts ns))).

(** The two calls with which [startInterfaceLocked] begins. *)
Definition startTransport (srlName : string) : sys (InterfaceTransport * Conns) :=
  localAddr ← discoverInterfaceAddr (subName srlName);
  newTransport srlName localAddr.

(** [OpenFloodSocket], [CloseFloodSocket] and [Close]. *)
Definition openFlood (t : InterfaceTransport) (cs : Conns) : sys Conns :=
  match floodConn cs with
  | Some _ => mret cs
  | None =>
      conn ← createUnicastSocket (t_localAddr t) (subName (t_ifName t));
      mret (mkConns (recvConn cs) (sendConn cs) (Some conn))
  end.

Definition closeFlood (cs : Conns) : sys Conns :=
  match floodConn cs with
  | Some conn => _ ← close conn; mret (mkConns (recvConn cs) (sendConn cs) None)
  | None => mret cs
  end.

Definition closeTransport (cs : Conns) : sys unit :=
  _ ← close (recvConn cs);
  _ ← close (sendConn cs);
  match floodConn cs with Some conn => close conn | None => mret tt end.

End sockets.
