(* ===== verification/SocketTheorems.v ===== *)
(** * SocketTheorems: no function of [udp.go] leaks a descriptor, and none leaves
    the thread in another namespace unless going back fails.

    [spec_if] says of a piece of code that it leaves the descriptors of its caller
    as they were, which it adds when it succeeds, and how the thread's namespace
    after it relates to the one before: [spec] is for code that stays in one
    namespace, [runs] for a function that enters another and comes back.  [owns]
    is [spec] for code that holds a socket it must close or hand on. *)

From S2P Require Import Prelude.
From S2P Require Import Types.
From S2P Require Import FloodState.
From S2P Require Import Netip.
From S2P Require Import Transport.
From S2P Require Import Sockets.

(** The open descriptors are [F]; descriptors are not reused here. *)
Definition st (F : gmap nat Descriptor) (k : Kernel) : Prop :=
  k_fds k = F /\ forall fd, (k_next k <= fd)%nat -> F !! fd = None.

(** The thread has not changed its namespace. *)
Definition quiet (k k' : Kernel) : Prop :=
  k_ns k' = k_ns k /\ k_calls k `prefix_of` k_calls k'.

(** The thread is back in its namespace, unless in between a call that takes it
    there failed. *)
Definition returned (env : list Syscall -> Syscall -> option Z) (k k' : Kernel) : Prop :=
  k_calls k `prefix_of` k_calls k' /\
  (k_ns k' = k_ns k \/
   exists calls, env calls (Setns (k_ns k)) = None /\ k_calls k `prefix_of` calls /\
                 calls ++ [Setns (k_ns k)] `prefix_of` k_calls k').

Definition spec_if {A} (rel : Kernel -> Kernel -> Prop)
    (C : string -> gmap nat Descriptor -> Prop) (m : sys A)
    (post : A -> gmap nat Descriptor -> Prop) : Prop :=
  forall F k, C (k_ns k) F -> st F k ->
    match m k with
    | (Returns a, k') => exists D, D ##ₘ F /\ post a D /\ st (D ∪ F) k' /\ rel k k'
    | (Fails, k') => st F k' /\ rel k k'
    | (Panics, _) => False
    end.

Notation spec ns := (spec_if quiet (fun ns' _ => ns' = ns)).
Notation runs env := (spec_if (returned env) (fun _ _ => True)).

Definition owns {A} (ns : string) (fd : nat) (s : Socket) (m : sys A)
    (post : A -> gmap nat Descriptor -> Prop) : Prop :=
  forall F k, k_ns k = ns -> F !! fd = None -> st (<[fd := SockFd s]> F) k ->
    match m k with
    | (Returns a, k') => exists D, D ##ₘ F /\ post a D /\ st (D ∪ F) k' /\ quiet k k'
    | (Fails, k') => st F k' /\ quiet k k'
    | (Panics, _) => False
    end.

(** A result without descriptors. *)
Definition only {A} (P : A -> Prop) (a : A) (D : gmap nat Descriptor) : Prop := D = ∅ /\ P a.

(** A new connection for a socket that satisfies [P]. *)
Definition conn (P : Socket -> Prop) (fd : nat) (D : gmap nat Descriptor) : Prop :=
  exists s, P s /\ D = {[fd := SockFd s]}.

#[export] Instance quiet_preorder : PreOrder quiet.
Proof.
  split; [done|]. intros k1 k2 k3 [H1 P1] [H2 P2]. split; [congruence|by etrans].
Qed.

#[export] Instance returned_preorder env : PreOrder (returned env).
Proof.
  split; [split; [done|by left]|]. intros k1 k2 k3 [P1 H1] [P2 H2]. split; [by etrans|].
  destruct H1 as [H1|(calls & He & Hp & Hq)].
  - rewrite H1 in H2. destruct H2 as [H2|(calls & He & Hp & Hq)]; [by left|right].
    exists calls. split_and!; [done|by etrans|done].
  - right. exists calls. split_and!; [done|done|by etrans].
Qed.

Lemma quiet_returned env k k' : quiet k k' -> returned env k k'.
Proof. intros [H P]. split; [done|by left]. Qed.

(** A condition on the state that [rel] preserves. *)
Class Stays (rel : Kernel -> Kernel -> Prop) (C : string -> gmap nat Descriptor -> Prop) :=
  stays F k k' : C (k_ns k) F -> rel k k' -> C (k_ns k') F.

#[export] Instance stays_quiet ns : Stays quiet (fun ns' _ => ns' = ns).
Proof. intros F k k' <- [H _]. exact H. Qed.
#[export] Instance stays_any rel : Stays rel (fun _ _ => True).
Proof. done. Qed.

Section rules.
Variable env : list Syscall -> Syscall -> option Z.

Lemma st_calls F k cs : st F k -> st F (k <| k_calls := cs |>).
Proof. done. Qed.

Lemma st_alloc F k d : st F k ->
  F !! k_next k = None /\
  st (<[k_next k := d]> F) (k <| k_fds := <[k_next k := d]> (k_fds k) |> <| k_next := S (k_next k) |>).
Proof.
  intros (<- & Hf). split; [by apply Hf|]. split; [done|].
  intros fd Hfd. cbn in Hfd. rewrite lookup_insert_ne by lia. apply Hf. lia.
Qed.

Lemma st_delete F k fd : st F k -> st (delete fd F) (k <| k_fds := delete fd (k_fds k) |>).
Proof.
  intros (<- & Hf). split; [done|]. intros fd' Hfd'.
  apply lookup_delete_None. right. by apply Hf.
Qed.

(** Closing what was opened on top of [F] gives [F] back. *)
Lemma st_close F k fd d : F !! fd = None -> st (<[fd := d]> F) k -> st F (close fd k).2.
Proof. intros HF Hk%(st_delete _ _ fd). by rewrite delete_insert_id in Hk. Qed.

(** A call, and what does not change namespace or calls, is quiet. *)
Lemma quiet_call k k' c : k_ns k' = k_ns k -> k_calls k' = k_calls k ++ [c] -> quiet k k'.
Proof. intros Hn Hc. split; [done|]. rewrite Hc. by apply prefix_app_r. Qed.

(** The result of code that adds no descriptor. *)
Lemma spec_nothing {A} rel C (m : sys A) (P : A -> Prop) :
  (forall F k, C (k_ns k) F -> st F k ->
     match m k with
     | (Returns a, k') => P a /\ st F k' /\ rel k k'
     | (Fails, k') => st F k' /\ rel k k'
     | (Panics, _) => False
     end) -> spec_if rel C m (only P).
Proof.
  intros Hm F k HC Hk. specialize (Hm F k HC Hk). destruct (m k) as [[a| |] k']; [|done|done].
  destruct Hm as (HP & H1 & H2). exists ∅. rewrite (left_id_L ∅ (∪)).
  split; [apply map_disjoint_empty_l|]. split; [done|by split].
Qed.

Lemma spec_call ns c : spec ns (call env c) (only (fun _ => True)).
Proof.
  apply spec_nothing. intros F k _ Hk. unfold call. cbv zeta.
  destruct (env (k_calls k) c); split_and!; try done; by apply quiet_call with c.
Qed.

Lemma spec_mono {A} rel C (m : sys A) (post post' : A -> gmap nat Descriptor -> Prop) :
  spec_if rel C m post -> (forall a D, post a D -> post' a D) -> spec_if rel C m post'.
Proof.
  intros Hm Hp F k HC Hk. specialize (Hm F k HC Hk). destruct (m k) as [[a| |] k']; [|done|done].
  destruct Hm as (D & ? & ? & ?). eauto.
Qed.

Lemma spec_bind {A B} rel C `{!PreOrder rel, !Stays rel C} (m : sys A) (f : A -> sys B)
    (P : A -> Prop) post :
  spec_if rel C m (only P) -> (forall a, P a -> spec_if rel C (f a) post) ->
  spec_if rel C (m ≫= f) post.
Proof.
  intros Hm Hf F k HC Hk. unfold mbind, sys_bind. specialize (Hm F k HC Hk).
  destruct (m k) as [[a| |] k1]; [|done|done].
  destruct Hm as (D & _ & [-> HP] & Hk1 & Hr). rewrite (left_id_L ∅ (∪)) in Hk1.
  specialize (Hf a HP F k1 (stays _ _ _ HC Hr) Hk1).
  destruct (f a k1) as [[b| |] k2]; [|destruct Hf; split; [done|by etrans]|done].
  destruct Hf as (D & ? & ? & ? & Hr2). exists D. split_and!; [done|done|done..|by etrans].
Qed.

Lemma spec_ret {A} ns (a : A) (P : A -> Prop) : P a -> spec ns (mret a) (only P).
Proof. intros HP. by apply spec_nothing. Qed.

Lemma spec_gets_ns ns : spec ns (gets k_ns) (only (fun a => a = ns)).
Proof. by apply spec_nothing. Qed.

Lemma spec_fails {A} ns post : spec_if quiet (fun ns' _ => ns' = ns) (fails (A := A)) post.
Proof. by intros F k _ Hk. Qed.

(** A new socket is owned by what follows. *)
Lemma spec_socket {A} ns (f : nat -> sys A) post :
  (forall fd, owns ns fd (mkSocket ns [] None) (f fd) post) -> spec ns (socket env ≫= f) post.
Proof.
  intros Hf F k <- Hk. unfold socket, call, mbind, sys_bind. cbv zeta.
  destruct (env (k_calls k) NewSocket); [|split; [done|]; by apply quiet_call with NewSocket]. cbn.
  destruct (st_alloc _ _ (SockFd (mkSocket (k_ns k) [] None))
    (st_calls _ _ (k_calls k ++ [NewSocket]) Hk)) as [Hfr Hst].
  cbn in Hfr, Hst. set (k1 := mkKernel _ _ _ _) in *.
  assert (quiet k k1) as Hq by by apply quiet_call with NewSocket.
  pose proof (Hf (k_next k) F k1 eq_refl Hfr Hst) as G.
  destruct (f (k_next k) k1) as [[a| |] k']; [|destruct G as [G1 G2]|done].
  - destruct G as (D & ? & ? & ? & G). exists D. split_and!; try done. by etrans.
  - split; [done|by etrans].
Qed.

(** A step that changes the socket, and closes it if it fails. *)
Lemma owns_step {A} ns fd s c f (m : sys A) post :
  owns ns fd (f s) m post -> owns ns fd s (_ ← onError (close fd) (onSocket env c fd f); m) post.
Proof.
  intros Hm F k Hn HF Hk. pose proof Hk as (HFk & Hfresh).
  unfold onError, onSocket, mbind, sys_bind, gets, call, modify. cbv zeta.
  rewrite HFk, lookup_insert_eq. destruct (env (k_calls k) c); cbn.
  - set (k1 := mkKernel _ _ _ _).
    assert (quiet k k1) as Hq by by apply quiet_call with c.
    assert (st (<[fd := SockFd (f s)]> F) k1) as Hk1.
    { split; [unfold k1; cbn; by rewrite HFk, insert_insert_eq|].
      intros fd' Hfd'. specialize (Hfresh fd' Hfd').
      rewrite lookup_insert_None in *. naive_solver. }
    specialize (Hm F k1 Hn HF Hk1). destruct (m k1) as [[a| |] k']; [|destruct Hm as [Hm1 Hm2]|done].
    + destruct Hm as (D & ? & ? & ? & Hm). exists D. split_and!; try done. by etrans.
    + split; [done|by etrans].
  - split; [|by apply quiet_call with c].
    by apply (st_close F (mkKernel (k_ns k) (k_fds k) (k_next k) (k_calls k ++ [c])) fd (SockFd s)).
Qed.

Lemma owns_setsockopt {A} ns fd s o (m : sys A) post :
  owns ns fd (s <| sk_opts := sk_opts s ++ [o] |>) m post ->
  owns ns fd s (_ ← onError (close fd) (setsockopt env fd o); m) post.
Proof. apply (owns_step ns fd s _ (fun s => s <| sk_opts := sk_opts s ++ [o] |>)). Qed.

Lemma owns_bind {A} ns fd s addr port (m : sys A) post :
  owns ns fd (s <| sk_bound := Some (addr, port) |>) m post ->
  owns ns fd s (_ ← onError (close fd) (bind env fd addr port); m) post.
Proof. apply (owns_step ns fd s _ (fun s => s <| sk_bound := Some (addr, port) |>)). Qed.

Lemma owns_as4 {A} ns fd s z (f : Z -> sys A) post :
  owns ns fd s (f z) post -> owns ns fd s (as4 (AddrV4 z) ≫= f) post.
Proof. done. Qed.

(** The connection replaces the socket. *)
Lemma owns_wrapConn ns fd s (P : Socket -> Prop) :
  P s -> owns ns fd s (wrapConn env fd) (conn P).
Proof.
  intros HP F k Hn HF Hk. pose proof Hk as (HFk & Hfresh).
  unfold wrapConn, defer, filePacketConn, mbind, sys_bind, gets, call, alloc, close, modify. cbv zeta.
  rewrite HFk, lookup_insert_eq. destruct (env (k_calls k) (FilePacketConn fd)); cbn.
  - assert (fd < k_next k)%nat as Hlt.
    { apply not_le. intros Hle. specialize (Hfresh fd Hle). by rewrite lookup_insert_eq in Hfresh. }
    assert (F !! k_next k = None) as HFn.
    { specialize (Hfresh (k_next k) (le_n _)). by apply lookup_insert_None in Hfresh as [? _]. }
    exists {[k_next k := SockFd s]}. split_and!; [by apply map_disjoint_singleton_l|by exists s| |].
    2:{ by apply quiet_call with (FilePacketConn fd). }
    unfold st; cbn. split_and!.
    + rewrite HFk, delete_insert_ne by lia. rewrite delete_insert_id by done. by rewrite insert_union_singleton_l.
    + intros fd' Hfd'. rewrite <-insert_union_singleton_l, lookup_insert_ne by lia.
      assert (k_next k <= fd')%nat as Hle by lia. specialize (Hfresh fd' Hle).
      by apply lookup_insert_None in Hfresh as [? _].
  - split; [|by apply quiet_call with (FilePacketConn fd)].
    by apply (st_close F (mkKernel (k_ns k) (k_fds k) (k_next k) (k_calls k ++ [FilePacketConn fd])) fd (SockFd s)).
Qed.

(** ** Entering a namespace and coming back *)

Lemma spec_open {A} C path (f : nat -> sys A) post :
  (forall fd, spec_if (returned env) (fun ns F =>
     F !! fd = Some (NsFd (if String.eqb path procNS then ns else path)) /\ C ns (delete fd F))
     (f fd) post) ->
  spec_if (returned env) C (open env path ≫= fun fd => defer (close fd) (f fd)) post.
Proof.
  intros Hf F k HC Hk. unfold open, call, defer, mbind, sys_bind. cbv zeta.
  destruct (env (k_calls k) (Open path));
    [|split; [done|]; apply quiet_returned; by apply quiet_call with (Open path)]. cbn.
  destruct (st_alloc _ _ (NsFd (if String.eqb path procNS then k_ns k else path))
    (st_calls _ _ (k_calls k ++ [Open path]) Hk)) as [Hfr Hst].
  cbn in Hfr, Hst. set (k1 := mkKernel _ _ _ _) in *.
  assert (returned env k k1) as Hr by (apply quiet_returned; by apply quiet_call with (Open path)).
  pose proof (Hf (k_next k) _ k1 (conj (lookup_insert_eq _ _ _)
    (eq_ind_r (C (k_ns k)) HC (delete_insert_id F _ _ Hfr))) Hst) as G.
  destruct (f (k_next k) k1) as [[a| |] k']; [|destruct G as [G1 G2]|done].
  - destruct G as (D & HD & Hp & G & Gr).
    apply map_disjoint_insert_r in HD as [HDn HD]. exists D. split_and!; [done|done| |].
    + apply (st_delete _ _ (k_next k)) in G.
      rewrite delete_union, delete_insert_id, (delete_id D) in G by done. exact G.
    + etrans; [exact Hr|exact Gr].
  - split; [exact (st_close _ _ _ _ Hfr G1)|]. etrans; [exact Hr|exact G2].
Qed.

(** Going back: the thread is there, or the call failed. *)
Lemma setns_back F k origNS home :
  F !! origNS = Some (NsFd home) -> st F k ->
  let k' := (setns env origNS k).2 in
  st F k' /\ k_calls k' = k_calls k ++ [Setns home] /\
  (k_ns k' = home \/ env (k_calls k) (Setns home) = None).
Proof.
  intros Ho [HF Hf]. unfold setns, mbind, sys_bind, gets, call, modify. cbv zeta.
  rewrite HF, Ho. destruct (env (k_calls k) (Setns home)); cbn; split_and!; try done; auto.
Qed.

Lemma spec_enter {A} origNS target path (body : sys A) post :
  spec path body post ->
  spec_if (returned env) (fun home F => F !! target = Some (NsFd path) /\
                            (delete target F !! origNS = Some (NsFd home) /\ True))
    (_ ← setns env target; defer (setns env origNS) body) post.
Proof.
  intros Hb F k (Ht & [_ Ho]%lookup_delete_Some & _) Hk. pose proof Hk as (HF & Hfresh).
  unfold defer, mbind, sys_bind, setns at 1, mbind, sys_bind, gets. rewrite HF, Ht.
  unfold mbind, sys_bind, call, modify. cbv zeta.
  destruct (env (k_calls k) (Setns path));
    [|split; [done|]; apply quiet_returned; by apply quiet_call with (Setns path)]. cbn.
  set (k1 := mkKernel path _ _ _).
  assert (k_calls k `prefix_of` k_calls k1) as Hp1 by by apply prefix_app_r.
  assert (forall k2 F', quiet k1 k2 -> st F' k2 -> F' !! origNS = Some (NsFd (k_ns k)) ->
    st F' (setns env origNS k2).2 /\ returned env k (setns env origNS k2).2) as Hback.
  { intros k2 F' [_ Hp2] Hk2 Ho2. destruct (setns_back _ _ _ _ Ho2 Hk2) as (H1 & H2 & H3).
    split; [done|]. assert (k_calls k `prefix_of` k_calls k2) as Hp by by etrans.
    split; [rewrite H2; by apply prefix_app_r|]. destruct H3 as [H3|H3]; [by left|right].
    exists (k_calls k2). by rewrite H2. }
  specialize (Hb F k1 eq_refl Hk).
  destruct (body k1) as [[a| |] k2]; [|destruct Hb as [Hb1 Hb2]; by apply Hback|done].
  destruct Hb as (D & HD & Hp & Hk2 & Hq). exists D.
  destruct (Hback k2 (D ∪ F)) as [? ?]; [done|done|by apply lookup_union_Some_r|]. by split_and!.
Qed.

Lemma spec_inNamespace {A} path (body : sys A) post :
  path <> procNS -> spec path body post -> runs env (inNamespace env path body) post.
Proof.
  intros Hp Hb. unfold inNamespace. apply spec_open. intros origNS. apply spec_open. intros target.
  rewrite (proj2 (String.eqb_neq _ _) Hp). rewrite String.eqb_refl. by apply spec_enter.
Qed.

(** Two acquisitions: if the second fails, the first is released. *)
Lemma spec_second {A B} (m : sys nat) (m' : sys A) (f : nat -> A -> B) P post post' :
  runs env m (conn P) -> runs env m' post ->
  (forall fd s a D, P s -> D !! fd = None -> post a D -> post' (f fd a) (<[fd := SockFd s]> D)) ->
  runs env (fd ← m; a ← onError (close fd) m'; mret (f fd a)) post'.
Proof.
  intros Hm Hm' Hf F k _ Hk. unfold mbind, sys_bind. specialize (Hm F k I Hk).
  destruct (m k) as [[fd| |] k1]; [|done|done]. destruct Hm as (D & HD & (s & Hs & ->) & Hk1 & Hr1).
  specialize (Hm' _ k1 I Hk1). unfold onError.
  apply map_disjoint_singleton_l in HD. rewrite <-insert_union_singleton_l in *.
  destruct (m' k1) as [[a| |] k2]; [|destruct Hm' as [Hm1 Hr2]|done].
  - destruct Hm' as (D & HD2 & Hp & Hk2 & Hr2). apply map_disjoint_insert_r in HD2 as [HDn HD2].
    exists (<[fd := SockFd s]> D). split_and!.
    + by apply map_disjoint_insert_l.
    + by apply (Hf fd s).
    + rewrite <-insert_union_l, insert_union_r by done. exact Hk2.
    + by etrans.
  - split; [exact (st_close _ _ _ _ HD Hm1)|]. etrans; [exact Hr1|exact Hr2].
Qed.

End rules.

(** ** The functions *)

(** The sockets they make. *)
Definition recvSocket (parentIf : string) (index : Z) : Socket :=
  mkSocket srbaseNS [SO_REUSEADDR; SO_REUSEPORT; SO_BINDTODEVICE parentIf;
    IP_ADD_MEMBERSHIP riftMcastAddr (wrap 32 index)] (Some (0, riftLIEPort)).
Definition sendSocket (addr index : Z) : Socket :=
  mkSocket defaultNS [SO_REUSEADDR; IP_MULTICAST_IF addr (wrap 32 index); IP_MULTICAST_TTL 1;
    IP_MULTICAST_LOOP 0] (Some (addr, 0)).
Definition floodSocket (addr : Z) (subIf : string) : Socket :=
  mkSocket defaultNS [SO_REUSEADDR; SO_REUSEPORT; SO_BINDTODEVICE subIf] (Some (addr, riftFloodPort)).

Section functions.
Variable env : list Syscall -> Syscall -> option Z.

Ltac configure :=
  repeat lazymatch goal with
  | |- owns _ _ _ (mbind _ (onError _ (setsockopt _ _ _))) _ => apply owns_setsockopt
  | |- owns _ _ _ (mbind _ (onError _ (bind _ _ _ _))) _ => apply owns_bind
  | |- owns _ _ _ (mbind _ (as4 _)) _ => apply owns_as4
  | |- owns _ _ _ (wrapConn _ _) _ => apply owns_wrapConn
  end.

Lemma spec_createMcastRecvSocket parentIf :
  runs env (createMcastRecvSocket env parentIf) (conn (fun s => exists i, s = recvSocket parentIf i)).
Proof.
  apply spec_inNamespace; [done|]. eapply spec_bind; [apply _..|apply spec_call|]. intros index _.
  apply spec_socket. intros fd. configure. by exists index.
Qed.

Lemma spec_createMcastSendSocket z subIf :
  runs env (createMcastSendSocket env (AddrV4 z) subIf) (conn (fun s => exists i, s = sendSocket z i)).
Proof.
  apply spec_inNamespace; [done|]. eapply spec_bind; [apply _..|apply spec_call|]. intros index _.
  apply spec_socket. intros fd. configure. by exists index.
Qed.

Lemma spec_createUnicastSocket z subIf :
  runs env (createUnicastSocket env (AddrV4 z) subIf) (conn (eq (floodSocket z subIf))).
Proof. apply spec_inNamespace; [done|]. apply spec_socket. intros fd. by configure. Qed.

Lemma spec_discoverInterfaceAddr hosts ifName :
  runs env (discoverInterfaceAddr env hosts ifName)
    (only (fun addr => DiscoverInterfaceAddr (hosts defaultNS) ifName = Some addr)).
Proof.
  apply spec_inNamespace; [done|]. eapply spec_bind; [apply _..|apply spec_call|]. intros _ _.
  eapply spec_bind; [apply _..|apply spec_gets_ns|]. intros ns ->.
  destruct (DiscoverInterfaceAddr _ _); [by apply spec_ret|apply spec_fails].
Qed.

Lemma spec_discoverAllPrefixes hosts :
  runs env (discoverAllPrefixes env hosts)
    (only (fun m => m = DiscoverAllPrefixes (hosts defaultNS))).
Proof.
  apply spec_inNamespace; [done|]. eapply spec_bind; [apply _..|apply spec_call|]. intros _ _.
  eapply spec_bind; [apply _..|apply spec_gets_ns|]. intros ns ->. by apply spec_ret.
Qed.

(** The transport and the descriptors of a started interface. *)
Definition started_with (addr : Addr) (srlName : string) (t : InterfaceTransport) (cs : Conns)
    (D : gmap nat Descriptor) : Prop :=
  exists z i j linkID, addr = AddrV4 z /\ t = mkInterfaceTransport srlName addr linkID false /\
    recvConn cs <> sendConn cs /\ floodConn cs = None /\
    D = {[recvConn cs := SockFd (recvSocket (parentName srlName) i);
          sendConn cs := SockFd (sendSocket z j)]}.

Lemma spec_newTransport srlName z :
  runs env (newTransport env srlName (AddrV4 z))
    (fun r D => started_with (AddrV4 z) srlName r.1 r.2 D).
Proof.
  unfold newTransport. eapply spec_bind with (P := fun _ => True); [apply _..| |].
  { apply spec_inNamespace; [done|]. apply spec_call. }
  intros linkID _. eapply spec_second.
  - apply spec_createMcastRecvSocket.
  - apply spec_createMcastSendSocket.
  - intros recv s send D [i ->] HD (s' & [j ->] & ->).
    apply lookup_singleton_None in HD. by exists z, i, j, (wrap 32 linkID).
Qed.

Lemma DiscoverInterfaceAddr_AddrV4 ifaces ifName addr :
  DiscoverInterfaceAddr ifaces ifName = Some addr -> exists z, addr = AddrV4 z.
Proof.
  unfold DiscoverInterfaceAddr, DiscoverInterfacePrefix.
  destruct (List.find _ _) as [i|]; [|done]. cbn. destruct (ni_Addrs i) as [addrs|]; [|done]. cbn.
  destruct (firstIPv4 _ addrs) as [[a b]|] eqn:E; [|done]. intros [= <-]. by eapply firstIPv4_AddrV4.
Qed.

(** ** Theorems *)

(** C30: whichever system calls fail, starting an interface leaks nothing: an error
    leaves the open descriptors as they were, and success adds exactly the two
    sockets of the transport, set up as the protocol wants them, which closing the
    transport takes away again.  In each case the thread is back in the namespace
    it started in, unless the very call that takes it back failed in between,
    which the code ignores. *)
Theorem startTransport_safe hosts srlName F k (Hk : st F k) :
  match startTransport env hosts srlName k with
  | (Returns (t, cs), k') => exists addr D,
      DiscoverInterfaceAddr (hosts defaultNS) (subName srlName) = Some addr /\
      started_with addr srlName t cs D /\ D ##ₘ F /\ st (D ∪ F) k' /\
      st F (closeTransport cs k').2 /\ returned env k k'
  | (Fails, k') => st F k' /\ returned env k k'
  | (Panics, _) => False
  end.
Proof.
  assert (runs env (startTransport env hosts srlName) (fun r D => exists addr,
    DiscoverInterfaceAddr (hosts defaultNS) (subName srlName) = Some addr /\
    started_with addr srlName r.1 r.2 D)) as H.
  { eapply spec_bind; [apply _..|apply spec_discoverInterfaceAddr|]. intros addr Ha.
    destruct (DiscoverInterfaceAddr_AddrV4 _ _ _ Ha) as [z ->].
    eapply spec_mono; [apply spec_newTransport|]. cbn. eauto. }
  specialize (H F k I Hk). destruct (startTransport _ _ _ k) as [[[t cs]| |] k']; [|done|done].
  destruct H as (D & HD & (addr & Ha & Hs) & Hk' & Hr). exists addr, D. cbn in Hs. split_and!; try done.
  destruct Hs as (z & i & j & linkID & _ & _ & Hne & Hf & ->). unfold closeTransport.
  apply map_disjoint_insert_l in HD as [Hd HD]. apply map_disjoint_singleton_l in HD.
  rewrite <-insert_union_l, <-insert_union_singleton_l in Hk'. rewrite Hf.
  apply st_close in Hk'; [|by rewrite lookup_insert_ne]. by apply st_close in Hk'.
Qed.

(** The flood socket of an IPv4 transport. *)
Lemma openFlood_safe t cs z F k (Ht : t_localAddr t = AddrV4 z) (Hcs : floodConn cs = None)
    (Hk : st F k) :
  match openFlood env t cs k with
  | (Returns cs', k') => exists fd, floodConn cs' = Some fd /\ F !! fd = None /\
      st (<[fd := SockFd (floodSocket z (subName (t_ifName t)))]> F) k' /\
      openFlood env t cs' k' = (Returns cs', k') /\ st F (closeFlood cs' k').2 /\
      returned env k k'
  | (Fails, k') => st F k' /\ returned env k k'
  | (Panics, _) => False
  end.
Proof.
  unfold openFlood at 1. rewrite Hcs, Ht. unfold mbind, sys_bind.
  pose proof (spec_createUnicastSocket z (subName (t_ifName t)) F k I Hk) as H.
  destruct (createUnicastSocket _ _ _ k) as [[fd| |] k']; [|done|done].
  destruct H as (D & HD & (s & <- & ->) & Hk' & Hr). apply map_disjoint_singleton_l in HD.
  rewrite <-insert_union_singleton_l in Hk'. exists fd. split_and!; try done.
  by apply st_close in Hk'.
Qed.

End functions.

(** An environment in which every call succeeds. *)
Definition sample_env (_ : list Syscall) (_ : Syscall) : option Z := Some 7.
Definition sample_hosts (_ : string) : list NetInterface :=
  [mkNetInterface "e1-1.0" false (Some ["10.1.0.1/31"%string])].
Definition sample_kernel : Kernel := mkKernel "mgmt" {[0%nat := NsFd "mgmt"]} 3 [].

Lemma startTransport_safe_witness : exists t cs k',
  startTransport sample_env sample_hosts "ethernet-1/1" sample_kernel = (Returns (t, cs), k') /\
  k_ns k' = "mgmt"%string /\ k_fds (closeTransport cs k').2 = {[0%nat := NsFd "mgmt"]}.
Proof.
  pose proof (startTransport_safe sample_env sample_hosts
    "ethernet-1/1" {[0%nat := NsFd "mgmt"]} sample_kernel) as H.
  assert (st {[0%nat := NsFd "mgmt"]} sample_kernel) as Hst.
  { split; [done|]. cbn. intros fd Hfd. apply lookup_singleton_ne. lia. }
  specialize (H Hst). destruct (startTransport _ _ _ sample_kernel) as [[[t cs]| |] k'] eqn:E.
  - destruct H as (addr & D & _ & _ & _ & _ & Hc & _ & Hn). exists t, cs, k'.
    split; [reflexivity|]. split; [|apply Hc].
    destruct Hn as [Hn|(calls & He & _)]; [exact Hn|discriminate He].
  - vm_compute in E. discriminate E.
  - destruct H.
Defined.

(** The result of going back is ignored: when it fails the function returns, and
    the thread is unlocked, in the other namespace. *)
Definition stuck_env (calls : list Syscall) (c : Syscall) : option Z :=
  match c with Setns ns => if String.eqb ns "mgmt" then None else Some 0 | _ => Some 7 end.

Lemma lost_namespace : exists index k',
  getIfIndexInNS stuck_env "e1-1.0" defaultNS sample_kernel = (Returns index, k') /\
  k_ns k' = defaultNS.
Proof. eexists _, _. split; vm_compute; reflexivity. Qed.
