(* ===== verification/Agent.v ===== *)
(** * Agent: the agent's event loop ([internal/agent/agent.go], [disagg.go]).

    The handlers are state functions; what they send to the flood engine and to
    the route service is kept in order in the state.  The outside is a [World]:
    whether an interface can be started and with which link identifier, whether
    a flood socket opens, and how the service answers; it is an argument of
    every handler, so that it may differ from call to call.

    A [*config.Config] is an allocation number with the current value: the code
    compares the pointers before and after an event.  Telemetry is in [Telemetry.v]. *)

From Stdlib Require Import Strings.Ascii.
From S2P Require Import Prelude.
From S2P Require Import Types.
From S2P Require Import Lsdb.
From S2P Require Import FloodState.
From S2P Require Import LieFsm.
From S2P Require Import Spf.
From S2P Require Import PrioQueue.
From S2P Require Import SpfEngine.
From S2P Require Import Disagg.
From S2P Require Import Netip.
From S2P Require Import Ndk.
From S2P Require Import Config.
From S2P Require Import Notifications.
From S2P Require Import Transport.

Record World := mkWorld {
  w_start : string -> option Z;             (* DiscoverInterfaceAddr and transport.New *)
  w_addr : string -> Addr;                  (* the address discovered *)
  w_flood : string -> bool;                 (* createUnicastSocket *)
  w_svc : list Request -> Request -> bool
}.

Record programmedRoute := mkProgrammedRoute {
  pr_nhgName : string;
  pr_metric : Z;
  pr_nhAddrs : list Addr
}.

(** [is_floodCancel]: a flood receive loop runs. *)
Record interfaceState := mkInterfaceState {
  is_transport : InterfaceTransport;
  is_fsm : FSM;
  is_floodCancel : bool
}.
#[export] Instance eta_interfaceState : Eta interfaceState :=
  fun i => mkInterfaceState (is_transport i) (is_fsm i) (is_floodCancel i).

Record Agent := mkAgent {
  a_cfg : option (nat * Config);
  a_pendingCfg : option (nat * Config);
  a_nextCfg : nat;
  a_interfaces : gmap string interfaceState;
  a_AdjChangeCh : list AdjacencyChange;
  a_DisaggUpdateCh : option (list PrefixEntry);   (* capacity 1 *)
  a_spfEngine : Engine;
  a_spfTimer : bool;                              (* armed *)
  a_spfRuns : Z;
  a_lastDisaggPrefixes : list PrefixEntry;
  a_programmedRIB : gmap string programmedRoute;
  a_requests : list Request
}.
#[export] Instance eta_Agent : Eta Agent :=
  fun a => mkAgent (a_cfg a) (a_pendingCfg a) (a_nextCfg a) (a_interfaces a) (a_AdjChangeCh a)
    (a_DisaggUpdateCh a) (a_spfEngine a) (a_spfTimer a) (a_spfRuns a) (a_lastDisaggPrefixes a)
    (a_programmedRIB a) (a_requests a).

(** ** Configuration events *)

Definition addInterface (name : string) (c : nat * Config) : nat * Config :=
  (c.1, c.2 <| cfg_Interfaces := {[name]} ∪ cfg_Interfaces c.2 |>).

(** The interface an event names: from its path, else its first key; [None] in
    the second case is no name, and the whole is [None] on a panic. *)
Definition eventInterface (ev : ConfigEvent) : option (option string) :=
  match ExtractInterfaceName (ce_PathWithKeys ev) with
  | Found name => Some (Some (String.string_of_list_ascii name))
  | NotFound => Some (head (ce_Keys ev))
  | SlicePanic => None
  end.

(** [None]: the slice in [ExtractInterfaceName] panics. *)
Definition processConfigEvent (ev : ConfigEvent) (a : Agent) : option Agent :=
  if String.eqb (ce_JSPath ev) ".rift" then
    match ParseRiftData (ce_Data ev) with
    | None => Some a
    | Some cfg =>
        Some (a <| a_pendingCfg := Some (a_nextCfg a, cfg) |> <| a_nextCfg := S (a_nextCfg a) |>)
    end
  else if String.eqb (ce_JSPath ev) ".rift.interface" then
    name ← eventInterface ev;
    match name with
    | None => Some a
    | Some ifName =>
        match a_pendingCfg a, a_cfg a with
        | Some c, _ => Some (a <| a_pendingCfg := Some (addInterface ifName c) |>)
        | None, Some c => Some (a <| a_cfg := Some (addInterface ifName c) |>)
        | None, None => Some a
        end
    end
  else if String.eqb (ce_JSPath ev) ".commit.end" then
    match a_pendingCfg a with
    | Some c => Some (a <| a_cfg := Some c |> <| a_pendingCfg := None |>)
    | None => Some a
    end
  else Some a.

(** [waitForConfig] returns. *)
Definition configReady (a : Agent) : bool :=
  match a_cfg a with Some (_, c) => Valid c | None => false end.

(** ** Interfaces *)

(** [fmt.Sprintf] of the node name. *)
Definition nodeName (systemID : Z) : string := ("rift-" ++ formatInt systemID)%string.

(** A new transport and a new FSM with the identity configured now. *)
Definition newInterface (w : World) (c : Config) (srlName : string) (linkID : Z)
    : interfaceState :=
  mkInterfaceState (mkInterfaceTransport srlName (w_addr w srlName) linkID false)
    (NewFSM (cfg_SystemID c) (cfg_Level c) (nodeName (cfg_SystemID c)) srlName linkID) false.

(** Its callers have checked that there is a configuration. *)
Definition startInterfaceLocked (w : World) (srlName : string) (a : Agent) : Agent :=
  match a_interfaces a !! srlName, a_cfg a with
  | None, Some (_, c) =>
      match w_start w srlName with
      | None => a   (* an error, logged *)
      | Some linkID =>
          a <| a_interfaces := <[srlName := newInterface w c srlName linkID]> (a_interfaces a) |>
      end
  | _, _ => a
  end.

Definition stopInterfaceLocked (name : string) (a : Agent) : Agent :=
  a <| a_interfaces := delete name (a_interfaces a) |>.

Definition configured (a : Agent) (name : string) : bool :=
  match a_cfg a with Some (_, c) => HasInterface c name | None => false end.

Definition handleInterfaceEvent (w : World) (ev : InterfaceEvent) (a : Agent) : Agent :=
  if negb (configured a (ie_Name ev)) then a
  else
    let running := bool_decide (is_Some (a_interfaces a !! ie_Name ev)) in
    if negb (ie_AdminUp ev) && negb (ie_OperUp ev) && (ie_MTU ev =? 0) then a
    else if ie_OperUp ev && negb running then startInterfaceLocked w (ie_Name ev) a
    else if negb (ie_OperUp ev) && running then stopInterfaceLocked (ie_Name ev) a
    else a.

Section agent.
Context {R : MapRange} {Q : Type} {PQ : PriorityQueue Q}.

Definition startConfiguredInterfaces (w : World) (a : Agent) : Agent :=
  match a_cfg a with
  | None => a
  | Some (_, c) => foldl (fun a ifName => startInterfaceLocked w ifName a) a
                     (range_set (cfg_Interfaces c))
  end.

(** The two loops of [handleConfigChange]. *)
Definition stopUnconfigured (c : Config) (a : Agent) : Agent :=
  foldl (fun a name => if HasInterface c name then a else stopInterfaceLocked name a) a
    (range_map (a_interfaces a)).*1.

Definition startConfigured (w : World) (c : Config) (a : Agent) : Agent :=
  foldl (fun a ifName =>
    if bool_decide (is_Some (a_interfaces a !! ifName)) then a
    else startInterfaceLocked w ifName a) a (range_set (cfg_Interfaces c)).

Definition handleConfigChange (w : World) (ev : ConfigEvent) (a : Agent) : option Agent :=
  let oldCfg := fst <$> a_cfg a in
  a ← processConfigEvent ev a;
  if negb (String.eqb (ce_JSPath ev) ".commit.end") || bool_decide (fst <$> a_cfg a = oldCfg)
  then Some a
  else match a_cfg a with
  | None => Some a
  | Some (_, c) =>
      if negb (Valid c) then Some a
      else Some (startConfigured w c (stopUnconfigured c a))
  end.

(** ** Adjacency events *)

Definition adjacencyInfo (ifName : string) (localID : Z) (n : NeighborState) : AdjacencyInfo :=
  mkAdjacencyInfo ifName (NS_SystemID n) (NS_Level n) (NS_Address n) (NS_FloodPort n) localID
    (NS_LinkID n).

Definition setInterface (name : string) (i : interfaceState) (a : Agent) : Agent :=
  a <| a_interfaces := <[name := i]> (a_interfaces a) |>.

Definition sendAdjChange (change : AdjacencyChange) (a : Agent) : Agent :=
  a <| a_AdjChangeCh := a_AdjChangeCh a ++ [change] |>.

Definition handleAdjacencyEvent (w : World) (ev : AdjacencyEvent) (a : Agent) : Agent :=
  let name := AE_InterfaceName ev in
  match a_interfaces a !! name with
  | None => a
  | Some iface =>
      match AE_State ev, AE_Neighbor ev with
      | ThreeWay, Some nbr =>
          let '(opened, tr) := OpenFloodSocket (w_flood w name) (is_transport iface) in
          if negb opened then a
          else sendAdjChange
            (mkAdjacencyChange name (Some (adjacencyInfo name (t_linkID tr) nbr)))
            (setInterface name (iface <| is_transport := tr |> <| is_floodCancel := true |>) a)
      | ThreeWay, None => a
      | _, _ =>
          setInterface name (iface <| is_transport := CloseFloodSocket (is_transport iface) |>
                                   <| is_floodCancel := false |>)
            (sendAdjChange (mkAdjacencyChange name None) a)
      end
  end.

(** ** Programming routes *)

Definition replaceAll (old new : ascii) (s : list ascii) : list ascii :=
  (fun c => if bool_decide (c = old) then new else c) <$> s.

Definition nhgName (prefix : string) : string :=
  String.string_of_list_ascii
    (chars "rift_" ++ replaceAll "/" "_" (chars prefix) ++ chars "_sdk").

Fixpoint nhAddrsEqual (a b : list Addr) : bool :=
  match a, b with
  | [], [] => true
  | x :: a, y :: b => bool_decide (x = y) && nhAddrsEqual a b
  | _, _ => false
  end.

(** What one route of the new RIB asks for. *)
Definition programmed (prefix : string) (route : Route) : programmedRoute :=
  mkProgrammedRoute (nhgName prefix) (uwrap 32 (Route_Metric route))
    (NH_Address <$> Route_NextHops route).

Definition routeEntry (prefix : string) (route : Route) : RouteEntry :=
  mkRouteEntry prefix (nhgName prefix) (uwrap 32 (Route_Metric route)).

Record plan := mkPlan {
  p_allRoutes : list RouteEntry;
  p_nhgsToUpdate : list (string * list Addr);
  p_newProgrammed : gmap string programmedRoute
}.

(** One round of the loop over the new RIB. *)
Definition planRoute (old : gmap string programmedRoute) (p : plan) (kv : string * Route) : plan :=
  let '(prefix, route) := kv in
  match Route_NextHops route with
  | [] => p
  | _ =>
      let pr := programmed prefix route in
      let unchanged := match old !! prefix with
                       | Some prev => nhAddrsEqual (pr_nhAddrs prev) (pr_nhAddrs pr)
                       | None => false
                       end in
      mkPlan (p_allRoutes p ++ [routeEntry prefix route])
        (if unchanged then p_nhgsToUpdate p
         else p_nhgsToUpdate p ++ [(pr_nhgName pr, pr_nhAddrs pr)])
        (<[prefix := pr]> (p_newProgrammed p))
  end.

Definition planRoutes (old : gmap string programmedRoute) (newRIB : RIB) : plan :=
  foldl (planRoute old) (mkPlan [] [] ∅) (range_map newRIB).

Definition staleNHGs (old new : gmap string programmedRoute) : list string :=
  nhgName <$> filter (fun prefix => new !! prefix = None) (range_map old).*1.

(** The creation of groups: an error is logged and the loop goes on. *)
Fixpoint updateNHGs (svc : list Request -> Request -> bool) (nhgs : list (string * list Addr))
    (log : list Request) : option (list Request) :=
  match nhgs with
  | [] => Some log
  | (name, addrs) :: nhgs =>
      '(_, log) ← AddOrUpdateNextHopGroup svc name networkInstance addrs log;
      updateNHGs svc nhgs log
  end.

(** The programmed routes and the requests after a sync; [None] is a panic. *)
Definition syncRoutes (svc : list Request -> Request -> bool) (newRIB : RIB)
    (old : gmap string programmedRoute) (log : list Request)
    : option (gmap string programmedRoute * list Request) :=
  let p := planRoutes old newRIB in
  if bool_decide (p_allRoutes p = []) && bool_decide (old = ∅) then Some (old, log)
  else
    let stale := staleNHGs old (p_newProgrammed p) in
    log ← updateNHGs svc (p_nhgsToUpdate p) log;
    '(started, log) ← RouteSyncStart svc log;
    if negb started then Some (old, log)
    else
      '(_, log) ← AddOrUpdateRoutes svc networkInstance (p_allRoutes p) log;
      '(_, log) ← RouteSyncEnd svc log;
      '(_, log) ← DeleteNextHopGroups svc networkInstance stale log;
      Some (p_newProgrammed p, log).

Definition withdrawAllRoutes (svc : list Request -> Request -> bool)
    (old : gmap string programmedRoute) (log : list Request)
    : option (gmap string programmedRoute * list Request) :=
  if bool_decide (old = ∅) then Some (old, log)
  else
    let prefixes := (range_map old).*1 in
    '(_, log) ← DeleteRoutes svc networkInstance prefixes log;
    '(_, log) ← DeleteNextHopGroups svc networkInstance (nhgName <$> prefixes) log;
    Some (∅, log).

(** ** Disaggregation and the SPF timer *)

Definition disaggEntry (dp : DisaggPrefix) : PrefixEntry :=
  mkPrefixEntry (DP_Prefix dp) (zeroPrefixAttributes <| PA_Metric := DP_Distance dp |>).

(** The channel of capacity 1 is emptied and written by this goroutine alone, so
    that the send never blocks. *)
Definition runDisaggregation (entries : LSDB) (adjs : gmap string AdjacencyInfo) (a : Agent)
    : Agent :=
  match SouthRIB (a_spfEngine a), a_cfg a with
  | Some southRIB, Some (_, c) =>
      let prefixes := disaggEntry <$>
        ComputeDisaggregation (cfg_SystemID c) (cfg_Level c) adjs entries southRIB in
      a <| a_lastDisaggPrefixes := prefixes |> <| a_DisaggUpdateCh := Some prefixes |>
  | _, _ => a
  end.

(** Above the leaves. *)
Definition maybeDisaggregate (entries : LSDB) (adjs : gmap string AdjacencyInfo) (a : Agent)
    : Agent :=
  match a_cfg a with
  | Some (_, c) => if cfg_Level c >? LeafLevel then runDisaggregation entries adjs a else a
  | None => a
  end.

(** The arm of the debounce timer: SPF, disaggregation, routes.  The flood engine
    runs meanwhile: SPF and disaggregation read the LSDB and the adjacencies
    each for itself ([entries'], [adjs'] the second time).  [None]: the search
    does not end within its bound, or a panic. *)
Definition handleSpfTimer (w : World) (entries : LSDB) (adjs : gmap string AdjacencyInfo)
    (entries' : LSDB) (adjs' : gmap string AdjacencyInfo) (a : Agent) : option Agent :=
  e ← Run entries adjs (a_spfEngine a);
  let a := a <| a_spfTimer := false |> <| a_spfEngine := e |>
             <| a_spfRuns := uwrap 64 (a_spfRuns a + 1) |> in
  let a := maybeDisaggregate entries' adjs' a in
  '(rib, log) ← syncRoutes (w_svc w) (RIBOf e) (a_programmedRIB a) (a_requests a);
  Some (a <| a_programmedRIB := rib |> <| a_requests := log |>).

Definition handleLSDBChange (a : Agent) : Agent := a <| a_spfTimer := true |>.

(** [Close]. *)
Definition Close (w : World) (a : Agent) : option Agent :=
  '(rib, log) ← withdrawAllRoutes (w_svc w) (a_programmedRIB a) (a_requests a);
  Some (foldl (fun a name => stopInterfaceLocked name a)
    (a <| a_programmedRIB := rib |> <| a_requests := log |>)
    (range_map (a_interfaces a)).*1).

(** ** Start *)

(** The prefixes of the local interfaces, by Linux name; [None] is a panic on an
    address that is not IPv4. *)
Definition localPrefix (kv : string * (Addr * Z)) : option LocalPrefix :=
  let '(ifName, (addr, bits)) := kv in
  if String.eqb ifName "system0.0" then
    p ← IPv4ToPrefix addr 32; Some (mkLocalPrefix p true 1)
  else p ← IPv4ToPrefix addr (wrap 8 bits); Some (mkLocalPrefix p false 1).

Definition discoverLocalPrefixes (allPrefixes : gmap string (Addr * Z)) : option (list LocalPrefix) :=
  mapM localPrefix (range_map allPrefixes).

Definition NewAgent : Agent :=
  mkAgent None None O ∅ [] None (NewEngine 0 0) false 0 [] ∅ [].

(** [Run] once the configuration is ready: the engines get the identity it has
    now, and the configured interfaces are started. *)
Definition startEngines (w : World) (allPrefixes : gmap string (Addr * Z)) (a : Agent)
    : option (Agent * FloodEngine) :=
  '(_, c) ← a_cfg a;
  prefixes ← discoverLocalPrefixes allPrefixes;
  Some (startConfiguredInterfaces w
          (a <| a_spfEngine := NewEngine (cfg_SystemID c) (cfg_Level c) |>),
        NewFloodEngine (cfg_SystemID c) (cfg_Level c) (nodeName (cfg_SystemID c)) prefixes).

(** ** Relays *)

(** [floodSendLoop]: the interface, datagram, address and port; [None] if the
    packet is dropped. *)
Definition floodSend (a : Agent) (fp : FloodPacket) : option (string * (bytes * Addr * Z)) :=
  iface ← a_interfaces a !! FP_InterfaceName fp;
  out ← SendFlood (is_transport iface) (FP_Packet fp) (FP_DestAddr fp) (FP_DestPort fp)
          (FP_RemainingLifetime fp);
  Some (FP_InterfaceName fp, out).

(** [floodRecvRelay]; [addrString] is [Addr.String], whose result nothing reads. *)
Definition floodRecv (addrString : Addr -> string) (rp : ReceivedPacket) : ReceivedFloodPkt :=
  mkReceivedFloodPkt (RP_Packet rp) (addrString (RP_SrcAddr rp)) (RP_IfName rp).

End agent.
