(* ===== verification/Telemetry.v ===== *)
(** * Telemetry: what the agent publishes about itself (the telemetry functions of
    [internal/agent/agent.go]).

    The published structs are modelled up to their encoding as JSON.  The text of
    an address is the parameter [addrString].  [%q] is [strconv.Quote], given here
    on ASCII text. *)

From Stdlib Require Import Strings.Ascii.
From S2P Require Import Prelude.
From S2P Require Import Types.
From S2P Require Import Lsdb.
From S2P Require Import FloodState.
From S2P Require Import LieFsm.
From S2P Require Import Spf.
From S2P Require Import SpfEngine.
From S2P Require Import Netip.
From S2P Require Import Config.
From S2P Require Import Agent.

(** ** Quoting *)

Definition hexDigit (n : nat) : ascii :=
  Ascii.ascii_of_nat (if (n <? 10)%nat then 48 + n else 87 + n).

Definition backslash : ascii := Ascii.ascii_of_nat 92.

(** A control character. *)
Definition escapeControl (n : nat) : list ascii :=
  match n with
  | 7 => [backslash; "a"%char]
  | 8 => [backslash; "b"%char]
  | 9 => [backslash; "t"%char]
  | 10 => [backslash; "n"%char]
  | 11 => [backslash; "v"%char]
  | 12 => [backslash; "f"%char]
  | 13 => [backslash; "r"%char]
  | _ => [backslash; "x"%char; hexDigit (n / 16); hexDigit (n mod 16)]
  end%nat.

Definition escape (c : ascii) : list ascii :=
  let n := Ascii.nat_of_ascii c in
  if bool_decide (c = quote \/ c = backslash) then [backslash; c]
  else if (32 <=? n)%nat && (n <? 127)%nat then [c]
  else escapeControl n.

Definition Quote (s : list ascii) : list ascii := [quote] ++ (s ≫= escape) ++ [quote].

(** ** Adjacencies *)

Definition StateString (s : State) : string :=
  match s with
  | OneWay => "one-way"
  | TwoWay => "two-way"
  | ThreeWay => "three-way"
  | MultipleNeighborsWait => "multiple-neighbors-wait"
  end.

Record adjacencyTelemetry := mkAdjacencyTelemetry {
  adt_State : string;
  adt_NeighborSystemID : option Z;
  adt_NeighborLevel : option Z;
  adt_NeighborAddress : string
}.

Definition interfacePath (name : string) : list ascii :=
  chars ".rift.interface{.name==" ++ Quote (chars name) ++ ["}"%char].

Section telemetry.
Context {R : MapRange}.
Variable addrString : Addr -> string.

(** The path and the struct that are published. *)
Definition updateAdjacencyTelemetry (ev : AdjacencyEvent) : list ascii * adjacencyTelemetry :=
  (interfacePath (AE_InterfaceName ev),
   match AE_Neighbor ev with
   | Some n => mkAdjacencyTelemetry (StateString (AE_State ev))
                 (Some (NS_SystemID n)) (Some (NS_Level n)) (addrString (NS_Address n))
   | None => mkAdjacencyTelemetry (StateString (AE_State ev)) None None ""
   end).

(** ** The state *)

Record lsdbTIESummary := mkLsdbTIESummary {
  ts_Direction : string;
  ts_Originator : Z;
  ts_TIEType : string;
  ts_TIENr : Z;
  ts_SequenceNumber : Z;
  ts_RemainingLifetime : Z;
  ts_SelfOriginated : bool
}.

Definition tieSummary (id : TIEID) (entry : LSDBEntry) : lsdbTIESummary :=
  mkLsdbTIESummary
    (if Direction id =? TieDirectionNorth then "north" else "south")
    (Originator id)
    (if TIEType id =? TIETypePrefixTIEType then "prefix"
     else if TIEType id =? TIETypePositiveDisaggregationPrefixTIEType
     then "positive-disaggregation" else "node")
    (TIENr id)
    (SeqNr (TIE_Header (Entry_Packet entry)))
    (Entry_RemainingLifetime entry)
    (Entry_SelfOriginated entry).

Definition formatTIE (t : lsdbTIESummary) : string :=
  ts_Direction t ++ "-" ++ ts_TIEType t ++ ":" ++ formatInt (ts_Originator t) ++ "#" ++
  formatInt (ts_TIENr t) ++ "-seq" ++ formatInt (ts_SequenceNumber t) ++ "-lt" ++
  formatInt (ts_RemainingLifetime t) ++ (if ts_SelfOriginated t then " (self)" else "").

(** [strings.Join(parts, sep)] *)
Fixpoint join (sep : string) (parts : list string) : string :=
  match parts with
  | [] => ""
  | [p] => p
  | p :: parts => p ++ sep ++ join sep parts
  end.

Definition formatLSDBSummary (ties : list lsdbTIESummary) : string :=
  match ties with [] => "empty" | _ => join " | " (formatTIE <$> ties) end.

Definition disaggSummaryString (a : Agent) : string :=
  match a_lastDisaggPrefixes a with
  | [] => "none"
  | prefixes => join " | " ((fun pe => PrefixToString (PE_Prefix pe) ++ " metric=" ++
                               formatInt (PA_Metric (PE_Attributes pe)))%string <$> prefixes)
  end.

Definition formatRoute (kv : string * Route) : string :=
  kv.1 ++ " metric=" ++ formatInt (Route_Metric kv.2) ++ " nh=[" ++
  join " " ((fun nh => addrString (NH_Address nh)) <$> Route_NextHops kv.2) ++ "]".

Definition ribSummaryString (a : Agent) : string :=
  join " | " (formatRoute <$> range_map (RIBOf (a_spfEngine a))).

Record stateTelemetry := mkStateTelemetry {
  st_LSDBSummary : string;
  st_RIBSummary : string;
  st_SPFRuns : Z;
  st_AdjacencyCount : Z;
  st_LSDBTIECount : Z;
  st_RouteCount : Z;
  st_DisaggregationSummary : string
}.

Definition ties (db : LSDB) : list lsdbTIESummary :=
  ForEachSorted db (fun id entry l => (l ++ [tieSummary id entry], true)) [].

(** The flood engine may run between the reads: [db], [adjs] and [db'] are what
    each read finds. *)
Definition updateStateTelemetry (db : LSDB) (adjs : gmap string AdjacencyInfo) (db' : LSDB)
    (a : Agent) : stateTelemetry :=
  mkStateTelemetry (formatLSDBSummary (ties db)) (ribSummaryString a) (a_spfRuns a)
    (uwrap 32 (Z.of_nat (size adjs))) (uwrap 32 (Len db'))
    (uwrap 32 (Z.of_nat (size (RIBOf (a_spfEngine a))))) (disaggSummaryString a).

End telemetry.

(** ** What is published *)

(** The summary lists every TIE once, in the order of the identifiers. *)
Lemma ties_spec db : ties db = (fun kv => tieSummary kv.1 kv.2) <$> sortedEntries db.
Proof.
  unfold ties, ForEachSorted.
  assert (forall l acc, iterEntries (fun id entry l => (l ++ [tieSummary id entry], true)) l acc
    = acc ++ ((fun kv => tieSummary kv.1 kv.2) <$> l)) as H.
  { induction l as [|[id e] l IH]; intros acc; cbn; [by rewrite app_nil_r|].
    by rewrite IH, <-app_assoc. }
  by rewrite H.
Qed.

(** A character that is written as it is. *)
Definition plain (c : ascii) : Prop :=
  (32 <= Ascii.nat_of_ascii c < 127)%nat /\ c <> quote /\ c <> backslash.

Lemma escape_plain c : plain c -> escape c = [c].
Proof.
  intros ([H1 H2] & Hq & Hb). unfold escape. rewrite bool_decide_eq_false_2 by naive_solver.
  apply Nat.leb_le in H1. apply Nat.ltb_lt in H2. by rewrite H1, H2.
Qed.

Lemma escapeControl_length n : (2 <= length (escapeControl n))%nat.
Proof. do 14 (destruct n as [|n]; [cbn; lia|]). cbn. lia. Qed.

Lemma escape_length c : (1 <= length (escape c))%nat /\ (length (escape c) <= 1 -> plain c)%nat.
Proof.
  unfold escape, plain. pose proof (escapeControl_length (Ascii.nat_of_ascii c)).
  case_bool_decide as Hc; [cbn; lia|].
  destruct (Nat.leb_spec 32 (Ascii.nat_of_ascii c)), (Nat.ltb_spec (Ascii.nat_of_ascii c) 127);
    cbn [andb]; try lia.
  split; [cbn; lia|]. naive_solver.
Qed.

Lemma escapes_length s : (length s <= length (s ≫= escape))%nat.
Proof.
  induction s as [|c s IH]; [done|]. cbn. rewrite length_app.
  pose proof (escape_length c). cbn in *. lia.
Qed.

Lemma escapes_id s : s ≫= escape = s <-> Forall plain s.
Proof.
  split.
  - induction s as [|c s IH]; [by constructor|]. cbn in *. intros E.
    assert (plain c) as Hc.
    { apply (proj2 (escape_length c)). pose proof (escapes_length s) as Hs.
      apply (f_equal length) in E. rewrite length_app in E. cbn in *. lia. }
    constructor; [done|]. apply IH. rewrite (escape_plain c Hc) in E. by injection E.
  - induction 1 as [|c s Hc _ IH]; [done|]. cbn. rewrite (escape_plain c Hc). cbn. by f_equal.
Qed.
