(* ===== verification/RouteSync.v ===== *)
(** * RouteSync: the route table follows the programmed RIB.

    [in_sync] relates the agent's record of what it programmed to the tables of
    the route service.  A sync or a withdrawal whose requests succeed takes the
    tables to the new record: [syncRoutes_in_sync], [withdraw_in_sync]. *)

From Stdlib Require Import Strings.Ascii.
From stdpp Require Import pretty.
From S2P Require Import Prelude.
From S2P Require Import Types.
From S2P Require Import FloodState.
From S2P Require Import Netip.
From S2P Require Import Spf.
From S2P Require Import Ndk.
From S2P Require Import Agent.

(** ** Printed prefixes *)

(** [p] is the text of an IPv4 prefix. *)
Definition printed (p : string) : Prop :=
  exists addr len, is_int 32 addr /\ 0 <= len <= 32 /\
    p = PrefixToString (mkIPPrefix (Some (mkIPv4Prefix addr len)) None).

Lemma printed_parse p :
  printed p -> exists addr len, is_int 32 addr /\ 0 <= len <= 32 /\
    p = PrefixToString (mkIPPrefix (Some (mkIPv4Prefix addr len)) None) /\
    prefixToNDK p = Some (mkIpAddrPrefLenPb (octets addr) len).
Proof.
  intros (addr & len & Ha & Hl & ->). exists addr, len. do 3 (split; [done|]).
  assert (bits_ok len = true) as Hb by (apply bits_printed, is_int8; lia).
  apply bool_decide_eq_true_1 in Hb as [Hb Hs].
  unfold prefixToNDK, ParsePrefix. rewrite chars_prefix, splitLastSlash_app by done.
  cbn [mbind option_bind]. rewrite parseIPv4_printed by (repeat constructor; apply octet_range).
  cbn [mbind option_bind]. rewrite Hb, (proj2 (Z.ltb_ge len 0)) by lia. cbn [mbind option_bind].
  rewrite Z.gtb_ltb, (proj2 (Z.ltb_ge 32 len)) by lia. done.
Qed.

(** The key of the route for a prefix, and of its group. *)
Definition routeKey (p : string) : RouteKey :=
  mkRouteKey networkInstance (default (mkIpAddrPrefLenPb [] 0) (prefixToNDK p)).
Definition groupKey (p : string) : NextHopGroupKey := mkNextHopGroupKey (nhgName p) networkInstance.

Lemma routeKey_inj p q : printed p -> printed q -> routeKey p = routeKey q -> p = q.
Proof.
  intros (a & l & Ha & _ & -> & Ep)%printed_parse (b & k & Hb & _ & -> & Eq)%printed_parse.
  unfold routeKey. rewrite Ep, Eq. cbn [default]. intros [= E1 E2 E3 E4 ->].
  unfold PrefixToString. cbn. by rewrite E1, E2, E3, E4.
Qed.

Lemma pretty_digits n : 0 <= n < 256 -> "_"%char ∉ chars (formatInt n).
Proof.
  intros Hn. cut (forallb (fun n => bool_decide ("_"%char ∉ chars (formatInt n))) (seqZ 0 256) = true).
  - intros H. apply (bool_decide_unpack _), Is_true_true.
    apply (proj1 (forallb_forall (fun n => bool_decide ("_"%char ∉ chars (formatInt n))) _) H),
      list_elem_of_In, elem_of_seqZ. lia.
  - vm_compute. reflexivity.
Qed.

Lemma printed_no_underscore p : printed p -> "_"%char ∉ chars p.
Proof.
  intros (addr & len & _ & Hl & ->). rewrite chars_prefix.
  pose proof (pretty_digits len ltac:(lia)).
  pose proof (pretty_digits _ (octet_range (Z.shiftr addr 24))).
  pose proof (pretty_digits _ (octet_range (Z.shiftr addr 16))).
  pose proof (pretty_digits _ (octet_range (Z.shiftr addr 8))).
  pose proof (pretty_digits _ (octet_range addr)).
  rewrite !elem_of_app, !elem_of_cons, !elem_of_app, !elem_of_cons, !elem_of_app, !elem_of_cons.
  intros Hin. repeat match type of Hin with _ \/ _ => destruct Hin as [Hin|Hin] end;
    (contradiction || discriminate Hin).
Qed.

Lemma replaceAll_inj old new s t :
  new ∉ s -> new ∉ t -> replaceAll old new s = replaceAll old new t -> s = t.
Proof.
  revert t. induction s as [|c s IH]; intros [|d t] Hs Ht; cbn; try done.
  apply not_elem_of_cons in Hs as [Hc Hs], Ht as [Hd Ht]. intros [= E Et].
  f_equal; [|by apply IH]. repeat case_bool_decide; congruence.
Qed.

Lemma chars_inj s t : chars s = chars t -> s = t.
Proof.
  intros E. by rewrite <-(String.string_of_list_ascii_of_string s), E,
    String.string_of_list_ascii_of_string.
Qed.

Lemma nhgName_inj_no_underscore p q :
  "_"%char ∉ chars p -> "_"%char ∉ chars q -> nhgName p = nhgName q -> p = q.
Proof.
  intros Hp Hq E%(f_equal chars). unfold nhgName in E.
  rewrite !String.list_ascii_of_string_of_list_ascii in E.
  apply app_inv_head, app_inv_tail in E.
  by apply chars_inj, (replaceAll_inj "/"%char "_"%char).
Qed.

Lemma groupKey_inj p q : printed p -> printed q -> groupKey p = groupKey q -> p = q.
Proof.
  intros Hp%printed_no_underscore Hq%printed_no_underscore E%(f_equal GK_Name).
  by apply nhgName_inj_no_underscore.
Qed.

(** ** The service's tables *)

(** The list of next hops sent for the addresses. *)
Definition nhList (addrs : list Addr) : list Z := default [] (mapM addrToNDK addrs).

Definition all_ipv4 (addrs : list Addr) : Prop := is_Some (mapM addrToNDK addrs).

(** The tables hold exactly what the agent recorded: the route of every prefix,
    and its group with the recorded addresses. *)
Record in_sync {S : RouteService} (rib : gmap string programmedRoute) (fib : Fib) : Prop := {
  sync_printed p pr : rib !! p = Some pr -> printed p /\ pr_nhgName pr = nhgName p;
  sync_routes k d : fib_routes fib !! k = Some d <->
    exists p pr, rib !! p = Some pr /\ k = routeKey p /\
      d = mkRouteData (nhgName p) routePreference (pr_metric pr);
  sync_groups k nhs : fib_groups fib !! k = Some nhs <->
    exists p pr, rib !! p = Some pr /\ k = groupKey p /\ mapM addrToNDK (pr_nhAddrs pr) = Some nhs;
  sync_ipv4 p pr : rib !! p = Some pr -> all_ipv4 (pr_nhAddrs pr)
}.

Lemma in_sync_nothing {S : RouteService} fib :
  in_sync ∅ fib <-> fib_routes fib = ∅ /\ fib_groups fib = ∅.
Proof.
  assert (forall p (pr : programmedRoute), (∅ : gmap string programmedRoute) !! p <> Some pr) as He
    by (intros p pr; by rewrite lookup_empty).
  split.
  - intros [_ Hr Hg _]. split; apply map_eq; intros k; rewrite lookup_empty; apply eq_None_not_Some.
    + intros [d (p & pr & Hp & _)%Hr]. by apply He in Hp.
    + intros [d (p & pr & Hp & _)%Hg]. by apply He in Hp.
  - intros [Hr Hg]. split; try (by intros p pr []%He).
    + intros k d. rewrite Hr, lookup_empty. split; [done|]. by intros (p & pr & []%He & _).
    + intros k d. rewrite Hg, lookup_empty. split; [done|]. by intros (p & pr & []%He & _).
Qed.

(** What the agent is to program for a RIB. *)
Definition target (newRIB : RIB) : gmap string programmedRoute :=
  map_imap (fun p r => match Route_NextHops r with [] => None | _ => Some (programmed p r) end) newRIB.

(** A RIB whose routes with a next hop can be programmed. *)
Definition programmable (newRIB : RIB) : Prop :=
  forall p r, newRIB !! p = Some r -> Route_NextHops r <> [] ->
    printed p /\ all_ipv4 (NH_Address <$> Route_NextHops r).

Lemma target_lookup newRIB p pr :
  target newRIB !! p = Some pr <->
  exists r, newRIB !! p = Some r /\ Route_NextHops r <> [] /\ pr = programmed p r.
Proof.
  unfold target. rewrite map_lookup_imap. destruct (newRIB !! p) as [r|]; cbn.
  - destruct (Route_NextHops r) eqn:E; split.
    + done.
    + intros (r' & [= <-] & Hr & _). by rewrite E in Hr.
    + intros [= <-]. exists r. by rewrite E.
    + by intros (r' & [= <-] & _ & ->).
  - split; [done|]. by intros (r' & ? & _).
Qed.

(** Deleting the keys of a list. *)
Lemma foldl_delete `{Countable K} {A} (ks : list K) (m : gmap K A) k :
  foldl (fun m k => delete k m) m ks !! k = if decide (k ∈ ks) then None else m !! k.
Proof.
  revert m. induction ks as [|k' ks IH]; intros m; cbn [foldl].
  - by rewrite decide_False by apply not_elem_of_nil.
  - rewrite IH. destruct (decide (k ∈ ks)) as [Hin|Hin].
    + rewrite decide_True by (by right). done.
    + destruct (decide (k = k')) as [->|Hk].
      * by rewrite decide_True, lookup_delete_eq by (by left).
      * rewrite decide_False by (rewrite elem_of_cons; naive_solver).
        by rewrite lookup_delete_ne by done.
Qed.

(** Inserting the images of a list under an injective key. *)
Lemma foldl_insert_lookup `{Countable K} {A B} (key : A -> K) (val : A -> B) (l : list A)
    (m : gmap K B) k b :
  (forall a a', a ∈ l -> a' ∈ l -> key a = key a' -> val a = val a') ->
  foldl (fun m a => <[key a := val a]> m) m l !! k = Some b <->
  (exists a, a ∈ l /\ key a = k /\ val a = b) \/ (k ∉ key <$> l /\ m !! k = Some b).
Proof.
  revert m. induction l as [|a l IH]; intros m Hinj; cbn [foldl fmap list_fmap].
  - split; [|intros [(? & ?%not_elem_of_nil & _)|[_ ?]]; done].
    intros ?. right. split; [apply not_elem_of_nil|done].
  - rewrite IH by (intros; apply Hinj; by first [right|done]).
    rewrite lookup_insert_Some, not_elem_of_cons. setoid_rewrite elem_of_cons. split.
    + intros [(x & ? & ?)|[Hk [[<- <-]|[? ?]]]]; [left; by eauto|left; eauto|right; naive_solver].
    + intros [(x & [->|Hx] & Hk & Hv)|([? ?] & ?)]; [|left; by eauto|right; naive_solver].
      destruct (decide (k ∈ key <$> l)) as [(y & -> & Hy)%list_elem_of_fmap|Hn].
      * left. exists y. split_and!; [done|done|]. rewrite <-Hv. apply Hinj; [by right|by left|done].
      * right. split; [done|]. by left.
Qed.

(** ** What a sync plans *)

Lemma nhAddrsEqual_spec a b : nhAddrsEqual a b = true <-> a = b.
Proof.
  revert b. induction a as [|x a IH]; intros [|y b]; cbn; try done.
  rewrite andb_true_iff, bool_decide_eq_true, IH. split; [by intros [-> ->]|by intros [= -> ->]].
Qed.

(** A route whose group must be sent. *)
Definition changed (old : gmap string programmedRoute) (kv : string * Route) : Prop :=
  pr_nhAddrs <$> old !! kv.1 <> Some (NH_Address <$> Route_NextHops kv.2).
#[export] Instance changed_dec old kv : Decision (changed old kv).
Proof. unfold changed. apply _. Defined.

Lemma unchanged_spec old q r :
  match old !! q with
  | Some prev => nhAddrsEqual (pr_nhAddrs prev) (pr_nhAddrs (programmed q r))
  | None => false
  end = bool_decide (~ changed old (q, r)).
Proof.
  destruct (old !! q) as [prev|] eqn:Eo.
  - destruct (nhAddrsEqual _ _) eqn:En; symmetry.
    + apply nhAddrsEqual_spec in En. apply bool_decide_eq_true_2. unfold changed. cbn in *.
      rewrite Eo, <-En. auto.
    + apply bool_decide_eq_false_2. intros Hn. apply Hn. unfold changed. cbn. rewrite Eo.
      intros [= E]. apply nhAddrsEqual_spec in E. cbn in En. by rewrite E in En.
  - symmetry. apply bool_decide_eq_false_2. intros Hn. apply Hn. unfold changed. cbn. by rewrite Eo.
Qed.

Lemma planRoutes_fold old l p :
  let l' := filter (fun kv => Route_NextHops kv.2 <> []) l in
  foldl (planRoute old) p l =
  mkPlan (p_allRoutes p ++ ((fun kv => routeEntry kv.1 kv.2) <$> l'))
    (p_nhgsToUpdate p ++
       ((fun kv => (nhgName kv.1, NH_Address <$> Route_NextHops kv.2)) <$> filter (changed old) l'))
    (foldl (fun m kv => <[kv.1 := programmed kv.1 kv.2]> m) (p_newProgrammed p) l').
Proof.
  cbv zeta. revert p. induction l as [|[q r] l IH]; intros p; cbn [foldl].
  - cbn. rewrite !app_nil_r. by destruct p.
  - rewrite IH, filter_cons. unfold planRoute at 1 2 3. destruct (Route_NextHops r) as [|h hs] eqn:Eh.
    + rewrite decide_False; [done|]. cbn [snd]. rewrite Eh. intros Hn. by apply Hn.
    + rewrite decide_True by (cbn [snd]; rewrite Eh; discriminate).
      rewrite filter_cons. cbn [p_allRoutes p_nhgsToUpdate p_newProgrammed foldl fmap list_fmap].
      rewrite <-app_assoc. f_equal. rewrite unchanged_spec.
      case_bool_decide as Hc; [by rewrite decide_False|].
      rewrite decide_True by done.
      cbn [fmap list_fmap]. by rewrite <-app_assoc.
Qed.

Section plan.
Context {R : MapRange}.

(** The routes with a next hop, in the order of the sync. *)
Definition routed (newRIB : RIB) : list (string * Route) :=
  filter (fun kv => Route_NextHops kv.2 <> []) (range_map newRIB).

Lemma elem_of_routed newRIB p r :
  (p, r) ∈ routed newRIB <-> newRIB !! p = Some r /\ Route_NextHops r <> [].
Proof. unfold routed. rewrite list_elem_of_filter, elem_of_range_map. naive_solver. Qed.

Lemma planRoutes_spec old newRIB :
  planRoutes old newRIB =
  mkPlan ((fun kv => routeEntry kv.1 kv.2) <$> routed newRIB)
    ((fun kv => (nhgName kv.1, NH_Address <$> Route_NextHops kv.2)) <$>
       filter (changed old) (routed newRIB))
    (target newRIB).
Proof.
  unfold planRoutes. rewrite planRoutes_fold. cbn [p_allRoutes p_nhgsToUpdate p_newProgrammed app].
  f_equal. apply map_eq. intros p. apply option_eq. intros pr.
  rewrite foldl_insert_lookup, target_lookup, lookup_empty.
  - split.
    + intros [([q r] & Hin & <- & <-)|[_ ?]]; [|done]. apply elem_of_routed in Hin as []. eauto.
    + intros (r & Hr & Hh & ->). left. exists (p, r). split; [by apply elem_of_routed|done].
  - intros [q r] [q' r'] [H1 _]%elem_of_routed [H2 _]%elem_of_routed. cbn. intros ->.
    rewrite H1 in H2. by injection H2 as ->.
Qed.

Lemma elem_of_stale (old new : gmap string programmedRoute) name :
  name ∈ staleNHGs old new <-> exists p, is_Some (old !! p) /\ new !! p = None /\ name = nhgName p.
Proof.
  unfold staleNHGs. rewrite list_elem_of_fmap. split.
  - intros (p & -> & [Hn ([q pr] & -> & Hin%elem_of_range_map)%list_elem_of_fmap]%list_elem_of_filter).
    exists q. eauto.
  - intros (p & [pr Hp] & Hn & ->). exists p. split; [done|]. apply list_elem_of_filter. split; [done|].
    apply list_elem_of_fmap. exists (p, pr). by rewrite elem_of_range_map.
Qed.
End plan.

(** ** A sync whose requests succeed *)

Section sync.
Context {R : MapRange} {S : RouteService}.
Variable svc : list Request -> Request -> bool.
Hypothesis svc_ok : forall log req, svc log req = true.

Lemma fib_run_ok done todo fib :
  fib_run svc done todo fib = foldl (fun fib req => fib_step req fib) fib todo.
Proof.
  revert done fib. induction todo as [|req todo IH]; intros dn fib; cbn; [done|].
  by rewrite svc_ok, IH.
Qed.

Lemma rpc_ok req log : rpc svc req log = Some (true, log ++ [req]).
Proof. unfold rpc. by rewrite svc_ok. Qed.

(** The groups. *)
Definition groupInfo (g : string * list Addr) : NextHopGroupInfo :=
  mkNextHopGroupInfo (mkNextHopGroupKey g.1 networkInstance) (nhList g.2).

Lemma updateNHGs_ok nhgs log :
  Forall (fun g => all_ipv4 g.2) nhgs ->
  updateNHGs svc nhgs log =
  Some (log ++ ((fun g => NextHopGroupAddOrUpdate [groupInfo g]) <$> nhgs)).
Proof.
  intros H. revert log. induction H as [|[name addrs] nhgs [l Hl] _ IH]; intros log; cbn [updateNHGs].
  - by rewrite app_nil_r.
  - unfold AddOrUpdateNextHopGroup. cbn in Hl. rewrite Hl, rpc_ok. cbn [mbind option_bind].
    rewrite IH, <-app_assoc. unfold groupInfo at 2, nhList. cbn. by rewrite Hl.
Qed.

Lemma fib_groups_sent nhgs fib :
  let fib' := foldl (fun fib req => fib_step req fib) fib
    ((fun g => NextHopGroupAddOrUpdate [groupInfo g]) <$> nhgs) in
  fib_groups fib' = foldl (fun m g => <[GI_Key (groupInfo g) := GI_Nexthops (groupInfo g)]> m)
                      (fib_groups fib) nhgs /\
  fib_routes fib' = fib_routes fib.
Proof.
  cbv zeta. revert fib. induction nhgs as [|g nhgs IH]; intros fib; cbn; [done|].
  destruct (IH (fib_step (NextHopGroupAddOrUpdate [groupInfo g]) fib)) as [-> ->].
  destruct (fib_group_add [groupInfo g] fib) as [-> ->]. done.
Qed.

(** The routes. *)
Definition routeOf (kv : string * Route) : RouteInfo :=
  mkRouteInfo (routeKey kv.1)
    (mkRouteData (nhgName kv.1) routePreference (uwrap 32 (Route_Metric kv.2))).

Lemma mapM_total {A B C} (f : B -> option C) (h : A -> B) (g : A -> C) (l : list A) :
  (forall a, a ∈ l -> f (h a) = Some (g a)) -> mapM f (h <$> l) = Some (g <$> l).
Proof.
  induction l as [|a l IH]; intros Hf; [done|]. cbn. rewrite Hf by left. cbn.
  rewrite IH by (intros; apply Hf; by right). done.
Qed.

Lemma printed_ndk p : printed p -> prefixToNDK p = Some (RK_IpPrefix (routeKey p)).
Proof. intros (a & l & _ & _ & _ & E)%printed_parse. unfold routeKey. by rewrite E. Qed.

Lemma AddOrUpdateRoutes_ok l log :
  (forall p r, (p, r) ∈ l -> printed p) ->
  AddOrUpdateRoutes svc networkInstance ((fun kv => routeEntry kv.1 kv.2) <$> l) log =
  Some (true, match l with [] => log | _ => log ++ [RouteAddOrUpdate (routeOf <$> l)] end).
Proof.
  intros Hl. unfold AddOrUpdateRoutes.
  assert (mapM (routeInfo networkInstance) ((fun kv => routeEntry kv.1 kv.2) <$> l)
          = Some (routeOf <$> l)) as ->.
  { apply mapM_total. intros [p r] Hin%Hl%printed_ndk. unfold routeInfo. cbn [RE_Prefix routeEntry fst].
    by rewrite Hin. }
  destruct l as [|kv l]; [done|]. apply rpc_ok.
Qed.

Lemma DeleteNextHopGroups_ok names log :
  DeleteNextHopGroups svc networkInstance names log =
  Some (true, match names with
              | [] => log
              | _ => log ++ [NextHopGroupDelete ((fun n => mkNextHopGroupKey n networkInstance) <$> names)]
              end).
Proof. destruct names; [done|apply rpc_ok]. Qed.

(** A request that is only sent for a list that is not empty. *)
Definition unless_nil {A} (l : list A) (req : Request) : list Request :=
  match l with [] => [] | _ => [req] end.

Lemma syncRoutes_requests newRIB old log :
  programmable newRIB ->
  let l := routed newRIB in
  let stale := staleNHGs old (target newRIB) in
  syncRoutes svc newRIB old log =
  if bool_decide (l = [] /\ old = ∅) then Some (old, log)
  else Some (target newRIB, log ++
    ((fun g => NextHopGroupAddOrUpdate [groupInfo g]) <$>
       ((fun kv => (nhgName kv.1, NH_Address <$> Route_NextHops kv.2)) <$> filter (changed old) l)) ++
    ([SyncStart] ++ unless_nil l (RouteAddOrUpdate (routeOf <$> l)) ++ [SyncEnd]) ++
    unless_nil stale (NextHopGroupDelete ((fun n => mkNextHopGroupKey n networkInstance) <$> stale))).
Proof.
  intros Hp. cbv zeta. unfold syncRoutes. rewrite planRoutes_spec.
  cbn [p_allRoutes p_nhgsToUpdate p_newProgrammed].
  assert (bool_decide (((fun kv : string * Route => routeEntry kv.1 kv.2) <$> routed newRIB) = [])
          = bool_decide (routed newRIB = [])) as ->.
  { apply bool_decide_ext. split; [apply fmap_nil_inv|by intros ->]. }
  rewrite <-bool_decide_and. case_bool_decide; [done|].
  rewrite updateNHGs_ok; cycle 1.
  { apply Forall_forall. intros g ([p r] & -> & [_ Hin]%list_elem_of_filter)%list_elem_of_fmap.
    apply elem_of_routed in Hin as [Hr Hh]. by apply (Hp p r). }
  cbn [mbind option_bind]. unfold RouteSyncStart, RouteSyncEnd. rewrite rpc_ok. cbn [mbind option_bind negb].
  rewrite AddOrUpdateRoutes_ok; cycle 1.
  { intros p r [Hr Hh]%elem_of_routed. by apply (Hp p r). }
  cbn [mbind option_bind]. rewrite rpc_ok. cbn [mbind option_bind].
  rewrite DeleteNextHopGroups_ok. cbn [mbind option_bind]. f_equal. f_equal.
  destruct (routed newRIB), (staleNHGs old (target newRIB)); cbn [unless_nil app];
    rewrite <-?app_assoc; cbn [app]; reflexivity.
Qed.

(** The window: what it adds is what it leaves. *)
Lemma fib_window_run l fib :
  (forall p r, (p, r) ∈ l -> printed p) ->
  (forall p r r', (p, r) ∈ l -> (p, r') ∈ l -> r = r') ->
  let fib' := foldl (fun fib req => fib_step req fib) fib
    ([SyncStart] ++ unless_nil l (RouteAddOrUpdate (routeOf <$> l)) ++ [SyncEnd]) in
  fib_groups fib' = fib_groups fib /\
  forall k d, fib_routes fib' !! k = Some d <->
    exists p r, (p, r) ∈ l /\ k = routeKey p /\ d = RI_Data (routeOf (p, r)).
Proof.
  intros Hl Hu. cbv zeta.
  destruct (fib_start fib) as (Hr1 & Hg1 & Hw1). set (fib1 := fib_step SyncStart fib) in *.
  assert (forall fib2, fib_groups fib2 = fib_groups fib1 ->
    fib_window fib2 = list_to_set (RI_Key <$> (routeOf <$> l)) ->
    fib_routes fib2 = foldl (fun m r => <[RI_Key r := RI_Data r]> m) (fib_routes fib1) (routeOf <$> l) ->
    fib_groups (fib_step SyncEnd fib2) = fib_groups fib /\
    forall k d, fib_routes (fib_step SyncEnd fib2) !! k = Some d <->
      exists p r, (p, r) ∈ l /\ k = routeKey p /\ d = RI_Data (routeOf (p, r))) as Hend.
  { intros fib2 Hg2 Hw2 Hr2. destruct (fib_end fib2) as [-> ->]. split; [congruence|]. intros k d.
    rewrite map_lookup_filter_Some, Hr2, Hw2, elem_of_list_to_set, foldl_fmap, foldl_insert_lookup.
    - rewrite <-list_fmap_compose. split.
      + intros [[([p r] & Hin & <- & <-)|[Hk _]] Hk']; [by exists p, r|done].
      + intros (p & r & Hin & -> & ->). split; [left; by exists (p, r)|].
        by apply (list_elem_of_fmap_2 (RI_Key ∘ routeOf) l (p, r)).
    - intros [p r] [p' r'] Hin Hin' E. apply routeKey_inj in E; [|by eapply Hl..].
      cbn in E. subst p'. by rewrite (Hu p r r'). }
  destruct l as [|kv l']; cbn [unless_nil app foldl]; fold fib1; apply Hend; try done.
  - apply fib_route_add.
  - destruct (fib_route_add (routeOf <$> kv :: l') fib1) as (_ & _ & ->). rewrite Hw1. apply union_empty_l_L.
  - apply fib_route_add.
Qed.

Lemma fib_groups_delete stale fib :
  let fib' := foldl (fun fib req => fib_step req fib) fib
    (unless_nil stale (NextHopGroupDelete ((fun n => mkNextHopGroupKey n networkInstance) <$> stale))) in
  fib_routes fib' = fib_routes fib /\
  forall k, fib_groups fib' !! k =
    if decide (k ∈ (fun n => mkNextHopGroupKey n networkInstance) <$> stale) then None
    else fib_groups fib !! k.
Proof.
  cbv zeta. destruct stale as [|n stale]; cbn [unless_nil foldl].
  - split; [done|]. intros k. by rewrite decide_False by apply not_elem_of_nil.
  - destruct (fib_group_delete ((fun n => mkNextHopGroupKey n networkInstance) <$> n :: stale) fib) as [-> ->].
    split; [done|]. intros k. apply foldl_delete.
Qed.

(** The groups a sync sends and deletes: those of the new record are there, and
    no other. *)
Lemma fib_groups_synced newRIB old fib :
  programmable newRIB -> in_sync old fib ->
  let sent := (fun kv : string * Route => (nhgName kv.1, NH_Address <$> Route_NextHops kv.2)) <$>
                filter (changed old) (routed newRIB) in
  forall k nhs,
  (k ∉ (fun n => mkNextHopGroupKey n networkInstance) <$> staleNHGs old (target newRIB) /\
   foldl (fun m g => <[GI_Key (groupInfo g) := GI_Nexthops (groupInfo g)]> m)
     (fib_groups fib) sent !! k = Some nhs) <->
  exists p pr, target newRIB !! p = Some pr /\ k = groupKey p /\ mapM addrToNDK (pr_nhAddrs pr) = Some nhs.
Proof.
  intros Hp Hs. cbv zeta. intros k nhs. rewrite foldl_fmap.
  assert (forall p r, (p, r) ∈ filter (changed old) (routed newRIB) <->
    newRIB !! p = Some r /\ Route_NextHops r <> [] /\ changed old (p, r)) as Hel.
  { intros p r. rewrite list_elem_of_filter, elem_of_routed. tauto. }
  assert (forall p r, newRIB !! p = Some r -> Route_NextHops r <> [] -> printed p /\
    mapM addrToNDK (NH_Address <$> Route_NextHops r) = Some (nhList (NH_Address <$> Route_NextHops r)))
    as Hok.
  { intros p r Hr Hh. destruct (Hp p r Hr Hh) as [? [l E]]. split; [done|]. unfold nhList. by rewrite E. }
  rewrite foldl_insert_lookup; cycle 1.
  { intros [p r] [p' r'] (Hr & Hh & _)%Hel (Hr' & Hh' & _)%Hel E.
    apply groupKey_inj in E; [|by eapply Hok..]. cbn in E. subst p'. rewrite Hr in Hr'.
    by injection Hr' as ->. }
  split.
  - intros [Hst [([p r] & (Hr & Hh & _)%Hel & <- & <-)|[Hns Hold]]].
    + exists p, (programmed p r). rewrite target_lookup. split_and!; [by exists r|done|].
      apply (Hok p r Hr Hh).
    + apply (sync_groups _ _ Hs) in Hold as (p & pr & Ho & -> & Ha).
      destruct (target newRIB !! p) as [pr'|] eqn:Et; cycle 1.
      { destruct Hst. apply (list_elem_of_fmap_2 (fun n => mkNextHopGroupKey n networkInstance)).
        apply elem_of_stale. exists p. by rewrite Ho. }
      exists p, pr'. split_and!; [done|done|].
      apply target_lookup in Et as (r & Hr & Hh & ->). cbn. rewrite <-Ha. f_equal.
      destruct (decide (changed old (p, r))) as [Hc|Hc].
      * destruct Hns. apply list_elem_of_fmap. by exists (p, r); rewrite Hel.
      * unfold changed in Hc. cbn in Hc. rewrite Ho in Hc. apply dec_stable in Hc. by injection Hc.
  - intros (p & pr & (r & Hr & Hh & ->)%target_lookup & -> & Ha). cbn in Ha.
    destruct (Hok p r Hr Hh) as [Hpr E]. rewrite E in Ha. injection Ha as <-. split.
    + intros (n & En & (q & [pr Hq] & Hn & ->)%elem_of_stale)%list_elem_of_fmap.
      apply groupKey_inj in En; [|done|by eapply (sync_printed _ _ Hs)]. subst q.
      assert (target newRIB !! p = Some (programmed p r)) as Ht by (apply target_lookup; eauto).
      by rewrite Hn in Ht.
    + destruct (decide (changed old (p, r))) as [Hc|Hc].
      * left. exists (p, r). by rewrite Hel.
      * right. unfold changed in Hc. cbn in Hc. apply dec_stable in Hc.
        destruct (old !! p) as [pr|] eqn:Ho; [|done]. injection Hc as Hc. split.
        -- intros ([q s] & Eq & (Hs' & Hh' & Hc')%Hel)%list_elem_of_fmap.
           apply groupKey_inj in Eq; [|done|by eapply Hok]. cbn in Eq. subst q.
           apply Hc'. cbn. rewrite Ho. cbn. rewrite Hc. by rewrite Hr in Hs'; injection Hs' as ->.
        -- apply (sync_groups _ _ Hs). exists p, pr. by rewrite Hc.
Qed.

Lemma syncRoutes_in_sync newRIB old log fib :
  programmable newRIB -> in_sync old fib ->
  exists reqs, syncRoutes svc newRIB old log = Some (target newRIB, log ++ reqs) /\
    in_sync (target newRIB) (fib_run svc log reqs fib).
Proof.
  intros Hp Hs. rewrite syncRoutes_requests by done. case_bool_decide as Hn.
  { exists []. rewrite app_nil_r. destruct Hn as [Hl ->].
    assert (target newRIB = ∅) as ->; [|done].
    apply map_eq. intros p. rewrite lookup_empty. apply eq_None_not_Some.
    intros [pr (r & Hr & Hh & _)%target_lookup].
    apply (not_elem_of_nil (p, r)). rewrite <-Hl. by apply elem_of_routed. }
  eexists. split; [reflexivity|]. rewrite fib_run_ok, !foldl_app.
  destruct (fib_groups_sent ((fun kv => (nhgName kv.1, NH_Address <$> Route_NextHops kv.2)) <$>
    filter (changed old) (routed newRIB)) fib) as [Hg1 _].
  set (fib1 := foldl _ fib _) in *.
  destruct (fib_window_run (routed newRIB) fib1) as [Hg2 Hr2].
  { intros p r [Hr Hh]%elem_of_routed. by apply (Hp p r). }
  { intros p r r' [Hr _]%elem_of_routed [Hr' _]%elem_of_routed. rewrite Hr in Hr'. by injection Hr'. }
  rewrite !foldl_app in Hg2, Hr2. set (fib2 := foldl _ _ [SyncEnd]) in *.
  destruct (fib_groups_delete (staleNHGs old (target newRIB)) fib2) as [Hr3 Hg3].
  set (fib3 := foldl _ fib2 _) in *. constructor.
  - intros p pr (r & Hr & Hh & ->)%target_lookup. split; [|done]. by apply (Hp p r).
  - intros k d. rewrite Hr3, Hr2. split.
    + intros (p & r & [Hr Hh]%elem_of_routed & -> & ->). exists p, (programmed p r).
      rewrite target_lookup. by split; [exists r|].
    + intros (p & pr & (r & Hr & Hh & ->)%target_lookup & -> & ->). exists p, r.
      by rewrite elem_of_routed.
  - intros k nhs. rewrite Hg3, Hg2, Hg1, <-(fib_groups_synced newRIB old fib) by done.
    case_decide; [|tauto]. split; [done|]. by intros [].
  - intros p pr (r & Hr & Hh & ->)%target_lookup. by apply (Hp p r).
Qed.

Lemma withdraw_in_sync old log fib :
  in_sync old fib ->
  exists reqs, withdrawAllRoutes svc old log = Some (∅, log ++ reqs) /\
    in_sync ∅ (fib_run svc log reqs fib).
Proof.
  intros Hs. unfold withdrawAllRoutes. case_bool_decide as Hn.
  { subst old. exists []. by rewrite app_nil_r. }
  set (prefixes := (range_map old).*1).
  assert (forall p, p ∈ prefixes <-> is_Some (old !! p)) as Hel.
  { intros p. unfold prefixes. rewrite list_elem_of_fmap. split.
    - intros ([q pr] & -> & Hq%elem_of_range_map). by exists pr.
    - intros [pr Hq]. exists (p, pr). by rewrite elem_of_range_map. }
  assert (mapM (fun cidr => mkRouteKey networkInstance <$> prefixToNDK cidr) prefixes
          = Some (routeKey <$> prefixes)) as Hk.
  { rewrite <-(list_fmap_id prefixes) at 1. apply mapM_total. intros p [pr Hq]%Hel.
    apply (sync_printed _ _ Hs) in Hq as [Hq%printed_ndk _]. cbn [id]. by rewrite Hq. }
  exists [RouteDelete (routeKey <$> prefixes); NextHopGroupDelete (groupKey <$> prefixes)].
  assert (prefixes <> []) as Hne.
  { intros E. apply Hn, map_eq. intros p. rewrite lookup_empty. apply eq_None_not_Some.
    intros Hp%Hel. rewrite E in Hp. by apply not_elem_of_nil in Hp. }
  split.
  { unfold DeleteRoutes. rewrite Hk. destruct prefixes as [|p prefixes']; [done|].
    rewrite rpc_ok. cbn [mbind option_bind]. rewrite DeleteNextHopGroups_ok.
    cbn [mbind option_bind fmap list_fmap]. rewrite <-app_assoc.
    change (nhgName p :: _) with (nhgName <$> p :: prefixes'). by rewrite <-list_fmap_compose. }
  rewrite fib_run_ok. cbn [foldl].
  destruct (fib_route_delete (routeKey <$> prefixes) fib) as [Hr1 Hg1]. set (fib1 := fib_step _ fib) in *.
  destruct (fib_group_delete (groupKey <$> prefixes) fib1) as [Hg2 Hr2].
  constructor; try (intros ? ?; by rewrite lookup_empty).
  - intros k d. rewrite Hr2, Hr1, foldl_delete. split; [|intros (p & pr & Hp & _); by rewrite lookup_empty in Hp].
    case_decide as Hd; [done|]. intros (p & pr & Hp & -> & _)%(sync_routes _ _ Hs). destruct Hd.
    apply list_elem_of_fmap_2, Hel. by exists pr.
  - intros k nhs. rewrite Hg2, Hg1, foldl_delete. split; [|intros (p & pr & Hp & _); by rewrite lookup_empty in Hp].
    case_decide as Hd; [done|]. intros (p & pr & Hp & -> & _)%(sync_groups _ _ Hs). destruct Hd.
    apply list_elem_of_fmap_2, Hel. by exists pr.
Qed.

(** A prefix that does not parse: no route is sent in the window. *)
Lemma syncRoutes_unparsed newRIB old log p r :
  newRIB !! p = Some r -> Route_NextHops r <> [] -> prefixToNDK p = None ->
  (forall q s, newRIB !! q = Some s -> all_ipv4 (NH_Address <$> Route_NextHops s)) ->
  exists groups, syncRoutes svc newRIB old log =
    Some (target newRIB, log ++
      ((fun g => NextHopGroupAddOrUpdate [groupInfo g]) <$> groups) ++ [SyncStart] ++ [SyncEnd] ++
      unless_nil (staleNHGs old (target newRIB))
        (NextHopGroupDelete ((fun n => mkNextHopGroupKey n networkInstance) <$> staleNHGs old (target newRIB)))).
Proof.
  intros Hr Hh Hp Hip. unfold syncRoutes. rewrite planRoutes_spec.
  cbn [p_allRoutes p_nhgsToUpdate p_newProgrammed].
  assert ((p, r) ∈ routed newRIB) as Hin by by apply elem_of_routed.
  assert (((fun kv : string * Route => routeEntry kv.1 kv.2) <$> routed newRIB) <> []) as Hne.
  { intros E%fmap_nil_inv. rewrite E in Hin. by apply not_elem_of_nil in Hin. }
  rewrite (bool_decide_eq_false_2 _ Hne). cbn [andb]. eexists. rewrite updateNHGs_ok; cycle 1.
  { apply Forall_forall. intros g ([q s] & -> & [_ Hq]%list_elem_of_filter)%list_elem_of_fmap.
    apply elem_of_routed in Hq as [Hq _]. by apply (Hip q s). }
  cbn [mbind option_bind]. unfold RouteSyncStart, RouteSyncEnd. rewrite rpc_ok. cbn [mbind option_bind negb].
  assert (forall log, AddOrUpdateRoutes svc networkInstance
    ((fun kv : string * Route => routeEntry kv.1 kv.2) <$> routed newRIB) log = Some (false, log)) as ->.
  { intros log'. unfold AddOrUpdateRoutes.
    destruct (_ <$> routed newRIB) as [|x l] eqn:E; [done|]. rewrite <-E. clear x l E Hne.
    assert (mapM (routeInfo networkInstance) ((fun kv : string * Route => routeEntry kv.1 kv.2) <$> routed newRIB)
      = None) as ->; [|done].
    apply mapM_None_2, Exists_exists. exists (routeEntry p r). split.
    - apply (list_elem_of_fmap_2 (fun kv : string * Route => routeEntry kv.1 kv.2) _ (p, r)), Hin.
    - unfold routeInfo. cbn [RE_Prefix routeEntry]. by rewrite Hp. }
  cbn [mbind option_bind]. rewrite rpc_ok. cbn [mbind option_bind].
  rewrite DeleteNextHopGroups_ok. cbn [mbind option_bind]. f_equal. f_equal.
  destruct (staleNHGs old (target newRIB)); cbn [unless_nil]; by rewrite <-?app_assoc, ?app_nil_r.
Qed.

Lemma fib_routes_unparsed groups stale fib :
  fib_routes (foldl (fun fib req => fib_step req fib) fib
    (((fun g => NextHopGroupAddOrUpdate [groupInfo g]) <$> groups) ++ [SyncStart] ++ [SyncEnd] ++
     unless_nil stale (NextHopGroupDelete ((fun n => mkNextHopGroupKey n networkInstance) <$> stale)))) = ∅.
Proof.
  rewrite !foldl_app. destruct (fib_groups_delete stale (foldl (fun fib req => fib_step req fib)
    (foldl (fun fib req => fib_step req fib) (foldl (fun fib req => fib_step req fib) fib
      ((fun g => NextHopGroupAddOrUpdate [groupInfo g]) <$> groups)) [SyncStart]) [SyncEnd])) as [-> _].
  set (fib1 := foldl _ fib _). cbn [foldl].
  destruct (fib_window_run [] fib1) as [_ Hr]; [by intros p r ?%not_elem_of_nil|by intros p r r' ?%not_elem_of_nil|].
  cbn [unless_nil app foldl] in Hr. apply map_eq. intros k. rewrite lookup_empty.
  apply eq_None_not_Some. intros [d (? & ? & ?%not_elem_of_nil & _)%Hr]. done.
Qed.

End sync.

(** ** A sync whatever the service answers *)

(** The requests that a method adds. *)
Definition adds_only (Q : Request -> Prop) (m : method) : Prop :=
  forall log b log', m log = Some (b, log') -> exists reqs, log' = log ++ reqs /\ Forall Q reqs.

Lemma adds_rpc (Q : Request -> Prop) svc req : Q req -> adds_only Q (rpc svc req).
Proof. intros H log b log' [= <- <-]. exists [req]. by repeat constructor. Qed.

Lemma adds_AddOrUpdateRoutes (Q : Request -> Prop) svc netInst routes :
  (forall infos, Q (RouteAddOrUpdate infos)) -> adds_only Q (AddOrUpdateRoutes svc netInst routes).
Proof.
  intros H log b log'. unfold AddOrUpdateRoutes. destruct routes; [|destruct (mapM _ _)].
  - intros [= <- <-]. exists []. by rewrite app_nil_r.
  - by apply adds_rpc.
  - intros [= <- <-]. exists []. by rewrite app_nil_r.
Qed.

Lemma adds_DeleteNextHopGroups (Q : Request -> Prop) svc netInst names :
  (forall keys, Q (NextHopGroupDelete keys)) -> adds_only Q (DeleteNextHopGroups svc netInst names).
Proof.
  intros H log b log'. unfold DeleteNextHopGroups. destruct names.
  - intros [= <- <-]. exists []. by rewrite app_nil_r.
  - by apply adds_rpc.
Qed.

Lemma AddOrUpdateRoutes_total svc netInst routes log :
  exists b log', AddOrUpdateRoutes svc netInst routes log = Some (b, log').
Proof. unfold AddOrUpdateRoutes, rpc. repeat case_match; eauto. Qed.

Lemma DeleteNextHopGroups_total svc netInst names log :
  exists b log', DeleteNextHopGroups svc netInst names log = Some (b, log').
Proof. unfold DeleteNextHopGroups, rpc. case_match; eauto. Qed.

Section failing.
Context {R : MapRange}.
Variable svc : list Request -> Request -> bool.

Lemma updateNHGs_total nhgs log :
  Forall (fun g => all_ipv4 g.2) nhgs -> exists log', updateNHGs svc nhgs log = Some log'.
Proof.
  intros H. revert log. induction H as [|[name addrs] nhgs [l Hl] _ IH]; intros log; cbn [updateNHGs]; [eauto|].
  unfold AddOrUpdateNextHopGroup, rpc. cbn in Hl. rewrite Hl. cbn [mbind option_bind]. apply IH.
Qed.

(** The record is the target as soon as the window opens. *)
Lemma syncRoutes_record newRIB old log :
  (forall log, svc log SyncStart = true) ->
  (forall p r, newRIB !! p = Some r -> all_ipv4 (NH_Address <$> Route_NextHops r)) ->
  exists log', syncRoutes svc newRIB old log = Some (target newRIB, log').
Proof.
  intros Hstart Hip. unfold syncRoutes. rewrite planRoutes_spec.
  cbn [p_allRoutes p_nhgsToUpdate p_newProgrammed].
  destruct (bool_decide _ && bool_decide _) eqn:Eb.
  { apply andb_true_iff in Eb as [Hl%bool_decide_eq_true_1%fmap_nil_inv ->%bool_decide_eq_true_1].
    exists log. do 2 f_equal. symmetry. apply map_eq. intros p. rewrite lookup_empty. apply eq_None_not_Some.
    intros [pr (r & Hr & Hh & _)%target_lookup]. apply (not_elem_of_nil (p, r)). rewrite <-Hl.
    by apply elem_of_routed. }
  destruct (updateNHGs_total ((fun kv => (nhgName kv.1, NH_Address <$> Route_NextHops kv.2)) <$>
    filter (changed old) (routed newRIB)) log) as [log1 ->].
  { apply Forall_forall. intros g ([q s] & -> & [_ Hq]%list_elem_of_filter)%list_elem_of_fmap.
    apply elem_of_routed in Hq as [Hq _]. by apply (Hip q s). }
  cbn [mbind option_bind]. unfold RouteSyncStart, RouteSyncEnd, rpc. rewrite Hstart. cbn [mbind option_bind negb].
  match goal with |- context [AddOrUpdateRoutes ?s ?n ?l ?lg] =>
    destruct (AddOrUpdateRoutes_total s n l lg) as (b & log2 & ->) end.
  cbn [mbind option_bind].
  match goal with |- context [DeleteNextHopGroups ?s ?n ?l ?lg] =>
    destruct (DeleteNextHopGroups_total s n l lg) as (b' & log3 & ->) end.
  cbn [mbind option_bind]. eauto.
Qed.

Definition no_group_sent (req : Request) : Prop :=
  match req with NextHopGroupAddOrUpdate _ => False | _ => True end.

(** Once recorded, a RIB is synced without sending a group. *)
Lemma syncRoutes_recorded newRIB log rib log' :
  syncRoutes svc newRIB (target newRIB) log = Some (rib, log') ->
  exists reqs, log' = log ++ reqs /\ Forall no_group_sent reqs.
Proof.
  assert (filter (changed (target newRIB)) (routed newRIB) = []) as Hf.
  { apply filter_none, Forall_forall. intros [p r] [Hr Hh]%elem_of_routed. unfold changed. cbn.
    assert (target newRIB !! p = Some (programmed p r)) as -> by (apply target_lookup; eauto). cbn. auto. }
  unfold syncRoutes. rewrite planRoutes_spec. cbn [p_allRoutes p_nhgsToUpdate p_newProgrammed].
  rewrite Hf. cbn [fmap list_fmap updateNHGs mbind option_bind].
  case_match; [intros [= <- <-]; exists []; by rewrite app_nil_r|].
  destruct (RouteSyncStart svc log) as [[started log1]|] eqn:E1; [|done]. cbn [mbind option_bind].
  apply (adds_rpc no_group_sent) in E1 as (q1 & -> & Q1); [|done].
  destruct started; cbn [negb]; [|intros [= <- <-]; by exists q1].
  destruct (AddOrUpdateRoutes _ _ _ _) as [[b log2]|] eqn:E2; [|done]. cbn [mbind option_bind].
  apply (adds_AddOrUpdateRoutes no_group_sent) in E2 as (q2 & -> & Q2); [|done].
  destruct (RouteSyncEnd svc _) as [[b' log3]|] eqn:E3; [|done]. cbn [mbind option_bind].
  apply (adds_rpc no_group_sent) in E3 as (q3 & -> & Q3); [|done].
  destruct (DeleteNextHopGroups _ _ _ _) as [[b'' log4]|] eqn:E4; [|done]. cbn [mbind option_bind].
  apply (adds_DeleteNextHopGroups no_group_sent) in E4 as (q4 & -> & Q4); [|done].
  intros [= <- <-]. exists (q1 ++ q2 ++ q3 ++ q4). rewrite !app_assoc. split; [done|].
  by repeat (apply Forall_app; split).
Qed.

End failing.
