(* ===== verification/AgentSpf.v ===== *)
(** * AgentSpf: what the shortest-path engine computes can be programmed.

    On an LSDB of IPv4 prefixes with lengths up to 32 and adjacencies with IPv4
    addresses, every route of a run has a printed prefix and IPv4 next hops. *)

From S2P Require Import Prelude.
From S2P Require Import Types.
From S2P Require Import Lsdb.
From S2P Require Import FloodState.
From S2P Require Import Netip.
From S2P Require Import Spf.
From S2P Require Import PrioQueue.
From S2P Require Import Southbound.
From S2P Require Import Northbound.
From S2P Require Import SpfEngine.
From S2P Require Import Dijkstra.
From S2P Require Import SpfRoutes.
From S2P Require Import SpfStore.
From S2P Require Import SpfTheorems.
From S2P Require Import Ndk.
From S2P Require Import Agent.
From S2P Require Import RouteSync.

(** The prefixes of an element. *)
Definition elementPrefixes (el : TIEElement) : list PrefixEntry :=
  from_option PT_Prefixes [] (EL_Prefixes el) ++
  from_option PT_Prefixes [] (EL_PositiveDisaggregationPrefixes el).

Definition printable (pe : PrefixEntry) : Prop :=
  match IPPrefix_IPv4Prefix (PE_Prefix pe) with
  | Some v4 => is_int 32 (IPv4_Address v4) /\ 0 <= IPv4_PrefixLen v4 <= 32
  | None => True
  end.

#[export] Instance printable_dec pe : Decision (printable pe).
Proof. unfold printable, is_int. destruct (IPPrefix_IPv4Prefix _); apply _. Defined.

Definition prefixes_printable (entries : LSDB) : Prop :=
  map_Forall (fun _ e => Forall printable (elementPrefixes (TIE_Element (Entry_Packet e)))) entries.

Definition ipv4_adjacencies (adjacencies : gmap string AdjacencyInfo) : Prop :=
  map_Forall (fun _ adj => is_Some (As4 (AI_NeighborAddr adj))) adjacencies.

Lemma printable_printed pe :
  printable pe -> PrefixToString (PE_Prefix pe) <> ""%string -> printed (PrefixToString (PE_Prefix pe)).
Proof.
  unfold printable, printed, PrefixToString. destruct (IPPrefix_IPv4Prefix (PE_Prefix pe)) as [[a l]|].
  - cbn [IPv4_Address IPv4_PrefixLen]. intros [Ha Hl] _. exists a, l. done.
  - done.
Qed.

Lemma advertised_printed entries dir ty element o p m :
  prefixes_printable entries ->
  (forall el pt pe, element el = Some pt -> pe ∈ PT_Prefixes pt -> pe ∈ elementPrefixes el) ->
  advertises entries dir ty element o p m -> printed p.
Proof.
  intros Hp Hel (id & e & pt & pe & He & _ & _ & _ & Hpt & Hpe & <- & Hne & _).
  apply printable_printed; [|done]. specialize (Hp _ _ He). rewrite Forall_forall in Hp. by eapply Hp, Hel.
Qed.

Lemma prefixes_elements el pt pe :
  EL_Prefixes el = Some pt -> pe ∈ PT_Prefixes pt -> pe ∈ elementPrefixes el.
Proof. unfold elementPrefixes. intros -> ?. apply elem_of_app. by left. Qed.

Lemma disagg_elements el pt pe :
  EL_PositiveDisaggregationPrefixes el = Some pt -> pe ∈ PT_Prefixes pt -> pe ∈ elementPrefixes el.
Proof. unfold elementPrefixes. intros -> ?. apply elem_of_app. by right. Qed.

Lemma default_printed : printed defaultPrefix.
Proof. exists 0, 0. split_and!; [apply is_int32|..]; try lia. vm_compute. reflexivity. Qed.

Lemma all_ipv4_hops (nhs : list NextHop) :
  (forall h, h ∈ nhs -> is_Some (As4 (NH_Address h))) -> all_ipv4 (NH_Address <$> nhs).
Proof.
  intros H. apply mapM_is_Some_2, Forall_fmap, Forall_forall. exact H.
Qed.

(** An adjacency in the map by neighbour comes from the agent's. *)
Lemma adjByNeighbor_lookup {R : MapRange} adjacencies n adj :
  adjByNeighbor adjacencies !! n = Some adj ->
  exists k, adjacencies !! k = Some adj.
Proof.
  unfold adjByNeighbor.
  cut (forall l (m0 : gmap Z AdjacencyInfo), foldl (fun m '((_, adj) : string * AdjacencyInfo) => <[AI_NeighborID adj := adj]> m)
      m0 l !! n = Some adj -> m0 !! n = Some adj \/ adj ∈ l.*2).
  - intros H [Hm|([k adj'] & -> & Hk%elem_of_range_map)%list_elem_of_fmap]%H; [done|]. by exists k.
  - induction l as [|[k a] l IH]; intros m0; cbn [foldl]; [by left|].
    intros [[[_ <-]|[_ ?]]%lookup_insert_Some|?]%IH; [right; left|by left|right; by right].
Qed.

Section run.
Context {R : MapRange} {Q : Type} {PQ : PriorityQueue Q}.
Variable entries : LSDB.
Variable adjacencies : gmap string AdjacencyInfo.
Variable C : Z.
Hypothesis C_pos : 0 <= C.
Hypothesis costs : costs_ok entries C.
Hypothesis costs_fit : C * Z.of_nat (size (originators entries)) < 2 ^ 31.
Hypothesis Hprefixes : prefixes_printable entries.
Hypothesis Hadjacencies : ipv4_adjacencies adjacencies.

Lemma south_programmable self rib :
  ComputeSouthbound self entries adjacencies = Some rib -> programmable rib.
Proof.
  destruct (search_spec self entries (adjByNeighbor adjacencies) C C_pos) as (dist & Hrun & Hd);
    [intros u v c; by apply costs_ok_link|done|].
  unfold ComputeSouthbound, shortestPaths. rewrite Hrun. intros [= <-] p r Hr Hh.
  pose proof (south_rib self entries (adjByNeighbor adjacencies) dist p Hd) as H.
  rewrite Hr in H. destruct H. split.
  - destruct south_attained as (v & d & m & (_ & _ & Ha) & _).
    eapply advertised_printed; [done|apply prefixes_elements|done].
  - apply all_ipv4_hops. intros h (adj & [k Hk]%adjByNeighbor_lookup & ->)%south_adjacent.
    exact (Hadjacencies _ _ Hk).
Qed.

Lemma north_programmable systemID level :
  programmable (ComputeNorthbound systemID level entries adjacencies).
Proof.
  intros p r Hr _.
  pose proof (addRoutes_spec
    (northOffers entries (validatedNeighbors systemID level entries adjacencies)) p) as H.
  unfold ComputeNorthbound in Hr. rewrite Hr in H. destruct H as [_ _ H3 _ H5 _]. split.
  - destruct H3 as (o & Hin & <- & _).
    destruct (north_offers_sound _ _ _ _ o Hin) as (_ & Hne & Hs).
    destruct (Offer_NextHops o) as [|h l]; [done|].
    destruct (Hs h ltac:(by left)) as (v & _ & Hreach & _).
    destruct Hreach as [[-> _]|(m & [Ha|Ha] & _)]; [apply default_printed|..];
      (eapply advertised_printed; [done| |done]).
    + apply prefixes_elements.
    + apply disagg_elements.
  - apply all_ipv4_hops. intros h (o & Hin & _ & _ & Hh)%H5.
    destruct (north_offers_sound _ _ _ _ o Hin) as (_ & _ & Hs).
    destruct (Hs h Hh) as (v & (k & adj & n & Hk & _ & _ & _ & ->) & _ & <-). exact (Hadjacencies _ _ Hk).
Qed.

(** A run ends, and its RIB can be programmed. *)
Lemma run_programmable e :
  exists e', Run entries adjacencies e = Some e' /\ programmable (RIBOf e').
Proof.
  pose proof (run_ribs entries adjacencies e) as H. cbv zeta in H.
  destruct (Run entries adjacencies e) as [e'|].
  - exists e'. split; [done|]. destruct H as [_ H].
    destruct (e_level e =? LeafLevel).
    + destruct H as [-> _]. apply north_programmable.
    + destruct H as (south & Hs & _ & ->).
      intros p r [Hr|[_ Hr]]%lookup_union_Some_raw Hh.
      * by eapply south_programmable.
      * by eapply north_programmable.
  - destruct H as [_ H].
    destruct (search_spec (e_systemID e) entries (adjByNeighbor adjacencies) C C_pos)
      as (dist & Hrun & Hd); [intros u v c; by apply costs_ok_link|done|].
    unfold ComputeSouthbound, shortestPaths in H. by rewrite Hrun in H.
Qed.

End run.
