(* ===== verification/LieEvents.v ===== *)
(** * LieEvents: what the adjacency events of a LIE FSM carry.

    A neighbour the FSM knows or announces is another node at an acceptable
    level, and ThreeWay is announced with a neighbour ([event_ok]); the channel
    only grows. *)

From S2P Require Import Prelude.
From S2P Require Import Types.
From S2P Require Import LieFsm.
From S2P Require Import LieSpec.
From S2P Require Import LieTheorems.

(** A neighbour that passed the checks of [processLIE]. *)
Definition acceptable (f : FSM) (n : NeighborState) : Prop :=
  NS_SystemID n <> f_systemID f /\ NS_SystemID n <> IllegalSystemID /\
  levelAcceptable f (NS_Level n) = true.

Record event_ok (f : FSM) (ev : AdjacencyEvent) : Prop := {
  ev_name : AE_InterfaceName ev = f_ifName f;
  ev_three_way : AE_State ev = ThreeWay -> is_Some (AE_Neighbor ev);
  ev_acceptable n : AE_Neighbor ev = Some n -> acceptable f n
}.

(** Events that neither delete the neighbour nor lead to OneWay. *)
Definition harmless (ev : Event) : bool :=
  match ev with
  | EventUpdateZTPOffer | EventNewNeighbor | EventNeighborChangedMinorFields
  | EventValidReflection | EventSendLie => true
  | _ => false
  end.

(** A LIE is handled alone, and a pending reflection has its neighbour. *)
Record queue_ok (q : list Event) (n : option NeighborState) : Prop := {
  queue_lie : EventLieRcvd ∈ q -> q = [EventLieRcvd];
  queue_reflection : EventValidReflection ∈ q -> is_Some n /\ forallb harmless q = true
}.

Record sound (f : FSM) : Prop := {
  sound_events : Forall (event_ok f) (f_stateChangeCh f);
  sound_neighbor n : f_neighbor f = Some n -> acceptable f n;
  sound_queue : queue_ok (f_eventQueue f) (f_neighbor f)
}.

Lemma acceptable_identity f f' n : identity f' = identity f -> acceptable f n -> acceptable f' n.
Proof. unfold acceptable, levelAcceptable. by intros [= -> -> _ _ _]. Qed.

Lemma event_ok_identity f f' ev : identity f' = identity f -> event_ok f ev -> event_ok f' ev.
Proof.
  intros Hi [H1 H2 H3]. split; [|done|intros n Hn; by eapply acceptable_identity, H3].
  rewrite H1. by injection Hi.
Qed.

(** What one event adds to the channel. *)
Lemma processEvent_channel now ev f :
  let f' := processEvent now ev f in
  f_stateChangeCh f' = f_stateChangeCh f \/
  (f_stateChangeCh f' = f_stateChangeCh f ++
     [mkAdjacencyEvent (f_ifName f) (f_state f') (f_neighbor f')] /\
   (f_state f' = ThreeWay -> ev = EventValidReflection)).
Proof.
  cbv zeta. unfold processEvent, processOneWay, processTwoWay, processThreeWay,
    processMultipleNeighborsWait.
  destruct (processLIE_frame now f) as [E _].
  destruct (f_state f) eqn:Es, ev; first [left; exact E | left; reflexivity
    | right; split; [reflexivity|done] | rewrite checkHoldtime_eq; case_match; by left
    | repeat case_match; by left].
Qed.

(** The neighbour and the queue after one event. *)
Lemma internal_queue now ev q f :
  f_eventQueue f = ev :: q -> internal ev = true -> sound f ->
  let f' := processEvent now ev (f <| f_eventQueue := q |>) in
  queue_ok (f_eventQueue f') (f_neighbor f') /\
  (f_neighbor f' = f_neighbor f \/ f_neighbor f' = None) /\
  (ev = EventValidReflection -> is_Some (f_neighbor f) /\ f_neighbor f' = f_neighbor f).
Proof.
  intros Hq Hi [_ _ [Hl Hr]]. cbv zeta. rewrite Hq in Hl, Hr.
  destruct (processEvent_core now ev (f <| f_eventQueue := q |>) Hi) as [Hc Hqq].
  set (f' := processEvent now ev _) in *.
  set (c := core (f <| f_eventQueue := q |>)) in *.
  assert (f_neighbor f' = c_neighbor (coreStep ev c)) as -> by exact (f_equal c_neighbor Hc).
  assert (c_neighbor c = f_neighbor f) as Ec by done.
  assert (harmless ev = true -> c_neighbor (coreStep ev c) = f_neighbor f) as Hh.
  { rewrite <-Ec. clearbody c. destruct c as [[] ? ? ?], ev; done. }
  assert (EventLieRcvd ∉ q) as Hnl.
  { intros Hin. assert (ev :: q = [EventLieRcvd]) as E by (apply Hl; by right). destruct q; [|done].
    by apply not_elem_of_nil in Hin. }
  assert (forall e, e ∈ corePushes c ev -> e = EventSendLie) as Hp.
  { intros e He. unfold corePushes in He. destruct (c_state c), ev; cbn in He;
      first [by apply not_elem_of_nil in He | by apply list_elem_of_singleton in He]. }
  change (f_eventQueue (f <| f_eventQueue := q |>)) with q in Hqq. rewrite Hqq.
  split_and!.
  - split.
    + intros [Hin|Hin%Hp]%elem_of_app; done.
    + intros [Hin|Hin%Hp]%elem_of_app; [|done].
      destruct (Hr ltac:(by right)) as [Hn Hf]. cbn [forallb] in Hf.
      apply andb_true_iff in Hf as [Hev Hf]. split; [by rewrite Hh|].
      rewrite forallb_app, Hf. cbn. apply forallb_forall. intros e He%list_elem_of_In.
      by rewrite (Hp _ He).
  - rewrite <-Ec. clearbody c. clear. destruct c as [[] ? ? ?], ev; cbn; auto.
  - intros ->. destruct (Hr ltac:(by left)) as [Hn _]. split; [done|]. by apply Hh.
Qed.

Lemma tick_queue now q f :
  f_eventQueue f = EventTimerTick :: q -> sound f ->
  let f' := processEvent now EventTimerTick (f <| f_eventQueue := q |>) in
  queue_ok (f_eventQueue f') (f_neighbor f') /\ f_neighbor f' = f_neighbor f.
Proof.
  intros Hq [_ _ [Hl Hr]]. cbv zeta. rewrite Hq in Hl, Hr.
  assert (EventLieRcvd ∉ q) as Hnl by (intros Hin; by specialize (Hl ltac:(by right))).
  assert (EventValidReflection ∉ q) as Hnr by (intros Hin; by destruct (Hr ltac:(by right))).
  assert (forall g, (exists l, f_eventQueue g = q ++ l /\ EventLieRcvd ∉ l /\ EventValidReflection ∉ l) ->
    f_neighbor g = f_neighbor f -> queue_ok (f_eventQueue g) (f_neighbor g) /\ f_neighbor g = f_neighbor f)
    as Hg.
  { intros g (l & -> & H1 & H2) ->. split; [|done]. split; intros [?|?]%elem_of_app; done. }
  unfold processEvent, processOneWay, processTwoWay, processThreeWay, processMultipleNeighborsWait,
    checkHoldtime.
  apply Hg; [|by repeat case_match].
  assert (forall g l, f_eventQueue g = q ++ l ->
    bool_decide (EventLieRcvd ∉ l /\ EventValidReflection ∉ l) = true ->
    exists l, f_eventQueue g = q ++ l /\ EventLieRcvd ∉ l /\ EventValidReflection ∉ l) as Hex.
  { intros g l Hg' Hb%bool_decide_eq_true_1. by exists l. }
  repeat case_match;
    first [ by apply (Hex _ []); [cbn; by rewrite app_nil_r|]
          | by apply (Hex _ [EventSendLie]) | by apply (Hex _ [EventMultipleNeighborsDone])
          | by apply (Hex _ [EventSendLie; EventHoldtimeExpired]); [cbn; by rewrite <-app_assoc|] ].
Qed.

Lemma verdict_acceptable h f lie l src :
  verdict f h lie = Valid l -> acceptable f (neighborFrom (PH_Sender h) l lie src).
Proof.
  unfold verdict, acceptable. cbn [NS_SystemID NS_Level neighborFrom].
  destruct (PH_MajorVersion h =? ProtocolMajorVersion); cbn [negb orb]; [|done].
  destruct (Z.eqb_spec (PH_Sender h) (f_systemID f)), (Z.eqb_spec (PH_Sender h) IllegalSystemID);
    cbn [negb orb]; try done.
  destruct (negb (DefaultMTUSize =? remoteMTU lie)); [done|].
  destruct (PH_Level h) as [l'|]; [|done].
  destruct (levelAcceptable f l') eqn:E; [|done]. by intros [= <-].
Qed.

(** A test for concrete queues. *)
Lemma queue_ok_test q n :
  bool_decide (EventLieRcvd ∉ q) && (bool_decide (EventValidReflection ∉ q) || forallb harmless q) = true ->
  queue_ok q (Some n).
Proof.
  intros [Hl%bool_decide_eq_true_1 Hr]%andb_true_iff. split; [done|]. intros Hin.
  rewrite bool_decide_eq_false_2 in Hr by auto. by split.
Qed.

Lemma queue_ok_threeWay s f lie l n :
  l = [] \/ l = [EventNeighborChangedMinorFields] \/ l = [EventNewNeighbor] ->
  queue_ok (EventUpdateZTPOffer :: l ++ threeWayEvents s f lie) (Some n).
Proof.
  intros Hl. apply queue_ok_test. unfold threeWayEvents.
  destruct Hl as [-> | [-> | ->]], s, (LIE_Neighbor lie); try destruct (reflects f lie);
    vm_compute; reflexivity.
Qed.

Lemma lie_queue now f :
  f_eventQueue f = [] -> (forall n, f_neighbor f = Some n -> acceptable f n) ->
  let f' := processEvent now EventLieRcvd f in
  queue_ok (f_eventQueue f') (f_neighbor f') /\
  forall n, f_neighbor f' = Some n -> acceptable f n.
Proof.
  intros Hq Hn. cbv zeta.
  assert (queue_ok [] (f_neighbor f) /\ forall n, f_neighbor f = Some n -> acceptable f n) as Hsame.
  { split; [|done]. by split; intros ?%not_elem_of_nil. }
  destruct (decide (f_state f = MultipleNeighborsWait)) as [Es|Es].
  { unfold processEvent. rewrite Es. cbn. by rewrite Hq. }
  assert (processEvent now EventLieRcvd f = processLIE now f) as ->
    by (unfold processEvent; by destruct (f_state f)).
  destruct (f_pendingHeader f) as [h|] eqn:Eh; [|unfold processLIE; rewrite Eh, Hq; done].
  destruct (f_pendingLIE f) as [lie|] eqn:El; [|unfold processLIE; rewrite Eh, El, Hq; done].
  pose proof (processLIE_verdict now h lie f Eh El) as Hv.
  destruct (verdict f h lie) as [| |l] eqn:Ev.
  - rewrite Hv. cbn. rewrite Hq. split; [|done]. split; by intros ?%not_elem_of_nil.
  - destruct Hv as (ev & Hev & ->). cbn. rewrite Hq. split; [|done].
    by destruct Hev as [-> | ->]; split; intros Hin%(bool_decide_eq_true_2 _).
  - rewrite Hv. destruct (trackNeighbor_events now (PH_Sender h) l lie (f_pendingSrc f) f Hq)
      as (q & -> & _ & _ & _ & Hm).
    set (f' := trackNeighbor _ _ _ _ _ _) in *. change (c_neighbor (core f')) with (f_neighbor f') in Hm.
    assert (acceptable f (neighborFrom (PH_Sender h) l lie (f_pendingSrc f))) as Hnew
      by by apply (verdict_acceptable h).
    destruct (f_neighbor f) as [n|].
    + repeat case_match; destruct Hm as [-> Hm]; (split; [|intros ? [= <-]; by apply (Hn n)]);
        try (subst q; by apply queue_ok_test).
      destruct Hm as (mf & Hmf & ->). apply queue_ok_threeWay. tauto.
    + destruct Hm as [-> ->]. split; [|by intros ? [= <-]].
      apply (queue_ok_threeWay _ _ _ [EventNewNeighbor]). tauto.
Qed.

(** ** Reachable machines *)

Lemma sound_processEvent now ev q f :
  f_eventQueue f = ev :: q -> sound f -> sound (processEvent now ev (f <| f_eventQueue := q |>)).
Proof.
  intros Hq Hs. set (g := f <| f_eventQueue := q |>).
  assert (queue_ok (f_eventQueue (processEvent now ev g)) (f_neighbor (processEvent now ev g)) /\
    (forall n, f_neighbor (processEvent now ev g) = Some n -> acceptable f n) /\
    (ev = EventValidReflection -> is_Some (f_neighbor (processEvent now ev g)))) as (H1 & H2 & H3).
  { destruct (internal ev) eqn:Hi.
    - destruct (internal_queue now ev q f Hq Hi Hs) as (H1 & H2 & H3). fold g in H1, H2, H3.
      split_and!; [done| |].
      + intros n Hn. destruct H2 as [E|E]; rewrite E in Hn; [by apply Hs|done].
      + intros E. destruct (H3 E) as [? H]. by rewrite H.
    - destruct ev; try discriminate Hi.
      + destruct (tick_queue now q f Hq Hs) as [H1 H2]. fold g in H1, H2.
        split_and!; [done| |done]. intros n. rewrite H2. apply Hs.
      + assert (q = []) as ->.
        { assert (EventLieRcvd :: q = [EventLieRcvd]) as [=] by
            (rewrite <-Hq; apply (queue_lie _ _ (sound_queue _ Hs)); rewrite Hq; by left). done. }
        destruct (lie_queue now g eq_refl) as [H1 H2]; [|by split_and!].
        intros n Hn. by apply Hs. }
  assert (identity (processEvent now ev g) = identity f) as Hid
    by exact (identity_processEvent now ev g).
  constructor; [|intros n Hn; eapply acceptable_identity; [done|by apply H2]|done].
  assert (Forall (event_ok (processEvent now ev g)) (f_stateChangeCh f)) as Hold.
  { eapply Forall_impl; [apply Hs|]. intros e. by apply event_ok_identity. }
  destruct (processEvent_channel now ev g) as [->|[-> Ht]]; [done|].
  apply Forall_app. split; [done|]. constructor; [|done]. constructor.
  - cbn. by injection Hid.
  - intros E. by apply H3, Ht.
  - intros n Hn. eapply acceptable_identity; [done|by apply H2].
Qed.

Lemma sound_drain fuel clk f : sound f -> sound (drainLoop fuel clk f).
Proof.
  revert clk f. induction fuel as [|fuel IH]; intros clk f Hs; [done|].
  destruct (f_eventQueue f) as [|ev q] eqn:E; [by rewrite drainLoop_nil|].
  rewrite (drainLoop_cons _ _ _ _ _ E). by apply IH, sound_processEvent.
Qed.

Lemma sound_frame f f' :
  identity f' = identity f -> f_stateChangeCh f' = f_stateChangeCh f -> f_neighbor f' = f_neighbor f ->
  queue_ok (f_eventQueue f') (f_neighbor f') -> sound f -> sound f'.
Proof.
  intros Hi Hc Hn Hq Hs. constructor; [|rewrite Hn; intros n ?|done].
  - rewrite Hc. eapply Forall_impl; [apply Hs|]. intros ev. by apply event_ok_identity.
  - by eapply acceptable_identity, Hs.
Qed.

(** A settled machine with one outside event pending. *)
Lemma sound_push ev f :
  sound f -> f_eventQueue f = [] -> internal ev = false -> sound (push ev f).
Proof.
  intros Hs Hq Hi. apply (sound_frame f); [done..| |done]. cbn. rewrite Hq. cbn.
  destruct ev; try discriminate Hi; split; by intros Hin%list_elem_of_singleton.
Qed.

Lemma sound_step f f' : sound f -> settled f -> lie_step f f' -> sound f'.
Proof.
  intros Hs Hq [clk|clk pkt src].
  - apply sound_drain, sound_push; [done|apply Hq|done].
  - unfold HandlePacket. case_match; [|done]. apply sound_drain, sound_push; [|apply Hq|done].
    apply (sound_frame f); [done..| |done]. apply Hs.
Qed.

Lemma reachable_sound systemID level nodeName ifName localID f :
  lie_reachable systemID level nodeName ifName localID f -> sound f.
Proof.
  induction 1 as [|f f' Hr IH Hstep].
  - split; [constructor|done|]. by split; intros ?%not_elem_of_nil.
  - eapply sound_step; [done|by eapply reachable_settled|done].
Qed.

(** The channel only grows. *)
Lemma drain_channel fuel clk f : f_stateChangeCh f `prefix_of` f_stateChangeCh (drainLoop fuel clk f).
Proof.
  revert clk f. induction fuel as [|fuel IH]; intros clk f; [done|].
  destruct (f_eventQueue f) as [|ev q] eqn:E; [by rewrite drainLoop_nil|].
  rewrite (drainLoop_cons _ _ _ _ _ E). etrans; [|apply IH].
  destruct (processEvent_channel (clk O) ev (f <| f_eventQueue := q |>)) as [->|[-> _]]; [done|].
  by apply prefix_app_r.
Qed.

Lemma step_channel f f' : lie_step f f' -> f_stateChangeCh f `prefix_of` f_stateChangeCh f'.
Proof.
  intros [clk|clk pkt src].
  - apply (drain_channel _ _ (push EventTimerTick f)).
  - unfold HandlePacket. case_match; [|done].
    match goal with |- _ `prefix_of` f_stateChangeCh (drainQueue _ (push _ ?g)) =>
      apply (drain_channel _ _ (push EventLieRcvd g)) end.
Qed.
