(* ===== verification/AgentSystem.v ===== *)
(** * AgentSystem: the agent, its LIE machines and the flood engine together.

    The goroutines of the program communicate over channels and a step of the
    system is one turn of one of them: [sysStep] gives its effect, a [Label]
    says which goroutine takes it and with which input.  The labels of a run
    are thus the interleaving. *)

From S2P Require Import Prelude.
From S2P Require Import Types.
From S2P Require Import Lsdb.
From S2P Require Import FloodState.
From S2P Require Import Flood.
From S2P Require Import FloodInv.
From S2P Require Import FloodTide.
From S2P Require Import FloodDrain.
From S2P Require Import LieFsm.
From S2P Require Import Spf.
From S2P Require Import PrioQueue.
From S2P Require Import Ndk.
From S2P Require Import Config.
From S2P Require Import Notifications.
From S2P Require Import Transport.
From S2P Require Import Agent.

(** [s_adjEventCh] carries the events of all the LIE machines to the agent. *)
Record System := mkSystem {
  s_agent : Agent;
  s_adjEventCh : list AdjacencyEvent;
  s_flood : FloodEngine
}.
#[export] Instance eta_System : Eta System :=
  fun s => mkSystem (s_agent s) (s_adjEventCh s) (s_flood s).

(** What an LIE goroutine takes next: a tick or a received packet. *)
Inductive LieInput :=
  | LieTick (clk : nat -> Z)
  | LiePacket (clk : nat -> Z) (pkt : ProtocolPacket) (src : Addr).

Definition lieInput (i : LieInput) (f : FSM) : FSM :=
  match i with
  | LieTick clk => Tick clk f
  | LiePacket clk pkt src => HandlePacket clk pkt src f
  end.

Inductive Label :=
  | LInterface (w : World) (ev : InterfaceEvent)
  | LConfig (w : World) (ev : ConfigEvent)
  | LAdjacency (w : World)
  | LSpfTimer (w : World) (entries' : LSDB) (adjs' : gmap string AdjacencyInfo)
  | LLsdbChange
  | LLie (name : string) (i : LieInput)
  | LAdjChange
  | LDisaggUpdate
  | LFlood (ev : FloodEvent).

(** The events that do not come from the agent. *)
Definition ownEvent (ev : FloodEvent) : bool :=
  match ev with EvAdjChange _ | EvDisaggUpdate _ | EvSpfTake => false | _ => true end.

(** A step of the flood engine; [None] if it blocks for good. *)
Definition floodStep {R : MapRange} (ev : FloodEvent) (fe : FloodEngine) : option FloodEngine :=
  match handleEvent ev fe with Done fe' => Some fe' | Deadlock => None end.

(** The events a machine added to its channel. *)
Definition newEvents (f f' : FSM) : list AdjacencyEvent :=
  drop (length (f_stateChangeCh f)) (f_stateChangeCh f').

Section system.
Context {R : MapRange} {Q : Type} {PQ : PriorityQueue Q}.

(** [None]: nothing to take, or the turn does not end. *)
Definition sysStep (l : Label) (s : System) : option System :=
  let a := s_agent s in
  let fe := s_flood s in
  match l with
  | LInterface w ev => Some (s <| s_agent := handleInterfaceEvent w ev a |>)
  | LConfig w ev => a ← handleConfigChange w ev a; Some (s <| s_agent := a |>)
  | LAdjacency w =>
      match s_adjEventCh s with
      | [] => None
      | ev :: evs =>
          Some (s <| s_agent := handleAdjacencyEvent w ev a |> <| s_adjEventCh := evs |>)
      end
  | LSpfTimer w entries' adjs' =>
      if a_spfTimer a then
        a ← handleSpfTimer w (fe_lsdb fe) (Adjacencies fe) entries' adjs' a;
        Some (s <| s_agent := a |>)
      else None
  | LLsdbChange =>
      if fe_LSDBChangeCh fe then
        fe ← floodStep EvSpfTake fe;
        Some (s <| s_agent := handleLSDBChange a |> <| s_flood := fe |>)
      else None
  | LLie name i =>
      iface ← a_interfaces a !! name;
      let f := lieInput i (is_fsm iface) in
      Some (s <| s_agent := setInterface name (iface <| is_fsm := f |>) a |>
              <| s_adjEventCh := s_adjEventCh s ++ newEvents (is_fsm iface) f |>)
  | LAdjChange =>
      match a_AdjChangeCh a with
      | [] => None
      | change :: changes =>
          fe ← floodStep (EvAdjChange change) fe;
          Some (s <| s_agent := a <| a_AdjChangeCh := changes |> |> <| s_flood := fe |>)
      end
  | LDisaggUpdate =>
      prefixes ← a_DisaggUpdateCh a;
      fe ← floodStep (EvDisaggUpdate prefixes) fe;
      Some (s <| s_agent := a <| a_DisaggUpdateCh := None |> |> <| s_flood := fe |>)
  | LFlood ev =>
      if ownEvent ev then fe ← floodStep ev fe; Some (s <| s_flood := fe |>) else None
  end.

Fixpoint sysRun (ls : list Label) (s : System) : option System :=
  match ls with
  | [] => Some s
  | l :: ls => s ← sysStep l s; sysRun ls s
  end.

(** [waitForConfig]: config events until the configuration is valid; [None] if
    the events end first, or on a panic. *)
Fixpoint waitForConfig (evs : list ConfigEvent) (a : Agent) : option Agent :=
  match evs with
  | [] => None
  | ev :: evs => a ← processConfigEvent ev a; if configReady a then Some a else waitForConfig evs a
  end.

(** The system when the event loop is entered. *)
Definition boot (w : World) (evs : list ConfigEvent) (allPrefixes : gmap string (Addr * Z))
    : option System :=
  a ← waitForConfig evs NewAgent;
  '(a, fe) ← startEngines w allPrefixes a;
  Some (mkSystem a [] fe).

End system.

(** The states that runs reach from [s0] while [ok] holds of every step; every
    step may resolve the order of its map iterations in its own way. *)
Inductive sys_reach {Q} {PQ : PriorityQueue Q} (ok : Label -> System -> System -> Prop) (s0 : System)
    : System -> Prop :=
  | reach_here : sys_reach ok s0 s0
  | reach_next (R : MapRange) l s s' :
      sys_reach ok s0 s -> sysStep l s = Some s' -> ok l s s' -> sys_reach ok s0 s'.

(** ** The flood engine under a step *)

Section stability.
Context {R : MapRange}.

Lemma stable_installTIE k tie fe : stable fe (installTIE k tie fe).
Proof.
  unfold installTIE. cbv zeta. etrans; [|apply stable_notify].
  etrans; [|apply stable_floodTIEToAllExcept]. etrans; [|apply stable_ackTIE]. done.
Qed.

Lemma stable_handleTIE k tie fe : stable fe (handleTIE k tie fe).
Proof.
  unfold handleTIE. repeat case_match; auto using stable_installTIE with rift; try done;
    (etrans; [apply stable_bumpOwnTIE || apply stable_originateSelfTIEs|]; auto with rift).
Qed.

Lemma stable_iterEntries (fn : TIEID -> LSDBEntry -> FloodEngine -> FloodEngine * bool) l fe :
  (forall id e fe, stable fe (fn id e fe).1) -> stable fe (iterEntries fn l fe).
Proof.
  intros Hf. revert fe. induction l as [|[id e] l IH]; intros fe; cbn; [done|].
  pose proof (Hf id e fe) as H. destruct (fn id e fe) as [fe' []]; cbn in H; [|done]. by etrans.
Qed.

Lemma stable_handleFloodPacket pkt fe : stable fe (handleFloodPacket pkt fe).
Proof.
  unfold handleFloodPacket. repeat case_match; try done.
  - apply stable_handleTIE.
  - unfold handleTIDE. case_match; [|done].
    etrans; [|apply stable_iterEntries].
    + apply stable_foldl. intros. apply stable_tideHeader.
    + intros id e fe'. unfold tideMissing. repeat case_match; cbn [fst]; auto with rift; done.
  - unfold handleTIRE. case_match; [|done]. apply stable_foldl.
    intros fe' hdr. unfold tireHeader. repeat case_match; auto with rift; done.
Qed.

Lemma stable_handleDisaggUpdate prefixes fe : stable fe (handleDisaggUpdate prefixes fe).
Proof.
  unfold handleDisaggUpdate.
  assert (stable fe (OriginatePositiveDisaggTIE prefixes fe).2) as H
    by (unfold OriginatePositiveDisaggTIE; by repeat case_match).
  destruct (OriginatePositiveDisaggTIE prefixes fe) as [[id []] fe']; cbn in H; [|done].
  etrans; [exact H|]. etrans; [|apply stable_notify]. apply stable_floodTIEToAll.
Qed.

(** Every event but a change of the adjacencies keeps them. *)
Lemma stable_handleEvent ev fe fe' :
  (forall change, ev <> EvAdjChange change) -> handleEvent ev fe = Done fe' -> stable fe fe'.
Proof.
  intros Hev. destruct ev as [change|pkt| | | |prefixes| |]; cbn [handleEvent]; try (by intros [= <-]).
  - by destruct (Hev change).
  - intros [= <-]. apply stable_handleFloodPacket.
  - intros [= <-]. apply stable_foldl. intros fe1 [k adj]. apply stable_foldl. auto with rift.
  - intros ->%tickLifetimes_done. apply stable_ageTIEs.
  - intros [= <-]. apply sends_foldl. intros fe1 [k adj]. apply sends_drainAdjQueues.
  - intros [= <-]. apply stable_handleDisaggUpdate.
Qed.

(** A change of an adjacency is made. *)
Lemma Adjacencies_handleAdjChange change fe :
  Adjacencies (handleAdjChange change fe) =
  match AC_Info change with
  | Some info => <[AC_InterfaceName change := info]> (Adjacencies fe)
  | None => delete (AC_InterfaceName change) (Adjacencies fe)
  end.
Proof.
  unfold handleAdjChange. set (fe1 := fe <| fe_adjacencies := _ |>).
  pose proof (stable_originateSelfTIEs fe1) as H2.
  destruct (originateSelfTIEs fe1) as [changed fe2]. cbn [snd] in H2.
  transitivity (Adjacencies fe1).
  - rewrite <-(st_adj _ _ H2). apply st_adj. etrans; [|apply stable_notify].
    apply stable_foldl. auto with rift.
  - unfold Adjacencies, fe1. cbn. destruct (AC_Info change); [by rewrite fmap_insert|by rewrite fmap_delete].
Qed.

End stability.
