(* ===== verification/AgentInv.v ===== *)
(** * AgentInv: invariants of the agent's interfaces and adjacencies.

    [interfaces_spec] and its relatives give the interfaces after each handler;
    [sys_inv] bounds what may travel from the LIE machines to the flood engine,
    and [agree] says that the two agree once nothing is under way. *)

From S2P Require Import Prelude.
From S2P Require Import Types.
From S2P Require Import Lsdb.
From S2P Require Import FloodState.
From S2P Require Import Flood.
From S2P Require Import FloodInv.
From S2P Require Import LieFsm.
From S2P Require Import LieSpec.
From S2P Require Import LieTheorems.
From S2P Require Import LieEvents.
From S2P Require Import Spf.
From S2P Require Import PrioQueue.
From S2P Require Import SpfEngine.
From S2P Require Import Ndk.
From S2P Require Import Config.
From S2P Require Import Notifications.
From S2P Require Import Transport.
From S2P Require Import Agent.
From S2P Require Import AgentSystem.

(** ** The interfaces after a handler *)

(** Everything the interface handlers leave alone. *)
Definition rest (a : Agent) : Agent := a <| a_interfaces := ∅ |>.

Lemma rest_interfaces a m : rest (a <| a_interfaces := m |>) = rest a.
Proof. done. Qed.

(** The interface [name] once it could be started under [c]. *)
Definition started (w : World) (c : Config) (name : string) : option interfaceState :=
  newInterface w c name <$> w_start w name.

Lemma startInterfaceLocked_spec w name a n c :
  a_cfg a = Some (n, c) ->
  rest (startInterfaceLocked w name a) = rest a /\
  forall k, a_interfaces (startInterfaceLocked w name a) !! k =
    if decide (k = name) then
      match a_interfaces a !! k with Some i => Some i | None => started w c k end
    else a_interfaces a !! k.
Proof.
  intros Hc. unfold startInterfaceLocked, started. rewrite Hc.
  destruct (a_interfaces a !! name) as [i|] eqn:E.
  - split; [done|]. intros k. case_decide; [subst|done]. by rewrite E.
  - destruct (w_start w name) as [link|] eqn:Ew.
    + split; [done|]. intros k. cbn. case_decide; [subst; by rewrite E, lookup_insert_eq, Ew|].
      by rewrite lookup_insert_ne.
    + split; [done|]. intros k. case_decide; [subst; by rewrite E, Ew|done].
Qed.

Lemma stopInterfaceLocked_spec name a :
  rest (stopInterfaceLocked name a) = rest a /\
  forall k, a_interfaces (stopInterfaceLocked name a) !! k =
    if decide (k = name) then None else a_interfaces a !! k.
Proof.
  split; [done|]. intros k. cbn. case_decide; [subst; apply lookup_delete_eq|by rewrite lookup_delete_ne].
Qed.

Lemma stopAll_spec names a :
  let a' := foldl (fun a name => stopInterfaceLocked name a) a names in
  rest a' = rest a /\
  forall k, a_interfaces a' !! k = if decide (k ∈ names) then None else a_interfaces a !! k.
Proof.
  cbv zeta. revert a. induction names as [|n names IH]; intros a; cbn [foldl].
  - split; [done|]. intros k. by rewrite decide_False by apply not_elem_of_nil.
  - destruct (IH (stopInterfaceLocked n a)) as [Hr Hi]. split; [by rewrite Hr|]. intros k.
    rewrite Hi. destruct (stopInterfaceLocked_spec n a) as [_ ->].
    destruct (decide (k ∈ names)); [by rewrite decide_True by by right|].
    destruct (decide (k = n)) as [->|]; [by rewrite decide_True by by left|].
    by rewrite decide_False by by rewrite elem_of_cons; intros [?|?].
Qed.

Lemma rest_cfg a a' : rest a' = rest a -> a_cfg a' = a_cfg a.
Proof. intros H. exact (f_equal a_cfg H). Qed.

Section interfaces.
Context {R : MapRange} {Q : Type} {PQ : PriorityQueue Q}.

Lemma stopUnconfigured_spec c a :
  rest (stopUnconfigured c a) = rest a /\
  forall k, a_interfaces (stopUnconfigured c a) !! k =
    if HasInterface c k then a_interfaces a !! k else None.
Proof.
  unfold stopUnconfigured.
  cut (forall l a', rest (foldl (fun a name => if HasInterface c name then a else stopInterfaceLocked name a) a' l)
      = rest a' /\ forall k,
    a_interfaces (foldl (fun a name => if HasInterface c name then a else stopInterfaceLocked name a) a' l) !! k
    = if decide (k ∈ l) then if HasInterface c k then a_interfaces a' !! k else None
      else a_interfaces a' !! k).
  - intros H. destruct (H (range_map (a_interfaces a)).*1 a) as [Hr Hl]. split; [exact Hr|].
    intros k. rewrite Hl. case_decide as Hk; [done|]. case_match; [done|].
    destruct (a_interfaces a !! k) as [i|] eqn:E; [|done]. destruct Hk.
    apply list_elem_of_fmap. exists (k, i). by rewrite elem_of_range_map.
  - induction l as [|n l IH]; intros a'; cbn [foldl].
    + split; [done|]. intros k. by rewrite decide_False by apply not_elem_of_nil.
    + destruct (IH (if HasInterface c n then a' else stopInterfaceLocked n a')) as [Hr Hl].
      split; [rewrite Hr; by case_match|]. intros k. rewrite Hl.
      assert (a_interfaces (if HasInterface c n then a' else stopInterfaceLocked n a') !! k =
        if decide (k = n) then if HasInterface c k then a_interfaces a' !! k else None
        else a_interfaces a' !! k) as ->.
      { case_match eqn:Eh.
        - case_decide; [subst; by rewrite Eh|done].
        - destruct (stopInterfaceLocked_spec n a') as [_ ->]. case_decide; [subst; by rewrite Eh|done]. }
      destruct (decide (k ∈ l)) as [Hin|Hin], (decide (k = n)) as [->|Hk].
      * rewrite decide_True by (by left). by case_match.
      * by rewrite decide_True by (by right).
      * by rewrite decide_True by (by left).
      * by rewrite decide_False by (rewrite elem_of_cons; tauto).
Qed.

Lemma startConfigured_spec w n c a :
  a_cfg a = Some (n, c) ->
  rest (startConfigured w c a) = rest a /\
  forall k, a_interfaces (startConfigured w c a) !! k =
    match a_interfaces a !! k with
    | Some i => Some i
    | None => if HasInterface c k then started w c k else None
    end.
Proof.
  unfold startConfigured. set (f := fun a ifName => _).
  cut (forall l a', a_cfg a' = Some (n, c) -> rest (foldl f a' l) = rest a' /\ forall k,
    a_interfaces (foldl f a' l) !! k =
    match a_interfaces a' !! k with
    | Some i => Some i
    | None => if decide (k ∈ l) then started w c k else None
    end).
  - intros H Hc. destruct (H (range_set (cfg_Interfaces c)) a Hc) as [Hr Hl]. split; [exact Hr|].
    intros k. rewrite Hl. case_match; [done|]. unfold HasInterface.
    destruct (decide (k ∈ cfg_Interfaces c)).
    + by rewrite decide_True, bool_decide_eq_true_2 by by rewrite ?elem_of_range_set.
    + by rewrite decide_False, bool_decide_eq_false_2 by by rewrite ?elem_of_range_set.
  - induction l as [|m l IH]; intros a' Hc; cbn [foldl].
    + split; [done|]. intros k. rewrite decide_False by apply not_elem_of_nil. by case_match.
    + assert (rest (f a' m) = rest a' /\ forall k, a_interfaces (f a' m) !! k =
        if decide (k = m) then
          match a_interfaces a' !! k with Some i => Some i | None => started w c k end
        else a_interfaces a' !! k) as [Hr1 Hl1].
      { unfold f. case_bool_decide as Hb; [|by apply (startInterfaceLocked_spec w m a' n c)].
        split; [done|]. intros k. case_decide; [subst; by destruct Hb as [i ->]|done]. }
      destruct (IH (f a' m)) as [Hr Hl]; [by rewrite (rest_cfg _ _ Hr1)|].
      split; [by rewrite Hr|]. intros k. rewrite Hl, Hl1.
      destruct (decide (k = m)) as [->|Hk].
      * destruct (decide (m ∈ m :: l)) as [_|Hn]; [|destruct Hn; left].
        destruct (a_interfaces a' !! m); [done|]. destruct (started w c m); [done|]. by case_decide.
      * destruct (a_interfaces a' !! k); [done|]. apply decide_ext. rewrite elem_of_cons. tauto.
Qed.

(** What a config event leaves alone. *)
Lemma processConfigEvent_frame ev a a' :
  processConfigEvent ev a = Some a' ->
  a_interfaces a' = a_interfaces a /\ a_AdjChangeCh a' = a_AdjChangeCh a.
Proof.
  unfold processConfigEvent. destruct (String.eqb _ _).
  { case_match; by intros [= <-]. }
  destruct (String.eqb _ _).
  { destruct (eventInterface ev) as [[ifName|]|]; cbn; [|by intros [= <-]|done].
    repeat case_match; by intros [= <-]. }
  destruct (String.eqb _ _); [|by intros [= <-]]. case_match; by intros [= <-].
Qed.

(** How the interface [k] may change in a handler: not, by being stopped, or by
    being started under the configuration. *)
Definition interface_step (w : World) (a a' : Agent) (k : string) : Prop :=
  a_interfaces a' !! k = a_interfaces a !! k \/
  a_interfaces a' !! k = None \/
  (a_interfaces a !! k = None /\ exists n c, a_cfg a' = Some (n, c) /\
     a_interfaces a' !! k = started w c k).

Lemma handleInterfaceEvent_step w ev a :
  a_AdjChangeCh (handleInterfaceEvent w ev a) = a_AdjChangeCh a /\
  a_cfg (handleInterfaceEvent w ev a) = a_cfg a /\
  forall k, interface_step w a (handleInterfaceEvent w ev a) k.
Proof.
  unfold handleInterfaceEvent, configured.
  destruct (a_cfg a) as [[n c]|] eqn:Hc; cbn [negb]; [|split_and!; [done..|by left]].
  repeat (case_match; [try (split_and!; [done..|by left])|]).
  - destruct (startInterfaceLocked_spec w (ie_Name ev) a n c Hc) as [Hr Hl].
    split_and!; [exact (f_equal a_AdjChangeCh Hr)|by rewrite (rest_cfg _ _ Hr)|].
    intros k. unfold interface_step. rewrite Hl, (rest_cfg _ _ Hr).
    case_decide; [|by left]. destruct (a_interfaces a !! k); [by left|]. right; right. eauto.
  - split_and!; [done..|]. intros k. unfold interface_step.
    destruct (stopInterfaceLocked_spec (ie_Name ev) a) as [_ ->]. case_decide; auto.
  - split_and!; [done..|by left].
Qed.

(** A committed configuration decides which interfaces run. *)
Lemma handleConfigChange_cases w ev a a' :
  handleConfigChange w ev a = Some a' ->
  exists a1, processConfigEvent ev a = Some a1 /\ a_cfg a' = a_cfg a1 /\
    a_AdjChangeCh a' = a_AdjChangeCh a /\
    if String.eqb (ce_JSPath ev) ".commit.end" && bool_decide (fst <$> a_cfg a1 <> fst <$> a_cfg a)
       && configReady a1
    then exists n c, a_cfg a1 = Some (n, c) /\ forall k, a_interfaces a' !! k =
           if HasInterface c k then
             match a_interfaces a !! k with Some i => Some i | None => started w c k end
           else None
    else a' = a1.
Proof.
  unfold handleConfigChange. destruct (processConfigEvent ev a) as [a1|] eqn:Ep; [|done].
  cbn [mbind option_bind]. destruct (processConfigEvent_frame _ _ _ Ep) as [Hi Ha].
  unfold configReady.
  destruct (String.eqb (ce_JSPath ev) ".commit.end"); cbn [negb orb andb];
    [|intros [= <-]; by exists a1].
  case_bool_decide as Eb.
  { intros [= <-]. exists a1. rewrite bool_decide_eq_false_2 by auto. by cbn [andb]. }
  intros H. exists a1. rewrite bool_decide_eq_true_2 by done. cbn [negb andb]. revert H.
  destruct (a_cfg a1) as [[n c]|] eqn:Hc; [|by intros [= <-]].
  destruct (Valid c); cbn [negb]; [|by intros [= <-]].
  intros [= <-]. destruct (stopUnconfigured_spec c a1) as [Hr1 Hl1].
  destruct (startConfigured_spec w n c (stopUnconfigured c a1)) as [Hr2 Hl2];
    [by rewrite (rest_cfg _ _ Hr1)|].
  assert (rest (startConfigured w c (stopUnconfigured c a1)) = rest a1) as Hr by congruence.
  split_and!; [done|by rewrite (rest_cfg _ _ Hr)|by rewrite <-Ha; exact (f_equal a_AdjChangeCh Hr)|].
  exists n, c. split; [done|]. intros k. rewrite Hl2, Hl1, Hi. by destruct (HasInterface c k).
Qed.

Lemma handleConfigChange_step w ev a a' :
  handleConfigChange w ev a = Some a' ->
  a_AdjChangeCh a' = a_AdjChangeCh a /\ forall k, interface_step w a a' k.
Proof.
  intros (a1 & Hp & Hc & Ha & H)%handleConfigChange_cases. split; [done|]. intros k.
  unfold interface_step. case_match.
  - destruct H as (n & c & Hc1 & Hl). rewrite Hl, Hc. case_match; [|by right; left].
    destruct (a_interfaces a !! k); [by left|]. right; right. eauto.
  - subst. destruct (processConfigEvent_frame _ _ _ Hp) as [-> _]. by left.
Qed.

End interfaces.

(** ** What travels from the LIE machines to the flood engine *)

(** A node [id] at [remote] that a node of the identity may have as neighbour. *)
Definition peer_ok (systemID level id remote : Z) : Prop :=
  id <> systemID /\ id <> IllegalSystemID /\
  (level = LeafLevel \/ remote = LeafLevel \/ Z.abs (level - remote) <= 1).

Section invariant.
(** The identities the node may have had. *)
Variable P : Z -> Z -> Prop.

Definition peer_of (id remote : Z) : Prop :=
  exists systemID level, P systemID level /\ peer_ok systemID level id remote.

Definition machine_ok (k : string) (f : FSM) : Prop :=
  exists systemID level nodeName linkID, P systemID level /\
    lie_reachable systemID level nodeName k linkID f.

Definition adjEvent_ok (ev : AdjacencyEvent) : Prop :=
  (AE_State ev = ThreeWay -> is_Some (AE_Neighbor ev)) /\
  forall n, AE_Neighbor ev = Some n -> peer_of (NS_SystemID n) (NS_Level n).

Definition adj_ok (k : string) (adj : AdjacencyInfo) : Prop :=
  AI_InterfaceName adj = k /\ peer_of (AI_NeighborID adj) (AI_NeighborLevel adj).

Record sys_inv (s : System) : Prop := {
  inv_machine k i : a_interfaces (s_agent s) !! k = Some i -> machine_ok k (is_fsm i);
  inv_events : Forall adjEvent_ok (s_adjEventCh s);
  inv_changes : Forall (fun ch => forall info, AC_Info ch = Some info ->
                          adj_ok (AC_InterfaceName ch) info) (a_AdjChangeCh (s_agent s));
  inv_flood k adj : Adjacencies (s_flood s) !! k = Some adj -> adj_ok k adj
}.

(** The configured identity is one of them. *)
Definition identity_ok (a : Agent) : Prop :=
  forall n c, a_cfg a = Some (n, c) -> P (cfg_SystemID c) (cfg_Level c).

Lemma reachable_identity systemID level nodeName ifName localID f :
  lie_reachable systemID level nodeName ifName localID f ->
  identity f = (systemID, level, ifName, nodeName, localID).
Proof.
  induction 1 as [|f f' _ IH [clk|clk pkt src]]; [done| |].
  - rewrite <-IH. apply (identity_drain _ _ (push EventTimerTick f)).
  - by rewrite identity_HandlePacket.
Qed.

Lemma acceptable_peer f n : acceptable f n -> peer_ok (f_systemID f) (f_level f) (NS_SystemID n) (NS_Level n).
Proof.
  intros (H1 & H2 & H3). split_and!; [done|done|]. unfold levelAcceptable in H3.
  destruct (Z.eqb_spec (f_level f) LeafLevel); [by left|].
  destruct (Z.eqb_spec (NS_Level n) LeafLevel); [by right; left|]. right; right. by apply Z.leb_le.
Qed.

Lemma lieInput_step i f : lie_step f (lieInput i f).
Proof. destruct i; constructor. Qed.

Lemma machine_step k f i : machine_ok k f -> machine_ok k (lieInput i f).
Proof.
  intros (sid & lvl & nm & link & HP & Hr). exists sid, lvl, nm, link. split; [done|].
  eapply lie_next; [done|apply lieInput_step].
Qed.

(** The new events of a machine are its own, with acceptable neighbours. *)
Lemma newEvents_ok k f i :
  machine_ok k f ->
  Forall (fun ev => adjEvent_ok ev /\ AE_InterfaceName ev = k) (newEvents f (lieInput i f)).
Proof.
  intros H%(machine_step k f i). set (f' := lieInput i f) in *.
  destruct H as (sid & lvl & nm & link & HP & Hr).
  apply Forall_drop. destruct (reachable_sound _ _ _ _ _ _ Hr) as [He _ _].
  apply reachable_identity in Hr as [= Hsid Hlvl Hif _ _].
  eapply Forall_impl; [exact He|]. intros ev [H1 H2 H3]. split; [split; [done|]|congruence].
  intros n Hn%H3%acceptable_peer. exists (f_systemID f'), (f_level f'). split; [|done].
  by rewrite Hsid, Hlvl.
Qed.

Lemma machine_start w n c a k i :
  identity_ok a -> a_cfg a = Some (n, c) -> started w c k = Some i -> machine_ok k (is_fsm i).
Proof.
  unfold started. intros Hid Hc. destruct (w_start w k) as [link|]; [|done]. intros [= <-].
  exists (cfg_SystemID c), (cfg_Level c), (nodeName (cfg_SystemID c)), link.
  split; [by eapply Hid|constructor].
Qed.

Lemma adj_ok_info k link n :
  peer_of (NS_SystemID n) (NS_Level n) -> adj_ok k (adjacencyInfo k link n).
Proof. by split. Qed.

(** Handlers that only change the interfaces. *)
Lemma inv_interfaces w s a' :
  (forall k, interface_step w (s_agent s) a' k) -> a_AdjChangeCh a' = a_AdjChangeCh (s_agent s) ->
  identity_ok a' -> sys_inv s -> sys_inv (s <| s_agent := a' |>).
Proof.
  intros Hk Ha Hid [I1 I2 I3 I4]. split; cbn; [|done|by rewrite Ha|done].
  intros k i Hi. destruct (Hk k) as [E|[E|(_ & n & c & Hc & E)]]; rewrite E in Hi.
  - by apply I1.
  - done.
  - by eapply machine_start.
Qed.

(** Handlers that leave the interfaces and the adjacencies alone. *)
Lemma inv_frame s a' fe' :
  a_interfaces a' = a_interfaces (s_agent s) -> a_AdjChangeCh a' = a_AdjChangeCh (s_agent s) ->
  Adjacencies fe' = Adjacencies (s_flood s) -> sys_inv s ->
  sys_inv (s <| s_agent := a' |> <| s_flood := fe' |>).
Proof. intros E1 E2 E3 [I1 I2 I3 I4]. split; cbn; [by rewrite E1|done|by rewrite E2|by rewrite E3]. Qed.

Lemma inv_adjacency w ev s :
  sys_inv s -> adjEvent_ok ev -> sys_inv (s <| s_agent := handleAdjacencyEvent w ev (s_agent s) |>).
Proof.
  intros [I1 I2 I3 I4] [Hthree Hpeer]. unfold handleAdjacencyEvent.
  destruct (a_interfaces (s_agent s) !! AE_InterfaceName ev) as [iface|] eqn:Ei; [|by split].
  pose proof (I1 _ _ Ei) as Hm.
  assert (forall i', is_fsm i' = is_fsm iface -> forall k i,
    <[AE_InterfaceName ev := i']> (a_interfaces (s_agent s)) !! k = Some i -> machine_ok k (is_fsm i)) as Hset.
  { intros i' E k i [[<- <-]|[_ ?]]%lookup_insert_Some; [by rewrite E|by apply I1]. }
  destruct (AE_State ev); try (split; cbn; [by apply Hset|done|by apply Forall_app; split; [|repeat constructor]|done]).
  destruct (AE_Neighbor ev) as [nbr|] eqn:En; [|by split].
  destruct (OpenFloodSocket _ _) as [opened tr]. destruct opened; cbn [negb]; [|by split].
  split; cbn; [by apply Hset|done| |done]. apply Forall_app. split; [done|].
  constructor; [|done]. cbn. intros info [= <-]. by apply adj_ok_info, Hpeer.
Qed.

Section steps.
Context {R : MapRange} {Q : Type} {PQ : PriorityQueue Q}.

Lemma maybeDisaggregate_frame entries adjs a :
  a_interfaces (maybeDisaggregate entries adjs a) = a_interfaces a /\
  a_AdjChangeCh (maybeDisaggregate entries adjs a) = a_AdjChangeCh a /\
  a_cfg (maybeDisaggregate entries adjs a) = a_cfg a.
Proof. unfold maybeDisaggregate, runDisaggregation. by repeat case_match. Qed.

Lemma maybeDisaggregate_routes entries adjs a :
  a_programmedRIB (maybeDisaggregate entries adjs a) = a_programmedRIB a /\
  a_requests (maybeDisaggregate entries adjs a) = a_requests a /\
  a_spfEngine (maybeDisaggregate entries adjs a) = a_spfEngine a.
Proof. unfold maybeDisaggregate, runDisaggregation. by repeat case_match. Qed.

Lemma handleSpfTimer_frame w entries adjs entries' adjs' a a' :
  handleSpfTimer w entries adjs entries' adjs' a = Some a' ->
  a_interfaces a' = a_interfaces a /\ a_AdjChangeCh a' = a_AdjChangeCh a /\ a_cfg a' = a_cfg a.
Proof.
  unfold handleSpfTimer. destruct (Run entries adjs (a_spfEngine a)) as [e|]; [|done].
  cbn [mbind option_bind].
  set (a1 := _ <| a_spfRuns := _ |>). destruct (maybeDisaggregate_frame entries' adjs' a1) as (E1 & E2 & E3).
  destruct (syncRoutes _ _ _ _) as [[rib log]|]; cbn [mbind option_bind]; [|done].
  intros [= <-]. by split_and!.
Qed.

Lemma floodStep_stable ev fe fe' :
  (forall change, ev <> EvAdjChange change) -> floodStep ev fe = Some fe' ->
  Adjacencies fe' = Adjacencies fe.
Proof.
  unfold floodStep. destruct (handleEvent ev fe) as [fe1|] eqn:E; [|done]. intros Hev [= <-].
  by apply (stable_handleEvent ev).
Qed.

Lemma inv_step l s s' :
  sys_inv s -> sysStep l s = Some s' -> identity_ok (s_agent s') -> sys_inv s'.
Proof.
  intros I Hs Hid. destruct l as [w ev|w ev|w|w entries' adjs'| |name i| | |ev]; cbn [sysStep] in Hs.
  - injection Hs as <-. destruct (handleInterfaceEvent_step w ev (s_agent s)) as (H1 & _ & H2).
    by eapply inv_interfaces.
  - destruct (handleConfigChange w ev (s_agent s)) as [a|] eqn:E; [|done]. injection Hs as <-.
    apply handleConfigChange_step in E as [H1 H2]. by eapply inv_interfaces.
  - destruct (s_adjEventCh s) as [|ev evs] eqn:E; [done|]. injection Hs as <-.
    destruct I as [I1 I2 I3 I4]. rewrite E in I2. apply Forall_cons in I2 as [Hev I2].
    assert (sys_inv (s <| s_adjEventCh := evs |>)) as I by by split.
    exact (inv_adjacency w ev _ I Hev).
  - destruct (a_spfTimer (s_agent s)); [|done].
    destruct (handleSpfTimer _ _ _ _ _ _) as [a|] eqn:E; [|done]. injection Hs as <-.
    apply handleSpfTimer_frame in E as (H1 & H2 & _). by apply (inv_frame s a (s_flood s)).
  - destruct (fe_LSDBChangeCh (s_flood s)); [|done].
    destruct (floodStep _ _) as [fe|] eqn:E; [|done]. injection Hs as <-.
    apply floodStep_stable in E; [|done]. by apply inv_frame.
  - destruct (a_interfaces (s_agent s) !! name) as [iface|] eqn:E; [|done]. injection Hs as <-.
    destruct I as [I1 I2 I3 I4]. split; cbn; [| |done|done].
    + intros k j [[<- <-]|[_ ?]]%lookup_insert_Some; [by apply machine_step, I1|by apply I1].
    + apply Forall_app. split; [done|]. eapply Forall_impl; [by apply (newEvents_ok name), I1|].
      by intros ev [? _].
  - destruct (a_AdjChangeCh (s_agent s)) as [|change changes] eqn:E; [done|].
    destruct (floodStep _ _) as [fe|] eqn:Ef; [|done]. injection Hs as <-.
    unfold floodStep in Ef. cbn in Ef. injection Ef as <-.
    destruct I as [I1 I2 I3 I4]. rewrite E in I3. apply Forall_cons in I3 as [Hc I3].
    split; cbn; [done|done|done|]. intros k adj. rewrite Adjacencies_handleAdjChange.
    destruct (AC_Info change) as [info|] eqn:Ei.
    + intros [[<- <-]|[_ ?]]%lookup_insert_Some; [by apply Hc|by apply I4].
    + intros [_ ?]%lookup_delete_Some. by apply I4.
  - destruct (a_DisaggUpdateCh (s_agent s)) as [prefixes|]; [|done].
    cbn [mbind option_bind] in Hs.
    destruct (floodStep _ _) as [fe|] eqn:Ef; [|done]. injection Hs as <-.
    apply floodStep_stable in Ef; [|done]. by apply inv_frame.
  - destruct (ownEvent ev) eqn:Eo; [|done]. destruct (floodStep _ _) as [fe|] eqn:Ef; [|done].
    injection Hs as <-. apply floodStep_stable in Ef; [|by intros ? ->].
    by apply (inv_frame s (s_agent s)).
Qed.

End steps.
End invariant.

(** ** The machines and the flood engine agree *)

Definition applyChange (k : string) (b : bool) (ch : AdjacencyChange) : bool :=
  if decide (AC_InterfaceName ch = k) then bool_decide (is_Some (AC_Info ch)) else b.

Definition applyEvent (k : string) (b : bool) (ev : AdjacencyEvent) : bool :=
  if decide (AE_InterfaceName ev = k) then bool_decide (AE_State ev = ThreeWay) else b.

(** Whether the flood engine will have an adjacency on [k] once everything that
    is under way has arrived. *)
Definition view (s : System) (k : string) : bool :=
  foldl (applyEvent k)
    (foldl (applyChange k) (bool_decide (is_Some (Adjacencies (s_flood s) !! k)))
       (a_AdjChangeCh (s_agent s)))
    (s_adjEventCh s).

Definition agree (s : System) : Prop :=
  forall k,
    match a_interfaces (s_agent s) !! k with
    | Some i => view s k = bool_decide (f_state (is_fsm i) = ThreeWay)
    | None => view s k = false /\ Forall (fun ev => AE_InterfaceName ev <> k) (s_adjEventCh s)
    end.

(** No interface is stopped, and flood sockets open. *)
Definition undisturbed (l : Label) (s s' : System) : Prop :=
  (forall k, is_Some (a_interfaces (s_agent s) !! k) -> is_Some (a_interfaces (s_agent s') !! k)) /\
  match l with LAdjacency w => forall name, w_flood w name = true | _ => True end.

Lemma applyEvent_own k b evs :
  Forall (fun ev => AE_InterfaceName ev = k) evs ->
  foldl (applyEvent k) b evs = from_option (fun ev => bool_decide (AE_State ev = ThreeWay)) b (last evs).
Proof.
  intros H. destruct evs as [|ev evs _] using rev_ind; [done|].
  rewrite foldl_snoc, last_snoc. apply Forall_app in H as [_ [Hk _]%Forall_cons].
  unfold applyEvent. by rewrite decide_True.
Qed.

Lemma applyEvent_other k k' b evs :
  k <> k' -> Forall (fun ev => AE_InterfaceName ev = k) evs -> foldl (applyEvent k') b evs = b.
Proof.
  intros Hk H. induction H as [|ev evs He _ IH]; cbn; [done|].
  unfold applyEvent at 2. by rewrite decide_False by congruence.
Qed.

(** The last event of a machine tells its state, the new ones included. *)
Lemma newEvents_last f i :
  announced f -> announced (lieInput i f) ->
  from_option (fun ev => bool_decide (AE_State ev = ThreeWay)) (bool_decide (f_state f = ThreeWay))
    (last (newEvents f (lieInput i f))) = bool_decide (f_state (lieInput i f) = ThreeWay).
Proof.
  set (f' := lieInput i f). intros [H1 _ _] [H2 _ _].
  destruct (step_channel f f' (lieInput_step i f)) as [evs E].
  unfold newEvents. fold f'. rewrite E, drop_app_length.
  destruct evs as [|ev evs _] using rev_ind.
  - rewrite app_nil_r in E. rewrite E in H2. cbn.
    destruct (last (f_stateChangeCh f)); by rewrite <-H1, <-H2 || rewrite H1, H2.
  - rewrite E, app_assoc, last_snoc in H2. rewrite last_snoc. cbn. by rewrite H2.
Qed.

Section agreement.
Context {R : MapRange} {Q : Type} {PQ : PriorityQueue Q}.

Lemma agree_interfaces w s a' :
  (forall k, interface_step w (s_agent s) a' k) -> a_AdjChangeCh a' = a_AdjChangeCh (s_agent s) ->
  (forall k, is_Some (a_interfaces (s_agent s) !! k) -> is_Some (a_interfaces a' !! k)) ->
  agree s -> agree (s <| s_agent := a' |>).
Proof.
  intros Hk Ha Hs H k. specialize (H k). unfold view in *. cbn. rewrite Ha.
  destruct (Hk k) as [E|[E|(E0 & n & c & Hc & E)]].
  - by rewrite E.
  - specialize (Hs k). rewrite E in Hs |- *.
    destruct (a_interfaces (s_agent s) !! k); [|done]. by destruct (Hs ltac:(eauto)).
  - rewrite E0 in H. destruct H as [Hv He]. rewrite E. unfold started.
    destruct (w_start w k); cbn; [by rewrite Hv|done].
Qed.

Lemma agree_frame s a' fe' :
  a_interfaces a' = a_interfaces (s_agent s) -> a_AdjChangeCh a' = a_AdjChangeCh (s_agent s) ->
  Adjacencies fe' = Adjacencies (s_flood s) -> agree s ->
  agree (s <| s_agent := a' |> <| s_flood := fe' |>).
Proof. intros E1 E2 E3 H k. specialize (H k). unfold view in *. cbn. by rewrite E1, E2, E3. Qed.

(** An event of a running interface whose socket opens is passed on. *)
Lemma handleAdjacencyEvent_passes w ev a i :
  a_interfaces a !! AE_InterfaceName ev = Some i -> (forall name, w_flood w name = true) ->
  (AE_State ev = ThreeWay -> is_Some (AE_Neighbor ev)) ->
  exists i' info, is_fsm i' = is_fsm i /\ (is_Some info <-> AE_State ev = ThreeWay) /\
    a_interfaces (handleAdjacencyEvent w ev a) = <[AE_InterfaceName ev := i']> (a_interfaces a) /\
    a_AdjChangeCh (handleAdjacencyEvent w ev a)
      = a_AdjChangeCh a ++ [mkAdjacencyChange (AE_InterfaceName ev) info].
Proof.
  intros Hi Hw Hn. unfold handleAdjacencyEvent. rewrite Hi.
  destruct (AE_State ev) eqn:Es;
    try (eexists _, None; split_and!; [| |done|done]; [done|split; [by intros []|done]]).
  destruct (Hn eq_refl) as [n ->]. unfold OpenFloodSocket. rewrite Hw.
  destruct (t_floodConn (is_transport i)); cbn [negb];
    (eexists _, (Some _); split_and!; [| |done|done]; [done|split; eauto]).
Qed.

Lemma agree_adjacency w ev evs s :
  s_adjEventCh s = ev :: evs -> (forall name, w_flood w name = true) ->
  (AE_State ev = ThreeWay -> is_Some (AE_Neighbor ev)) -> agree s ->
  agree (s <| s_agent := handleAdjacencyEvent w ev (s_agent s) |> <| s_adjEventCh := evs |>).
Proof.
  intros E Hw Hn H. pose proof (H (AE_InterfaceName ev)) as He.
  destruct (a_interfaces (s_agent s) !! AE_InterfaceName ev) as [i|] eqn:Ei; cycle 1.
  { rewrite E in He. destruct He as [_ [? _]%Forall_cons]. done. }
  destruct (handleAdjacencyEvent_passes w ev (s_agent s) i Ei Hw Hn) as (i' & info & Hf & Hinfo & H1 & H2).
  intros k. specialize (H k). unfold view in *. cbn. rewrite H1, H2, E in *. cbn [foldl] in *.
  rewrite foldl_snoc.
  assert (forall b, applyChange k b (mkAdjacencyChange (AE_InterfaceName ev) info) = applyEvent k b ev)
    as Hsame.
  { intros b. unfold applyChange, applyEvent. cbn [AC_InterfaceName AC_Info].
    destruct (decide (AE_InterfaceName ev = k)); [by apply bool_decide_ext|done]. }
  rewrite Hsame. destruct (decide (AE_InterfaceName ev = k)) as [<-|Hk].
  - by rewrite lookup_insert_eq, Hf.
  - rewrite lookup_insert_ne by done. revert H.
    destruct (a_interfaces (s_agent s) !! k); [done|]. by intros [? [_ ?]%Forall_cons].
Qed.

Lemma agree_lie name i iface s :
  a_interfaces (s_agent s) !! name = Some iface -> machine_ok (fun _ _ => True) name (is_fsm iface) ->
  agree s ->
  agree (s <| s_agent := setInterface name (iface <| is_fsm := lieInput i (is_fsm iface) |>) (s_agent s) |>
           <| s_adjEventCh := s_adjEventCh s ++ newEvents (is_fsm iface) (lieInput i (is_fsm iface)) |>).
Proof.
  intros Ei Hm H k.
  pose proof (newEvents_ok _ name (is_fsm iface) i Hm) as Hnew.
  assert (Forall (fun ev => AE_InterfaceName ev = name) (newEvents (is_fsm iface) (lieInput i (is_fsm iface))))
    as Hown by (eapply Forall_impl; [exact Hnew|]; by intros ? []).
  assert (announced (is_fsm iface) /\ announced (lieInput i (is_fsm iface))) as [A1 A2].
  { pose proof (machine_step _ name (is_fsm iface) i Hm) as Hm'.
    destruct Hm as (? & ? & ? & ? & _ & Hr), Hm' as (? & ? & ? & ? & _ & Hr').
    split; by eapply reachable_announced. }
  pose proof (H k) as Hk. unfold view in *. cbn. rewrite foldl_app.
  destruct (decide (name = k)) as [<-|Hne].
  - rewrite lookup_insert_eq. rewrite Ei in Hk. rewrite Hk, applyEvent_own by done.
    by apply newEvents_last.
  - rewrite lookup_insert_ne by done. rewrite (applyEvent_other name k) by done.
    revert Hk. destruct (a_interfaces (s_agent s) !! k); [done|]. intros [? Hev]. split; [done|].
    apply Forall_app. split; [done|]. eapply Forall_impl; [exact Hown|]. by intros ? ->.
Qed.

Lemma agree_change change changes s :
  a_AdjChangeCh (s_agent s) = change :: changes -> agree s ->
  agree (s <| s_agent := (s_agent s) <| a_AdjChangeCh := changes |> |>
           <| s_flood := handleAdjChange change (s_flood s) |>).
Proof.
  intros E H k. specialize (H k). unfold view in *. cbn. rewrite E in H. cbn [foldl] in H.
  assert (bool_decide (is_Some (Adjacencies (handleAdjChange change (s_flood s)) !! k)) =
    applyChange k (bool_decide (is_Some (Adjacencies (s_flood s) !! k))) change) as ->; [|exact H].
  rewrite Adjacencies_handleAdjChange. unfold applyChange.
  destruct (AC_Info change); case_decide as Hk.
  - subst. by rewrite lookup_insert_eq.
  - by rewrite lookup_insert_ne.
  - subst. by rewrite lookup_delete_eq.
  - by rewrite lookup_delete_ne.
Qed.

Lemma agree_step l s s' :
  sys_inv (fun _ _ => True) s -> sysStep l s = Some s' -> undisturbed l s s' -> agree s -> agree s'.
Proof.
  intros I Hs [Hstay Hopen] Ha. destruct l as [w ev|w ev|w|w entries' adjs'| |name i| | |ev]; cbn [sysStep] in Hs.
  - injection Hs as <-. destruct (handleInterfaceEvent_step w ev (s_agent s)) as (H1 & _ & H2).
    by eapply agree_interfaces.
  - destruct (handleConfigChange w ev (s_agent s)) as [a|] eqn:E; [|done]. injection Hs as <-.
    apply handleConfigChange_step in E as [H1 H2]. by eapply agree_interfaces.
  - destruct (s_adjEventCh s) as [|ev evs] eqn:E; [done|]. injection Hs as <-.
    apply agree_adjacency; [done|done| |done].
    pose proof (inv_events _ _ I) as Hev. rewrite E in Hev. by apply Forall_cons in Hev as [[? _] _].
  - destruct (a_spfTimer (s_agent s)); [|done].
    destruct (handleSpfTimer _ _ _ _ _ _) as [a|] eqn:E; [|done]. injection Hs as <-.
    apply handleSpfTimer_frame in E as (H1 & H2 & _). by apply (agree_frame s a (s_flood s)).
  - destruct (fe_LSDBChangeCh (s_flood s)); [|done].
    destruct (floodStep _ _) as [fe|] eqn:E; [|done]. injection Hs as <-.
    apply floodStep_stable in E; [|done]. by apply agree_frame.
  - destruct (a_interfaces (s_agent s) !! name) as [iface|] eqn:E; [|done]. injection Hs as <-.
    apply agree_lie; [done|by apply I|done].
  - destruct (a_AdjChangeCh (s_agent s)) as [|change changes] eqn:E; [done|].
    unfold floodStep in Hs. cbn [handleEvent mbind option_bind] in Hs. injection Hs as <-.
    exact (agree_change change changes s E Ha).
  - destruct (a_DisaggUpdateCh (s_agent s)) as [prefixes|]; [|done].
    cbn [mbind option_bind] in Hs.
    destruct (floodStep _ _) as [fe|] eqn:Ef; [|done]. injection Hs as <-.
    apply floodStep_stable in Ef; [|done]. by apply agree_frame.
  - destruct (ownEvent ev) eqn:Eo; [|done]. destruct (floodStep _ _) as [fe|] eqn:Ef; [|done].
    injection Hs as <-. apply floodStep_stable in Ef; [|by intros ? ->].
    by apply (agree_frame s (s_agent s)).
Qed.

End agreement.
