(* ===== verification/AgentTheorems.v ===== *)
(** * AgentTheorems: the properties of the agent: programming the routes,
    following the configuration, and keeping the flood engine's adjacencies. *)

From Stdlib Require Import Strings.Ascii.
From S2P Require Import Prelude.
From S2P Require Import Types.
From S2P Require Import Lsdb.
From S2P Require Import FloodState.
From S2P Require Import Flood.
From S2P Require Import LieFsm.
From S2P Require Import Netip.
From S2P Require Import Spf.
From S2P Require Import PrioQueue.
From S2P Require Import Southbound.
From S2P Require Import SpfEngine.
From S2P Require Import SpfTheorems.
From S2P Require Import Ndk.
From S2P Require Import Config.
From S2P Require Import Notifications.
From S2P Require Import Transport.
From S2P Require Import Agent.
From S2P Require Import Telemetry.
From S2P Require Import RouteSync.
From S2P Require Import AgentSpf.
From S2P Require Import AgentSystem.
From S2P Require Import AgentInv.

(** ** Programming the routes *)

(** A [World] in which interfaces start with link 10, sockets open, and every
    request succeeds. *)
Definition sample_world : World :=
  mkWorld (fun _ => Some 10) (fun _ => AddrV4 1) (fun _ => true) (fun _ _ => true).

Lemma sample_printable : prefixes_printable sample_fabric.
Proof. apply (bool_decide_unpack _). vm_compute. exact I. Qed.

Lemma sample_ipv4 : ipv4_adjacencies sample_adjacencies.
Proof. apply (bool_decide_unpack _). vm_compute. exact I. Qed.

(** C3: the FIB follows SPF: when the SPF timer fires, the link costs are positive
    and bounded so that no distance overflows, the LSDB's prefixes and the
    adjacencies are IPv4, and the route service answers with success, the run
    ends without a panic and the service then holds exactly the routes of the
    RIB that have a next hop, each through a next-hop group with the addresses
    of its next hops, and the agent's record of it is exact again. *)
Theorem spf_timer_programs {R : MapRange} {Q} {PQ : PriorityQueue Q} {S : RouteService}
    w entries adjs entries' adjs' a fib C
    (Hsvc : forall log req, w_svc w log req = true)
    (HC : 0 <= C) (Hcost : costs_ok entries C)
    (Hsize : C * Z.of_nat (size (originators entries)) < 2 ^ 31)
    (Hprefix : prefixes_printable entries) (Hadj : ipv4_adjacencies adjs)
    (Hsync : in_sync (a_programmedRIB a) fib) :
  exists a' reqs, handleSpfTimer w entries adjs entries' adjs' a = Some a' /\
    a_requests a' = a_requests a ++ reqs /\
    let fib' := fib_run (w_svc w) (a_requests a) reqs fib in
    let rib := RIBOf (a_spfEngine a') in
    in_sync (a_programmedRIB a') fib' /\
    (forall k d, fib_routes fib' !! k = Some d <->
       exists p r, rib !! p = Some r /\ Route_NextHops r <> [] /\ k = routeKey p /\
         d = mkRouteData (nhgName p) routePreference (uwrap 32 (Route_Metric r))) /\
    (forall p r, rib !! p = Some r -> Route_NextHops r <> [] ->
       exists nhs, fib_groups fib' !! groupKey p = Some nhs /\
         mapM addrToNDK (NH_Address <$> Route_NextHops r) = Some nhs).
Proof.
  destruct (run_programmable entries adjs C HC Hcost Hsize Hprefix Hadj (a_spfEngine a)) as (e & Hrun & Hp).
  unfold handleSpfTimer. rewrite Hrun. cbn [mbind option_bind].
  set (a1 := _ <| a_spfRuns := _ |>).
  destruct (maybeDisaggregate_routes entries' adjs' a1) as (E1 & E2 & E3). rewrite E1, E2.
  change (a_programmedRIB a1) with (a_programmedRIB a). change (a_requests a1) with (a_requests a).
  destruct (syncRoutes_in_sync (w_svc w) Hsvc (RIBOf e) (a_programmedRIB a) (a_requests a) fib Hp Hsync)
    as (reqs & -> & Hs). cbn [mbind option_bind].
  eexists _, reqs. split; [reflexivity|]. cbn [a_requests a_programmedRIB a_spfEngine set_field].
  split; [done|]. cbv zeta. split; [exact Hs|].
  assert (RIBOf (a_spfEngine (maybeDisaggregate entries' adjs' a1)) = RIBOf e) as -> by (by rewrite E3).
  split.
  - intros k d. rewrite (sync_routes _ _ Hs). setoid_rewrite target_lookup. split.
    + intros (p & pr & (r & Hr & Hh & ->) & -> & ->). by exists p, r.
    + intros (p & r & Hr & Hh & -> & ->). exists p, (programmed p r). split; [by exists r|done].
  - intros p r Hr Hh. destruct (proj2 (Hp p r Hr Hh)) as [nhs E]. exists nhs. split; [|done].
    apply (sync_groups _ _ Hs). exists p, (programmed p r). rewrite target_lookup. by split; [exists r|].
Qed.

(** The top node of the sample fabric, before its first run. *)
Definition sample_agent : Agent :=
  NewAgent <| a_cfg := Some (O, mkConfig "enable" 100 2 {["ethernet-1/1"]}) |>
           <| a_spfEngine := NewEngine 100 2 |> <| a_spfTimer := true |>.

Lemma spf_timer_programs_witness :
  exists a' reqs, handleSpfTimer (R := canonical_range) (PQ := Heap.binaryHeap) sample_world
      sample_fabric sample_adjacencies sample_fabric sample_adjacencies sample_agent = Some a' /\
    forall k d, fib_routes (fib_run (S := tableService) (w_svc sample_world) [] reqs fib_init) !! k = Some d <->
      exists p r, RIBOf (a_spfEngine a') !! p = Some r /\ Route_NextHops r <> [] /\ k = routeKey p /\
        d = mkRouteData (nhgName p) routePreference (uwrap 32 (Route_Metric r)).
Proof.
  destruct (spf_timer_programs (R := canonical_range) (PQ := Heap.binaryHeap) (S := tableService)
    sample_world sample_fabric sample_adjacencies sample_fabric sample_adjacencies sample_agent
    fib_init 1 (fun _ _ => eq_refl) ltac:(lia) sample_costs sample_size sample_printable sample_ipv4
    (proj2 (in_sync_nothing (S := tableService) fib_init) (conj eq_refl eq_refl))) as (a' & reqs & H1 & _ & _ & H2 & _).
  exists a', reqs. exact (conj H1 H2).
Defined.

(** C32: closing the agent empties the FIB: when the requests succeed, the service
    is left with no route and no next-hop group, the agent's record is empty
    and no interface runs. *)
Theorem Close_withdraws {R : MapRange} {S : RouteService} w a fib
    (Hsvc : forall log req, w_svc w log req = true)
    (Hsync : in_sync (a_programmedRIB a) fib) :
  exists a' reqs, Close w a = Some a' /\ a_requests a' = a_requests a ++ reqs /\
    a_interfaces a' = ∅ /\ a_programmedRIB a' = ∅ /\
    fib_routes (fib_run (w_svc w) (a_requests a) reqs fib) = ∅ /\
    fib_groups (fib_run (w_svc w) (a_requests a) reqs fib) = ∅.
Proof.
  destruct (withdraw_in_sync (w_svc w) Hsvc (a_programmedRIB a) (a_requests a) fib Hsync)
    as (reqs & E & Hs). unfold Close. rewrite E. cbn [mbind option_bind].
  set (a1 := a <| a_programmedRIB := ∅ |> <| a_requests := a_requests a ++ reqs |>).
  destruct (stopAll_spec (range_map (a_interfaces a)).*1 a1) as [Hr Hi].
  eexists _, reqs. split; [reflexivity|].
  split; [exact (f_equal a_requests Hr)|]. split_and!.
  - apply map_eq. intros k. rewrite lookup_empty, Hi. case_decide as Hk; [done|].
    apply eq_None_not_Some. intros [i Hk']. destruct Hk. apply list_elem_of_fmap.
    exists (k, i). by rewrite elem_of_range_map.
  - exact (f_equal a_programmedRIB Hr).
  - by apply in_sync_nothing.
  - by apply in_sync_nothing.
Qed.

(** The record of one route and the tables that match it. *)
Definition sample_route : Route :=
  mkRoute "10.0.0.0/24" 2 RouteTypeNorthPrefix [mkNextHop 1 (AddrV4 1) "ethernet-1/1"].

Definition sample_record : gmap string programmedRoute :=
  {["10.0.0.0/24"%string := programmed "10.0.0.0/24" sample_route]}.

Definition sample_tables : table :=
  mkTable {[routeKey "10.0.0.0/24" := mkRouteData (nhgName "10.0.0.0/24") routePreference 2]}
    {[groupKey "10.0.0.0/24" := [1]]} ∅.

Lemma sample_in_sync : in_sync (S := tableService) sample_record sample_tables.
Proof.
  assert (forall p pr, sample_record !! p = Some pr -> p = "10.0.0.0/24"%string /\
    pr = programmed "10.0.0.0/24" sample_route) as Hp.
  { intros p pr H. unfold sample_record in H. by apply lookup_singleton_Some in H as [<- <-]. }
  split.
  - intros p pr [-> ->]%Hp. split; [|done].
    exists 167772160, 24. split_and!; [apply is_int32; lia|lia|lia|vm_compute; reflexivity].
  - intros k d. change (fib_routes (RouteService := tableService) sample_tables) with
      ({[routeKey "10.0.0.0/24" := mkRouteData (nhgName "10.0.0.0/24") routePreference 2]} : gmap RouteKey RouteData).
    rewrite lookup_singleton_Some. split.
    + intros [<- <-]. exists "10.0.0.0/24"%string, (programmed "10.0.0.0/24" sample_route). by split_and!.
    + by intros (p & pr & [-> ->]%Hp & -> & ->).
  - intros k nhs. change (fib_groups (RouteService := tableService) sample_tables) with
      ({[groupKey "10.0.0.0/24" := [1]]} : gmap NextHopGroupKey (list Z)).
    rewrite lookup_singleton_Some. split.
    + intros [<- <-]. exists "10.0.0.0/24"%string, (programmed "10.0.0.0/24" sample_route). by split_and!.
    + by intros (p & pr & [-> ->]%Hp & -> & [= <-]).
  - intros p pr [-> ->]%Hp. by eexists.
Qed.

Definition sample_programmed : Agent := sample_agent <| a_programmedRIB := sample_record |>.

Lemma sample_programmed_in_sync :
  in_sync (S := tableService) (a_programmedRIB sample_programmed) sample_tables.
Proof. change (a_programmedRIB sample_programmed) with sample_record. apply sample_in_sync. Qed.

Lemma Close_withdraws_witness :
  exists a' reqs, Close (R := canonical_range) sample_world sample_programmed = Some a' /\ a_interfaces a' = ∅ /\
    fib_routes (fib_run (S := tableService) (w_svc sample_world) [] reqs sample_tables) = ∅.
Proof.
  destruct (Close_withdraws (R := canonical_range) (S := tableService) sample_world
    sample_programmed sample_tables (fun _ _ => eq_refl) sample_programmed_in_sync)
    as (a' & reqs & H1 & _ & H2 & _ & H3 & _).
  exists a', reqs. exact (conj H1 (conj H2 H3)).
Defined.

(** C39: a failed creation of a next-hop group is not repeated: although the service
    refused it, the agent records every route of the RIB as programmed, and
    every later sync of the same RIB sends no next-hop group at all, whatever
    the service answers then. *)
Theorem nhg_failure_not_retried {R : MapRange} svc newRIB old log
    (Hstart : forall log, svc log SyncStart = true)
    (Hip : forall p r, newRIB !! p = Some r -> all_ipv4 (NH_Address <$> Route_NextHops r)) :
  exists log1, syncRoutes svc newRIB old log = Some (target newRIB, log1) /\
    forall svc' log' rib log2, syncRoutes svc' newRIB (target newRIB) log' = Some (rib, log2) ->
      exists reqs, log2 = log' ++ reqs /\ Forall no_group_sent reqs.
Proof.
  destruct (syncRoutes_record svc newRIB old log Hstart Hip) as [log1 E].
  exists log1. split; [done|]. intros svc' log' rib log2. apply syncRoutes_recorded.
Qed.

(** A service that refuses next-hop groups. *)
Definition refuse_groups (log : list Request) (req : Request) : bool :=
  match req with NextHopGroupAddOrUpdate _ => false | _ => true end.

Definition sample_rib : RIB := {["10.0.0.0/24"%string := sample_route]}.

Lemma sample_rib_ipv4 p r : sample_rib !! p = Some r -> all_ipv4 (NH_Address <$> Route_NextHops r).
Proof. unfold sample_rib. intros [_ <-]%lookup_singleton_Some. by eexists. Qed.

Lemma nhg_failure_not_retried_witness :
  exists log1, syncRoutes (R := canonical_range) refuse_groups sample_rib ∅ [] = Some (target sample_rib, log1) /\
    forall log' rib log2, syncRoutes (R := canonical_range) (fun _ _ => true) sample_rib (target sample_rib) log'
      = Some (rib, log2) -> exists reqs, log2 = log' ++ reqs /\ Forall no_group_sent reqs.
Proof.
  destruct (nhg_failure_not_retried (R := canonical_range) refuse_groups sample_rib ∅ []
    (fun _ => eq_refl) sample_rib_ipv4) as (log1 & H1 & H2).
  exists log1. exact (conj H1 (H2 (fun _ _ => true))).
Defined.

(** C35: one unusable prefix empties the FIB: if a route with a next hop has a prefix
    that does not parse, such as an advertised length above 32, then the sync
    sends none of the routes but still closes the window, so that the service
    removes every route, while the agent records the whole RIB as programmed. *)
Theorem bad_prefix_empties_fib {R : MapRange} {S : RouteService} svc newRIB old log fib p r
    (Hsvc : forall log req, svc log req = true)
    (Hp : newRIB !! p = Some r) (Hh : Route_NextHops r <> []) (Hbad : prefixToNDK p = None)
    (Hip : forall q s, newRIB !! q = Some s -> all_ipv4 (NH_Address <$> Route_NextHops s)) :
  exists reqs, syncRoutes svc newRIB old log = Some (target newRIB, log ++ reqs) /\
    fib_routes (fib_run svc log reqs fib) = ∅.
Proof.
  destruct (syncRoutes_unparsed svc Hsvc newRIB old log p r Hp Hh Hbad Hip) as [groups E].
  eexists. split; [exact E|]. rewrite (fib_run_ok svc Hsvc). apply fib_routes_unparsed.
Qed.

(** A good route and one whose prefix, as received, has length 33. *)
Definition bad_prefix : string :=
  PrefixToString (mkIPPrefix (Some (mkIPv4Prefix 167772160 33)) None).

Definition poisoned_rib : RIB :=
  <[bad_prefix := sample_route <| Route_Prefix := bad_prefix |>]> sample_rib.

Lemma poisoned_ipv4 p r : poisoned_rib !! p = Some r -> all_ipv4 (NH_Address <$> Route_NextHops r).
Proof.
  unfold poisoned_rib. intros [[_ <-]|[_ H]]%lookup_insert_Some; [by eexists|by eapply sample_rib_ipv4].
Qed.

Lemma bad_prefix_empties_fib_witness :
  is_Some (poisoned_rib !! "10.0.0.0/24"%string) /\
  exists reqs, syncRoutes (R := canonical_range) (fun _ _ => true) poisoned_rib sample_record []
      = Some (target poisoned_rib, reqs) /\
    fib_routes (fib_run (S := tableService) (fun _ _ => true) [] reqs sample_tables) = ∅.
Proof.
  split; [vm_compute; eexists; reflexivity|].
  exact (bad_prefix_empties_fib (R := canonical_range) (S := tableService) (fun _ _ => true) poisoned_rib
    sample_record [] sample_tables bad_prefix (sample_route <| Route_Prefix := bad_prefix |>)
    (fun _ _ => eq_refl) (lookup_insert_eq _ _ _) ltac:(discriminate) ltac:(vm_compute; reflexivity)
    poisoned_ipv4).
Defined.

(** ** Following the configuration *)

(** C34: a commit decides which interfaces run: when a new valid configuration is
    committed it replaces the old one, the interfaces it does not name are
    stopped, those it names keep running untouched, and the others it names are
    started with a fresh OneWay machine of the new identity if the host allows. *)
Theorem commit_decides_interfaces {R : MapRange} w ev a n c
    (Hev : ce_JSPath ev = ".commit.end"%string) (Hp : a_pendingCfg a = Some (n, c))
    (Hv : Valid c = true) (Hnew : fst <$> a_cfg a <> Some n) :
  exists a', handleConfigChange w ev a = Some a' /\
    a_cfg a' = Some (n, c) /\
    forall k, a_interfaces a' !! k =
      if HasInterface c k then
        match a_interfaces a !! k with
        | Some i => Some i
        | None => newInterface w c k <$> w_start w k
        end
      else None.
Proof.
  set (a1 := a <| a_cfg := Some (n, c) |> <| a_pendingCfg := None |>).
  assert (processConfigEvent ev a = Some a1) as Ep.
  { unfold processConfigEvent. by rewrite Hev, Hp. }
  destruct (handleConfigChange w ev a) as [a'|] eqn:E; cycle 1.
  { exfalso. revert E. unfold handleConfigChange. rewrite Ep, Hev. cbn [mbind option_bind].
    repeat case_match; done. }
  exists a'. split; [done|]. apply handleConfigChange_cases in E as (a2 & Ha2 & Hc & _ & H).
  rewrite Ep in Ha2. injection Ha2 as <-. split; [exact Hc|]. rewrite Hev in H.
  assert (configReady a1 = true) as Hr by exact Hv.
  rewrite Hr, bool_decide_eq_true_2 in H by (cbn; congruence). cbn [String.eqb andb] in H.
  destruct H as (n' & c' & [= <- <-] & H). exact H.
Qed.

Definition sample_config : Config := mkConfig "enable" 1 1 {["ethernet-1/1"%string]}.
Definition sample_pending : Agent := NewAgent <| a_pendingCfg := Some (O, sample_config) |>.
Definition commit : ConfigEvent := mkConfigEvent ".commit.end" [] [] None.

Lemma commit_decides_interfaces_witness :
  exists a', handleConfigChange (R := canonical_range) sample_world commit
      sample_pending = Some a' /\
    is_Some (a_interfaces a' !! "ethernet-1/1"%string).
Proof.
  destruct (commit_decides_interfaces (R := canonical_range) sample_world commit
    sample_pending O sample_config eq_refl eq_refl
    ltac:(vm_compute; reflexivity) ltac:(discriminate)) as (a' & H1 & _ & H2).
  exists a'. split; [exact H1|]. rewrite (H2 "ethernet-1/1"%string). vm_compute. eexists. reflexivity.
Defined.

(** An interface configured on its own is not started: when the configuration
    gains an interface without a [.rift] notification, the event and the commit
    after it leave the interfaces that run as they are, although the new one is
    then configured. *)
Theorem late_interface_not_started {R : MapRange} w a n c name ev1 ev2
    (Hc : a_cfg a = Some (n, c)) (Hp : a_pendingCfg a = None)
    (H1 : ce_JSPath ev1 = ".rift.interface"%string) (Hname : eventInterface ev1 = Some (Some name))
    (H2 : ce_JSPath ev2 = ".commit.end"%string) :
  exists a1 a2, handleConfigChange w ev1 a = Some a1 /\ handleConfigChange w ev2 a1 = Some a2 /\
    configured a2 name = true /\ a_interfaces a2 = a_interfaces a.
Proof.
  set (a1 := a <| a_cfg := Some (addInterface name (n, c)) |>).
  exists a1, a1.
  assert (processConfigEvent ev1 a = Some a1) as E1.
  { unfold processConfigEvent. rewrite H1. cbn [String.eqb Ascii.eqb Bool.eqb].
    rewrite Hname. cbn [mbind option_bind]. by rewrite Hp, Hc. }
  assert (processConfigEvent ev2 a1 = Some a1) as E2.
  { unfold processConfigEvent. rewrite H2. change (a_pendingCfg a1) with (a_pendingCfg a). by rewrite Hp. }
  split_and!.
  - unfold handleConfigChange. by rewrite E1, H1.
  - unfold handleConfigChange. rewrite E2, H2. cbn [mbind option_bind]. by rewrite bool_decide_eq_true_2.
  - cbn. apply bool_decide_eq_true_2. set_solver.
  - done.
Qed.

Definition late_event : ConfigEvent :=
  mkConfigEvent ".rift.interface" (pathPrefix ++ chars "ethernet-1/2" ++ pathSuffix) [] None.

Lemma late_interface_not_started_witness :
  exists a1 a2, handleConfigChange (R := canonical_range) sample_world late_event sample_agent = Some a1 /\
    handleConfigChange (R := canonical_range) sample_world commit a1 = Some a2 /\
    configured a2 "ethernet-1/2" = true /\ a_interfaces a2 = ∅.
Proof.
  exact (late_interface_not_started (R := canonical_range) sample_world sample_agent O
    (mkConfig "enable" 100 2 {["ethernet-1/1"%string]}) "ethernet-1/2" late_event commit eq_refl eq_refl eq_refl
    ltac:(vm_compute; reflexivity) eq_refl).
Defined.

Lemma hasPrefix_spec s p : hasPrefix s p = true <-> exists t, s = p ++ t.
Proof.
  unfold hasPrefix. rewrite bool_decide_eq_true. split.
  - intros E. exists (drop (length p) s). rewrite <-E at 1. by rewrite take_drop.
  - intros [t ->]. by rewrite take_app_length.
Qed.

Lemma hasSuffix_spec s p : hasSuffix s p = true <-> exists t, s = t ++ p.
Proof.
  unfold hasSuffix. rewrite andb_true_iff, !bool_decide_eq_true. split.
  - intros [E _]. exists (take (length s - length p) s). rewrite <-E at 2. by rewrite take_drop.
  - intros [t ->]. rewrite length_app, Nat.add_sub, drop_app_length. split; [done|lia].
Qed.

(** A text with the prefix and the suffix: they overlap in one character or not
    at all. *)
Lemma prefix_suffix s t :
  pathPrefix ++ s = t ++ pathSuffix -> s = ["}"%char] \/ exists name, s = name ++ pathSuffix.
Proof.
  change pathSuffix with ([quote] ++ ["}"%char]). rewrite app_assoc.
  destruct s as [|x s _] using rev_ind; intros E.
  { apply (f_equal last) in E. rewrite app_nil_r, last_snoc in E. discriminate E. }
  rewrite app_assoc in E. apply app_inj_tail in E as [E ->].
  destruct s as [|y s _] using rev_ind; [by left|].
  rewrite app_assoc in E. apply app_inj_tail in E as [_ ->].
  right. exists s. by rewrite <-app_assoc.
Qed.

Lemma Extract_found name : ExtractInterfaceName (pathPrefix ++ name ++ pathSuffix) = Found name.
Proof.
  unfold ExtractInterfaceName.
  rewrite (proj2 (hasPrefix_spec _ _)) by eauto.
  rewrite (proj2 (hasSuffix_spec _ _)) by (exists (pathPrefix ++ name); by rewrite app_assoc).
  cbn [negb orb]. rewrite !length_app.
  replace (length pathPrefix + (length name + length pathSuffix) - length pathSuffix)%nat
    with (length pathPrefix + length name)%nat by lia.
  rewrite bool_decide_eq_false_2 by lia. rewrite drop_app_length.
  replace (length pathPrefix + length name - length pathPrefix)%nat with (length name) by lia.
  by rewrite take_app_length.
Qed.

(** C40: the name in a path: it is found exactly if the path is the prefix, the name
    and the suffix, and the slice in it panics exactly on the one path in which
    the quotation mark of the prefix is also that of the suffix. *)
Theorem ExtractInterfaceName_spec path :
  (forall name, ExtractInterfaceName path = Found name <-> path = pathPrefix ++ name ++ pathSuffix) /\
  (ExtractInterfaceName path = SlicePanic <-> path = pathPrefix ++ ["}"%char]).
Proof.
  assert (forall name, ExtractInterfaceName (pathPrefix ++ name ++ pathSuffix) = Found name) as Hf
    by apply Extract_found.
  assert (ExtractInterfaceName (pathPrefix ++ ["}"%char]) = SlicePanic) as Hs by (vm_compute; reflexivity).
  assert (ExtractInterfaceName path <> NotFound ->
    path = pathPrefix ++ ["}"%char] \/ exists name, path = pathPrefix ++ name ++ pathSuffix) as Hex.
  { unfold ExtractInterfaceName.
    destruct (hasPrefix path pathPrefix) eqn:Hp; [|done].
    destruct (hasSuffix path pathSuffix) eqn:Hq; [intros _|done].
    apply hasPrefix_spec in Hp as [s ->]. apply hasSuffix_spec in Hq as [t E].
    apply prefix_suffix in E as [->|[name ->]]; eauto. }
  split; [intros name|]; split.
  - intros E. destruct Hex as [->|[name' ->]]; [by rewrite E|congruence|].
    rewrite Hf in E. by injection E as ->.
  - intros ->. apply Hf.
  - intros E. destruct Hex as [->|[name' ->]]; [by rewrite E|done|]. by rewrite Hf in E.
  - intros ->. exact Hs.
Qed.

(** The path under which an interface's adjacency is published is that of its
    configuration: the name in it is the quoted one, which is the name itself
    exactly when nothing in it needs an escape. *)
Lemma telemetry_path name :
  ExtractInterfaceName (interfacePath name) = Found (chars name ≫= escape) /\
  (ExtractInterfaceName (interfacePath name) = Found (chars name) <-> Forall plain (chars name)).
Proof.
  assert (interfacePath name = pathPrefix ++ (chars name ≫= escape) ++ pathSuffix) as ->.
  { unfold interfacePath, Quote, pathPrefix, pathSuffix. by rewrite <-!app_assoc. }
  rewrite Extract_found. split; [done|]. rewrite <-escapes_id. split; [by intros [= ->]|by intros ->].
Qed.

(** ** The prefixes of the local interfaces *)

(** What is originated for an interface: the address as it is, host bits included. *)
Definition ownPrefix (name : string) (addr len : Z) : LocalPrefix :=
  let loopback := String.eqb name "system0.0" in
  mkLocalPrefix (mkIPPrefix (Some (mkIPv4Prefix (wrap 32 addr)
    (if loopback then 32 else wrap 8 len))) None) loopback 1.

Lemma octet_wrap addr i : i ∈ [0; 8; 16; 24] ->
  octet (Z.shiftr (wrap 32 addr) i) = octet (Z.shiftr addr i).
Proof.
  intros Hi. unfold octet, uwrap, wrap.
  change (2 ^ (32 - 1)) with 2147483648. change (2 ^ 32) with 4294967296. change (2 ^ 8) with 256.
  rewrite !elem_of_cons in Hi.
  destruct Hi as [->|[->|[->|[->|[]%elem_of_nil]]]]; rewrite !Z.shiftr_div_pow2 by lia;
    [change (2 ^ 0) with 1|change (2 ^ 8) with 256|change (2 ^ 16) with 65536
    |change (2 ^ 24) with 16777216]; divlia.
Qed.

Lemma IPv4ToPrefix_wrap addr len :
  IPv4ToPrefix (AddrV4 addr) len = Some (mkIPPrefix (Some (mkIPv4Prefix (wrap 32 addr) len)) None).
Proof.
  assert (forall z, Z.land z 255 = octet z) as Hland.
  { intros z. change 255 with (Z.ones 8). by rewrite Z.land_ones by lia. }
  unfold IPv4ToPrefix. cbn [As4]. cbv zeta. do 4 f_equal. rewrite !Hland.
  change (8 * 0) with 0. change (8 * 1) with 8. change (8 * 2) with 16. change (8 * 3) with 24.
  rewrite <-(octets_join (wrap 32 addr)) by (apply wrap_is_int; lia).
  rewrite <-(Z.shiftr_0_r (wrap 32 addr)) at 4.
  by rewrite !octet_wrap by (by rewrite !elem_of_cons; auto).
Qed.

Lemma localPrefix_own name addr len :
  localPrefix (name, (AddrV4 addr, len)) = Some (ownPrefix name addr len).
Proof.
  unfold localPrefix, ownPrefix. rewrite !IPv4ToPrefix_wrap. by destruct (String.eqb _ _).
Qed.

(** The text is an IPv4 prefix with the given length and address, and the address
    is not in 127.0.0.0/8. *)
Definition usable (t : string) (addr len : Z) : Prop :=
  exists o0 o1 o2 o3, ParsePrefix t = Some ([o0; o1; o2; o3], len) /\ o0 <> 127 /\
    addr = wrap 32 (((o0 * 256 + o1) * 256 + o2) * 256 + o3).

(** The first usable text of an interface that counts. *)
Definition usedInterface (ifaces : list NetInterface) (name : string) (addr len : Z) : Prop :=
  exists pre t post, mkNetInterface name false (Some (pre ++ t :: post)) ∈ ifaces /\
    name ∉ ["gateway"; "mgmt0.0"]%string /\ usable t addr len /\
    forall u a l, u ∈ pre -> ~ usable u a l.

Lemma usable_spec t addr len :
  usable t addr len <-> exists raw, ParsePrefix t = Some (raw, len) /\ IsLoopback raw = false /\
    exists z, rawAddr raw = AddrV4 z /\ addr = wrap 32 z.
Proof.
  split.
  - intros (o0 & o1 & o2 & o3 & Hp & Ho & ->). eexists. split; [exact Hp|].
    split; [by apply Z.eqb_neq|]. by eexists.
  - intros (raw & Hp & Hl & z & Hz & ->).
    destruct (ParsePrefix_shape _ _ _ Hp) as [(o0 & o1 & o2 & o3 & ->) _].
    exists o0, o1, o2, o3. split; [exact Hp|]. split; [by apply Z.eqb_neq|].
    by injection Hz as <-.
Qed.

Lemma skipInterface_false name lo addrs :
  skipInterface (mkNetInterface name lo addrs) = false <->
  lo = false /\ name ∉ ["gateway"; "mgmt0.0"]%string.
Proof.
  unfold skipInterface. cbn. rewrite !orb_false_iff, !String.eqb_neq, !not_elem_of_cons.
  pose proof (not_elem_of_nil name). tauto.
Qed.

Lemma interfacePrefix_spec ifaces name addr len :
  (exists iface z, iface ∈ ifaces /\ ni_Name iface = name /\
     interfacePrefix iface = Some (AddrV4 z, len) /\ addr = wrap 32 z) <->
  usedInterface ifaces name addr len.
Proof.
  split.
  - intros ([nm lo addrs] & z & Hin & Hnm & Hp & ->). cbn in Hnm. subst nm.
    unfold interfacePrefix in Hp. destruct (skipInterface _) eqn:Hs; [done|].
    apply skipInterface_false in Hs as [-> Hs]. apply bind_Some in Hp as (l & Hl & Hp).
    cbn in Hl. subst addrs.
    apply firstIPv4_spec in Hp as (pre & t & post & raw & -> & Hp & Ho & Hz & Hpre).
    apply negb_true_iff in Ho. exists pre, t, post. split_and!; [done|done| |].
    + apply usable_spec. eauto 10.
    + intros u a l Hu (raw' & Hp' & Hlo & _)%usable_spec.
      specialize (Hpre u raw' l Hu Hp'). by rewrite Hlo in Hpre.
  - intros (pre & t & post & Hin & Hn & (raw & Hp & Hlo & z & Hz & ->)%usable_spec & Hpre).
    eexists _, z. split; [exact Hin|]. split; [done|]. split; [|done].
    unfold interfacePrefix. rewrite (proj2 (skipInterface_false _ _ _) (conj eq_refl Hn)). cbn.
    apply firstIPv4_spec. exists pre, t, post, raw. split_and!; [done|done|by rewrite Hlo|done|].
    intros u raw' l Hu Hp'. apply negb_false_iff. destruct (IsLoopback raw') eqn:E; [done|].
    destruct (ParsePrefix_shape _ _ _ Hp') as [(o0 & o1 & o2 & o3 & ->) _].
    edestruct (Hpre u); [done|]. apply usable_spec. eauto 10.
Qed.

(** What is originated for it. *)
Lemma used_own ifaces name addr len lp : usedInterface ifaces name addr len ->
  lp = ownPrefix name addr len <->
  name = "system0.0"%string /\
    lp = mkLocalPrefix (mkIPPrefix (Some (mkIPv4Prefix addr 32)) None) true 1 \/
  name <> "system0.0"%string /\
    lp = mkLocalPrefix (mkIPPrefix (Some (mkIPv4Prefix addr len)) None) false 1.
Proof.
  intros (_ & _ & _ & _ & _ & (? & ? & ? & ? & [_ Hl]%ParsePrefix_shape & _ & ->) & _).
  unfold ownPrefix. rewrite wrap_wrap, (wrap_id 8 len) by (lia || (apply is_int8; lia)).
  destruct (String.eqb_spec name "system0.0"); tauto.
Qed.

(** C37: the local prefixes: whatever interfaces with different names the namespace
    has, finding the local prefixes does not fail.  They are exactly: for each
    interface without the loopback flag, whose name is neither [gateway] nor
    [mgmt0.0], the first of its addresses that is an IPv4 prefix outside
    127.0.0.0/8, with its own length and host bits; of [system0.0] the address as
    host route, marked as loopback. *)
Theorem local_prefixes {R : MapRange} ifaces (Hnd : NoDup (ni_Name <$> ifaces)) :
  exists lps, discoverLocalPrefixes (DiscoverAllPrefixes ifaces) = Some lps /\
  forall lp, lp ∈ lps <-> exists name pre t post addr len,
    mkNetInterface name false (Some (pre ++ t :: post)) ∈ ifaces /\
    name ∉ ["gateway"; "mgmt0.0"]%string /\
    usable t addr len /\ (forall u a l, u ∈ pre -> ~ usable u a l) /\
    ((name = "system0.0"%string /\
      lp = mkLocalPrefix (mkIPPrefix (Some (mkIPv4Prefix addr 32)) None) true 1) \/
     (name <> "system0.0"%string /\
      lp = mkLocalPrefix (mkIPPrefix (Some (mkIPv4Prefix addr len)) None) false 1)).
Proof.
  set (own kv := ownPrefix kv.1 (default 0 (As4 kv.2.1)) kv.2.2).
  exists (own <$> range_map (DiscoverAllPrefixes ifaces)). split.
  - apply mapM_Some. apply Forall2_fmap_r, Forall_Forall2_diag, Forall_forall.
    intros [name [addr len]] Hin%elem_of_range_map.
    destruct (DiscoverAllPrefixes_AddrV4 _ _ _ _ Hnd Hin) as [z ->]. apply localPrefix_own.
  - intros lp. rewrite list_elem_of_fmap.
    transitivity (exists name addr len, usedInterface ifaces name addr len /\
                    lp = ownPrefix name addr len).
    + split.
      * intros ([name [addr len]] & -> & Hin%elem_of_range_map).
        destruct (DiscoverAllPrefixes_AddrV4 _ _ _ _ Hnd Hin) as [z ->].
        apply DiscoverAllPrefixes_lookup in Hin as (iface & Hi & Hn & Hp); [|done].
        exists name, (wrap 32 z), len. split; [apply interfacePrefix_spec; eauto 10|].
        unfold own, ownPrefix. cbn. by rewrite wrap_wrap by lia.
      * intros (name & addr & len & (iface & z & Hi & Hn & Hp & ->)%interfacePrefix_spec & ->).
        exists (name, (AddrV4 z, len)). unfold own, ownPrefix. cbn. rewrite wrap_wrap by lia. split; [done|].
        apply elem_of_range_map, DiscoverAllPrefixes_lookup; eauto.
    + split.
      * intros (name & addr & len & Hu & Hlp). apply (used_own _ _ _ _ _ Hu) in Hlp.
        destruct Hu as (pre & t & post & ?). exists name, pre, t, post, addr, len. tauto.
      * intros (name & pre & t & post & addr & len & H1 & H2 & H3 & H4 & H5).
        assert (usedInterface ifaces name addr len) as Hu by by exists pre, t, post.
        exists name, addr, len. split; [done|]. by apply (used_own _ _ _ _ _ Hu).
Qed.

(** A spine: the loopback, its address, the management interface, a link whose
    address cannot be parsed first, and an IPv6 link. *)
Definition sample_namespace : list NetInterface := [
  mkNetInterface "lo" true (Some ["127.0.0.1/8"%string]);
  mkNetInterface "system0.0" false (Some ["10.0.0.11/32"%string]);
  mkNetInterface "mgmt0.0" false (Some ["172.20.20.2/24"%string]);
  mkNetInterface "e1-1.0" false (Some ["fe80::1/64"%string; "10.1.0.1/31"%string; "10.2.0.1/31"%string]);
  mkNetInterface "e1-2.0" false (Some ["fe80::2/64"%string])].

Lemma local_prefixes_witness : exists lps,
  discoverLocalPrefixes (R := canonical_range) (DiscoverAllPrefixes sample_namespace) = Some lps /\
  mkLocalPrefix (mkIPPrefix (Some (mkIPv4Prefix 167837697 31)) None) false 1 ∈ lps.
Proof.
  destruct (local_prefixes (R := canonical_range) sample_namespace) as (lps & E & Hl).
  - vm_compute. repeat constructor; rewrite ?elem_of_cons, elem_of_nil; naive_solver congruence.
  - exists lps. split; [exact E|]. apply Hl.
    exists "e1-1.0"%string, ["fe80::1/64"%string], "10.1.0.1/31"%string, ["10.2.0.1/31"%string], 167837697, 31.
    split_and!.
    + unfold sample_namespace. rewrite !elem_of_cons. auto.
    + rewrite !not_elem_of_cons. split_and!; [discriminate|discriminate|apply not_elem_of_nil].
    + exists 10, 1, 0, 1. split; [vm_compute; reflexivity|]. split; [lia|vm_compute; reflexivity].
    + intros u a l ->%list_elem_of_singleton (? & ? & ? & ? & H & _). vm_compute in H. discriminate H.
    + right. split; [discriminate|reflexivity].
Defined.

(** The subnet of a link keeps the host bits of its end: the end with the address
    [addr] originates it as prefix of length [len], so that the other end, with
    another address in the same subnet, originates another prefix. *)
Lemma host_bits_kept {R : MapRange} name addr len
    (Hname : name ∉ ["gateway"; "mgmt0.0"; "system0.0"]%string)
    (Ha : is_int 32 addr) (Hl : 0 <= len <= 32) (Hlo : octet (Z.shiftr addr 24) <> 127) :
  let p := mkIPPrefix (Some (mkIPv4Prefix addr len)) None in
  discoverLocalPrefixes (DiscoverAllPrefixes [mkNetInterface name false (Some [PrefixToString p])])
  = Some [mkLocalPrefix p false 1].
Proof.
  intros p. rewrite !not_elem_of_cons in Hname. destruct Hname as (Hg & Hm & Hs & _).
  assert (rawAddr (octets addr) = AddrV4 (uwrap 32 addr)) as Hraw.
  { unfold rawAddr, octets, octet, uwrap. cbn [foldl]. f_equal.
    rewrite !Z.shiftr_div_pow2 by lia. change (2 ^ 24) with 16777216. change (2 ^ 16) with 65536.
    change (2 ^ 8) with 256. change (2 ^ 32) with 4294967296. divlia. }
  assert (interfacePrefix (mkNetInterface name false (Some [PrefixToString p]))
          = Some (AddrV4 (uwrap 32 addr), len)) as Hi.
  { unfold interfacePrefix, skipInterface. cbn [ni_Name ni_Loopback ni_Addrs].
    rewrite (proj2 (String.eqb_neq _ _) Hg), (proj2 (String.eqb_neq _ _) Hm).
    cbn [orb mbind option_bind firstIPv4].
    unfold p. rewrite ParsePrefix_printed by (apply is_int8; lia).
    destruct (Z.leb_spec 0 len), (Z.leb_spec len 32); try lia. cbn [andb IsLoopback octets].
    apply Z.eqb_neq in Hlo. rewrite Hlo. cbn [negb]. fold (octets addr). by rewrite Hraw. }
  unfold DiscoverAllPrefixes, discoverLocalPrefixes. cbn [foldl]. unfold discoverPrefix.
  rewrite Hi, insert_empty, range_map_singleton. cbn [ni_Name mapM].
  rewrite localPrefix_own. unfold ownPrefix.
  rewrite (proj2 (String.eqb_neq _ _) Hs), wrap_uwrap, !wrap_id by (done || lia || (apply is_int8; lia)).
  done.
Qed.
