(* ===== verification/SystemTheorems.v ===== *)
(** * SystemTheorems: the properties of the agent, its LIE machines and the flood
    engine together, over every interleaving of their steps. *)

From Stdlib Require Import Strings.Ascii.
From S2P Require Import Prelude.
From S2P Require Import Types.
From S2P Require Import Wellformed.
From S2P Require Import Envelope.
From S2P Require Import CodecTheorems.
From S2P Require Import Lsdb.
From S2P Require Import FloodState.
From S2P Require Import Flood.
From S2P Require Import LieFsm.
From S2P Require Import Netip.
From S2P Require Import PrioQueue.
From S2P Require Import SpfEngine.
From S2P Require Import Ndk.
From S2P Require Import Config.
From S2P Require Import Notifications.
From S2P Require Import Transport.
From S2P Require Import Agent.
From S2P Require Import AgentSystem.
From S2P Require Import AgentInv.

(** ** Runs *)

Lemma reach_weaken {Q} {PQ : PriorityQueue Q} (ok ok' : Label -> System -> System -> Prop) s0 s :
  (forall l s s', ok l s s' -> ok' l s s') -> sys_reach ok s0 s -> sys_reach ok' s0 s.
Proof.
  intros Hok. induction 1 as [|R l s s' _ IH Hs Ho]; [constructor|].
  eapply reach_next; [done|done|by apply Hok].
Qed.

(** Labels that touch neither the configuration nor the set of interfaces. *)
Definition quiet (l : Label) : Prop :=
  match l with
  | LInterface _ _ | LConfig _ _ => False
  | LAdjacency w => forall name, w_flood w name = true
  | _ => True
  end.

Definition calm (l : Label) (s s' : System) : Prop :=
  undisturbed l s s' /\ a_cfg (s_agent s') = a_cfg (s_agent s).

Section quiet.
Context {R : MapRange} {Q : Type} {PQ : PriorityQueue Q}.

Lemma handleAdjacencyEvent_frame w ev a :
  a_cfg (handleAdjacencyEvent w ev a) = a_cfg a /\
  forall k, is_Some (a_interfaces a !! k) -> is_Some (a_interfaces (handleAdjacencyEvent w ev a) !! k).
Proof.
  unfold handleAdjacencyEvent. destruct (a_interfaces a !! _) as [i|]; [|done].
  assert (forall i' (m : gmap string interfaceState) k, is_Some (m !! k) -> is_Some (<[AE_InterfaceName ev := i']> m !! k)) as Hins.
  { intros i' m k ?. rewrite lookup_insert. by case_decide. }
  destruct (AE_State ev); try (split; [done|apply (Hins _ (a_interfaces a))]).
  destruct (AE_Neighbor ev); [|done]. destruct (OpenFloodSocket _ _) as [[] tr]; cbn [negb]; [|done].
  split; [done|apply (Hins _ (a_interfaces a))].
Qed.

Lemma quiet_calm l s s' : quiet l -> sysStep l s = Some s' -> calm l s s'.
Proof.
  intros Hq Hs. unfold calm, undisturbed. destruct l as [w ev|w ev|w|w entries' adjs'| |name i| | |ev];
    cbn [sysStep quiet] in *; try done.
  - destruct (s_adjEventCh s) as [|ev evs]; [done|]. injection Hs as <-.
    destruct (handleAdjacencyEvent_frame w ev (s_agent s)). by split_and!.
  - destruct (a_spfTimer (s_agent s)); [|done].
    destruct (handleSpfTimer _ _ _ _ _ _) as [a|] eqn:E; [|done]. injection Hs as <-.
    apply handleSpfTimer_frame in E as (H1 & _ & H2). cbn. by rewrite H1.
  - destruct (fe_LSDBChangeCh (s_flood s)); [|done].
    destruct (floodStep _ _) as [fe|] eqn:E; [|done]. by injection Hs as <-.
  - destruct (a_interfaces (s_agent s) !! name) as [iface|] eqn:E; [|done]. injection Hs as <-.
    split; [|done]. split; [|done]. intros k Hk. cbn. rewrite lookup_insert. by case_decide.
  - destruct (a_AdjChangeCh (s_agent s)); [done|].
    destruct (floodStep _ _) as [fe|] eqn:E; [|done]. by injection Hs as <-.
  - destruct (a_DisaggUpdateCh (s_agent s)); [|done]. cbn [mbind option_bind] in Hs.
    destruct (floodStep _ _) as [fe|] eqn:E; [|done]. by injection Hs as <-.
  - destruct (ownEvent ev); [|done]. destruct (floodStep _ _) as [fe|] eqn:E; [|done].
    by injection Hs as <-.
Qed.

(** A run of quiet labels reaches its end calmly. *)
Lemma quiet_reach ls s0 s s' :
  Forall quiet ls -> sys_reach calm s0 s -> sysRun ls s = Some s' -> sys_reach calm s0 s'.
Proof.
  intros Hq. revert s. induction Hq as [|l ls Hl _ IH]; intros s Hs; cbn [sysRun]; [by intros [= <-]|].
  destruct (sysStep l s) as [s1|] eqn:E; [|done]. cbn [mbind option_bind]. apply IH.
  eapply reach_next; [done|done|by apply quiet_calm].
Qed.

(** ** The start *)

Lemma waitForConfig_frame evs a a' :
  waitForConfig evs a = Some a' ->
  a_interfaces a' = a_interfaces a /\ a_AdjChangeCh a' = a_AdjChangeCh a.
Proof.
  revert a. induction evs as [|ev evs IH]; intros a; cbn [waitForConfig]; [done|].
  destruct (processConfigEvent ev a) as [a1|] eqn:E; [|done]. cbn [mbind option_bind].
  apply processConfigEvent_frame in E as [H1 H2]. destruct (configReady a1).
  - by intros [= <-].
  - intros [H3 H4]%IH. split; congruence.
Qed.

Lemma startAll_spec w n c l a :
  a_cfg a = Some (n, c) ->
  let a' := foldl (fun a ifName => startInterfaceLocked w ifName a) a l in
  rest a' = rest a /\
  forall k i, a_interfaces a' !! k = Some i -> a_interfaces a !! k = Some i \/ started w c k = Some i.
Proof.
  cbv zeta. revert a. induction l as [|m l IH]; intros a Hc; cbn [foldl]; [by auto|].
  destruct (startInterfaceLocked_spec w m a n c Hc) as [Hr Hl].
  destruct (IH (startInterfaceLocked w m a)) as [Hr' Hl']; [by rewrite (rest_cfg _ _ Hr)|].
  split; [by rewrite Hr'|]. intros k i [H|H]%Hl'; [|by right]. rewrite Hl in H.
  case_decide; [|by left]. destruct (a_interfaces a !! k) eqn:E; [left|right]; congruence.
Qed.

(** At the start the interfaces run fresh machines and nothing is under way. *)
Lemma boot_spec w evs allPrefixes s0 :
  boot w evs allPrefixes = Some s0 ->
  exists n c, a_cfg (s_agent s0) = Some (n, c) /\
    (forall k i, a_interfaces (s_agent s0) !! k = Some i -> started w c k = Some i) /\
    s_adjEventCh s0 = [] /\ a_AdjChangeCh (s_agent s0) = [] /\ Adjacencies (s_flood s0) = ∅ /\
    fe_systemID (s_flood s0) = cfg_SystemID c /\ fe_level (s_flood s0) = cfg_Level c.
Proof.
  unfold boot. destruct (waitForConfig evs NewAgent) as [a|] eqn:E; [|done]. cbn [mbind option_bind].
  apply waitForConfig_frame in E as [Hi Ha]. unfold startEngines.
  destruct (a_cfg a) as [[n c]|] eqn:Hc; [|done]. cbn [mbind option_bind].
  destruct (discoverLocalPrefixes allPrefixes) as [prefixes|]; [|done]. cbn [mbind option_bind].
  intros [= <-]. cbn [s_agent s_adjEventCh s_flood].
  match goal with |- context [startConfiguredInterfaces w ?x] => set (a1 := x) end.
  assert (startConfiguredInterfaces w a1 = foldl (fun a ifName => startInterfaceLocked w ifName a) a1
    (range_set (cfg_Interfaces c))) as ->.
  { unfold startConfiguredInterfaces. change (a_cfg a1) with (a_cfg a). by rewrite Hc. }
  destruct (startAll_spec w n c (range_set (cfg_Interfaces c)) a1 Hc) as [Hr Hl].
  exists n, c. split; [by rewrite (rest_cfg _ _ Hr)|]. split.
  - intros k i [H|H]%Hl; [|done]. change (a_interfaces a1) with (a_interfaces a) in H.
    by rewrite Hi in H.
  - split_and!; [done|exact (eq_trans (f_equal a_AdjChangeCh Hr) Ha)| |done|done].
    unfold Adjacencies. cbn. apply fmap_empty.
Qed.

Lemma boot_inv P w evs allPrefixes s0 :
  boot w evs allPrefixes = Some s0 -> identity_ok P (s_agent s0) -> sys_inv P s0.
Proof.
  intros (n & c & Hc & Hi & He & Ha & Hf & _)%boot_spec Hid. split.
  - intros k i H%Hi. by eapply machine_start.
  - by rewrite He.
  - by rewrite Ha.
  - intros k adj. by rewrite Hf, lookup_empty.
Qed.

Lemma boot_agree w evs allPrefixes s0 : boot w evs allPrefixes = Some s0 -> agree s0.
Proof.
  intros (n & c & Hc & Hi & He & Ha & Hf & _)%boot_spec k. unfold view. rewrite He, Ha, Hf, lookup_empty.
  destruct (a_interfaces (s_agent s0) !! k) as [i|] eqn:E; [|by split].
  apply Hi in E. unfold started in E. destruct (w_start w k); [|done]. by injection E as <-.
Qed.

End quiet.

(** ** A run of one spine *)

(** The notifications that configure node 1 at level 1 with one interface. *)
Definition spine_events : list ConfigEvent :=
  [mkConfigEvent ".rift" [] [] (Some (mkRiftJSON (Some "enable"%string) (Some "1"%string) (Some 1)));
   mkConfigEvent ".rift.interface" (pathPrefix ++ chars "ethernet-1/1" ++ pathSuffix) [] None;
   mkConfigEvent ".commit.end" [] [] None].

Definition spine_world : World :=
  mkWorld (fun _ => Some 10) (fun _ => AddrV4 1) (fun _ => true) (fun _ _ => true).

Definition spine_boot : System :=
  default (mkSystem NewAgent [] (NewFloodEngine 0 0 "" []))
    (boot (R := canonical_range) spine_world spine_events ∅).

(** LIEs of leaf 2 on its link 20, the second one reflecting the spine. *)
Definition leaf_lie (n : option Neighbor) : ProtocolPacket :=
  mkProtocolPacket (mkPacketHeader ProtocolMajorVersion ProtocolMinorVersion 2 (Some 0))
    (zeroPacketContent <| PC_LIE := Some (zeroLIEPacket <| LIE_Name := "rift-2"%string |>
       <| LIE_LocalID := 20 |> <| LIE_FloodPort := DefaultTIEUDPFloodPort |>
       <| LIE_Holdtime := DefaultLIEHoldtime |> <| LIE_Neighbor := n |>) |>).

Definition spine_labels : list Label :=
  [LLie "ethernet-1/1" (LiePacket (fun _ => 0) (leaf_lie None) (AddrV4 2));
   LLie "ethernet-1/1" (LiePacket (fun _ => 0) (leaf_lie (Some (mkNeighbor 1 10))) (AddrV4 2));
   LAdjacency spine_world; LAdjacency spine_world; LAdjChange; LAdjChange].

Definition spine_up : System :=
  default spine_boot (sysRun (R := canonical_range) (PQ := Heap.binaryHeap) spine_labels spine_boot).

Lemma spine_boots : boot (R := canonical_range) spine_world spine_events ∅ = Some spine_boot.
Proof.
  assert (is_Some (boot (R := canonical_range) spine_world spine_events ∅)) as [s E]
    by (vm_compute; eexists; reflexivity).
  unfold spine_boot. by rewrite E.
Qed.

Lemma spine_runs :
  sysRun (R := canonical_range) (PQ := Heap.binaryHeap) spine_labels spine_boot = Some spine_up.
Proof.
  assert (is_Some (sysRun (R := canonical_range) (PQ := Heap.binaryHeap) spine_labels spine_boot)) as [s E]
    by (vm_compute; eexists; reflexivity).
  unfold spine_up. by rewrite E.
Qed.

Lemma spine_reach : sys_reach (PQ := Heap.binaryHeap) calm spine_boot spine_up.
Proof.
  eapply (quiet_reach (R := canonical_range) spine_labels); [|constructor|exact spine_runs].
  repeat constructor.
Qed.

Lemma spine_up_facts :
  bool_decide (s_adjEventCh spine_up = [] /\ a_AdjChangeCh (s_agent spine_up) = [] /\
    is_Some (Adjacencies (s_flood spine_up) !! "ethernet-1/1"%string)) = true.
Proof. vm_compute. reflexivity. Qed.

(** ** Theorems *)

(** The configured identity never changes. *)
Definition same_identity (c : Config) (l : Label) (s s' : System) : Prop :=
  forall m d, a_cfg (s_agent s') = Some (m, d) ->
    cfg_SystemID d = cfg_SystemID c /\ cfg_Level d = cfg_Level c.

(** C10: what the flood engine floods over: in every state that the started program
    reaches while its identity stays the same, by any interleaving of its
    goroutines and whatever packets arrive, every adjacency of the flood engine
    is filed under its interface, is to another node with a legal identifier,
    and is at a level that this node may peer with. *)
Theorem flood_adjacencies_acceptable {R : MapRange} {Q} {PQ : PriorityQueue Q} w evs allPrefixes s0 s n c
    (Hboot : boot w evs allPrefixes = Some s0) (Hc : a_cfg (s_agent s0) = Some (n, c))
    (Hreach : sys_reach (same_identity c) s0 s) k adj
    (Hadj : Adjacencies (s_flood s) !! k = Some adj) :
  AI_InterfaceName adj = k /\
  peer_ok (cfg_SystemID c) (cfg_Level c) (AI_NeighborID adj) (AI_NeighborLevel adj).
Proof.
  assert (sys_inv (fun sid lvl => sid = cfg_SystemID c /\ lvl = cfg_Level c) s) as I.
  { clear Hadj. induction Hreach as [|R' l s1 s2 _ IH Hs Hid].
    - eapply boot_inv; [done|]. intros m d Hd. rewrite Hc in Hd. by injection Hd as <- <-.
    - eapply inv_step; [apply IH|done|]. exact Hid. }
  apply (inv_flood _ _ I) in Hadj as [? (sid & lvl & [-> ->] & ?)]. done.
Qed.

Lemma spine_same_identity : exists n c, a_cfg (s_agent spine_boot) = Some (n, c) /\
  sys_reach (PQ := Heap.binaryHeap) (same_identity c) spine_boot spine_up.
Proof.
  assert (is_Some (a_cfg (s_agent spine_boot))) as [[n c] Hc] by (vm_compute; eexists; reflexivity).
  exists n, c. split; [exact Hc|].
  assert (forall s, sys_reach (PQ := Heap.binaryHeap) calm spine_boot s ->
    a_cfg (s_agent s) = Some (n, c) /\ sys_reach (PQ := Heap.binaryHeap) (same_identity c) spine_boot s) as H.
  { induction 1 as [|R l s s' _ [IH1 IH2] Hs [_ E]]; [split; [exact Hc|constructor]|].
    split; [congruence|]. eapply reach_next; [exact IH2|exact Hs|].
    intros m d Hd. assert (Some (n, c) = Some (m, d)) as [= <- <-] by congruence. split; reflexivity. }
  apply H, spine_reach.
Qed.

Lemma flood_adjacencies_acceptable_witness :
  exists adj c, Adjacencies (s_flood spine_up) !! "ethernet-1/1"%string = Some adj /\
    peer_ok (cfg_SystemID c) (cfg_Level c) (AI_NeighborID adj) (AI_NeighborLevel adj).
Proof.
  destruct spine_same_identity as (n & c & Hc & Hr).
  destruct (bool_decide_eq_true_1 _ spine_up_facts) as (_ & _ & [adj Hadj]).
  exists adj, c. exact (conj Hadj (proj2 (flood_adjacencies_acceptable (R := canonical_range) (PQ := Heap.binaryHeap)
    spine_world spine_events ∅ spine_boot spine_up n c spine_boots Hc Hr "ethernet-1/1" adj Hadj))).
Defined.

(** C4: the flood engine follows the LIE machines: as long as no interface is
    stopped and the flood sockets open, then in every reachable state with no
    adjacency event and no adjacency change under way, the flood engine has an
    adjacency on exactly the interfaces whose machine is in ThreeWay. *)
Theorem adjacencies_agree {R : MapRange} {Q} {PQ : PriorityQueue Q} w evs allPrefixes s0 s
    (Hboot : boot w evs allPrefixes = Some s0) (Hreach : sys_reach undisturbed s0 s)
    (Hev : s_adjEventCh s = []) (Hch : a_AdjChangeCh (s_agent s) = []) k :
  is_Some (Adjacencies (s_flood s) !! k) <->
  exists i, a_interfaces (s_agent s) !! k = Some i /\ f_state (is_fsm i) = ThreeWay.
Proof.
  assert (sys_inv (fun _ _ => True) s /\ agree s) as [_ H].
  { clear Hev Hch. induction Hreach as [|R' l s1 s2 _ [IH1 IH2] Hs Hu].
    - split; [by eapply boot_inv|by eapply boot_agree].
    - split; [by eapply inv_step|by eapply agree_step]. }
  specialize (H k). unfold view in H. rewrite Hev, Hch in H. cbn [foldl] in H. revert H.
  destruct (a_interfaces (s_agent s) !! k) as [i|].
  - intros H. rewrite <-(bool_decide_eq_true (is_Some _)), H, bool_decide_eq_true.
    split; [by exists i|by intros (? & [= <-] & ?)].
  - intros [H%bool_decide_eq_false_1 _]. split; [done|]. by intros (? & ? & _).
Qed.

Lemma adjacencies_agree_witness :
  exists i, a_interfaces (s_agent spine_up) !! "ethernet-1/1"%string = Some i /\
    f_state (is_fsm i) = ThreeWay.
Proof.
  destruct (bool_decide_eq_true_1 _ spine_up_facts) as (H1 & H2 & H3).
  exact (proj1 (adjacencies_agree (R := canonical_range) (PQ := Heap.binaryHeap) spine_world spine_events ∅
    spine_boot spine_up spine_boots (reach_weaken calm undisturbed spine_boot spine_up (fun l s s' => @proj1 _ _)
      spine_reach) H1 H2 "ethernet-1/1") H3).
Defined.

(** Nothing on [k] runs or is under way, and the flood engine has [adj] on it. *)
Record silent (k : string) (adj : AdjacencyInfo) (s : System) : Prop := {
  silent_interface : a_interfaces (s_agent s) !! k = None;
  silent_changes : Forall (fun ch => AC_InterfaceName ch <> k) (a_AdjChangeCh (s_agent s));
  silent_flood : Adjacencies (s_flood s) !! k = Some adj
}.

Lemma handleAdjacencyEvent_silent w ev a k :
  a_interfaces a !! k = None -> Forall (fun ch => AC_InterfaceName ch <> k) (a_AdjChangeCh a) ->
  Forall (fun ch => AC_InterfaceName ch <> k) (a_AdjChangeCh (handleAdjacencyEvent w ev a)).
Proof.
  intros Hk Hc. unfold handleAdjacencyEvent.
  destruct (a_interfaces a !! AE_InterfaceName ev) as [i|] eqn:Ei; [|done].
  assert (AE_InterfaceName ev <> k) as Hne by congruence.
  assert (forall info, Forall (fun ch => AC_InterfaceName ch <> k)
    (a_AdjChangeCh a ++ [mkAdjacencyChange (AE_InterfaceName ev) info])) as Happ.
  { intros info. apply Forall_app. by repeat constructor. }
  destruct (AE_State ev); try apply Happ.
  destruct (AE_Neighbor ev); [|done]. destruct (OpenFloodSocket _ _) as [[] tr]; [apply Happ|done].
Qed.

Lemma silent_step {R : MapRange} {Q} {PQ : PriorityQueue Q} k adj l s s' :
  silent k adj s -> sysStep l s = Some s' -> a_interfaces (s_agent s') !! k = None -> silent k adj s'.
Proof.
  intros [H1 H2 H3] Hs Hn. split; [done| |]; clear Hn;
    destruct l as [w ev|w ev|w|w entries' adjs'| |name i| | |ev]; cbn [sysStep] in Hs.
  - injection Hs as <-. destruct (handleInterfaceEvent_step w ev (s_agent s)) as (E & _). cbn. by rewrite E.
  - destruct (handleConfigChange w ev (s_agent s)) as [a|] eqn:E; [|done]. injection Hs as <-.
    apply handleConfigChange_step in E as [E _]. cbn. by rewrite E.
  - destruct (s_adjEventCh s) as [|ev evs]; [done|]. injection Hs as <-. by apply handleAdjacencyEvent_silent.
  - destruct (a_spfTimer (s_agent s)); [|done].
    destruct (handleSpfTimer _ _ _ _ _ _) as [a|] eqn:E; [|done]. injection Hs as <-.
    apply handleSpfTimer_frame in E as (_ & E & _). cbn. by rewrite E.
  - destruct (fe_LSDBChangeCh (s_flood s)); [|done].
    destruct (floodStep _ _) as [fe|]; [|done]. by injection Hs as <-.
  - destruct (a_interfaces (s_agent s) !! name); [|done]. by injection Hs as <-.
  - destruct (a_AdjChangeCh (s_agent s)) as [|ch chs]; [done|].
    destruct (floodStep _ _) as [fe|]; [|done]. injection Hs as <-. by apply Forall_cons in H2 as [_ ?].
  - destruct (a_DisaggUpdateCh (s_agent s)); [|done]. cbn [mbind option_bind] in Hs.
    destruct (floodStep _ _) as [fe|]; [|done]. by injection Hs as <-.
  - destruct (ownEvent ev); [|done]. destruct (floodStep _ _) as [fe|]; [|done]. by injection Hs as <-.
  - by injection Hs as <-.
  - destruct (handleConfigChange w ev (s_agent s)); [|done]. by injection Hs as <-.
  - destruct (s_adjEventCh s); [done|]. by injection Hs as <-.
  - destruct (a_spfTimer (s_agent s)); [|done].
    destruct (handleSpfTimer _ _ _ _ _ _); [|done]. by injection Hs as <-.
  - destruct (fe_LSDBChangeCh (s_flood s)); [|done].
    destruct (floodStep _ _) as [fe|] eqn:E; [|done]. injection Hs as <-.
    apply floodStep_stable in E; [|done]. cbn. by rewrite E.
  - destruct (a_interfaces (s_agent s) !! name); [|done]. by injection Hs as <-.
  - destruct (a_AdjChangeCh (s_agent s)) as [|ch chs]; [done|].
    unfold floodStep in Hs. cbn [handleEvent mbind option_bind] in Hs. injection Hs as <-.
    apply Forall_cons in H2 as [Hne _]. cbn [s_flood]. rewrite Adjacencies_handleAdjChange.
    destruct (AC_Info ch); by rewrite ?lookup_insert_ne, ?lookup_delete_ne.
  - destruct (a_DisaggUpdateCh (s_agent s)); [|done]. cbn [mbind option_bind] in Hs.
    destruct (floodStep _ _) as [fe|] eqn:E; [|done]. injection Hs as <-.
    apply floodStep_stable in E; [|done]. cbn. by rewrite E.
  - destruct (ownEvent ev) eqn:Eo; [|done]. destruct (floodStep _ _) as [fe|] eqn:E; [|done].
    injection Hs as <-. apply floodStep_stable in E; [|by intros ? ->]. cbn. by rewrite E.
Qed.

(** C38: a link that goes down keeps its adjacency: when the agent is told that a
    running interface is down it stops the interface and tells the flood engine
    nothing, and unless the interface is started again the flood engine keeps
    the adjacency in every later state. *)
Theorem interface_down_keeps_adjacency {R : MapRange} {Q} {PQ : PriorityQueue Q} w ev s adj
    (Hup : is_Some (a_interfaces (s_agent s) !! ie_Name ev)) (Hcfg : configured (s_agent s) (ie_Name ev) = true)
    (Hadmin : ie_AdminUp ev = true) (Hdown : ie_OperUp ev = false)
    (Hadj : Adjacencies (s_flood s) !! ie_Name ev = Some adj)
    (Hch : Forall (fun ch => AC_InterfaceName ch <> ie_Name ev) (a_AdjChangeCh (s_agent s))) :
  exists s1, sysStep (LInterface w ev) s = Some s1 /\ a_interfaces (s_agent s1) !! ie_Name ev = None /\
    forall s2, sys_reach (fun _ _ s' => a_interfaces (s_agent s') !! ie_Name ev = None) s1 s2 ->
      Adjacencies (s_flood s2) !! ie_Name ev = Some adj.
Proof.
  eexists. split; [reflexivity|].
  assert (handleInterfaceEvent w ev (s_agent s) = stopInterfaceLocked (ie_Name ev) (s_agent s)) as ->.
  { unfold handleInterfaceEvent. rewrite Hcfg, Hadmin, Hdown, bool_decide_eq_true_2 by done. done. }
  split; [cbn; apply lookup_delete_eq|]. intros s2 Hreach.
  assert (silent (ie_Name ev) adj s2) as [_ _ H]; [|done].
  induction Hreach as [|R' l s1 s' _ IH Hs Hnone].
  - split; [cbn; apply lookup_delete_eq|done|done].
  - by eapply silent_step.
Qed.

Definition link_down : InterfaceEvent := mkInterfaceEvent "ethernet-1/1" true false 1500.

Lemma spine_up_runs :
  bool_decide (is_Some (a_interfaces (s_agent spine_up) !! ie_Name link_down)) = true /\
  configured (s_agent spine_up) (ie_Name link_down) = true.
Proof. split; vm_compute; reflexivity. Qed.

Lemma interface_down_keeps_adjacency_witness :
  exists s1, sysStep (R := canonical_range) (PQ := Heap.binaryHeap) (LInterface spine_world link_down) spine_up
      = Some s1 /\ a_interfaces (s_agent s1) !! "ethernet-1/1"%string = None /\
    is_Some (Adjacencies (s_flood s1) !! "ethernet-1/1"%string).
Proof.
  destruct (bool_decide_eq_true_1 _ spine_up_facts) as (_ & H2 & [adj H3]).
  destruct (interface_down_keeps_adjacency (R := canonical_range) (PQ := Heap.binaryHeap) spine_world link_down
    spine_up adj (bool_decide_eq_true_1 _ (proj1 spine_up_runs)) (proj2 spine_up_runs) eq_refl eq_refl H3
    (eq_ind_r (Forall _) (Forall_nil_2 _) H2)) as (s1 & E & Hn & Hr).
  exists s1. exact (conj E (conj Hn (ex_intro _ adj (Hr s1 (reach_here _ s1))))).
Defined.

(** C33: flooding between two agents: a well-formed packet that the flood engine
    hands to the send loop for an interface with an open flood socket leaves it
    as one datagram to the neighbour's address and port, and the receive loop
    of the neighbour, unless it takes the sender for itself, passes exactly this
    packet on to its flood engine. *)
Theorem flood_packet_delivered {R : MapRange} addrString a fp iface t ip src
    (Hi : a_interfaces a !! FP_InterfaceName fp = Some iface)
    (Hopen : t_floodConn (is_transport iface) = true)
    (Ht : typed_ProtocolPacket (FP_Packet fp)) (Hf : fits_ProtocolPacket (FP_Packet fp))
    (Hl : is_int 32 (FP_RemainingLifetime fp))
    (Hsrc : extractAddr ip = Some src) (Hself : src <> t_localAddr t) :
  exists data, floodSend a fp
      = Some (FP_InterfaceName fp, (data, FP_DestAddr fp, FP_DestPort fp)) /\
    floodRecv addrString <$> recvFlood t ip data
      = Some (mkReceivedFloodPkt (FP_Packet fp) (addrString src) (t_ifName t)).
Proof.
  destruct (encodeFramed_total (FP_Packet fp) (FP_RemainingLifetime fp) Hf) as [data E].
  exists data. unfold floodSend, SendFlood, recvFlood. rewrite Hi. cbn [mbind option_bind].
  rewrite Hopen. cbn [negb].
  change (encodeFloodPacket (FP_Packet fp) (FP_RemainingLifetime fp))
    with (encodeFramed (FP_Packet fp) (FP_RemainingLifetime fp)).
  rewrite E. split; [done|]. rewrite Hsrc. cbn [mbind option_bind].
  rewrite bool_decide_eq_false_2 by done.
  by rewrite (decodePacket_encodeFramed _ _ _ Ht Hf Hl E).
Qed.

(** The interface of the spine once its flood socket is open, and the packet of
    the wire-format examples on its way to leaf 2. *)
Definition spine_fp : FloodPacket :=
  mkFloodPacket "ethernet-1/1" sample_packet (AddrV4 2) DefaultTIEUDPFloodPort 100.

Definition leaf_transport : InterfaceTransport :=
  mkInterfaceTransport "ethernet-1/49" (AddrV4 2) 20 true.

Lemma flood_packet_delivered_witness :
  exists data, floodSend (R := canonical_range) (s_agent spine_up) spine_fp
      = Some ("ethernet-1/1"%string, (data, AddrV4 2, DefaultTIEUDPFloodPort)) /\
    floodRecv (fun _ => "10.0.0.1"%string) <$> recvFlood leaf_transport [x00; x00; x00; x01] data
      = Some (mkReceivedFloodPkt sample_packet "10.0.0.1" "ethernet-1/49").
Proof.
  assert (exists iface, a_interfaces (s_agent spine_up) !! "ethernet-1/1"%string = Some iface /\
    t_floodConn (is_transport iface) = true) as (iface & Hi & Ho).
  { assert (bool_decide (t_floodConn ∘ is_transport <$> a_interfaces (s_agent spine_up) !! "ethernet-1/1"%string
      = Some true) = true) as H%bool_decide_eq_true_1 by (vm_compute; reflexivity).
    destruct (a_interfaces (s_agent spine_up) !! "ethernet-1/1"%string) as [iface|]; [|discriminate H].
    exists iface. split; [reflexivity|]. injection H as H. exact H. }
  exact (flood_packet_delivered (R := canonical_range) (fun _ => "10.0.0.1"%string) (s_agent spine_up) spine_fp iface leaf_transport
    [x00; x00; x00; x01] (AddrV4 1) Hi Ho sample_typed sample_fits (proj2 (is_int32 100) ltac:(lia)) eq_refl
    ltac:(discriminate)).
Defined.
